(* ===== verification/_CoqProject ===== *)
-Q . S2P
Prelude.v
Text.v
Json.v
Workflow.v
Redis.v
Queue.v
RedisQueue.v
Db.v
Outbox.v
Service.v
Server.v
System.v
Strings.v
Auth.v
Api.v
Worker.v
Turn.v
Run.v
Cli.v
Main.v
