(* ===== verification/Prelude.v ===== *)
(** * Orqestra: a verified model of the job orchestrator

    Orqestra (README.md) runs shell jobs and workflows of jobs.  A client submits a
    job over HTTP; it is written to Postgres together with an outbox entry; the relay
    moves it to a queue in Redis; a worker that says it is ready over its gRPC stream
    gets the oldest job, runs it and reports the result; a failed job is retried with
    a growing delay until its budget is used up; the completion of a workflow step
    makes the server submit the steps that now have all their dependencies.  The
    processes crash, calls of Postgres and Redis fail or lose their replies, and
    workers fall silent; the point of the program is that jobs survive this.

    ** Files and the sources they model

    - [Prelude]: errors, results, the state monad [M], connections with a schedule of
      faults, and the weakest-precondition rules the proofs use.
    - [Text]: decimal numbers (strconv), UTF-8 as Go and Postgres see it.
    - [Json]: the part of encoding/json that the payloads pass through.
    - [Workflow]: internal/workflow/workflow.go ([Normalize], [Validate],
      [UnblockedSteps], the registry, [LoadFromDir]).
    - [Redis]: the Redis commands the queue uses, as a class [Redis] with its laws and
      a reference store that satisfies them.
    - [Queue]: internal/queue/job.go and queue.go: [Job] and its JSON text, and the
      interface [Queue] as a class.  Its contract [QueueLaws] says that every operation
      is a transition of an abstract queue [qview], also when calls fail.
    - [RedisQueue]: internal/queue/redis.go, every method, and the instance of the
      contract.
    - [Db]: migrations/*.up.sql as a record of tables, and every function of
      internal/db.  One SQL statement is one function on the tables; transactions
      commit or put the tables back.
    - [Outbox]: the state that the goroutines share ([world]: database and queue), and
      internal/outbox/relay.go.
    - [Service]: internal/service (job_service.go, workflow_service.go) and the
      callback of internal/scheduler/scheduler.go.
    - [Server]: internal/server (server.go, backoff.go): ownership, the loop of [Work]
      as steps, [handleResult], the reaper, [retryDelay].
    - [System]: cmd/server/main.go: the startup recovery and the events the process
      serves, as a transition system with crashes.
    - [Strings]: strings.CutPrefix, TrimSpace and Trim, %q, strconv.ParseInt with its
      signs, float64 and strconv.ParseFloat, the flag package.
    - [Auth]: SHA-256 and hexadecimal text, internal/config/config.go,
      cmd/keygen/main.go, and the check of an API key.
    - [Api]: internal/api (handler.go, middleware.go): routes, middleware and handlers,
      from a request to the bytes of the answer.
    - [Worker]: cmd/worker/main.go: [executeJob], the loop of runWorker as steps, and a
      [session]: the two ends of one stream, this loop and that of [Work].
    - [Cli]: cmd/cli/main.go: every command over an HTTP that is a parameter, and
      [local_http], the API behind it.
    - [Turn], [Run]: one turn of a worker, and a workflow's run from its trigger to its
      end, against [outputs], which says what the steps compute.
    - [Main]: cmd/server/main.go before it serves ([boot]), the registration loop of
      internal/scheduler/scheduler.go, and the way of a job through all parts.

    Definitions carry the names of the Go functions; the methods of [RedisQueue] have
    the prefix [rq_], the pass-through methods of the services [svc_] where a name of
    [Db] is taken, the HTTP handlers the suffix [_handler].  A Go function that returns
    an error returns a [result]; [try_bind] is the early return on an error, a plain
    bind goes on whatever the error, as the code does where it ignores or logs it.

    ** Failures and time

    A call of a service is one [call] on a connection [conn], which holds the data of
    the service, a schedule of faults and the clock.  A fault loses the call, loses the
    reply after the effect, or cuts an answer off ([fault]).  Theorems without a
    hypothesis on the schedule hold whatever fails; [reliable] asks that nothing does.
    A pipeline of Redis (TxPipeline, MULTI/EXEC) and a statement of Postgres are one
    call each, so they happen as a whole or not at all.  A call is tried once: that
    go-redis tries a failed command again on its own is not modelled (a SADD whose first
    reply is lost would then answer 0).  Handlers run one after
    another, in any order; how the calls of two goroutines interleave inside a handler
    is not modelled, except that the relay skips entries another transaction has
    locked.

    ** What is proved

    - [System]: in every state the process can reach, through crashes and any failures,
      a job has an outbox entry or is held by the queue with its payload; a step of a
      workflow has a job only after its dependencies were completed, and one job at
      most; a restart and one pass of the relay put every job where [Consume] finds it.
      Two sets of jobs are excepted from the first and the third: [sy_marked], of which
      an [Enqueue] broke between its two calls, which [RedisQueue] shows to lose the
      job; and [sy_finished], which were settled once, or on which the owner reported a
      last result and which the queue then let go, even when the database failed to
      write the result.  A job of [sy_finished] that is still running is put back by the
      restart.  Every start may load another registry; for the order of the steps all
      starts load the same.  The sequence of job IDs stays within 64 bits.
    - [RedisQueue]: the Redis implementation refines the contract, for every fault
      schedule; [Consume] returns the oldest live entry and ends when its context
      does.  [Queue]: as long as no [Enqueue] fails halfway the contract never loses a
      queued job and keeps each in exactly one place when only consumed jobs are
      settled; it serves in order, and holds a retry back until it is due.
    - [Workflow]: [Validate] accepts exactly the well-formed acyclic workflows and
      always ends; [UnblockedSteps] is exact; the registry only holds valid workflows.
    - [Db]: inserts, cancellation of a run and the reset at a restart are
      all-or-nothing; a step is inserted once.
    - [Outbox]: an entry is marked only when its job is in the queue with its payload,
      or had its ID marked before by an [Enqueue] that broke; a pass without failures
      drains the table in order; repeating a pass adds nothing.
    - [Service], [Server]: what [CancelJob], [TriggerWorkflow], [Advance],
      [handleResult], [Work] and the reaper do on each branch, with and without
      failures.
    - [Auth], [Api]: a request without a stored key changes nothing, whatever fails; a
      key the generator printed opens the API; every answer of a route is JSON of the
      type the route has for its status; a POST creates exactly the job of its body,
      a GET reports the tables and changes nothing.
    - [Worker]: [executeJob] on every payload and outcome; while a stream is open the
      worker executes the job that the server holds for it; a step of a workflow gets
      the output of its only dependency.
    - [Cli]: a command line makes the one request of its command or is refused, and
      its exit code says which; the command of orq submit is what the worker's shell runs.
    - [Run]: a triggered workflow is completed after one pass of the relay and one turn
      of a worker per step, each step with one job and the output of [outputs].
    - [Main]: the server serves only after a complete recovery; a tick of the
      scheduler starts no run of a workflow that has one; a submitted job is handed to a worker
      that is ready and is shown completed with its output.
    - Some theorems state behaviour that loses or repeats work: a half-failed
      [Enqueue], a trigger that leaves a run without jobs, a relay that forgets
      retries, a disconnect that revives a settled job, the overflow of the delay, a
      result that is not UTF-8 and ends every worker that gets the job.

    ** Fuel and bounds

    [dfs] takes the number of steps plus one as fuel, which [Validate_total_and_sound]
    shows to be enough.  [Consume] blocks, so it takes fuel for the iterations of its
    loop and answers [None] while it is still waiting; [Consume_ends] gives the fuel
    after which it answers once its context is done.  [output_of] takes the number of
    steps, which [outputs_eq] shows to be enough.  INT columns, the fields of the
    protocol, Go's int and time.Duration have their width; the sequences of BIGSERIAL
    columns are unbounded, and where it matters a theorem asks that they fit 64 bits.

    ** What is not modelled

    What is outside the sources is a parameter: YAML decoding and the file system of
    [LoadFromDir]; Redis, with its documented commands as laws; the conversion of an
    overflowing float; what the shell does with a command; which messages protocol
    buffers can marshal; the transport of HTTP in the CLI; the texts of errors of
    drivers and of encoding/json; which characters beyond ASCII are printable.  In the
    CLI a failure of http.NewRequest (a URL that does not parse) counts as an error of
    the transport.  The order of [Registry.List] is one fixed order, where Go's is random.
    net/http is modelled from the routed request on: the redirect of unclean paths, the
    headers of an answer other than its content type and the missing body of an answer
    to HEAD are left out, like the usage text that the flag package prints.

    Handlers run one after another; the interleaving of single calls of two goroutines
    is the largest part still open.  Sessions of workers ([Worker]) and the transition
    system ([System]) share the handlers, and are not composed into one system of
    several streams.  The connection pool, the logger, the cleanup tool, the generated
    gRPC code, the cron library and the tickers carry no logic of the program beyond
    deciding what runs next. *)
From stdpp Require Import gmap strings list fin_maps sorting pretty.

#[export] Set Warnings "-clear-no-such-hyp".

(** ** Errors and results

    A Go call returns a value and an [error].  [goerr] lists the errors the
    program distinguishes or creates; the text of an error of the driver or of
    the operating system is never inspected, so [ErrIO] carries none. *)
Inductive goerr : Type :=
  | ErrNoRows                                    (* pgx.ErrNoRows *)
  | ErrRedisNil                                  (* gredis.Nil *)
  | ErrCanceled                                  (* context.Canceled *)
  | ErrIO                                        (* a call of a service failed *)
  | ErrConstraint                                (* Postgres refused the row *)
  | ErrJSON                                      (* encoding/json refused the text *)
  | ErrDuplicateStep (id : string)
  | ErrUnknownDep (id dep : string)
  | ErrCycle (id : string)
  | ErrReadDir
  | ErrReadFile (name : string)
  | ErrParse (name : string)
  | ErrInvalid (name : string) (e : goerr)
  | ErrWorkflowNotFound (name : string)
  | ErrNotCancellable (id : Z) (status : string)
  | ErrNotANumber (text : string).

#[export] Instance goerr_eq_dec : EqDecision goerr.
Proof. solve_decision. Defined.

Inductive result (A : Type) : Type :=
  | Ok (a : A)
  | Err (e : goerr).
Arguments Ok {A} a.
Arguments Err {A} e.

#[export] Instance result_eq_dec `{EqDecision A} : EqDecision (result A).
Proof. solve_decision. Defined.

Definition is_ok {A} (r : result A) : bool :=
  match r with Ok _ => true | Err _ => false end.

(** ** State passing

    A Go function that touches a store [S] and returns an [A]. *)
Definition M (S A : Type) : Type := S → A * S.

#[export] Instance M_ret {S} : MRet (M S) := λ A a s, (a, s).
#[export] Instance M_bind {S} : MBind (M S) := λ A B f m s,
  let '(a, s') := m s in f a s'.

(** [if err != nil { return err }] *)
Definition try_bind {S A B} (m : M S (result A)) (f : A → M S (result B)) :
    M S (result B) :=
  r ← m; match r with Ok a => f a | Err e => mret (Err e) end.

(** ** Calls of a service

    Postgres and Redis are reached over a connection.  A call either succeeds,
    fails without reaching the service ([FLost]), takes effect and then reports
    an error ([FLate], a reply lost on the way back), or breaks off while the rows
    of its answer are read ([FCut]).  [c_faults] is the schedule of what happens to
    the next calls; past its end calls succeed.  [c_now] is the clock in
    nanoseconds. *)
Inductive fault : Type := FOk | FLost | FLate | FCut (rows : nat).

Record conn (T : Type) : Type := Conn {
  c_data : T;
  c_faults : list fault;
  c_now : Z;
}.
Arguments Conn {T} _ _ _.
Arguments c_data {T} _.
Arguments c_faults {T} _.
Arguments c_now {T} _.

Definition call {T A} (f : Z → T → result A * T) : M (conn T) (result A) := λ c,
  let rest := tail (c_faults c) in
  let '(r, d) := f (c_now c) (c_data c) in
  match head (c_faults c) with
  | Some FLost => (Err ErrIO, Conn (c_data c) rest (c_now c))
  | Some FLate | Some (FCut _) => (Err ErrIO, Conn d rest (c_now c))
  | _ => (r, Conn d rest (c_now c))
  end.

(** A query whose caller stops at the last row it gets and does not ask why
    ([rows.Err()] is not looked at): a broken connection shortens the answer. *)
Definition call_rows {T A} (f : Z → T → result (list A)) : M (conn T) (result (list A)) := λ c,
  match head (c_faults c), f (c_now c) (c_data c) with
  | Some (FCut n), Ok l => (Ok (take n l), Conn (c_data c) (tail (c_faults c)) (c_now c))
  | _, _ => call (λ now d, (f now d, d)) c
  end.

(** ** Reasoning about state passing

    [wp m s Q]: running [m] in [s] ends in a result and state that satisfy [Q]. *)
Definition wp {S A} (m : M S A) (s : S) (Q : A → S → Prop) : Prop := Q (m s).1 (m s).2.

(** Enter a definition [λ s, m s] that looks at its state first. *)
Ltac wp_enter :=
  match goal with |- wp ?m ?s ?Q =>
    let r := eval cbv beta zeta in (m s) in
    match r with ?m' s => change (wp m' s Q) end
  end.

Lemma wp_ret {S A} (a : A) (s : S) (Q : A → S → Prop) : Q a s → wp (mret a) s Q.
Proof. done. Qed.

Lemma wp_bind {S A B} (m : M S A) (f : A → M S B) s (Q : B → S → Prop) :
  wp m s (λ a s', wp (f a) s' Q) → wp (m ≫= f) s Q.
Proof. unfold wp, mbind, M_bind. by destruct (m s). Qed.

Lemma wp_mono {S A} (m : M S A) s (Q Q' : A → S → Prop) :
  wp m s Q → (∀ a s', Q a s' → Q' a s') → wp m s Q'.
Proof. unfold wp. eauto. Qed.

Lemma wp_any {S A} (m : M S A) s : wp m s (λ _ _, True).
Proof. done. Qed.
(** A call whose result is turned into an answer. *)
Lemma wp_answer {S A B} (m : M S A) (f : A → B) s (Q : B → S → Prop) :
  wp m s (λ a s', Q (f a) s') → wp (a ← m; mret (f a)) s Q.
Proof. intros Hm. apply wp_bind. eapply wp_mono; [done|]. intros a s' HQ. by apply wp_ret. Qed.
Lemma wp_and {S A} (m : M S A) s (Q Q' : A → S → Prop) :
  wp m s Q → wp m s Q' → wp m s (λ a s', Q a s' ∧ Q' a s').
Proof. done. Qed.

Lemma wp_try_bind {S A B} (m : M S (result A)) (f : A → M S (result B)) s Q :
  wp m s (λ r s', match r with Ok a => wp (f a) s' Q | Err e => Q (Err e) s' end) →
  wp (try_bind m f) s Q.
Proof.
  intros H. apply wp_bind. eapply wp_mono; [done|]. by intros [a|e] s' ?.
Qed.

(** A call leaves the data alone or applies its effect; only in the second
    case can it answer anything but [ErrIO], and without faults it does. *)
Lemma wp_call {T A} (f : Z → T → result A * T) (c : conn T) (Q : result A → conn T → Prop) :
  (∀ fs, (c_faults c = [] → fs = []) →
    Q (f (c_now c) (c_data c)).1 (Conn (f (c_now c) (c_data c)).2 fs (c_now c))) →
  (∀ fs, c_faults c ≠ [] → Q (Err ErrIO) (Conn (c_data c) fs (c_now c))) →
  (∀ fs, c_faults c ≠ [] →
    Q (Err ErrIO) (Conn (f (c_now c) (c_data c)).2 fs (c_now c))) →
  wp (call f) c Q.
Proof.
  intros H1 H2 H3. unfold wp, call. destruct (f _ _) as [r d]. simpl in *.
  destruct (c_faults c) as [|[] fs]; simpl; [apply H1|apply H1|apply H2|apply H3..]; done.
Qed.

(** A call that only reads. *)
Lemma wp_read {T A} (g : Z → T → result A) (c : conn T) (Q : result A → conn T → Prop) :
  (∀ fs, (c_faults c = [] → fs = []) →
    Q (g (c_now c) (c_data c)) (Conn (c_data c) fs (c_now c))) →
  (∀ fs, c_faults c ≠ [] → Q (Err ErrIO) (Conn (c_data c) fs (c_now c))) →
  wp (call (λ n t, (g n t, t))) c Q.
Proof. intros. by apply wp_call. Qed.

Lemma wp_call_rows {T A} (f : Z → T → result (list A)) (c : conn T)
    (Q : result (list A) → conn T → Prop) :
  (∀ fs, (c_faults c = [] → fs = []) → Q (f (c_now c) (c_data c)) (Conn (c_data c) fs (c_now c))) →
  (∀ fs, c_faults c ≠ [] → Q (Err ErrIO) (Conn (c_data c) fs (c_now c))) →
  (∀ fs l n, c_faults c ≠ [] → f (c_now c) (c_data c) = Ok l →
     Q (Ok (take n l)) (Conn (c_data c) fs (c_now c))) →
  wp (call_rows f) c Q.
Proof.
  intros H1 H2 H3. unfold wp, call_rows.
  destruct (c_faults c) as [|[| | |n] fs] eqn:Hf; [by apply wp_read; rewrite ?Hf..|].
  destruct (f _ _) as [l|e] eqn:Hl; simpl.
  - by apply H3.
  - apply (wp_read f); rewrite ?Hf, ?Hl; done.
Qed.

(** ** Lists *)

(** Selecting positions of a list in order gives an increasing list. *)
Lemma omap_index_sorted {A} (g : nat * A → option nat) (l : list A) off :
  (∀ p j, g p = Some j → j = p.1) →
  StronglySorted lt (omap g (imap (λ i, pair (off + i)) l)).
Proof.
  intros Hg.
  enough (StronglySorted lt (omap g (imap (λ i, pair (off + i)) l)) ∧
          Forall (le off) (omap g (imap (λ i, pair (off + i)) l))) by tauto.
  revert off. induction l as [|x l IH]; intros off; simpl; [split; constructor|].
  rewrite (imap_ext _ (λ i, pair (S off + i)) l) by (intros; unfold compose; by rewrite Nat.add_succ_comm).
  destruct (IH (S off)) as [IH1 IH2].
  assert (Forall (le off) (omap g (imap (λ i, pair (S off + i)) l))).
  { eapply Forall_impl; [done|]. intros; lia. }
  destruct (g _) as [j|] eqn:Hj; [|done]. apply Hg in Hj as ->. simpl.
  split; constructor; try done; [|lia].
  apply (Forall_impl (le (S off))); [done|]. intros; lia.
Qed.
