(* ===== verification/Text.v ===== *)
(** * Text of the Go standard library: decimal numbers and UTF-8

    What the program uses of [strconv] ([Itoa], [Atoi], [ParseInt]) and of
    [unicode/utf8].  A Go string is a sequence of bytes, here a [string]; [runes]
    cuts it the way [utf8.DecodeRuneInString] does. *)
From Stdlib Require Import Ascii.
From stdpp Require Import gmap strings list pretty.
From S2P Require Import Prelude.
Open Scope N_scope.

(** ** Integers *)

(** The range of Go's [int] (64 bits) and [int32]. *)
Definition in_int64 (z : Z) : bool := bool_decide (- 2 ^ 63 ≤ z < 2 ^ 63)%Z.
Definition in_int32 (z : Z) : bool := bool_decide (- 2 ^ 31 ≤ z < 2 ^ 31)%Z.

(** Conversion to a signed machine integer of [w] bits: wrap around. *)
Definition wrap (w : Z) (z : Z) : Z := ((z + 2 ^ (w - 1)) mod 2 ^ w - 2 ^ (w - 1))%Z.
Definition to_int32 (z : Z) : Z := wrap 32 z.
Definition to_int64 (z : Z) : Z := wrap 64 z.

(** [strconv.Itoa] *)
Definition Itoa (z : Z) : string := pretty z.

Definition byte (c : ascii) : N := N_of_ascii c.
Definition is_digit (c : ascii) : bool := (48 <=? byte c) && (byte c <=? 57).
Definition digit_val (c : ascii) : N := byte c - 48.

(** Value of a string of digits, most significant first, after [acc]. *)
Fixpoint dval (s : string) (acc : N) : option N :=
  match s with
  | EmptyString => Some acc
  | String c s => if is_digit c then dval s (acc * 10 + digit_val c) else None
  end.

Definition digits (s : string) : option N :=
  match s with EmptyString => None | _ => dval s 0 end.

(** [strconv.ParseInt(s, 10, 64)]: an optional sign, at least one digit, and
    the range of the type.  [strconv.Atoi] is the same on a 64-bit machine. *)
Definition ParseInt (s : string) : option Z :=
  let signed (neg : bool) (t : string) :=
    n ← digits t;
    let z := if neg then (- Z.of_N n)%Z else Z.of_N n in
    if in_int64 z then Some z else None in
  match s with
  | String "-" t => signed true t
  | String "+" t => signed false t
  | _ => signed false s
  end.
Definition Atoi (s : string) : option Z := ParseInt s.

(** ** UTF-8 *)

Definition ascii_byte (c : ascii) : bool := byte c <? 128.
Definition between (a b : N) (c : ascii) : bool := (a <=? byte c) && (byte c <=? b).
Definition cont (c : ascii) : bool := between 128 191 c.

(** The accept ranges of [utf8.DecodeRuneInString] for 2, 3 and 4 bytes. *)
Definition valid2 (c1 c2 : ascii) : bool := between 194 223 c1 && cont c2.
Definition valid3 (c1 c2 c3 : ascii) : bool :=
  cont c3 &&
  ((between 224 224 c1 && between 160 191 c2) ||
   (between 225 236 c1 && cont c2) ||
   (between 237 237 c1 && between 128 159 c2) ||
   (between 238 239 c1 && cont c2)).
Definition valid4 (c1 c2 c3 c4 : ascii) : bool :=
  cont c3 && cont c4 &&
  ((between 240 240 c1 && between 144 191 c2) ||
   (between 241 243 c1 && cont c2) ||
   (between 244 244 c1 && between 128 143 c2)).

(** One step of decoding: an ASCII byte, the bytes of a longer rune, or a byte
    that starts no valid rune (Go yields [RuneError] of width 1). *)
Inductive rune : Type :=
  | A (c : ascii)
  | U (b : string)
  | Bad (c : ascii).

#[export] Instance rune_eq_dec : EqDecision rune.
Proof. solve_decision. Defined.

Definition str2 c1 c2 : string := String c1 (String c2 EmptyString).
Definition str3 c1 c2 c3 : string := String c1 (str2 c2 c3).
Definition str4 c1 c2 c3 c4 : string := String c1 (str3 c2 c3 c4).

Fixpoint runes (s : string) : list rune :=
  match s with
  | EmptyString => []
  | String c1 s1 =>
    if ascii_byte c1 then A c1 :: runes s1 else
    match s1 with
    | String c2 s2 =>
      if valid2 c1 c2 then U (str2 c1 c2) :: runes s2 else
      match s2 with
      | String c3 s3 =>
        if valid3 c1 c2 c3 then U (str3 c1 c2 c3) :: runes s3 else
        match s3 with
        | String c4 s4 =>
          if valid4 c1 c2 c3 c4 then U (str4 c1 c2 c3 c4) :: runes s4
          else Bad c1 :: runes s1
        | EmptyString => Bad c1 :: runes s1
        end
      | EmptyString => Bad c1 :: runes s1
      end
    | EmptyString => [Bad c1]
    end
  end.

Definition rune_bytes (r : rune) : string :=
  match r with A c | Bad c => String c EmptyString | U b => b end.

Fixpoint flatten (l : list rune) : string :=
  match l with
  | [] => EmptyString
  | r :: l => rune_bytes r +:+ flatten l
  end.

(** [utf8.ValidString] *)
Definition ValidString (s : string) : bool :=
  forallb (λ r, match r with Bad _ => false | _ => true end) (runes s).

(** U+FFFD, what a byte that starts no rune turns into. *)
Definition replacement : string :=
  str3 (ascii_of_N 239) (ascii_of_N 191) (ascii_of_N 189).

Definition sanitize_rune (r : rune) : rune :=
  match r with Bad _ => U replacement | _ => r end.
(** [strings.ToValidUTF8] with U+FFFD, byte by byte: what encoding a string to
    JSON and decoding it again yields. *)
Definition sanitize (s : string) : string := flatten (sanitize_rune <$> runes s).

(** [utf8.AppendRune]; surrogates and values past U+10FFFF become U+FFFD. *)
Definition encode_rune (r : N) : string :=
  let c (n : N) := ascii_of_N n in
  if r <? 128 then String (c r) EmptyString
  else if r <? 2048 then str2 (c (192 + r / 64)) (c (128 + r mod 64))
  else if ((55296 <=? r) && (r <=? 57343)) || (1114111 <? r) then replacement
  else if r <? 65536 then
    str3 (c (224 + r / 4096)) (c (128 + (r / 64) mod 64)) (c (128 + r mod 64))
  else str4 (c (240 + r / 262144)) (c (128 + (r / 4096) mod 64))
            (c (128 + (r / 64) mod 64)) (c (128 + r mod 64)).

(** ** Lemmas: numbers *)

Lemma pretty_N_char_digit d : d < 10 →
  is_digit (pretty_N_char d) = true ∧ digit_val (pretty_N_char d) = d.
Proof.
  intros Hd. assert (d ∈ [0;1;2;3;4;5;6;7;8;9]) as Hin.
  { rewrite !elem_of_cons. destruct d as [|p]; [tauto|].
    do 4 (destruct p as [p|p|]; try (exfalso; lia); try tauto). }
  revert Hin. rewrite !elem_of_cons. intros Hin.
  repeat destruct Hin as [->|Hin]; try (split; reflexivity). set_solver.
Qed.

Lemma dval_pretty_go x s : dval (pretty_N_go x s) 0 = dval s x.
Proof.
  revert s. induction (N.lt_wf_0 x) as [x _ IH]; intros s.
  destruct (decide (x = 0)) as [->|Hx]; [by rewrite pretty_N_go_0|].
  rewrite pretty_N_go_step by lia.
  rewrite IH by (apply N.div_lt; lia). simpl.
  destruct (pretty_N_char_digit (x `mod` 10)) as [-> ->]; [apply N.mod_lt; lia|].
  f_equal. pose proof (N.div_mod x 10). lia.
Qed.

Lemma pretty_N_go_head x s : 0 < x → ∃ c t, pretty_N_go x s = String c t ∧
  is_digit c = true ∧ c ≠ "0"%char.
Proof.
  revert s. induction (N.lt_wf_0 x) as [x _ IH]; intros s Hx.
  rewrite pretty_N_go_step by lia. destruct (decide (x < 10)) as [Hlt|Hge].
  - rewrite N.div_small, N.mod_small, pretty_N_go_0 by done.
    destruct (pretty_N_char_digit x Hlt) as [Hd Hv]. eexists _, _.
    split_and!; [done..|]. intros Heq. rewrite Heq in Hv. cbv in Hv. lia.
  - apply IH; [apply N.div_lt; lia|].
    assert (1 ≤ x / 10) by (apply N.div_le_lower_bound; lia). lia.
Qed.

Lemma digits_pretty (n : N) : digits (pretty n) = Some n.
Proof.
  unfold pretty, pretty_N. case_decide as Hn; [by subst|].
  destruct (pretty_N_go_head n "" ltac:(lia)) as (c & t & Heq & _).
  unfold digits. rewrite Heq, <-Heq. by rewrite dval_pretty_go.
Qed.

Lemma digits_first c t n : digits (String c t) = Some n → is_digit c = true.
Proof. unfold digits. simpl. by destruct (is_digit c). Qed.

Lemma ParseInt_unsigned s n : digits s = Some n →
  ParseInt s = if in_int64 (Z.of_N n) then Some (Z.of_N n) else None.
Proof.
  intros Hn. destruct s as [|c t]; [done|]. pose proof (digits_first _ _ _ Hn) as Hc.
  assert (c ≠ "-"%char ∧ c ≠ "+"%char) as [H1 H2] by (split; intros ->; done).
  unfold ParseInt. destruct c as [[] [] [] [] [] [] [] []];
    try done; by rewrite Hn.
Qed.

Lemma pretty_pos_N p : pretty (Zpos p) = pretty (Npos p).
Proof. reflexivity. Qed.

Lemma ParseInt_Itoa z : in_int64 z = true → ParseInt (Itoa z) = Some z.
Proof.
  intros Hz. unfold Itoa. destruct z as [|p|p].
  - reflexivity.
  - rewrite pretty_pos_N, (ParseInt_unsigned _ _ (digits_pretty _)).
    change (Z.of_N (N.pos p)) with (Zpos p). by rewrite Hz.
  - change (pretty (Zneg p)) with (String "-" (pretty (Npos p))).
    cbn [ParseInt]. rewrite digits_pretty. cbn [mbind option_bind].
    change (- Z.of_N (N.pos p))%Z with (Zneg p). by rewrite Hz.
Qed.

Lemma Itoa_inj : Inj eq eq Itoa.
Proof. apply pretty_Z_inj. Qed.

(** ** Lemmas: UTF-8 *)

Inductive good : rune → Prop :=
  | good_A c : ascii_byte c = true → good (A c)
  | good_2 c1 c2 : valid2 c1 c2 = true → good (U (str2 c1 c2))
  | good_3 c1 c2 c3 : valid3 c1 c2 c3 = true → good (U (str3 c1 c2 c3))
  | good_4 c1 c2 c3 c4 : valid4 c1 c2 c3 c4 = true → good (U (str4 c1 c2 c3 c4)).

Ltac byte_ranges :=
  unfold valid2, valid3, valid4, cont, between, ascii_byte in *;
  rewrite <-?not_true_iff_false;
  rewrite ?andb_true_iff, ?orb_true_iff, ?andb_true_iff, ?N.leb_le, ?N.ltb_lt in *;
  lia.

Lemma valid2_lead c1 c2 : valid2 c1 c2 = true → ascii_byte c1 = false.
Proof. intros. byte_ranges. Qed.
Lemma valid3_lead c1 c2 c3 : valid3 c1 c2 c3 = true →
  ascii_byte c1 = false ∧ valid2 c1 c2 = false.
Proof. intros. split; byte_ranges. Qed.
Lemma valid4_lead c1 c2 c3 c4 : valid4 c1 c2 c3 c4 = true →
  ascii_byte c1 = false ∧ valid2 c1 c2 = false ∧ valid3 c1 c2 c3 = false.
Proof. intros. split_and!; byte_ranges. Qed.

Lemma runes_good_cons r s : good r → runes (rune_bytes r +:+ s) = r :: runes s.
Proof.
  intros Hr. destruct Hr as [c Hc|c1 c2 H|c1 c2 c3 H|c1 c2 c3 c4 H]; simpl.
  - by rewrite Hc.
  - by rewrite (valid2_lead _ _ H), H.
  - destruct (valid3_lead _ _ _ H) as [-> ->]. by rewrite H.
  - destruct (valid4_lead _ _ _ _ H) as (-> & -> & ->). by rewrite H.
Qed.

Lemma runes_flatten l : Forall good l → runes (flatten l) = l.
Proof. induction 1 as [|r l Hr _ IH]; [done|]. simpl. by rewrite runes_good_cons, IH. Qed.

(** Induction along the decoding of a string. *)
Lemma runes_ind (P : string → Prop) :
  P "" →
  (∀ r s, good r → P s → P (rune_bytes r +:+ s)) →
  (∀ c s, runes (String c s) = Bad c :: runes s → P s → P (String c s)) →
  ∀ s, P s.
Proof.
  intros H0 Hgood Hbad s. remember (String.length s) as n eqn:Hn. revert s Hn.
  induction (lt_wf n) as [n _ IH]; intros s ->.
  destruct s as [|c1 s1]; [done|].
  destruct (ascii_byte c1) eqn:H1.
  { apply (Hgood (A c1)); [by constructor|]. eapply IH; [|done]. simpl; lia. }
  destruct s1 as [|c2 s2].
  { apply Hbad; [|done]. simpl. by rewrite H1. }
  destruct (valid2 c1 c2) eqn:H2.
  { apply (Hgood (U (str2 c1 c2))); [by constructor|]. eapply IH; [|done]. simpl; lia. }
  destruct s2 as [|c3 s3].
  { apply Hbad; [by simpl; rewrite H1, H2|]. eapply IH; [|done]. simpl; lia. }
  destruct (valid3 c1 c2 c3) eqn:H3.
  { apply (Hgood (U (str3 c1 c2 c3))); [by constructor|]. eapply IH; [|done]. simpl; lia. }
  destruct s3 as [|c4 s4].
  { apply Hbad; [by simpl; rewrite H1, H2, H3|]. eapply IH; [|done]. simpl; lia. }
  destruct (valid4 c1 c2 c3 c4) eqn:H4.
  { apply (Hgood (U (str4 c1 c2 c3 c4))); [by constructor|]. eapply IH; [|done]. simpl; lia. }
  apply Hbad; [cbn; by rewrite H1, H2, H3, H4|]. eapply IH; [|done]. simpl; lia.
Qed.

Lemma flatten_runes s : flatten (runes s) = s.
Proof.
  induction s as [|r s Hr IH|c s Hc IH] using runes_ind; [done| |].
  - rewrite runes_good_cons by done. simpl. by rewrite IH.
  - rewrite Hc. simpl. by rewrite IH.
Qed.

Lemma runes_classified s : Forall (λ r, good r ∨ ∃ c, r = Bad c) (runes s).
Proof.
  induction s as [|r s Hr IH|c s Hc IH] using runes_ind; [constructor| |].
  - rewrite runes_good_cons by done. constructor; [by left|done].
  - rewrite Hc. constructor; [right; by eexists|done].
Qed.

Lemma good_replacement : good (U replacement).
Proof. apply good_3. vm_compute. reflexivity. Qed.

Lemma sanitized_good s : Forall good (sanitize_rune <$> runes s).
Proof.
  apply Forall_fmap. eapply Forall_impl; [apply runes_classified|].
  intros r [Hr|[c ->]]; simpl; [|apply good_replacement].
  destruct r; [done..|]. inversion Hr.
Qed.

Lemma runes_sanitize s : runes (sanitize s) = sanitize_rune <$> runes s.
Proof. apply runes_flatten, sanitized_good. Qed.

Lemma ValidString_good s : ValidString s = true → Forall good (runes s).
Proof.
  unfold ValidString. rewrite forallb_forall. intros Hv.
  pose proof (runes_classified s) as Hc. rewrite Forall_forall in *.
  intros r Hr. destruct (Hc r Hr) as [?|[c ->]]; [done|].
  by specialize (Hv _ (proj1 (list_elem_of_In _ _) Hr)).
Qed.

Lemma sanitize_valid s : ValidString s = true → sanitize s = s.
Proof.
  intros Hv%ValidString_good. unfold sanitize. rewrite <-(flatten_runes s) at 2. f_equal.
  induction Hv as [|r l Hr _ IH]; [done|].
  rewrite fmap_cons. cbn [flatten]. rewrite IH. by destruct Hr.
Qed.

Lemma ValidString_sanitize s : ValidString (sanitize s) = true.
Proof.
  unfold ValidString. rewrite runes_sanitize, forallb_forall.
  intros r (r' & -> & _)%list_elem_of_In%list_elem_of_fmap. by destruct r'.
Qed.
