(* ===== verification/Json.v ===== *)
(** * encoding/json, as far as the program uses it

    [json.Marshal] of strings, integers and structs of them, and
    [json.Unmarshal] / [Decoder.Decode] into such structs: string escaping with
    the HTML-safe table, replacement of invalid UTF-8, case-insensitive member
    names, members that are unknown, repeated or null.  The text is handled as
    the list of its runes (file Text). *)
From Stdlib Require Import Ascii.
From stdpp Require Import gmap strings list pretty.
From S2P Require Import Prelude Text.
Open Scope N_scope.

(** ** Values *)
#[warnings="-register-all"]
Inductive json : Type :=
  | JNull
  | JBool (b : bool)
  | JNum (literal : string)
  | JStr (s : string)
  | JArr (l : list json)
  | JObj (l : list (string * json)).

(** Byte tests; the double quote isb 34, the backslash 92. *)
Definition isb (n : N) (c : ascii) : bool := byte c =? n.
Definition chr (n : N) : rune := A (ascii_of_N n).
Fixpoint lit (s : string) : list rune :=
  match s with EmptyString => [] | String c s => A c :: lit s end.

(** ** Encoding *)
Definition hex_digit (n : N) : ascii := ascii_of_N (if n <? 10 then 48 + n else 87 + n).

Definition line_sep : string := str3 (ascii_of_N 226) (ascii_of_N 128) (ascii_of_N 168).
Definition para_sep : string := str3 (ascii_of_N 226) (ascii_of_N 128) (ascii_of_N 169).

Definition quote_rune (r : rune) : list rune :=
  match r with
  | A c =>
      if isb 34 c || isb 92 c then [chr 92; A c]
      else if (32 <=? byte c) && negb (isb 60 c || isb 62 c || isb 38 c) then [A c]
      else if isb 8 c then lit "\b"
      else if isb 12 c then lit "\f"
      else if isb 10 c then lit "\n"
      else if isb 13 c then lit "\r"
      else if isb 9 c then lit "\t"
      else lit "\u00" ++ [A (hex_digit (byte c / 16)); A (hex_digit (byte c mod 16))]
  | U b =>
      if bool_decide (b = line_sep) then lit "\u2028"
      else if bool_decide (b = para_sep) then lit "\u2029"
      else [U b]
  | Bad _ => lit "\ufffd"
  end.

Definition quote (s : string) : list rune :=
  chr 34 :: concat (quote_rune <$> runes s) ++ [chr 34].

Fixpoint sep_by (sep : list rune) (ls : list (list rune)) : list rune :=
  match ls with
  | [] => []
  | [x] => x
  | x :: ls => x ++ sep ++ sep_by sep ls
  end.

Fixpoint print (v : json) : list rune :=
  match v with
  | JNull => lit "null"
  | JBool true => lit "true"
  | JBool false => lit "false"
  | JNum s => lit s
  | JStr s => quote s
  | JArr l => chr 91 :: sep_by [chr 44] (print <$> l) ++ [chr 93]
  | JObj l => chr 123 :: sep_by [chr 44] ((λ '(k, v), quote k ++ chr 58 :: print v) <$> l)
                ++ [chr 125]
  end.

Definition Marshal (v : json) : string := flatten (print v).

(** ** Decoding: strings *)
Definition hex_val (c : ascii) : option N :=
  let n := byte c in
  if (48 <=? n) && (n <=? 57) then Some (n - 48)
  else if (97 <=? n) && (n <=? 102) then Some (n - 87)
  else if (65 <=? n) && (n <=? 70) then Some (n - 55)
  else None.

Definition hex4 (a b c d : ascii) : option N :=
  a ← hex_val a; b ← hex_val b; c ← hex_val c; d ← hex_val d;
  Some (((a * 16 + b) * 16 + c) * 16 + d).

Definition simple_escape (c : ascii) : option ascii :=
  if isb 34 c || isb 92 c || isb 47 c then Some c
  else if isb 98 c then Some (ascii_of_N 8)
  else if isb 102 c then Some (ascii_of_N 12)
  else if isb 110 c then Some (ascii_of_N 10)
  else if isb 114 c then Some (ascii_of_N 13)
  else if isb 116 c then Some (ascii_of_N 9)
  else None.

(** [utf16.IsSurrogate], [utf16.DecodeRune] *)
Definition is_surrogate (r : N) : bool := (55296 <=? r) && (r <? 57344).
Definition decode_pair (r1 r2 : N) : option N :=
  if (55296 <=? r1) && (r1 <? 56320) && (56320 <=? r2) && (r2 <? 57344)
  then Some ((r1 - 55296) * 1024 + (r2 - 56320) + 65536) else None.

Definition prefix_str (s : string) (o : option (string * list rune)) :
    option (string * list rune) :=
  (λ '(t, l), (s +:+ t, l)) <$> o.

(** The body of a string literal, up to and with the closing quote. *)
Fixpoint parse_str (l : list rune) : option (string * list rune) :=
  match l with
  | [] => None
  | A c :: l1 =>
    if isb 34 c then Some (EmptyString, l1)
    else if isb 92 c then
      match l1 with
      | A e :: l2 =>
        match simple_escape e with
        | Some d => prefix_str (String d EmptyString) (parse_str l2)
        | None =>
          match l2 with
          | A h1 :: A h2 :: A h3 :: A h4 :: l3 =>
            if negb (isb 117 e) then None else
            match hex4 h1 h2 h3 h4 with
            | None => None
            | Some r =>
              if is_surrogate r then
                match l3 with
                | A b :: A u :: A k1 :: A k2 :: A k3 :: A k4 :: l4 =>
                  match (if isb 92 b && isb 117 u then hex4 k1 k2 k3 k4 else None)
                        ≫= decode_pair r with
                  | Some r' => prefix_str (encode_rune r') (parse_str l4)
                  | None => prefix_str replacement (parse_str l3)
                  end
                | _ => prefix_str replacement (parse_str l3)
                end
              else prefix_str (encode_rune r) (parse_str l3)
            end
          | _ => None
          end
        end
      | _ => None
      end
    else if byte c <? 32 then None
    else prefix_str (String c EmptyString) (parse_str l1)
  | U b :: l1 => prefix_str b (parse_str l1)
  | Bad _ :: l1 => prefix_str replacement (parse_str l1)
  end.

(** ** Decoding: numbers *)
Fixpoint span_digits (l : list rune) : string * list rune :=
  match l with
  | A c :: l1 => if is_digit c then let '(s, r) := span_digits l1 in (String c s, r)
                 else (EmptyString, l)
  | _ => (EmptyString, l)
  end.

Definition parse_int_part (l : list rune) : option (string * list rune) :=
  match l with
  | A c :: l1 =>
      if isb 48 c then Some (String c EmptyString, l1)
      else if is_digit c then let '(s, r) := span_digits l1 in Some (String c s, r)
      else None
  | _ => None
  end.

Definition parse_frac (l : list rune) : option (string * list rune) :=
  match l with
  | A c :: l1 =>
      if isb 46 c then
        match span_digits l1 with
        | (EmptyString, _) => None
        | (s, r) => Some (String c s, r)
        end
      else Some (EmptyString, l)
  | _ => Some (EmptyString, l)
  end.

(** An optional sign among the bytes [ns]. *)
Definition parse_sign (ns : list N) (l : list rune) : string * list rune :=
  match l with
  | A c :: l1 => if existsb (λ n, isb n c) ns then (String c EmptyString, l1)
                 else (EmptyString, l)
  | _ => (EmptyString, l)
  end.

Definition parse_exp (l : list rune) : option (string * list rune) :=
  match l with
  | A c :: l1 =>
      if isb 101 c || isb 69 c then
        let '(sg, l2) := parse_sign [43; 45] l1 in
        match span_digits l2 with
        | (EmptyString, _) => None
        | (s, r) => Some (String c (sg +:+ s), r)
        end
      else Some (EmptyString, l)
  | _ => Some (EmptyString, l)
  end.

Definition parse_number (l : list rune) : option (string * list rune) :=
  let '(sg, l) := parse_sign [45] l in
  '(i, l) ← parse_int_part l;
  '(f, l) ← parse_frac l;
  '(e, l) ← parse_exp l;
  Some (sg +:+ i +:+ f +:+ e, l).

(** ** Decoding: values *)
Fixpoint skip_ws (l : list rune) : list rune :=
  match l with
  | A c :: l1 => if isb 32 c || isb 9 c || isb 13 c || isb 10 c then skip_ws l1 else l
  | _ => l
  end.

(** [expect w l]: [l] after the ASCII word [w]. *)
Fixpoint expect (w : string) (l : list rune) : option (list rune) :=
  match w, l with
  | EmptyString, _ => Some l
  | String a w, A c :: l => if Ascii.eqb a c then expect w l else None
  | _, _ => None
  end.

(** The first rune after white space must be the ASCII byte [n]. *)
Definition token (n : N) (l : list rune) : option (list rune) :=
  match skip_ws l with
  | A c :: l => if isb n c then Some l else None
  | _ => None
  end.

(** [depth] is what is left of the nesting limit of 10000 (maxNestingDepth). *)
Fixpoint parse_value (fuel : nat) (depth : N) (l : list rune) {struct fuel} :
    option (json * list rune) :=
  match fuel with
  | O => None
  | S fuel =>
    match skip_ws l with
    | A c :: l1 =>
      if isb 34 c then '(s, r) ← parse_str l1; Some (JStr s, r)
      else if isb 91 c then
        if depth =? 0 then None else
        match token 93 l1 with
        | Some l2 => Some (JArr [], l2)
        | None => '(vs, r) ← parse_elems fuel (depth - 1) l1; Some (JArr vs, r)
        end
      else if isb 123 c then
        if depth =? 0 then None else
        match token 125 l1 with
        | Some l2 => Some (JObj [], l2)
        | None => '(vs, r) ← parse_members fuel (depth - 1) l1; Some (JObj vs, r)
        end
      else if isb 110 c then r ← expect "ull" l1; Some (JNull, r)
      else if isb 116 c then r ← expect "rue" l1; Some (JBool true, r)
      else if isb 102 c then r ← expect "alse" l1; Some (JBool false, r)
      else '(s, r) ← parse_number (A c :: l1); Some (JNum s, r)
    | _ => None
    end
  end
with parse_elems (fuel : nat) (depth : N) (l : list rune) {struct fuel} :
    option (list json * list rune) :=
  match fuel with
  | O => None
  | S fuel =>
    '(v, l1) ← parse_value fuel depth l;
    match token 44 l1 with
    | Some l2 => '(vs, r) ← parse_elems fuel depth l2; Some (v :: vs, r)
    | None => r ← token 93 l1; Some ([v], r)
    end
  end
with parse_members (fuel : nat) (depth : N) (l : list rune) {struct fuel} :
    option (list (string * json) * list rune) :=
  match fuel with
  | O => None
  | S fuel =>
    l1 ← token 34 l;
    '(k, l2) ← parse_str l1;
    l3 ← token 58 l2;
    '(v, l4) ← parse_value fuel depth l3;
    match token 44 l4 with
    | Some l5 => '(vs, r) ← parse_members fuel depth l5; Some ((k, v) :: vs, r)
    | None => r ← token 125 l4; Some ([(k, v)], r)
    end
  end.

(** Every call consumes a rune within two steps of the recursion. *)
Definition parse_fuel (l : list rune) : nat := 2 * length l + 3.

(** The first value of a text, as [Decoder.Decode] reads it. *)
Definition Decode (s : string) : option json :=
  let l := runes s in fst <$> parse_value (parse_fuel l) 10000 l.

(** A whole text, as [json.Unmarshal] wants it: only white space may follow. *)
Definition Parse (s : string) : option json :=
  let l := runes s in
  '(v, r) ← parse_value (parse_fuel l) 10000 l;
  match skip_ws r with [] => Some v | _ => None end.

(** ** Decoding into a struct *)

(** [foldName]: ASCII letters fold to upper case, and so do the two other runes
    that fold to a letter, U+017F (long s) and U+212A (kelvin sign). *)
Definition fold_rune (r : rune) : rune :=
  match r with
  | A c => if (97 <=? byte c) && (byte c <=? 122) then chr (byte c - 32) else r
  | U b => if bool_decide (b = str2 (ascii_of_N 197) (ascii_of_N 191)) then A "S"
           else if bool_decide (b = str3 (ascii_of_N 226) (ascii_of_N 132) (ascii_of_N 170))
           then A "K" else r
  | Bad _ => U replacement
  end.
Definition foldName (s : string) : list rune := fold_rune <$> runes s.

(** A field of a struct [T]: its member name and how a value is stored; [None]
    is an UnmarshalTypeError. *)
Abbreviation field T := (string * (json → T → option T))%type.

Definition find_field {T} (fs : list (field T)) (k : string) : option (json → T → option T) :=
  match list_find (λ f, f.1 = k) fs with
  | Some (_, f) => Some f.2
  | None => (λ p, p.2.2) <$> list_find (λ f, foldName f.1 = foldName k) fs
  end.

(** Go keeps decoding after a type error and then returns the error; the
    callers drop the value, so the first error is the result. *)
Fixpoint set_fields {T} (fs : list (field T)) (ms : list (string * json)) (t : T) : option T :=
  match ms with
  | [] => Some t
  | (k, v) :: ms =>
      t ← match find_field fs k with Some set => set v t | None => Some t end;
      set_fields fs ms t
  end.

Definition decode_struct {T} (fs : list (field T)) (zero : T) (v : json) : option T :=
  match v with
  | JNull => Some zero
  | JObj ms => set_fields fs ms zero
  | _ => None
  end.

Definition int_field {T} (name : string) (set : Z → T → T) : field T :=
  (name, λ v t, match v with
                | JNull => Some t
                | JNum s => (λ z, set z t) <$> ParseInt s
                | _ => None
                end).
Definition string_field {T} (name : string) (set : string → T → T) : field T :=
  (name, λ v t, match v with
                | JNull => Some t
                | JStr s => Some (set s t)
                | _ => None
                end).

(** [json.Unmarshal([]byte(s), &t)] and [json.NewDecoder(r).Decode(&t)] for a
    zero-initialized [t]. *)
Definition Unmarshal {T} (fs : list (field T)) (zero : T) (s : string) : result T :=
  match v ← Parse s; decode_struct fs zero v with Some t => Ok t | None => Err ErrJSON end.
Definition DecodeInto {T} (fs : list (field T)) (zero : T) (s : string) : result T :=
  match v ← Decode s; decode_struct fs zero v with Some t => Ok t | None => Err ErrJSON end.

(** ** Lemmas: strings *)
Lemma parse_quote_A c l : ascii_byte c = true →
  parse_str (quote_rune (A c) ++ l) = prefix_str (String c EmptyString) (parse_str l).
Proof.
  intros Hc. destruct c as [[] [] [] [] [] [] [] []];
    first [discriminate Hc | reflexivity].
Qed.

Lemma parse_quote_U b l :
  parse_str (quote_rune (U b) ++ l) = prefix_str b (parse_str l).
Proof.
  unfold quote_rune. case_bool_decide as H1; [subst; reflexivity|].
  case_bool_decide as H2; [subst; reflexivity|]. reflexivity.
Qed.

Lemma parse_quote_rune r l : good r ∨ (∃ c, r = Bad c) →
  parse_str (quote_rune r ++ l) = prefix_str (rune_bytes (sanitize_rune r)) (parse_str l).
Proof.
  intros [Hr|[c ->]]; [|reflexivity]. destruct r as [c|b|c].
  - apply parse_quote_A. by inversion Hr.
  - apply parse_quote_U.
  - inversion Hr.
Qed.

Lemma parse_quoted_body l rest : Forall (λ r, good r ∨ ∃ c, r = Bad c) l →
  parse_str (concat (quote_rune <$> l) ++ chr 34 :: rest) =
    Some (flatten (sanitize_rune <$> l), rest).
Proof.
  induction 1 as [|r l Hr _ IH]; [reflexivity|].
  rewrite fmap_cons. cbn [concat]. rewrite <-app_assoc, parse_quote_rune, IH by done.
  reflexivity.
Qed.

(** Reading back a quoted string gives it with invalid UTF-8 replaced. *)
Lemma parse_str_quote s rest :
  parse_str (concat (quote_rune <$> runes s) ++ chr 34 :: rest) = Some (sanitize s, rest).
Proof. apply parse_quoted_body, runes_classified. Qed.

(** ** Lemmas: numbers *)

(** What may follow a value in printed text. *)
Definition stop (l : list rune) : Prop :=
  match l with
  | [] => True
  | A c :: _ => isb 44 c || isb 93 c || isb 125 c || isb 10 c = true
  | _ => False
  end.

Lemma stop_cases l : stop l →
  l = [] ∨ ∃ n t, l = chr n :: t ∧ (n = 44 ∨ n = 93 ∨ n = 125 ∨ n = 10).
Proof.
  destruct l as [|[c|b|c] t]; simpl; try tauto. unfold isb. intros Hc. right.
  exists (byte c), t. unfold chr, byte. rewrite ascii_N_embedding. split; [done|].
  rewrite !orb_true_iff, !N.eqb_eq in Hc. tauto.
Qed.

Lemma span_digits_lit s n acc rest : dval s acc = Some n → stop rest →
  span_digits (lit s ++ rest) = (s, rest).
Proof.
  intros Hd Hstop. revert acc Hd. induction s as [|c s IH]; intros acc Hd; simpl.
  - destruct (stop_cases _ Hstop) as [->|(k & t & -> & [->|[->|[->| ->]]])]; reflexivity.
  - simpl in Hd. destruct (is_digit c); [|done]. by rewrite (IH _ Hd).
Qed.

Lemma parse_stop rest : stop rest →
  parse_frac rest = Some (EmptyString, rest) ∧ parse_exp rest = Some (EmptyString, rest).
Proof.
  intros Hstop.
  destruct (stop_cases _ Hstop) as [->|(k & t & -> & [->|[->|[->| ->]]])]; split; reflexivity.
Qed.

Lemma app_nil_r_str (s : string) : s +:+ "" = s.
Proof. induction s as [|c s IH]; [done|]. change (String c (s +:+ "") = String c s). by rewrite IH. Qed.

Lemma parse_int_part_pretty (n : N) rest : stop rest →
  parse_int_part (lit (pretty n) ++ rest) = Some (pretty n, rest).
Proof.
  intros Hstop. pose proof (digits_pretty n) as Hd. unfold pretty, pretty_N in *.
  case_decide as Hn; [reflexivity|].
  destruct (pretty_N_go_head n "" ltac:(lia)) as (c & t & Heq & Hc & H0).
  rewrite Heq in *. unfold digits in Hd. simpl in Hd. rewrite Hc in Hd. simpl.
  unfold isb. destruct (N.eqb_spec (byte c) 48) as [H48|_].
  { destruct H0. rewrite <-(ascii_N_embedding c). by rewrite H48 || (unfold byte in H48; rewrite H48). }
  rewrite Hc. by rewrite (span_digits_lit _ _ _ _ Hd Hstop).
Qed.

Lemma parse_number_unsigned (n : N) rest : stop rest →
  parse_number (lit (pretty n) ++ rest) = Some (pretty n, rest).
Proof.
  intros Hstop. pose proof (parse_int_part_pretty n rest Hstop) as Hi.
  destruct (parse_stop rest Hstop) as [Hf He].
  unfold parse_number.
  assert (parse_sign [45] (lit (pretty n) ++ rest) = (EmptyString, lit (pretty n) ++ rest)) as ->.
  { pose proof (digits_pretty n) as Hd. destruct (pretty n) as [|c t]; [done|].
    apply digits_first in Hd. simpl. unfold isb. destruct (N.eqb_spec (byte c) 45) as [H|]; [|done].
    unfold is_digit in Hd. by rewrite H in Hd. }
  rewrite Hi. cbn [mbind option_bind]. rewrite Hf. cbn [mbind option_bind]. rewrite He.
  cbn [mbind option_bind]. by rewrite !app_nil_r_str.
Qed.

Lemma parse_number_Itoa z rest : stop rest →
  parse_number (lit (Itoa z) ++ rest) = Some (Itoa z, rest).
Proof.
  intros Hstop. unfold Itoa. destruct z as [|p|p].
  - apply (parse_number_unsigned 0 rest Hstop).
  - apply (parse_number_unsigned (Npos p) rest Hstop).
  - change (pretty (Zneg p)) with (String "-" (pretty (Npos p))).
    pose proof (parse_int_part_pretty (Npos p) rest Hstop) as Hi.
    destruct (parse_stop rest Hstop) as [Hf He].
    unfold parse_number.
    change (parse_sign [45] (lit (String "-" (pretty (N.pos p))) ++ rest))
      with ("-", lit (pretty (N.pos p)) ++ rest). cbv iota beta.
    rewrite Hi. cbn [mbind option_bind]. rewrite Hf. cbn [mbind option_bind]. rewrite He.
    cbn [mbind option_bind]. by rewrite !app_nil_r_str.
Qed.

(** ** Lemmas: values *)
Lemma json_ind' (P : json → Prop) :
  P JNull → (∀ b, P (JBool b)) → (∀ s, P (JNum s)) → (∀ s, P (JStr s)) →
  (∀ l, Forall P l → P (JArr l)) → (∀ l, Forall (λ kv, P kv.2) l → P (JObj l)) →
  ∀ v, P v.
Proof.
  intros Hn Hb Hi Hs Ha Ho. fix IH 1. intros [|b|s|s|l|l].
  - apply Hn. - apply Hb. - apply Hi. - apply Hs.
  - apply Ha. induction l as [|v l IHl]; constructor; [apply IH|apply IHl].
  - apply Ho. induction l as [|[k v] l IHl]; constructor; [apply IH|apply IHl].
Qed.

(** The values the program marshals: every number is an integer. *)
#[warnings="-register-all"]
Inductive plain : json → Prop :=
  | plain_null : plain JNull
  | plain_bool b : plain (JBool b)
  | plain_num z : plain (JNum (Itoa z))
  | plain_str s : plain (JStr s)
  | plain_arr l : Forall plain l → plain (JArr l)
  | plain_obj l : Forall (λ kv, plain kv.2) l → plain (JObj l).

Fixpoint nesting (v : json) : N :=
  match v with
  | JArr l => 1 + foldr N.max 0 (nesting <$> l)
  | JObj l => 1 + foldr N.max 0 ((λ '(_, v), nesting v) <$> l)
  | _ => 0
  end.

Fixpoint sanitize_json (v : json) : json :=
  match v with
  | JStr s => JStr (sanitize s)
  | JArr l => JArr (sanitize_json <$> l)
  | JObj l => JObj ((λ '(k, v), (sanitize k, sanitize_json v)) <$> l)
  | _ => v
  end.

Definition ws (c : ascii) : bool := isb 32 c || isb 9 c || isb 13 c || isb 10 c.

Lemma Itoa_head z : ∃ c t, Itoa z = String c t ∧ (is_digit c = true ∨ c = "-"%char).
Proof.
  unfold Itoa. destruct z as [|p|p].
  - exists "0"%char, "". split; [done|by left].
  - pose proof (digits_pretty (Npos p)) as Hd. rewrite pretty_pos_N.
    destruct (pretty (Npos p)) as [|c t]; [done|]. apply digits_first in Hd. eauto.
  - exists "-"%char, (pretty (Npos p)). eauto.
Qed.

(** Bytes that start a number start nothing else. *)
Lemma number_head c : is_digit c = true ∨ c = "-"%char →
  ws c = false ∧
  isb 34 c = false ∧ isb 91 c = false ∧ isb 123 c = false ∧ isb 93 c = false ∧
  isb 125 c = false ∧ isb 110 c = false ∧ isb 116 c = false ∧ isb 102 c = false.
Proof.
  intros [Hc| ->]; [|by repeat split]. unfold is_digit in Hc.
  rewrite andb_true_iff, !N.leb_le in Hc.
  unfold ws, isb. rewrite !orb_false_iff, !N.eqb_neq. lia.
Qed.

Lemma print_head v : plain v → ∃ c t, print v = A c :: t ∧
  ws c = false ∧ isb 93 c = false ∧ isb 125 c = false.
Proof.
  intros Hv. destruct Hv as [|[]|z|s|l _|l _];
    try (eexists _, _; split; [reflexivity|by repeat split]).
  destruct (Itoa_head z) as (c & t & Heq & Hc). cbn [print]. rewrite Heq.
  apply number_head in Hc. exists c, (lit t). tauto.
Qed.

Lemma skip_ws_stay c l : ws c = false → skip_ws (A c :: l) = A c :: l.
Proof. intros Hc. cbn [skip_ws]. unfold ws in Hc. by rewrite Hc. Qed.

Lemma token_here n l : ws (ascii_of_N n) = false → n < 256 → token n (chr n :: l) = Some l.
Proof.
  intros Hw Hn. unfold token, chr. rewrite skip_ws_stay by done.
  unfold isb, byte. by rewrite N_ascii_embedding, N.eqb_refl.
Qed.

Lemma token_other n c l : ws c = false → isb n c = false → token n (A c :: l) = None.
Proof. intros Hw Hn. unfold token. rewrite skip_ws_stay by done. by rewrite Hn. Qed.

Lemma token_chr n m l : ws (ascii_of_N m) = false → isb n (ascii_of_N m) = false →
  token n (chr m :: l) = None.
Proof. apply token_other. Qed.

Lemma expect_lit w l : expect w (lit w ++ l) = Some l.
Proof. induction w as [|c w IH]; [done|]. simpl. by rewrite Ascii.eqb_refl. Qed.

(** The parser reads back what the printer wrote, given enough fuel. *)
Definition reads_back (v : json) : Prop := ∀ depth rest,
  nesting v ≤ depth → stop rest →
  ∃ f0, ∀ f, (f0 ≤ f)%nat →
    parse_value f depth (print v ++ rest) = Some (sanitize_json v, rest).

Lemma reads_back_num z : reads_back (JNum (Itoa z)).
Proof.
  intros depth rest _ Hstop. exists 1%nat. intros [|f] Hf; [lia|].
  cbn [print parse_value]. pose proof (parse_number_Itoa z rest Hstop) as Hn.
  destruct (Itoa_head z) as (c & t & Heq & Hc). rewrite Heq in *.
  apply number_head in Hc as (Hw & H1 & H2 & H3 & _ & _ & H4 & H5 & H6).
  cbn [lit app] in *. rewrite skip_ws_stay by done.
  rewrite H1, H2, H3, H4, H5, H6, Hn. done.
Qed.

Lemma reads_back_str s : reads_back (JStr s).
Proof.
  intros depth rest _ _. exists 1%nat. intros [|f] Hf; [lia|].
  cbn [print parse_value quote app]. rewrite <-app_assoc.
  unfold chr at 1. rewrite skip_ws_stay by done.
  change (isb 34 (ascii_of_N 34)) with true. cbv iota.
  cbn [app]. by rewrite parse_str_quote.
Qed.

Lemma stop_chr n l : n = 44 ∨ n = 93 ∨ n = 125 ∨ n = 10 → stop (chr n :: l).
Proof. by intros [->|[->|[->| ->]]]. Qed.

Lemma reads_back_elems l depth rest :
  Forall plain l → Forall reads_back l → l ≠ [] →
  (∀ v, v ∈ l → nesting v ≤ depth) →
  ∃ f0, ∀ f, (f0 ≤ f)%nat →
    parse_elems f depth (sep_by [chr 44] (print <$> l) ++ chr 93 :: rest) =
      Some (sanitize_json <$> l, rest).
Proof.
  induction l as [|v l IH]; intros Hp Hr Hne Hd; [done|].
  apply Forall_cons in Hp as [Hpv Hpl], Hr as [Hrv Hrl].
  destruct l as [|w l].
  - destruct (Hrv depth (chr 93 :: rest)) as [f0 Hf0].
    { apply Hd. set_solver. } { apply stop_chr. tauto. }
    exists (S f0). intros [|f] Hf; [lia|]. cbn [parse_elems fmap list_fmap sep_by].
    rewrite Hf0 by lia. cbn [mbind option_bind].
    rewrite token_chr, token_here by done. done.
  - destruct (IH Hpl Hrl ltac:(done)) as [f1 Hf1]; [intros; apply Hd; set_solver|].
    destruct (Hrv depth (chr 44 :: sep_by [chr 44] (print <$> w :: l) ++ chr 93 :: rest))
      as [f0 Hf0]; [apply Hd; set_solver|apply stop_chr; tauto|].
    exists (S (f0 + f1)). intros [|f] Hf; [lia|].
    change (sep_by [chr 44] (print <$> v :: w :: l))
      with (print v ++ [chr 44] ++ sep_by [chr 44] (print <$> w :: l)).
    rewrite <-!app_assoc. cbn [parse_elems app].
    rewrite Hf0 by lia. cbn [mbind option_bind].
    rewrite token_here by done. rewrite Hf1 by lia. done.
Qed.

Lemma reads_back_members l depth rest :
  Forall (λ kv, plain kv.2) l → Forall (λ kv, reads_back kv.2) l → l ≠ [] →
  (∀ k v, (k, v) ∈ l → nesting v ≤ depth) →
  ∃ f0, ∀ f, (f0 ≤ f)%nat →
    parse_members f depth
      (sep_by [chr 44] ((λ '(k, v), quote k ++ chr 58 :: print v) <$> l) ++ chr 125 :: rest) =
      Some ((λ '(k, v), (sanitize k, sanitize_json v)) <$> l, rest).
Proof.
  induction l as [|[k v] l IH]; intros Hp Hr Hne Hd; [done|].
  apply Forall_cons in Hp as [Hpv Hpl], Hr as [Hrv Hrl]. simpl in Hpv, Hrv.
  assert (∀ f r t, parse_value f depth (print v ++ r) = Some (sanitize_json v, r) →
    t = quote k ++ chr 58 :: print v ++ r →
    parse_members (S f) depth t =
      match token 44 r with
      | Some l5 => '(vs, r) ← parse_members f depth l5;
                   Some ((sanitize k, sanitize_json v) :: vs, r)
      | None => r ← token 125 r; Some ([(sanitize k, sanitize_json v)], r)
      end) as Hone.
  { intros f r t Hv ->. cbn [parse_members]. unfold quote. rewrite <-app_comm_cons.
    rewrite token_here by done. cbn [mbind option_bind]. rewrite <-app_assoc. cbn [app].
    rewrite parse_str_quote. cbn [mbind option_bind]. rewrite token_here by done.
    cbn [mbind option_bind]. by rewrite Hv. }
  destruct l as [|[k' v'] l].
  - destruct (Hrv depth (chr 125 :: rest)) as [f0 Hf0].
    { apply (Hd k). set_solver. } { apply stop_chr. tauto. }
    exists (S f0). intros [|f] Hf; [lia|].
    rewrite (Hone f (chr 125 :: rest)); [|apply Hf0; lia|].
    + rewrite token_chr, token_here by done. done.
    + cbn [fmap list_fmap sep_by]. by rewrite <-app_assoc.
  - destruct (IH Hpl Hrl ltac:(done)) as [f1 Hf1]; [intros k0 v0 ?; apply (Hd k0); set_solver|].
    set (tail := sep_by [chr 44] ((λ '(k, v), quote k ++ chr 58 :: print v) <$> (k', v') :: l)
                   ++ chr 125 :: rest) in *.
    destruct (Hrv depth (chr 44 :: tail)) as [f0 Hf0].
    { apply (Hd k). set_solver. } { apply stop_chr. tauto. }
    exists (S (f0 + f1)). intros [|f] Hf; [lia|].
    rewrite (Hone f (chr 44 :: tail)); [|apply Hf0; lia|].
    + rewrite token_here by done. by rewrite Hf1 by lia.
    + unfold tail. cbn [fmap list_fmap sep_by]. by rewrite <-!app_assoc.
Qed.

Lemma nesting_max v (l : list json) : v ∈ l → nesting v ≤ foldr N.max 0 (nesting <$> l).
Proof.
  induction l as [|w l IH]; [set_solver|]. intros [->|H]%elem_of_cons; rewrite fmap_cons; cbn [foldr]; [lia|].
  specialize (IH H). lia.
Qed.

Lemma nesting_max_obj k v (l : list (string * json)) : (k, v) ∈ l →
  nesting v ≤ foldr N.max 0 ((λ '(_, v), nesting v) <$> l).
Proof.
  induction l as [|[k' w] l IH]; [set_solver|].
  intros [[= -> ->]|H]%elem_of_cons; rewrite fmap_cons; cbn [foldr]; [lia|].
  specialize (IH H). lia.
Qed.

Lemma sep_by_head v l r : plain v →
  ∃ c t, sep_by [chr 44] (print <$> v :: l) ++ r = A c :: t ∧
         ws c = false ∧ isb 93 c = false ∧ isb 125 c = false.
Proof.
  intros Hv. destruct (print_head v Hv) as (c & t & Heq & Hc).
  destruct l as [|w l]; rewrite !fmap_cons, Heq; eexists c, _; split; (reflexivity || done).
Qed.

Lemma parse_print v : plain v → reads_back v.
Proof.
  induction v as [|b|s|s|l IH|l IH] using json_ind'; intros Hv.
  - intros d r _ _. exists 1%nat. intros [|f] Hf; [lia|reflexivity].
  - intros d r _ _. exists 1%nat. intros [|f] Hf; [lia|destruct b; reflexivity].
  - inversion Hv. apply reads_back_num.
  - apply reads_back_str.
  - inversion Hv as [| | | |? Hpl|]; subst. intros d r Hd Hstop. simpl in Hd.
    assert ((d =? 0) = false) as H0 by (apply N.eqb_neq; lia).
    assert (Forall reads_back l) as Hr.
    { rewrite Forall_forall in *. eauto. }
    destruct l as [|v l].
    + exists 1%nat. intros [|f] Hf; [lia|]. cbn. by rewrite H0.
    + destruct (reads_back_elems (v :: l) (d - 1) r Hpl Hr ltac:(done)) as [f0 Hf0].
      { intros w Hw. pose proof (nesting_max w _ Hw). lia. }
      exists (S f0). intros [|f] Hf; [lia|].
      change (print (JArr (v :: l)))
        with (chr 91 :: sep_by [chr 44] (print <$> v :: l) ++ [chr 93]).
      rewrite <-app_comm_cons, <-app_assoc. cbn [parse_value app].
      unfold chr at 1. rewrite skip_ws_stay by done.
      change (isb 34 (ascii_of_N 91)) with false.
      change (isb 91 (ascii_of_N 91)) with true. cbv iota. rewrite H0.
      apply Forall_cons_1 in Hpl as [Hpv _].
      destruct (sep_by_head v l (chr 93 :: r) Hpv) as (c & t & Heq & Hw & H1 & H2).
      rewrite Heq, token_other, <-Heq, Hf0 by (done || lia). done.
  - inversion Hv as [| | | | |? Hpl]; subst. intros d r Hd Hstop. simpl in Hd.
    assert ((d =? 0) = false) as H0 by (apply N.eqb_neq; lia).
    assert (Forall (λ kv, reads_back kv.2) l) as Hr.
    { rewrite Forall_forall in *. eauto. }
    destruct l as [|[k v] l].
    + exists 1%nat. intros [|f] Hf; [lia|]. cbn. by rewrite H0.
    + destruct (reads_back_members ((k, v) :: l) (d - 1) r Hpl Hr ltac:(done)) as [f0 Hf0].
      { intros k' w Hw. pose proof (nesting_max_obj k' w _ Hw). lia. }
      exists (S f0). intros [|f] Hf; [lia|].
      change (print (JObj ((k, v) :: l)))
        with (chr 123 :: sep_by [chr 44] ((λ '(k, v), quote k ++ chr 58 :: print v) <$> (k, v) :: l)
                ++ [chr 125]).
      rewrite <-app_comm_cons, <-app_assoc. cbn [parse_value app].
      unfold chr at 1. rewrite skip_ws_stay by done.
      change (isb 34 (ascii_of_N 123)) with false.
      change (isb 91 (ascii_of_N 123)) with false.
      change (isb 123 (ascii_of_N 123)) with true. cbv iota. rewrite H0.
      assert (token 125 (sep_by [chr 44]
        ((λ '(k, v), quote k ++ chr 58 :: print v) <$> (k, v) :: l) ++ chr 125 :: r) = None) as ->.
      { destruct l as [|[]]; reflexivity. }
      rewrite Hf0 by lia. done.
Qed.

(** ** The fuel is enough *)
Lemma skip_ws_length l : (length (skip_ws l) ≤ length l)%nat.
Proof.
  induction l as [|[c|b|c] l IH]; simpl; try lia. case_match; simpl; lia.
Qed.

Lemma token_length n l r : token n l = Some r → (length r < length l)%nat.
Proof.
  unfold token. pose proof (skip_ws_length l) as Hl. intros Ht.
  destruct (skip_ws l) as [|[c|b|c] t]; simplify_eq.
  destruct (isb n c); simplify_eq. simpl in Hl. lia.
Qed.

Lemma prefix_str_Some s o t r : prefix_str s o = Some (t, r) → ∃ t', o = Some (t', r).
Proof. destruct o as [[t' r']|]; [|done]. intros [= _ ->]. eauto. Qed.

Lemma parse_str_length l s r : parse_str l = Some (s, r) → (length r < length l)%nat.
Proof.
  remember (length l) as n eqn:Hn. revert l Hn s r.
  induction (lt_wf n) as [n _ IH]; intros l -> s r Hs.
  assert (∀ l' s' o, (length l' < length l)%nat →
            prefix_str s' (parse_str l') = Some o → (length o.2 < length l')%nat) as IH'.
  { intros l' s' [t r'] Hlt [t' Ht]%prefix_str_Some. by eapply IH. }
  destruct l as [|[c|b|c] l1]; cbn [parse_str] in Hs; [done| | |].
  - repeat case_match; simplify_eq; cbn [length] in *; try lia;
      match goal with
      | H : prefix_str _ (parse_str ?l') = Some _ |- _ =>
          specialize (IH' l' _ _ ltac:(cbn [length]; lia) H); cbn [length snd] in IH'; lia
      end.
  - specialize (IH' l1 _ _ ltac:(simpl; lia) Hs). simpl in *. lia.
  - specialize (IH' l1 _ _ ltac:(simpl; lia) Hs). simpl in *. lia.
Qed.

Lemma span_digits_length l : (length (span_digits l).2 ≤ length l)%nat.
Proof.
  induction l as [|[c|b|c] l IH]; simpl; try lia. destruct (is_digit c); simpl; [|lia].
  destruct (span_digits l); simpl in *; lia.
Qed.

Lemma parse_sign_length ns l : (length (parse_sign ns l).2 ≤ length l)%nat.
Proof. destruct l as [|[c|b|c] l]; simpl; try lia. destruct (existsb _ ns); simpl; lia. Qed.

(** The parts of a number consume runes; the integer part at least one. *)
Ltac number_part k :=
  pose proof (span_digits_length k); destruct (span_digits k);
  repeat case_match; simplify_eq; simpl in *; lia.

Lemma parse_int_part_length l s r : parse_int_part l = Some (s, r) → (length r < length l)%nat.
Proof. destruct l as [|[c|b|c] k]; simpl; try done. intros H. number_part k. Qed.

Lemma parse_frac_length l s r : parse_frac l = Some (s, r) → (length r ≤ length l)%nat.
Proof.
  destruct l as [|[c|b|c] k]; simpl; try (intros [= _ <-]; done). intros H. number_part k.
Qed.

Lemma parse_exp_length l s r : parse_exp l = Some (s, r) → (length r ≤ length l)%nat.
Proof.
  destruct l as [|[c|b|c] k]; cbn [parse_exp]; try (intros [= _ <-]; done).
  destruct (isb 101 c || isb 69 c); [|intros [= _ <-]; done].
  pose proof (parse_sign_length [43; 45] k). destruct (parse_sign [43; 45] k) as [sg k'].
  intros Hk. number_part k'.
Qed.

Lemma parse_number_length l s r : parse_number l = Some (s, r) → (length r < length l)%nat.
Proof.
  unfold parse_number. intros H. pose proof (parse_sign_length [45] l) as Hl.
  destruct (parse_sign [45] l) as [sg l0].
  destruct (parse_int_part l0) as [[i l1]|] eqn:H1; [|done]. cbn in H.
  destruct (parse_frac l1) as [[f l2]|] eqn:H2; [|done]. cbn in H.
  destruct (parse_exp l2) as [[e l3]|] eqn:H3; [|done]. cbn in H. simplify_eq.
  apply parse_int_part_length in H1. apply parse_frac_length in H2.
  apply parse_exp_length in H3. simpl in Hl. lia.
Qed.

Lemma expect_length w l r : expect w l = Some r → (length r ≤ length l)%nat.
Proof.
  revert l. induction w as [|a w IH]; intros l H; simpl in H; [by simplify_eq|].
  destruct l as [|[c|b|c] l]; try done. destruct (Ascii.eqb a c); [|done].
  apply IH in H. simpl; lia.
Qed.

Ltac fuel_step :=
  repeat match goal with
  | H : mbind _ ?o = Some _ |- _ =>
      let x := fresh "x" in let E := fresh "E" in
      destruct o as [x|] eqn:E; [cbn [mbind option_bind] in H|discriminate H]
  | p : (_ * _)%type |- _ => destruct p
  | H : Some _ = Some _ |- _ => injection H as H; subst
  | H : token _ _ = Some _ |- _ => apply token_length in H
  | H : parse_str _ = Some _ |- _ => apply parse_str_length in H
  | H : parse_number _ = Some _ |- _ => apply parse_number_length in H
  | H : expect _ _ = Some _ |- _ => apply expect_length in H
  end.

Lemma parse_length fuel :
  (∀ d l v r, parse_value fuel d l = Some (v, r) → (length r < length l)%nat) ∧
  (∀ d l v r, parse_elems fuel d l = Some (v, r) → (length r < length l)%nat) ∧
  (∀ d l v r, parse_members fuel d l = Some (v, r) → (length r < length l)%nat).
Proof.
  induction fuel as [|fuel (IHv & IHe & IHm)]; [done|].
  split_and!; intros d l v r H;
    [cbn [parse_value] in H; pose proof (skip_ws_length l);
     destruct (skip_ws l) as [|[c|b|c] l1]; try done; cbn [length] in *
    |cbn [parse_elems] in H|cbn [parse_members] in H];
    fuel_step; repeat case_match; fuel_step;
    repeat match goal with
    | H : parse_value _ _ _ = Some _ |- _ => apply IHv in H
    | H : parse_elems _ _ _ = Some _ |- _ => apply IHe in H
    | H : parse_members _ _ _ = Some _ |- _ => apply IHm in H
    end; cbn [length] in *; (discriminate || lia).
Qed.

Lemma parse_stable n : ∀ f1 f2, (n ≤ f1)%nat → (n ≤ f2)%nat →
  (∀ d l, (2 * length l + 2 ≤ n)%nat → parse_value f1 d l = parse_value f2 d l) ∧
  (∀ d l, (2 * length l + 3 ≤ n)%nat → parse_elems f1 d l = parse_elems f2 d l) ∧
  (∀ d l, (2 * length l + 2 ≤ n)%nat → parse_members f1 d l = parse_members f2 d l).
Proof.
  induction n as [|n IH]; intros f1 f2 H1 H2; [split_and!; lia|].
  destruct f1 as [|f1], f2 as [|f2]; try lia.
  destruct (IH f1 f2) as (IHv & IHe & IHm); [lia..|]. clear IH.
  split_and!; intros d l Hl.
  - cbn [parse_value]. pose proof (skip_ws_length l).
    destruct (skip_ws l) as [|[c|b|c] l1]; try done. cbn [length] in *.
    by rewrite IHe, IHm by lia.
  - cbn [parse_elems]. rewrite IHv by lia.
    destruct (parse_value f2 d l) as [[v l1]|] eqn:Hv; [|done].
    apply parse_length in Hv. cbn [mbind option_bind].
    destruct (token 44 l1) as [l2|] eqn:Ht; [|done]. apply token_length in Ht.
    by rewrite IHe by lia.
  - cbn [parse_members]. destruct (token 34 l) as [l1|] eqn:T1; [|done].
    apply token_length in T1. cbn [mbind option_bind].
    destruct (parse_str l1) as [[k l2]|] eqn:T2; [|done].
    apply parse_str_length in T2. cbn [mbind option_bind].
    destruct (token 58 l2) as [l3|] eqn:H3; [|done]. apply token_length in H3.
    cbn [mbind option_bind]. rewrite IHv by lia.
    destruct (parse_value f2 d l3) as [[v l4]|] eqn:Hv; [|done].
    apply parse_length in Hv. cbn [mbind option_bind].
    destruct (token 44 l4) as [l5|] eqn:H5; [|done]. apply token_length in H5.
    by rewrite IHm by lia.
Qed.

Lemma parse_value_fuel d l fuel : (parse_fuel l ≤ fuel)%nat →
  parse_value fuel d l = parse_value (parse_fuel l) d l.
Proof.
  intros Hle. apply (parse_stable (parse_fuel l)); [done..|]. unfold parse_fuel. lia.
Qed.

(** ** Round trip of whole texts *)
Lemma quote_rune_good r : good r ∨ (∃ c, r = Bad c) → Forall good (quote_rune r).
Proof.
  intros [Hr|[c ->]]; [|repeat constructor].
  destruct r as [c|b|c]; [inversion Hr as [? Hc| | |]; subst| |inversion Hr].
  - destruct c as [[] [] [] [] [] [] [] []]; first [discriminate Hc | repeat constructor].
  - unfold quote_rune. repeat case_bool_decide; try (repeat constructor; fail).
    by constructor.
Qed.

Lemma quote_good s : Forall good (quote s).
Proof.
  unfold quote. constructor; [by constructor|]. apply Forall_app. split; [|by repeat constructor].
  induction (runes_classified s) as [|r l Hr _ IH]; [constructor|].
  rewrite fmap_cons. cbn [concat]. apply Forall_app. split; [by apply quote_rune_good|done].
Qed.

Lemma sep_by_good ls : Forall (Forall good) ls → Forall good (sep_by [chr 44] ls).
Proof.
  induction 1 as [|x ls Hx Hls IH]; [constructor|]. destruct ls as [|y ls]; [done|].
  apply Forall_app. split; [done|]. by constructor; [constructor|].
Qed.

Lemma lit_digits_good (n : N) : Forall good (lit (pretty n)).
Proof.
  pose proof (digits_pretty n) as Hd. destruct (pretty n) as [|c t]; [done|].
  unfold digits in Hd. revert Hd. generalize (String c t) as s. clear. intros s.
  generalize 0 as acc. induction s as [|c s IH]; intros acc; cbn [dval]; [constructor|].
  destruct (is_digit c) eqn:Hc; [|done]. intros Hd. constructor; [|by eapply IH].
  constructor. unfold is_digit in Hc. unfold ascii_byte.
  rewrite andb_true_iff, !N.leb_le in Hc. apply N.ltb_lt. lia.
Qed.

Lemma lit_Itoa_good z : Forall good (lit (Itoa z)).
Proof.
  unfold Itoa. destruct z as [|p|p]; [by repeat constructor|apply (lit_digits_good (Npos p))|].
  constructor; [by constructor|apply (lit_digits_good (Npos p))].
Qed.

Lemma print_good v : plain v → Forall good (print v).
Proof.
  induction v as [|b|s|s|l IH|l IH] using json_ind'; intros Hv; cbn [print].
  - by repeat constructor.
  - destruct b; by repeat constructor.
  - inversion Hv. apply lit_Itoa_good.
  - apply quote_good.
  - inversion Hv as [| | | |? Hpl|]; subst. constructor; [by constructor|].
    apply Forall_app. split; [|by repeat constructor]. apply sep_by_good, Forall_fmap.
    rewrite Forall_forall in *. intros x Hx. by apply IH, Hpl.
  - inversion Hv as [| | | | |? Hpl]; subst. constructor; [by constructor|].
    apply Forall_app. split; [|by repeat constructor]. apply sep_by_good, Forall_fmap.
    rewrite Forall_forall in *. intros [k x] Hx.
    change (Forall good (quote k ++ chr 58 :: print x)). apply Forall_app.
    split; [apply quote_good|]. constructor; [by constructor|]. by apply (IH _ Hx), (Hpl _ Hx).
Qed.

Lemma parse_Marshal v : plain v → nesting v ≤ 10000 →
  parse_value (parse_fuel (runes (Marshal v))) 10000 (runes (Marshal v)) = Some (sanitize_json v, []).
Proof.
  intros Hv Hd. unfold Marshal. rewrite runes_flatten by (by apply print_good).
  destruct (parse_print v Hv 10000 [] Hd I) as [f0 Hf0]. rewrite app_nil_r in Hf0.
  rewrite <-(parse_value_fuel _ _ (f0 + parse_fuel (print v))) by lia.
  by rewrite Hf0 by lia.
Qed.
Lemma Parse_Marshal v : plain v → nesting v ≤ 10000 → Parse (Marshal v) = Some (sanitize_json v).
Proof. intros Hv Hd. unfold Parse. by rewrite parse_Marshal. Qed.
Lemma Decode_Marshal v : plain v → nesting v ≤ 10000 → Decode (Marshal v) = Some (sanitize_json v).
Proof. intros Hv Hd. unfold Decode. by rewrite parse_Marshal. Qed.

Lemma app_assoc_str (s t u : string) : s +:+ t +:+ u = (s +:+ t) +:+ u.
Proof. induction s as [|c s IH]; [done|]. exact (f_equal (String c) IH). Qed.
Lemma flatten_app l l' : flatten (l ++ l') = flatten l +:+ flatten l'.
Proof. induction l as [|r l IH]; [done|]. cbn [flatten app]. by rewrite IH, app_assoc_str. Qed.

(** What [Encoder.Encode] writes is read back by [Decoder.Decode]. *)
Definition newline : string := String (ascii_of_N 10) EmptyString.
Definition Encode (v : json) : string := Marshal v +:+ newline.
Lemma Encode_runes v : plain v → runes (Encode v) = print v ++ [chr 10].
Proof.
  intros Hv. unfold Encode, Marshal. change newline with (flatten [chr 10]).
  rewrite <-flatten_app. apply runes_flatten, Forall_app. split; [by apply print_good|].
  by repeat constructor.
Qed.
Lemma parse_Encode v : plain v → nesting v ≤ 10000 →
  parse_value (parse_fuel (runes (Encode v))) 10000 (runes (Encode v)) = Some (sanitize_json v, [chr 10]).
Proof.
  intros Hv Hd. rewrite Encode_runes by done.
  destruct (parse_print v Hv 10000 [chr 10] Hd) as [f0 Hf0]; [apply stop_chr; tauto|].
  rewrite <-(parse_value_fuel _ _ (f0 + parse_fuel (print v ++ [chr 10]))) by lia.
  by rewrite Hf0 by lia.
Qed.
Lemma Decode_Encode v : plain v → nesting v ≤ 10000 → Decode (Encode v) = Some (sanitize_json v).
Proof. intros Hv Hd. unfold Decode. by rewrite parse_Encode. Qed.
Lemma Parse_Encode v : plain v → nesting v ≤ 10000 → Parse (Encode v) = Some (sanitize_json v).
Proof. intros Hv Hd. unfold Parse. by rewrite parse_Encode. Qed.

(** Members of a struct are found under their exact names. *)
Lemma find_field_exact {T} (fs : list (field T)) i k f :
  NoDup fs.*1 → fs !! i = Some (k, f) → find_field fs k = Some f.
Proof.
  intros Hnd Hi. unfold find_field.
  enough (list_find (λ f, f.1 = k) fs = Some (i, (k, f))) as -> by done.
  apply list_find_Some. split_and!; [done..|]. intros j [k' f'] Hj Hlt Hk. simpl in Hk. subst.
  enough (i = j) by lia. eapply NoDup_lookup; [done|..]; rewrite list_lookup_fmap.
  - by rewrite Hi.
  - by rewrite Hj.
Qed.
