(* ===== verification/Workflow.v ===== *)
(** * Workflow definitions, validation and scheduling order

    Models internal/workflow/workflow.go: the [Step] and [Workflow] data, the
    methods [Normalize], [Validate], [detectCycles] and [UnblockedSteps], the
    in-memory [Registry] and [LoadFromDir].  The theorems show that [Validate]
    accepts exactly the workflows whose steps can be ordered with every
    dependency first. *)
From stdpp Require Import gmap strings list fin_maps sorting pretty.
From S2P Require Import Prelude.

(** ** Data *)

(** [DependsOn] is a Go slice: [None] is nil, [Some []] an empty non-nil slice
    (a YAML [depends_on: []]); [Normalize] tells them apart. *)
Record Step : Type := {
  ID : string;
  Command : string;
  DependsOn : option (list string);
  Retries : Z;
}.

Record Workflow : Type := {
  Name : string;
  Schedule : string;
  Steps : list Step;
}.

#[export] Instance Step_eq_dec : EqDecision Step.
Proof. solve_decision. Defined.
#[export] Instance Workflow_eq_dec : EqDecision Workflow.
Proof. solve_decision. Defined.

(** [range s.DependsOn] over a nil slice visits nothing. *)
Definition deps (s : Step) : list string := default [] (DependsOn s).

Definition set_ID (s : Step) (id : string) : Step :=
  {| ID := id; Command := Command s; DependsOn := DependsOn s; Retries := Retries s |}.
Definition set_DependsOn (s : Step) (d : list string) : Step :=
  {| ID := ID s; Command := Command s; DependsOn := Some d; Retries := Retries s |}.
Definition set_Steps (w : Workflow) (l : list Step) : Workflow :=
  {| Name := Name w; Schedule := Schedule w; Steps := l |}.

(** ** Normalize *)

Definition assign_ID (i : nat) (s : Step) : Step :=
  if bool_decide (ID s = "") then set_ID s ("step-" +:+ pretty i) else s.

Definition dagMode (l : list Step) : bool :=
  existsb (λ s, bool_decide (is_Some (DependsOn s))) l.

(** The loop [for i > 0 { Steps[i].DependsOn = []string{Steps[i-1].ID} }]. *)
Definition sequential_deps (l : list Step) : list Step :=
  imap (λ i s,
    match i with
    | 0 => s
    | S j => match l !! j with
             | Some p => set_DependsOn s [ID p]
             | None => s
             end
    end) l.

Definition Normalize (w : Workflow) : Workflow :=
  let l := imap assign_ID (Steps w) in
  set_Steps w (if dagMode l then l else sequential_deps l).

(** ** Cycle detection *)

Inductive color : Type := white | gray | black.
#[export] Instance color_eq_dec : EqDecision color.
Proof. solve_decision. Defined.

(** The map built by [for i, s := range w.Steps { indexByID[s.ID] = i }]: a
    later step overwrites an earlier one with the same ID. *)
Definition indexByID (l : list Step) : gmap string nat :=
  foldl (λ m '(i, s), <[ID s := i]> m) ∅ (imap pair l).

(** [indexByID[dep]] yields the zero value 0 for a key that is not there. *)
Definition dep_indices (m : gmap string nat) (s : Step) : list nat :=
  (λ d, default 0 (m !! d)) <$> deps s.

(** The loop over the dependencies of a step; [None] is the recursion running
    out of fuel. *)
Fixpoint visit_all (visit : nat → list color → option (result unit * list color))
    (js : list nat) (colors : list color) : option (result unit * list color) :=
  match js with
  | [] => Some (Ok tt, colors)
  | j :: js =>
      match visit j colors with
      | None => None
      | Some (Err e, colors') => Some (Err e, colors')
      | Some (Ok _, colors') => visit_all visit js colors'
      end
  end.

Fixpoint dfs (fuel : nat) (l : list Step) (m : gmap string nat)
    (i : nat) (colors : list color) : option (result unit * list color) :=
  match fuel with
  | 0 => None
  | S fuel =>
      match l !! i, colors !! i with
      | Some s, Some black => Some (Ok tt, colors)
      | Some s, Some gray => Some (Err (ErrCycle (ID s)), colors)
      | Some s, Some white =>
          match visit_all (dfs fuel l m) (dep_indices m s) (<[i := gray]> colors) with
          | None => None
          | Some (Err e, colors') => Some (Err e, colors')
          | Some (Ok _, colors') => Some (Ok tt, <[i := black]> colors')
          end
      | _, _ => None    (* index out of range: Go panics *)
      end
  end.

(** Fuel: every nested call of [dfs] on a white step turns it gray, so the
    depth is at most the number of steps plus one. *)
Definition detectCycles (w : Workflow) : option (result unit) :=
  let l := Steps w in
  fst <$> visit_all (dfs (S (length l)) l (indexByID l))
            (seq 0 (length l)) (replicate (length l) white).

(** ** Validate *)

(** First loop of [Validate]: the set of IDs, or the first duplicate. *)
Fixpoint collect_ids (l : list Step) (seen : gset string) : result (gset string) :=
  match l with
  | [] => Ok seen
  | s :: l => if bool_decide (ID s ∈ seen) then Err (ErrDuplicateStep (ID s))
              else collect_ids l ({[ID s]} ∪ seen)
  end.

Fixpoint check_deps (id : string) (ds : list string) (seen : gset string) : result unit :=
  match ds with
  | [] => Ok tt
  | d :: ds => if bool_decide (d ∈ seen) then check_deps id ds seen
               else Err (ErrUnknownDep id d)
  end.

Fixpoint check_known (l : list Step) (seen : gset string) : result unit :=
  match l with
  | [] => Ok tt
  | s :: l => match check_deps (ID s) (deps s) seen with
              | Err e => Err e
              | Ok _ => check_known l seen
              end
  end.

(** [Validate] normalizes its receiver in place, so it also returns it. *)
Definition Validate (w : Workflow) : option (result unit) * Workflow :=
  let w := Normalize w in
  (match collect_ids (Steps w) ∅ with
   | Err e => Some (Err e)
   | Ok seen => match check_known (Steps w) seen with
                | Err e => Some (Err e)
                | Ok _ => detectCycles w
                end
   end, w).

(** ** UnblockedSteps *)

(** The two maps only ever hold [true], so they are the sets of their keys. *)
Definition UnblockedSteps (w : Workflow) (completedIDs : gset string)
    (submitted : gset nat) : list nat :=
  omap (λ '(i, s),
    if bool_decide (i ∈ submitted) then None
    else if forallb (λ d, bool_decide (d ∈ completedIDs)) (deps s) then Some i
    else None)
  (imap pair (Steps w)).

(** ** Registry *)

Definition Registry : Type := gmap string Workflow.

Definition NewRegistry : Registry := ∅.
Definition Register (r : Registry) (w : Workflow) : Registry := <[Name w := w]> r.
Definition Get (r : Registry) (name : string) : option Workflow := r !! name.
(** Go ranges over a map in an unspecified order; this is one of them. *)
Definition List (r : Registry) : list Workflow := (map_to_list r).*2.

(** ** LoadFromDir

    A directory entry: its name, whether it is a directory, and what reading
    the file yields.  The YAML decoder is a third-party package. *)
Record DirEntry : Type := {
  entry_name : string;
  entry_isDir : bool;
  entry_data : option string;   (* None: os.ReadFile fails *)
}.

Inductive DirListing : Type :=
  | DirMissing                  (* os.IsNotExist *)
  | DirError
  | DirEntries (l : list DirEntry).

Fixpoint HasSuffix (s suffix : string) : bool :=
  bool_decide (s = suffix) ||
  match s with
  | EmptyString => false
  | String _ s' => HasSuffix s' suffix
  end.

Section LoadFromDir.
(** [yaml.Unmarshal] into a [Workflow]; [None] is a parse error. *)
Variable yaml_Unmarshal : string → option Workflow.

Definition load_entry (r : Registry) (e : DirEntry) : option (result unit) * Registry :=
  if entry_isDir e || negb (HasSuffix (entry_name e) ".yaml") then (Some (Ok tt), r)
  else match entry_data e with
  | None => (Some (Err (ErrReadFile (entry_name e))), r)
  | Some data =>
    match yaml_Unmarshal data with
    | None => (Some (Err (ErrParse (entry_name e))), r)
    | Some wf =>
      match Validate wf with
      | (Some (Ok _), wf) => (Some (Ok tt), Register r wf)
      | (Some (Err err), _) => (Some (Err (ErrInvalid (entry_name e) err)), r)
      | (None, _) => (None, r)
      end
    end
  end.

Fixpoint load_entries (r : Registry) (es : list DirEntry) : option (result unit) * Registry :=
  match es with
  | [] => (Some (Ok tt), r)
  | e :: es =>
      match load_entry r e with
      | (Some (Ok _), r') => load_entries r' es
      | (o, r') => (o, r')
      end
  end.

Definition LoadFromDir (r : Registry) (dir : DirListing) : option (result unit) * Registry :=
  match dir with
  | DirMissing => (Some (Ok tt), r)
  | DirError => (Some (Err ErrReadDir), r)
  | DirEntries es => load_entries r es
  end.
End LoadFromDir.

(** ** Dependency order: specification

    Step [i] depends on step [j] when the ID of [j] is listed by [i]. *)
Definition depends (l : list Step) (i j : nat) : Prop :=
  ∃ s t, l !! i = Some s ∧ l !! j = Some t ∧ ID t ∈ deps s.

(** [order] lists every dependency before the step that needs it. *)
Definition ordered (E : nat → nat → Prop) (order : list nat) : Prop :=
  ∀ l1 i l2, order = l1 ++ i :: l2 → ∀ j, E i j → j ∈ l1.

Record well_formed (l : list Step) : Prop := {
  wf_unique : NoDup (ID <$> l);
  wf_known : ∀ s d, s ∈ l → d ∈ deps s → d ∈ ID <$> l;
  wf_order : ∃ order, order ≡ₚ seq 0 (length l) ∧ ordered (depends l) order;
}.

(** ** Properties of the search *)

Lemma ordered_nil E : ordered E [].
Proof. intros [|??] ?? H; discriminate. Qed.

Lemma ordered_snoc E o i :
  ordered E o → (∀ j, E i j → j ∈ o) → ordered E (o ++ [i]).
Proof.
  intros Ho Hi l1 k l2 Heq j Hj.
  destruct l2 as [|x l2 _] using rev_ind.
  - apply app_inj_tail in Heq as [<- <-]. eauto.
  - rewrite app_comm_cons, app_assoc in Heq.
    apply app_inj_tail in Heq as [-> _]. eauto.
Qed.

Lemma ordered_acyclic E o : NoDup o → ordered E o →
  (∀ i j, i ∈ o → E i j → j ∈ o) → ∀ i, i ∈ o → ¬ tc E i i.
Proof.
  intros Hnd Ho Hcl.
  assert (∀ i j, tc E i j → i ∈ o →
            ∀ l1 l2, o = l1 ++ i :: l2 → j ∈ l1) as Hbefore.
  { induction 1 as [i j HE|i k j HE _ IH]; intros Hi l1 l2 Heq; [by eapply Ho|].
    assert (k ∈ l1) as Hk by (by eapply Ho).
    apply list_elem_of_split in Hk as (l1a & l1b & ->).
    rewrite <-app_assoc in Heq; simpl in Heq.
    assert (k ∈ o) by (subst; set_solver).
    specialize (IH ltac:(done) _ _ Heq). set_solver. }
  intros i Hi Hc. apply list_elem_of_split in Hi as (l1 & l2 & ->).
  assert (i ∈ l1) by (eapply Hbefore; eauto; set_solver).
  apply NoDup_app in Hnd as (_ & Hnd & _). set_solver.
Qed.

Section search.
Context (l : list Step) (m : gmap string nat).
Let E (i j : nat) : Prop := ∃ s, l !! i = Some s ∧ j ∈ dep_indices m s.
Hypothesis dep_in_range : ∀ i j, E i j → j < length l.

Definition whites (cs : list color) : nat := length (filter (eq white) cs).

(** [order] is the sequence in which the black steps were finished. *)
Definition finished (cs : list color) (order : list nat) : Prop :=
  (∀ i, i ∈ order ↔ cs !! i = Some black) ∧ NoDup order ∧ ordered E order.

Definition visit_post (cs : list color) (order : list nat) (js : list nat)
    (r : result unit) (cs' : list color) : Prop :=
  length cs' = length l ∧
  match r with
  | Err e => ∃ k s, e = ErrCycle (ID s) ∧ l !! k = Some s ∧ tc E k k
  | Ok _ =>
      (∃ ext, finished cs' (order ++ ext)) ∧
      (∀ i, cs' !! i = Some gray ↔ cs !! i = Some gray) ∧
      whites cs' ≤ whites cs ∧
      (∀ j, j ∈ js → cs' !! j = Some black)
  end.

Definition visit_spec (visit : nat → list color → option (result unit * list color))
    (fuel : nat) : Prop :=
  ∀ i cs order, i < length l → length cs = length l → whites cs < fuel →
    finished cs order → (∀ g, cs !! g = Some gray → tc E g i) →
    ∃ r cs', visit i cs = Some (r, cs') ∧ visit_post cs order [i] r cs'.

Lemma visit_all_post visit fuel : visit_spec visit fuel →
  ∀ js cs order, (∀ j, j ∈ js → j < length l) → length cs = length l →
    whites cs < fuel → finished cs order →
    (∀ g j, cs !! g = Some gray → j ∈ js → tc E g j) →
    ∃ r cs', visit_all visit js cs = Some (r, cs') ∧ visit_post cs order js r cs'.
Proof.
  intros Hv. induction js as [|j js IH]; intros cs order Hr Hlen Hw Hf Hg; simpl.
  { eexists _, _. split; [done|]. repeat split; try done; [|set_solver..].
    exists []. by rewrite app_nil_r. }
  destruct (Hv j cs order) as (r & cs1 & -> & Hlen1 & Hpost); auto; [set_solver..|].
  destruct r as [[]|e]; [|by eexists _, _].
  destruct Hpost as ((ext & Hf1) & Hg1 & Hw1 & Hb1).
  destruct (IH cs1 (order ++ ext)) as (r2 & cs2 & -> & Hlen2 & Hpost2);
    auto; [set_solver|lia| |].
  { intros g k Hgr Hk. apply Hg; [by apply Hg1|set_solver]. }
  eexists _, _. split; [done|]. split; [done|].
  destruct r2 as [[]|e]; [|done].
  destruct Hpost2 as ((ext2 & Hf2) & Hg2 & Hw2 & Hb2). split_and!.
  - exists (ext ++ ext2). by rewrite app_assoc.
  - intros i. by rewrite Hg2, Hg1.
  - lia.
  - intros k [->|Hk]%elem_of_cons; [|by apply Hb2].
    apply Hf2, elem_of_app. left. apply Hf1, Hb1. set_solver.
Qed.

Lemma whites_gray cs i : cs !! i = Some white → whites (<[i := gray]> cs) < whites cs.
Proof.
  intros Hi. unfold whites.
  rewrite <-(take_drop_middle cs i white Hi) at 2.
  assert (i < length cs) by (by apply lookup_lt_Some in Hi).
  rewrite insert_take_drop by done.
  rewrite !filter_app, !length_app, !filter_cons. simpl. lia.
Qed.

Lemma whites_black cs i : cs !! i = Some gray → whites (<[i := black]> cs) = whites cs.
Proof.
  intros Hi. unfold whites.
  rewrite <-(take_drop_middle cs i gray Hi) at 2.
  assert (i < length cs) by (by apply lookup_lt_Some in Hi).
  rewrite insert_take_drop by done.
  rewrite !filter_app, !length_app, !filter_cons. simpl. lia.
Qed.

Lemma finished_gray cs order i : cs !! i = Some white → finished cs order →
  finished (<[i := gray]> cs) order.
Proof.
  intros Hi (Hb & Hnd & Ho). split_and!; [|done|done].
  intros k. rewrite Hb. destruct (decide (i = k)) as [->|].
  - rewrite list_lookup_insert_eq by (by eapply lookup_lt_Some). naive_solver.
  - by rewrite list_lookup_insert_ne.
Qed.

Lemma finished_black cs order i : cs !! i = Some gray → finished cs order →
  (∀ j, E i j → cs !! j = Some black) →
  finished (<[i := black]> cs) (order ++ [i]).
Proof.
  intros Hi (Hb & Hnd & Ho) Hd. assert (i ∉ order) by (rewrite Hb; congruence).
  split_and!.
  - intros k. rewrite elem_of_app, list_elem_of_singleton, Hb.
    destruct (decide (i = k)) as [->|].
    + rewrite list_lookup_insert_eq by (by eapply lookup_lt_Some). naive_solver.
    + rewrite list_lookup_insert_ne by done. naive_solver.
  - apply NoDup_app. split_and!; [done|set_solver|apply NoDup_singleton].
  - apply ordered_snoc; [done|]. intros j Hj. by apply Hb, Hd.
Qed.

Lemma dfs_spec fuel : visit_spec (dfs fuel l m) fuel.
Proof.
  induction fuel as [|fuel IH]; intros i cs order Hi Hlen Hw Hf Hg; [lia|].
  simpl. destruct (lookup_lt_is_Some_2 l i Hi) as [s Hs]. rewrite Hs.
  destruct (lookup_lt_is_Some_2 cs i ltac:(lia)) as [c Hc]. rewrite Hc.
  destruct c.
  - assert (∀ j, j ∈ dep_indices m s → E i j) as HE by (intros; by exists s).
    destruct (visit_all_post _ _ IH (dep_indices m s) (<[i:=gray]> cs) order)
      as (r & cs1 & -> & Hlen1 & Hpost).
    { eauto. } { by rewrite length_insert. }
    { pose proof (whites_gray cs i Hc). lia. }
    { by apply finished_gray. }
    { intros g j Hgr Hj. destruct (decide (i = g)) as [->|].
      - apply tc_once; eauto.
      - rewrite list_lookup_insert_ne in Hgr by done.
        eapply tc_r; [by apply Hg|eauto]. }
    destruct r as [[]|e]; [|by eexists _, _].
    destruct Hpost as ((ext & Hf1) & Hg1 & Hw1 & Hb1).
    assert (cs1 !! i = Some gray) as Hi1.
    { apply Hg1. by rewrite list_lookup_insert_eq by lia. }
    eexists _, _. split; [done|]. split; [by rewrite length_insert|]. split_and!.
    + exists (ext ++ [i]). rewrite app_assoc. apply finished_black; [done..|].
      intros j (s' & Hs' & Hj). simplify_eq. eauto.
    + intros k. destruct (decide (i = k)) as [->|].
      * rewrite list_lookup_insert_eq by lia. naive_solver.
      * rewrite list_lookup_insert_ne by done. rewrite Hg1.
        by rewrite list_lookup_insert_ne.
    + pose proof (whites_gray cs i Hc). rewrite whites_black by done. lia.
    + intros k ->%list_elem_of_singleton. by rewrite list_lookup_insert_eq by lia.
  - eexists _, _. split; [done|]. split; [done|]. exists i, s. eauto.
  - eexists _, _. split; [done|]. split; [done|]. split_and!; [|done|done|set_solver].
    exists []. by rewrite app_nil_r.
Qed.

(** The whole search: total, a topological order on success, a cycle on error. *)
Lemma search_result :
  ∃ r cs, visit_all (dfs (S (length l)) l m) (seq 0 (length l))
            (replicate (length l) white) = Some (r, cs) ∧
    match r with
    | Ok _ => ∃ order, order ≡ₚ seq 0 (length l) ∧ ordered E order
    | Err e => ∃ k s, e = ErrCycle (ID s) ∧ l !! k = Some s ∧ tc E k k
    end.
Proof.
  destruct (visit_all_post _ _ (dfs_spec (S (length l))) (seq 0 (length l))
              (replicate (length l) white) []) as (r & cs & -> & Hlen & Hpost).
  { intros j. rewrite elem_of_seq. lia. }
  { by rewrite length_replicate. }
  { unfold whites. pose proof (length_filter (eq white) (replicate (length l) white)).
    rewrite length_replicate in *. lia. }
  { split_and!; [|constructor|apply ordered_nil].
    intros i. split; [set_solver|]. by intros [? _]%lookup_replicate. }
  { intros g j [? _]%lookup_replicate. done. }
  eexists _, _. split; [done|]. destruct r as [[]|e]; [|done].
  destruct Hpost as ((order & Hf & Hnd & Ho) & _ & _ & Hb). simpl in *.
  exists order. split; [|done].
  apply NoDup_Permutation; [done|apply NoDup_seq|].
  intros i. split; [|intros Hi; by apply Hf, Hb].
  intros Hi%Hf%lookup_lt_Some. rewrite elem_of_seq. lia.
Qed.
End search.

(** ** [indexByID] *)
Lemma indexByID_snoc l s : indexByID (l ++ [s]) = <[ID s := length l]> (indexByID l).
Proof.
  unfold indexByID. rewrite imap_app, foldl_app. simpl. by rewrite Nat.add_0_r.
Qed.

Lemma indexByID_Some l id i :
  indexByID l !! id = Some i → ∃ s, l !! i = Some s ∧ ID s = id.
Proof.
  induction l as [|s l IH] using rev_ind; [done|].
  rewrite indexByID_snoc, lookup_insert_Some. intros [[<- <-]|[_ H]].
  - exists s. by rewrite lookup_app_r, Nat.sub_diag by done.
  - destruct (IH H) as (t & Ht & <-). exists t. split; [|done].
    by apply lookup_app_l_Some.
Qed.

Lemma indexByID_is_Some l id : id ∈ ID <$> l → is_Some (indexByID l !! id).
Proof.
  induction l as [|s l IH] using rev_ind; [set_solver|].
  rewrite indexByID_snoc, fmap_app. destruct (decide (ID s = id)) as [->|Hne].
  - by rewrite lookup_insert_eq.
  - rewrite lookup_insert_ne by done. set_solver.
Qed.

Lemma dep_indices_range l i j s :
  l !! i = Some s → j ∈ dep_indices (indexByID l) s → j < length l.
Proof.
  intros Hi (d & -> & _)%list_elem_of_fmap.
  destruct (indexByID l !! d) as [k|] eqn:Hk; simpl.
  - apply indexByID_Some in Hk as (t & Ht & _). by apply lookup_lt_Some in Ht.
  - apply lookup_lt_Some in Hi. lia.
Qed.

Lemma ID_inj l i j s t : NoDup (ID <$> l) → l !! i = Some s → l !! j = Some t →
  ID s = ID t → i = j.
Proof.
  intros Hnd Hi Hj Heq. eapply (NoDup_lookup (ID <$> l)); [done| |].
  - by rewrite list_lookup_fmap, Hi.
  - by rewrite list_lookup_fmap, Hj; simpl; rewrite Heq.
Qed.

(** With unique IDs and known dependencies the index map computes [depends]. *)
Lemma dep_indices_depends l i j :
  NoDup (ID <$> l) → (∀ s d, s ∈ l → d ∈ deps s → d ∈ ID <$> l) →
  (∃ s, l !! i = Some s ∧ j ∈ dep_indices (indexByID l) s) ↔ depends l i j.
Proof.
  intros Hnd Hk. unfold depends, dep_indices. split.
  - intros (s & Hs & (d & -> & Hd)%list_elem_of_fmap).
    destruct (indexByID_is_Some l d) as [k Hd'].
    { eapply Hk; [|done]. by eapply list_elem_of_lookup_2. }
    rewrite Hd'. apply indexByID_Some in Hd' as (t & Ht & <-). by exists s, t.
  - intros (s & t & Hs & Ht & Hd). exists s. split; [done|].
    apply list_elem_of_fmap. exists (ID t). split; [|done].
    destruct (indexByID_is_Some l (ID t)) as [k Hk'].
    { apply list_elem_of_fmap_2. by eapply list_elem_of_lookup_2. }
    rewrite Hk'. simpl. apply indexByID_Some in Hk' as (t' & Ht' & Heq).
    symmetry in Heq. by eapply ID_inj.
Qed.

Lemma detectCycles_total w : ∃ r, detectCycles w = Some r ∧
  match r with
  | Ok _ => ∃ order, order ≡ₚ seq 0 (length (Steps w)) ∧
      ordered (λ i j, ∃ s, Steps w !! i = Some s ∧
                 j ∈ dep_indices (indexByID (Steps w)) s) order
  | Err e => ∃ k s, e = ErrCycle (ID s) ∧ Steps w !! k = Some s ∧
      tc (λ i j, ∃ s, Steps w !! i = Some s ∧
            j ∈ dep_indices (indexByID (Steps w)) s) k k
  end.
Proof.
  destruct (search_result (Steps w) (indexByID (Steps w))) as (r & cs & Heq & Hr).
  { intros i j (s & Hs & Hj). by eapply dep_indices_range. }
  exists r. unfold detectCycles. by rewrite Heq.
Qed.

(** ** The two checks before the search *)
Lemma collect_ids_spec l seen :
  match collect_ids l seen with
  | Ok seen' => NoDup (ID <$> l) ∧ (∀ s, s ∈ l → ID s ∉ seen) ∧
                seen' = list_to_set (ID <$> l) ∪ seen
  | Err e => ∃ l1 s l2, l = l1 ++ s :: l2 ∧ e = ErrDuplicateStep (ID s) ∧
                ID s ∈ list_to_set (ID <$> l1) ∪ seen
  end.
Proof.
  revert seen. induction l as [|s l IH]; intros seen; simpl.
  { split_and!; [constructor|set_solver|set_solver]. }
  case_bool_decide as Hs.
  { exists [], s, l. set_solver. }
  specialize (IH ({[ID s]} ∪ seen)). destruct (collect_ids l _) as [seen'|e].
  - destruct IH as (Hnd & Hout & ->). split_and!.
    + constructor; [|done]. intros (t & Ht & Hin)%list_elem_of_fmap.
      apply (Hout t Hin). set_solver.
    + intros t [->|Ht]%elem_of_cons; [done|]. specialize (Hout t Ht). set_solver.
    + set_solver.
  - destruct IH as (l1 & t & l2 & -> & -> & Hin). exists (s :: l1), t, l2.
    split_and!; [done..|set_solver].
Qed.

Lemma check_deps_spec id ds seen :
  match check_deps id ds seen with
  | Ok _ => ∀ d, d ∈ ds → d ∈ seen
  | Err e => ∃ d, e = ErrUnknownDep id d ∧ d ∈ ds ∧ d ∉ seen
  end.
Proof.
  induction ds as [|d ds IH]; simpl; [set_solver|].
  case_bool_decide; [|by exists d; set_solver].
  destruct (check_deps id ds seen); [set_solver|].
  destruct IH as (d' & -> & ? & ?). exists d'. set_solver.
Qed.

Lemma check_known_spec l seen :
  match check_known l seen with
  | Ok _ => ∀ s d, s ∈ l → d ∈ deps s → d ∈ seen
  | Err e => ∃ s d, e = ErrUnknownDep (ID s) d ∧ s ∈ l ∧ d ∈ deps s ∧ d ∉ seen
  end.
Proof.
  induction l as [|s l IH]; simpl; [set_solver|].
  pose proof (check_deps_spec (ID s) (deps s) seen) as Hs.
  destruct (check_deps _ _ _) as [[]|e].
  - destruct (check_known l seen) as [[]|e]; [set_solver|].
    destruct IH as (t & d & -> & ? & ? & ?). exists t, d. set_solver.
  - destruct Hs as (d & -> & ? & ?). exists s, d. set_solver.
Qed.

(** ** Normalize *)
Lemma assign_ID_nonempty i s : ID (assign_ID i s) ≠ "".
Proof. unfold assign_ID. case_bool_decide; simpl; done. Qed.

Lemma assign_ID_stable i s : ID s ≠ "" → assign_ID i s = s.
Proof. intros. unfold assign_ID. by rewrite bool_decide_false. Qed.

Lemma imap_assign_ID_stable l : (∀ s, s ∈ l → ID s ≠ "") → imap assign_ID l = l.
Proof.
  intros Hl. apply list_eq. intros i. rewrite list_lookup_imap.
  destruct (l !! i) as [s|] eqn:Hs; simpl; [|done].
  rewrite assign_ID_stable; [done|]. by eapply Hl, list_elem_of_lookup_2.
Qed.

Lemma lookup_sequential_deps l i :
  sequential_deps l !! i =
    match i with
    | 0 => l !! 0
    | S j => s ← l !! S j; p ← l !! j; Some (set_DependsOn s [ID p])
    end.
Proof.
  unfold sequential_deps. rewrite list_lookup_imap.
  destruct i as [|j]; [by destruct (l !! 0)|].
  destruct (l !! S j) as [s|] eqn:Hs; simpl; [|done].
  apply lookup_lt_Some in Hs. destruct (lookup_lt_is_Some_2 l j) as [p ->]; [lia|done].
Qed.

Lemma sequential_deps_ID l : ID <$> sequential_deps l = ID <$> l.
Proof.
  apply list_eq. intros i. rewrite !list_lookup_fmap, lookup_sequential_deps.
  destruct i as [|j]; [done|].
  destruct (l !! S j) as [s|] eqn:Hs; simpl; [|done].
  apply lookup_lt_Some in Hs. destruct (lookup_lt_is_Some_2 l j) as [p ->]; [lia|done].
Qed.

Lemma Normalize_IDs w : ID <$> Steps (Normalize w) = ID <$> imap assign_ID (Steps w).
Proof.
  unfold Normalize. simpl. destruct (dagMode _); [done|]. apply sequential_deps_ID.
Qed.

Lemma Normalize_nonempty w s : s ∈ Steps (Normalize w) → ID s ≠ "".
Proof.
  intros Hs. assert (ID s ∈ ID <$> Steps (Normalize w)) as Hin
    by (by apply list_elem_of_fmap_2).
  rewrite Normalize_IDs in Hin. apply list_elem_of_fmap in Hin as (t & -> & Ht).
  apply list_elem_of_lookup in Ht as [i Hi].
  rewrite list_lookup_imap, fmap_Some in Hi. destruct Hi as (u & _ & ->).
  apply assign_ID_nonempty.
Qed.

Lemma Normalize_length w : length (Steps (Normalize w)) = length (Steps w).
Proof.
  rewrite <-(length_fmap ID), Normalize_IDs, length_fmap. apply length_imap.
Qed.

Lemma dagMode_true l : dagMode l = true ↔ ∃ s, s ∈ l ∧ is_Some (DependsOn s).
Proof.
  unfold dagMode. rewrite existsb_exists. setoid_rewrite bool_decide_eq_true.
  by setoid_rewrite list_elem_of_In.
Qed.

Lemma sequential_deps_dagMode l :
  sequential_deps l = l ∨ dagMode (sequential_deps l) = true.
Proof.
  destruct l as [|a [|b l]]; [by left..|]. right. apply dagMode_true.
  exists (set_DependsOn b [ID a]). split; [|by eexists].
  apply list_elem_of_lookup. by exists 1.
Qed.

(** Normalizing twice changes nothing, so the [Normalize] calls of [TriggerWorkflow]
    and [Advance] on a workflow whose steps are shared with the registry leave the
    registered steps as [LoadFromDir] stored them. *)
Lemma Normalize_twice w : Normalize (Normalize w) = Normalize w.
Proof.
  pose proof (imap_assign_ID_stable _ (Normalize_nonempty w)) as Hid.
  unfold Normalize at 1. rewrite Hid. unfold Normalize. simpl.
  set (l := imap assign_ID (Steps w)). destruct (dagMode l) eqn:Hd; [by rewrite Hd|].
  destruct (sequential_deps_dagMode l) as [Heq| ->]; [|done].
  by rewrite Heq, Hd, Heq.
Qed.

(** ** Validate *)
Lemma ordered_iff E E' o : (∀ i j, E i j ↔ E' i j) → (ordered E o ↔ ordered E' o).
Proof. unfold ordered. intros HE. by setoid_rewrite HE. Qed.

Lemma tc_iff (E E' : nat → nat → Prop) i j :
  (∀ i j, E i j → E' i j) → tc E i j → tc E' i j.
Proof. intros HE. induction 1; [apply tc_once|eapply tc_l]; eauto. Qed.

Lemma well_formed_acyclic l i : well_formed l → ¬ tc (depends l) i i.
Proof.
  intros [_ _ (o & Hperm & Ho)] Hc.
  assert (∀ i j, depends l i j → i ∈ o ∧ j ∈ o) as Hin.
  { intros a b (s & t & Ha%lookup_lt_Some & Hb%lookup_lt_Some & _).
    rewrite Hperm, !elem_of_seq. lia. }
  eapply ordered_acyclic; [| |by intros a b _ [_ ?]%Hin| |done].
  - rewrite Hperm. apply NoDup_seq.
  - done.
  - inversion Hc; subst; naive_solver.
Qed.

(** What an answer of [Validate] says about the normalized steps. *)
Definition validate_meaning (l : list Step) (r : result unit) : Prop :=
  match r with
  | Ok _ => well_formed l
  | Err e =>
      (∃ i j s t, i < j ∧ l !! i = Some s ∧ l !! j = Some t ∧ ID s = ID t ∧
                  e = ErrDuplicateStep (ID t)) ∨
      (∃ s d, s ∈ l ∧ d ∈ deps s ∧ (d ∉ ID <$> l) ∧ e = ErrUnknownDep (ID s) d) ∨
      (∃ k s, l !! k = Some s ∧ tc (depends l) k k ∧ e = ErrCycle (ID s))
  end.

Lemma Validate_result w : ∃ r, Validate w = (Some r, Normalize w) ∧
  validate_meaning (Steps (Normalize w)) r.
Proof.
  unfold Validate. set (w' := Normalize w). set (l := Steps w').
  pose proof (collect_ids_spec l ∅) as Hc. destruct (collect_ids l ∅) as [seen|e].
  2: { destruct Hc as (l1 & s & l2 & Hl & -> & Hin). eexists. split; [done|]. left.
       rewrite union_empty_r_L, elem_of_list_to_set in Hin.
       apply list_elem_of_fmap in Hin as (t & Heq & [i Hi]%list_elem_of_lookup).
       exists i, (length l1), t, s. pose proof (lookup_lt_Some _ _ _ Hi).
       rewrite Hl. split_and!; [done|by apply lookup_app_l_Some|by apply list_lookup_middle|done..]. }
  destruct Hc as (Hnd & _ & Hseen). rewrite union_empty_r_L in Hseen.
  pose proof (check_known_spec l seen) as Hk. destruct (check_known l seen) as [[]|e].
  2: { destruct Hk as (s & d & -> & ? & ? & Hd). eexists. split; [done|]. right; left.
       exists s, d. rewrite Hseen, elem_of_list_to_set in Hd. done. }
  assert (∀ s d, s ∈ l → d ∈ deps s → d ∈ ID <$> l) as Hknown.
  { intros s d Hs Hd. specialize (Hk s d Hs Hd). by rewrite Hseen, elem_of_list_to_set in Hk. }
  destruct (detectCycles_total w') as (r & -> & Hr). fold l in Hr.
  exists r. split; [done|]. destruct r as [[]|e].
  - destruct Hr as (o & Hperm & Ho). split; [done..|]. exists o. split; [done|].
    eapply ordered_iff; [|done]. intros. symmetry. by apply dep_indices_depends.
  - destruct Hr as (k & s & -> & Hs & Htc). right; right. exists k, s.
    split_and!; [done| |done]. eapply tc_iff; [|done]. intros i j.
    by apply dep_indices_depends.
Qed.

Lemma Validate_accepts w : (Validate w).1 = Some (Ok tt) ↔ well_formed (Steps (Normalize w)).
Proof.
  destruct (Validate_result w) as (r & -> & Hr). simpl. split.
  - intros [= ->]. done.
  - intros Hwf. destruct r as [[]|e]; [done|]. exfalso.
    destruct Hr as [(i & j & s & t & Hlt & Hi & Hj & Heq & _)|
                    [(s & d & Hs & Hd & Hn & _)|(k & s & _ & Hc & _)]].
    + pose proof (ID_inj _ _ _ _ _ (wf_unique _ Hwf) Hi Hj Heq). lia.
    + by apply Hn, (wf_known _ Hwf s).
    + by eapply well_formed_acyclic.
Qed.

(** A chain, each step depending on the one before, needs no search. *)
Lemma chain_well_formed l : NoDup (ID <$> l) → well_formed (sequential_deps l) ∨
  ∃ s, s ∈ l ∧ is_Some (DependsOn s).
Proof.
  intros Hnd. destruct (dagMode l) eqn:Hd; [right; by apply dagMode_true|left].
  assert (∀ s, s ∈ l → DependsOn s = None) as Hnone.
  { intros s Hs. destruct (DependsOn s) eqn:HD; [|done].
    rewrite (proj2 (dagMode_true l)) in Hd; [done|]. exists s. by rewrite HD. }
  assert (∀ i s d, sequential_deps l !! i = Some s → d ∈ deps s →
            ∃ j p, i = S j ∧ l !! j = Some p ∧ d = ID p) as Hdep.
  { intros i s d Hs Hin. rewrite lookup_sequential_deps in Hs. destruct i as [|j].
    - unfold deps in Hin. rewrite (Hnone s) in Hin; [set_solver|].
      by eapply list_elem_of_lookup_2.
    - apply bind_Some in Hs as (s' & Hs' & (p & Hp & [= <-])%bind_Some).
      exists j, p. set_solver. }
  split.
  - by rewrite sequential_deps_ID.
  - intros s d [i Hi]%list_elem_of_lookup Hd'.
    destruct (Hdep _ _ _ Hi Hd') as (j & p & -> & Hp & ->).
    rewrite sequential_deps_ID. apply list_elem_of_fmap_2.
    by eapply list_elem_of_lookup_2.
  - exists (seq 0 (length (sequential_deps l))). split; [done|].
    intros l1 i l2 Heq j (s & t & Hs & Ht & Hin).
    destruct (Hdep _ _ _ Hs Hin) as (j' & p & -> & Hp & Hid).
    assert (j = j') as ->.
    { rewrite <-sequential_deps_ID in Hnd. eapply (NoDup_lookup _ _ _ (ID p) Hnd).
      - by rewrite list_lookup_fmap, Ht, <-Hid.
      - by rewrite sequential_deps_ID, list_lookup_fmap, Hp. }
    assert (S j' = length l1) as Hlen.
    { pose proof (f_equal (.!! length l1) Heq) as Hl.
      rewrite list_lookup_middle in Hl by done.
      apply lookup_seq in Hl. lia. }
    apply (f_equal (take (length l1))) in Heq.
    rewrite take_app_length in Heq. rewrite <-Heq, take_seq, elem_of_seq.
    apply lookup_lt_Some in Ht, Hs. lia.
Qed.

(** ** UnblockedSteps *)
Lemma elem_of_UnblockedSteps w c sub i :
  i ∈ UnblockedSteps w c sub ↔
  ∃ s, Steps w !! i = Some s ∧ (i ∉ sub) ∧ (∀ d, d ∈ deps s → d ∈ c).
Proof.
  unfold UnblockedSteps. rewrite list_elem_of_omap. split.
  - intros ([j s] & Hin & Hx).
    apply list_elem_of_lookup in Hin as [k Hk]. rewrite list_lookup_imap, fmap_Some in Hk.
    destruct Hk as (s' & Hs & [= -> ->]). case_bool_decide; [done|].
    destruct (forallb _ (deps s')) eqn:Hf; simplify_eq. exists s'. split_and!; [done..|].
    intros d Hd. rewrite forallb_forall in Hf.
    apply list_elem_of_In in Hd. by apply Hf, bool_decide_eq_true in Hd.
  - intros (s & Hs & Hi & Hd). exists (i, s). split.
    + apply list_elem_of_lookup. exists i. by rewrite list_lookup_imap, Hs.
    + rewrite bool_decide_false by done.
      destruct (forallb _ (deps s)) eqn:Hf; [done|].
      rewrite <-not_true_iff_false, forallb_forall in Hf. destruct Hf.
      intros d Hin%list_elem_of_In. by apply bool_decide_eq_true, Hd.
Qed.

(** The IDs [Advance] collects for a set of completed indices. *)
Definition ids_of (w : Workflow) (done : gset nat) : gset string :=
  list_to_set (omap (λ i, ID <$> Steps w !! i) (elements done)).

Lemma elem_of_ids_of w done d :
  d ∈ ids_of w done ↔ ∃ i s, i ∈ done ∧ Steps w !! i = Some s ∧ ID s = d.
Proof.
  unfold ids_of. rewrite elem_of_list_to_set, list_elem_of_omap.
  setoid_rewrite elem_of_elements. setoid_rewrite fmap_Some. naive_solver.
Qed.

(** No deadlock: while a step is not done, some step that is not done has all
    its dependencies done. *)
Lemma unblocked_progress w done i :
  well_formed (Steps w) → i < length (Steps w) → i ∉ done →
  ∃ j s, (j ∉ done) ∧ Steps w !! j = Some s ∧ (∀ d, d ∈ deps s → d ∈ ids_of w done).
Proof.
  intros [Hu Hk (o & Hperm & Ho)] Hi Hnd.
  assert (∃ l1 j l2, o = l1 ++ j :: l2 ∧ (j ∉ done) ∧ (∀ k, k ∈ l1 → k ∈ done))
    as (l1 & j & l2 & -> & Hj & Hl1).
  { assert (i ∈ o) as Hio by (rewrite Hperm, elem_of_seq; lia). clear -Hio Hnd.
    induction o as [|k o IH]; [set_solver|].
    destruct (decide (k ∈ done)) as [Hk|Hk]; [|by exists [], k, o; set_solver].
    destruct IH as (l1 & j & l2 & -> & ? & ?); [set_solver|].
    exists (k :: l1), j, l2. set_solver. }
  assert (j < length (Steps w)) as Hlt.
  { assert (j ∈ seq 0 (length (Steps w))) as [_ ?]%elem_of_seq
      by (rewrite <-Hperm; set_solver). lia. }
  apply lookup_lt_is_Some in Hlt as [s Hs]. exists j, s. split_and!; [done..|].
  intros d Hd. pose proof (list_elem_of_lookup_2 _ _ _ Hs) as Hin.
  pose proof (Hk s d Hin Hd) as (t & -> & [k Ht]%list_elem_of_lookup)%list_elem_of_fmap.
  apply elem_of_ids_of. exists k, t. split_and!; [|done..].
  apply Hl1. eapply Ho; [done|]. by exists s, t.
Qed.

(** ** The registry *)

(** A registered workflow is normalized, valid and filed under its own name. *)
Definition registry_ok (r : Registry) : Prop :=
  map_Forall (λ name w, Name w = name ∧ Normalize w = w ∧ well_formed (Steps w)) r.

Section load.
Variable yaml : string → option Workflow.

Lemma load_entry_spec r e : registry_ok r →
  ∃ a r', load_entry yaml r e = (Some a, r') ∧ registry_ok r'.
Proof.
  intros Hr. unfold load_entry.
  destruct (_ || _); [by eexists _, _|].
  destruct (entry_data e) as [data|]; [|by eexists _, _].
  destruct (yaml data) as [wf|]; [|by eexists _, _].
  destruct (Validate_result wf) as (a & Hv & Ha). rewrite Hv.
  destruct a as [[]|err]; [|by eexists _, _].
  eexists _, _. split; [done|]. apply map_Forall_insert_2; [|done].
  split_and!; [done|apply Normalize_twice|done].
Qed.

Lemma load_entries_spec r es : registry_ok r →
  ∃ a r', load_entries yaml r es = (Some a, r') ∧ registry_ok r'.
Proof.
  revert r. induction es as [|e es IH]; intros r Hr; simpl; [by eexists _, _|].
  destruct (load_entry_spec r e Hr) as ([[]|err] & r' & -> & Hr'); [by apply IH|].
  by eexists _, _.
Qed.
Lemma LoadFromDir_spec r dir : registry_ok r →
  ∃ a r', LoadFromDir yaml r dir = (Some a, r') ∧ registry_ok r'.
Proof.
  intros Hr. destruct dir as [| |es]; simpl; [by eexists _, _..|]. by apply load_entries_spec.
Qed.
End load.

Lemma UnblockedSteps_sorted w c sub : StronglySorted lt (UnblockedSteps w c sub).
Proof.
  apply (omap_index_sorted _ (Steps w) 0). intros [i s] j Hj.
  case_bool_decide; [done|]. by case_match; simplify_eq.
Qed.

(** ** Properties *)

(** C10: [Validate] accepts exactly the workflows whose normalized steps have
    unique IDs, known dependencies, and an order that puts every dependency
    before the step that needs it. *)
Theorem Validate_accepts_iff_well_formed w :
  (Validate w).1 = Some (Ok tt) ↔ well_formed (Steps (Normalize w)).
Proof. apply Validate_accepts. Qed.

(** C37: [Validate] always answers (the search never runs out of fuel), leaves
    its receiver normalized, and an error names a duplicated ID, an unknown
    dependency or a step that lies on a dependency cycle. *)
Theorem Validate_total_and_sound w :
  ∃ r, Validate w = (Some r, Normalize w) ∧ validate_meaning (Steps (Normalize w)) r.
Proof. apply Validate_result. Qed.

(** A workflow in which no step declares [depends_on] becomes a chain in
    file order, and it validates as soon as its step IDs are distinct. *)
Theorem Normalize_sequential_valid w
    (Hnone : ∀ s, s ∈ Steps w → DependsOn s = None)
    (Hids : NoDup (ID <$> imap assign_ID (Steps w))) :
  Steps (Normalize w) = sequential_deps (imap assign_ID (Steps w)) ∧
  (Validate w).1 = Some (Ok tt).
Proof.
  assert (∀ s, s ∈ imap assign_ID (Steps w) → ¬ is_Some (DependsOn s)) as Hnone'.
  { intros s [i Hi]%list_elem_of_lookup. rewrite list_lookup_imap, fmap_Some in Hi.
    destruct Hi as (t & Ht & ->). apply list_elem_of_lookup_2 in Ht.
    unfold assign_ID. case_bool_decide; simpl; rewrite Hnone by done; apply is_Some_None. }
  assert (Steps (Normalize w) = sequential_deps (imap assign_ID (Steps w))) as Hn.
  { unfold Normalize. simpl. destruct (dagMode _) eqn:Hd; [|done].
    apply dagMode_true in Hd as (s & Hs & HD). by destruct (Hnone' s). }
  split; [done|]. rewrite Validate_accepts, Hn.
  destruct (chain_well_formed _ Hids) as [?|(s & Hs & HD)]; [done|]. by destruct (Hnone' s).
Qed.

(** C18: [UnblockedSteps] lists, in increasing order and without repetition,
    exactly the steps that are not submitted and whose dependencies are all
    completed. *)
Theorem UnblockedSteps_correct w c sub :
  StronglySorted lt (UnblockedSteps w c sub) ∧
  ∀ i, i ∈ UnblockedSteps w c sub ↔
    ∃ s, Steps w !! i = Some s ∧ (i ∉ sub) ∧ (∀ d, d ∈ deps s → d ∈ c).
Proof. split; [apply UnblockedSteps_sorted|apply elem_of_UnblockedSteps]. Qed.

(** Whatever the directory holds and wherever loading stops, [LoadFromDir]
    answers and every workflow in the registry is normalized, valid and filed
    under its own name. *)
Theorem LoadFromDir_keeps_registry_ok yaml r dir (Hr : registry_ok r) :
  ∃ a r', LoadFromDir yaml r dir = (Some a, r') ∧ registry_ok r'.
Proof. by apply LoadFromDir_spec. Qed.

(** ** Witnesses *)

Definition shell (cmd : string) : Step :=
  {| ID := ""; Command := cmd; DependsOn := None; Retries := 0 |}.

(** workflows/ci.yaml *)
Definition ci : Workflow :=
  {| Name := "ci"; Schedule := "";
     Steps := [shell "go test ./..."; shell "go build ./..."] |}.

(** workflows/parallel_backup.yaml *)
Definition parallel_backup : Workflow :=
  let step id ds n := {| ID := id; Command := id; DependsOn := ds; Retries := n |} in
  {| Name := "parallel_backup"; Schedule := "0 2 * * *";
     Steps := [step "backup-db" None 2%Z; step "backup-redis" None 2%Z;
               step "compress" (Some ["backup-db"; "backup-redis"]) 0%Z;
               step "upload" (Some ["compress"]) 0%Z] |}.

Lemma Normalize_sequential_valid_witness :
  Steps (Normalize ci) = sequential_deps (imap assign_ID (Steps ci)) ∧
  (Validate ci).1 = Some (Ok tt).
Proof.
  apply (Normalize_sequential_valid ci).
  - intros s Hs. simpl in Hs. apply elem_of_cons in Hs as [->|Hs]; [reflexivity|].
    apply list_elem_of_singleton in Hs as ->. reflexivity.
  - apply (bool_decide_eq_true_1 _). vm_compute. reflexivity.
Defined.

Definition example_dir : DirListing :=
  DirEntries [{| entry_name := "ci.yaml"; entry_isDir := false; entry_data := Some "ci" |};
              {| entry_name := "README.md"; entry_isDir := false; entry_data := None |};
              {| entry_name := "backup.yaml"; entry_isDir := false;
                 entry_data := Some "backup" |}].
Definition example_yaml (s : string) : option Workflow :=
  if bool_decide (s = "ci") then Some ci else Some parallel_backup.

Lemma LoadFromDir_keeps_registry_ok_witness :
  registry_ok NewRegistry ∧
  fst (LoadFromDir example_yaml NewRegistry example_dir) = Some (Ok tt) ∧
  ∃ a r', LoadFromDir example_yaml NewRegistry example_dir = (Some a, r') ∧ registry_ok r'.
Proof.
  split; [apply map_Forall_empty|]. split; [vm_compute; reflexivity|].
  apply (LoadFromDir_keeps_registry_ok example_yaml NewRegistry example_dir).
  apply map_Forall_empty.
Defined.

Example parallel_backup_roots :
  UnblockedSteps (Normalize parallel_backup) ∅ ∅ = [0; 1].
Proof. vm_compute. reflexivity. Qed.
