(* ===== verification/Redis.v ===== *)
(** * Redis, as a parameter

    Redis is a service: the program is verified against what its documentation
    promises of the commands internal/queue/redis.go sends.  [Redis R] gives the
    commands over an unknown server state [R], [RedisLaws R] their documented
    effect on the keyspace; [Store] is a server that satisfies the laws. *)
From stdpp Require Import gmap strings list fin_maps fin_sets sorting.
From S2P Require Import Prelude.
Open Scope Z_scope.

(** ** The keyspace

    A key holds a value of one type; an absent key reads as an empty value of
    any type, and a value that becomes empty is removed with its key. *)
Inductive value : Type :=
  | VList (l : list string)
  | VSet (s : gset string)
  | VHash (h : gmap string string)
  | VZset (z : gmap string Z).

#[export] Instance value_eq_dec : EqDecision value.
Proof. solve_decision. Defined.

Abbreviation keyspace := (gmap string value).

(** [None]: the key holds a value of another type (WRONGTYPE). *)
Definition as_list (m : keyspace) (k : string) : option (list string) :=
  match m !! k with None => Some [] | Some (VList l) => Some l | _ => None end.
Definition as_set (m : keyspace) (k : string) : option (gset string) :=
  match m !! k with None => Some ∅ | Some (VSet s) => Some s | _ => None end.
Definition as_hash (m : keyspace) (k : string) : option (gmap string string) :=
  match m !! k with None => Some ∅ | Some (VHash h) => Some h | _ => None end.
Definition as_zset (m : keyspace) (k : string) : option (gmap string Z) :=
  match m !! k with None => Some ∅ | Some (VZset z) => Some z | _ => None end.

Definition empty_value (v : value) : bool :=
  match v with
  | VList l => bool_decide (l = [])
  | VSet s => bool_decide (s = ∅)
  | VHash h => bool_decide (h = ∅)
  | VZset z => bool_decide (z = ∅)
  end.
Definition put (k : string) (v : value) (m : keyspace) : keyspace :=
  if empty_value v then delete k m else <[k := v]> m.

(** ** Commands *)

(** The commands the queue sends in pipelines. *)
Inductive cmd : Type :=
  | DEL (k : string)
  | RPUSH (k x : string)
  | LPUSH (k x : string)
  | LREM1 (k x : string)              (* LREM k 1 x *)
  | SADD (k x : string)
  | SREM (k x : string)
  | HSET (k f v : string)
  | HDEL (k f : string)
  | ZADD (k : string) (score : Z) (x : string)
  | ZREM (k x : string).

(** [LREM k 1 x] removes the first occurrence from the head. *)
Fixpoint remove1 (x : string) (l : list string) : list string :=
  match l with
  | [] => []
  | y :: l => if bool_decide (x = y) then l else y :: remove1 x l
  end.

(** A sorted set is ordered by score, then by member. *)
Definition zle (p q : string * Z) : Prop :=
  p.2 < q.2 ∨ (p.2 = q.2 ∧ String.le p.1 q.1).
#[export] Instance zle_dec : RelDecision zle.
Proof. unfold zle. solve_decision. Defined.
#[export] Instance zle_total : Total zle.
Proof.
  intros p q. unfold zle. destruct (Z.lt_trichotomy p.2 q.2) as [|[->|]]; [tauto| |tauto].
  destruct (total String.le p.1 q.1); tauto.
Qed.

(** The members with a score of at most [max]. *)
Definition members_upto (max : Z) (z : gmap string Z) : list string :=
  (merge_sort zle (filter (λ p, p.2 ≤ max) (map_to_list z))).*1.

Class Redis (R : Type) : Type := {
  keys : R → keyspace;
  run : cmd → R → R;
  sadd : string → string → R → Z * R;                      (* SADD and its reply *)
  lrange : string → R → list string;                       (* LRANGE k 0 -1 *)
  hget : string → string → R → option string;              (* HGET, None for nil *)
  zrangebyscore : string → Z → R → list string;            (* ZRANGEBYSCORE k -inf max *)
  brpoplpush : string → string → R → option string * R;    (* None for the timeout *)
}.

(** MULTI, the commands, EXEC. *)
Definition multi {R} `{Redis R} (cmds : list cmd) (r : R) : R :=
  foldl (λ r c, run c r) r cmds.

Class RedisLaws (R : Type) `{Redis R} : Prop := {
  del_law k r : keys (run (DEL k) r) = delete k (keys r);
  rpush_law k x l r : as_list (keys r) k = Some l →
    keys (run (RPUSH k x) r) = put k (VList (l ++ [x])) (keys r);
  lpush_law k x l r : as_list (keys r) k = Some l →
    keys (run (LPUSH k x) r) = put k (VList (x :: l)) (keys r);
  lrem_law k x l r : as_list (keys r) k = Some l →
    keys (run (LREM1 k x) r) = put k (VList (remove1 x l)) (keys r);
  sadd_law k x s r : as_set (keys r) k = Some s →
    keys (run (SADD k x) r) = put k (VSet ({[x]} ∪ s)) (keys r);
  sadd_reply k x s r : as_set (keys r) k = Some s →
    (sadd k x r).1 = (if bool_decide (x ∈ s) then 0 else 1) ∧
    keys (sadd k x r).2 = keys (run (SADD k x) r);
  srem_law k x s r : as_set (keys r) k = Some s →
    keys (run (SREM k x) r) = put k (VSet (s ∖ {[x]})) (keys r);
  hset_law k f v h r : as_hash (keys r) k = Some h →
    keys (run (HSET k f v) r) = put k (VHash (<[f := v]> h)) (keys r);
  hdel_law k f h r : as_hash (keys r) k = Some h →
    keys (run (HDEL k f) r) = put k (VHash (delete f h)) (keys r);
  hget_law k f h r : as_hash (keys r) k = Some h → hget k f r = h !! f;
  zadd_law k n x z r : as_zset (keys r) k = Some z →
    keys (run (ZADD k n x) r) = put k (VZset (<[x := n]> z)) (keys r);
  zrem_law k x z r : as_zset (keys r) k = Some z →
    keys (run (ZREM k x) r) = put k (VZset (delete x z)) (keys r);
  lrange_law k l r : as_list (keys r) k = Some l → lrange k r = l;
  zrange_law k n z r : as_zset (keys r) k = Some z →
    zrangebyscore k n r = members_upto n z;
  brpop_empty k k' r : as_list (keys r) k = Some [] → brpoplpush k k' r = (None, r);
  brpop_law k k' l x l' r : as_list (keys r) k = Some (l ++ [x]) →
    as_list (keys r) k' = Some l' → k ≠ k' →
    (brpoplpush k k' r).1 = Some x ∧
    keys (brpoplpush k k' r).2 = put k' (VList (x :: l')) (put k (VList l) (keys r));
}.

(** ** Reading after writing *)
Section put.
Implicit Types (m : keyspace) (k : string).

Lemma lookup_put_ne k k' v m : k ≠ k' → put k v m !! k' = m !! k'.
Proof.
  intros. unfold put. by destruct (empty_value v); [rewrite lookup_delete_ne|rewrite lookup_insert_ne].
Qed.

Lemma as_list_put k l m : as_list (put k (VList l) m) k = Some l.
Proof.
  unfold as_list, put. simpl. case_bool_decide as Hl; [|by rewrite lookup_insert_eq].
  by rewrite lookup_delete_eq, Hl.
Qed.
Lemma as_set_put k s m : as_set (put k (VSet s) m) k = Some s.
Proof.
  unfold as_set, put. simpl. case_bool_decide as Hs; [|by rewrite lookup_insert_eq].
  by rewrite lookup_delete_eq, Hs.
Qed.
Lemma as_hash_put k h m : as_hash (put k (VHash h) m) k = Some h.
Proof.
  unfold as_hash, put. simpl. case_bool_decide as Hh; [|by rewrite lookup_insert_eq].
  by rewrite lookup_delete_eq, Hh.
Qed.
Lemma as_zset_put k z m : as_zset (put k (VZset z) m) k = Some z.
Proof.
  unfold as_zset, put. simpl. case_bool_decide as Hz; [|by rewrite lookup_insert_eq].
  by rewrite lookup_delete_eq, Hz.
Qed.

Lemma as_list_put_ne k k' v m : k ≠ k' → as_list (put k v m) k' = as_list m k'.
Proof. intros. unfold as_list. by rewrite lookup_put_ne. Qed.
Lemma as_set_put_ne k k' v m : k ≠ k' → as_set (put k v m) k' = as_set m k'.
Proof. intros. unfold as_set. by rewrite lookup_put_ne. Qed.
Lemma as_hash_put_ne k k' v m : k ≠ k' → as_hash (put k v m) k' = as_hash m k'.
Proof. intros. unfold as_hash. by rewrite lookup_put_ne. Qed.
Lemma as_zset_put_ne k k' v m : k ≠ k' → as_zset (put k v m) k' = as_zset m k'.
Proof. intros. unfold as_zset. by rewrite lookup_put_ne. Qed.
End put.

Create Rewrite HintDb redis.
#[export] Hint Rewrite as_list_put as_set_put as_hash_put as_zset_put : redis.
#[export] Hint Rewrite as_list_put_ne as_set_put_ne as_hash_put_ne as_zset_put_ne
  using done : redis.

Lemma elem_of_remove1 x y l : x ∈ remove1 y l → x ∈ l.
Proof.
  induction l as [|z l IH]; simpl; [done|]. case_bool_decide; set_solver.
Qed.
Lemma elem_of_remove1_ne x y l : x ≠ y → x ∈ l → x ∈ remove1 y l.
Proof.
  intros Hne. induction l as [|z l IH]; simpl; [done|]. case_bool_decide; set_solver.
Qed.
Lemma remove1_Permutation x l : x ∈ l → l ≡ₚ x :: remove1 x l.
Proof.
  induction l as [|y l IH]; simpl; [by intros ?%not_elem_of_nil|].
  case_bool_decide as Hy; subst; [done|]. intros [->|Hx]%elem_of_cons; [done|].
  rewrite (IH Hx) at 1. apply Permutation_swap.
Qed.
Lemma remove1_not_elem x l : x ∉ l → remove1 x l = l.
Proof.
  induction l as [|y l IH]; simpl; [done|]. intros [? ?]%not_elem_of_cons.
  rewrite bool_decide_false by done. by rewrite IH.
Qed.

Lemma elem_of_members_upto x n z :
  x ∈ members_upto n z ↔ ∃ s, z !! x = Some s ∧ s ≤ n.
Proof.
  unfold members_upto. rewrite list_elem_of_fmap. setoid_rewrite merge_sort_Permutation.
  setoid_rewrite list_elem_of_filter. split.
  - intros ([y s] & -> & ? & ?%elem_of_map_to_list). eauto.
  - intros (s & ? & ?). exists (x, s). by rewrite elem_of_map_to_list.
Qed.
Lemma NoDup_members_upto n z : NoDup (members_upto n z).
Proof.
  unfold members_upto. rewrite merge_sort_Permutation.
  apply (NoDup_fmap_fst (filter _ (map_to_list z))).
  - intros x s1 s2 [_ H1%elem_of_map_to_list]%list_elem_of_filter
      [_ H2%elem_of_map_to_list]%list_elem_of_filter. by simplify_eq.
  - apply NoDup_filter, NoDup_map_to_list.
Qed.

(** ** A server that satisfies the laws *)
Record Store : Type := { store : keyspace }.

Definition store_run (c : cmd) (m : keyspace) : keyspace :=
  let on {A} (read : keyspace → string → option A) k f :=
    match read m k with Some a => put k (f a) m | None => m end in
  match c with
  | DEL k => delete k m
  | RPUSH k x => on as_list k (λ l, VList (l ++ [x]))
  | LPUSH k x => on as_list k (λ l, VList (x :: l))
  | LREM1 k x => on as_list k (λ l, VList (remove1 x l))
  | SADD k x => on as_set k (λ s, VSet ({[x]} ∪ s))
  | SREM k x => on as_set k (λ s, VSet (s ∖ {[x]}))
  | HSET k f v => on as_hash k (λ h, VHash (<[f := v]> h))
  | HDEL k f => on as_hash k (λ h, VHash (delete f h))
  | ZADD k n x => on as_zset k (λ z, VZset (<[x := n]> z))
  | ZREM k x => on as_zset k (λ z, VZset (delete x z))
  end.

#[export] Instance Store_Redis : Redis Store := {
  keys := store;
  run c r := Build_Store (store_run c (store r));
  sadd k x r :=
    (if bool_decide (x ∈ default ∅ (as_set (store r) k)) then 0 else 1,
     Build_Store (store_run (SADD k x) (store r)));
  lrange k r := default [] (as_list (store r) k);
  hget k f r := default ∅ (as_hash (store r) k) !! f;
  zrangebyscore k n r := members_upto n (default ∅ (as_zset (store r) k));
  brpoplpush k k' r :=
    match reverse (default [] (as_list (store r) k)) with
    | [] => (None, r)
    | x :: l => (Some x, Build_Store (store_run (LPUSH k' x) (put k (VList (reverse l)) (store r))))
    end;
}.

#[export] Instance Store_RedisLaws : RedisLaws Store.
Proof.
  split; simpl.
  16: { intros k k' l x l' r Hk Hk' Hne. rewrite Hk. simpl.
        rewrite reverse_app. simpl. rewrite reverse_involutive. by rewrite as_list_put_ne, Hk'. }
  all: intros; try done; by match goal with H : _ = Some _ |- _ => rewrite H end.
Qed.
