(* ===== verification/Queue.v ===== *)
(** * The job queue: contract

    [Job] and its JSON text (internal/queue/job.go), the interface [queue.Queue]
    (internal/queue/queue.go) as a class, and what an implementation promises:
    every operation is a transition of an abstract queue [qview], also when calls
    of the service are lost.  File RedisQueue discharges the contract; the relay,
    the services and the server are verified against it. *)
From stdpp Require Import gmap strings list fin_maps fin_sets.
From S2P Require Import Prelude Text Json Redis.
Open Scope Z_scope.

(** ** Jobs *)
Record Job : Type := {
  j_ID : Z;
  j_RetryCount : Z;
  j_MaxRetries : Z;
  j_Type : string;
  j_Payload : string;
}.
#[export] Instance Job_eq_dec : EqDecision Job.
Proof. solve_decision. Defined.

(** [Job{}] and [Job{ID: id}] *)
Definition Job_zero : Job := Build_Job 0 0 0 "" "".
Definition Job_of_ID (id : Z) : Job := Build_Job id 0 0 "" "".

Definition MarshalJob (job : Job) : string :=
  Marshal (JObj [("id", JNum (Itoa (j_ID job)));
                 ("retry_count", JNum (Itoa (j_RetryCount job)));
                 ("max_retries", JNum (Itoa (j_MaxRetries job)));
                 ("type", JStr (j_Type job));
                 ("payload", JStr (j_Payload job))]).

Definition job_fields : list (field Job) :=
  [int_field "id" (λ z j, Build_Job z (j_RetryCount j) (j_MaxRetries j) (j_Type j) (j_Payload j));
   int_field "retry_count" (λ z j, Build_Job (j_ID j) z (j_MaxRetries j) (j_Type j) (j_Payload j));
   int_field "max_retries" (λ z j, Build_Job (j_ID j) (j_RetryCount j) z (j_Type j) (j_Payload j));
   string_field "type" (λ s j, Build_Job (j_ID j) (j_RetryCount j) (j_MaxRetries j) s (j_Payload j));
   string_field "payload" (λ s j, Build_Job (j_ID j) (j_RetryCount j) (j_MaxRetries j) (j_Type j) s)].

Definition UnmarshalJob (s : string) : result Job := Unmarshal job_fields Job_zero s.

(** The values a Go [Job] can hold. *)
Definition job_typed (job : Job) : bool :=
  in_int64 (j_ID job) && in_int64 (j_RetryCount job) && in_int64 (j_MaxRetries job).

Definition sanitize_job (job : Job) : Job :=
  Build_Job (j_ID job) (j_RetryCount job) (j_MaxRetries job)
            (sanitize (j_Type job)) (sanitize (j_Payload job)).

Lemma UnmarshalJob_MarshalJob job : job_typed job = true →
  UnmarshalJob (MarshalJob job) = Ok (sanitize_job job).
Proof.
  unfold job_typed. intros [[H1 H2]%andb_prop H3]%andb_prop.
  unfold UnmarshalJob, MarshalJob, Unmarshal.
  rewrite Parse_Marshal by (repeat constructor || done).
  cbn [sanitize_json fmap list_fmap mbind option_bind decode_struct].
  rewrite (sanitize_valid "id"), (sanitize_valid "retry_count"), (sanitize_valid "max_retries"),
    (sanitize_valid "type"), (sanitize_valid "payload") by reflexivity.
  assert (∀ i k f, job_fields !! i = Some (k, f) → find_field job_fields k = Some f) as Hf.
  { intros i k f. apply find_field_exact. apply (bool_decide_eq_true_1 _). by vm_compute. }
  cbn [set_fields]. rewrite (Hf 0%nat _ _ eq_refl). cbn -[find_field ParseInt Itoa sanitize].
  rewrite (ParseInt_Itoa _ H1). cbn -[find_field ParseInt Itoa sanitize].
  rewrite (Hf 1%nat _ _ eq_refl). cbn -[find_field ParseInt Itoa sanitize].
  rewrite (ParseInt_Itoa _ H2). cbn -[find_field ParseInt Itoa sanitize].
  rewrite (Hf 2%nat _ _ eq_refl). cbn -[find_field ParseInt Itoa sanitize].
  rewrite (ParseInt_Itoa _ H3). cbn -[find_field ParseInt Itoa sanitize].
  rewrite (Hf 3%nat _ _ eq_refl). cbn -[find_field ParseInt Itoa sanitize].
  by rewrite (Hf 4%nat _ _ eq_refl).
Qed.

Lemma sanitize_job_valid job :
  ValidString (j_Type job) = true → ValidString (j_Payload job) = true →
  sanitize_job job = job.
Proof. intros. destruct job. unfold sanitize_job. simpl in *. by rewrite !sanitize_valid. Qed.

(** ** Contexts

    What [ctx] does to the [n]-th blocking call of a loop: [interrupt n] is [None]
    when the call runs its course and [Some late] when it returns
    [context.Canceled], [late] telling whether it had already taken effect;
    [done n] is [ctx.Err() != nil] after that call. *)
Record Ctx : Type := {
  interrupt : nat → option bool;
  done : nat → bool;
  interrupt_done : ∀ n, interrupt n ≠ None → done n = true;
}.

(** [context.Background()] is never cancelled. *)
Definition Background : Ctx :=
  {| interrupt := λ _, None; done := λ _, false;
     interrupt_done n H := match H eq_refl with end |}.

(** [time.Time.UnixMilli], of a time in nanoseconds. *)
Definition UnixMilli (t : Z) : Z := t / 1000000.

(** ** The abstract queue *)
Record qview : Type := QView {
  ready : list string;            (* consumed from the right *)
  processing : list string;       (* most recent first *)
  delayed : gmap string Z;        (* due times, Unix milliseconds *)
  payloads : gmap string string;
  queued : gset string;
}.

(** What each method of the interface means, when it succeeds; these are the
    specifications, the code of redis.go is [rq_Recover], [rq_Enqueue], ... in file
    RedisQueue, which are proved to have these effects. *)
Definition q_recover (v : qview) : qview :=
  QView (ready v ++ processing v) [] (delayed v) (payloads v) (queued v).
Definition q_mark (x : string) (v : qview) : qview :=
  QView (ready v) (processing v) (delayed v) (payloads v) ({[x]} ∪ queued v).
(** Entering a job whose ID was marked before. *)
Definition q_enter (x p : string) (added : bool) (v : qview) : qview :=
  QView (if added then x :: ready v else ready v) (processing v) (delayed v)
        (<[x := p]> (payloads v)) (queued v).
Definition q_enqueue (job : Job) (v : qview) : qview :=
  let x := Itoa (j_ID job) in
  q_enter x (MarshalJob job) (bool_decide (x ∉ queued v)) (q_mark x v).
Definition q_pop (v : qview) : option (string * qview) :=
  match reverse (ready v) with
  | [] => None
  | x :: l => Some (x, QView (reverse l) (x :: processing v) (delayed v) (payloads v) (queued v))
  end.
Definition q_drop (x : string) (v : qview) : qview :=
  QView (ready v) (remove1 x (processing v)) (delayed v) (payloads v) (queued v).
(** [Ack] and [Fail] *)
Definition q_settle (id : Z) (v : qview) : qview :=
  let x := Itoa id in
  QView (ready v) (remove1 x (processing v)) (delete x (delayed v))
        (delete x (payloads v)) (queued v ∖ {[x]}).
Definition q_cancel (id : Z) (v : qview) : qview :=
  let x := Itoa id in
  QView (remove1 x (ready v)) (remove1 x (processing v)) (delete x (delayed v))
        (delete x (payloads v)) (queued v ∖ {[x]}).
Definition q_retry (job : Job) (due : Z) (v : qview) : qview :=
  let x := Itoa (j_ID job) in
  QView (ready v) (remove1 x (processing v)) (<[x := due]> (delayed v))
        (<[x := MarshalJob job]> (payloads v)) ({[x]} ∪ queued v).
Definition q_promote_all (xs : list string) (v : qview) : qview :=
  QView (reverse xs ++ ready v) (processing v) (foldl (λ z x, delete x z) (delayed v) xs)
        (payloads v) (queued v).
Definition q_promote (now : Z) (v : qview) : qview :=
  q_promote_all (members_upto (UnixMilli now) (delayed v)) v.

(** An operation with one effect: an error leaves open whether it happened. *)
Definition atomic (f : qview → qview) (v : qview) (r : result unit) (v' : qview) : Prop :=
  match r with Ok _ => v' = f v | Err _ => v' = v ∨ v' = f v end.

(** [Enqueue] marks the ID and then enters the job; a failure between the two
    leaves the mark alone. *)
Inductive enqueue_spec (job : Job) (v : qview) : result unit → qview → Prop :=
  | enq_ok : enqueue_spec job v (Ok tt) (q_enqueue job v)
  | enq_none e : enqueue_spec job v (Err e) v
  | enq_marked e : enqueue_spec job v (Err e) (q_mark (Itoa (j_ID job)) v)
  | enq_late e : enqueue_spec job v (Err e) (q_enqueue job v).

(** [Consume] takes entries from the right until one has a payload; [None] is a
    call that is still waiting. *)
Inductive consume_spec : qview → option (result Job) → qview → Prop :=
  | con_waiting v : consume_spec v None v
  | con_error v e : consume_spec v (Some (Err e)) v
  | con_stuck v x v' e : q_pop v = Some (x, v') →
      consume_spec v (Some (Err e)) v'
  | con_job v x v' p job : q_pop v = Some (x, v') →
      payloads v !! x = Some p → UnmarshalJob p = Ok job →
      consume_spec v (Some (Ok job)) v'
  | con_stale v x v' v'' r v3 : q_pop v = Some (x, v') → payloads v !! x = None →
      v'' = v' ∨ v'' = q_drop x v' → consume_spec v'' r v3 → consume_spec v r v3.

(** ** The interface *)
Class Queue (Q : Type) : Type := {
  Recover : M (conn Q) (result unit);
  Enqueue : Job → M (conn Q) (result unit);
  Consume : Ctx → nat → M (conn Q) (option (result Job));   (* with fuel *)
  Ack : Job → M (conn Q) (result unit);
  Retry : Job → Z → M (conn Q) (result unit);
  Fail : Job → M (conn Q) (result unit);
  Cancel : Job → M (conn Q) (result unit);
  promoteDueJobs : M (conn Q) (result unit);                (* what Start runs on a tick *)
  qabs : Q → qview;
  qinv : Q → Prop;
}.

(** What an operation guarantees: the clock stands still, the representation
    stays valid, the abstract step is one the contract allows, and on a reliable
    connection the call succeeds. *)
Definition meets {Q A} `{Queue Q} (m : M (conn Q) A) (good : A → bool)
    (spec : Z → qview → A → qview → Prop) : Prop :=
  ∀ c, qinv (c_data c) → wp m c (λ a c',
    qinv (c_data c') ∧ c_now c' = c_now c ∧
    spec (c_now c) (qabs (c_data c)) a (qabs (c_data c')) ∧
    (c_faults c = [] → good a = true ∧ c_faults c' = [])).

Class QueueLaws (Q : Type) `{Queue Q} : Prop := {
  Recover_law : meets Recover is_ok (λ _, atomic q_recover);
  Enqueue_law job : meets (Enqueue job) is_ok (λ _, enqueue_spec job);
  Consume_law ctx fuel : meets (Consume ctx fuel) (λ _, true) (λ _, consume_spec);
  Ack_law job : meets (Ack job) is_ok (λ _, atomic (q_settle (j_ID job)));
  Retry_law job d : meets (Retry job d) is_ok
    (λ now, atomic (q_retry job (UnixMilli (now + d))));
  Fail_law job : meets (Fail job) is_ok (λ _, atomic (q_settle (j_ID job)));
  Cancel_law job : meets (Cancel job) is_ok (λ _, atomic (q_cancel (j_ID job)));
  promote_law : meets promoteDueJobs is_ok (λ now, atomic (q_promote now));
}.

(** ** Safety of the abstract queue

    [held v x]: the ID [x] is in one of the three places a job can be. *)
Definition held (v : qview) (x : string) : Prop :=
  x ∈ ready v ∨ x ∈ processing v ∨ is_Some (delayed v !! x).

(** The marked IDs that have no payload: what an [Enqueue] leaves that fails halfway. *)
Definition unbacked (v : qview) : gset string := queued v ∖ dom (payloads v).

(** Nothing queued is lost, but for the IDs of [B]: every other marked ID has a
    payload and is held somewhere, and every payload is the text of a job with its ID. *)
Record safe_but (B : gset string) (v : qview) : Prop := {
  safe_sub : dom (payloads v) ⊆ queued v;
  safe_in : ∀ x, x ∈ queued v → x ∉ B → x ∈ dom (payloads v) ∧ held v x;
  safe_text : map_Forall (λ x p, ∃ job, job_typed job = true ∧ x = Itoa (j_ID job) ∧
                                        p = MarshalJob job) (payloads v);
}.
Notation queue_safe := (safe_but ∅).

(** Every queued job is in exactly one place, exactly once, and nothing else is. *)
Record queue_exact (v : qview) : Prop := {
  exact_safe : queue_safe v;
  exact_queued : ∀ x, held v x → x ∈ queued v;
  exact_ready : NoDup (ready v);
  exact_processing : NoDup (processing v);
  exact_apart : ∀ x, x ∈ ready v → (x ∉ processing v) ∧ delayed v !! x = None;
  exact_delayed : ∀ x, x ∈ processing v → delayed v !! x = None;
}.

Definition q_empty : qview := QView [] [] ∅ ∅ ∅.

(** One use of the queue, labelled; [careful] asks of the caller that only jobs
    it has consumed are acknowledged, failed or retried.  An [Enqueue] that fails
    after marking the ID is left out. *)
Inductive label : Type :=
  | LRecover | LEnqueue (job : Job) | LConsume | LSettle (id : Z)
  | LRetry (job : Job) (due : Z) | LCancel (id : Z) | LPromote (now : Z).

Inductive qstep (careful : bool) (v : qview) : label → qview → Prop :=
  | qs_recover r v' : atomic q_recover v r v' → qstep careful v LRecover v'
  | qs_enqueue job r v' : job_typed job = true → enqueue_spec job v r v' →
      r = Ok tt ∨ v' ≠ q_mark (Itoa (j_ID job)) v → qstep careful v (LEnqueue job) v'
  | qs_consume r v' : consume_spec v r v' → qstep careful v LConsume v'
  | qs_settle id r v' : (careful = true → Itoa id ∈ processing v) →
      atomic (q_settle id) v r v' → qstep careful v (LSettle id) v'
  | qs_retry job due r v' : job_typed job = true →
      (careful = true → Itoa (j_ID job) ∈ processing v) →
      atomic (q_retry job due) v r v' → qstep careful v (LRetry job due) v'
  | qs_cancel id r v' : atomic (q_cancel id) v r v' → qstep careful v (LCancel id) v'
  | qs_promote now r v' : atomic (q_promote now) v r v' → qstep careful v (LPromote now) v'.

Inductive qrun (careful : bool) : list label → qview → qview → Prop :=
  | qrun_nil v : qrun careful [] v v
  | qrun_cons l ls v v' v'' : qstep careful v l v' → qrun careful ls v' v'' →
      qrun careful (l :: ls) v v''.

Lemma atomic_preserves (P : qview → Prop) f v r v' :
  atomic f v r v' → P v → P (f v) → P v'.
Proof. destruct r; simpl; [by intros ->|by intros [->| ->]]. Qed.

Lemma q_pop_Some v x v' : q_pop v = Some (x, v') ↔
  ∃ l, ready v = l ++ [x] ∧
       v' = QView l (x :: processing v) (delayed v) (payloads v) (queued v).
Proof.
  unfold q_pop. split.
  - destruct (reverse (ready v)) as [|y l] eqn:Hl; [done|]. intros [= <- <-].
    exists (reverse l). split; [|done].
    by rewrite <-(reverse_involutive (ready v)), Hl, reverse_cons.
  - intros (l & -> & ->). rewrite reverse_app. simpl. by rewrite reverse_involutive.
Qed.

Lemma lookup_delete_all (z : gmap string Z) xs x :
  foldl (λ z x, delete x z) z xs !! x = if bool_decide (x ∈ xs) then None else z !! x.
Proof.
  revert z. induction xs as [|y xs IH]; intros z; simpl; [done|]. rewrite IH.
  destruct (decide (x = y)) as [->|Hne].
  - rewrite lookup_delete_eq, (bool_decide_true (y ∈ y :: xs)) by set_solver. by case_bool_decide.
  - rewrite lookup_delete_ne by done. repeat case_bool_decide; set_solver.
Qed.

Lemma queue_exact_empty : queue_exact q_empty.
Proof.
  assert (∀ x, ¬ held q_empty x) as Hno.
  { intros x [?%not_elem_of_nil|[?%not_elem_of_nil|[? [=]]]]; done. }
  split; [|by intros x ?%Hno|constructor|constructor|by intros ? ?%not_elem_of_nil..].
  split; [simpl; set_solver|by intros ? ?%not_elem_of_empty|apply map_Forall_empty].
Qed.

Lemma safe_dom v : queue_safe v → dom (payloads v) = queued v.
Proof. intros [Hd Hi _]. apply set_eq. intros x. split; [apply Hd|]. intros Hx. by apply Hi. Qed.
Lemma safe_held v x : queue_safe v → x ∈ queued v → held v x.
Proof. intros [_ Hi _] Hx. by apply Hi. Qed.
Lemma safe_more B B' v : safe_but B v → B ⊆ B' → safe_but B' v.
Proof. intros [Hd Hi Ht] HB. split; try done. intros x Hx Hno. apply Hi; set_solver. Qed.

(** *** Each transition, on its own *)
Section transitions.
Implicit Types (v : qview) (x : string) (B : gset string).

Lemma held_recover v x : held (q_recover v) x ↔ held v x.
Proof. unfold held, q_recover. simpl. set_solver. Qed.

Lemma safe_recover B v : safe_but B v → safe_but B (q_recover v).
Proof. intros [? Hi ?]. split; try done. intros x Hx Hno. rewrite held_recover. by apply Hi. Qed.

(** A mark on its own makes an exception of its ID, unless it was marked before. *)
Lemma safe_mark B v x : safe_but B v → safe_but (B ∪ unbacked (q_mark x v)) (q_mark x v).
Proof.
  intros [Hd Hi Ht]. split; [simpl; set_solver| |done]. unfold unbacked. simpl. intros y Hy Hno.
  assert (y ∈ dom (payloads v)) as Hin by (destruct (decide (y ∈ dom (payloads v))); set_solver).
  apply Hi; set_solver.
Qed.

Lemma exact_recover v : queue_exact v → queue_exact (q_recover v).
Proof.
  intros [Hs Hq Hr Hp Ha Hd]. split; try done.
  - by apply safe_recover.
  - intros x. rewrite held_recover. apply Hq.
  - simpl. apply NoDup_app. split_and!; try done. intros x Hx. by apply Ha.
  - simpl. constructor.
  - simpl. intros x [Hx|Hx]%elem_of_app; split; [apply not_elem_of_nil|by apply Ha|
      apply not_elem_of_nil|by apply Hd].
  - simpl. by intros x ?%not_elem_of_nil.
Qed.

(** The text invariant only depends on the payloads, which most steps keep. *)
Lemma safe_text_insert (m : gmap string string) job :
  job_typed job = true →
  map_Forall (λ x p, ∃ job, job_typed job = true ∧ x = Itoa (j_ID job) ∧ p = MarshalJob job) m →
  map_Forall (λ x p, ∃ job, job_typed job = true ∧ x = Itoa (j_ID job) ∧ p = MarshalJob job)
    (<[Itoa (j_ID job) := MarshalJob job]> m).
Proof. intros Ht Hm. apply map_Forall_insert_2; [|done]. by exists job. Qed.

Lemma held_enqueue v job x : held (q_enqueue job v) x ↔
  held v x ∨ (x = Itoa (j_ID job) ∧ x ∉ queued v).
Proof.
  unfold held, q_enqueue, q_enter, q_mark. simpl.
  case_bool_decide; simpl; [set_solver|naive_solver].
Qed.

Lemma safe_enqueue B v job : job_typed job = true → safe_but B v → safe_but B (q_enqueue job v).
Proof.
  intros Ht [Hd Hi Htx]. split; simpl.
  - rewrite dom_insert_L. set_solver.
  - intros x Hx Hno. rewrite held_enqueue, dom_insert_L. destruct (decide (x ∈ queued v)) as [Hin|].
    + destruct (Hi x Hin Hno). set_solver.
    + set_solver.
  - by apply safe_text_insert.
Qed.

(** What a failing [Enqueue] may leave is in the state: a mark without a payload. *)
Lemma enqueue_safe B v job r v' : job_typed job = true → enqueue_spec job v r v' →
  safe_but B v → safe_but (B ∪ unbacked v') v' ∧ (r = Ok tt → safe_but B v').
Proof.
  intros Hj He Hs.
  assert (safe_but B (q_enqueue job v)) as Hs' by (by apply safe_enqueue).
  destruct He; (split; [|done]); [eapply safe_more; [exact Hs'|set_solver]|
    eapply safe_more; [exact Hs|set_solver]|by apply safe_mark|eapply safe_more; [exact Hs'|set_solver]].
Qed.

Lemma exact_enqueue v job : job_typed job = true → queue_exact v → queue_exact (q_enqueue job v).
Proof.
  intros Ht [Hs Hq Hr Hp Ha Hd].
  pose proof (safe_enqueue ∅ v job Ht Hs) as Hs'.
  assert (∀ x, held v x → x ∈ queued v) as Hh by done. unfold held in Hh.
  split; try done; simpl.
  - intros x [Hx|[-> _]]%held_enqueue; set_solver.
  - case_bool_decide; [|done]. constructor; [|done]. intros ?. naive_solver.
  - intros x Hx. case_bool_decide as Hn; [|by apply Ha].
    apply elem_of_cons in Hx as [->|Hx]; [|by apply Ha].
    split; [naive_solver|]. apply eq_None_not_Some. naive_solver.
Qed.

Lemma held_pop v x v' y : q_pop v = Some (x, v') → held v' y ↔ held v y.
Proof. intros (l & Hl & ->)%q_pop_Some. unfold held. simpl. rewrite Hl. set_solver. Qed.

Lemma safe_pop B v x v' : q_pop v = Some (x, v') → safe_but B v → safe_but B v'.
Proof.
  intros Hpop [Hd Hi Ht]. pose proof (λ y, held_pop v x v' y Hpop) as Hheld.
  apply q_pop_Some in Hpop as (l & Hl & ->). split; try done.
  intros y Hy Hno. rewrite Hheld. by apply Hi.
Qed.

Lemma exact_pop v x v' : q_pop v = Some (x, v') → queue_exact v → queue_exact v'.
Proof.
  intros Hpop [Hs Hq Hr Hp Ha Hd]. pose proof (safe_pop ∅ v x v' Hpop Hs).
  pose proof (λ y, held_pop v x v' y Hpop) as Hheld.
  apply q_pop_Some in Hpop as (l & Hl & ->). rewrite Hl in *.
  apply NoDup_app in Hr as (Hrl & Hrx & _).
  split; try done; simpl.
  - intros y Hy%Hheld. by apply Hq.
  - constructor; [|done]. apply Ha. set_solver.
  - intros y Hy. rewrite not_elem_of_cons. split_and!; [|apply Ha; set_solver..].
    intros ->. by apply (Hrx x Hy), list_elem_of_singleton.
  - intros y [->|Hy]%elem_of_cons; [apply Ha; set_solver|by apply Hd].
Qed.

Lemma safe_drop B v x : payloads v !! x = None → safe_but B v → safe_but B (q_drop x v).
Proof.
  intros Hx [Hd Hi Ht]. split; try done. simpl. intros y Hy Hno. destruct (Hi y Hy Hno) as [Hin Hh].
  split; [done|]. assert (y ≠ x). { intros ->. by apply not_elem_of_dom in Hx. }
  destruct Hh as [?|[?|?]]; unfold held; simpl; [tauto| |tauto].
  right; left. by apply elem_of_remove1_ne.
Qed.

Lemma safe_consume B v r v' : consume_spec v r v' → safe_but B v → safe_but B v'.
Proof.
  induction 1 as [| |? ? ? ? Hp|? ? ? ? ? Hp|v x v' v'' r v3 Hp Hx Hv'' _ IH]; intros Hs;
    try done; eauto using safe_pop.
  apply IH. pose proof (safe_pop _ _ _ _ Hp Hs) as Hs'.
  destruct Hv'' as [-> | ->]; [done|]. apply safe_drop; [|done].
  by apply q_pop_Some in Hp as (l & _ & ->).
Qed.

(** In an exact queue every entry has its payload, so nothing is skipped. *)
Lemma exact_no_stale v x v' : queue_exact v → q_pop v = Some (x, v') → is_Some (payloads v !! x).
Proof.
  intros Hv (l & Hl & _)%q_pop_Some. apply elem_of_dom.
  rewrite (safe_dom v) by apply Hv. apply (exact_queued v Hv). left. rewrite Hl. set_solver.
Qed.

Lemma exact_consume v r v' : consume_spec v r v' → queue_exact v → queue_exact v'.
Proof.
  destruct 1 as [| |? ? ? ? Hp|? ? ? ? ? Hp|v x v' v'' r v3 Hp Hx Hv'' Hc]; intros Hs;
    try done; eauto using exact_pop.
  apply (exact_no_stale _ _ _ Hs) in Hp as [? ?]. congruence.
Qed.

Lemma held_settle v id y : y ≠ Itoa id → held (q_settle id v) y ↔ held v y.
Proof.
  intros Hy. unfold held, q_settle. simpl. rewrite lookup_delete_ne by done.
  split; intros [?|[?|?]]; eauto using elem_of_remove1, elem_of_remove1_ne.
Qed.
Lemma held_cancel v id y : y ≠ Itoa id → held (q_cancel id v) y ↔ held v y.
Proof.
  intros Hy. unfold held, q_cancel. simpl. rewrite lookup_delete_ne by done.
  split; intros [?|[?|?]]; eauto using elem_of_remove1, elem_of_remove1_ne.
Qed.

(** [Ack], [Fail] and [Cancel] forget the job. *)
Lemma safe_forget B v v' id : safe_but B v →
  (∀ y, y ≠ Itoa id → held v' y ↔ held v y) →
  payloads v' = delete (Itoa id) (payloads v) → queued v' = queued v ∖ {[Itoa id]} →
  safe_but B v'.
Proof.
  intros [Hd Hi Ht] Hheld Hp Hq. split; rewrite ?Hp, ?Hq.
  - rewrite dom_delete_L. set_solver.
  - intros y [Hy Hne]%elem_of_difference Hno. rewrite dom_delete_L, Hheld by set_solver.
    destruct (Hi y Hy Hno). set_solver.
  - by apply map_Forall_delete.
Qed.

Lemma elem_of_remove1_NoDup x y l : NoDup l → x ∈ remove1 y l ↔ x ≠ y ∧ x ∈ l.
Proof.
  intros Hl. split; [|intros [? ?]; by apply elem_of_remove1_ne].
  intros Hx. split; [|by eapply elem_of_remove1]. intros ->.
  assert (y ∈ l) as Hy by (by eapply elem_of_remove1).
  rewrite (remove1_Permutation y l Hy) in Hl. by apply NoDup_cons in Hl as [? _].
Qed.
Lemma NoDup_remove1 x l : NoDup l → NoDup (remove1 x l).
Proof.
  intros Hl. destruct (decide (x ∈ l)) as [Hx|Hx]; [|by rewrite remove1_not_elem].
  rewrite (remove1_Permutation x l Hx) in Hl. by apply NoDup_cons in Hl as [_ ?].
Qed.

Lemma exact_settle v id : Itoa id ∈ processing v → queue_exact v → queue_exact (q_settle id v).
Proof.
  intros Hin [Hs Hq Hr Hp Ha Hd].
  assert (∀ x, x ∈ ready v → x ≠ Itoa id) as Hne by (intros x Hx ->; by apply Ha in Hx as [? _]).
  split; simpl; try done.
  - apply (safe_forget ∅ v _ id); try done. intros. by apply held_settle.
  - unfold held. simpl. intros x. rewrite elem_of_remove1_NoDup by done.
    rewrite lookup_delete_is_Some, elem_of_difference, not_elem_of_singleton.
    intros [Hx|[[? Hx]|[? Hx]]]; split; try done; [|by apply Hne|..]; apply Hq; unfold held; tauto.
  - by apply NoDup_remove1.
  - intros x Hx. rewrite elem_of_remove1_NoDup, lookup_delete_None by done.
    destruct (Ha x Hx). tauto.
  - intros x. rewrite elem_of_remove1_NoDup, lookup_delete_None by done. naive_solver.
Qed.

Lemma exact_cancel v id : queue_exact v → queue_exact (q_cancel id v).
Proof.
  intros [Hs Hq Hr Hp Ha Hd]. split; simpl.
  - apply (safe_forget ∅ v _ id); try done. intros. by apply held_cancel.
  - unfold held. simpl. intros x. rewrite !elem_of_remove1_NoDup by done.
    rewrite lookup_delete_is_Some, elem_of_difference, not_elem_of_singleton.
    intros [[? Hx]|[[? Hx]|[? Hx]]]; split; try done; apply Hq; unfold held; tauto.
  - by apply NoDup_remove1.
  - by apply NoDup_remove1.
  - intros x. rewrite !elem_of_remove1_NoDup, lookup_delete_None by done. naive_solver.
  - intros x. rewrite elem_of_remove1_NoDup, lookup_delete_None by done. naive_solver.
Qed.

Lemma safe_retry B v job due : job_typed job = true → safe_but B v → safe_but B (q_retry job due v).
Proof.
  intros Hj [Hd Hi Ht]. split; simpl.
  - rewrite dom_insert_L. set_solver.
  - intros x Hx Hno. rewrite dom_insert_L. unfold held. simpl. destruct (decide (x = Itoa (j_ID job))) as [->|Hne].
    + rewrite lookup_insert_eq. split; [set_solver|eauto].
    + rewrite lookup_insert_ne by done. destruct (Hi x) as [Hin [?|[?|?]]]; [set_solver|done|..];
        (split; [set_solver|]); [tauto| |tauto]. eauto using elem_of_remove1_ne.
  - by apply safe_text_insert.
Qed.

Lemma exact_retry v job due : job_typed job = true → Itoa (j_ID job) ∈ processing v →
  queue_exact v → queue_exact (q_retry job due v).
Proof.
  intros Hj Hin [Hs Hq Hr Hp Ha Hd]. split; simpl; try done.
  - by apply safe_retry.
  - unfold held. simpl. intros x. rewrite elem_of_remove1_NoDup by done.
    rewrite lookup_insert_is_Some, elem_of_union, elem_of_singleton.
    intros [Hx|[[? Hx]|[->|[? Hx]]]]; [..|by left|]; right; apply Hq; unfold held; tauto.
  - by apply NoDup_remove1.
  - intros x Hx. rewrite elem_of_remove1_NoDup, lookup_insert_None by done.
    destruct (Ha x Hx). naive_solver.
  - intros x. rewrite elem_of_remove1_NoDup, lookup_insert_None by done. naive_solver.
Qed.

(** Promoting exactly entries of the delayed set moves them. *)
Lemma held_promote v xs x : (∀ y, y ∈ xs → is_Some (delayed v !! y)) →
  held (q_promote_all xs v) x ↔ held v x.
Proof.
  intros Hxs. unfold held, q_promote_all. simpl.
  rewrite lookup_delete_all, elem_of_app, elem_of_reverse.
  destruct (decide (x ∈ xs)) as [Hx|Hx].
  - rewrite bool_decide_true by done. naive_solver.
  - rewrite bool_decide_false by done. naive_solver.
Qed.

Lemma members_delayed v n y : y ∈ members_upto n (delayed v) → is_Some (delayed v !! y).
Proof. intros (s & ? & _)%elem_of_members_upto. eauto. Qed.

Lemma safe_promote B v now : safe_but B v → safe_but B (q_promote now v).
Proof.
  intros [Hd Hi Ht]. split; try done. intros x Hx Hno. destruct (Hi x Hx Hno) as [Hin Hh].
  split; [done|]. by apply held_promote; [apply members_delayed|].
Qed.

Lemma exact_promote v now : queue_exact v → queue_exact (q_promote now v).
Proof.
  intros [Hs Hq Hr Hp Ha Hd]. pose proof (members_delayed v (UnixMilli now)) as Hm.
  split; simpl.
  - by apply safe_promote.
  - intros x Hx. apply Hq. by apply held_promote in Hx.
  - apply NoDup_app. split_and!; [rewrite reverse_Permutation; apply NoDup_members_upto| |done].
    intros x Hx Hx'. apply elem_of_reverse, Hm in Hx as [? ?]. apply Ha in Hx' as [_ ?]. congruence.
  - done.
  - intros x. rewrite elem_of_app, elem_of_reverse, lookup_delete_all.
    intros [Hx|Hx].
    + rewrite bool_decide_true by done. split; [|done]. intros Hx'%Hd. apply Hm in Hx as [? ?].
      congruence.
    + destruct (Ha x Hx). by case_bool_decide.
  - intros x Hx%Hd. rewrite lookup_delete_all. by case_bool_decide.
Qed.
End transitions.

Create HintDb queue.
#[export] Hint Resolve safe_recover safe_enqueue safe_consume safe_retry safe_promote
  exact_recover exact_enqueue exact_consume exact_settle exact_cancel exact_retry
  exact_promote : queue.

Lemma safe_settle B v id : safe_but B v → safe_but B (q_settle id v).
Proof. intros. apply (safe_forget B v _ id); try done. intros. by apply held_settle. Qed.
Lemma safe_cancel B v id : safe_but B v → safe_but B (q_cancel id v).
Proof. intros. apply (safe_forget B v _ id); try done. intros. by apply held_cancel. Qed.
#[export] Hint Resolve safe_settle safe_cancel : queue.

Lemma qstep_safe careful v l v' : qstep careful v l v' → queue_safe v → queue_safe v'.
Proof.
  destruct 1 as [r v' Ha|job r v' Hj He Hr|r v' Hc|id r v' _ Ha|job due r v' Hj _ Ha|id r v' Ha|
    now r v' Ha]; intros Hs; try (by eapply atomic_preserves; eauto with queue).
  - destruct He; eauto with queue. by destruct Hr as [[=]|[]].
  - eauto with queue.
Qed.

Lemma qstep_exact v l v' : qstep true v l v' → queue_exact v → queue_exact v'.
Proof.
  destruct 1 as [r v' Ha|job r v' Hj He Hr|r v' Hc|id r v' Hin Ha|job due r v' Hj Hin Ha|
    id r v' Ha|now r v' Ha]; intros Hs; try (by eapply atomic_preserves; eauto with queue).
  - destruct He; eauto with queue. by destruct Hr as [[=]|[]].
  - eauto with queue.
Qed.

Lemma qrun_safe careful ls v v' : qrun careful ls v v' → queue_safe v → queue_safe v'.
Proof. induction 1; eauto using qstep_safe. Qed.
Lemma qrun_exact ls v v' : qrun true ls v v' → queue_exact v → queue_exact v'.
Proof. induction 1; eauto using qstep_exact. Qed.

(** *** Order of consumption *)

(** Taking [n] entries from the right. *)
Fixpoint pops (n : nat) (v : qview) : list string * qview :=
  match n, q_pop v with
  | S n, Some (x, v') => let '(xs, v'') := pops n v' in (x :: xs, v'')
  | _, _ => ([], v)
  end.

Lemma pops_all v : (pops (length (ready v)) v).1 = reverse (ready v).
Proof.
  remember (length (ready v)) as n eqn:Hn. revert v Hn.
  induction n as [|n IH]; intros v Hn; [by destruct v as [[|] ? ? ? ?]|].
  destruct (exists_last (l := ready v)) as (l & x & Hl); [by intros Hr; rewrite Hr in Hn|].
  assert (q_pop v = Some (x, QView l (x :: processing v) (delayed v) (payloads v) (queued v)))
    as Hpop by (apply q_pop_Some; eauto).
  cbn [pops]. rewrite Hpop. specialize (IH (QView l (x :: processing v) (delayed v) (payloads v) (queued v))).
  simpl in IH. rewrite Hl, length_app in Hn. simpl in Hn. specialize (IH ltac:(lia)).
  destruct (pops n _) as [xs v'']. simpl in *. by rewrite IH, Hl, reverse_app.
Qed.

Lemma ready_enqueue_all js v :
  NoDup (Itoa ∘ j_ID <$> js) → (∀ j, j ∈ js → Itoa (j_ID j) ∉ queued v) →
  ready (foldl (λ v j, q_enqueue j v) v js) = reverse (Itoa ∘ j_ID <$> js) ++ ready v.
Proof.
  revert v. induction js as [|j js IH]; intros v Hnd Hnew; [done|].
  cbn [fmap list_fmap] in *. apply NoDup_cons in Hnd as [Hj Hnd].
  cbn [foldl]. rewrite IH; [|done|].
  - unfold q_enqueue, q_enter, q_mark. simpl. rewrite bool_decide_true by (apply Hnew; set_solver).
    rewrite reverse_cons. unfold compose. by rewrite <-app_assoc.
  - intros j' Hj'. simpl. rewrite not_elem_of_union, not_elem_of_singleton.
    split; [|apply Hnew; set_solver]. intros He. apply Hj. unfold compose. rewrite <-He.
    apply list_elem_of_fmap. by exists j'.
Qed.

(** *** Delayed entries *)

Lemma delayed_step v l v' x due :
  qstep true v l v' → queue_exact v → delayed v !! x = Some due →
  (∀ id, l = LCancel id → Itoa id ≠ x) →
  (∀ now, l = LPromote now → UnixMilli now < due) →
  delayed v' !! x = Some due.
Proof.
  intros Hstep Hv Hx Hc Hp. pose proof (exact_delayed v Hv x) as Hd.
  assert (∀ f r v', atomic f v r v' → delayed (f v) !! x = Some due → delayed v' !! x = Some due)
    as Hat by (intros f r v0 Ha; by apply (atomic_preserves (λ v, delayed v !! x = Some due) _ _ _ _ Ha)).
  destruct Hstep as [r v' Ha|job r v' Hj He Hr|r v' Hcon|id r v' Hin Ha|job due' r v' Hj Hin Ha|
    id r v' Ha|now r v' Ha]; try (apply (Hat _ _ _ Ha); simpl).
  - done.
  - by destruct He.
  - clear -Hcon Hx. induction Hcon as [| |? ? ? ? Hpop|? ? ? ? ? Hpop|? ? ? ? ? ? Hpop ? Hor ? IH];
      try done; apply q_pop_Some in Hpop as (l & _ & ->); try done.
    apply IH. by destruct Hor as [-> | ->].
  - rewrite lookup_delete_ne; [done|]. intros <-. rewrite Hd in Hx by auto. done.
  - rewrite lookup_insert_ne; [done|]. intros <-. rewrite Hd in Hx by auto. done.
  - rewrite lookup_delete_ne; [done|]. by apply Hc.
  - rewrite lookup_delete_all, bool_decide_false; [done|].
    intros (s & Hs & Hle)%elem_of_members_upto. specialize (Hp now eq_refl). simplify_eq. lia.
Qed.

(** ** Properties *)

(** A job's JSON text is read back as the same job, the text of its type and
    payload made valid UTF-8. *)
Theorem Job_roundtrip job (Hjob : job_typed job = true) :
  UnmarshalJob (MarshalJob job) = Ok (sanitize_job job) ∧
  (ValidString (j_Type job) = true → ValidString (j_Payload job) = true →
   UnmarshalJob (MarshalJob job) = Ok job).
Proof.
  rewrite (UnmarshalJob_MarshalJob job Hjob). split; [done|].
  intros. by rewrite sanitize_job_valid.
Qed.

(** C7: however the operations of the queue are called, interleaved and hit by
    errors, as long as no [Enqueue] fails halfway, every queued ID is in the ready
    list, the processing list or the delayed set, and its payload is the text of a
    job with that ID. *)
Theorem queue_never_loses ls v (Hrun : qrun false ls q_empty v) :
  ∀ x, x ∈ queued v →
    held v x ∧ ∃ job, payloads v !! x = Some (MarshalJob job) ∧ x = Itoa (j_ID job) ∧
                      UnmarshalJob (MarshalJob job) = Ok (sanitize_job job).
Proof.
  apply qrun_safe in Hrun as [_ Hi Ht]; [|apply queue_exact_empty].
  intros x Hx. destruct (Hi x Hx) as [[p Hp]%elem_of_dom Hh]; [apply not_elem_of_empty|]. split; [done|].
  destruct (Ht x p Hp) as (job & Hj & -> & ->). exists job.
  by rewrite UnmarshalJob_MarshalJob.
Qed.

(** C22: when only consumed jobs are acknowledged, failed or retried, and as long as
    no [Enqueue] fails halfway (after marking the ID, before entering the job), whatever
    else fails, a queued job is in exactly one of the three places, once, nothing else
    is in them, and [Consume] never meets an entry without a payload. *)
Theorem queue_exactly_once ls v (Hrun : qrun true ls q_empty v) :
  NoDup (ready v ++ processing v ++ (map_to_list (delayed v)).*1) ∧
  (∀ x, held v x ↔ x ∈ queued v) ∧ dom (payloads v) = queued v ∧
  (∀ x v', q_pop v = Some (x, v') → is_Some (payloads v !! x)).
Proof.
  apply qrun_exact in Hrun as Hv; [|apply queue_exact_empty].
  split_and!; [|split; [apply Hv|apply safe_held, Hv]|apply safe_dom, Hv|intros x v'; by apply exact_no_stale].
  assert (∀ x, x ∈ (map_to_list (delayed v)).*1 → delayed v !! x ≠ None) as Hdel.
  { intros x ([y n] & -> & Hy%elem_of_map_to_list)%list_elem_of_fmap Hn. simpl in Hn. congruence. }
  apply NoDup_app. split_and!; [apply Hv| |].
  - intros x Hx [Hp|Hp%Hdel]%elem_of_app; [by apply (exact_apart v Hv x Hx)|].
    by apply Hp, (exact_apart v Hv x Hx).
  - apply NoDup_app. split_and!; [apply Hv| |apply NoDup_fst_map_to_list].
    intros x Hx Hp%Hdel. by apply Hp, (exact_delayed v Hv).
Qed.

(** Jobs come out in the order they went in; after a recovery the jobs that
    were being processed come out first, the oldest of them first. *)
Theorem queue_is_fifo js v
    (Hdistinct : NoDup (Itoa ∘ j_ID <$> js))
    (Hnew : ∀ j, j ∈ js → Itoa (j_ID j) ∉ queued v) :
  let v' := foldl (λ v j, q_enqueue j v) v js in
  (pops (length (ready v')) v').1 = reverse (ready v) ++ (Itoa ∘ j_ID <$> js) ∧
  (pops (length (ready v') + length (processing v)) (q_recover v')).1 =
    reverse (processing v) ++ reverse (ready v) ++ (Itoa ∘ j_ID <$> js).
Proof.
  intros v'. assert (processing v' = processing v) as Hp.
  { subst v'. clear. revert v. induction js as [|j js IH]; intros v; [done|]. simpl. by rewrite IH. }
  assert (ready v' = reverse (Itoa ∘ j_ID <$> js) ++ ready v) as Hr by (by apply ready_enqueue_all).
  split.
  - by rewrite pops_all, Hr, reverse_app, reverse_involutive.
  - replace (length (ready v') + length (processing v))%nat with (length (ready (q_recover v')))
      by (simpl; by rewrite length_app, Hp).
    rewrite pops_all. simpl. by rewrite Hp, Hr, !reverse_app, reverse_involutive.
Qed.

(** A retried job stays delayed, whatever else happens to the queue, until it
    is cancelled or a promotion runs at or after its due time. *)
Theorem retry_waits_until_due ls v v' x due
    (Hrun : qrun true ls v v') (Hv : queue_exact v) (Hx : delayed v !! x = Some due)
    (Hcancel : ∀ id, LCancel id ∈ ls → Itoa id ≠ x)
    (Hearly : ∀ now, LPromote now ∈ ls → UnixMilli now < due) :
  delayed v' !! x = Some due ∧ (x ∉ ready v') ∧ (x ∉ processing v') ∧
  ∀ now, due ≤ UnixMilli now → x ∈ ready (q_promote now v').
Proof.
  assert (delayed v' !! x = Some due ∧ queue_exact v') as [Hx' Hv'].
  { induction Hrun as [|l ls v v' v'' Hs _ IH]; [done|].
    apply IH; [by eapply qstep_exact|..|set_solver|set_solver].
    eapply delayed_step; [done..|intros id ->|intros now ->]; [apply Hcancel|apply Hearly]; set_solver. }
  split_and!; [done| | |].
  - intros Hr. destruct (exact_apart v' Hv' x Hr). congruence.
  - intros Hp. pose proof (exact_delayed v' Hv' x Hp). congruence.
  - intros now Hdue. simpl. apply elem_of_app. left. apply elem_of_reverse, elem_of_members_upto. eauto.
Qed.

(** ** Witnesses *)
Definition example_job : Job := Build_Job 7 0 3 "shell" "{}".
Definition example_job2 : Job := Build_Job 8 0 3 "shell" "{}".

Lemma Job_roundtrip_witness :
  job_typed example_job = true ∧ UnmarshalJob (MarshalJob example_job) = Ok example_job.
Proof.
  split; [by vm_compute|]. apply (Job_roundtrip example_job); by vm_compute.
Defined.

(** A job that is enqueued, consumed and delayed by a retry. *)
Definition example_consumed : qview :=
  QView [] ["7"] ∅ {["7" := MarshalJob example_job]} {["7"]}.
Definition example_run : list label :=
  [LEnqueue example_job; LConsume; LRetry example_job 5].

Lemma q_enqueue_example : q_enqueue example_job q_empty =
  QView ["7"] [] ∅ {["7" := MarshalJob example_job]} {["7"]}.
Proof.
  change (Itoa (j_ID example_job)) with "7".
  unfold q_enqueue, q_enter, q_mark. by simpl; f_equal.
Qed.

Lemma example_run_ok : qrun true example_run q_empty (q_retry example_job 5 example_consumed).
Proof.
  eapply qrun_cons; [apply (qs_enqueue true q_empty example_job (Ok tt) _ eq_refl (enq_ok _ _)); by left|].
  eapply qrun_cons.
  { apply (qs_consume true _ (Some (Ok example_job)) example_consumed).
    rewrite q_enqueue_example.
    apply (con_job _ "7" _ (MarshalJob example_job)); [reflexivity| |].
    - apply lookup_singleton_eq.
    - apply (UnmarshalJob_MarshalJob example_job eq_refl). }
  eapply qrun_cons; [|apply qrun_nil].
  apply (qs_retry true _ example_job 5 (Ok tt)); [done| |done]. intros _. by apply list_elem_of_singleton.
Qed.

Lemma qrun_careless careful ls v v' : qrun careful ls v v' → qrun false ls v v'.
Proof.
  induction 1 as [|l ls v v' v'' Hs _ IH]; [constructor|]. econstructor; [|done].
  destruct Hs; econstructor; done.
Qed.

Lemma queue_never_loses_witness :
  qrun false example_run q_empty (q_retry example_job 5 example_consumed) ∧
  held (q_retry example_job 5 example_consumed) "7".
Proof.
  pose proof (qrun_careless _ _ _ _ example_run_ok) as Hrun. split; [exact Hrun|].
  apply (queue_never_loses _ _ Hrun). simpl. set_solver.
Defined.

Lemma queue_exactly_once_witness :
  qrun true example_run q_empty (q_retry example_job 5 example_consumed) ∧
  ∀ x, held (q_retry example_job 5 example_consumed) x ↔ x ∈ queued (q_retry example_job 5 example_consumed).
Proof. split; [exact example_run_ok|]. apply (queue_exactly_once _ _ example_run_ok). Defined.

Lemma queue_is_fifo_witness :
  (pops 2 (foldl (λ v j, q_enqueue j v) q_empty [example_job; example_job2])).1 = ["7"; "8"].
Proof.
  apply (queue_is_fifo [example_job; example_job2] q_empty).
  - apply (bool_decide_eq_true_1 _). vm_compute. reflexivity.
  - intros j _. apply not_elem_of_empty.
Defined.

Lemma retry_waits_until_due_witness :
  let v := q_retry example_job 5 example_consumed in
  qrun true [LPromote 4999999] v v ∧ delayed v !! "7" = Some 5 ∧ ("7" ∉ ready v).
Proof.
  assert (qrun true [LPromote 4999999] (q_retry example_job 5 example_consumed)
            (q_retry example_job 5 example_consumed)) as Hrun.
  { eapply qrun_cons; [|apply qrun_nil]. apply (qs_promote true _ 4999999 (Err ErrIO)). by left. }
  cbv zeta. split; [exact Hrun|].
  destruct (retry_waits_until_due _ _ _ "7" 5 Hrun) as (Hx & Hr & _).
  - apply (qrun_exact _ _ _ example_run_ok queue_exact_empty).
  - reflexivity.
  - intros id ?%list_elem_of_singleton. discriminate.
  - intros now [= ->]%list_elem_of_singleton. reflexivity.
  - split; [exact Hx|exact Hr].
Defined.

