(* ===== verification/RedisQueue.v ===== *)
(** * The Redis queue

    Models internal/queue/redis.go: the keys, every method of [RedisQueue] with
    the commands it sends in the order it sends them, and [promoteDueJobs], which
    [Start] runs on every tick.  The theorems show that it keeps the contract of
    file Queue over any server that satisfies [RedisLaws], and what [Consume] and
    [Enqueue] do in detail. *)
From stdpp Require Import gmap strings list fin_maps fin_sets.
From S2P Require Import Prelude Text Json Redis Queue.
Open Scope Z_scope.

(** ** The structure *)
Record RedisQueue : Type := {
  name : string;
  timeout : Z;
  readyKey : string;
  processingKey : string;
  delayedKey : string;
  payloadKey : string;
  queuedSetKey : string;
  schedulerInterval : Z;
}.

Definition NewRedisQueue (name : string) (timeout : Z) : RedisQueue := {|
  name := name;
  timeout := timeout;
  readyKey := name +:+ ":ready";
  processingKey := name +:+ ":processing";
  delayedKey := name +:+ ":delayed";
  payloadKey := name +:+ ":payloads";
  queuedSetKey := name +:+ ":queued";
  schedulerInterval := 1000000000;
|}.

(** ** The methods *)
Section methods.
Context {R : Type} `{Redis R}.
Variable q : RedisQueue.

(** [pipe.Exec]; the replies of the commands are not looked at. *)
Definition Exec (cmds : list cmd) : M (conn R) (result unit) :=
  call (λ _ r, (Ok tt, multi cmds r)).

Definition rq_Recover : M (conn R) (result unit) :=
  try_bind (call (λ _ r, (Ok (lrange (processingKey q) r), r))) (λ jobIDs,
    if bool_decide (jobIDs = []) then mret (Ok tt)
    else Exec (DEL (processingKey q) :: (RPUSH (readyKey q) <$> jobIDs))).

Definition rq_Enqueue (job : Job) : M (conn R) (result unit) :=
  let payload := MarshalJob job in
  let jobID := Itoa (j_ID job) in
  try_bind (call (λ _ r, let '(n, r) := sadd (queuedSetKey q) jobID r in (Ok n, r))) (λ added,
    Exec (HSET (payloadKey q) jobID payload ::
          if bool_decide (added = 1) then [LPUSH (readyKey q) jobID] else [])).

(** [BRPopLPush]: interrupted by the context, timed out, or an entry. *)
Definition BRPopLPush (ctx : Ctx) (n : nat) : M (conn R) (result string) :=
  call (λ _ r,
    let '(o, r') := brpoplpush (readyKey q) (processingKey q) r in
    match interrupt ctx n with
    | Some late => (Err ErrCanceled, if (late : bool) then r' else r)
    | None => (match o with Some x => Ok x | None => Err ErrRedisNil end, r')
    end).

Definition HGet (jobID : string) : M (conn R) (result string) :=
  call (λ _ r, (match hget (payloadKey q) jobID r with
                | Some p => Ok p | None => Err ErrRedisNil end, r)).

(** [ctx.Err()] *)
Definition ctx_Err (ctx : Ctx) (n : nat) : option goerr :=
  if done ctx n then Some ErrCanceled else None.

(** [return Job{}, ctx.Err()] *)
Definition return_ctx_Err (ctx : Ctx) (n : nat) : result Job :=
  match ctx_Err ctx n with Some e => Err e | None => Ok Job_zero end.

(** The loop, from its [n]-th iteration on. *)
Fixpoint consume_from (ctx : Ctx) (fuel n : nat) : M (conn R) (option (result Job)) :=
  match fuel with
  | O => mret None
  | S fuel =>
      r ← BRPopLPush ctx n;
      match r with
      | Ok jobID =>
          g ← HGet jobID;
          match g with
          | Err ErrRedisNil =>
              _ ← Exec [LREM1 (processingKey q) jobID];
              consume_from ctx fuel (S n)
          | Err e => mret (Some (Err e))
          | Ok payload => mret (Some (UnmarshalJob payload))
          end
      | Err ErrCanceled => mret (Some (return_ctx_Err ctx n))
      | Err ErrRedisNil =>
          if done ctx n then mret (Some (return_ctx_Err ctx n))
          else consume_from ctx fuel (S n)
      | Err e =>
          if done ctx n then mret (Some (return_ctx_Err ctx n))
          else mret (Some (Err e))
      end
  end.
Definition rq_Consume (ctx : Ctx) (fuel : nat) : M (conn R) (option (result Job)) :=
  consume_from ctx fuel 0.

Definition rq_Ack (job : Job) : M (conn R) (result unit) :=
  let jobID := Itoa (j_ID job) in
  Exec [LREM1 (processingKey q) jobID; SREM (queuedSetKey q) jobID;
        HDEL (payloadKey q) jobID; ZREM (delayedKey q) jobID].

Definition rq_Retry (job : Job) (delay : Z) : M (conn R) (result unit) :=
  let payload := MarshalJob job in
  let jobID := Itoa (j_ID job) in
  λ c,
  let score := UnixMilli (c_now c + delay) in
  Exec [HSET (payloadKey q) jobID payload; LREM1 (processingKey q) jobID;
        SADD (queuedSetKey q) jobID; ZADD (delayedKey q) score jobID] c.

Definition rq_Fail (job : Job) : M (conn R) (result unit) :=
  let jobID := Itoa (j_ID job) in
  Exec [LREM1 (processingKey q) jobID; SREM (queuedSetKey q) jobID;
        HDEL (payloadKey q) jobID; ZREM (delayedKey q) jobID].

Definition rq_Cancel (job : Job) : M (conn R) (result unit) :=
  let jobID := Itoa (j_ID job) in
  Exec [LREM1 (readyKey q) jobID; LREM1 (processingKey q) jobID;
        SREM (queuedSetKey q) jobID; HDEL (payloadKey q) jobID; ZREM (delayedKey q) jobID].

Definition rq_promoteDueJobs : M (conn R) (result unit) := λ c,
  let now := UnixMilli (c_now c) in
  try_bind (call (λ _ r, (Ok (zrangebyscore (delayedKey q) now r), r))) (λ jobIDs,
    if bool_decide (jobIDs = []) then mret (Ok tt)
    else Exec (jobIDs ≫= λ jobID, [ZREM (delayedKey q) jobID; LPUSH (readyKey q) jobID])) c.

(** ** The keyspace as an abstract queue *)
Definition rq_view (m : keyspace) : qview := QView
  (default [] (as_list m (readyKey q))) (default [] (as_list m (processingKey q)))
  (default ∅ (as_zset m (delayedKey q))) (default ∅ (as_hash m (payloadKey q)))
  (default ∅ (as_set m (queuedSetKey q))).

(** The five keys hold values of the right types, and they are those of [v]. *)
Record represents (m : keyspace) (v : qview) : Prop := {
  rep_ready : as_list m (readyKey q) = Some (ready v);
  rep_processing : as_list m (processingKey q) = Some (processing v);
  rep_delayed : as_zset m (delayedKey q) = Some (delayed v);
  rep_payloads : as_hash m (payloadKey q) = Some (payloads v);
  rep_queued : as_set m (queuedSetKey q) = Some (queued v);
}.

Lemma represents_view m v : represents m v → rq_view m = v.
Proof. intros [H1 H2 H3 H4 H5]. destruct v. unfold rq_view. by rewrite H1, H2, H3, H4, H5. Qed.

Definition keys_apart : Prop :=
  NoDup [readyKey q; processingKey q; delayedKey q; payloadKey q; queuedSetKey q].
End methods.

Lemma NewRedisQueue_apart name timeout : keys_apart (NewRedisQueue name timeout).
Proof.
  unfold keys_apart. simpl.
  change (NoDup (String.append name <$> [":ready"; ":processing"; ":delayed"; ":payloads"; ":queued"])).
  apply NoDup_fmap; [apply _|]. apply (bool_decide_eq_true_1 _). by vm_compute.
Qed.

(** ** Each command on the represented queue *)
Section commands.
Context {R : Type} `{RedisLaws R}.
Variable q : RedisQueue.
Hypothesis apart : keys_apart q.

Ltac apart_keys :=
  let H := fresh in
  pose proof apart as H; unfold keys_apart in H;
  rewrite !NoDup_cons, !not_elem_of_cons in H; destruct_and? H.

(** A command on one key: rewrite with its law, then read each key. *)
Ltac command law :=
  intros []; apart_keys; split;
  (erewrite law by eassumption); autorewrite with redis; done.

Implicit Types (r : R) (v : qview).

Lemma rep_lpush r v x : represents q (keys r) v →
  represents q (keys (run (LPUSH (readyKey q) x) r))
    (QView (x :: ready v) (processing v) (delayed v) (payloads v) (queued v)).
Proof. command lpush_law. Qed.
Lemma rep_rpush r v x : represents q (keys r) v →
  represents q (keys (run (RPUSH (readyKey q) x) r))
    (QView (ready v ++ [x]) (processing v) (delayed v) (payloads v) (queued v)).
Proof. command rpush_law. Qed.
Lemma rep_lrem_ready r v x : represents q (keys r) v →
  represents q (keys (run (LREM1 (readyKey q) x) r))
    (QView (remove1 x (ready v)) (processing v) (delayed v) (payloads v) (queued v)).
Proof. command lrem_law. Qed.
Lemma rep_lrem r v x : represents q (keys r) v →
  represents q (keys (run (LREM1 (processingKey q) x) r)) (q_drop x v).
Proof. command lrem_law. Qed.
Lemma rep_sadd r v x : represents q (keys r) v →
  represents q (keys (run (SADD (queuedSetKey q) x) r)) (q_mark x v).
Proof. command sadd_law. Qed.
Lemma rep_srem r v x : represents q (keys r) v →
  represents q (keys (run (SREM (queuedSetKey q) x) r))
    (QView (ready v) (processing v) (delayed v) (payloads v) (queued v ∖ {[x]})).
Proof. command srem_law. Qed.
Lemma rep_hset r v x p : represents q (keys r) v →
  represents q (keys (run (HSET (payloadKey q) x p) r))
    (QView (ready v) (processing v) (delayed v) (<[x := p]> (payloads v)) (queued v)).
Proof. command hset_law. Qed.
Lemma rep_hdel r v x : represents q (keys r) v →
  represents q (keys (run (HDEL (payloadKey q) x) r))
    (QView (ready v) (processing v) (delayed v) (delete x (payloads v)) (queued v)).
Proof. command hdel_law. Qed.
Lemma rep_zadd r v x n : represents q (keys r) v →
  represents q (keys (run (ZADD (delayedKey q) n x) r))
    (QView (ready v) (processing v) (<[x := n]> (delayed v)) (payloads v) (queued v)).
Proof. command zadd_law. Qed.
Lemma rep_zrem r v x : represents q (keys r) v →
  represents q (keys (run (ZREM (delayedKey q) x) r))
    (QView (ready v) (processing v) (delete x (delayed v)) (payloads v) (queued v)).
Proof. command zrem_law. Qed.

Lemma rep_del r v : represents q (keys r) v →
  represents q (keys (run (DEL (processingKey q)) r))
    (QView (ready v) [] (delayed v) (payloads v) (queued v)).
Proof.
  intros []. apart_keys. split; rewrite del_law; unfold as_list, as_set, as_hash, as_zset in *;
    rewrite ?lookup_delete_ne by done; try done. by rewrite lookup_delete_eq.
Qed.

Lemma rep_brpoplpush r v : represents q (keys r) v →
  match q_pop v with
  | None => brpoplpush (readyKey q) (processingKey q) r = (None, r)
  | Some (x, v') => (brpoplpush (readyKey q) (processingKey q) r).1 = Some x ∧
      represents q (keys (brpoplpush (readyKey q) (processingKey q) r).2) v'
  end.
Proof.
  intros Hv. pose proof Hv as []. apart_keys.
  destruct (q_pop v) as [[x v']|] eqn:Hpop.
  - apply q_pop_Some in Hpop as (l & Hl & ->). rewrite Hl in *.
    destruct (brpop_law (readyKey q) (processingKey q) l x (processing v) r) as [Hx Hr]; [done..|].
    split; [done|]. split; rewrite Hr; autorewrite with redis; done.
  - apply brpop_empty. rewrite rep_ready0. f_equal. revert Hpop. unfold q_pop.
    destruct (reverse (ready v)) eqn:Hl; [|done]. intros _.
    by rewrite <-(reverse_involutive (ready v)), Hl.
Qed.

(** *** The pipelines *)
Lemma rep_settle r v id : represents q (keys r) v →
  represents q (keys (multi [LREM1 (processingKey q) (Itoa id); SREM (queuedSetKey q) (Itoa id);
                             HDEL (payloadKey q) (Itoa id); ZREM (delayedKey q) (Itoa id)] r))
    (q_settle id v).
Proof. intros Hv. exact (rep_zrem _ _ _ (rep_hdel _ _ _ (rep_srem _ _ _ (rep_lrem _ _ _ Hv)))). Qed.

Lemma rep_cancel r v id : represents q (keys r) v →
  represents q (keys (multi [LREM1 (readyKey q) (Itoa id); LREM1 (processingKey q) (Itoa id);
                             SREM (queuedSetKey q) (Itoa id); HDEL (payloadKey q) (Itoa id);
                             ZREM (delayedKey q) (Itoa id)] r))
    (q_cancel id v).
Proof.
  intros Hv.
  exact (rep_zrem _ _ _ (rep_hdel _ _ _ (rep_srem _ _ _ (rep_lrem _ _ _ (rep_lrem_ready _ _ _ Hv))))).
Qed.

Lemma rep_retry r v job due : represents q (keys r) v →
  represents q (keys (multi [HSET (payloadKey q) (Itoa (j_ID job)) (MarshalJob job);
                             LREM1 (processingKey q) (Itoa (j_ID job));
                             SADD (queuedSetKey q) (Itoa (j_ID job));
                             ZADD (delayedKey q) due (Itoa (j_ID job))] r))
    (q_retry job due v).
Proof. intros Hv. exact (rep_zadd _ _ _ _ (rep_sadd _ _ _ (rep_lrem _ _ _ (rep_hset _ _ _ _ Hv)))). Qed.

Lemma rep_enter r v x p (added : bool) : represents q (keys r) v →
  represents q (keys (multi (HSET (payloadKey q) x p ::
                             if added then [LPUSH (readyKey q) x] else []) r))
    (q_enter x p added v).
Proof.
  intros Hv. pose proof (rep_hset _ _ x p Hv) as Hp. destruct added; [|exact Hp].
  exact (rep_lpush _ _ _ Hp).
Qed.

Lemma rep_recover r v : represents q (keys r) v →
  represents q (keys (multi (DEL (processingKey q) :: (RPUSH (readyKey q) <$> processing v)) r))
    (q_recover v).
Proof.
  intros Hv. pose proof (rep_del _ _ Hv) as Hd. unfold multi. cbn [foldl].
  revert Hd. generalize (run (DEL (processingKey q)) r). unfold q_recover.
  generalize (ready v). generalize (processing v). intros xs.
  induction xs as [|x xs IH]; intros l r' Hd; simpl; [by rewrite app_nil_r|].
  replace (l ++ x :: xs) with ((l ++ [x]) ++ xs) by (by rewrite <-app_assoc).
  apply IH. exact (rep_rpush _ _ _ Hd).
Qed.

Lemma rep_promote_all r v xs : represents q (keys r) v →
  represents q (keys (multi (xs ≫= λ x, [ZREM (delayedKey q) x; LPUSH (readyKey q) x]) r))
    (q_promote_all xs v).
Proof.
  revert r v. induction xs as [|x xs IH]; intros r v Hv; [by destruct v|].
  specialize (IH _ _ (rep_lpush _ _ x (rep_zrem _ _ x Hv))).
  unfold q_promote_all in *. simpl in *. by rewrite reverse_cons, <-app_assoc.
Qed.
End commands.

(** ** The contract *)
Section contract.
Context {R : Type} `{RedisLaws R}.
Variable q : RedisQueue.
Hypothesis apart : keys_apart q.

#[local] Instance RedisQueue_ops : Queue R := {
  Recover := rq_Recover q;
  Enqueue := rq_Enqueue q;
  Consume := rq_Consume q;
  Ack := rq_Ack q;
  Retry := rq_Retry q;
  Fail := rq_Fail q;
  Cancel := rq_Cancel q;
  promoteDueJobs := rq_promoteDueJobs q;
  qabs r := rq_view q (keys r);
  qinv r := represents q (keys r) (rq_view q (keys r));
}.

Lemma represents_inv (r : R) v : represents q (keys r) v → qinv r ∧ qabs r = v.
Proof. intros Hv. simpl. by rewrite (represents_view _ _ _ Hv). Qed.

(** A pipeline with the effect [f]. *)
Lemma wp_Exec (cmds : list cmd) f c (Q : result unit → conn R → Prop) :
  (∀ r v, represents q (keys r) v → represents q (keys (multi cmds r)) (f v)) →
  qinv (c_data c) →
  (∀ a c', qinv (c_data c') → c_now c' = c_now c →
     atomic f (qabs (c_data c)) a (qabs (c_data c')) →
     (c_faults c = [] → is_ok a = true ∧ c_faults c' = []) → Q a c') →
  wp (Exec cmds) c Q.
Proof.
  intros Hf Hc HQ. destruct (represents_inv _ _ (Hf _ _ Hc)) as [Hi Ha].
  apply wp_call; intros fs Hfs; apply HQ; simpl; auto; naive_solver.
Qed.

Lemma Exec_meets (cmds : Z → list cmd) f :
  (∀ now r v, represents q (keys r) v → represents q (keys (multi (cmds now) r)) (f now v)) →
  meets (λ c, Exec (cmds (c_now c)) c) is_ok (λ now, atomic (f now)).
Proof.
  intros Hf c Hc. change (wp (Exec (cmds (c_now c))) c (λ a c',
    qinv (c_data c') ∧ c_now c' = c_now c ∧
    atomic (f (c_now c)) (qabs (c_data c)) a (qabs (c_data c')) ∧
    (c_faults c = [] → is_ok a = true ∧ c_faults c' = []))).
  eapply wp_Exec; [apply Hf|done|]. by intros.
Qed.

(** Read the state, then run a pipeline over what was read, if anything. *)
Lemma read_Exec (xs : qview → list string) (g : R → list string) (cmds : list string → list cmd)
    f c :
  (∀ r v, represents q (keys r) v → g r = xs v) →
  (∀ r v, represents q (keys r) v →
     represents q (keys (multi (cmds (xs v)) r)) (f v)) →
  (∀ v, xs v = [] → f v = v) → qinv (c_data c) →
  wp (try_bind (call (λ _ r, (Ok (g r), r))) (λ ids,
        if bool_decide (ids = []) then mret (Ok tt) else Exec (cmds ids))) c
    (λ a c', qinv (c_data c') ∧ c_now c' = c_now c ∧
       atomic f (qabs (c_data c)) a (qabs (c_data c')) ∧
       (c_faults c = [] → is_ok a = true ∧ c_faults c' = [])).
Proof.
  intros Hg Hcmds Hempty Hc.
  apply wp_try_bind, (wp_read (λ _ r, Ok (g r))); intros fs Hfs; [|naive_solver].
  rewrite (Hg _ _ Hc). case_bool_decide as Hx.
  - apply wp_ret. simpl. rewrite (Hempty _ Hx). naive_solver.
  - destruct (represents_inv _ _ (Hcmds _ _ Hc)) as [Hi Ha]. unfold Exec.
    apply wp_call; intros fs' Hfs'; simpl in *; split_and!; auto; naive_solver.
Qed.

Lemma Recover_meets : meets (rq_Recover q) is_ok (λ _, atomic q_recover).
Proof.
  intros c Hc.
  apply (read_Exec processing _ (λ ids, DEL (processingKey q) :: (RPUSH (readyKey q) <$> ids))); try done.
  - intros r v Hv. apply lrange_law, Hv.
  - intros. by apply rep_recover.
  - intros v Hv. destruct v. unfold q_recover. simpl in *. by rewrite Hv, app_nil_r.
Qed.

Lemma promote_meets : meets (rq_promoteDueJobs q) is_ok (λ now, atomic (q_promote now)).
Proof.
  intros c Hc.
  apply (read_Exec (λ v, members_upto (UnixMilli (c_now c)) (delayed v))
           (zrangebyscore (delayedKey q) (UnixMilli (c_now c)))
           (λ ids, ids ≫= λ x, [ZREM (delayedKey q) x; LPUSH (readyKey q) x])); try done.
  - intros r v Hv. apply zrange_law, Hv.
  - intros. by apply rep_promote_all.
  - intros v Hv. destruct v. unfold q_promote, q_promote_all. simpl in *. by rewrite Hv.
Qed.

Lemma Ack_meets job : meets (rq_Ack q job) is_ok (λ _, atomic (q_settle (j_ID job))).
Proof. apply (Exec_meets (λ _, _) (λ _, _)). intros now r v. by apply rep_settle. Qed.
Lemma Fail_meets job : meets (rq_Fail q job) is_ok (λ _, atomic (q_settle (j_ID job))).
Proof. apply (Exec_meets (λ _, _) (λ _, _)). intros now r v. by apply rep_settle. Qed.
Lemma Cancel_meets job : meets (rq_Cancel q job) is_ok (λ _, atomic (q_cancel (j_ID job))).
Proof. apply (Exec_meets (λ _, _) (λ _, _)). intros now r v. by apply rep_cancel. Qed.
Lemma Retry_meets job d :
  meets (rq_Retry q job d) is_ok (λ now, atomic (q_retry job (UnixMilli (now + d)))).
Proof.
  apply (Exec_meets (λ now, [HSET _ _ _; LREM1 _ _; SADD _ _; ZADD _ (UnixMilli (now + d)) _])).
  intros now r v. by apply rep_retry.
Qed.

Lemma Enqueue_meets job : meets (rq_Enqueue q job) is_ok (λ _, enqueue_spec job).
Proof.
  intros c Hc. pose proof (rep_queued _ _ _ Hc) as Hq.
  destruct (sadd_reply _ (Itoa (j_ID job)) _ _ Hq) as [Hn Hk].
  pose proof (rep_sadd q apart _ _ (Itoa (j_ID job)) Hc) as Hm.
  unfold rq_Enqueue. destruct (sadd _ _ (c_data c)) as [n r'] eqn:Hs. simpl in Hn, Hk.
  rewrite <-Hk in Hm. destruct (represents_inv _ _ Hm) as [Hi Ha]. simpl in Hi, Ha.
  apply wp_try_bind, wp_call; simpl; rewrite ?Hs; intros fs Hfs; simpl;
    [|split_and!; try done; apply enq_none|
      split_and!; try done; rewrite Ha; apply enq_marked].
  destruct (represents_inv _ _ (rep_enter q apart r' _ (Itoa (j_ID job)) (MarshalJob job)
    (bool_decide (n = 1)) Hm)) as [Hi' Ha']. simpl in Hi', Ha'.
  replace (bool_decide (n = 1)) with (bool_decide (Itoa (j_ID job) ∉ queued (rq_view q (keys (c_data c)))))
    in * by (rewrite Hn; by repeat case_bool_decide).
  unfold Exec. apply wp_call; intros fs' Hfs'; simpl; (split; [done|split; [done|]]);
    (split; [|naive_solver]); simpl in Ha, Ha', Hfs'; rewrite ?Ha, ?Ha'.
  - exact (enq_ok job _).
  - exact (enq_marked job _ _).
  - exact (enq_late job _ _).
Qed.

(** [Consume]: by induction on its fuel. *)
Lemma wp_HGet c x (Q : result string → conn R → Prop) : qinv (c_data c) →
  (∀ fs, (c_faults c = [] → fs = []) →
     Q (match payloads (qabs (c_data c)) !! x with Some p => Ok p | None => Err ErrRedisNil end)
       (Conn (c_data c) fs (c_now c))) →
  (∀ fs, c_faults c ≠ [] → Q (Err ErrIO) (Conn (c_data c) fs (c_now c))) →
  wp (HGet q x) c Q.
Proof.
  intros Hc HQ HE. apply (wp_read (λ _ r, match hget (payloadKey q) x r with
    | Some p => Ok p | None => Err ErrRedisNil end)); [|done].
  by rewrite (hget_law _ _ _ _ (rep_payloads _ _ _ Hc)).
Qed.

(** Where the pop leads: nowhere, to a timeout, or to an entry. *)
Lemma wp_BRPopLPush ctx n c (Q : result string → conn R → Prop) : qinv (c_data c) →
  (∀ e c', qinv (c_data c') → c_now c' = c_now c →
     (qabs (c_data c') = qabs (c_data c) ∨
      ∃ x, q_pop (qabs (c_data c)) = Some (x, qabs (c_data c'))) →
     (c_faults c = [] → c_faults c' = []) →
     e = ErrCanceled ∧ interrupt ctx n ≠ None ∨ e = ErrIO ∧ c_faults c ≠ [] → Q (Err e) c') →
  (∀ c', c_data c' = c_data c → c_now c' = c_now c →
     (c_faults c = [] → c_faults c' = []) →
     q_pop (qabs (c_data c)) = None → Q (Err ErrRedisNil) c') →
  (∀ x c', qinv (c_data c') → c_now c' = c_now c → (c_faults c = [] → c_faults c' = []) →
     q_pop (qabs (c_data c)) = Some (x, qabs (c_data c')) → Q (Ok x) c') →
  wp (BRPopLPush q ctx n) c Q.
Proof.
  intros Hc He Hn Hx. pose proof (rep_brpoplpush q apart _ _ Hc) as Hpop.
  unfold BRPopLPush.
  destruct (q_pop (rq_view q (keys (c_data c)))) as [[x v']|] eqn:Hp.
  - destruct (brpoplpush _ _ (c_data c)) as [o r'] eqn:Hr. destruct Hpop as [Ho Hv]. simpl in Ho, Hv.
    destruct (represents_inv _ _ Hv) as [Hi Ha]. subst.
    apply wp_call; simpl; rewrite ?Hr; intros fs Hfs; simpl.
    + destruct (interrupt ctx n) as [[]|] eqn:Hint; simpl.
      * apply He; simpl; try done; [right; by exists x|]. by left.
      * apply He; simpl; try done; [by left|]. by left.
      * by apply Hx.
    + apply He; simpl; try done; [by left|]. by right.
    + destruct (interrupt ctx n) as [[]|]; simpl; apply He; simpl; try done;
        first [by left|by right; exists x|by right].
  - apply wp_call; simpl; rewrite ?Hpop; intros fs Hfs; destruct (interrupt ctx n) as [[]|] eqn:Hint;
      simpl; try (by apply Hn); apply He; simpl; try done; try (by left); try (by right);
      by left.
Qed.

Lemma ctx_Err_interrupted ctx n : interrupt ctx n ≠ None → return_ctx_Err ctx n = Err ErrCanceled.
Proof. intros Hi%interrupt_done. unfold return_ctx_Err, ctx_Err. by rewrite Hi. Qed.

Lemma wp_drop c x (Q : result unit → conn R → Prop) : qinv (c_data c) →
  (∀ a c', qinv (c_data c') → c_now c' = c_now c →
     (c_faults c = [] → is_ok a = true ∧ c_faults c' = []) →
     atomic (q_drop x) (qabs (c_data c)) a (qabs (c_data c')) → Q a c') →
  wp (Exec [LREM1 (processingKey q) x]) c Q.
Proof.
  intros Hc HQ. apply (wp_Exec _ (q_drop x)); [|done|by auto].
  intros r v Hv. by apply rep_lrem.
Qed.

Lemma consume_from_meets ctx fuel n :
  meets (consume_from q ctx fuel n) (λ _, true) (λ _, consume_spec).
Proof.
  revert n. induction fuel as [|fuel IH]; intros n c Hc; cbn [consume_from].
  { apply wp_ret. split_and!; try done. constructor. }
  apply wp_bind, wp_BRPopLPush; [done| | |].
  - intros e c' Hc' Hnow Hmove Hf He.
    assert (∀ r, is_ok r = false → consume_spec (qabs (c_data c)) (Some r) (qabs (c_data c'))) as Hspec.
    { intros [|e'] Hr; [done|]. destruct Hmove as [-> | [x Hx]]; [constructor|by eapply con_stuck]. }
    destruct He as [[-> Hi]|[-> Hne]]; [|destruct (done ctx n) eqn:Hdone]; apply wp_ret.
    + rewrite ctx_Err_interrupted by done. split_and!; auto.
    + unfold return_ctx_Err, ctx_Err. rewrite Hdone. split_and!; auto; done.
    + split_and!; auto; done.
  - intros c' Hc' Hnow Hf Hpop.
    destruct (done ctx n) eqn:Hdone.
    + apply wp_ret. unfold return_ctx_Err, ctx_Err. rewrite Hdone, Hc'. split_and!; auto. constructor.
    + eapply wp_mono; [apply IH; by rewrite Hc'|]. simpl. rewrite Hc', Hnow. naive_solver.
  - intros x c' Hc' Hnow Hf Hpop. apply wp_bind, wp_HGet; [done| |].
    + intros fs Hfs.
      replace (payloads (qabs (c_data c'))) with (payloads (qabs (c_data c)))
        by (by apply q_pop_Some in Hpop as (l & _ & ->)).
      destruct (payloads (qabs (c_data c)) !! x) as [p|] eqn:Hp.
      * apply wp_ret. cbn [c_data c_now c_faults]. split_and!; auto.
        destruct (UnmarshalJob p) eqn:Hj; [by eapply con_job|by eapply con_stuck].
      * apply wp_bind, wp_drop; [done|]. intros a c2 Hc2 Hnow2 Hf2 Hdrop.
        eapply wp_mono; [by apply IH|]. intros r c3 (Hc3 & Hnow3 & Hs & Hf3).
        cbn [c_data c_now c_faults] in *. split_and!; [done|congruence| |naive_solver].
        eapply con_stale; [done|done| |done]. destruct a; simpl in Hdrop; tauto.
    + intros fs Hne. apply wp_ret. cbn [c_data c_now c_faults].
      split_and!; [done|done|by eapply con_stuck|]. naive_solver.
Qed.

(** *** Consume in detail *)
(** With every context and every fault, the loop ends soon after the context is
    done: an iteration that does not return took an entry away or came before. *)
Lemma consume_from_ends ctx N fuel : (∀ n, (N ≤ n)%nat → done ctx n = true) →
  ∀ n c, qinv (c_data c) → (N - n + length (ready (qabs (c_data c))) < fuel)%nat →
  wp (consume_from q ctx fuel n) c (λ r _, r ≠ None).
Proof.
  intros HN. induction fuel as [|fuel IH]; intros n c Hc Hlt; [lia|]. cbn [consume_from].
  apply wp_bind, wp_BRPopLPush; [done| | |].
  - intros e c' _ _ _ _ [[-> _]|[-> _]]; [by apply wp_ret|]. by destruct (done ctx n); apply wp_ret.
  - intros c' Hc' _ _ _. destruct (done ctx n) eqn:Hd; [by apply wp_ret|].
    apply IH; rewrite Hc'; [done|]. destruct (decide (N ≤ n)%nat) as [?%HN|]; [congruence|lia].
  - intros x c' Hc' _ _ Hpop. apply wp_bind.
    assert (length (ready (qabs (c_data c))) = S (length (ready (qabs (c_data c'))))) as Hlen.
    { apply q_pop_Some in Hpop as (l & -> & ->). rewrite length_app. simpl. lia. }
    apply wp_HGet; [done| |intros; by apply wp_ret]. intros fs _.
    destruct (_ !! x); [by apply wp_ret|].
    apply wp_bind, wp_drop; [done|]. intros a c2 Hc2 _ _ Hdrop. apply IH; [done|].
    cbn [c_data] in Hdrop.
    assert (ready (qabs (c_data c2)) = ready (qabs (c_data c'))) as ->.
    { destruct a; cbn [atomic] in Hdrop; [by rewrite Hdrop|by destruct Hdrop as [-> | ->]]. }
    lia.
Qed.

(** Without faults entries at the right end that have no payload are skipped. *)
Lemma wp_consume_skips stale fuel n c l (Q : option (result Job) → conn R → Prop) :
  qinv (c_data c) → c_faults c = [] → ready (qabs (c_data c)) = l ++ stale →
  (∀ s, s ∈ stale → payloads (qabs (c_data c)) !! s = None) → (length stale ≤ fuel)%nat →
  (∀ n' c', qinv (c_data c') → c_faults c' = [] →
     (qabs (c_data c') = let v := qabs (c_data c) in
        QView l (processing v) (delayed v) (payloads v) (queued v)) →
     wp (consume_from q Background (fuel - length stale) n') c' Q) →
  wp (consume_from q Background fuel n) c Q.
Proof.
  revert fuel n c l. induction stale as [|s stale IH] using rev_ind; intros fuel n c l Hc Hf Hr Hs Hlen HQ.
  { rewrite app_nil_r in Hr. replace fuel with (fuel - length (@nil string))%nat by (simpl; lia).
    apply HQ; [done..|]. rewrite <-Hr. by destruct (qabs (c_data c)). }
  rewrite length_app in Hlen, HQ. simpl in Hlen, HQ. destruct fuel as [|fuel]; [lia|].
  cbn [consume_from]. apply wp_bind, wp_BRPopLPush; [done| | |].
  - intros e c' _ _ _ _ [[_ Hi]|[_ Hi]]; by destruct Hi.
  - intros c' _ _ _ Hpop. exfalso. unfold q_pop in Hpop. rewrite Hr, app_assoc, reverse_app in Hpop. done.
  - intros x c' Hc' _ Hf' Hpop. apply q_pop_Some in Hpop as (l' & Hl & Hv').
    rewrite Hr, app_assoc in Hl. apply app_inj_tail in Hl as [<- <-].
    apply wp_bind, wp_HGet; [done| |intros fs Hne; by destruct Hne; auto]. intros fs Hfs.
    rewrite Hv'. cbn [payloads]. rewrite Hs by set_solver.
    apply wp_bind, wp_drop; [done|]. intros a c2 Hc2 _ Hf2 Hdrop.
    assert (qabs (c_data c2) = let v := qabs (c_data c) in
      QView (l ++ stale) (processing v) (delayed v) (payloads v) (queued v)) as Hv2.
    { cbn [c_data c_faults] in *. destruct Hf2 as [Hok _]; [by auto|]. destruct a; [|done].
      cbn [atomic] in Hdrop. rewrite Hdrop, Hv'. unfold q_drop. cbn. by rewrite bool_decide_true. }
    apply (IH fuel (S n) c2 l); rewrite ?Hv2; [done|..].
    + cbn [c_faults] in *. apply Hf2. auto.
    + done.
    + intros s' Hs'. apply Hs. set_solver.
    + lia.
    + intros n' c3 Hc3 Hf3 Hv3. replace (fuel - length stale)%nat with (S fuel - (length stale + 1))%nat by lia.
      by apply HQ.
Qed.
End contract.

(** The queue of [NewRedisQueue] keeps the contract. *)
#[export] Instance RedisQueue_laws {R} `{RedisLaws R} name timeout :
  @QueueLaws R (RedisQueue_ops (NewRedisQueue name timeout)).
Proof.
  pose proof (NewRedisQueue_apart name timeout). split; intros.
  - by apply Recover_meets.
  - by apply Enqueue_meets.
  - by apply consume_from_meets.
  - by apply Ack_meets.
  - by apply Retry_meets.
  - by apply Fail_meets.
  - by apply Cancel_meets.
  - by apply promote_meets.
Qed.


(** [Consume] on a reliable connection. *)
Lemma consume_live R `(HR : RedisLaws R) name timeout
    (q := NewRedisQueue name timeout) (c : conn R) l x stale p job fuel
    (v := rq_view q (keys (c_data c)))
    (Hinv : represents q (keys (c_data c)) v) (Hfaults : c_faults c = [])
    (Hready : ready v = l ++ x :: stale)
    (Hstale : ∀ s, s ∈ stale → payloads v !! s = None)
    (Hlive : payloads v !! x = Some p) (Hjob : UnmarshalJob p = Ok job)
    (Hfuel : (length stale < fuel)%nat) :
  wp (rq_Consume q Background fuel) c (λ r c', r = Some (Ok job) ∧
    represents q (keys (c_data c')) (QView l (x :: processing v) (delayed v) (payloads v) (queued v))).
Proof.
  pose proof (NewRedisQueue_apart name timeout) as Hap.
  apply (wp_consume_skips q Hap stale fuel 0 c (l ++ [x])); [done|done|..|done|lia|].
  { rewrite <-app_assoc. exact Hready. }
  intros n' c' Hc' Hf' Hv'. destruct (fuel - length stale)%nat as [|k] eqn:Hk; [lia|].
  cbn [consume_from]. apply wp_bind, (wp_BRPopLPush q Hap); [done| | |].
  - intros e c2 _ _ _ _ [[_ Hi]|[_ Hi]]; by destruct Hi.
  - intros c2 _ _ _ Hpop. exfalso. rewrite Hv' in Hpop. unfold q_pop in Hpop. simpl in Hpop.
    by rewrite reverse_app in Hpop.
  - intros y c2 Hc2 _ Hf2 (l' & Hl & Hv2)%q_pop_Some. rewrite Hv' in Hl, Hv2. simpl in Hl.
    apply app_inj_tail in Hl as [<- <-].
    apply wp_bind, (wp_HGet q); [done| |intros fs Hne; by destruct Hne; auto].
    intros fs _. replace (payloads (qabs (c_data c2))) with (payloads v) by (by rewrite Hv2).
    rewrite Hlive. apply wp_ret. rewrite Hjob. split; [done|].
    cbn [c_data]. exact (eq_ind _ (represents q (keys (c_data c2))) Hc2 _ Hv2).
Qed.

(** ** Properties *)

(** C4: over any Redis with the documented commands, [RedisQueue] keeps the
    contract of the [Queue] interface: whatever calls are lost on the way, every
    method performs a transition the contract allows, and on a reliable connection
    it succeeds. *)
Theorem RedisQueue_implements_Queue R `(HR : RedisLaws R) name timeout :
  @QueueLaws R (RedisQueue_ops (NewRedisQueue name timeout)).
Proof. apply _. Qed.

(** C19: on a reliable connection [Consume] skips the entries whose payload is gone,
    however many, removing them for good, and returns the oldest job that has one;
    it is left as the newest entry of the processing list. *)
Theorem Consume_returns_oldest_live R `(HR : RedisLaws R) name timeout
    (q := NewRedisQueue name timeout) (c : conn R) l x stale p job fuel
    (v := rq_view q (keys (c_data c)))
    (Hinv : represents q (keys (c_data c)) v) (Hfaults : c_faults c = [])
    (Hready : ready v = l ++ x :: stale)
    (Hstale : ∀ s, s ∈ stale → payloads v !! s = None)
    (Hlive : payloads v !! x = Some p) (Hjob : UnmarshalJob p = Ok job)
    (Hfuel : (length stale < fuel)%nat) :
  wp (rq_Consume q Background fuel) c (λ r c', r = Some (Ok job) ∧
    represents q (keys (c_data c')) (QView l (x :: processing v) (delayed v) (payloads v) (queued v))).
Proof. by eapply consume_live. Qed.

(** Whatever fails, [Consume] ends once its context is done: after at most as
    many iterations as there are entries to skip, plus one. *)
Theorem Consume_ends R `(HR : RedisLaws R) name timeout
    (q := NewRedisQueue name timeout) ctx (c : conn R) N fuel
    (v := rq_view q (keys (c_data c)))
    (Hinv : represents q (keys (c_data c)) v)
    (Hdone : ∀ n, (N ≤ n)%nat → done ctx n = true)
    (Hfuel : (N + length (ready v) < fuel)%nat) :
  (rq_Consume q ctx fuel c).1 ≠ None.
Proof.
  apply (consume_from_ends q (NewRedisQueue_apart name timeout) ctx N fuel Hdone 0 c Hinv).
  change (qabs (c_data c)) with v. lia.
Qed.

(** C38: an [Enqueue] that fails between its two calls leaves the ID marked; the
    next [Enqueue] of that job reports success, yet the job is in none of the three
    places, and [Consume] finds nothing for as long as it waits. *)
Theorem failed_Enqueue_loses_the_job R `(HR : RedisLaws R) name timeout
    (q := NewRedisQueue name timeout) (r : R) job now
    (Hempty : represents q (keys r) q_empty) :
  let '(e1, c1) := rq_Enqueue q job (Conn r [FOk; FLost] now) in
  let '(e2, c2) := rq_Enqueue q job c1 in
  e1 = Err ErrIO ∧ e2 = Ok tt ∧
  (let v := rq_view q (keys (c_data c2)) in
   Itoa (j_ID job) ∈ queued v ∧ ready v = [] ∧ processing v = [] ∧ delayed v = ∅ ∧
   payloads v = {[Itoa (j_ID job) := MarshalJob job]}) ∧
  ∀ n, rq_Consume q Background n c2 = (None, c2).
Proof.
  pose proof (NewRedisQueue_apart name timeout) as Hap.
  pose proof (rep_queued _ _ _ Hempty) as Hq.
  destruct (sadd_reply _ (Itoa (j_ID job)) _ _ Hq) as [Hn1 Hk1].
  pose proof (rep_sadd q Hap _ _ (Itoa (j_ID job)) Hempty) as Hm1. rewrite <-Hk1 in Hm1.
  unfold rq_Enqueue, try_bind, mbind, M_bind, Exec, call, mret, M_ret. cbn [c_faults c_data c_now head tail].
  fold q in Hn1, Hm1 |- *.
  destruct (sadd (queuedSetKey q) (Itoa (j_ID job)) r) as [n1 r1] eqn:Hs1. cbn [fst snd] in *.
  pose proof (rep_queued _ _ _ Hm1) as Hq1.
  destruct (sadd_reply _ (Itoa (j_ID job)) _ _ Hq1) as [Hn2 Hk2].
  pose proof (rep_sadd q Hap _ _ (Itoa (j_ID job)) Hm1) as Hm2. rewrite <-Hk2 in Hm2.
  cbn [c_faults c_data c_now head tail].
  destruct (sadd (queuedSetKey q) (Itoa (j_ID job)) r1) as [n2 r2] eqn:Hs2. cbn [fst snd] in *.
  rewrite bool_decide_true in Hn2 by (simpl; set_solver). subst n2. cbn [c_faults c_data c_now head tail].
  rewrite (bool_decide_false (0 = 1)) by done.
  pose proof (rep_enter q Hap _ _ (Itoa (j_ID job)) (MarshalJob job) false Hm2) as Hm3.
  split_and!; try done; rewrite ?(represents_view _ _ _ Hm3); try done.
  - simpl. set_solver.
  - intros n. unfold rq_Consume. generalize 0%nat as m. induction n as [|n IH]; intros m; [done|].
    cbn [consume_from]. unfold mbind, M_bind, BRPopLPush, call. cbn [c_faults c_data c_now head tail].
    rewrite (rep_brpoplpush q Hap _ _ Hm3 :
      brpoplpush (readyKey q) (processingKey q) _ = (None, _)). apply IH.
Qed.

(** ** Witnesses *)

(** An empty server, and one whose ready list holds a live job behind a stale
    entry. *)
Definition empty_store : Store := Build_Store ∅.
Definition jobs_queue : RedisQueue := NewRedisQueue "jobs" 1000000000.
Definition stale_store : Store := Build_Store
  {["jobs:ready" := VList ["7"; "9"];
    "jobs:payloads" := VHash {["7" := MarshalJob example_job]};
    "jobs:queued" := VSet {["7"]}]}.

Lemma empty_represents : represents jobs_queue (keys empty_store) q_empty.
Proof. by split. Qed.
Lemma stale_represents : represents jobs_queue (keys stale_store)
  (rq_view jobs_queue (keys stale_store)).
Proof. split; vm_compute; reflexivity. Qed.

Lemma RedisQueue_implements_Queue_witness :
  @QueueLaws Store (RedisQueue_ops jobs_queue).
Proof. apply (RedisQueue_implements_Queue Store Store_RedisLaws). Defined.

Lemma Consume_returns_oldest_live_witness :
  (rq_Consume jobs_queue Background 2 (Conn stale_store [] 0)).1 = Some (Ok example_job).
Proof.
  apply (Consume_returns_oldest_live Store Store_RedisLaws "jobs" 1000000000 (Conn stale_store [] 0)
    [] "7" ["9"] (MarshalJob example_job) example_job 2).
  - apply stale_represents.
  - reflexivity.
  - vm_compute. reflexivity.
  - intros s ->%list_elem_of_singleton. vm_compute. reflexivity.
  - reflexivity.
  - apply (UnmarshalJob_MarshalJob example_job eq_refl).
  - auto.
Defined.

(** A context that is done from the third call on. *)
Definition shutting_down : Ctx.
Proof.
  refine {| interrupt := λ n, if Nat.ltb n 2 then None else Some false;
            done := λ n, negb (Nat.ltb n 2) |}.
  intros n Hn. by destruct (Nat.ltb n 2).
Defined.

Lemma Consume_ends_witness :
  (rq_Consume jobs_queue shutting_down 5 (Conn empty_store [FOk; FLate] 0)).1 ≠ None.
Proof.
  apply (Consume_ends Store Store_RedisLaws "jobs" 1000000000 shutting_down _ 2).
  - by split.
  - intros n Hn. simpl. by destruct (Nat.ltb_spec n 2) as [?|_]; [lia|].
  - apply Nat.ltb_lt. vm_compute. reflexivity.
Defined.

Lemma failed_Enqueue_loses_the_job_witness :
  represents jobs_queue (keys empty_store) q_empty ∧
  (let '(e1, c1) := rq_Enqueue jobs_queue example_job (Conn empty_store [FOk; FLost] 0) in
   e1 = Err ErrIO ∧ ∃ c2, rq_Enqueue jobs_queue example_job c1 = (Ok tt, c2) ∧
     rq_Consume jobs_queue Background 100 c2 = (None, c2)).
Proof.
  split; [apply empty_represents|].
  pose proof (failed_Enqueue_loses_the_job Store Store_RedisLaws "jobs" 1000000000 empty_store
    example_job 0 empty_represents) as Hlost.
  fold jobs_queue in Hlost. destruct (rq_Enqueue jobs_queue example_job (Conn _ _ _)) as [e1 c1].
  destruct (rq_Enqueue jobs_queue example_job c1) as [e2 c2] eqn:He2.
  destruct Hlost as (-> & -> & _ & Hc). split; [reflexivity|]. exists c2. split; [exact eq_refl|apply Hc].
Defined.
