(* ===== verification/Db.v ===== *)
(** * The database layer

    Models migrations/*.up.sql as a record of tables with their constraints, and
    internal/db (jobs.go, outbox.go, workflows.go, api_keys.go) with one definition
    per function: each SQL statement becomes the function on the tables it denotes
    and one call of the connection; a transaction works on the tables and either
    commits or puts them back.  Sequences are not put back. *)
From Stdlib Require Import Ascii.
From stdpp Require Import gmap strings list fin_maps fin_sets sorting.
From S2P Require Import Prelude Text.
Open Scope Z_scope.

(** ** Schema *)
Inductive job_status : Type := Pending | Running | Retrying | Completed | Failed | Cancelled.
Inductive run_status : Type := RunRunning | RunCompleted | RunFailed | RunCancelled.
#[export] Instance job_status_eq_dec : EqDecision job_status.
Proof. solve_decision. Defined.
#[export] Instance run_status_eq_dec : EqDecision run_status.
Proof. solve_decision. Defined.

Definition job_status_text (s : job_status) : string :=
  match s with
  | Pending => "pending" | Running => "running" | Retrying => "retrying"
  | Completed => "completed" | Failed => "failed" | Cancelled => "cancelled"
  end.
Definition run_status_text (s : run_status) : string :=
  match s with
  | RunRunning => "running" | RunCompleted => "completed"
  | RunFailed => "failed" | RunCancelled => "cancelled"
  end.

(** Rows, without their primary key; the columns created_at and updated_at of
    jobs and workflow_runs are never read. *)
Record job_rec : Type := JobRec {
  status : job_status;
  retry_count : Z;
  max_retries : Z;
  type : string;
  payload : string;
  output : option string;
  workflow_run_id : option Z;
  step_index : option Z;
}.
Record outbox_rec : Type := OutboxRec {
  ob_job_id : Z;
  processed : bool;
  processed_at : option Z;
  created_at : Z;
}.
Record run_rec : Type := RunRec {
  workflow_name : string;
  run_state : run_status;
  current_step : Z;
  total_steps : Z;
}.
Record key_rec : Type := KeyRec { key_name : string; key_hash : string }.

(** The tables and the next value of each BIGSERIAL. *)
Record db : Type := Db {
  jobs : gmap Z job_rec;
  outbox : gmap Z outbox_rec;
  runs : gmap Z run_rec;
  api_keys : gmap Z key_rec;
  next_job : Z;
  next_outbox : Z;
  next_run : Z;
  next_key : Z;
}.
Definition db_empty : db := Db ∅ ∅ ∅ ∅ 1 1 1 1.

Definition set_jobs (f : gmap Z job_rec → gmap Z job_rec) (d : db) : db :=
  Db (f (jobs d)) (outbox d) (runs d) (api_keys d) (next_job d) (next_outbox d) (next_run d) (next_key d).
Definition set_outbox (f : gmap Z outbox_rec → gmap Z outbox_rec) (d : db) : db :=
  Db (jobs d) (f (outbox d)) (runs d) (api_keys d) (next_job d) (next_outbox d) (next_run d) (next_key d).
Definition set_runs (f : gmap Z run_rec → gmap Z run_rec) (d : db) : db :=
  Db (jobs d) (outbox d) (f (runs d)) (api_keys d) (next_job d) (next_outbox d) (next_run d) (next_key d).

Definition set_status (s : job_status) (j : job_rec) : job_rec :=
  JobRec s (retry_count j) (max_retries j) (type j) (payload j) (output j) (workflow_run_id j) (step_index j).
Definition set_retry (n : Z) (j : job_rec) : job_rec :=
  JobRec (status j) n (max_retries j) (type j) (payload j) (output j) (workflow_run_id j) (step_index j).
Definition set_output (o : string) (j : job_rec) : job_rec :=
  JobRec (status j) (retry_count j) (max_retries j) (type j) (payload j) (Some o) (workflow_run_id j) (step_index j).
Definition set_run_state (s : run_status) (r : run_rec) : run_rec :=
  RunRec (workflow_name r) s (current_step r) (total_steps r).
Definition set_current_step (n : Z) (r : run_rec) : run_rec :=
  RunRec (workflow_name r) (run_state r) n (total_steps r).
Definition mark_processed (now : Z) (o : outbox_rec) : outbox_rec :=
  OutboxRec (ob_job_id o) true (Some now) (created_at o).

(** Column types: INT holds 32 bits, TEXT valid UTF-8 without NUL. *)
Fixpoint has_NUL (s : string) : bool :=
  match s with
  | EmptyString => false
  | String c s => bool_decide (c = zero) || has_NUL s
  end.
Definition text_ok (s : string) : bool := ValidString s && negb (has_NUL s).

(** UPDATE … WHERE p: [f] on the rows that satisfy [p]. *)
Definition update_where {A} (p : Z → A → bool) (f : A → A) (m : gmap Z A) : gmap Z A :=
  map_imap (λ k x, Some (if p k x then f x else x)) m.
Definition by_id {A} (id k : Z) (_ : A) : bool := bool_decide (k = id).
(** How many rows satisfy [p]. *)
Definition count_where {A} (p : Z → A → bool) (m : gmap Z A) : Z :=
  Z.of_nat (length (filter (λ kx, p kx.1 kx.2 = true) (map_to_list m))).

Definition id_desc {A} (p q : Z * A) : Prop := q.1 ≤ p.1.
#[export] Instance id_desc_dec {A} : RelDecision (@id_desc A).
Proof. intros p q. unfold id_desc. apply _. Defined.
(** SELECT … WHERE p ORDER BY id DESC *)
Definition select_desc {A} (p : Z → A → bool) (m : gmap Z A) : list (Z * A) :=
  merge_sort id_desc (filter (λ kx, p kx.1 kx.2 = true) (map_to_list m)).

(** ** Transactions *)

(** ROLLBACK restores the tables; the sequences keep their values. *)
Definition rollback (snapshot d : db) : db :=
  Db (jobs snapshot) (outbox snapshot) (runs snapshot) (api_keys snapshot)
     (next_job d) (next_outbox d) (next_run d) (next_key d).

Definition Begin : M (conn db) (result unit) := call (λ _ d, (Ok tt, d)).
Definition Rollback (snapshot : db) : M (conn db) unit := λ c,
  (tt, Conn (rollback snapshot (c_data c)) (c_faults c) (c_now c)).
(** A COMMIT that is lost rolls back; one whose reply is lost has committed. *)
Definition Commit (snapshot : db) : M (conn db) (result unit) := λ c,
  let rest := tail (c_faults c) in
  match head (c_faults c) with
  | Some FLost => (Err ErrIO, Conn (rollback snapshot (c_data c)) rest (c_now c))
  | Some FLate | Some (FCut _) => (Err ErrIO, Conn (c_data c) rest (c_now c))
  | _ => (Ok tt, Conn (c_data c) rest (c_now c))
  end.

(** [tx, err := pool.Begin(ctx); defer tx.Rollback(ctx); ...; tx.Commit(ctx)] *)
Definition in_tx {A} (body : M (conn db) (result A)) : M (conn db) (result A) := λ c,
  let snapshot := c_data c in
  try_bind Begin (λ _,
    r ← body;
    match r with
    | Ok a => try_bind (Commit snapshot) (λ _, mret (Ok a))
    | Err e => _ ← Rollback snapshot; mret (Err e)
    end) c.

(** ** jobs.go *)
Definition CompleteJob (jobID : Z) (out : string) : M (conn db) (result unit) :=
  call (λ _ d,
    if text_ok out
    then (Ok tt, set_jobs (update_where (by_id jobID) (λ j, set_output out (set_status Completed j))) d)
    else (Err ErrConstraint, d)).

Definition UpdateJobState (jobID : Z) (state : job_status) (retryCount : Z) :
    M (conn db) (result unit) :=
  call (λ _ d,
    if in_int32 retryCount && (bool_decide (0 ≤ retryCount) || bool_decide (jobs d !! jobID = None))
    then (Ok tt, set_jobs (update_where (by_id jobID) (λ j, set_retry retryCount (set_status state j))) d)
    else (Err ErrConstraint, d)).

Definition insert_outbox (now jobID : Z) (d : db) : db :=
  Db (jobs d) (<[next_outbox d := OutboxRec jobID false None now]> (outbox d)) (runs d) (api_keys d)
     (next_job d) (next_outbox d + 1) (next_run d) (next_key d).

(** A job with an unprocessed outbox entry. *)
Definition unprocessed_for (jobID : Z) (o : outbox_rec) : bool :=
  bool_decide (ob_job_id o = jobID) && negb (processed o).
Definition has_unprocessed (d : db) (jobID : Z) : bool :=
  bool_decide (0 < count_where (λ _, unprocessed_for jobID) (outbox d)).

Definition is_status (s : job_status) (_ : Z) (j : job_rec) : bool := bool_decide (status j = s).

Definition ResetRunningJobs : M (conn db) (result unit) :=
  call (λ now d,
    let reset := (map_to_list (filter (λ kj, status kj.2 = Running) (jobs d))).*1 in
    let missing := filter (λ id, has_unprocessed d id = false) reset in
    (Ok tt, foldl (λ d id, insert_outbox now id d)
              (set_jobs (update_where (is_status Running) (set_status Pending)) d) missing)).

Record JobRow : Type := {
  r_ID : Z;
  r_Status : job_status;
  r_RetryCount : Z;
  r_MaxRetries : Z;
  r_Type : string;
  r_Payload : string;
  r_Output : string;
  r_WorkflowRunID : option Z;
  r_StepIndex : option Z;
}.
Definition row_of (id : Z) (j : job_rec) : JobRow := {|
  r_ID := id; r_Status := status j; r_RetryCount := retry_count j;
  r_MaxRetries := max_retries j; r_Type := type j; r_Payload := payload j;
  r_Output := default EmptyString (output j);
  r_WorkflowRunID := workflow_run_id j; r_StepIndex := step_index j |}.

Definition GetJob (jobID : Z) : M (conn db) (result JobRow) :=
  call (λ _ d, (match jobs d !! jobID with
                | Some j => Ok (row_of jobID j) | None => Err ErrNoRows end, d)).

Definition completed_step (runID stepIndex : Z) (_ : Z) (j : job_rec) : bool :=
  bool_decide (workflow_run_id j = Some runID) && bool_decide (step_index j = Some stepIndex) &&
  bool_decide (status j = Completed).
Definition GetJobOutputByWorkflowStep (runID stepIndex : Z) : M (conn db) (result string) :=
  call (λ _ d, (match select_desc (completed_step runID stepIndex) (jobs d) with
                | (_, j) :: _ => Ok (default EmptyString (output j))
                | [] => Err ErrNoRows end, d)).

(** [status] is the text of the filter; the empty text selects every job. *)
Definition ListJobs (filter_status : string) : M (conn db) (result (list JobRow)) :=
  call_rows (λ _ d,
    if text_ok filter_status then
      Ok ((λ '(id, j), row_of id j) <$>
          select_desc (λ _ j, bool_decide (filter_status = EmptyString) ||
                              bool_decide (job_status_text (status j) = filter_status)) (jobs d))
    else Err ErrConstraint).

(** ** outbox.go *)
Record OutboxEntry : Type := {
  e_ID : Z;
  e_JobID : Z;
  e_Type : string;
  e_Payload : string;
  e_MaxRetries : Z;
}.

(** INSERT INTO jobs … RETURNING id.  A parameter its column cannot hold fails the
    statement before it takes a number from the sequence. *)
Definition take_job_id (d : db) : db :=
  Db (jobs d) (outbox d) (runs d) (api_keys d) (next_job d + 1) (next_outbox d) (next_run d) (next_key d).
Definition params_ok (j : job_rec) : bool :=
  in_int32 (max_retries j) && text_ok (type j) && text_ok (payload j).
Definition insert_job (j : job_rec) (d : db) : result Z * db :=
  if negb (params_ok j) then (Err ErrConstraint, d)
  else if bool_decide (max_retries j < 0) then (Err ErrConstraint, take_job_id d)
  else (Ok (next_job d), set_jobs <[next_job d := j]> (take_job_id d)).

(** INSERT INTO job_outbox; the job must exist. *)
Definition exec_insert_outbox (jobID : Z) : M (conn db) (result unit) :=
  call (λ now d,
    if bool_decide (is_Some (jobs d !! jobID)) then (Ok tt, insert_outbox now jobID d)
    else (Err ErrConstraint, d)).

Definition InsertJob (maxRetries : Z) (jobType payload : string) : M (conn db) (result Z) :=
  in_tx (
    try_bind (call (λ _, insert_job (JobRec Pending 0 maxRetries jobType payload None None None)))
      (λ jobID, try_bind (exec_insert_outbox jobID) (λ _, mret (Ok jobID)))).

(** ON CONFLICT (workflow_run_id, step_index) DO NOTHING: no row comes back. *)
Definition same_step (run step : Z) (_ : Z) (j : job_rec) : bool :=
  bool_decide (workflow_run_id j = Some run) && bool_decide (step_index j = Some step).
Definition insert_step (j : job_rec) (run step : Z) (d : db) : result Z * db :=
  if negb (params_ok j && in_int32 step) then (Err ErrConstraint, d)
  else if bool_decide (max_retries j < 0) then (Err ErrConstraint, take_job_id d)
  else if bool_decide (0 < count_where (same_step run step) (jobs d))
  then (Err ErrNoRows, take_job_id d)
  else if bool_decide (is_Some (runs d !! run)) then insert_job j d
  else (Err ErrConstraint, take_job_id d).

Definition InsertWorkflowStep (workflowRunID stepIndex maxRetries : Z) (payload : string) :
    M (conn db) (result Z) :=
  in_tx (
    r ← call (λ _, insert_step
                 (JobRec Pending 0 maxRetries "shell" payload None (Some workflowRunID) (Some stepIndex))
                 workflowRunID stepIndex);
    match r with
    | Err ErrNoRows => mret (Ok 0)
    | Err e => mret (Err e)
    | Ok jobID => try_bind (exec_insert_outbox jobID) (λ _, mret (Ok jobID))
    end).

(** ORDER BY o.created_at; entries of the same instant come in some order. *)
Definition created_le (p q : Z * outbox_rec) : Prop := created_at p.2 ≤ created_at q.2.
#[export] Instance created_le_dec : RelDecision created_le.
Proof. intros p q. unfold created_le. apply _. Defined.

(** The join with jobs; [locked] are the entries another transaction has locked. *)
Definition unprocessed_entries (locked : gset Z) (d : db) : list OutboxEntry :=
  omap (λ '(id, o), (λ j, Build_OutboxEntry id (ob_job_id o) (type j) (payload j) (max_retries j))
                      <$> jobs d !! ob_job_id o)
    (merge_sort created_le
       (filter (λ ko, processed ko.2 = false ∧ ko.1 ∉ locked) (map_to_list (outbox d)))).

(** The transaction it returns is the state after [Begin]; the caller ends it. *)
Definition GetUnprocessedOutbox (locked : gset Z) : M (conn db) (result (list OutboxEntry)) :=
  λ c, let snapshot := c_data c in
  try_bind Begin (λ _,
    r ← call_rows (λ _ d, Ok (unprocessed_entries locked d));
    match r with
    | Ok entries => mret (Ok entries)
    | Err e => _ ← Rollback snapshot; mret (Err e)
    end) c.

Definition MarkOutboxProcessed (outboxID : Z) : M (conn db) (result unit) :=
  call (λ now d, (Ok tt, set_outbox (update_where (by_id outboxID) (mark_processed now)) d)).

Definition CancelOutboxEntry (jobID : Z) : M (conn db) (result unit) :=
  call (λ now d,
    (Ok tt, set_outbox (update_where (λ _, unprocessed_for jobID) (mark_processed now)) d)).

Definition expired (limit : Z) (o : outbox_rec) : bool :=
  processed o && match processed_at o with Some t => bool_decide (t < limit) | None => false end.
Definition CleanupProcessedOutbox (olderThan : Z) : M (conn db) (result Z) :=
  call (λ now d,
    (Ok (count_where (λ _, expired (now - olderThan)) (outbox d)),
     set_outbox (filter (λ ko, expired (now - olderThan) ko.2 = false)) d)).

(** ** workflows.go *)
Record WorkflowRunRow : Type := {
  w_ID : Z;
  w_WorkflowName : string;
  w_Status : run_status;
  w_CurrentStep : Z;
  w_TotalSteps : Z;
}.
Definition run_row (id : Z) (r : run_rec) : WorkflowRunRow := {|
  w_ID := id; w_WorkflowName := workflow_name r; w_Status := run_state r;
  w_CurrentStep := current_step r; w_TotalSteps := total_steps r |}.

Definition CreateWorkflowRun (name : string) (totalSteps : Z) : M (conn db) (result Z) :=
  call (λ _ d,
    let id := next_run d in
    if text_ok name && in_int32 totalSteps then
      (Ok id, Db (jobs d) (outbox d) (<[id := RunRec name RunRunning 0 totalSteps]> (runs d)) (api_keys d)
                 (next_job d) (next_outbox d) (id + 1) (next_key d))
    else (Err ErrConstraint, d)).

Definition GetWorkflowRun (id : Z) : M (conn db) (result WorkflowRunRow) :=
  call (λ _ d, (match runs d !! id with
                | Some r => Ok (run_row id r) | None => Err ErrNoRows end, d)).

Definition AdvanceWorkflowRun (id : Z) : M (conn db) (result (Z * Z * string)) :=
  call (λ _ d,
    match runs d !! id with
    | Some r =>
        if bool_decide (run_state r = RunRunning) then
          let n := current_step r + 1 in
          if in_int32 n then
            (Ok (n, total_steps r, workflow_name r), set_runs (update_where (by_id id) (set_current_step n)) d)
          else (Err ErrConstraint, d)
        else (Err ErrNoRows, d)
    | None => (Err ErrNoRows, d)
    end).

(** The jobs a cancelled run takes with it. *)
Definition cancellable (runID : Z) (_ : Z) (j : job_rec) : bool :=
  bool_decide (workflow_run_id j = Some runID) &&
  (bool_decide (status j = Pending) || bool_decide (status j = Retrying)).
(** job_id IN (SELECT id FROM cancelled) *)
Definition in_cancelled (runID : Z) (d : db) (jobID : Z) : bool :=
  match jobs d !! jobID with Some j => cancellable runID jobID j | None => false end.

Definition CancelWorkflowRunAtomic (runID : Z) : M (conn db) (result unit) :=
  in_tx (
    try_bind (call (λ _ d,
      let hit := match runs d !! runID with
                 | Some r => bool_decide (run_state r = RunRunning) | None => false end in
      (Ok (if hit then 1 else 0),
       if hit then set_runs (update_where (by_id runID) (set_run_state RunCancelled)) d else d)))
    (λ affected,
      if bool_decide (affected = 0) then mret (Err ErrNoRows) else
      call (λ now d,
        (Ok tt,
         set_outbox (update_where (λ _ o, in_cancelled runID d (ob_job_id o) && negb (processed o))
                                  (mark_processed now))
           (set_jobs (update_where (cancellable runID) (set_status Cancelled)) d))))).

Definition HasActiveWorkflowRun (name : string) : M (conn db) (result bool) :=
  call (λ _ d,
    (Ok (bool_decide (0 < count_where (λ _ r, bool_decide (workflow_name r = name) &&
                                              bool_decide (run_state r = RunRunning)) (runs d))), d)).

Definition ListWorkflowRuns : M (conn db) (result (list WorkflowRunRow)) :=
  call (λ _ d, (Ok ((λ '(id, r), run_row id r) <$> select_desc (λ _ _, true) (runs d)), d)).

Definition CompleteWorkflowRun (id : Z) : M (conn db) (result unit) :=
  call (λ _ d, (Ok tt, set_runs (update_where (by_id id) (set_run_state RunCompleted)) d)).
Definition FailWorkflowRun (id : Z) : M (conn db) (result unit) :=
  call (λ _ d, (Ok tt, set_runs (update_where (by_id id) (set_run_state RunFailed)) d)).

(** The step indices of the jobs of a run that satisfy [p]; the Go map only ever
    holds [true]. *)
Definition step_indices (p : job_rec → bool) (runID : Z) (d : db) : gset Z :=
  list_to_set (omap (λ '(_, j), if bool_decide (workflow_run_id j = Some runID) && p j
                                then step_index j else None) (map_to_list (jobs d))).
Definition GetCompletedStepIndices (runID : Z) : M (conn db) (result (gset Z)) :=
  call (λ _ d, (Ok (step_indices (λ j, bool_decide (status j = Completed)) runID d), d)).
Definition GetSubmittedStepIndices (runID : Z) : M (conn db) (result (gset Z)) :=
  call (λ _ d, (Ok (step_indices (λ _, true) runID d), d)).

(** ** api_keys.go *)
Definition InsertAPIKey (name keyHash : string) : M (conn db) (result unit) :=
  call (λ _ d,
    let id := next_key d in
    let keys m := Db (jobs d) (outbox d) (runs d) m (next_job d) (next_outbox d) (next_run d) (id + 1) in
    if text_ok name && text_ok keyHash then
      if bool_decide (0 < count_where (λ _ k, bool_decide (key_hash k = keyHash)) (api_keys d))
      then (Err ErrConstraint, keys (api_keys d))
      else (Ok tt, keys (<[id := KeyRec name keyHash]> (api_keys d)))
    else (Err ErrConstraint, d)).
Definition ValidateAPIKey (keyHash : string) : M (conn db) (result bool) :=
  call (λ _ d,
    if text_ok keyHash then
      (Ok (bool_decide (0 < count_where (λ _ k, bool_decide (key_hash k = keyHash)) (api_keys d))), d)
    else (Err ErrConstraint, d)).

(** ** Reasoning about the tables *)
Lemma lookup_update_where {A} p f (m : gmap Z A) k :
  update_where p f m !! k = (λ x, if p k x then f x else x) <$> m !! k.
Proof. unfold update_where. rewrite map_lookup_imap. by destruct (m !! k). Qed.

Lemma update_where_is_Some {A} p f (m : gmap Z A) k :
  is_Some (update_where p f m !! k) ↔ is_Some (m !! k).
Proof. rewrite lookup_update_where. apply fmap_is_Some. Qed.

Lemma count_where_pos {A} p (m : gmap Z A) :
  0 < count_where p m ↔ ∃ k x, m !! k = Some x ∧ p k x = true.
Proof.
  unfold count_where. split.
  - intros Hpos. destruct (filter _ (map_to_list m)) as [|[k x] l] eqn:Hl; [simpl in Hpos; lia|].
    assert ((k, x) ∈ filter (λ kx, p kx.1 kx.2 = true) (map_to_list m)) as [Hp Hx]%list_elem_of_filter
      by (rewrite Hl; set_solver). apply elem_of_map_to_list in Hx. eauto.
  - intros (k & x & Hx & Hp).
    assert ((k, x) ∈ filter (λ kx, p kx.1 kx.2 = true) (map_to_list m)) as Hin
      by (apply list_elem_of_filter; by rewrite elem_of_map_to_list).
    destruct (filter _ (map_to_list m)); [by apply not_elem_of_nil in Hin|]. simpl. lia.
Qed.

Lemma elem_of_select_desc {A} p (m : gmap Z A) k x :
  (k, x) ∈ select_desc p m ↔ m !! k = Some x ∧ p k x = true.
Proof.
  unfold select_desc. rewrite merge_sort_Permutation, list_elem_of_filter, elem_of_map_to_list.
  simpl. tauto.
Qed.

Lemma elem_of_step_indices p runID d i : i ∈ step_indices p runID d ↔
  ∃ id j, jobs d !! id = Some j ∧ workflow_run_id j = Some runID ∧ p j = true ∧ step_index j = Some i.
Proof.
  unfold step_indices. rewrite elem_of_list_to_set, list_elem_of_omap. split.
  - intros ([id j] & Hin%elem_of_map_to_list & Hj). exists id, j.
    destruct (bool_decide _ && p j) eqn:Hb; [|done].
    apply andb_true_iff in Hb as [Hb%bool_decide_eq_true ?]. done.
  - intros (id & j & Hj & Hr & Hp & Hi). exists (id, j).
    rewrite elem_of_map_to_list, Hr, Hp, bool_decide_true; done.
Qed.

(** *** Operations that keep a property of the tables *)
Definition keeps {A} (P : db → Prop) (m : M (conn db) A) : Prop :=
  ∀ c, P (c_data c) → wp m c (λ _ c', P (c_data c')).

Section keeps.
Context (P : db → Prop).

Lemma keeps_call {A} (f : Z → db → result A * db) :
  (∀ now d, P d → P (f now d).2) → keeps P (call f).
Proof. intros Hf c Hc. apply wp_call; simpl; auto. Qed.
Lemma keeps_read {A} (g : Z → db → result A) : keeps P (call (λ now d, (g now d, d))).
Proof. intros c Hc. by apply wp_read. Qed.
Lemma keeps_rows {A} (g : Z → db → result (list A)) : keeps P (call_rows g).
Proof. intros c Hc. by apply wp_call_rows. Qed.
Lemma keeps_ret {A} (a : A) : keeps P (mret a).
Proof. intros c Hc. by apply wp_ret. Qed.
Lemma keeps_bind {A B} (m : M (conn db) A) (f : A → M (conn db) B) :
  keeps P m → (∀ a, keeps P (f a)) → keeps P (m ≫= f).
Proof. intros Hm Hf c Hc. apply wp_bind. eapply wp_mono; [by apply Hm|]. intros a c'. apply Hf. Qed.
Lemma keeps_try_bind {A B} (m : M (conn db) (result A)) (f : A → M (conn db) (result B)) :
  keeps P m → (∀ a, keeps P (f a)) → keeps P (try_bind m f).
Proof. intros Hm Hf. apply keeps_bind; [done|]. intros [a|e]; [apply Hf|apply keeps_ret]. Qed.
End keeps.
Create HintDb db.
#[export] Hint Resolve keeps_read keeps_rows keeps_ret keeps_bind keeps_try_bind : db.

(** How a transaction ends: the body's tables, or those from before it. *)
Lemma wp_in_tx {A} (body : M (conn db) (result A)) c (Q : result A → conn db → Prop) :
  let s := c_data c in
  (∀ fs, c_faults c ≠ [] → Q (Err ErrIO) (Conn s fs (c_now c))) →
  (∀ fs, (c_faults c = [] → fs = []) → wp body (Conn s fs (c_now c)) (λ r c1,
    match r with
    | Ok a => (∀ fs, (c_faults c1 = [] → fs = []) → Q (Ok a) (Conn (c_data c1) fs (c_now c1))) ∧
              (∀ fs, c_faults c1 ≠ [] → Q (Err ErrIO) (Conn (c_data c1) fs (c_now c1))) ∧
              (∀ fs, c_faults c1 ≠ [] → Q (Err ErrIO) (Conn (rollback s (c_data c1)) fs (c_now c1)))
    | Err e => Q (Err e) (Conn (rollback s (c_data c1)) (c_faults c1) (c_now c1))
    end)) →
  wp (in_tx body) c Q.
Proof.
  intros s Hbegin Hbody. unfold in_tx.
  apply wp_try_bind, (wp_read (λ _ _, Ok tt)); [|done]. intros fs Hfs.
  apply wp_bind. eapply wp_mono; [by apply Hbody|]. intros [a|e] c1 H1.
  - destruct H1 as (H1 & H2 & H3). apply wp_try_bind. unfold wp, Commit.
    destruct (c_faults c1) as [|[] fs'] eqn:Hf; simpl; rewrite ?Hf in *;
      [apply H1|apply H1|apply H3|apply H2|apply H2]; done.
  - done.
Qed.

(** ** The schema's constraints

    What Postgres keeps of its own accord (keys, CHECKs, UNIQUE, the widths of the
    columns): what the theorems assume of the tables they start from. *)
Record job_ok (d : db) (id : Z) (j : job_rec) : Prop := {
  job_id_ok : 0 < id < next_job d;
  job_retry_ok : 0 ≤ retry_count j < 2 ^ 31;
  job_max_ok : 0 ≤ max_retries j < 2 ^ 31;
  job_type_ok : text_ok (type j) = true;
  job_payload_ok : text_ok (payload j) = true;
  job_run_ok : ∀ r, workflow_run_id j = Some r → is_Some (runs d !! r);
}.

(** CHECK, REFERENCES, UNIQUE and the sequences. *)
Record db_ok (d : db) : Prop := {
  ok_jobs : map_Forall (job_ok d) (jobs d);
  ok_steps : ∀ i i' j j' r s, jobs d !! i = Some j → jobs d !! i' = Some j' →
    workflow_run_id j = Some r → workflow_run_id j' = Some r →
    step_index j = Some s → step_index j' = Some s → i = i';
  ok_outbox : map_Forall (λ id o, 0 < id < next_outbox d ∧ is_Some (jobs d !! ob_job_id o)) (outbox d);
  ok_runs : map_Forall (λ id _, 0 < id < next_run d) (runs d);
  ok_keys : ∀ i i' k k', api_keys d !! i = Some k → api_keys d !! i' = Some k' →
    key_hash k = key_hash k' → i = i';
  ok_next : 0 < next_job d ∧ 0 < next_outbox d ∧ 0 < next_run d;
}.

(** Sequences only move forward. *)
Definition grown (s d : db) : Prop :=
  next_job s ≤ next_job d ∧ next_outbox s ≤ next_outbox d ∧ next_run s ≤ next_run d.

Lemma in_int32_spec z : in_int32 z = true ↔ - 2 ^ 31 ≤ z < 2 ^ 31.
Proof. unfold in_int32. by rewrite bool_decide_eq_true. Qed.

Lemma db_ok_empty : db_ok db_empty.
Proof. split; try done; simpl; lia. Qed.

Lemma db_ok_rollback s d : db_ok s → grown s d → db_ok (rollback s d).
Proof.
  intros [Hj Hs Ho Hr Hk Hn] (? & ? & ?). split; simpl; try done; [..|lia].
  - intros id j Hid. destruct (Hj id j Hid). split; simpl; try done; lia.
  - intros id o Hid. destruct (Ho id o Hid). split; [lia|done].
  - intros id r Hid. specialize (Hr id r Hid). simpl in Hr. lia.
Qed.

(** An UPDATE of jobs that keeps the constrained columns in range. *)
Definition job_update (f : job_rec → job_rec) : Prop := ∀ j,
  (0 ≤ retry_count j < 2 ^ 31 → 0 ≤ retry_count (f j) < 2 ^ 31) ∧
  max_retries (f j) = max_retries j ∧ type (f j) = type j ∧ payload (f j) = payload j ∧
  workflow_run_id (f j) = workflow_run_id j ∧ step_index (f j) = step_index j.

Lemma db_ok_update_jobs p f d : job_update f → db_ok d → db_ok (set_jobs (update_where p f) d).
Proof.
  intros Hf [Hj Hs Ho Hr Hk Hn].
  assert (∀ id j, update_where p f (jobs d) !! id = Some j → ∃ j0, jobs d !! id = Some j0 ∧
    (0 ≤ retry_count j0 < 2 ^ 31 → 0 ≤ retry_count j < 2 ^ 31) ∧
    max_retries j = max_retries j0 ∧ type j = type j0 ∧ payload j = payload j0 ∧
    workflow_run_id j = workflow_run_id j0 ∧ step_index j = step_index j0) as Hold.
  { intros id j. rewrite lookup_update_where, fmap_Some. intros (j0 & Hj0 & ->). exists j0.
    split; [done|]. by destruct (p id j0). }
  split; simpl; try done.
  - intros id j (j0 & Hj0 & Hc & Hm & Ht & Hp & Hw & _)%Hold. destruct (Hj id j0 Hj0).
    split; rewrite ?Hm, ?Ht, ?Hp, ?Hw; auto.
  - intros i i' j j' r s (j0 & Hj0 & _ & _ & _ & _ & Hw & Hi)%Hold
      (j1 & Hj1 & _ & _ & _ & _ & Hw1 & Hi1)%Hold. rewrite Hw, Hw1, Hi, Hi1. by apply Hs.
  - intros id o Hid. rewrite update_where_is_Some. by apply (Ho id).
Qed.

Lemma db_ok_update_outbox p f d : (∀ o, ob_job_id (f o) = ob_job_id o) → db_ok d →
  db_ok (set_outbox (update_where p f) d).
Proof.
  intros Hf [Hj Hs Ho Hr Hk Hn]. split; simpl; try done.
  - intros id j Hid. by destruct (Hj id j Hid).
  - intros id o. rewrite lookup_update_where, fmap_Some. intros (o0 & Hid & ->).
    specialize (Ho id o0 Hid). by destruct (p id o0); rewrite ?Hf.
Qed.

Lemma db_ok_filter_outbox (p : Z * outbox_rec → Prop) `{∀ x, Decision (p x)} d :
  db_ok d → db_ok (set_outbox (filter p) d).
Proof.
  intros [Hj Hs Ho Hr Hk Hn]. split; simpl; try done.
  - intros id j Hid. by destruct (Hj id j Hid).
  - intros id o [Hid _]%map_lookup_filter_Some. by apply Ho.
Qed.

Lemma db_ok_update_runs p f d : db_ok d → db_ok (set_runs (update_where p f) d).
Proof.
  intros [Hj Hs Ho Hr Hk Hn]. split; simpl; try done.
  - intros id j Hid. destruct (Hj id j Hid). split; try done. simpl. intros r.
    rewrite update_where_is_Some. auto.
  - intros id r. rewrite lookup_update_where, fmap_Some. intros (r0 & Hid & _). by apply (Hr id r0).
Qed.

Lemma db_ok_insert_outbox now jobID d : is_Some (jobs d !! jobID) → db_ok d →
  db_ok (insert_outbox now jobID d).
Proof.
  intros Hjob [Hj Hs Ho Hr Hk Hn]. split; simpl; try done; [| |lia].
  - intros id j Hid. by destruct (Hj id j Hid).
  - apply map_Forall_insert_2; simpl; [split; [lia|done]|].
    intros id o Hid. destruct (Ho id o Hid). split; [lia|done].
Qed.

Lemma db_ok_take_job_id d : db_ok d → db_ok (take_job_id d).
Proof.
  intros [Hj Hs Ho Hr Hk Hn]. split; simpl; try done; [|lia].
  intros id j Hid. destruct (Hj id j Hid). split; simpl; try done. lia.
Qed.

Lemma lookup_next_job d : db_ok d → jobs d !! next_job d = None.
Proof.
  intros Hd. apply eq_None_not_Some. intros [j Hj]. pose proof (job_id_ok _ _ _ (ok_jobs d Hd _ _ Hj)). lia.
Qed.

Lemma insert_job_spec j d : db_ok d → retry_count j = 0 →
  (∀ r, workflow_run_id j = Some r → is_Some (runs d !! r)) →
  (∀ r s, workflow_run_id j = Some r → step_index j = Some s →
     ∀ id j', jobs d !! id = Some j' → workflow_run_id j' = Some r → step_index j' ≠ Some s) →
  db_ok (insert_job j d).2.
Proof.
  intros Hd H0 Hrun Hstep. pose proof (lookup_next_job d Hd) as Hfree. unfold insert_job.
  destruct (params_ok j) eqn:Hp; [|done]. cbn [negb].
  case_bool_decide as Hm; [by apply db_ok_take_job_id|].
  unfold params_ok in Hp. apply andb_prop in Hp as [[Hm32 Ht]%andb_prop Hpl].
  apply in_int32_spec in Hm32.
  destruct Hd as [Hj Hs Ho Hr Hk Hn]. split; simpl; try done; [..|lia].
  - apply map_Forall_insert_2.
    + split; simpl; try done; rewrite ?H0; lia.
    + intros id j' Hid. destruct (Hj id j' Hid). split; simpl; try done. lia.
  - intros i i' j1 j2 r s H1 H2 Hr1 Hr2 Hs1 Hs2.
    apply lookup_insert_Some in H1 as [[<- <-]|[? H1]], H2 as [[<- <-]|[? H2]]; try done.
    + by destruct (Hstep r s Hr1 Hs1 i' j2 H2 Hr2).
    + by destruct (Hstep r s Hr2 Hs2 i j1 H1 Hr1).
    + by eapply Hs.
  - intros id o Hid. destruct (Ho id o Hid) as [? ?]. split; [done|].
    rewrite lookup_insert_is_Some. destruct (decide (next_job d = ob_job_id o)); auto.
Qed.

(** *** Every function of the layer keeps them *)
Lemma keeps_in_tx {A} (body : M (conn db) (result A)) :
  (∀ s, keeps (λ d, db_ok d ∧ grown s d) body) → keeps db_ok (in_tx body).
Proof.
  intros Hb c Hc. apply wp_in_tx; [done|]. intros fs _.
  eapply wp_mono; [apply (Hb (c_data c)); simpl; split; [done|unfold grown; lia]|].
  intros [a|e] c1 [H1 Hg]; simpl.
  - split_and!; intros; [done|done|by apply db_ok_rollback].
  - by apply db_ok_rollback.
Qed.

(** Calls that keep the constraints and do not turn a sequence back. *)
Lemma keeps_ok_grown {A} s (f : Z → db → result A * db) :
  (∀ now d, db_ok d → db_ok (f now d).2) → (∀ now d, grown d (f now d).2) →
  keeps (λ d, db_ok d ∧ grown s d) (call f).
Proof.
  intros H1 H2. apply keeps_call. intros now d [Hd Hg]. split; [by apply H1|].
  specialize (H2 now d). unfold grown in *. lia.
Qed.

Lemma count_where_zero {A} p (m : gmap Z A) k x :
  ¬ 0 < count_where p m → m !! k = Some x → p k x = false.
Proof.
  intros Hc Hk. destruct (p k x) eqn:Hp; [|done]. destruct Hc. apply count_where_pos. eauto.
Qed.

Lemma db_ok_insert_step j run step d : db_ok d → retry_count j = 0 →
  workflow_run_id j = Some run → step_index j = Some step → db_ok (insert_step j run step d).2.
Proof.
  intros Hd H0 Hr Hs. unfold insert_step. destruct (negb _); [done|].
  case_bool_decide; [by apply db_ok_take_job_id|].
  case_bool_decide as Hc; [by apply db_ok_take_job_id|].
  case_bool_decide as Hrun; [|by apply db_ok_take_job_id].
  apply insert_job_spec; [done|done|..]; rewrite Hr; [by intros ? [= <-]|].
  intros r s [= <-] Hs' id j' Hid Hr' Hs''. rewrite Hs in Hs'. simplify_eq.
  pose proof (count_where_zero _ _ id j' Hc Hid) as Hf. unfold same_step in Hf.
  by rewrite Hr', Hs'', !bool_decide_true in Hf.
Qed.

Lemma grown_refl d : grown d d.
Proof. unfold grown. lia. Qed.
Lemma grown_insert_job j d : grown d (insert_job j d).2.
Proof.
  unfold insert_job, grown. destruct (negb _); simpl; [lia|]. case_bool_decide; simpl; lia.
Qed.
Lemma grown_insert_step j r s d : grown d (insert_step j r s d).2.
Proof.
  unfold insert_step. destruct (negb _); [apply grown_refl|].
  repeat (case_bool_decide; [unfold grown; simpl; try lia|]); try apply grown_insert_job;
    unfold grown; simpl; lia.
Qed.

Lemma keeps_exec_insert_outbox s jobID :
  keeps (λ d, db_ok d ∧ grown s d) (exec_insert_outbox jobID).
Proof.
  apply keeps_ok_grown; intros now d; case_bool_decide; simpl; try done.
  - by apply db_ok_insert_outbox.
  - unfold grown. simpl. lia.
Qed.

Lemma InsertJob_ok n t p : keeps db_ok (InsertJob n t p).
Proof.
  apply keeps_in_tx. intros s. apply keeps_try_bind.
  - apply keeps_ok_grown; intros _ d; [|apply grown_insert_job].
    intros Hd. by apply insert_job_spec.
  - intros jobID. apply keeps_try_bind; [apply keeps_exec_insert_outbox|auto with db].
Qed.

Lemma InsertWorkflowStep_ok r s n p : keeps db_ok (InsertWorkflowStep r s n p).
Proof.
  apply keeps_in_tx. intros d0. apply keeps_bind.
  - apply keeps_ok_grown; intros _ d; [|apply grown_insert_step].
    intros Hd. by apply db_ok_insert_step.
  - intros [jobID|[]]; auto with db.
    apply keeps_try_bind; [apply keeps_exec_insert_outbox|auto with db].
Qed.

Lemma UpdateJobState_ok id st n : keeps db_ok (UpdateJobState id st n).
Proof.
  apply keeps_call. intros _ d Hd. destruct (_ && _) eqn:Hn; [|done]. cbn [snd].
  apply andb_true_iff in Hn as [H32%in_int32_spec Hpos].
  apply orb_true_iff in Hpos as [Hpos%bool_decide_eq_true|Hno%bool_decide_eq_true].
  - apply db_ok_update_jobs; [|done]. intros j. simpl. split_and!; try done. lia.
  - replace (set_jobs _ d) with d; [done|]. destruct d. unfold set_jobs. f_equal. simpl in *.
    apply map_eq. intros k. rewrite lookup_update_where. unfold by_id.
    destruct (decide (k = id)) as [->|Hne]; [by rewrite Hno|].
    rewrite bool_decide_false by done. by destruct (_ !! k).
Qed.

Lemma jobs_insert_outboxes now ids d :
  jobs (foldl (λ d id, insert_outbox now id d) d ids) = jobs d.
Proof. revert d. induction ids as [|id ids IH]; intros d; [done|]. simpl. by rewrite IH. Qed.

Lemma ResetRunningJobs_ok : keeps db_ok ResetRunningJobs.
Proof.
  apply keeps_call. intros now d Hd. cbn [snd].
  set (ids := filter _ _).
  assert (∀ id, id ∈ ids → is_Some (jobs d !! id)) as Hids.
  { intros id [_ Hin]%list_elem_of_filter. apply list_elem_of_fmap in Hin as ([id' j] & -> & Hin).
    apply elem_of_map_to_list, map_lookup_filter_Some in Hin as [Hin _]. eauto. }
  set (d1 := set_jobs _ d).
  assert (db_ok d1) as Hd1 by (by apply db_ok_update_jobs).
  assert (∀ id, id ∈ ids → is_Some (jobs d1 !! id)) as Hids1.
  { intros id Hid. apply update_where_is_Some, Hids, Hid. }
  clearbody ids d1. clear Hids Hd d. revert d1 Hd1 Hids1.
  induction ids as [|id ids IH]; intros d1 Hd1 Hids1; [done|]. simpl. apply IH.
  - apply db_ok_insert_outbox; [apply Hids1; set_solver|done].
  - intros id' Hid'. simpl. apply Hids1. set_solver.
Qed.

Lemma CancelWorkflowRunAtomic_ok id : keeps db_ok (CancelWorkflowRunAtomic id).
Proof.
  apply keeps_in_tx. intros s. apply keeps_try_bind.
  - apply keeps_ok_grown; intros _ d; destruct (match runs d !! id with Some _ => _ | None => _ end);
      simpl; try done; [by apply db_ok_update_runs|unfold grown; simpl; lia..].
  - intros n. case_bool_decide; [auto with db|].
    apply keeps_ok_grown; intros now d; simpl; [|unfold grown; simpl; lia].
    intros Hd. apply db_ok_update_outbox; [done|]. by apply db_ok_update_jobs.
Qed.

(** ** What the transactions do *)

(** The tables, without the sequences. *)
Definition same_tables (d d' : db) : Prop :=
  jobs d' = jobs d ∧ outbox d' = outbox d ∧ runs d' = runs d ∧ api_keys d' = api_keys d.

(** A job and its unprocessed outbox entry, both new. *)
Definition job_inserted (now : Z) (j : job_rec) (d : db) (id : Z) (d' : db) : Prop :=
  jobs d !! id = None ∧ jobs d' = <[id := j]> (jobs d) ∧
  runs d' = runs d ∧ api_keys d' = api_keys d ∧
  ∃ oid, outbox d !! oid = None ∧
         outbox d' = <[oid := OutboxRec id false None now]> (outbox d).

Lemma same_tables_rollback s d : same_tables s (rollback s d).
Proof. done. Qed.
Lemma same_tables_refl d : same_tables d d.
Proof. done. Qed.
#[export] Hint Resolve same_tables_rollback same_tables_refl : db.

Lemma lookup_next_outbox d : db_ok d → outbox d !! next_outbox d = None.
Proof.
  intros Hd. apply eq_None_not_Some. intros [o Ho]. pose proof (ok_outbox d Hd _ _ Ho). simpl in *. lia.
Qed.

Lemma insert_job_Ok j d id d' : insert_job j d = (Ok id, d') → db_ok d →
  (0 ≤ max_retries j ∧ params_ok j = true) ∧ id = next_job d ∧
  d' = set_jobs <[id := j]> (take_job_id d).
Proof.
  unfold insert_job. intros Hi Hd. destruct (params_ok j); [|done]. simpl in Hi.
  case_bool_decide; simplify_eq. split_and!; try done. lia.
Qed.

Lemma insert_step_Ok j run step d id d' : insert_step j run step d = (Ok id, d') → db_ok d →
  insert_job j d = (Ok id, d') ∧
  (∀ i j', jobs d !! i = Some j' → same_step run step i j' = false) ∧ is_Some (runs d !! run) ∧
  in_int32 step = true.
Proof.
  unfold insert_step. intros Hi Hd. destruct (params_ok j && in_int32 step) eqn:Hp; [|done].
  simpl in Hi. apply andb_prop in Hp as [_ ?].
  case_bool_decide; [done|]. case_bool_decide as Hc; [done|]. case_bool_decide; [|done].
  split_and!; try done. intros i j' Hj. by apply (count_where_zero _ _ i j' Hc).
Qed.

Lemma insert_step_NoRows j run step d d' : insert_step j run step d = (Err ErrNoRows, d') →
  d' = take_job_id d ∧ ∃ i j', jobs d !! i = Some j' ∧ same_step run step i j' = true.
Proof.
  unfold insert_step. intros Hi. destruct (negb _); [done|]. case_bool_decide; [done|].
  case_bool_decide as Hc; [|].
  - simplify_eq. split; [done|]. by apply count_where_pos in Hc.
  - case_bool_decide; [|done]. unfold insert_job in Hi. destruct (negb _); [done|].
    by case_bool_decide.
Qed.

(** The second statement of both transactions: after it the job is complete. *)
Lemma wp_insert_outbox c (d : db) j id (Q : result Z → conn db → Prop) :
  db_ok d → insert_job j d = (Ok id, c_data c) →
  (∀ c', c_now c' = c_now c → (c_faults c = [] → c_faults c' = []) →
     job_inserted (c_now c) j d id (c_data c') → Q (Ok id) c') →
  (∀ e c', c_faults c ≠ [] → c_now c' = c_now c → Q (Err e) c') →
  wp (try_bind (exec_insert_outbox id) (λ _, mret (Ok id))) c Q.
Proof.
  intros Hd Hj HQ HE. apply insert_job_Ok in Hj as (_ & -> & Hc); [|done].
  pose proof (lookup_next_outbox d Hd). pose proof (lookup_next_job d Hd).
  apply wp_try_bind, wp_call; intros fs Hfs; rewrite Hc.
  - rewrite bool_decide_true by (simpl; rewrite lookup_insert_eq; eauto). cbn [fst snd].
    apply HQ; [done..|]. split_and!; try done. by exists (next_outbox d).
  - by apply HE.
  - by apply HE.
Qed.

(** *** InsertJob *)
Definition new_job (maxRetries : Z) (jobType payload : string) : job_rec :=
  JobRec Pending 0 maxRetries jobType payload None None None.
Definition new_step (run step maxRetries : Z) (payload : string) : job_rec :=
  JobRec Pending 0 maxRetries "shell" payload None (Some run) (Some step).

(** Whether an insert that reports [r] did its whole effect or none: an error may
    be a commit whose reply was lost. *)
Definition all_or_nothing (now : Z) (j : job_rec) (d : db) (r : result Z) (d' : db) : Prop :=
  match r with
  | Ok id => job_inserted now j d id d'
  | Err _ => same_tables d d' ∨ ∃ id, job_inserted now j d id d'
  end.

Lemma job_inserted_same now j d d0 id d' : same_tables d d0 →
  job_inserted now j d0 id d' → job_inserted now j d id d'.
Proof.
  intros (Hj & Ho & Hr & Hk) (H1 & H2 & H3 & H4 & H5). unfold job_inserted.
  by rewrite Hj, Ho, Hr, Hk in *.
Qed.

Lemma InsertJob_spec n t p c : db_ok (c_data c) →
  wp (InsertJob n t p) c (λ r c',
    all_or_nothing (c_now c) (new_job n t p) (c_data c) r (c_data c') ∧ c_now c' = c_now c ∧
    (c_faults c = [] → c_faults c' = [] ∧
       (is_ok r = true ↔ 0 ≤ n ∧ params_ok (new_job n t p) = true))).
Proof.
  intros Hd. apply wp_in_tx; [intros fs Hne; simpl; split_and!; auto with db; by intros|].
  intros fs Hfs. apply wp_try_bind, wp_call; intros fs' Hfs'; cbn [c_data c_now c_faults] in *.
  - fold (new_job n t p).
    destruct (insert_job (new_job n t p) (c_data c)) as [[id|e] d1] eqn:Hi; cbn [fst snd].
    + destruct (insert_job_Ok _ _ _ _ Hi Hd) as ([Hn Hp] & _ & _). eapply wp_insert_outbox; [done|done|..].
      * intros c' Hnow Hf Hins. simpl in *. rewrite Hnow.
        split_and!; intros fs2 Hfs2; simpl; split_and!; auto; [naive_solver|eauto|naive_solver|
          left; apply same_tables_rollback|naive_solver].
      * intros e c' Hne Hnow. simpl in *. split_and!; auto with db. naive_solver.
    + split_and!; simpl; auto with db. intros Hf. split; [auto|]. split; [done|]. intros [Hn Hp].
      unfold insert_job in Hi. rewrite Hp, bool_decide_false in Hi by (simpl; lia). done.
  - split_and!; simpl; auto with db. naive_solver.
  - split_and!; simpl; auto with db. naive_solver.
Qed.

(** *** InsertWorkflowStep *)
Definition has_step (run step : Z) (d : db) : Prop :=
  ∃ i j, jobs d !! i = Some j ∧ same_step run step i j = true.

Definition step_outcome (now run step : Z) (j : job_rec) (d : db) (r : result Z) (d' : db) : Prop :=
  match r with
  | Ok id => (id = 0 ∧ has_step run step d ∧ same_tables d d') ∨
             (¬ has_step run step d ∧ is_Some (runs d !! run) ∧ job_inserted now j d id d')
  | Err _ => same_tables d d' ∨ (¬ has_step run step d ∧ ∃ id, job_inserted now j d id d')
  end.

Lemma InsertWorkflowStep_spec run step n p c : db_ok (c_data c) →
  wp (InsertWorkflowStep run step n p) c (λ r c',
    step_outcome (c_now c) run step (new_step run step n p) (c_data c) r (c_data c') ∧
    c_now c' = c_now c ∧ (c_faults c = [] → c_faults c' = [] ∧
      (0 ≤ n → params_ok (new_step run step n p) = true → in_int32 step = true →
       is_Some (runs (c_data c) !! run) → is_ok r = true))).
Proof.
  intros Hd. apply wp_in_tx; [intros fs Hne; simpl; split_and!; auto with db; by intros|].
  intros fs Hfs. apply wp_bind, wp_call; intros fs' Hfs'; cbn [c_data c_now c_faults] in *.
  - fold (new_step run step n p).
    destruct (insert_step (new_step run step n p) run step (c_data c)) as [r d1] eqn:Hi; cbn [fst snd].
    destruct r as [id|e].
    + destruct (insert_step_Ok _ _ _ _ _ _ Hi Hd) as (Hi' & Hno & Hrun & _).
      assert (¬ has_step run step (c_data c)) as Hnew.
      { intros (i' & j' & Hj' & Hs). by rewrite (Hno i' j' Hj') in Hs. }
      eapply wp_insert_outbox; [done|done|..].
      * intros c' Hnow Hf Hins. simpl in *. rewrite Hnow.
        split_and!; intros fs2 Hfs2; simpl; split_and!; auto; [naive_solver|right; eauto|naive_solver|
          left; apply same_tables_rollback|naive_solver].
      * intros e c' Hne Hnow. simpl in *. split_and!; auto with db. naive_solver.
    + assert (e = ErrNoRows ∨ e ≠ ErrNoRows) as [->|Hne] by (destruct (decide (e = ErrNoRows)); auto).
      * destruct (insert_step_NoRows _ _ _ _ _ Hi) as [-> Hhas]. apply wp_ret. cbn [c_data c_now c_faults].
        split_and!; intros fs2 Hfs2; simpl; (split; [left; split_and!; done|]);
          (split; [done|]); intros Hf; naive_solver.
      * assert (wp (mret (@Err Z e)) (Conn d1 fs' (c_now c)) (λ r c1, r = Err e ∧ c_faults c1 = fs' ∧ c_now c1 = c_now c)) as Hret
          by (by apply wp_ret).
        eapply wp_mono; [by destruct e|].
        intros r c1 (-> & -> & ->). simpl. split_and!; auto with db. intros Hf. split; [auto|].
        intros H0 Hp Hs Hrun. exfalso. unfold insert_step in Hi.
        rewrite Hp, Hs in Hi. simpl in Hi. rewrite bool_decide_false in Hi by lia.
        case_bool_decide; [by simplify_eq|]. rewrite bool_decide_true in Hi by done.
        unfold insert_job in Hi. rewrite Hp, bool_decide_false in Hi by (simpl; lia). done.
  - apply wp_ret. split_and!; simpl; auto with db. naive_solver.
  - apply wp_ret. split_and!; simpl; auto with db. naive_solver.
Qed.

(** *** ResetRunningJobs *)
Lemma insert_outboxes_spec now ids d :
  (∀ k o, outbox d !! k = Some o → k < next_outbox d) →
  let d' := foldl (λ d id, insert_outbox now id d) d ids in
  outbox d ⊆ outbox d' ∧
  (∀ id, id ∈ ids → ∃ k, outbox d' !! k = Some (OutboxRec id false None now)) ∧
  (∀ k o, outbox d' !! k = Some o → outbox d !! k = Some o ∨
     (o = OutboxRec (ob_job_id o) false None now ∧ ob_job_id o ∈ ids)).
Proof.
  revert d. induction ids as [|id ids IH]; intros d Hlt; simpl.
  { split_and!; [done|by intros ? ?%not_elem_of_nil|by auto]. }
  assert (outbox d !! next_outbox d = None) as Hfree.
  { apply eq_None_not_Some. intros [o Ho%Hlt]. lia. }
  destruct (IH (insert_outbox now id d)) as (Hsub & Hin & Hout).
  { simpl. intros k o [[<- _]|[_ Ho%Hlt]]%lookup_insert_Some; lia. }
  split_and!.
  - etrans; [|done]. by apply insert_subseteq.
  - intros id' [->|Hid']%elem_of_cons; [|by apply Hin].
    exists (next_outbox d). eapply lookup_weaken; [|done]. apply lookup_insert_eq.
  - intros k o [Ho|[? ?]]%Hout; [|right; split; [done|set_solver]].
    simpl in Ho. apply lookup_insert_Some in Ho as [[_ <-]|[_ ?]]; [right|left]; set_solver.
Qed.

Lemma has_unprocessed_spec d id :
  has_unprocessed d id = true ↔
  ∃ k o, outbox d !! k = Some o ∧ ob_job_id o = id ∧ processed o = false.
Proof.
  unfold has_unprocessed. rewrite bool_decide_eq_true, count_where_pos. unfold unprocessed_for.
  setoid_rewrite andb_true_iff. setoid_rewrite negb_true_iff. setoid_rewrite bool_decide_eq_true. done.
Qed.

(** What a restart makes of the tables. *)
Record restarted (now : Z) (d d' : db) : Prop := {
  rs_jobs : jobs d' = update_where (is_status Running) (set_status Pending) (jobs d);
  rs_outbox : outbox d ⊆ outbox d';
  rs_delivered : ∀ id j, jobs d !! id = Some j → status j = Running → has_unprocessed d' id = true;
  rs_new : ∀ k o, outbox d' !! k = Some o → outbox d !! k = Some o ∨
    (o = OutboxRec (ob_job_id o) false None now ∧ has_unprocessed d (ob_job_id o) = false);
  rs_runs : runs d' = runs d;
}.

Lemma runs_insert_outboxes now ids d :
  runs (foldl (λ d id, insert_outbox now id d) d ids) = runs d.
Proof. revert d. induction ids as [|id ids IH]; intros d; [done|]. simpl. by rewrite IH. Qed.

Lemma ResetRunningJobs_spec c : db_ok (c_data c) →
  wp ResetRunningJobs c (λ r c', c_now c' = c_now c ∧
    (c_faults c = [] → r = Ok tt ∧ c_faults c' = []) ∧
    match r with
    | Ok _ => restarted (c_now c) (c_data c) (c_data c')
    | Err _ => c_data c' = c_data c ∨ restarted (c_now c) (c_data c) (c_data c')
    end).
Proof.
  intros Hd. set (d := c_data c).
  set (d1 := set_jobs (update_where (is_status Running) (set_status Pending)) d).
  set (reset := (map_to_list (filter (λ kj, status kj.2 = Running) (jobs d))).*1).
  set (ids := filter (λ id, has_unprocessed d id = false) reset).
  destruct (insert_outboxes_spec (c_now c) ids d1) as (Hsub & Hin & Hout).
  { intros k o Ho. by destruct (ok_outbox _ Hd k o Ho) as [[_ ?] _]. }
  assert (restarted (c_now c) d (foldl (λ d id, insert_outbox (c_now c) id d) d1 ids)) as Hrs.
  { split; [by rewrite jobs_insert_outboxes|done| |..|by rewrite runs_insert_outboxes].
    - intros id j Hj Hr. apply has_unprocessed_spec. destruct (has_unprocessed d id) eqn:Hu.
      + apply has_unprocessed_spec in Hu as (k & o & Ho & ? & ?). exists k, o. split; [|done].
        by eapply lookup_weaken.
      + assert (id ∈ ids) as (k & Hk)%Hin.
        { apply list_elem_of_filter. split; [done|]. apply list_elem_of_fmap. exists (id, j).
          split; [done|]. by apply elem_of_map_to_list, map_lookup_filter_Some. }
        eauto.
    - intros k o [?|[? [? _]%list_elem_of_filter]]%Hout; auto. }
  apply wp_call; intros fs Hfs; cbn [fst snd c_data c_faults c_now]; fold d; split_and!; auto;
    try (by intros Hf; destruct Hfs); naive_solver.
Qed.

Lemma next_insert_outboxes now ids d :
  next_job (foldl (λ d id, insert_outbox now id d) d ids) = next_job d.
Proof. revert d. induction ids as [|id ids IH]; intros d; [done|]. simpl. by rewrite IH. Qed.
Lemma ResetRunningJobs_next c : wp ResetRunningJobs c (λ _ c', next_job (c_data c') = next_job (c_data c)).
Proof. apply wp_call; intros fs _; simpl; by rewrite ?next_insert_outboxes. Qed.

(** *** CancelWorkflowRunAtomic *)
Record run_cancelled (now runID : Z) (d d' : db) : Prop := {
  rc_running : ∃ r, runs d !! runID = Some r ∧ run_state r = RunRunning;
  rc_runs : runs d' = update_where (by_id runID) (set_run_state RunCancelled) (runs d);
  rc_jobs : jobs d' = update_where (cancellable runID) (set_status Cancelled) (jobs d);
  rc_outbox : outbox d' =
    update_where (λ _ o, in_cancelled runID d (ob_job_id o) && negb (processed o))
      (mark_processed now) (outbox d);
}.

Lemma CancelWorkflowRunAtomic_spec runID c :
  wp (CancelWorkflowRunAtomic runID) c (λ r c', c_now c' = c_now c ∧
    (c_faults c = [] → c_faults c' = [] ∧
       (r = Ok tt ∨ (r = Err ErrNoRows ∧
                     ∀ w, runs (c_data c) !! runID = Some w → run_state w ≠ RunRunning))) ∧
    match r with
    | Ok _ => run_cancelled (c_now c) runID (c_data c) (c_data c')
    | Err _ => same_tables (c_data c) (c_data c') ∨ run_cancelled (c_now c) runID (c_data c) (c_data c')
    end).
Proof.
  apply wp_in_tx; [intros fs Hne; cbn [c_data c_now]; split_and!; try done; left; by split_and!|].
  intros fs Hfs. set (d := c_data c).
  destruct (match runs d !! runID with Some r => bool_decide (run_state r = RunRunning)
            | None => false end) eqn:Hhit.
  - assert (∃ r, runs d !! runID = Some r ∧ run_state r = RunRunning) as Hrun.
    { destruct (runs d !! runID) as [r|] eqn:Hr; [|done]. apply bool_decide_eq_true in Hhit. eauto. }
    apply wp_try_bind, wp_call; intros fs1 Hfs1; cbn [fst snd c_data c_now c_faults] in *; rewrite ?Hhit.
    + rewrite bool_decide_false by done.
      apply wp_call; intros fs2 Hfs2; cbn [fst snd c_data c_now c_faults] in *.
      * assert (run_cancelled (c_now c) runID d
          (set_outbox (update_where (λ _ o, in_cancelled runID d (ob_job_id o) && negb (processed o))
                         (mark_processed (c_now c)))
            (set_jobs (update_where (cancellable runID) (set_status Cancelled))
              (set_runs (update_where (by_id runID) (set_run_state RunCancelled)) d)))) as Hdone by done.
        split_and!; intros fs3 Hfs3; cbn [c_data c_now c_faults].
        -- split_and!; [done|intros Hf; split; [auto|by left]|exact Hdone].
        -- split_and!; [done|intros Hf; destruct Hfs3; auto|by right].
        -- split_and!; [done|intros Hf; destruct Hfs3; auto|left; by split_and!].
      * split_and!; [done|intros Hf; destruct Hfs2; auto|left; by split_and!].
      * split_and!; [done|intros Hf; destruct Hfs2; auto|left; by split_and!].
    + split_and!; [done|intros Hf; destruct Hfs1; auto|left; by split_and!].
    + split_and!; [done|intros Hf; destruct Hfs1; auto|left; by split_and!].
  - apply wp_try_bind, wp_call; intros fs1 Hfs1; cbn [fst snd c_data c_now c_faults] in *; rewrite ?Hhit.
    + rewrite bool_decide_true by done. apply wp_ret. cbn [c_data c_now c_faults].
      split_and!; [done| |left; by split_and!]. intros Hf. split; [auto|]. right. split; [done|].
      intros w Hw. rewrite Hw in Hhit. by apply bool_decide_eq_false in Hhit.
    + split_and!; [done|intros Hf; destruct Hfs1; auto|left; by split_and!].
    + split_and!; [done|intros Hf; destruct Hfs1; auto|left; by split_and!].
Qed.

(** ** Properties *)

(** [InsertJob] creates the job, pending, together with an unprocessed outbox
    entry for it, both new, or changes no table; an error may hide a commit, never
    half of one.  Without faults it succeeds exactly for storable parameters. *)
Theorem InsertJob_is_atomic n t p c (Hd : db_ok (c_data c)) :
  wp (InsertJob n t p) c (λ r c',
    all_or_nothing (c_now c) (new_job n t p) (c_data c) r (c_data c') ∧
    (c_faults c = [] → (is_ok r = true ↔ 0 ≤ n ∧ params_ok (new_job n t p) = true))).
Proof.
  eapply wp_mono; [by apply InsertJob_spec|]. intros r c' (Hr & _ & Hf). split; [done|].
  intros Hc. by apply Hf.
Qed.

(** C15: however often and with whatever faults a step of a run is inserted, the run
    has at most one job for it: a second insert reports 0 and changes nothing, and a
    new job always comes with its outbox entry. *)
Theorem InsertWorkflowStep_at_most_once run step n p c (Hd : db_ok (c_data c)) :
  wp (InsertWorkflowStep run step n p) c (λ r c',
    step_outcome (c_now c) run step (new_step run step n p) (c_data c) r (c_data c') ∧
    (is_ok r = true → has_step run step (c_data c')) ∧
    (∀ i i' j j', jobs (c_data c') !! i = Some j → jobs (c_data c') !! i' = Some j' →
       same_step run step i j = true → same_step run step i' j' = true → i = i')).
Proof.
  assert (wp (InsertWorkflowStep run step n p) c (λ _ c', db_ok (c_data c'))) as Hok
    by (by apply InsertWorkflowStep_ok).
  pose proof (InsertWorkflowStep_spec run step n p c Hd) as (Hout & _).
  unfold wp in *. split; [done|]. split.
  - destruct (InsertWorkflowStep run step n p c) as [[id|e] c']; [|done]. intros _. unfold has_step. simpl in *.
    destruct Hout as [(_ & (i & j & Hj & Hs) & Hjobs & _)|(_ & _ & _ & Hjobs & _)]; rewrite Hjobs; [by exists i, j|].
    exists id, (new_step run step n p). rewrite lookup_insert_eq. split; [done|].
    unfold same_step. simpl. by rewrite !bool_decide_true.
  - intros i i' j j' Hj Hj' [Hr Hs]%andb_true_iff [Hr' Hs']%andb_true_iff.
    apply bool_decide_eq_true in Hr, Hs, Hr', Hs'. by eapply (ok_steps _ Hok).
Qed.

(** C17: at a restart [ResetRunningJobs] makes every running job pending and leaves
    each with an unprocessed outbox entry; it touches no other job, drops no entry,
    and adds one only for a job that had none. *)
Theorem ResetRunningJobs_redelivers c (Hd : db_ok (c_data c)) (Hf : c_faults c = []) :
  wp ResetRunningJobs c (λ r c',
    r = Ok tt ∧
    (∀ id j, jobs (c_data c) !! id = Some j → status j = Running →
       jobs (c_data c') !! id = Some (set_status Pending j) ∧
       has_unprocessed (c_data c') id = true) ∧
    (∀ id j, jobs (c_data c) !! id = Some j → status j ≠ Running →
       jobs (c_data c') !! id = Some j) ∧
    outbox (c_data c) ⊆ outbox (c_data c') ∧
    (∀ k o, outbox (c_data c') !! k = Some o → outbox (c_data c) !! k = Some o ∨
       (processed o = false ∧ has_unprocessed (c_data c) (ob_job_id o) = false)) ∧
    ∀ id j, jobs (c_data c') !! id = Some j → status j ≠ Running).
Proof.
  eapply wp_mono; [by apply ResetRunningJobs_spec|]. intros r c' (_ & Hr & Hrs).
  destruct (Hr Hf) as [-> _]. destruct Hrs as [Hj Ho Hdel Hnew _]. split_and!; try done.
  - intros id j Hid Hrun. rewrite Hj, lookup_update_where, Hid. simpl. unfold is_status.
    rewrite bool_decide_true by done. split; [done|]. by eapply Hdel.
  - intros id j Hid Hrun. rewrite Hj, lookup_update_where, Hid. simpl. unfold is_status.
    by rewrite bool_decide_false.
  - intros k o [?|[-> ?]]%Hnew; [by left|right]. done.
  - intros id j. rewrite Hj, lookup_update_where, fmap_Some. intros (j0 & _ & ->). unfold is_status.
    by case_bool_decide.
Qed.

(** C35: [CancelWorkflowRunAtomic] cancels a running run, its pending and retrying
    jobs and their outbox entries in one step, or changes no table; it refuses a run
    that is not running. *)
Theorem CancelWorkflowRun_is_atomic runID c :
  wp (CancelWorkflowRunAtomic runID) c (λ r c',
    (c_faults c = [] → r = Ok tt ∨ (r = Err ErrNoRows ∧
       ∀ w, runs (c_data c) !! runID = Some w → run_state w ≠ RunRunning)) ∧
    match r with
    | Ok _ => run_cancelled (c_now c) runID (c_data c) (c_data c')
    | Err _ => same_tables (c_data c) (c_data c') ∨ run_cancelled (c_now c) runID (c_data c) (c_data c')
    end).
Proof.
  eapply wp_mono; [apply CancelWorkflowRunAtomic_spec|]. intros r c' (_ & Hf & Hr).
  split; [|done]. intros Hc. by apply Hf.
Qed.

(** The cleanup deletes exactly the entries processed longer ago than the given
    age, never one that is still to be delivered, and reports how many; with an
    error it deleted those or none. *)
Theorem Cleanup_keeps_unprocessed age c :
  wp (CleanupProcessedOutbox age) c (λ r c',
    let kept k o := outbox (c_data c) !! k = Some o ∧ expired (c_now c - age) o = false in
    (∀ k o, outbox (c_data c) !! k = Some o → processed o = false → outbox (c_data c') !! k = Some o) ∧
    match r with
    | Ok n => (∀ k o, outbox (c_data c') !! k = Some o ↔ kept k o) ∧
              n = Z.of_nat (size (outbox (c_data c)) - size (outbox (c_data c')))
    | Err _ => c_data c' = c_data c ∨ ∀ k o, outbox (c_data c') !! k = Some o ↔ kept k o
    end).
Proof.
  set (d := c_data c).
  set (gone := λ ko : Z * outbox_rec, expired (c_now c - age) ko.2 = true).
  assert (∀ k o, outbox (set_outbox (filter (λ ko, expired (c_now c - age) ko.2 = false)) d) !! k = Some o ↔
    outbox d !! k = Some o ∧ expired (c_now c - age) o = false) as Hkept
    by (intros; apply map_lookup_filter_Some).
  assert (∀ k o, outbox d !! k = Some o → processed o = false →
    outbox (set_outbox (filter (λ ko, expired (c_now c - age) ko.2 = false)) d) !! k = Some o) as Hun.
  { intros k o Ho Hp. apply Hkept. split; [done|]. unfold expired. by rewrite Hp. }
  apply wp_call; intros fs _; cbn [fst snd c_data]; fold d; (split; [done|]); [|by left|by right].
  split; [done|]. simpl. unfold count_where. f_equal.
  rewrite <-!length_map_to_list.
  enough (length (map_to_list (outbox d)) =
    length (filter (λ kx : Z * outbox_rec, expired (c_now c - age) kx.2 = true) (map_to_list (outbox d))) +
    length (map_to_list (filter (λ ko, expired (c_now c - age) ko.2 = false) (outbox d))))%nat by lia.
  rewrite map_filter_alt, map_to_list_to_map; [|].
  - induction (map_to_list (outbox d)) as [|x l IH]; [done|]. rewrite !filter_cons.
    destruct (expired (c_now c - age) x.2) eqn:Hx; cbn [length];
      repeat case_decide; simpl; try congruence; lia.
  - eapply NoDup_fmap_fst; [|apply NoDup_filter, NoDup_map_to_list].
    intros k o o' [_ H1%elem_of_map_to_list]%list_elem_of_filter [_ H2%elem_of_map_to_list]%list_elem_of_filter.
    by simplify_eq.
Qed.

(** ** Witnesses *)
Definition example_db : db :=
  Db {[1 := JobRec Running 1 3 "shell" "{}" None None None;
       2 := JobRec Pending 0 0 "shell" "{}" None (Some 1) (Some 0)]}
     {[1 := OutboxRec 1 true (Some 5) 4; 2 := OutboxRec 2 false None 6]}
     {[1 := RunRec "ci" RunRunning 0 2]} ∅ 3 3 2 1.

Lemma example_db_ok : db_ok example_db.
Proof.
  split.
  - apply map_Forall_insert_2; [|apply map_Forall_singleton]; split; simpl; try done; try lia.
    intros r [= <-]. by exists (RunRec "ci" RunRunning 0 2).
  - intros i i' j j' r s Hj Hj' Hr Hr' _ _. unfold example_db in Hj, Hj'. simpl in Hj, Hj'.
    apply lookup_insert_Some in Hj as [[<- <-]|[_ [<- <-]%lookup_singleton_Some]]; [done|].
    apply lookup_insert_Some in Hj' as [[<- <-]|[_ [<- <-]%lookup_singleton_Some]]; done.
  - apply map_Forall_insert_2; [|apply map_Forall_singleton]; simpl; (split; [lia|]); eauto.
  - apply map_Forall_singleton. simpl. lia.
  - done.
  - simpl. lia.
Qed.

Lemma InsertJob_is_atomic_witness :
  (∃ c', InsertJob 3 "shell" "{}" (Conn example_db [] 10) = (Ok 3, c') ∧
         has_unprocessed (c_data c') 3 = true) ∧
  wp (InsertJob 3 "shell" "{}") (Conn example_db [FOk; FOk; FOk; FLate] 10) (λ r c',
    all_or_nothing 10 (new_job 3 "shell" "{}") example_db r (c_data c')).
Proof.
  split; [eexists; split; [vm_compute; reflexivity|vm_compute; reflexivity]|].
  eapply wp_mono; [apply (InsertJob_is_atomic 3 "shell" "{}" (Conn example_db [FOk; FOk; FOk; FLate] 10) example_db_ok)|].
  intros r c' [Hr _]. exact Hr.
Defined.

Lemma InsertWorkflowStep_at_most_once_witness :
  (InsertWorkflowStep 1 0 0 "{}" (Conn example_db [] 10)).1 = Ok 0 ∧
  wp (InsertWorkflowStep 1 1 0 "{}") (Conn example_db [] 10) (λ r c',
    is_ok r = true → has_step 1 1 (c_data c')).
Proof.
  split; [vm_compute; reflexivity|].
  eapply wp_mono; [apply (InsertWorkflowStep_at_most_once 1 1 0 "{}" (Conn example_db [] 10) example_db_ok)|].
  intros r c' (_ & Hr & _). exact Hr.
Defined.

Lemma ResetRunningJobs_redelivers_witness :
  wp ResetRunningJobs (Conn example_db [] 10) (λ r c',
    r = Ok tt ∧ has_unprocessed (c_data c') 1 = true).
Proof.
  eapply wp_mono; [apply (ResetRunningJobs_redelivers (Conn example_db [] 10) example_db_ok eq_refl)|].
  intros r c' (Hr & Hrun & _). split; [exact Hr|].
  exact (proj2 (Hrun 1 (JobRec Running 1 3 "shell" "{}" None None None) eq_refl eq_refl)).
Defined.
