(* ===== verification/Outbox.v ===== *)
(** * The outbox relay

    [world] puts the database and the queue together: the state the server's
    goroutines share.  Models internal/outbox/relay.go: [relay], which [Start] runs
    every two seconds, and the retention of the hourly cleanup.  The relay is
    verified against the [Queue] contract, for every implementation of it. *)
From stdpp Require Import gmap strings list fin_maps fin_sets sorting.
From S2P Require Import Prelude Text Json Redis Queue RedisQueue Db.
Open Scope Z_scope.

(** ** The shared state *)
Record world (Q : Type) : Type := World {
  w_db : db;
  w_db_faults : list fault;
  w_q : Q;
  w_q_faults : list fault;
  w_now : Z;
}.
Arguments World {Q} _ _ _ _ _.
Arguments w_db {Q} _.
Arguments w_db_faults {Q} _.
Arguments w_q {Q} _.
Arguments w_q_faults {Q} _.
Arguments w_now {Q} _.

Definition on_db {Q A} (m : M (conn db) A) : M (world Q) A := λ w,
  let '(a, c) := m (Conn (w_db w) (w_db_faults w) (w_now w)) in
  (a, World (c_data c) (c_faults c) (w_q w) (w_q_faults w) (w_now w)).
Definition on_q {Q A} (m : M (conn Q) A) : M (world Q) A := λ w,
  let '(a, c) := m (Conn (w_q w) (w_q_faults w) (w_now w)) in
  (a, World (w_db w) (w_db_faults w) (c_data c) (c_faults c) (w_now w)).

(** No call fails from here on. *)
Definition reliable {Q} (w : world Q) : Prop := w_db_faults w = [] ∧ w_q_faults w = [].

Lemma wp_on_db {Q A} (m : M (conn db) A) (w : world Q) (P : A → world Q → Prop) :
  wp m (Conn (w_db w) (w_db_faults w) (w_now w)) (λ a c,
    P a (World (c_data c) (c_faults c) (w_q w) (w_q_faults w) (w_now w))) →
  wp (on_db m) w P.
Proof. unfold wp, on_db. by destruct (m _). Qed.
Lemma wp_on_q {Q A} (m : M (conn Q) A) (w : world Q) (P : A → world Q → Prop) :
  wp m (Conn (w_q w) (w_q_faults w) (w_now w)) (λ a c,
    P a (World (w_db w) (w_db_faults w) (c_data c) (c_faults c) (w_now w))) →
  wp (on_q m) w P.
Proof. unfold wp, on_q. by destruct (m _). Qed.

(** One statement, and one query, on the shared state. *)
Lemma wp_db_call {Q A} (f : Z → db → result A * db) (w : world Q) (P : result A → world Q → Prop) :
  (∀ fs, (w_db_faults w = [] → fs = []) →
     P (f (w_now w) (w_db w)).1 (World (f (w_now w) (w_db w)).2 fs (w_q w) (w_q_faults w) (w_now w))) →
  (∀ fs, w_db_faults w ≠ [] → P (Err ErrIO) (World (w_db w) fs (w_q w) (w_q_faults w) (w_now w))) →
  (∀ fs, w_db_faults w ≠ [] →
     P (Err ErrIO) (World (f (w_now w) (w_db w)).2 fs (w_q w) (w_q_faults w) (w_now w))) →
  wp (on_db (call f)) w P.
Proof. intros. apply wp_on_db. by apply wp_call. Qed.
Lemma wp_db_read {Q A} (g : Z → db → result A) (w : world Q) (P : result A → world Q → Prop) :
  (∀ fs, (w_db_faults w = [] → fs = []) →
     P (g (w_now w) (w_db w)) (World (w_db w) fs (w_q w) (w_q_faults w) (w_now w))) →
  (∀ fs, w_db_faults w ≠ [] → P (Err ErrIO) (World (w_db w) fs (w_q w) (w_q_faults w) (w_now w))) →
  wp (on_db (call (λ n d, (g n d, d)))) w P.
Proof. intros. apply wp_on_db. by apply wp_read. Qed.

(** An operation of the queue, by its contract. *)
Lemma wp_queue {Q A} `{Queue Q} (m : M (conn Q) A) good spec (w : world Q) (P : A → world Q → Prop) :
  meets m good spec → qinv (w_q w) →
  (∀ a q' fs, qinv q' → spec (w_now w) (qabs (w_q w)) a (qabs q') →
     (w_q_faults w = [] → good a = true ∧ fs = []) →
     P a (World (w_db w) (w_db_faults w) q' fs (w_now w))) →
  wp (on_q m) w P.
Proof.
  intros Hm Hq HP. apply wp_on_q. eapply wp_mono; [by apply Hm|].
  intros a c (Hi & _ & Hs & Hf). cbn [c_data c_now c_faults] in *. by apply HP.
Qed.

(** ** The relay *)
Definition pollInterval : Z := 2 * 1000000000.
Definition cleanupInterval : Z := 3600 * 1000000000.
Definition cleanupMaxAge : Z := 24 * 3600 * 1000000000.

(** The retry count of the job is not in the entry; the field is left zero. *)
Definition entry_job (e : OutboxEntry) : Job :=
  {| j_ID := e_JobID e; j_RetryCount := 0; j_MaxRetries := e_MaxRetries e;
     j_Type := e_Type e; j_Payload := e_Payload e |}.

Section relay.
Context {Q : Type} `{Queue Q}.

(** The loop; a failure ends it. *)
Fixpoint relay_entries (entries : list OutboxEntry) : M (world Q) (result unit) :=
  match entries with
  | [] => mret (Ok tt)
  | e :: entries =>
      try_bind (on_q (Enqueue (entry_job e))) (λ _,
        try_bind (on_db (MarkOutboxProcessed (e_ID e))) (λ _, relay_entries entries))
  end.

Definition relay (locked : gset Z) : M (world Q) (result unit) := λ w,
  let snapshot := w_db w in
  try_bind (on_db (GetUnprocessedOutbox locked)) (λ entries,
    if bool_decide (entries = []) then on_db (Commit snapshot) else
    r ← relay_entries entries;
    match r with
    | Ok _ => on_db (Commit snapshot)
    | Err e => _ ← on_db (Rollback snapshot); mret (Err e)
    end) w.

Definition cleanup_tick : M (world Q) (result Z) := on_db (CleanupProcessedOutbox cleanupMaxAge).
End relay.

(** ** Lemmas *)
Definition marked (now : Z) (ids : list Z) (d : db) : db :=
  set_outbox (update_where (λ k _, bool_decide (k ∈ ids)) (mark_processed now)) d.

Lemma update_where_none {A} p f (m : gmap Z A) : (∀ k x, m !! k = Some x → p k x = false) →
  update_where p f m = m.
Proof.
  intros Hp. apply map_eq. intros k. rewrite lookup_update_where.
  destruct (m !! k) as [x|] eqn:Hk; [|done]. simpl. by rewrite (Hp k x).
Qed.

Lemma set_outbox_eq f g d : f (outbox d) = g (outbox d) → set_outbox f d = set_outbox g d.
Proof. unfold set_outbox. by intros ->. Qed.

Lemma marked_nil now d : marked now [] d = d.
Proof.
  unfold marked, set_outbox. rewrite update_where_none; [by destruct d|].
  intros k x _. apply bool_decide_false, not_elem_of_nil.
Qed.

Lemma marked_cons now id ids d :
  marked now ids (set_outbox (update_where (by_id id) (mark_processed now)) d) = marked now (id :: ids) d.
Proof.
  unfold marked, set_outbox. simpl. f_equal. apply map_eq. intros k. rewrite !lookup_update_where.
  destruct (outbox d !! k) as [x|]; [|done]. simpl. f_equal. unfold by_id.
  destruct (decide (k = id)) as [->|Hne].
  - rewrite (bool_decide_true (id = id)), (bool_decide_true (id ∈ id :: ids)) by set_solver.
    by case_bool_decide.
  - rewrite (bool_decide_false (k = id)) by done.
    repeat case_bool_decide; try done; set_solver.
Qed.

Lemma queued_enqueue job v x : x ∈ queued v → x ∈ queued (q_enqueue job v).
Proof. simpl. set_solver. Qed.

Lemma queued_enqueue_all es v x : x ∈ queued v → x ∈ queued (foldl (λ v e, q_enqueue (entry_job e) v) v es).
Proof. revert v. induction es as [|e es IH]; intros v Hx; [done|]. by apply IH, queued_enqueue. Qed.

(** *** What enqueueing never takes away *)

(** The queue has a payload for the job, the text of a job with its ID. *)
Definition has_text (v : qview) (id : Z) : Prop :=
  ∃ job, payloads v !! Itoa id = Some (MarshalJob job) ∧ j_ID job = id.

Record grows (v v' : qview) : Prop := {
  gr_queued : queued v ⊆ queued v';
  gr_held : ∀ x, held v x → held v' x;
  gr_text : ∀ id, has_text v id → has_text v' id;
}.
#[export] Instance grows_preorder : PreOrder grows.
Proof.
  split; [by split|]. intros v1 v2 v3 [Hq Hh Ht] [Hq' Hh' Ht']. split; [by etrans|auto..].
Qed.

Lemma has_text_enqueue job v : has_text (q_enqueue job v) (j_ID job).
Proof. exists job. simpl. by rewrite lookup_insert_eq. Qed.

Lemma grows_enqueue job v : grows v (q_enqueue job v).
Proof.
  split; [simpl; set_solver|intros x Hx; apply held_enqueue; by left|]. intros id Ht.
  destruct (decide (id = j_ID job)) as [->|Hne]; [apply has_text_enqueue|].
  destruct Ht as (job' & Hp & Hid). exists job'. split; [|done]. simpl.
  by rewrite lookup_insert_ne by (intros ?%(inj Itoa); congruence).
Qed.
Lemma enqueue_spec_grows job v r v' : enqueue_spec job v r v' → grows v v'.
Proof.
  destruct 1; [apply grows_enqueue|reflexivity| |apply grows_enqueue].
  split; [simpl; set_solver|done|done].
Qed.

(** Where the job of a delivered entry is after a pass from [v] to [v']: it is marked,
    with its payload, and in one of the three places; but a mark that an [Enqueue] left
    before, without entering the job, keeps it out of them. *)
Record placed (v v' : qview) (id : Z) : Prop := {
  pl_queued : Itoa id ∈ queued v';
  pl_text : has_text v' id;
  pl_held : held v' (Itoa id) ∨ (Itoa id ∈ queued v ∧ ¬ held v (Itoa id));
}.
Lemma held_dec v x : held v x ∨ ¬ held v x.
Proof. unfold held. destruct (decide (x ∈ ready v ∨ x ∈ processing v ∨ is_Some (delayed v !! x))); auto. Qed.
Lemma placed_enqueue job v : placed v (q_enqueue job v) (j_ID job).
Proof.
  split; [simpl; set_solver|apply has_text_enqueue|]. rewrite held_enqueue.
  destruct (held_dec v (Itoa (j_ID job))); [by left; left|].
  destruct (decide (Itoa (j_ID job) ∈ queued v)); [by right|by left; right].
Qed.
Lemma placed_grows v v1 v2 id : placed v v1 id → grows v1 v2 → placed v v2 id.
Proof. intros [Hq Ht Hh] [Hq' Hh' Ht']. split; [set_solver|auto|]. destruct Hh; auto. Qed.
Lemma placed_after job v v' id : placed (q_enqueue job v) v' id → placed v v' id.
Proof.
  intros [Hq Ht Hh]. split; [done..|]. rewrite held_enqueue in Hh. destruct Hh as [?|[Hin Hno]]; [by left|right].
  split; [|tauto]. destruct (decide (Itoa id ∈ queued v)); [done|]. simpl in Hin.
  destruct Hno. right. split; [set_solver|done].
Qed.

Section spec.
Context {Q : Type} `{QueueLaws Q}.

(** What the loop has done when it stops: it enqueued the jobs of a prefix of the
    entries and marked exactly entries whose job has its place in the queue. *)
Record relayed (es : list OutboxEntry) (w : world Q) (r : result unit) (w' : world Q) : Prop := {
  rl_inv : qinv (w_q w');
  rl_now : w_now w' = w_now w;
  rl_marks : ∃ ids, w_db w' = marked (w_now w) ids (w_db w) ∧
    (∀ id, id ∈ ids → ∃ e, e ∈ es ∧ e_ID e = id ∧ placed (qabs (w_q w)) (qabs (w_q w')) (e_JobID e));
  rl_grows : grows (qabs (w_q w)) (qabs (w_q w'));
  rl_ok : r = Ok tt → w_db w' = marked (w_now w) (e_ID <$> es) (w_db w) ∧
    qabs (w_q w') = foldl (λ v e, q_enqueue (entry_job e) v) (qabs (w_q w)) es;
  rl_reliable : reliable w → r = Ok tt ∧ reliable w';
}.

Lemma relay_entries_spec es w : qinv (w_q w) → wp (relay_entries es) w (relayed es w).
Proof.
  revert w. induction es as [|e es IH]; intros w Hq; cbn [relay_entries].
  { apply wp_ret. split; try done; simpl; rewrite ?marked_nil; [|done].
    exists []. rewrite marked_nil. split; [done|]. by intros ? ?%not_elem_of_nil. }
  apply wp_try_bind. eapply wp_queue; [apply Enqueue_law|done|].
  intros r q' fs Hq' Hspec Hf. destruct r as [[]|err].
  - assert (qabs q' = q_enqueue (entry_job e) (qabs (w_q w))) as Hv by (by inversion Hspec).
    clear Hspec. pose proof (placed_enqueue (entry_job e) (qabs (w_q w))) as Hin.
    pose proof (grows_enqueue (entry_job e) (qabs (w_q w))) as Hgr. rewrite <-Hv in Hin, Hgr.
    apply wp_try_bind, wp_on_db, wp_call; intros fs' Hfs'; cbn [c_data c_now c_faults fst snd w_db w_db_faults w_q w_q_faults w_now].
    + eapply wp_mono; [by apply IH|]. intros r w' [Hi Hn (ids & Hd & Hids) Hqd Hok Hrel]. cbn [w_db w_db_faults w_q w_q_faults w_now] in *.
      split; try done.
      * exists (e_ID e :: ids). rewrite Hd, marked_cons. split; [done|].
        intros id [->|Hid]%elem_of_cons.
        { exists e. split_and!; [set_solver|done|by eapply placed_grows]. }
        destruct (Hids id Hid) as (e' & ? & ? & Hpl). exists e'. split_and!; [set_solver|done|].
        rewrite Hv in Hpl. by eapply placed_after.
      * by etrans.
      * intros Hr. destruct (Hok Hr) as [-> ->]. rewrite marked_cons. simpl. by rewrite Hv.
      * intros [Hdf Hqf]. apply Hrel. split; simpl; [by auto|]. by apply Hf.
    + split; simpl; try done.
      * exists []. rewrite marked_nil. split; [done|]. by intros ? ?%not_elem_of_nil.
      * intros [Hdf _]. by destruct Hfs'.
    + split; simpl; try done.
      * exists [e_ID e]. split; [|intros id ->%list_elem_of_singleton; exists e; set_solver].
        by rewrite <-marked_cons, marked_nil.
      * intros [Hdf _]. by destruct Hfs'.
  - split; simpl; try done.
    + exists []. rewrite marked_nil. split; [done|]. by intros ? ?%not_elem_of_nil.
    + by eapply enqueue_spec_grows.
    + intros [_ Hqf]. by destruct (Hf Hqf).
Qed.

Lemma elem_of_unprocessed_entries locked d e : e ∈ unprocessed_entries locked d ↔
  ∃ o j, outbox d !! e_ID e = Some o ∧ processed o = false ∧ (e_ID e ∉ locked) ∧
    jobs d !! ob_job_id o = Some j ∧
    e = Build_OutboxEntry (e_ID e) (ob_job_id o) (type j) (payload j) (max_retries j).
Proof.
  unfold unprocessed_entries. rewrite list_elem_of_omap. setoid_rewrite merge_sort_Permutation.
  setoid_rewrite list_elem_of_filter. split.
  - intros ([k o] & ([Hp Hl] & Hk%elem_of_map_to_list) & He). simpl in *.
    apply fmap_Some in He as (j & Hj & ->). exists o, j. by split_and!.
  - intros (o & j & Hk & Hp & Hl & Hj & ->). exists (e_ID e, o). simpl in *.
    rewrite elem_of_map_to_list, Hj. by split_and!.
Qed.

Lemma rollback_marked now ids d : rollback d (marked now ids d) = d.
Proof. by destruct d. Qed.
Lemma rollback_same d : rollback d d = d.
Proof. by destruct d. Qed.

(** The entries a pass has delivered: they are marked and their jobs placed. *)
Record delivered (w w' : world Q) : Prop := {
  dl_inv : qinv (w_q w');
  dl_now : w_now w' = w_now w;
  dl_db : ∃ ids, w_db w' = marked (w_now w) ids (w_db w) ∧
    ∀ id, id ∈ ids → ∃ o, outbox (w_db w) !! id = Some o ∧ processed o = false ∧
                          placed (qabs (w_q w)) (qabs (w_q w')) (ob_job_id o);
  dl_grows : grows (qabs (w_q w)) (qabs (w_q w'));
}.

Lemma delivered_none (w w' : world Q) : qinv (w_q w') → w_now w' = w_now w → w_db w' = w_db w →
  grows (qabs (w_q w)) (qabs (w_q w')) → delivered w w'.
Proof.
  intros ? ? Hd ?. split; try done. exists []. rewrite marked_nil. split; [done|].
  by intros ? ?%not_elem_of_nil.
Qed.

Lemma wp_Commit s (w : world Q) (P : result unit → world Q → Prop) :
  (∀ fs, (w_db_faults w = [] → fs = []) →
     P (Ok tt) (World (w_db w) fs (w_q w) (w_q_faults w) (w_now w))) →
  (∀ fs, w_db_faults w ≠ [] →
     P (Err ErrIO) (World (w_db w) fs (w_q w) (w_q_faults w) (w_now w))) →
  (∀ fs, w_db_faults w ≠ [] →
     P (Err ErrIO) (World (rollback s (w_db w)) fs (w_q w) (w_q_faults w) (w_now w))) →
  wp (on_db (Commit s)) w P.
Proof.
  intros H1 H2 H3. apply wp_on_db. unfold wp, Commit. cbn [c_faults c_data c_now].
  destruct (w_db_faults w) as [|[] fs]; simpl; [apply H1|apply H1|apply H3|apply H2|apply H2]; done.
Qed.

Lemma wp_GetUnprocessedOutbox_conn locked c (P : result (list OutboxEntry) → conn db → Prop) :
  (∀ es fs, (∀ e, e ∈ es → e ∈ unprocessed_entries locked (c_data c)) →
     (c_faults c = [] → es = unprocessed_entries locked (c_data c) ∧ fs = []) →
     P (Ok es) (Conn (c_data c) fs (c_now c))) →
  (∀ e fs, c_faults c ≠ [] → P (Err e) (Conn (c_data c) fs (c_now c))) →
  wp (GetUnprocessedOutbox locked) c P.
Proof.
  intros H1 H2. unfold GetUnprocessedOutbox.
  apply wp_try_bind, (wp_read (λ _ _, Ok tt)); [|intros; by apply H2].
  intros fs Hfs. apply wp_bind, wp_call_rows; cbn [c_data c_now c_faults].
  - intros fs' Hfs'. apply wp_ret. apply H1; [done|]. auto.
  - intros fs' Hne. unfold wp. simpl. rewrite rollback_same. apply H2. auto.
  - intros fs' l n Hne [= <-]. apply wp_ret. apply H1.
    + intros e (i & Hi & _)%elem_of_take. by eapply list_elem_of_lookup_2.
    + intros Hd. destruct Hne. auto.
Qed.

Lemma wp_GetUnprocessedOutbox locked (w : world Q) (P : result (list OutboxEntry) → world Q → Prop) :
  (∀ es fs, (∀ e, e ∈ es → e ∈ unprocessed_entries locked (w_db w)) →
     (w_db_faults w = [] → es = unprocessed_entries locked (w_db w) ∧ fs = []) →
     P (Ok es) (World (w_db w) fs (w_q w) (w_q_faults w) (w_now w))) →
  (∀ e fs, w_db_faults w ≠ [] → P (Err e) (World (w_db w) fs (w_q w) (w_q_faults w) (w_now w))) →
  wp (on_db (GetUnprocessedOutbox locked)) w P.
Proof. intros H1 H2. by apply wp_on_db, wp_GetUnprocessedOutbox_conn. Qed.

(** A whole pass. *)
Lemma relay_spec locked w : qinv (w_q w) → wp (relay locked) w (λ r w',
  delivered w w' ∧
  (reliable w → r = Ok tt ∧ reliable w' ∧
     let es := unprocessed_entries locked (w_db w) in
     w_db w' = marked (w_now w) (e_ID <$> es) (w_db w) ∧
     qabs (w_q w') = foldl (λ v e, q_enqueue (entry_job e) v) (qabs (w_q w)) es)).
Proof.
  intros Hq. unfold relay. wp_enter. apply wp_try_bind, wp_GetUnprocessedOutbox.
  2:{ intros e fs Hne. split; [by apply delivered_none|]. intros [Hd _]. done. }
  intros es fs Hes Hfs. case_bool_decide as Hnil.
  - subst es. apply wp_Commit; cbn [w_db w_db_faults w_q w_q_faults w_now].
    + intros fs' Hfs'. split; [by apply delivered_none|]. intros [Hd Hqf].
      destruct (Hfs Hd) as [He ->]. rewrite <-He. simpl. rewrite marked_nil.
      split_and!; try done. split; simpl; auto.
    + intros fs' Hne. split; [by apply delivered_none|]. intros [Hd _]. by destruct Hne, (Hfs Hd).
    + intros fs' Hne. rewrite rollback_same. split; [by apply delivered_none|].
      intros [Hd _]. by destruct Hne, (Hfs Hd).
  - apply wp_bind. eapply wp_mono; [by apply relay_entries_spec|]. intros r w1 Hrl.
    assert (reliable w → es = unprocessed_entries locked (w_db w) ∧ r = Ok tt ∧ reliable w1) as Hrel.
    { intros [Hd Hqf]. destruct (Hfs Hd) as [He ->]. split; [done|]. by apply (rl_reliable _ _ _ _ Hrl). }
    destruct Hrl as [Hi Hn (ids & Hd & Hids) Hqd Hok _].
    cbn [w_db w_db_faults w_q w_q_faults w_now] in *.
    assert (∀ fs', delivered w (World (w_db w1) fs' (w_q w1) (w_q_faults w1) (w_now w1))) as Hdel.
    { intros fs'. split; try done. exists ids. split; [done|]. intros id (e & He & <- & Hin)%Hids.
      apply Hes, elem_of_unprocessed_entries in He as (o & j & Ho & Hp & _ & _ & He).
      exists o. split_and!; [done..|]. by rewrite He in Hin. }
    assert (∀ fs', delivered w (World (rollback (w_db w) (w_db w1)) fs' (w_q w1) (w_q_faults w1) (w_now w1))) as Hnone.
    { intros fs'. apply delivered_none; simpl; try done. by rewrite Hd, rollback_marked. }
    destruct r as [[]|err].
    + apply wp_Commit.
      * intros fs' Hfs'. split; [apply Hdel|]. intros Hw. destruct (Hrel Hw) as (He & _ & [Hd1 Hq1]).
        destruct (Hok eq_refl) as [Hm Hv]. cbn [w_db w_q]. rewrite <-He, Hm, Hv.
        split_and!; try done. split; simpl; auto.
      * intros fs' Hne. split; [apply Hdel|]. intros Hw. by destruct Hne, (Hrel Hw) as (_ & _ & [? _]).
      * intros fs' Hne. split; [apply Hnone|]. intros Hw. by destruct Hne, (Hrel Hw) as (_ & _ & [? _]).
    + unfold wp. simpl. split; [apply Hnone|]. intros Hw. by destruct (Hrel Hw) as (_ & ? & _).
Qed.
End spec.

(** *** The entries, in order *)
#[export] Instance created_le_trans : Transitive created_le.
Proof. intros p q r. unfold created_le. lia. Qed.
#[export] Instance created_le_total : Total created_le.
Proof. intros p q. unfold created_le. lia. Qed.

Lemma StronglySorted_omap {A B} (R : A → A → Prop) (S : B → B → Prop) (f : A → option B) l :
  (∀ x y x' y', x ∈ l → y ∈ l → R x y → f x = Some x' → f y = Some y' → S x' y') →
  StronglySorted R l → StronglySorted S (omap f l).
Proof.
  intros HS. induction 1 as [|x l Hl IH Hx]; [constructor|]. simpl.
  assert (StronglySorted S (omap f l)) as Hl' by (apply IH; intros; eapply (HS x0 y); set_solver).
  destruct (f x) as [x'|] eqn:Hfx; [|done]. constructor; [done|].
  apply Forall_forall. intros y' (y & Hy & Hfy)%list_elem_of_omap.
  eapply (HS x y); try done; [set_solver..|]. by eapply Forall_forall in Hx.
Qed.

Lemma unprocessed_entries_sorted locked d :
  StronglySorted (λ e e', ∀ o o', outbox d !! e_ID e = Some o → outbox d !! e_ID e' = Some o' →
    created_at o ≤ created_at o') (unprocessed_entries locked d).
Proof.
  eapply (StronglySorted_omap created_le); [|by apply StronglySorted_merge_sort; apply _].
  intros [k o] [k' o'] e e' Hx Hy Hle He He' o1 o2 Ho1 Ho2.
  rewrite merge_sort_Permutation in Hx, Hy.
  apply list_elem_of_filter in Hx as [_ Hx%elem_of_map_to_list], Hy as [_ Hy%elem_of_map_to_list].
  apply fmap_Some in He as (j & _ & ->), He' as (j' & _ & ->). simpl in *. by simplify_eq.
Qed.

Lemma unprocessed_marked locked now d :
  unprocessed_entries locked (marked now (e_ID <$> unprocessed_entries locked d) d) = [].
Proof.
  destruct (unprocessed_entries locked (marked _ _ d)) as [|e es] eqn:Hes; [done|exfalso].
  assert (e ∈ unprocessed_entries locked (marked now (e_ID <$> unprocessed_entries locked d) d))
    as (o & j & Ho & Hp & Hl & Hj & He)%elem_of_unprocessed_entries by (rewrite Hes; set_solver).
  simpl in Ho, Hj. rewrite lookup_update_where, fmap_Some in Ho. destruct Ho as (o0 & Ho0 & ->).
  case_bool_decide as Hin; [done|]. apply Hin, list_elem_of_fmap. exists e. split; [done|].
  apply elem_of_unprocessed_entries. by exists o0, j.
Qed.

(** *** Delivering twice *)
Definition enqueue_entries (es : list OutboxEntry) (v : qview) : qview :=
  foldl (λ v e, q_enqueue (entry_job e) v) v es.

Lemma enqueue_entries_queued es v x :
  x ∈ queued (enqueue_entries es v) ↔ x ∈ queued v ∨ ∃ e, e ∈ es ∧ x = Itoa (e_JobID e).
Proof.
  unfold enqueue_entries. revert v. induction es as [|e es IH]; intros v; simpl; [set_solver|].
  rewrite IH. simpl. set_solver.
Qed.

Lemma enqueue_entries_payload_other es v x : (∀ e, e ∈ es → x ≠ Itoa (e_JobID e)) →
  payloads (enqueue_entries es v) !! x = payloads v !! x.
Proof.
  unfold enqueue_entries. revert v. induction es as [|e es IH]; intros v Hx; [done|]. simpl.
  rewrite IH by set_solver. simpl. rewrite lookup_insert_ne; [done|]. intros Heq.
  by apply (Hx e); [set_solver|].
Qed.

Lemma enqueue_entries_payload es v v' x : (∃ e, e ∈ es ∧ x = Itoa (e_JobID e)) →
  payloads (enqueue_entries es v) !! x = payloads (enqueue_entries es v') !! x.
Proof.
  revert v v'. induction es as [|e es IH]; intros v v' (e' & He & Hx); [by apply not_elem_of_nil in He|].
  change (enqueue_entries (e :: es) v) with (enqueue_entries es (q_enqueue (entry_job e) v)).
  change (enqueue_entries (e :: es) v') with (enqueue_entries es (q_enqueue (entry_job e) v')).
  destruct (decide (x ∈ (λ e, Itoa (e_JobID e)) <$> es)) as [Hin|Hout].
  - apply IH. apply list_elem_of_fmap in Hin as (e2 & -> & ?). eauto.
  - assert (∀ e, e ∈ es → x ≠ Itoa (e_JobID e)) as Hno.
    { intros e2 He2 ->. apply Hout, list_elem_of_fmap. eauto. }
    rewrite !enqueue_entries_payload_other by done.
    apply elem_of_cons in He as [->|He]; [|by destruct (Hno e')].
    subst. simpl. by rewrite !lookup_insert_eq.
Qed.

Lemma enqueue_entries_has_payload es v e : e ∈ es → ∃ e', e' ∈ es ∧ e_JobID e' = e_JobID e ∧
  payloads (enqueue_entries es v) !! Itoa (e_JobID e) = Some (MarshalJob (entry_job e')).
Proof.
  revert v e. induction es as [|e0 es IH]; intros v e He; [by apply not_elem_of_nil in He|].
  change (enqueue_entries (e0 :: es) v) with (enqueue_entries es (q_enqueue (entry_job e0) v)).
  destruct (decide (e_JobID e ∈ e_JobID <$> es)) as [Hin|Hout].
  - apply list_elem_of_fmap in Hin as (e1 & Heq & He1).
    destruct (IH (q_enqueue (entry_job e0) v) e1 He1) as (e' & He' & Hid & Hp). exists e'.
    rewrite Heq. split_and!; [set_solver|done|done].
  - apply elem_of_cons in He as [->|He]; [|destruct Hout; by apply list_elem_of_fmap_2].
    exists e0. split_and!; [set_solver|done|]. rewrite enqueue_entries_payload_other.
    + simpl. by rewrite lookup_insert_eq.
    + intros e He Heq%(inj Itoa). apply Hout. rewrite Heq. by apply list_elem_of_fmap_2.
Qed.

Lemma enqueue_entries_places es v : (∀ e, e ∈ es → Itoa (e_JobID e) ∈ queued v) →
  ready (enqueue_entries es v) = ready v ∧ processing (enqueue_entries es v) = processing v ∧
  delayed (enqueue_entries es v) = delayed v ∧ queued (enqueue_entries es v) = queued v.
Proof.
  unfold enqueue_entries. revert v. induction es as [|e es IH]; intros v Hin; [done|]. simpl.
  assert (queued (q_enqueue (entry_job e) v) = queued v) as Hq.
  { simpl. assert (Itoa (e_JobID e) ∈ queued v) by set_solver. set_solver. }
  destruct (IH (q_enqueue (entry_job e) v)) as (-> & -> & -> & ->).
  - intros e' He'. rewrite Hq. set_solver.
  - rewrite Hq. simpl. rewrite bool_decide_false; [done|]. intros Hno. apply Hno, Hin. set_solver.
Qed.

Lemma enqueue_entries_twice es v :
  enqueue_entries es (enqueue_entries es v) = enqueue_entries es v.
Proof.
  destruct (enqueue_entries_places es (enqueue_entries es v)) as (Hr & Hp & Hd & Hq).
  { intros e He. apply enqueue_entries_queued. right. eauto. }
  assert (payloads (enqueue_entries es (enqueue_entries es v)) = payloads (enqueue_entries es v)) as Hm.
  { apply map_eq. intros x. destruct (decide (x ∈ (λ e, Itoa (e_JobID e)) <$> es)) as [Hin|Hout].
    - apply list_elem_of_fmap in Hin as (e & -> & ?). apply enqueue_entries_payload. eauto.
    - apply enqueue_entries_payload_other. intros e He ->. apply Hout, list_elem_of_fmap. eauto. }
  destruct (enqueue_entries es (enqueue_entries es v)), (enqueue_entries es v). simpl in *. by subst.
Qed.

(** ** Properties *)

(** C8: whatever fails during a pass of the relay, an entry that ends up marked was
    unprocessed before, and its job is delivered: its ID is marked in the queue, its
    payload is the text of a job with that ID, and it is in the ready list, the
    processing list or the delayed set, unless its ID had been marked before the pass
    while the job was in none of the three (what an earlier [Enqueue] leaves that
    failed halfway).  The other entries, the jobs and the runs are as before, and the
    pass takes nothing out of the queue. *)
Theorem relay_marks_only_delivered Q `(HQ : QueueLaws Q) locked (w : world Q)
    (Hinv : qinv (w_q w)) :
  wp (relay locked) w (λ _ w',
    let v := qabs (w_q w) in
    let v' := qabs (w_q w') in
    (∀ k, outbox (w_db w') !! k = outbox (w_db w) !! k ∨
       ∃ o, outbox (w_db w) !! k = Some o ∧ processed o = false ∧
            outbox (w_db w') !! k = Some (mark_processed (w_now w) o) ∧
            let x := Itoa (ob_job_id o) in
            x ∈ queued v' ∧
            (∃ job, payloads v' !! x = Some (MarshalJob job) ∧ j_ID job = ob_job_id o) ∧
            (held v' x ∨ (x ∈ queued v ∧ ¬ held v x))) ∧
    jobs (w_db w') = jobs (w_db w) ∧ runs (w_db w') = runs (w_db w) ∧
    queued v ⊆ queued v' ∧ (∀ x, held v x → held v' x)).
Proof.
  eapply wp_mono; [by apply relay_spec|]. intros r w' [[_ _ (ids & Hd & Hids) [Hq Hh _]] _].
  split_and!; [|by rewrite Hd..|done|done]. intros k. rewrite Hd. unfold marked. simpl.
  rewrite lookup_update_where. case_bool_decide as Hk; [right|left; by destruct (_ !! k)].
  destruct (Hids k Hk) as (o & Ho & Hp & [Hin Htext Hpl]). exists o. by rewrite Ho.
Qed.

(** A pass without failures enqueues the jobs of all unprocessed entries in the
    order of their creation, marks them all, and leaves none unprocessed that it
    could lock. *)
Theorem relay_drains_the_outbox Q `(HQ : QueueLaws Q) locked (w : world Q)
    (Hinv : qinv (w_q w)) (Hrel : reliable w) :
  wp (relay locked) w (λ r w',
    let es := unprocessed_entries locked (w_db w) in
    r = Ok tt ∧
    StronglySorted (λ e e', ∀ o o', outbox (w_db w) !! e_ID e = Some o →
      outbox (w_db w) !! e_ID e' = Some o' → created_at o ≤ created_at o') es ∧
    qabs (w_q w') = foldl (λ v e, q_enqueue (entry_job e) v) (qabs (w_q w)) es ∧
    (∀ e, e ∈ es → Itoa (e_JobID e) ∈ queued (qabs (w_q w'))) ∧
    unprocessed_entries locked (w_db w') = []).
Proof.
  eapply wp_mono; [by apply relay_spec|]. intros r w' [_ Hr].
  destruct (Hr Hrel) as (-> & _ & Hd & Hv). split_and!; [done| |done| |].
  - apply unprocessed_entries_sorted.
  - intros e He. rewrite Hv. apply enqueue_entries_queued. right. eauto.
  - rewrite Hd. apply unprocessed_marked.
Qed.

(** A pass that is repeated, because its transaction was rolled back after the
    jobs were enqueued, adds nothing to the queue. *)
Theorem relay_repeat_adds_nothing Q `(HQ : QueueLaws Q) locked (w : world Q)
    (Hinv : qinv (w_q w)) (Hrel : reliable w) :
  wp (relay locked) w (λ _ w1,
    let again := World (w_db w) [] (w_q w1) [] (w_now w) in
    wp (relay locked) again (λ r w2, r = Ok tt ∧ qabs (w_q w2) = qabs (w_q w1))).
Proof.
  eapply wp_mono; [by apply relay_spec|]. intros r w1 [[Hi _ _ _] Hr].
  destruct (Hr Hrel) as (_ & _ & _ & Hv). cbv zeta.
  eapply wp_mono; [by apply relay_spec|]. intros r2 w2 [_ Hr2].
  destruct (Hr2 (conj eq_refl eq_refl)) as (-> & _ & _ & Hv2). split; [done|].
  rewrite Hv2. cbn [w_db w_q]. rewrite Hv. apply enqueue_entries_twice.
Qed.

(** The relay forgets retries: after a pass without failures the queued payload
    of every delivered job says 0 retries, whatever jobs.retry_count says and whatever
    the queue said before, so a restart gives a retried job its whole budget back. *)
Theorem relay_forgets_retries Q `(HQ : QueueLaws Q) locked (w : world Q) id o j
    (Hinv : qinv (w_q w)) (Hrel : reliable w) (Ho : outbox (w_db w) !! id = Some o)
    (Hp : processed o = false) (Hl : id ∉ locked) (Hj : jobs (w_db w) !! ob_job_id o = Some j) :
  wp (relay locked) w (λ _ w',
    payloads (qabs (w_q w')) !! Itoa (ob_job_id o) =
      Some (MarshalJob (Build_Job (ob_job_id o) 0 (max_retries j) (type j) (payload j))) ∧
    jobs (w_db w') = jobs (w_db w)).
Proof.
  eapply wp_mono; [by apply relay_spec|]. intros r w' [_ Hr].
  destruct (Hr Hrel) as (_ & _ & Hd & Hv). split; [|by rewrite Hd].
  set (e := Build_OutboxEntry id (ob_job_id o) (type j) (payload j) (max_retries j)).
  assert (e ∈ unprocessed_entries locked (w_db w)) as He
    by (apply elem_of_unprocessed_entries; by exists o, j).
  destruct (enqueue_entries_has_payload _ (qabs (w_q w)) e He) as (e' & He' & Hid & Hpay).
  apply elem_of_unprocessed_entries in He' as (o' & j' & _ & _ & _ & Hj' & He').
  rewrite He' in Hid. simpl in Hid. rewrite Hid, Hj in Hj'. simplify_eq.
  rewrite Hv. change (Itoa (ob_job_id o)) with (Itoa (e_JobID e)).
  etrans; [exact Hpay|]. rewrite He'. unfold entry_job. simpl. by rewrite Hid.
Qed.

(** ** Witnesses *)
Definition example_world : world Store :=
  World (Db {[1 := JobRec Pending 2 3 "shell" "{}" None None None]}
            {[1 := OutboxRec 1 false None 4]} ∅ ∅ 2 2 1 1) [] empty_store [] 10.

#[local] Instance jobs_Queue : Queue Store := RedisQueue_ops jobs_queue.
#[local] Instance jobs_QueueLaws : QueueLaws Store := RedisQueue_laws "jobs" 1000000000.

Lemma example_world_inv : qinv (w_q example_world).
Proof. by split. Qed.

Lemma relay_marks_only_delivered_witness :
  wp (relay ∅) (World (w_db example_world) [FOk; FOk; FOk; FLost] empty_store [] 10) (λ _ w',
    jobs (w_db w') = jobs (w_db example_world)).
Proof.
  eapply wp_mono; [apply (relay_marks_only_delivered Store jobs_QueueLaws ∅); exact example_world_inv|].
  intros r w' (_ & Hj & _). exact Hj.
Defined.

Lemma relay_drains_the_outbox_witness :
  (relay (Q := Store) ∅ example_world).1 = Ok tt ∧
  wp (relay ∅) example_world (λ r w', r = Ok tt ∧ unprocessed_entries ∅ (w_db w') = []).
Proof.
  split; [vm_compute; reflexivity|].
  eapply wp_mono; [apply (relay_drains_the_outbox Store jobs_QueueLaws ∅ example_world example_world_inv)|].
  - split; reflexivity.
  - intros r w' (Hr & _ & _ & _ & Hu). split; [exact Hr|exact Hu].
Defined.

Lemma relay_repeat_adds_nothing_witness :
  wp (relay ∅) example_world (λ _ w1,
    wp (relay ∅) (World (w_db example_world) [] (w_q w1) [] 10) (λ r w2,
      r = Ok tt ∧ qabs (w_q w2) = qabs (w_q w1))).
Proof.
  apply (relay_repeat_adds_nothing Store jobs_QueueLaws ∅ example_world example_world_inv).
  split; reflexivity.
Defined.

Lemma relay_forgets_retries_witness :
  wp (relay ∅) example_world (λ _ w',
    payloads (qabs (w_q w')) !! "1" = Some (MarshalJob (Build_Job 1 0 3 "shell" "{}")) ∧
    jobs (w_db w') = jobs (w_db example_world)).
Proof.
  apply (relay_forgets_retries Store jobs_QueueLaws ∅ example_world 1 (OutboxRec 1 false None 4)
    (JobRec Pending 2 3 "shell" "{}" None None None) example_world_inv); try reflexivity; [by split|].
  apply not_elem_of_empty.
Defined.
