(* ===== verification/Service.v ===== *)
(** * The services and the scheduler

    Models internal/service (job_service.go, workflow_service.go) and what the
    callback of internal/scheduler/scheduler.go does on a tick: submitting and
    cancelling jobs, triggering a workflow, and [Advance], which submits the steps
    that a completed step unblocks. *)
From stdpp Require Import gmap strings list fin_maps fin_sets.
From S2P Require Import Prelude Text Json Redis Queue RedisQueue Db Outbox.
From S2P Require Import Workflow.
Open Scope Z_scope.

(** ** Jobs *)
Definition settled (s : job_status) : bool :=
  match s with Completed | Failed | Cancelled => true | _ => false end.

Section services.
Context {Q : Type} `{Queue Q}.

Definition SubmitJob (maxRetries : Z) (jobType payload : string) : M (world Q) (result Z) :=
  on_db (InsertJob maxRetries jobType payload).
Definition svc_GetJob (jobID : Z) : M (world Q) (result JobRow) := on_db (GetJob jobID).
Definition svc_ListJobs (st : string) : M (world Q) (result (list JobRow)) := on_db (ListJobs st).

Definition CancelJob (jobID : Z) : M (world Q) (result unit) :=
  try_bind (on_db (GetJob jobID)) (λ row,
    if settled (r_Status row)
    then mret (Err (ErrNotCancellable jobID (job_status_text (r_Status row))))
    else try_bind (on_db (UpdateJobState jobID Cancelled (r_RetryCount row))) (λ _,
      _ ← on_db (CancelOutboxEntry jobID);
      _ ← on_q (Cancel (Job_of_ID jobID));
      mret (Ok tt))).

(** ** Workflows *)
Variable registry : Registry.

(** The payload of a step; [previous_output] is omitted when it is empty. *)
Definition step_payload (command previousOutput : string) : string :=
  Marshal (JObj (("command", JStr command) ::
    if bool_decide (previousOutput = EmptyString) then []
    else [("previous_output", JStr previousOutput)])).

(** [wf.Steps[stepIndex]] panics out of range; the callers pass indices of steps. *)
Definition submitStep (runID : Z) (stepIndex : nat) (wf : Workflow) (previousOutput : string) :
    M (world Q) (result unit) :=
  match Steps wf !! stepIndex with
  | None => mret (Ok tt)
  | Some step =>
      try_bind (on_db (InsertWorkflowStep runID (Z.of_nat stepIndex) (Retries step)
                        (step_payload (Command step) previousOutput)))
        (λ _, mret (Ok tt))
  end.

(** The loop of [TriggerWorkflow]: the first error ends it. *)
Fixpoint submit_roots (runID : Z) (wf : Workflow) (idxs : list nat) : M (world Q) (result unit) :=
  match idxs with
  | [] => mret (Ok tt)
  | idx :: idxs => try_bind (submitStep runID idx wf EmptyString) (λ _, submit_roots runID wf idxs)
  end.

Definition TriggerWorkflow (name : string) : M (world Q) (result Z) :=
  match Get registry name with
  | None => mret (Err (ErrWorkflowNotFound name))
  | Some wf =>
      let wf := Normalize wf in
      try_bind (on_db (CreateWorkflowRun (Name wf) (Z.of_nat (length (Steps wf))))) (λ runID,
        try_bind (submit_roots runID wf (UnblockedSteps wf ∅ ∅)) (λ _, mret (Ok runID)))
  end.

Definition ListWorkflows : list Workflow := Workflow.List registry.
Definition GetWorkflowStatus (runID : Z) : M (world Q) (result WorkflowRunRow) :=
  on_db (GetWorkflowRun runID).
Definition HasActiveRun (name : string) : M (world Q) (result bool) :=
  on_db (HasActiveWorkflowRun name).
Definition svc_ListWorkflowRuns : M (world Q) (result (list WorkflowRunRow)) := on_db ListWorkflowRuns.
Definition CancelWorkflowRun (runID : Z) : M (world Q) (result unit) :=
  on_db (CancelWorkflowRunAtomic runID).

(** The step a dependency names, by its position. *)
Definition dep_index (wf : Workflow) (depID : string) : option nat :=
  fst <$> list_find (λ s, ID s = depID) (Steps wf).

Definition previousOutputFor (runID : Z) (stepIndex : nat) (wf : Workflow) : M (world Q) string :=
  match Steps wf !! stepIndex with
  | None => mret EmptyString
  | Some step =>
      match deps step with
      | [depID] =>
          match dep_index wf depID with
          | Some i =>
              r ← on_db (GetJobOutputByWorkflowStep runID (Z.of_nat i));
              mret (match r with Ok out => out | Err _ => EmptyString end)
          | None => mret EmptyString
          end
      | _ => mret EmptyString
      end
  end.

(** The loop of [Advance]: an error is logged and the loop goes on. *)
Fixpoint submit_unblocked (runID : Z) (wf : Workflow) (idxs : list nat) : M (world Q) unit :=
  match idxs with
  | [] => mret tt
  | idx :: idxs =>
      prevOutput ← previousOutputFor runID idx wf;
      _ ← submitStep runID idx wf prevOutput;
      submit_unblocked runID wf idxs
  end.

(** Step indices are column values; those below the number of steps are positions. *)
Definition positions (s : gset Z) : gset nat :=
  list_to_set (omap (λ z, if bool_decide (0 ≤ z) then Some (Z.to_nat z) else None) (elements s)).

Definition Advance (runID : Z) : M (world Q) unit :=
  a ← on_db (AdvanceWorkflowRun runID);
  match a with
  | Err _ => mret tt
  | Ok (completedCount, totalSteps, workflowName) =>
      if bool_decide (totalSteps ≤ completedCount) then
        _ ← on_db (CompleteWorkflowRun runID); mret tt
      else match Get registry workflowName with
      | None => _ ← on_db (FailWorkflowRun runID); mret tt
      | Some wf =>
          let wf := Normalize wf in
          c ← on_db (GetCompletedStepIndices runID);
          match c with
          | Err _ => mret tt
          | Ok completedIndices =>
              s ← on_db (GetSubmittedStepIndices runID);
              match s with
              | Err _ => mret tt
              | Ok submitted =>
                  submit_unblocked runID wf
                    (UnblockedSteps wf (ids_of wf (positions completedIndices)) (positions submitted))
              end
          end
      end
  end.

(** ** Scheduler

    The callback registered for a workflow; robfig/cron decides when it runs. *)
Definition scheduler_tick (name : string) : M (world Q) unit :=
  active ← on_db (HasActiveWorkflowRun name);
  match active with
  | Ok false => _ ← TriggerWorkflow name; mret tt
  | _ => mret tt
  end.

(** The workflows [Start] registers a callback for. *)
Definition scheduled : list Workflow :=
  filter (λ wf, Schedule wf ≠ EmptyString) (Workflow.List registry).
End services.

(** ** Lemmas: cancelling a job *)
Ltac fields := cbn [w_db w_db_faults w_q w_q_faults w_now c_data c_faults c_now fst snd] in *.

Lemma has_unprocessed_false d id : has_unprocessed d id = false ↔
  ∀ k o, outbox d !! k = Some o → ob_job_id o = id → processed o = true.
Proof.
  rewrite <-not_true_iff_false, has_unprocessed_spec. split.
  - intros Hno k o Hk Hid. destruct (processed o) eqn:Hp; [done|]. destruct Hno. by exists k, o.
  - intros Hall (k & o & Hk & Hid & Hp). rewrite (Hall k o Hk Hid) in Hp. done.
Qed.

Lemma outbox_cancelled now id d :
  has_unprocessed (set_outbox (update_where (λ _, unprocessed_for id) (mark_processed now)) d) id = false.
Proof.
  apply has_unprocessed_false. simpl. intros k o. rewrite lookup_update_where, fmap_Some.
  intros (o0 & _ & ->) Hid. destruct (unprocessed_for id o0) eqn:Hu; [done|].
  unfold unprocessed_for in Hu. rewrite bool_decide_true in Hu by done. by destruct (processed o0).
Qed.

Section cancel.
Context {Q : Type} `{QueueLaws Q}.

(** What a successful cancellation leaves. *)
Record job_cancelled (jobID : Z) (w w' : world Q) : Prop := {
  jc_status : ∃ j, jobs (w_db w') !! jobID = Some j ∧ status j = Cancelled;
  jc_others : ∀ id, id ≠ jobID → jobs (w_db w') !! id = jobs (w_db w) !! id;
  jc_inv : qinv (w_q w');
  jc_runs : runs (w_db w') = runs (w_db w);
}.

Lemma CancelJob_spec jobID w : qinv (w_q w) → db_ok (w_db w) →
  wp (CancelJob jobID) w (λ r w',
    (is_ok r = true → job_cancelled jobID w w') ∧
    (match jobs (w_db w) !! jobID with Some j => settled (status j) | None => true end = true →
       is_ok r = false ∧ w_db w' = w_db w ∧ w_q w' = w_q w) ∧
    (reliable w → ∀ j, jobs (w_db w) !! jobID = Some j → settled (status j) = false →
       r = Ok tt ∧ has_unprocessed (w_db w') jobID = false ∧
       qabs (w_q w') = q_cancel jobID (qabs (w_q w)))).
Proof.
  intros Hq Hd. unfold CancelJob.
  apply wp_try_bind, wp_db_read.
  2:{ intros fs Hne. split_and!; try done. intros [? _]. done. }
  intros fs Hfs. destruct (jobs (w_db w) !! jobID) as [j|] eqn:Hj; [|by split_and!].
  cbn [row_of r_Status r_RetryCount]. destruct (settled (status j)) eqn:Hs.
  { apply wp_ret. split_and!; try done. intros _ j' [= <-]. congruence. }
  assert (in_int32 (retry_count j) && (bool_decide (0 ≤ retry_count j) ||
    bool_decide (jobs (w_db w) !! jobID = None)) = true) as Hok.
  { destruct (ok_jobs _ Hd _ _ Hj) as [_ Hr _ _ _ _]. apply andb_true_iff. split.
    - apply in_int32_spec. lia. - rewrite bool_decide_true by lia. done. }
  set (d1 := set_jobs (update_where (by_id jobID) (λ j0, set_retry (retry_count j) (set_status Cancelled j0))) (w_db w)).
  apply wp_try_bind, wp_db_call; fields; rewrite ?Hok; fields.
  2,3: (intros fs1 Hne; split_and!; try done; intros [Hf _]; destruct Hne; by apply Hfs).
  intros fs1 Hfs1.
  (* The two calls whose errors are ignored change nothing of the jobs. *)
  apply wp_bind, wp_db_call; fields; fold d1; intros fs2 Hfs2;
    (apply wp_bind; eapply wp_queue; [apply Cancel_law|exact Hq|]); fields;
    intros a q' fs3 Hq' Hspec Hf; apply wp_ret; fields; (split; [intros _|split; [done|]]).
  1,3,5: split; fields; simpl; try done.
  1,3,5: exists (set_retry (retry_count j) (set_status Cancelled j));
    rewrite lookup_update_where, Hj; unfold by_id; simpl; by rewrite bool_decide_true.
  1-3: intros id Hid; rewrite lookup_update_where; unfold by_id; rewrite bool_decide_false by done;
    by destruct (_ !! id).
  - intros [Hdf Hqf] _ _ _. split; [done|]. split; [apply outbox_cancelled|].
    destruct (Hf Hqf) as [Ha _]. destruct a; [exact Hspec|done].
  - intros [Hdf _]. destruct Hfs2. auto.
  - intros [Hdf _]. destruct Hfs2. auto.
Qed.
End cancel.

(** ** Lemmas: submitting steps *)

(** The text of a step payload can always be stored. *)
Definition storable (r : rune) : Prop := good r ∧ has_NUL (rune_bytes r) = false.

Lemma has_NUL_app s t : has_NUL (s +:+ t) = has_NUL s || has_NUL t.
Proof. induction s as [|c s IH]; [done|]. simpl. rewrite IH. by rewrite orb_assoc. Qed.

Lemma storable_text l : Forall storable l → text_ok (flatten l) = true.
Proof.
  intros Hl. unfold text_ok. apply andb_true_iff. split.
  - unfold ValidString. rewrite runes_flatten by (eapply Forall_impl; [done|]; by intros r [? _]).
    apply forallb_forall. intros r Hr%list_elem_of_In. rewrite Forall_forall in Hl.
    destruct (Hl r Hr) as [Hg _]. by destruct Hg.
  - apply negb_true_iff. induction Hl as [|r l [_ Hr] _ IH]; [done|]. cbn [flatten].
    by rewrite has_NUL_app, Hr, IH.
Qed.

Lemma ascii_storable c : ascii_byte c = true → c ≠ Ascii.zero → storable (A c).
Proof.
  intros Hc Hz. split; [by constructor|]. simpl. by rewrite bool_decide_false.
Qed.

Lemma high_not_NUL c : ascii_byte c = false → bool_decide (c = Ascii.zero) = false.
Proof. intros Hc. apply bool_decide_false. by intros ->. Qed.

Lemma wide_storable b : good (U b) → storable (U b).
Proof.
  intros Hg. split; [done|]. inversion Hg; subst; simpl; unfold str2, str3, str4; simpl;
    rewrite !high_not_NUL; try done; byte_ranges.
Qed.

Lemma quote_rune_storable r : good r ∨ (∃ c, r = Bad c) → Forall storable (quote_rune r).
Proof.
  intros [Hr|[c ->]]; [|repeat (constructor; [by apply ascii_storable|]); constructor].
  destruct r as [c|b|c]; [inversion Hr as [? Hc| | |]; subst| |inversion Hr].
  - destruct c as [[] [] [] [] [] [] [] []]; first [discriminate Hc |
      cbn; repeat (constructor; [by apply ascii_storable|]); constructor].
  - unfold quote_rune. repeat case_bool_decide;
      [repeat (constructor; [by apply ascii_storable|]); constructor..|].
    constructor; [by apply wide_storable|constructor].
Qed.

Lemma quote_storable s : Forall storable (quote s).
Proof.
  unfold quote. constructor; [by apply ascii_storable|]. apply Forall_app.
  split; [|constructor; [by apply ascii_storable|constructor]].
  induction (runes_classified s) as [|r l Hr _ IH]; [constructor|].
  rewrite fmap_cons. cbn [concat]. apply Forall_app. split; [by apply quote_rune_storable|done].
Qed.

Lemma step_payload_ok command prev : text_ok (step_payload command prev) = true.
Proof.
  assert (storable (chr 123%N) ∧ storable (chr 125%N) ∧ storable (chr 58%N) ∧ storable (chr 44%N))
    as (H1 & H2 & H3 & H4) by (split_and!; by apply ascii_storable).
  apply storable_text. unfold step_payload. case_bool_decide; cbn [print fmap list_fmap sep_by app].
  - constructor; [done|]. apply Forall_app. split; [|by constructor].
    apply Forall_app. split; [apply quote_storable|]. constructor; [done|]. apply quote_storable.
  - constructor; [done|]. rewrite !Forall_app, !Forall_cons, !Forall_app, Forall_cons.
    split_and!; try done; apply quote_storable.
Qed.

(** The step a step with one dependency takes its input from, and that input. *)
Definition single_dep (wf : Workflow) (idx : nat) : option nat :=
  match Steps wf !! idx with
  | Some step => match deps step with [d] => dep_index wf d | _ => None end
  | None => None
  end.
Definition prev_of (d : db) (runID : Z) (wf : Workflow) (idx : nat) (prev : string) : Prop :=
  ∃ i id j, single_dep wf idx = Some i ∧ jobs d !! id = Some j ∧
    completed_step runID (Z.of_nat i) id j = true ∧ prev = default EmptyString (output j).

(** Submitting steps [idxs] of a run: nothing old changes, and every new job is the
    fresh, pending job of one of the steps, which had none, with an outbox entry. *)
Record steps_added (ok : nat → string → Prop) (runID : Z) (wf : Workflow) (idxs : list nat)
    (d d' : db) : Prop := {
  sa_ok : db_ok d → db_ok d';
  sa_runs : runs d' = runs d;
  sa_jobs : jobs d ⊆ jobs d';
  sa_outbox : outbox d ⊆ outbox d';
  sa_new : ∀ id j, jobs d' !! id = Some j → jobs d !! id = Some j ∨
    ∃ idx step prev, idx ∈ idxs ∧ Steps wf !! idx = Some step ∧
      ¬ has_step runID (Z.of_nat idx) d ∧ ok idx prev ∧ has_unprocessed d' id = true ∧
      j = new_step runID (Z.of_nat idx) (Retries step) (step_payload (Command step) prev);
}.

Lemma has_step_mono run step d d' : jobs d ⊆ jobs d' → has_step run step d → has_step run step d'.
Proof. intros Hj (i & j & Hi & Hs). exists i, j. split; [by eapply lookup_weaken|done]. Qed.
Lemma has_unprocessed_mono d d' id : outbox d ⊆ outbox d' →
  has_unprocessed d id = true → has_unprocessed d' id = true.
Proof.
  rewrite !has_unprocessed_spec. intros Ho (k & o & Hk & ?). exists k, o.
  split; [by eapply lookup_weaken|done].
Qed.

Lemma steps_added_same ok runID wf idxs d d' : (db_ok d → db_ok d') → same_tables d d' →
  steps_added ok runID wf idxs d d'.
Proof. intros Hok (Hj & Ho & Hr & _). split; rewrite ?Hj, ?Ho, ?Hr; auto. Qed.

Lemma steps_added_trans ok runID wf l1 l2 d d1 d2 :
  steps_added ok runID wf l1 d d1 → steps_added ok runID wf l2 d1 d2 →
  steps_added ok runID wf (l1 ++ l2) d d2.
Proof.
  intros [A1 A2 A3 A4 A5] [B1 B2 B3 B4 B5]. split.
  - auto.
  - congruence.
  - by etrans.
  - by etrans.
  - intros id j [Hj|(idx & step & prev & Hi & Hs & Hno & Hp & Hu & ->)]%B5.
    + apply A5 in Hj as [?|(idx & step & prev & Hi & Hs & Hno & Hp & Hu & ->)]; [by left|right].
      exists idx, step, prev. split_and!; try done; [set_solver|by eapply has_unprocessed_mono].
    + right. exists idx, step, prev. split_and!; try done; [set_solver|].
      intros Hhas. by apply Hno, (has_step_mono _ _ d).
Qed.

Lemma steps_added_mono (ok : nat → string → Prop) runID wf l l' d d' : l ⊆ l' →
  steps_added ok runID wf l d d' → steps_added ok runID wf l' d d'.
Proof.
  intros Hl [A1 A2 A3 A4 A5]. split; try done.
  intros id j [Hj|(idx & step & prev & Hi & ?)]%A5; [by left|right].
  exists idx, step, prev. set_solver.
Qed.

Lemma step_outcome_added ok runID wf idx step prev now d r d' :
  step_outcome now runID (Z.of_nat idx)
    (new_step runID (Z.of_nat idx) (Retries step) (step_payload (Command step) prev)) d r d' →
  Steps wf !! idx = Some step → ok idx prev → db_ok d' →
  steps_added ok runID wf [idx] d d' ∧ (is_ok r = true → has_step runID (Z.of_nat idx) d').
Proof.
  set (j := new_step _ _ _ _). intros Hout Hstep Hok Hd'.
  assert (∀ id, ¬ has_step runID (Z.of_nat idx) d → job_inserted now j d id d' →
    steps_added ok runID wf [idx] d d' ∧ has_step runID (Z.of_nat idx) d') as Hins.
  { intros id Hno (Hfree & Hjobs & Hruns & _ & oid & Hofree & Hout'). split.
    - split; [done|done|rewrite Hjobs; by apply insert_subseteq|rewrite Hout'; by apply insert_subseteq|].
      intros id' j'. rewrite Hjobs. intros [[<- <-]|[_ ?]]%lookup_insert_Some; [right|by left].
      exists idx, step, prev. split_and!; try done; [set_solver|].
      apply has_unprocessed_spec. exists oid, (OutboxRec id false None now).
      by rewrite Hout', lookup_insert_eq.
    - exists id, j. rewrite Hjobs, lookup_insert_eq. split; [done|]. unfold same_step.
      by rewrite !bool_decide_true. }
  destruct r as [id|e]; simpl in Hout.
  - destruct Hout as [(-> & Hhas & Hsame)|(Hno & _ & Hi)].
    + split; [by apply steps_added_same|]. intros _. destruct Hsame as (Hj & _).
      unfold has_step. by rewrite Hj.
    + destruct (Hins id Hno Hi) as [? ?]. by split.
  - destruct Hout as [Hsame|(Hno & id & Hi)]; [by split; [apply steps_added_same|]|].
    destruct (Hins id Hno Hi) as [? ?]. by split.
Qed.

Section steps.
Context {Q : Type} `{Queue Q}.
Implicit Types (w : world Q).

(** The database takes the step: its retries fit the column and its run exists. *)
Definition insertable (runID : Z) (wf : Workflow) (idx : nat) (d : db) : Prop :=
  (∀ step, Steps wf !! idx = Some step → 0 ≤ Retries step < 2 ^ 31) ∧
  Z.of_nat idx < 2 ^ 31 ∧ is_Some (runs d !! runID).

Lemma wp_submitStep ok runID idx wf prev w (P : result unit → world Q → Prop) :
  db_ok (w_db w) → ok idx prev →
  (∀ r d' fs, db_ok d' → steps_added ok runID wf [idx] (w_db w) d' →
     (w_db_faults w = [] → fs = [] ∧ (insertable runID wf idx (w_db w) → r = Ok tt)) →
     (r = Ok tt → is_Some (Steps wf !! idx) → has_step runID (Z.of_nat idx) d') →
     P r (World d' fs (w_q w) (w_q_faults w) (w_now w))) →
  wp (submitStep runID idx wf prev) w P.
Proof.
  intros Hd Hok HP. unfold submitStep. destruct (Steps wf !! idx) as [step|] eqn:Hstep.
  2:{ apply wp_ret. destruct w. apply HP; try done; try (by intros _ [? [=]]). by apply steps_added_same. }
  set (c := Conn (w_db w) (w_db_faults w) (w_now w)).
  pose proof (InsertWorkflowStep_ok runID (Z.of_nat idx) (Retries step) (step_payload (Command step) prev) c Hd) as Hd'.
  pose proof (InsertWorkflowStep_spec runID (Z.of_nat idx) (Retries step) (step_payload (Command step) prev) c Hd)
    as (Hout & Hnow & Hrel).
  apply wp_try_bind, wp_on_db. fold c. unfold wp in *.
  destruct (InsertWorkflowStep _ _ _ _ c) as [r c']. cbn [fst snd] in *.
  destruct (step_outcome_added ok runID wf idx step prev _ _ _ _ Hout Hstep Hok Hd') as [Hadd Hhas].
  assert (w_db_faults w = [] → c_faults c' = [] ∧ (insertable runID wf idx (w_db w) → is_ok r = true)) as Hr.
  { intros Hf. destruct (Hrel Hf) as [? Hgood]. split; [done|]. intros (Hret & Hidx & Hrun).
    specialize (Hret step Hstep). apply Hgood; [lia| |apply in_int32_spec; lia|done].
    unfold params_ok. simpl. rewrite step_payload_ok.
    rewrite (proj2 (in_int32_spec (Retries step))) by lia. done. }
  destruct r as [id|e]; simpl; apply HP; try done.
  - intros Hf. destruct (Hr Hf). auto.
  - intros _ _. by apply Hhas.
  - intros Hf. destruct (Hr Hf) as [? Hgood]. split; [done|]. by intros ?%Hgood.
Qed.

Lemma wp_previousOutputFor runID idx wf w (P : string → world Q → Prop) :
  (∀ prev fs, (w_db_faults w = [] → fs = []) →
     (prev_of (w_db w) runID wf idx prev ∨
      (prev = EmptyString ∧ (w_db_faults w ≠ [] ∨ ∀ p, ¬ prev_of (w_db w) runID wf idx p))) →
     P prev (World (w_db w) fs (w_q w) (w_q_faults w) (w_now w))) →
  wp (previousOutputFor runID idx wf) w P.
Proof.
  intros HP. unfold previousOutputFor.
  assert (single_dep wf idx = None → P EmptyString w) as Hnone.
  { intros Hs. destruct w. apply HP; [done|]. right. split; [done|]. right.
    intros p (i & id & j & Hi & _). simpl in *. congruence. }
  unfold single_dep in Hnone. destruct (Steps wf !! idx) as [step|] eqn:Hstep; [|by apply wp_ret, Hnone].
  destruct (deps step) as [|dep [|? ?]] eqn:Hdeps; [by apply wp_ret, Hnone| |by apply wp_ret, Hnone].
  destruct (dep_index wf dep) as [i|] eqn:Hi; [|by apply wp_ret, Hnone].
  assert (single_dep wf idx = Some i) as Hsd by (unfold single_dep; by rewrite Hstep, Hdeps).
  unfold GetJobOutputByWorkflowStep.
  apply wp_bind, (wp_db_read (λ _ d, match select_desc (completed_step runID (Z.of_nat i)) (jobs d) with
    | (_, j) :: _ => Ok (default EmptyString (output j)) | [] => Err ErrNoRows end)).
  - intros fs Hfs. apply wp_ret, HP; [done|].
    destruct (select_desc _ _) as [|[id j] l] eqn:Hsel.
    + right. split; [done|]. right. intros p (i' & id & j & Hi' & Hj & Hc & _).
      assert (i' = i) as -> by congruence.
      assert ((id, j) ∈ select_desc (completed_step runID (Z.of_nat i)) (jobs (w_db w))) as Hin
        by (by apply elem_of_select_desc).
      rewrite Hsel in Hin. by apply not_elem_of_nil in Hin.
    + left. assert ((id, j) ∈ select_desc (completed_step runID (Z.of_nat i)) (jobs (w_db w)))
        as [Hj Hc]%elem_of_select_desc by (rewrite Hsel; set_solver).
      by exists i, id, j.
  - intros fs Hne. apply wp_ret, HP; [done|]. right. auto.
Qed.
End steps.

Lemma prev_of_added ok runID wf l d d' idx p : steps_added ok runID wf l d d' →
  prev_of d' runID wf idx p ↔ prev_of d runID wf idx p.
Proof.
  intros [_ _ Hj _ Hnew]. split; intros (i & id & j & Hi & Hid & Hc & ->); exists i, id, j; split_and!; try done.
  - destruct (Hnew id j Hid) as [?|(idx' & step & prev & _ & _ & _ & _ & _ & ->)]; [done|].
    unfold completed_step in Hc. simpl in Hc. by rewrite andb_false_r in Hc.
  - by eapply lookup_weaken.
Qed.

Section loops.
Context {Q : Type} `{Queue Q}.
Implicit Types (w : world Q).

(** The input of a step: its dependency's output, or nothing when there is none, or
    when it cannot be read. *)
Definition input_ok (d : db) (faulty : Prop) (runID : Z) (wf : Workflow) (idx : nat) (prev : string) : Prop :=
  prev_of d runID wf idx prev ∨
  (prev = EmptyString ∧ (faulty ∨ ∀ p, ¬ prev_of d runID wf idx p)).

(** The loops only change the tables. *)
Record only_db w w' : Prop := {
  od_q : w_q w' = w_q w;
  od_q_faults : w_q_faults w' = w_q_faults w;
  od_now : w_now w' = w_now w;
  od_faults : w_db_faults w = [] → w_db_faults w' = [];
}.

Lemma only_db_trans w1 w2 w3 : only_db w1 w2 → only_db w2 w3 → only_db w1 w3.
Proof. intros [] []. split; [congruence..|auto]. Qed.

Lemma insertable_runs runID wf idx d d' : runs d' = runs d →
  insertable runID wf idx d → insertable runID wf idx d'.
Proof. unfold insertable. by intros ->. Qed.

Lemma insertable_runs_some runID wf idx d d' : (∀ id, is_Some (runs d' !! id) ↔ is_Some (runs d !! id)) →
  insertable runID wf idx d → insertable runID wf idx d'.
Proof. unfold insertable. intros Hr (? & ? & ?). split_and!; try done. by apply Hr. Qed.

Lemma submit_unblocked_spec runID wf d0 (faulty : Prop) idxs w :
  db_ok (w_db w) → (∀ idx p, prev_of (w_db w) runID wf idx p ↔ prev_of d0 runID wf idx p) →
  (w_db_faults w ≠ [] → faulty) →
  wp (submit_unblocked runID wf idxs) w (λ _ w',
    only_db w w' ∧ db_ok (w_db w') ∧
    steps_added (input_ok d0 faulty runID wf) runID wf idxs (w_db w) (w_db w') ∧
    (w_db_faults w = [] → ∀ idx, idx ∈ idxs → is_Some (Steps wf !! idx) →
       insertable runID wf idx (w_db w) → has_step runID (Z.of_nat idx) (w_db w'))).
Proof.
  revert w. induction idxs as [|idx idxs IH]; intros w Hd Hprev Hfaulty; cbn [submit_unblocked].
  { apply wp_ret. split_and!; try done; [by apply steps_added_same|].
    by intros _ ? ?%not_elem_of_nil. }
  apply wp_bind, wp_previousOutputFor. intros prev fs Hfs Hinput.
  apply wp_bind, (wp_submitStep (input_ok d0 faulty runID wf)); fields; [done| |].
  { destruct Hinput as [Hp|[-> Hno]]; [left; by apply Hprev|right]. split; [done|].
    destruct Hno as [?|Hno]; [left; auto|right]. intros p Hp. by eapply Hno, Hprev. }
  intros r d1 fs1 Hd1 Hadd Hrel Hhas.
  eapply wp_mono; [apply IH; fields; [done| |]|].
  - intros idx' p. by rewrite (prev_of_added _ _ _ _ _ _ _ _ Hadd).
  - intros Hne. apply Hfaulty. intros Hf. destruct Hne. by apply Hrel, Hfs.
  - intros [] w' ([Hq Hqf Hn Hf] & Hd' & Hadd' & Hall). fields. split_and!; try done.
    + split; try done. intros Hf0. apply Hf, Hrel, Hfs, Hf0.
    + by apply (steps_added_trans _ _ _ [idx] idxs _ d1).
    + intros Hf0 idx' [->|Hin]%elem_of_cons Hsome Hins.
      * destruct (Hrel (Hfs Hf0)) as [_ Hok]. eapply (has_step_mono _ _ d1); [by apply Hadd'|].
        by apply Hhas; [apply Hok|].
      * apply Hall; try done; [by apply Hrel, Hfs|]. eapply insertable_runs; [|done]. by apply Hadd.
Qed.

Lemma submit_roots_spec runID wf idxs w : db_ok (w_db w) →
  wp (submit_roots runID wf idxs) w (λ r w',
    only_db w w' ∧ db_ok (w_db w') ∧
    steps_added (λ _ prev, prev = EmptyString) runID wf idxs (w_db w) (w_db w') ∧
    (r = Ok tt → ∀ idx, idx ∈ idxs → is_Some (Steps wf !! idx) →
       has_step runID (Z.of_nat idx) (w_db w')) ∧
    (w_db_faults w = [] → (∀ idx, idx ∈ idxs → insertable runID wf idx (w_db w)) → r = Ok tt)).
Proof.
  revert w. induction idxs as [|idx idxs IH]; intros w Hd; cbn [submit_roots].
  { apply wp_ret. split_and!; try done; [by apply steps_added_same|].
    by intros _ ? ?%not_elem_of_nil. }
  apply wp_try_bind, (wp_submitStep (λ _ prev, prev = EmptyString)); [done..|].
  intros r d1 fs1 Hd1 Hadd Hrel Hhas. destruct r as [[]|e].
  - eapply wp_mono; [by apply IH|]. intros r w' ([Hq Hqf Hn Hf] & Hd' & Hadd' & Hall & Hok). fields.
    split_and!; try done.
    + split; try done. intros Hf0. by apply Hf, Hrel.
    + by apply (steps_added_trans _ _ _ [idx] idxs _ d1).
    + intros Hr idx' [->|Hin]%elem_of_cons Hsome; [|by apply Hall].
      eapply (has_step_mono _ _ d1); [by apply Hadd'|]. by apply Hhas.
    + intros Hf0 Hins. apply Hok; [by apply Hrel|]. intros idx' Hin.
      eapply insertable_runs; [by apply Hadd|]. apply Hins. set_solver.
  - split_and!; fields; try done.
    + split; try done. intros Hf0. by apply Hrel.
    + eapply steps_added_mono; [|done]. set_solver.
    + intros Hf0 Hins. apply Hrel; [done|]. apply Hins. set_solver.
Qed.
End loops.

(** ** Lemmas: which steps Advance submits *)
Definition step_done (d : db) (runID : Z) (i : nat) : Prop :=
  ∃ id j, jobs d !! id = Some j ∧ completed_step runID (Z.of_nat i) id j = true.

(** A step without a job whose dependencies are all completed. *)
Definition runnable (d : db) (runID : Z) (wf : Workflow) (idx : nat) : Prop :=
  ∃ step, Steps wf !! idx = Some step ∧ ¬ has_step runID (Z.of_nat idx) d ∧
    ∀ dep, dep ∈ deps step → ∃ i s, Steps wf !! i = Some s ∧ ID s = dep ∧ step_done d runID i.

Lemma elem_of_positions s i : i ∈ positions s ↔ Z.of_nat i ∈ s.
Proof.
  unfold positions. rewrite elem_of_list_to_set, list_elem_of_omap. split.
  - intros (z & Hz%elem_of_elements & Hi). case_bool_decide; simplify_eq. by rewrite Z2Nat.id.
  - intros Hi. exists (Z.of_nat i). rewrite elem_of_elements, bool_decide_true, Nat2Z.id by lia. done.
Qed.

Lemma unblocked_runnable d runID wf idx :
  idx ∈ UnblockedSteps wf
    (ids_of wf (positions (step_indices (λ j, bool_decide (status j = Completed)) runID d)))
    (positions (step_indices (λ _, true) runID d)) ↔ runnable d runID wf idx.
Proof.
  rewrite elem_of_UnblockedSteps. unfold runnable.
  assert (idx ∈ positions (step_indices (λ _, true) runID d) ↔ has_step runID (Z.of_nat idx) d) as Hsub.
  { rewrite elem_of_positions, elem_of_step_indices. unfold has_step, same_step.
    setoid_rewrite andb_true_iff. setoid_rewrite bool_decide_eq_true. naive_solver. }
  setoid_rewrite Hsub. setoid_rewrite elem_of_ids_of. unfold step_done.
  setoid_rewrite elem_of_positions. setoid_rewrite elem_of_step_indices.
  unfold completed_step. setoid_rewrite andb_true_iff. setoid_rewrite andb_true_iff.
  setoid_rewrite bool_decide_eq_true. naive_solver.
Qed.

(** The run a step belongs to is active. *)
Definition active_run (d : db) (runID : Z) : option run_rec :=
  match runs d !! runID with
  | Some r => if bool_decide (run_state r = RunRunning) then Some r else None
  | None => None
  end.

Section advance.
Context {Q : Type} `{Queue Q}.
Variable registry : Registry.
Implicit Types (w : world Q).

(** What [Advance] may have done, whatever failed on the way. *)
(** Runs stay, under the workflow they were created for. *)
Definition names_kept (d d' : db) : Prop := ∀ id r, runs d !! id = Some r →
  ∃ r', runs d' !! id = Some r' ∧ workflow_name r' = workflow_name r.

Lemma names_kept_update d d' p f : (∀ r, workflow_name (f r) = workflow_name r) →
  runs d' = update_where p f (runs d) → names_kept d d'.
Proof.
  intros Hf Hd id r Hr. rewrite Hd, lookup_update_where, Hr. eexists. split; [done|]. by destruct (p id r).
Qed.
Lemma names_kept_trans d1 d2 d3 : names_kept d1 d2 → names_kept d2 d3 → names_kept d1 d3.
Proof.
  intros H1 H2 id r Hr. destruct (H1 id r Hr) as (r1 & Hr1 & <-). by apply H2.
Qed.

Record advanced (runID : Z) w w' : Prop := {
  av_only : only_db w w';
  av_jobs : jobs (w_db w) ⊆ jobs (w_db w');
  av_outbox : outbox (w_db w) ⊆ outbox (w_db w');
  av_runs : ∀ id, id ≠ runID → runs (w_db w') !! id = runs (w_db w) !! id;
  av_names : names_kept (w_db w) (w_db w');
  av_idle : active_run (w_db w) runID = None → w_db w' = w_db w;
  av_new : ∀ id j, jobs (w_db w') !! id = Some j → jobs (w_db w) !! id = Some j ∨
    ∃ r wf idx step prev,
      active_run (w_db w) runID = Some r ∧ Get registry (workflow_name r) = Some wf ∧
      runnable (w_db w) runID (Normalize wf) idx ∧ Steps (Normalize wf) !! idx = Some step ∧
      input_ok (w_db w) (w_db_faults w ≠ []) runID (Normalize wf) idx prev ∧
      has_unprocessed (w_db w') id = true ∧
      j = new_step runID (Z.of_nat idx) (Retries step) (step_payload (Command step) prev);
}.

(** Where the run is after a step was counted. *)
Definition next_state (r : run_rec) : run_status :=
  if bool_decide (total_steps r ≤ current_step r + 1) then RunCompleted
  else match Get registry (workflow_name r) with Some _ => RunRunning | None => RunFailed end.

(** What it does when nothing fails. *)
Record advanced_fully (runID : Z) (r : run_rec) w w' : Prop := {
  af_run : runs (w_db w') !! runID = Some (set_current_step (current_step r + 1) (set_run_state (next_state r) r));
  af_stop : next_state r ≠ RunRunning → jobs (w_db w') = jobs (w_db w);
  af_steps : next_state r = RunRunning → ∀ wf idx, Get registry (workflow_name r) = Some wf →
    runnable (w_db w) runID (Normalize wf) idx → insertable runID (Normalize wf) idx (w_db w) →
    has_step runID (Z.of_nat idx) (w_db w');
}.

Lemma advanced_runs_only runID w w' : only_db w w' → active_run (w_db w) runID ≠ None →
  jobs (w_db w') = jobs (w_db w) → outbox (w_db w') = outbox (w_db w) →
  (∀ id, id ≠ runID → runs (w_db w') !! id = runs (w_db w) !! id) → names_kept (w_db w) (w_db w') →
  advanced runID w w'.
Proof. intros Ho Ha Hj Hob Hr Hn. split; rewrite ?Hj, ?Hob; auto; by intros. Qed.

Lemma lookup_update_other {A} id i (f : A → A) (m : gmap Z A) : i ≠ id →
  update_where (by_id id) f m !! i = m !! i.
Proof.
  intros Hi. rewrite lookup_update_where. unfold by_id. rewrite bool_decide_false by done.
  by destruct (m !! i).
Qed.
Lemma lookup_update_id {A} id (f : A → A) (m : gmap Z A) :
  update_where (by_id id) f m !! id = f <$> m !! id.
Proof. rewrite lookup_update_where. unfold by_id. by rewrite bool_decide_true. Qed.

Lemma active_run_Some d runID r : active_run d runID = Some r ↔
  runs d !! runID = Some r ∧ run_state r = RunRunning.
Proof.
  unfold active_run. destruct (runs d !! runID) as [r'|]; [|naive_solver].
  case_bool_decide; naive_solver.
Qed.

(** The last call of a branch: it changes the state of the run. *)
Lemma wp_run_state runID st (f : Z → M (conn db) (result unit)) r w w1 (P : unit → world Q → Prop) :
  (f = CompleteWorkflowRun ∧ st = RunCompleted) ∨ (f = FailWorkflowRun ∧ st = RunFailed) →
  active_run (w_db w) runID = Some r → only_db w w1 →
  w_db w1 = set_runs (update_where (by_id runID) (set_current_step (current_step r + 1))) (w_db w) →
  (∀ w', advanced runID w w' → db_ok (w_db w) → db_ok (w_db w') → 
     (w_db_faults w = [] → runs (w_db w') !! runID = Some (set_current_step (current_step r + 1) (set_run_state st r)) ∧
        jobs (w_db w') = jobs (w_db w)) → P tt w') → db_ok (w_db w) →
  wp (_ ← on_db (f runID); mret tt) w1 P.
Proof.
  intros Hf Hact Honly Hd1 HP Hd.
  assert (active_run (w_db w) runID ≠ None) as Hne by congruence.
  apply active_run_Some in Hact as [Hr Hst].
  assert (∀ fs (w' := World (set_runs (update_where (by_id runID) (set_run_state st)) (w_db w1))
             fs (w_q w1) (w_q_faults w1) (w_now w1)),
    (w_db_faults w = [] → fs = []) → advanced runID w w' ∧ db_ok (w_db w') ∧
     runs (w_db w') !! runID = Some (set_current_step (current_step r + 1) (set_run_state st r)) ∧
     jobs (w_db w') = jobs (w_db w)) as Hdone.
  { intros fs w' Hfs. destruct Honly as [Hq Hqf Hn Hdf]. split_and!.
    - apply advanced_runs_only; subst w'; fields; rewrite ?Hd1; simpl; try done.
      + intros id Hid. by rewrite !lookup_update_other.
      + eapply (names_kept_trans _ (w_db w1));
          [eapply (names_kept_update _ _ (by_id runID) (set_current_step (current_step r + 1)))|
           eapply (names_kept_update _ _ (by_id runID) (set_run_state st))]; rewrite ?Hd1; done.
    - subst w'. fields. rewrite Hd1. by apply db_ok_update_runs, db_ok_update_runs.
    - subst w'. fields. rewrite Hd1. simpl. rewrite !lookup_update_id, Hr. done.
    - subst w'. fields. by rewrite Hd1. }
  assert (∀ fs (w' := World (w_db w1) fs (w_q w1) (w_q_faults w1) (w_now w1)),
    (w_db_faults w = [] → fs = []) → advanced runID w w' ∧ db_ok (w_db w')) as Hnone.
  { intros fs w' Hfs. destruct Honly as [Hq Hqf Hn Hdf]. split.
    - apply advanced_runs_only; subst w'; fields; rewrite ?Hd1; simpl; try done.
      + intros id Hid. by rewrite !lookup_update_other.
      + by eapply (names_kept_update _ _ (by_id runID) (set_current_step (current_step r + 1))).
    - subst w'. fields. rewrite Hd1. by apply db_ok_update_runs. }
  pose proof (od_faults _ _ Honly) as Hf1.
  apply wp_bind. destruct Hf as [[-> ->]|[-> ->]]; apply wp_db_call; intros fs Hfs; apply wp_ret; fields.
  1,4: destruct (Hdone fs) as (? & ? & ? & ?); [by auto|]; by apply HP.
  1,3: destruct (Hnone fs) as (? & ?); [by intros ?%Hf1|]; apply HP; [done..|];
       intros Hw; by destruct Hfs; apply Hf1.
  1,2: destruct (Hdone fs) as (? & ? & ? & ?); [by intros ?%Hf1|]; by apply HP.
Qed.

Lemma prev_of_jobs d d' runID wf idx p : jobs d' = jobs d →
  prev_of d' runID wf idx p ↔ prev_of d runID wf idx p.
Proof. unfold prev_of. by intros ->. Qed.

Lemma Advance_spec runID w : db_ok (w_db w) →
  wp (Advance registry runID) w (λ _ w', advanced runID w w' ∧ db_ok (w_db w') ∧
    (w_db_faults w = [] → ∀ r, active_run (w_db w) runID = Some r →
       in_int32 (current_step r + 1) = true → advanced_fully runID r w w')).
Proof.
  intros Hd.
  assert (∀ fs, (w_db_faults w = [] → fs = []) →
    advanced runID w (World (w_db w) fs (w_q w) (w_q_faults w) (w_now w))) as Hidle.
  { intros fs Hfs. split; auto; [by split|]. intros id r Hr. eauto. }
  assert (∀ r fs, active_run (w_db w) runID = Some r → (w_db_faults w = [] → fs = []) →
    advanced runID w (World (set_runs (update_where (by_id runID) (set_current_step (current_step r + 1))) (w_db w))
      fs (w_q w) (w_q_faults w) (w_now w))) as Hstop.
  { intros r fs Hact Hfs. apply advanced_runs_only; [by split|congruence|done|done|..].
    - intros id Hid. simpl. by rewrite lookup_update_other.
    - by eapply (names_kept_update _ _ (by_id runID) (set_current_step (current_step r + 1))). }
  unfold Advance, AdvanceWorkflowRun. apply wp_bind, wp_db_call; fields.
  2:{ intros fs Hne. apply wp_ret. fields. split_and!; [by apply Hidle|done|done]. }
  - intros fs Hfs. destruct (runs (w_db w) !! runID) as [r|] eqn:Hr.
    2:{ apply wp_ret. fields. split_and!; [by apply Hidle|done|]. intros _ r Hact.
        unfold active_run in Hact. by rewrite Hr in Hact. }
    case_bool_decide as Hst.
    2:{ apply wp_ret. fields. split_and!; [by apply Hidle|done|]. intros _ r' Hact.
        unfold active_run in Hact. by rewrite Hr, bool_decide_false in Hact. }
    assert (active_run (w_db w) runID = Some r) as Hact by (by apply active_run_Some).
    destruct (in_int32 (current_step r + 1)) eqn:H32.
    2:{ apply wp_ret. fields. split_and!; [by apply Hidle|done|]. intros _ r' Hr'.
        rewrite Hact in Hr'. simplify_eq. by rewrite H32. }
    set (d1 := set_runs (update_where (by_id runID) (set_current_step (current_step r + 1))) (w_db w)).
    fields. fold d1.
    assert (only_db w (World d1 fs (w_q w) (w_q_faults w) (w_now w))) as Honly by (by split).
    case_bool_decide as Htot.
    { eapply (wp_run_state runID RunCompleted CompleteWorkflowRun r w); try done; [by left|].
      intros w' Hadv _ Hd' Hfull. split_and!; [done|done|]. intros Hf r' Hr'.
      rewrite Hact in Hr'. simplify_eq. destruct (Hfull Hf) as [Hrun Hjobs]. intros _.
      unfold next_state. split; unfold next_state; rewrite bool_decide_true by done; done. }
    destruct (Get registry (workflow_name r)) as [wf|] eqn:Hwf.
    2:{ eapply (wp_run_state runID RunFailed FailWorkflowRun r w); try done; [by right|].
        intros w' Hadv _ Hd' Hfull. split_and!; [done|done|]. intros Hf r' Hr'.
        rewrite Hact in Hr'. simplify_eq. destruct (Hfull Hf) as [Hrun Hjobs]. intros _.
        split; unfold next_state; rewrite bool_decide_false, Hwf by done; done. }
    apply wp_bind, (wp_db_read (λ _ d, Ok (step_indices (λ j, bool_decide (status j = Completed)) runID d))); fields.
    2:{ intros fs1 Hne. apply wp_ret. split_and!; [apply Hstop; [done|intros Hf; destruct Hne; auto]|by apply db_ok_update_runs|].
        intros Hf. destruct Hne. auto. }
    intros fs1 Hfs1.
    apply wp_bind, (wp_db_read (λ _ d, Ok (step_indices (λ _, true) runID d))); fields.
    2:{ intros fs2 Hne. apply wp_ret. split_and!; [apply Hstop; [done|intros Hf; destruct Hne; auto]|by apply db_ok_update_runs|].
        intros Hf. destruct Hne. auto. }
    intros fs2 Hfs2.
    eapply wp_mono; [apply (submit_unblocked_spec _ _ (w_db w) (w_db_faults w ≠ [])); fields|].
    + by apply db_ok_update_runs.
    + intros idx p. by apply prev_of_jobs.
    + intros Hne Hf. destruct Hne. auto.
    + intros [] w' (Hod & Hd' & Hadd & Hall). fields.
      assert (∀ idx, idx ∈ UnblockedSteps (Normalize wf)
          (ids_of (Normalize wf) (positions (step_indices (λ j, bool_decide (status j = Completed)) runID d1)))
          (positions (step_indices (λ _, true) runID d1)) ↔ runnable (w_db w) runID (Normalize wf) idx) as Hrunnable
        by (intros idx; exact (unblocked_runnable (w_db w) runID (Normalize wf) idx)).
      destruct Hadd as [_ Hruns Hjobs Hob Hnew].
      split_and!; [|done|].
      * split; try done.
        -- eapply only_db_trans; [|exact Hod]. split; try done. fields. auto.
        -- intros id Hid. rewrite Hruns. simpl. by rewrite lookup_update_other.
        -- by eapply (names_kept_update _ _ (by_id runID) (set_current_step (current_step r + 1))).
        -- congruence.
        -- intros id j [?|(idx & step & prev & Hidx & Hstep & _ & Hin & Hu & ->)]%Hnew; [by left|right].
           exists r, wf, idx, step, prev. split_and!; try done. by apply Hrunnable.
      * intros Hf r' Hr' _. rewrite Hact in Hr'. simplify_eq. split.
        -- rewrite Hruns. unfold next_state. rewrite bool_decide_false, Hwf by done. simpl.
           rewrite lookup_update_id, Hr. simpl. f_equal. destruct r' as [? st ? ?]. simpl in *. by subst.
        -- unfold next_state. by rewrite bool_decide_false, Hwf.
        -- intros _ wf' idx Hwf' Hrn Hins. rewrite Hwf in Hwf'. simplify_eq.
           apply Hall; [by auto|by apply Hrunnable| |].
           ++ destruct Hrn as (step & -> & _). by eexists.
           ++ eapply insertable_runs_some; [|exact Hins]. intros id. simpl. apply update_where_is_Some.
  - intros fs Hne. apply wp_ret. fields.
    destruct (runs (w_db w) !! runID) as [r|] eqn:Hr; fields; [|by split_and!; [apply Hidle|..]].
    case_bool_decide as Hst; fields; [|by split_and!; [apply Hidle|..]].
    destruct (in_int32 (current_step r + 1)) eqn:H32; fields; [|by split_and!; [apply Hidle|..]].
    assert (active_run (w_db w) runID = Some r) as Hact by (by apply active_run_Some).
    split_and!; [by eapply Hstop|by apply db_ok_update_runs|done].
Qed.
End advance.

(** ** Lemmas: triggering a workflow *)
Section trigger.
Context {Q : Type} `{Queue Q}.
Variable registry : Registry.
Implicit Types (w : world Q).

(** The tables after CREATE of a run. *)
Definition run_created (wf : Workflow) (d : db) : db :=
  Db (jobs d) (outbox d)
     (<[next_run d := RunRec (Name wf) RunRunning 0 (Z.of_nat (length (Steps wf)))]> (runs d)) (api_keys d)
     (next_job d) (next_outbox d) (next_run d + 1) (next_key d).

(** A step without dependencies. *)
Definition is_root (wf : Workflow) (idx : nat) : Prop :=
  ∃ step, Steps wf !! idx = Some step ∧ deps step = [].

Lemma root_unblocked wf idx : idx ∈ UnblockedSteps wf ∅ ∅ ↔ is_root wf idx.
Proof.
  rewrite elem_of_UnblockedSteps. unfold is_root. split.
  - intros (step & Hs & _ & Hd). exists step. split; [done|].
    destruct (deps step) as [|dep l]; [done|]. specialize (Hd dep). set_solver.
  - intros (step & Hs & Hd). exists step. split_and!; [done|set_solver|]. rewrite Hd.
    by intros ? ?%not_elem_of_nil.
Qed.

Lemma run_created_ok wf d : db_ok d → db_ok (run_created wf d).
Proof.
  intros [Hj Hs Ho Hr Hk Hn]. split; simpl; try done; [..|lia].
  - intros id j Hid. destruct (Hj id j Hid). split; try done. intros r Hw.
    simpl. rewrite lookup_insert_is_Some. destruct (decide (next_run d = r)); auto.
  - apply map_Forall_insert_2; simpl; [lia|]. intros id r Hid. specialize (Hr id r Hid). simpl in Hr. lia.
Qed.

Lemma next_run_free d : db_ok d → runs d !! next_run d = None.
Proof.
  intros Hd. apply eq_None_not_Some. intros [r Hr]. pose proof (ok_runs d Hd _ _ Hr). simpl in *. lia.
Qed.

(** No job belongs to a run that is not there. *)
Lemma no_jobs_of_new_run d id j : db_ok d → jobs d !! id = Some j →
  workflow_run_id j ≠ Some (next_run d).
Proof.
  intros Hd Hj Hr. destruct (job_run_ok _ _ _ (ok_jobs d Hd _ _ Hj) _ Hr) as [r Hr'].
  by rewrite (next_run_free d Hd) in Hr'.
Qed.

(** What a trigger of [wf] may have done: nothing, or a new run with jobs for some
    of the steps without dependencies. *)
Record triggered (wf : Workflow) w w' : Prop := {
  tr_only : only_db w w';
  tr_runs : runs (w_db w') = runs (run_created wf (w_db w));
  tr_jobs : jobs (w_db w) ⊆ jobs (w_db w');
  tr_outbox : outbox (w_db w) ⊆ outbox (w_db w');
  tr_new : ∀ id j, jobs (w_db w') !! id = Some j → jobs (w_db w) !! id = Some j ∨
    ∃ idx step, is_root wf idx ∧ Steps wf !! idx = Some step ∧
      has_unprocessed (w_db w') id = true ∧
      j = new_step (next_run (w_db w)) (Z.of_nat idx) (Retries step) (step_payload (Command step) EmptyString);
}.

Lemma CreateWorkflowRun_spec wf w (P : result Z → world Q → Prop) :
  (∀ fs, (w_db_faults w = [] → fs = []) →
     text_ok (Name wf) && in_int32 (Z.of_nat (length (Steps wf))) = true →
     P (Ok (next_run (w_db w))) (World (run_created wf (w_db w)) fs (w_q w) (w_q_faults w) (w_now w))) →
  (∀ fs, (w_db_faults w = [] → text_ok (Name wf) && in_int32 (Z.of_nat (length (Steps wf))) = false ∧ fs = []) →
     P (Err ErrConstraint) (World (w_db w) fs (w_q w) (w_q_faults w) (w_now w))) →
  (∀ fs d', w_db_faults w ≠ [] → d' = w_db w ∨ d' = run_created wf (w_db w) →
     P (Err ErrIO) (World d' fs (w_q w) (w_q_faults w) (w_now w))) →
  wp (on_db (CreateWorkflowRun (Name wf) (Z.of_nat (length (Steps wf))))) w P.
Proof.
  intros H1 H2 H3. apply wp_db_call; intros fs Hfs.
  - destruct (_ && _) eqn:Hok; [by apply H1|]. apply H2. auto.
  - apply H3; auto.
  - destruct (_ && _) eqn:Hok; apply H3; auto.
Qed.

Lemma TriggerWorkflow_spec name w : db_ok (w_db w) →
  wp (TriggerWorkflow registry name) w (λ r w', db_ok (w_db w') ∧
    match Get registry name with
    | None => r = Err (ErrWorkflowNotFound name) ∧ w' = w
    | Some wf0 => let wf := Normalize wf0 in
        (only_db w w' ∧ w_db w' = w_db w ∧ is_ok r = false) ∨
        (triggered wf w w' ∧ (∀ runID, r = Ok runID → runID = next_run (w_db w) ∧
           ∀ idx, is_root wf idx → has_step runID (Z.of_nat idx) (w_db w')))
    end ∧
    (∀ wf0, w_db_faults w = [] → Get registry name = Some wf0 → let wf := Normalize wf0 in
       text_ok (Name wf) = true → Z.of_nat (length (Steps wf)) < 2 ^ 31 →
       (∀ idx step, is_root wf idx → Steps wf !! idx = Some step → 0 ≤ Retries step < 2 ^ 31) →
       is_ok r = true)).
Proof.
  intros Hd. unfold TriggerWorkflow. destruct (Get registry name) as [wf0|] eqn:Hwf; [|by apply wp_ret].
  set (wf := Normalize wf0). cbv zeta.
  pose proof (run_created_ok wf (w_db w) Hd) as Hd1.
  assert (∀ fs, (w_db_faults w = [] → fs = []) →
    triggered wf w (World (run_created wf (w_db w)) fs (w_q w) (w_q_faults w) (w_now w))) as Hcreated.
  { intros fs Hfs. split; auto. by split. }
  apply wp_try_bind, CreateWorkflowRun_spec.
  - intros fs Hfs Hok. apply wp_try_bind.
    eapply wp_mono; [apply submit_roots_spec; exact Hd1|].
    intros r w' (Hod & Hd' & Hadd & Hall & Hrel). fields.
    assert (triggered wf w w') as Htr.
    { destruct Hadd as [_ Hruns Hjobs Hob Hnew]. split; try done.
      - destruct Hod. split; try done. fields. auto.
      - intros id j [?|(idx & step & prev & Hidx & Hstep & _ & -> & Hu & ->)]%Hnew; [by left|right].
        exists idx, step. split_and!; try done. by apply root_unblocked. }
    assert (w_db_faults w = [] → ∀ wf', Some wf0 = Some wf' → Z.of_nat (length (Steps wf)) < 2 ^ 31 →
      (∀ idx step, is_root wf idx → Steps wf !! idx = Some step → 0 ≤ Retries step < 2 ^ 31) →
      r = Ok tt) as Hgood.
    { intros Hf wf' _ Hlen Hret. apply Hrel; [by apply Hfs|]. intros idx Hidx%root_unblocked.
      split_and!.
      - intros step Hstep. by eapply Hret.
      - destruct Hidx as (step & Hstep & _). apply lookup_lt_Some in Hstep. lia.
      - simpl. rewrite lookup_insert_eq. eauto. }
    destruct r as [[]|e].
    + apply wp_ret. split_and!; [done| |done]. right. split; [done|].
      intros runID [= <-]. split; [done|]. intros idx Hidx. apply Hall; [done|by apply root_unblocked|].
      destruct Hidx as (step & -> & _). eauto.
    + split_and!; [done|by right|]. intros wf' Hf [= <-] _ Hlen Hret. by specialize (Hgood Hf wf0 eq_refl Hlen Hret).
  - intros fs Hfs. split_and!; [done| |].
    + left. split_and!; [|done|done]. split; try done. fields. intros Hf. by destruct (Hfs Hf).
    + intros wf' Hf [= <-] Htext Hlen _. destruct (Hfs Hf) as [Hno _]. fold wf in Htext, Hlen.
      rewrite Htext in Hno. rewrite (proj2 (in_int32_spec _)) in Hno by lia. done.
  - intros fs d' Hne Hd'. split_and!.
    + by destruct Hd' as [-> | ->].
    + destruct Hd' as [-> | ->].
      * left. split_and!; [|done|done]. by split.
      * right. split; [by apply Hcreated|done].
    + intros wf' Hf. done.
Qed.
End trigger.

(** *** A trigger that fails after creating the run *)
Lemma submitStep_negative {Q} runID idx wf step prev (w : world Q) : w_db_faults w = [] →
  Steps wf !! idx = Some step → - 2 ^ 31 ≤ Retries step < 0 → Z.of_nat idx < 2 ^ 31 →
  submitStep runID idx wf prev w =
    (Err ErrConstraint, World (rollback (w_db w) (take_job_id (w_db w))) [] (w_q w) (w_q_faults w) (w_now w)).
Proof.
  intros Hf Hs Hr Hi. unfold submitStep. rewrite Hs. destruct w as [d fs q qfs now]. simpl in Hf. subst.
  unfold try_bind, mbind, M_bind, on_db, InsertWorkflowStep, in_tx. simpl.
  unfold try_bind, mbind, M_bind, Begin, call. simpl. unfold insert_step.
  assert (params_ok (new_step runID (Z.of_nat idx) (Retries step) (step_payload (Command step) prev)) &&
    in_int32 (Z.of_nat idx) = true) as Hp.
  { unfold params_ok. simpl. rewrite step_payload_ok, !(proj2 (in_int32_spec _)) by lia. done. }
  fold (new_step runID (Z.of_nat idx) (Retries step) (step_payload (Command step) prev)).
  rewrite Hp. simpl. by rewrite bool_decide_true by (simpl; lia).
Qed.

(** ** Properties *)

(** C20: cancelling a job that is settled, or unknown, is refused and changes nothing;
    otherwise success means the job is cancelled, and when no call fails its outbox
    entries are closed and it is removed from every place of the queue. *)
Theorem CancelJob_correct Q `(HQ : QueueLaws Q) jobID (w : world Q)
    (Hinv : qinv (w_q w)) (Hd : db_ok (w_db w)) :
  wp (CancelJob jobID) w (λ r w',
    (is_ok r = true →
       (∃ j, jobs (w_db w') !! jobID = Some j ∧ status j = Cancelled) ∧
       ∀ id, id ≠ jobID → jobs (w_db w') !! id = jobs (w_db w) !! id) ∧
    (match jobs (w_db w) !! jobID with Some j => settled (status j) | None => true end = true →
       is_ok r = false ∧ w_db w' = w_db w ∧ w_q w' = w_q w) ∧
    (reliable w → ∀ j, jobs (w_db w) !! jobID = Some j → settled (status j) = false →
       r = Ok tt ∧ has_unprocessed (w_db w') jobID = false ∧
       (queue_exact (qabs (w_q w)) → ¬ held (qabs (w_q w')) (Itoa jobID)))).
Proof.
  eapply wp_mono; [by apply CancelJob_spec|]. intros r w' (Hok & Hno & Hrel).
  split_and!; [|done|].
  - intros Hr. by destruct (Hok Hr).
  - intros Hw j Hj Hs. destruct (Hrel Hw j Hj Hs) as (-> & Hu & Hv). split_and!; [done..|].
    intros Hex Hheld. rewrite Hv in Hheld.
    apply (exact_queued _ (exact_cancel _ jobID Hex)) in Hheld. simpl in Hheld. set_solver.
Qed.

(** C30: [TriggerWorkflow] of a known workflow creates a fresh running run and gives a
    job, with its outbox entry, to steps without dependencies only; when it reports
    success all of them have one, and it does succeed if no call fails and the
    database can hold the workflow.  The queue is not touched. *)
Theorem TriggerWorkflow_correct Q `(HQ : Queue Q) registry name (w : world Q) (Hd : db_ok (w_db w)) :
  wp (TriggerWorkflow registry name) w (λ r w', db_ok (w_db w') ∧
    match Get registry name with
    | None => r = Err (ErrWorkflowNotFound name) ∧ w' = w
    | Some wf0 => let wf := Normalize wf0 in
        (only_db w w' ∧ w_db w' = w_db w ∧ is_ok r = false) ∨
        (triggered wf w w' ∧ (∀ runID, r = Ok runID → runID = next_run (w_db w) ∧
           ∀ idx, is_root wf idx → has_step runID (Z.of_nat idx) (w_db w')))
    end ∧
    (∀ wf0, w_db_faults w = [] → Get registry name = Some wf0 → let wf := Normalize wf0 in
       text_ok (Name wf) = true → Z.of_nat (length (Steps wf)) < 2 ^ 31 →
       (∀ idx step, is_root wf idx → Steps wf !! idx = Some step → 0 ≤ Retries step < 2 ^ 31) →
       is_ok r = true)).
Proof. by apply TriggerWorkflow_spec. Qed.

(** C9: whatever fails, [Advance] only adds to a run that is running the jobs of
    steps that had none and whose dependencies are all completed, each with an
    outbox entry and with the output of its single dependency as input; other runs,
    all existing jobs and the queue stay as they are. *)
Theorem Advance_is_safe Q `(HQ : Queue Q) registry runID (w : world Q) (Hd : db_ok (w_db w)) :
  wp (Advance registry runID) w (λ _ w', advanced registry runID w w' ∧ db_ok (w_db w')).
Proof. eapply wp_mono; [by apply Advance_spec|]. intros [] w' (? & ? & _). done. Qed.

(** C36: when no call fails, [Advance] counts the step; the run is completed when all
    its steps are counted, failed when its workflow is gone, and otherwise every step
    that can run has a job afterwards. *)
Theorem Advance_submits_runnable Q `(HQ : Queue Q) registry runID (w : world Q) r
    (Hd : db_ok (w_db w)) (Hf : w_db_faults w = []) (Hact : active_run (w_db w) runID = Some r)
    (Hcount : in_int32 (current_step r + 1) = true) :
  wp (Advance registry runID) w (λ _ w', advanced_fully registry runID r w w').
Proof. eapply wp_mono; [by apply Advance_spec|]. intros [] w' (_ & _ & Hall). by apply Hall. Qed.

(** Triggering a valid workflow whose first root step has a negative number of
    retries, which [Validate] accepts, fails but leaves a running run without any
    job: nothing will ever advance it, and the scheduler skips the workflow from
    then on. *)
Theorem Trigger_leaves_run_without_jobs Q `(HQ : Queue Q) registry name wf0 step rest (w : world Q)
    (wf := Normalize wf0) (Hd : db_ok (w_db w)) (Hf : w_db_faults w = [])
    (Hwf : Get registry name = Some wf0) (Hname : text_ok (Name wf) = true)
    (Hsteps : Steps wf = step :: rest) (Hlen : Z.of_nat (length (Steps wf)) < 2 ^ 31)
    (Hroot : deps step = []) (Hneg : - 2 ^ 31 ≤ Retries step < 0) :
  let '(r, w') := TriggerWorkflow registry name w in
  r = Err ErrConstraint ∧
  (∃ runID run, runs (w_db w') !! runID = Some run ∧ run_state run = RunRunning ∧
     workflow_name run = Name wf ∧
     ∀ id j, jobs (w_db w') !! id = Some j → workflow_run_id j ≠ Some runID) ∧
  (Name wf0 = name → w_db (scheduler_tick registry name w').2 = w_db w').
Proof.
  assert (Name wf = Name wf0) as Hname0 by (subst wf; unfold Normalize; by case_match).
  assert (∃ idxs, UnblockedSteps wf ∅ ∅ = 0%nat :: idxs) as [idxs Hroots].
  { unfold UnblockedSteps. rewrite Hsteps. simpl. rewrite Hroot. simpl. eauto. }
  unfold TriggerWorkflow. rewrite Hwf. fold wf. clearbody wf.
  unfold try_bind, mbind, M_bind, on_db, CreateWorkflowRun.
  destruct w as [d fs q qfs now]. simpl in Hf, Hd. subst fs. unfold call at 1. simpl.
  rewrite Hname, (proj2 (in_int32_spec _)) by lia. simpl. fold (run_created wf d).
  rewrite Hroots. cbn [submit_roots]. unfold try_bind, mbind, M_bind.
  rewrite (submitStep_negative _ _ _ step) by (rewrite ?Hsteps; done || lia). simpl.
  split_and!; [done| |].
  - exists (next_run d), (RunRec (Name wf) RunRunning 0 (Z.of_nat (length (Steps wf)))).
    rewrite lookup_insert_eq. split_and!; try done.
    intros id j Hj. by eapply no_jobs_of_new_run.
  - intros Hn. unfold scheduler_tick, HasActiveWorkflowRun, mbind, M_bind, on_db, call. simpl.
    rewrite bool_decide_true; [done|]. apply count_where_pos.
    exists (next_run d), (RunRec (Name wf) RunRunning 0 (Z.of_nat (length (Steps wf)))).
    rewrite lookup_insert_eq. split; [done|]. simpl.
    by rewrite !bool_decide_true by congruence.
Qed.

(** ** Witnesses *)
#[local] Instance svc_Queue : Queue Store := RedisQueue_ops jobs_queue.
#[local] Instance svc_QueueLaws : QueueLaws Store := RedisQueue_laws "jobs" 1000000000.

(** A running run of the parallel backup whose two root steps are done. *)
Definition backup_job (idx : Z) (st : job_status) (out : option string) : job_rec :=
  JobRec st 0 2 "shell" "{}" out (Some 1) (Some idx).
Definition backup_db : db :=
  Db {[1 := backup_job 0 Completed (Some "dump"); 2 := backup_job 1 Completed None]} ∅
     {[1 := RunRec "parallel_backup" RunRunning 1 4]} ∅ 3 1 2 1.
Definition backup_world : world Store := World backup_db [] empty_store [] 10.
Definition backup_registry : Registry := Register NewRegistry (Normalize parallel_backup).

Lemma backup_db_ok : db_ok backup_db.
Proof.
  split.
  - apply map_Forall_insert_2; [|apply map_Forall_singleton]; split; simpl; try done; try lia;
      intros r [= <-]; by eexists.
  - intros i i' j j' r s Hj Hj' _ _ Hs Hs'. unfold backup_db in Hj, Hj'. simpl in Hj, Hj'.
    apply lookup_insert_Some in Hj as [[<- <-]|[_ [<- <-]%lookup_singleton_Some]];
      apply lookup_insert_Some in Hj' as [[<- <-]|[_ [<- <-]%lookup_singleton_Some]]; simpl in *; congruence.
  - done.
  - apply map_Forall_singleton. simpl. lia.
  - done.
  - simpl. lia.
Qed.

Lemma CancelJob_correct_witness :
  wp (CancelJob 2) (World example_db [] empty_store [] 10) (λ r w',
    (is_ok r = true → ∃ j, jobs (w_db w') !! 2 = Some j ∧ status j = Cancelled) ∧ r = Ok tt).
Proof.
  eapply wp_mono;
    [apply (CancelJob_correct Store svc_QueueLaws 2 (World example_db [] empty_store [] 10) empty_represents example_db_ok)|].
  intros r w' (Hok & _ & Hrel). split; [intros Hr; exact (proj1 (Hok Hr))|].
  exact (proj1 (Hrel (conj eq_refl eq_refl) _ eq_refl eq_refl)).
Defined.

Lemma TriggerWorkflow_correct_witness :
  wp (TriggerWorkflow backup_registry "parallel_backup") (World db_empty [] empty_store [] 10)
    (λ r w', is_ok r = true ∧ db_ok (w_db w')).
Proof.
  eapply wp_mono; [apply (TriggerWorkflow_correct Store svc_Queue backup_registry "parallel_backup"
    (World db_empty [] empty_store [] 10) db_ok_empty)|].
  intros r w' (Hd & _ & Hgood). split; [|exact Hd].
  apply (Hgood (Normalize parallel_backup)); [reflexivity|vm_compute; reflexivity..|].
  intros idx step _ Hs. apply list_elem_of_lookup_2 in Hs. vm_compute in Hs.
  repeat (apply elem_of_cons in Hs as [->|Hs]; [simpl; lia|]). by apply not_elem_of_nil in Hs.
Defined.

Lemma Advance_is_safe_witness :
  wp (Advance backup_registry 1) (World backup_db [FOk; FLate] empty_store [] 10) (λ _ w', db_ok (w_db w')).
Proof.
  eapply wp_mono; [apply (Advance_is_safe Store svc_Queue backup_registry 1
    (World backup_db [FOk; FLate] empty_store [] 10) backup_db_ok)|].
  intros [] w' [_ Hd]. exact Hd.
Defined.

Lemma Advance_submits_runnable_witness :
  wp (Advance backup_registry 1) backup_world (λ _ w', has_step 1 2 (w_db w')).
Proof.
  eapply wp_mono; [apply (Advance_submits_runnable Store svc_Queue backup_registry 1 backup_world
    (RunRec "parallel_backup" RunRunning 1 4) backup_db_ok eq_refl)|].
  - reflexivity.
  - reflexivity.
  - intros [] w' [_ _ Hsteps]. apply (Hsteps eq_refl (Normalize parallel_backup) 2%nat eq_refl).
    + apply unblocked_runnable. vm_compute. left.
    + split_and!; [|reflexivity|eexists; reflexivity].
      intros step [= <-]. simpl. lia.
Defined.

(** A workflow whose only step has a negative number of retries. *)
Definition negative : Workflow :=
  {| Name := "negative"; Schedule := ""; Steps :=
       [{| ID := "a"; Command := "true"; DependsOn := Some []; Retries := -1 |}] |}.

Lemma Trigger_leaves_run_without_jobs_witness :
  (Validate negative).1 = Some (Ok tt) ∧
  (TriggerWorkflow (Register NewRegistry negative) "negative" (World db_empty [] empty_store [] 10)).1
    = Err ErrConstraint.
Proof.
  split; [vm_compute; reflexivity|].
  pose proof (Trigger_leaves_run_without_jobs Store svc_Queue (Register NewRegistry negative) "negative" negative
    {| ID := "a"; Command := "true"; DependsOn := Some []; Retries := -1 |} []
    (World db_empty [] empty_store [] 10) db_ok_empty eq_refl eq_refl eq_refl eq_refl) as Hrun.
  destruct (TriggerWorkflow _ _ _) as [r w']. apply Hrun; [reflexivity|reflexivity|simpl; lia].
Defined.
