(* ===== verification/Server.v ===== *)
(** * The gRPC server

    Models internal/server (server.go, backoff.go): the ownership of running jobs,
    the loop of [Work] as a step on the state of one worker's stream,
    [handleResult], the reaper and the delay before a retry. *)
From stdpp Require Import gmap strings list fin_maps fin_sets sorting.
From S2P Require Import Prelude Text Json Redis Queue RedisQueue Db Outbox Service.
From S2P Require Import Workflow.
Open Scope Z_scope.

Definition second : Z := 1000000000.

(** ** Messages (proto/orchestrator.proto) *)
Record TaskResult : Type := { res_JobId : Z; res_Success : bool; res_Error : string; res_Output : string }.
Record TaskAssignment : Type := {
  task_JobId : Z; task_Type : string; task_Payload : string;
  task_RetryCount : Z; task_MaxRetries : Z }.
Inductive WorkerPayload : Type :=
  | MsgReady
  | MsgHeartbeat (JobId : Z)
  | MsgResult (result : TaskResult)
  | MsgNone.                                      (* no payload set *)

(** ** backoff.go

    [math.Pow(2, n)] is exact; its conversion to an int64 is defined by Go below
    2^63 only, [overflowed n] stands for what the processor makes of it beyond. *)
Definition retryDelay (overflowed : Z → Z) (retryCount : Z) : Z :=
  let pow := if retryCount <? 0 then 0          (* a fraction, truncated *)
             else if retryCount <? 63 then 2 ^ retryCount
             else overflowed retryCount in
  to_int64 (pow * second).

(** ** The server *)
Record server (Q : Type) : Type := Server {
  sv_world : world Q;
  sv_owner : gmap Z string;
  sv_lastSeen : gmap Z Z;
}.
Arguments Server {Q} _ _ _.
Arguments sv_world {Q} _.
Arguments sv_owner {Q} _.
Arguments sv_lastSeen {Q} _.

Definition on_world {Q A} (m : M (world Q) A) : M (server Q) A := λ s,
  let '(a, w) := m (sv_world s) in (a, Server w (sv_owner s) (sv_lastSeen s)).

Definition heartbeatTimeout : Z := 30 * second.

Section server.
Context {Q : Type} `{Queue Q}.
Variable overflowed : Z → Z.
Variable registry : Registry.

Definition owner_Store (jobID : Z) (workerID : string) : M (server Q) unit := λ s,
  (tt, Server (sv_world s) (<[jobID := workerID]> (sv_owner s)) (sv_lastSeen s)).
Definition lastSeen_Store (jobID : Z) : M (server Q) unit := λ s,
  (tt, Server (sv_world s) (sv_owner s) (<[jobID := w_now (sv_world s)]> (sv_lastSeen s))).
Definition clearOwnership (jobID : Z) : M (server Q) unit := λ s,
  (tt, Server (sv_world s) (delete jobID (sv_owner s)) (delete jobID (sv_lastSeen s))).
Definition workerOwnsJob (jobID : Z) (workerID : string) : M (server Q) bool := λ s,
  (bool_decide (sv_owner s !! jobID = Some workerID), s).

Definition recordHeartbeat (jobID : Z) (workerID : string) : M (server Q) bool :=
  owns ← workerOwnsJob jobID workerID;
  if (owns : bool) then _ ← lastSeen_Store jobID; mret true else mret false.

(** The job of a row, as [handleResult] and the reaper build it. *)
Definition job_of_row (row : JobRow) : Job :=
  Build_Job (r_ID row) (r_RetryCount row) (r_MaxRetries row) (r_Type row) (r_Payload row).
Definition set_RetryCount (n : Z) (job : Job) : Job :=
  Build_Job (j_ID job) n (j_MaxRetries job) (j_Type job) (j_Payload job).

Definition handleResult (result : TaskResult) (senderWorkerID : string) : M (server Q) unit :=
  let jobID := res_JobId result in
  owns ← workerOwnsJob jobID senderWorkerID;
  if negb owns then mret tt else
  row ← on_world (on_db (GetJob jobID));
  match row with
  | Err _ => clearOwnership jobID
  | Ok row =>
      if settled (r_Status row) then clearOwnership jobID
      else if res_Success result then
        _ ← on_world (on_q (Ack (Job_of_ID jobID)));
        _ ← on_world (on_db (CompleteJob jobID (res_Output result)));
        _ ← clearOwnership jobID;
        match r_WorkflowRunID row with
        | Some runID => on_world (Advance registry runID)
        | None => mret tt
        end
      else
        let job := job_of_row row in
        if bool_decide (j_RetryCount job < j_MaxRetries job) then
          let job := set_RetryCount (j_RetryCount job + 1) job in
          let delay := retryDelay overflowed (j_RetryCount job) in
          _ ← on_world (on_db (UpdateJobState (j_ID job) Retrying (j_RetryCount job)));
          _ ← clearOwnership (j_ID job);
          _ ← on_world (on_q (Retry job delay));
          mret tt
        else
          _ ← on_world (on_db (UpdateJobState (j_ID job) Failed (j_RetryCount job)));
          _ ← clearOwnership (j_ID job);
          _ ← on_world (on_q (Fail job));
          match r_WorkflowRunID row with
          | Some runID => _ ← on_world (on_db (FailWorkflowRun runID)); mret tt
          | None => mret tt
          end
  end.

(** ** Work

    [inFlight] is the job the stream has handed out.  A step of the loop ends in
    the next iteration, in the return of an error, or is still waiting for a job. *)
Inductive work_outcome : Type :=
  | Continue (inFlight : option Job) (sent : option TaskAssignment)
  | Return (err : goerr)
  | Waiting.

(** Giving a job back: to the database as pending, to the queue at once. *)
Definition requeue (job : Job) : M (server Q) unit :=
  _ ← clearOwnership (j_ID job);
  _ ← on_world (on_db (UpdateJobState (j_ID job) Pending (j_RetryCount job)));
  _ ← on_world (on_q (Retry job 0));
  mret tt.

(** [stream.Recv] failed. *)
Definition work_disconnect (inFlight : option Job) (err : goerr) : M (server Q) work_outcome :=
  match inFlight with
  | Some job => _ ← requeue job; mret (Return err)
  | None => mret (Return err)
  end.

Definition task_of (job : Job) : TaskAssignment := {|
  task_JobId := to_int32 (j_ID job); task_Type := j_Type job; task_Payload := j_Payload job;
  task_RetryCount := to_int32 (j_RetryCount job); task_MaxRetries := to_int32 (j_MaxRetries job) |}.

(** The Ready message; [send_err] is what [stream.Send] returns. *)
Definition work_ready (ctx : Ctx) (fuel : nat) (workerID : string) (send_err : option goerr) :
    M (server Q) work_outcome :=
  o ← on_world (on_q (Consume ctx fuel));
  match o with
  | None => mret Waiting
  | Some (Err err) => mret (Return err)
  | Some (Ok job) =>
      _ ← owner_Store (j_ID job) workerID;
      _ ← lastSeen_Store (j_ID job);
      r ← on_world (on_db (UpdateJobState (j_ID job) Running (j_RetryCount job)));
      match r with
      | Err err => _ ← clearOwnership (j_ID job); mret (Return err)
      | Ok _ =>
          match send_err with
          | None => mret (Continue (Some job) (Some (task_of job)))
          | Some err => _ ← requeue job; mret (Return err)
          end
      end
  end.

Definition work_message (ctx : Ctx) (fuel : nat) (send_err : option goerr)
    (workerID : string) (p : WorkerPayload) (inFlight : option Job) : M (server Q) work_outcome :=
  match p with
  | MsgReady => work_ready ctx fuel workerID send_err
  | MsgHeartbeat jobID => _ ← recordHeartbeat jobID workerID; mret (Continue inFlight None)
  | MsgResult result => _ ← handleResult result workerID; mret (Continue None None)
  | MsgNone => mret (Continue inFlight None)
  end.

(** ** The reaper *)
Definition reap_job (now : Z) (row : JobRow) : M (server Q) unit := λ s,
  match sv_lastSeen s !! r_ID row with
  | None => (tt, s)
  | Some seen =>
      if bool_decide (now - seen < heartbeatTimeout) then (tt, s) else
      match sv_owner s !! r_ID row with
      | None => (tt, s)
      | Some _ => requeue (job_of_row row) s
      end
  end.
Fixpoint reap_jobs (now : Z) (rows : list JobRow) : M (server Q) unit :=
  match rows with
  | [] => mret tt
  | row :: rows => _ ← reap_job now row; reap_jobs now rows
  end.
Definition reaperTick (now : Z) : M (server Q) unit :=
  r ← on_world (on_db (ListJobs "running"));
  match r with
  | Err _ => mret tt
  | Ok rows => reap_jobs now rows
  end.
End server.

(** ** Lemmas: the delay *)
Lemma to_int64_small z : - 2 ^ 63 ≤ z < 2 ^ 63 → to_int64 z = z.
Proof.
  intros Hz. unfold to_int64, wrap. replace (64 - 1) with 63 by done.
  rewrite Z.mod_small; [lia|]. replace (2 ^ 64) with (2 ^ 63 + 2 ^ 63) by done. lia.
Qed.

Lemma retryDelay_exact ov n : 0 ≤ n ≤ 33 → retryDelay ov n = 2 ^ n * second.
Proof.
  intros Hn. unfold retryDelay. rewrite (proj2 (Z.ltb_ge n 0)), (proj2 (Z.ltb_lt n 63)) by lia.
  apply to_int64_small. assert (0 < 2 ^ n) by (apply Z.pow_pos_nonneg; lia).
  assert (2 ^ n ≤ 2 ^ 33) by (apply Z.pow_le_mono_r; lia). unfold second. lia.
Qed.

Lemma to_int64_range z : - 2 ^ 63 ≤ to_int64 z < 2 ^ 63.
Proof.
  unfold to_int64, wrap. change (64 - 1) with 63.
  pose proof (Z.mod_pos_bound (z + 2 ^ 63) (2 ^ 64) eq_refl). change (2 ^ 64) with (2 ^ 63 + 2 ^ 63) in *. lia.
Qed.
Lemma to_int64_congruent z : to_int64 z = z - (z + 2 ^ 63) / 2 ^ 64 * 2 ^ 64.
Proof. unfold to_int64, wrap. change (64 - 1) with 63. rewrite Z.mod_eq by done. lia. Qed.

(** From 2^34 seconds on, a delay is more than an int64 of nanoseconds can hold. *)
Lemma long_delay n : 34 ≤ n → 2 ^ 63 < 2 ^ n * second.
Proof. intros Hn. assert (2 ^ 34 ≤ 2 ^ n) by (apply Z.pow_le_mono_r; lia). unfold second. lia. Qed.

(** ** Lemmas: calls on the state of the server *)
Lemma wp_on_world {Q A} (m : M (world Q) A) (s : server Q) (P : A → server Q → Prop) :
  wp m (sv_world s) (λ a w, P a (Server w (sv_owner s) (sv_lastSeen s))) → wp (on_world m) s P.
Proof. unfold wp, on_world. by destruct (m _). Qed.

Definition moved (id : Z) (st : job_status) (n : Z) (d : db) : db :=
  set_jobs (update_where (by_id id) (λ j, set_retry n (set_status st j))) d.

Lemma wp_UpdateJobState {Q} id st n (w : world Q) (P : result unit → world Q → Prop) :
  (∀ r d' fs, d' = w_db w ∨ d' = moved id st n (w_db w) →
     (r = Ok tt → d' = moved id st n (w_db w)) →
     (w_db_faults w = [] → fs = [] ∧ (0 ≤ n < 2 ^ 31 → r = Ok tt)) →
     P r (World d' fs (w_q w) (w_q_faults w) (w_now w))) →
  wp (on_db (UpdateJobState id st n)) w P.
Proof.
  intros HP. apply wp_db_call.
  - intros fs Hfs. destruct (in_int32 n && _) eqn:Hok; apply HP.
    + by right.
    + done.
    + intros Hf. by split; [auto|].
    + by left.
    + done.
    + intros Hf. split; [auto|]. intros Hn.
      rewrite (proj2 (in_int32_spec n)), bool_decide_true in Hok by lia. done.
  - intros fs Hne. apply HP; [by left|done..].
  - intros fs Hne. destruct (in_int32 n && _); apply HP; try done; [by right|by left].
Qed.

Ltac sfields := cbn [sv_world sv_owner sv_lastSeen w_db w_db_faults w_q w_q_faults w_now
  c_data c_faults c_now fst snd] in *.

Lemma lookup_moved_ne id st n d i : i ≠ id → jobs (moved id st n d) !! i = jobs d !! i.
Proof. intros. by apply lookup_update_other. Qed.
Lemma lookup_moved id st n d : jobs (moved id st n d) !! id =
  (λ j, set_retry n (set_status st j)) <$> jobs d !! id.
Proof. apply lookup_update_id. Qed.

Section handlers.
Context {Q : Type} `{QueueLaws Q}.
Variable overflowed : Z → Z.
Variable registry : Registry.
Implicit Types (s : server Q).

(** What giving a job back does: it touches that job only. *)
Record requeued (job : Job) s s' : Prop := {
  rq_inv : qinv (w_q (sv_world s'));
  rq_now : w_now (sv_world s') = w_now (sv_world s);
  rq_owner : sv_owner s' = delete (j_ID job) (sv_owner s);
  rq_lastSeen : sv_lastSeen s' = delete (j_ID job) (sv_lastSeen s);
  rq_db : w_db (sv_world s') = w_db (sv_world s) ∨
          w_db (sv_world s') = moved (j_ID job) Pending (j_RetryCount job) (w_db (sv_world s));
  rq_queue : let v := qabs (w_q (sv_world s)) in
    qabs (w_q (sv_world s')) = v ∨
    qabs (w_q (sv_world s')) = q_retry job (UnixMilli (w_now (sv_world s))) v;
  rq_reliable : reliable (sv_world s) → reliable (sv_world s') ∧
    qabs (w_q (sv_world s')) = q_retry job (UnixMilli (w_now (sv_world s))) (qabs (w_q (sv_world s))) ∧
    (0 ≤ j_RetryCount job < 2 ^ 31 →
     w_db (sv_world s') = moved (j_ID job) Pending (j_RetryCount job) (w_db (sv_world s)));
}.

Lemma requeue_spec job s : qinv (w_q (sv_world s)) → wp (requeue job) s (λ _, requeued job s).
Proof.
  intros Hq. unfold requeue. apply wp_bind. unfold wp, clearOwnership. sfields.
  change (wp (_ ← on_world (on_db (UpdateJobState (j_ID job) Pending (j_RetryCount job)));
              _ ← on_world (on_q (Retry job 0)); mret tt)
    (Server (sv_world s) (delete (j_ID job) (sv_owner s)) (delete (j_ID job) (sv_lastSeen s)))
    (λ _, requeued job s)).
  apply wp_bind, wp_on_world, wp_UpdateJobState; sfields. intros r d' fs Hd' Hr Hf.
  apply wp_bind, wp_on_world. eapply wp_queue; [apply Retry_law|exact Hq|]. sfields.
  intros a q' fs' Hq' Hspec Hf'. apply wp_ret. sfields. rewrite Z.add_0_r in Hspec.
  split; sfields; try done.
  - destruct a; simpl in Hspec; tauto.
  - intros [Hdf Hqf]. destruct (Hf Hdf) as [-> Hok], (Hf' Hqf) as [Ha ->]. destruct a; [|done].
    split_and!; [done|done|]. intros Hn. auto.
Qed.

(** [handleResult] past its ownership check. *)
Lemma wp_handleResult result sender s (P : unit → server Q → Prop) :
  let id := res_JobId result in
  let cleared w := Server w (delete id (sv_owner s)) (delete id (sv_lastSeen s)) in
  let continue row w := wp (
    if res_Success result then
      _ ← on_world (on_q (Ack (Job_of_ID id)));
      _ ← on_world (on_db (CompleteJob id (res_Output result)));
      _ ← clearOwnership id;
      match workflow_run_id row with
      | Some runID => on_world (Advance registry runID) | None => mret tt end
    else
      let job := job_of_row (row_of id row) in
      if bool_decide (retry_count row < max_retries row) then
        let job := set_RetryCount (retry_count row + 1) job in
        _ ← on_world (on_db (UpdateJobState id Retrying (retry_count row + 1)));
        _ ← clearOwnership id;
        _ ← on_world (on_q (Retry job (retryDelay overflowed (retry_count row + 1))));
        mret tt
      else
        _ ← on_world (on_db (UpdateJobState id Failed (retry_count row)));
        _ ← clearOwnership id;
        _ ← on_world (on_q (Fail job));
        match workflow_run_id row with
        | Some runID => _ ← on_world (on_db (FailWorkflowRun runID)); mret tt
        | None => mret tt end) (Server w (sv_owner s) (sv_lastSeen s)) P in
  (sv_owner s !! id ≠ Some sender → P tt s) →
  (∀ fs, sv_owner s !! id = Some sender →
     (reliable (sv_world s) → fs = [] ∧ match jobs (w_db (sv_world s)) !! id with
                                          | Some j => settled (status j) = true | None => True end) →
     let w := sv_world s in P tt (cleared (World (w_db w) fs (w_q w) (w_q_faults w) (w_now w)))) →
  (∀ fs row, (w_db_faults (sv_world s) = [] → fs = []) → sv_owner s !! id = Some sender →
     jobs (w_db (sv_world s)) !! id = Some row → settled (status row) = false →
     let w := sv_world s in continue row (World (w_db w) fs (w_q w) (w_q_faults w) (w_now w))) →
  wp (handleResult overflowed registry result sender) s P.
Proof.
  intros id cleared continue Hno Hclear Hgo. unfold handleResult. fold id.
  apply wp_bind. unfold wp at 1, workerOwnsJob. sfields. case_bool_decide as Hown; cbn [negb].
  2:{ apply wp_ret. by apply Hno. }
  apply wp_bind, wp_on_world, wp_db_read; sfields.
  - intros fs Hfs. destruct (jobs (w_db (sv_world s)) !! id) as [row|] eqn:Hrow.
    + cbn [row_of r_Status r_WorkflowRunID]. destruct (settled (status row)) eqn:Hs.
      * apply (Hclear fs); [done|]. intros [Hf _]. auto.
      * by apply (Hgo fs row).
    + apply (Hclear fs); [done|]. intros [Hf _]. auto.
  - intros fs Hne. apply (Hclear fs); [done|]. by intros [Hf _].
Qed.

Lemma wp_clearOwnership id s (P : unit → server Q → Prop) :
  P tt (Server (sv_world s) (delete id (sv_owner s)) (delete id (sv_lastSeen s))) →
  wp (clearOwnership id) s P.
Proof. done. Qed.

Lemma wp_CompleteJob id out (w : world Q) (P : result unit → world Q → Prop) :
  let upd := set_jobs (update_where (by_id id) (λ j, set_output out (set_status Completed j))) (w_db w) in
  (∀ r d' fs, d' = w_db w ∨ d' = upd → (r = Ok tt → d' = upd) →
     (w_db_faults w = [] → fs = [] ∧ (text_ok out = true → r = Ok tt)) →
     P r (World d' fs (w_q w) (w_q_faults w) (w_now w))) →
  wp (on_db (CompleteJob id out)) w P.
Proof.
  intros upd HP. apply wp_db_call; intros fs Hfs; destruct (text_ok out) eqn:Ht; apply HP; try done;
    try (by left); try (by right); intros Hf; by split; [auto|].
Qed.

(** No job has used more retries than it has. *)
Definition budget (d : db) : Prop :=
  map_Forall (λ _ j, retry_count j ≤ max_retries j) (jobs d).

Lemma budget_moved id st n d : (∀ j, jobs d !! id = Some j → n ≤ max_retries j) →
  budget d → budget (moved id st n d).
Proof.
  intros Hn Hb i j. simpl. rewrite lookup_update_where, fmap_Some. intros (j0 & Hj0 & ->).
  unfold by_id. case_bool_decide as Hi; [subst; simpl; by apply Hn|by apply (Hb i)].
Qed.

Lemma db_ok_moved id st n d : 0 ≤ n < 2 ^ 31 → db_ok d → db_ok (moved id st n d).
Proof. intros Hn Hd. by apply db_ok_update_jobs. Qed.

Lemma budget_advanced registry' runID (w w' : world Q) :
  advanced registry' runID w w' → db_ok (w_db w') → budget (w_db w) → budget (w_db w').
Proof.
  intros Hadv Hd Hb i j Hj.
  destruct (av_new _ _ _ _ Hadv i j Hj) as [?|(r & wf & idx & step & prev & _ & _ & _ & _ & _ & _ & ->)];
    [by eapply Hb|].
  destruct (ok_jobs _ Hd i _ Hj) as [_ _ [? _] _ _ _]. simpl in *. lia.
Qed.

Definition healthy (d : db) : Prop := db_ok d ∧ budget d.

Lemma handleResult_healthy result sender s : qinv (w_q (sv_world s)) →
  healthy (w_db (sv_world s)) →
  wp (handleResult overflowed registry result sender) s (λ _ s',
    healthy (w_db (sv_world s')) ∧ qinv (w_q (sv_world s'))).
Proof.
  intros Hq [Hd Hb]. apply wp_handleResult; [done|done|].
  intros fs row Hfs _ Hrow _. sfields.
  destruct (ok_jobs _ Hd _ _ Hrow) as [_ Hrange Hmax _ _ _].
  destruct (res_Success result).
  - apply wp_bind, wp_on_world. eapply wp_queue; [apply Ack_law|done|]. sfields.
    intros a q' fs1 Hq' _ _. apply wp_bind, wp_on_world, wp_CompleteJob. sfields.
    intros r d' fs2 Hd' _ _. apply wp_bind, wp_clearOwnership. sfields.
    assert (healthy d') as [Hd1 Hb1].
    { destruct Hd' as [-> | ->]; [done|]. split; [by apply db_ok_update_jobs|].
      intros i j. simpl. rewrite lookup_update_where, fmap_Some. intros (j0 & Hj0 & ->).
      pose proof (Hb i j0 Hj0). unfold by_id. by case_bool_decide. }
    destruct (workflow_run_id row) as [runID|]; [|by apply wp_ret].
    apply wp_on_world. eapply wp_mono; [by apply Advance_spec|]. sfields.
    intros [] w' (Hadv & Hd2 & _). split; [split; [done|]|].
    + by eapply budget_advanced.
    + rewrite (od_q _ _ (av_only _ _ _ _ Hadv)). done.
  - cbv zeta. case_bool_decide as Hlt.
    + apply wp_bind, wp_on_world, wp_UpdateJobState. sfields. intros r d' fs1 Hd' _ _.
      apply wp_bind, wp_clearOwnership. sfields.
      apply wp_bind, wp_on_world. eapply wp_queue; [apply Retry_law|done|]. sfields.
      intros a q' fs2 Hq' _ _. apply wp_ret. sfields. split; [|done].
      destruct Hd' as [-> | ->]; [done|]. split; [apply db_ok_moved; [lia|done]|].
      apply budget_moved; [|done]. intros j Hj. rewrite Hrow in Hj. simplify_eq. lia.
    + apply wp_bind, wp_on_world, wp_UpdateJobState. sfields. intros r d' fs1 Hd' _ _.
      apply wp_bind, wp_clearOwnership. sfields.
      assert (healthy d') as Hh.
      { destruct Hd' as [-> | ->]; [done|]. split; [apply db_ok_moved; [lia|done]|].
        apply budget_moved; [|done]. intros j Hj. rewrite Hrow in Hj. simplify_eq. by apply (Hb _ _ Hrow). }
      apply wp_bind, wp_on_world. eapply wp_queue; [apply Fail_law|done|]. sfields.
      intros a q' fs2 Hq' _ _. destruct (workflow_run_id row) as [runID|]; [|by apply wp_ret].
      apply wp_bind, wp_on_world, wp_db_call; sfields; intros; apply wp_ret; sfields; (split; [|done]);
        try done; destruct Hh; (split; [by apply db_ok_update_runs|done]).
Qed.

(** *** The reaper *)
(** The specification of what [reap_job] takes back: an owned job whose last heartbeat is
    30 seconds old. *)
Definition stale (now : Z) s (id : Z) : Prop :=
  ∃ seen, sv_lastSeen s !! id = Some seen ∧ heartbeatTimeout ≤ now - seen ∧ is_Some (sv_owner s !! id).

(** The server is unchanged at a job. *)
Definition same_at (id : Z) s s' : Prop :=
  jobs (w_db (sv_world s')) !! id = jobs (w_db (sv_world s)) !! id ∧
  sv_owner s' !! id = sv_owner s !! id ∧ sv_lastSeen s' !! id = sv_lastSeen s !! id.

(** A job was taken from its worker and given back. *)
Definition reclaimed (id : Z) s s' : Prop :=
  jobs (w_db (sv_world s')) !! id = set_status Pending <$> jobs (w_db (sv_world s)) !! id ∧
  sv_owner s' !! id = None ∧
  delayed (qabs (w_q (sv_world s'))) !! Itoa id = Some (UnixMilli (w_now (sv_world s))) ∧
  Itoa id ∈ queued (qabs (w_q (sv_world s'))).

(** The queue lost no mark, and kept every delay but that of one job. *)
Definition queue_but (but : Z) s s' : Prop :=
  queued (qabs (w_q (sv_world s))) ⊆ queued (qabs (w_q (sv_world s'))) ∧
  ∀ id, id ≠ but → delayed (qabs (w_q (sv_world s'))) !! Itoa id =
                   delayed (qabs (w_q (sv_world s))) !! Itoa id.

Record reaped (now : Z) (ids : list Z) s s' : Prop := {
  rp_inv : qinv (w_q (sv_world s'));
  rp_now : w_now (sv_world s') = w_now (sv_world s);
  rp_tables : runs (w_db (sv_world s')) = runs (w_db (sv_world s)) ∧
              outbox (w_db (sv_world s')) = outbox (w_db (sv_world s));
  rp_spared : ∀ id, (id ∉ ids) ∨ ¬ stale now s id → same_at id s s';
  rp_jobs : ∀ id, jobs (w_db (sv_world s')) !! id = jobs (w_db (sv_world s)) !! id ∨
                  jobs (w_db (sv_world s')) !! id = set_status Pending <$> jobs (w_db (sv_world s)) !! id;
  rp_queue : queued (qabs (w_q (sv_world s))) ⊆ queued (qabs (w_q (sv_world s'))) ∧
    ∀ id, id ∉ ids → delayed (qabs (w_q (sv_world s'))) !! Itoa id =
                     delayed (qabs (w_q (sv_world s))) !! Itoa id;
  rp_reliable : reliable (sv_world s) → reliable (sv_world s') ∧
    ∀ id, id ∈ ids → stale now s id → reclaimed id s s';
}.

Lemma stale_same now s s' id : same_at id s s' → stale now s' id ↔ stale now s id.
Proof. unfold stale. by intros (_ & -> & ->). Qed.

(** A row the reaper was given is a job as the database has it. *)
Definition row_ok s (row : JobRow) : Prop := ∃ j,
  jobs (w_db (sv_world s)) !! r_ID row = Some j ∧ row = row_of (r_ID row) j ∧ 0 ≤ retry_count j < 2 ^ 31.

Lemma requeue_row_spec row s : qinv (w_q (sv_world s)) → row_ok s row →
  wp (requeue (job_of_row row)) s (λ _ s', requeued (job_of_row row) s s' ∧
    (∀ id, id ≠ r_ID row → same_at id s s') ∧ queue_but (r_ID row) s s' ∧
    (jobs (w_db (sv_world s')) !! r_ID row = jobs (w_db (sv_world s)) !! r_ID row ∨
     jobs (w_db (sv_world s')) !! r_ID row = set_status Pending <$> jobs (w_db (sv_world s)) !! r_ID row) ∧
    (reliable (sv_world s) → reclaimed (r_ID row) s s')).
Proof.
  intros Hq (j & Hj & Hrow & Hrange). eapply wp_mono; [by apply requeue_spec|].
  intros _ s' [Hi Hn Ho Hl Hd Hv Hrel].
  assert (set_retry (retry_count j) (set_status Pending j) = set_status Pending j) as Hset by (by destruct j).
  split; [by split|]. rewrite Hrow in *. sfields. cbn [row_of job_of_row j_ID r_ID r_RetryCount j_RetryCount] in *.
  split_and!.
  - intros id Hid. split_and!; [|by rewrite Ho, lookup_delete_ne|by rewrite Hl, lookup_delete_ne].
    destruct Hd as [-> | ->]; [done|]. by rewrite lookup_moved_ne.
  - unfold queue_but. destruct Hv as [-> | ->]; [by split|]. split; simpl; [set_solver|]. intros id Hid.
    rewrite lookup_insert_ne; [done|]. by intros ?%(inj Itoa).
  - destruct Hd as [-> | ->]; [by left|right]. rewrite lookup_moved, Hj. simpl. by rewrite Hset.
  - intros Hw. destruct (Hrel Hw) as (_ & Hv' & Hd'). specialize (Hd' Hrange).
    split_and!.
    + rewrite Hd', lookup_moved, Hj. simpl. by rewrite Hset.
    + by rewrite Ho, lookup_delete_eq.
    + rewrite Hv'. simpl. by rewrite lookup_insert_eq.
    + rewrite Hv'. simpl. set_solver.
Qed.

Lemma reap_jobs_spec now rows s : qinv (w_q (sv_world s)) →
  NoDup (r_ID <$> rows) → (∀ row, row ∈ rows → row_ok s row) →
  wp (reap_jobs now rows) s (λ _, reaped now (r_ID <$> rows) s).
Proof.
  revert s. induction rows as [|row rows IH]; intros s Hq Hnd Hrows; cbn [reap_jobs fmap list_fmap].
  { apply wp_ret. split; [done|done|done|intros; by split_and!|intros; by left|by split|].
    intros Hw. split; [done|]. by intros ? ?%not_elem_of_nil. }
  apply NoDup_cons in Hnd as [Hnin Hnd].
  assert (∀ s1, qinv (w_q (sv_world s1)) → w_now (sv_world s1) = w_now (sv_world s) →
    runs (w_db (sv_world s1)) = runs (w_db (sv_world s)) →
    outbox (w_db (sv_world s1)) = outbox (w_db (sv_world s)) →
    (∀ id, id ≠ r_ID row ∨ ¬ stale now s (r_ID row) → same_at id s s1) → queue_but (r_ID row) s s1 →
    (jobs (w_db (sv_world s1)) !! r_ID row = jobs (w_db (sv_world s)) !! r_ID row ∨
     jobs (w_db (sv_world s1)) !! r_ID row = set_status Pending <$> jobs (w_db (sv_world s)) !! r_ID row) →
    (reliable (sv_world s) → reliable (sv_world s1) ∧ (stale now s (r_ID row) → reclaimed (r_ID row) s s1)) →
    wp (reap_jobs now rows) s1 (λ _, reaped now (r_ID row :: (r_ID <$> rows)) s)) as Hstep.
  { intros s1 Hq1 Hn1 Hruns Hob Hsame [Hqd Hqdel] Hjobs Hrel.
    eapply wp_mono; [apply IH; [done|done|]|].
    { intros row' Hin. destruct (Hrows row' ltac:(set_solver)) as (j & Hj & ? & ?). exists j.
      split; [|done]. destruct (Hsame (r_ID row')) as (-> & _ & _); [|done]. left. intros Heq.
      apply Hnin. rewrite <-Heq. apply list_elem_of_fmap. eauto. }
    intros _ s' [Hi Hn [Hr Hob'] Hsp Hjb [Hqd' Hqdel'] Hre].
    split; [done|congruence|by split; congruence|..].
    - intros id Hid. assert (same_at id s s1) as H1.
      { apply Hsame. destruct (decide (id = r_ID row)) as [->|]; [right|by left].
        destruct Hid as [Hid|]; [|done]. exfalso. set_solver. }
      assert (same_at id s1 s') as H2.
      { apply Hsp. destruct Hid as [Hid|Hid]; [left; set_solver|right]. by rewrite (stale_same now s). }
      destruct H1 as (? & ? & ?), H2 as (? & ? & ?). split_and!; congruence.
    - intros id. destruct (decide (id = r_ID row)) as [->|Hne].
      + destruct (Hsp (r_ID row)) as (-> & _ & _); [by left|done].
      + destruct (Hsame id) as (<- & _ & _); [by left|]. apply Hjb.
    - split; [by etrans|]. intros id Hid. rewrite Hqdel' by set_solver. apply Hqdel. set_solver.
    - intros Hw. destruct (Hrel Hw) as [Hw1 Hrec], (Hre) as [Hw' Hall]; [by apply Hrel|].
      split; [done|]. intros id [->|Hin]%elem_of_cons Hst.
      + destruct (Hrec Hst) as (Hj & Ho & Hd & Hqin).
        destruct (Hsp (r_ID row)) as (Hj' & Ho' & _); [by left|].
        split_and!; [congruence|congruence| |set_solver]. by rewrite Hqdel'.
      + assert (same_at id s s1) as Hsm by (apply Hsame; left; intros ->; done).
        rewrite <-(stale_same now s s1) in Hst by done.
        destruct (Hall id Hin Hst) as (Hj & Ho & Hd & Hqin). destruct Hsm as (Hj1 & _ & _).
        split_and!; [congruence|done|congruence|done]. }
  assert (¬ stale now s (r_ID row) → wp (reap_jobs now rows) s (λ _, reaped now (r_ID row :: (r_ID <$> rows)) s))
    as Hskip.
  { intros Hst. apply Hstep; [done|done|done|done|intros; by split_and!|by split|by left|intros Hw; by split]. }
  apply wp_bind. unfold wp at 1, reap_job.
  destruct (sv_lastSeen s !! r_ID row) as [seen|] eqn:Hseen.
  2:{ apply Hskip. intros (? & Hl & _). congruence. }
  case_bool_decide as Ht; [apply Hskip; intros (? & ? & ? & _); simplify_eq; lia|].
  destruct (sv_owner s !! r_ID row) as [o|] eqn:Ho; [|apply Hskip; intros (? & _ & _ & [? ?]); congruence].
  change (wp (requeue (job_of_row row)) s (λ _ s1,
    wp (reap_jobs now rows) s1 (λ _, reaped now (r_ID row :: (r_ID <$> rows)) s))).
  eapply wp_mono; [apply requeue_row_spec; [done|apply Hrows; set_solver]|].
  intros _ s1 ([Hi Hn Ho' Hl' Hd' Hv' Hrel'] & Hsame & Hqb & Hjobs & Hrec).
  apply Hstep; try done.
  - by destruct Hd' as [-> | ->].
  - by destruct Hd' as [-> | ->].
  - intros id [Hid|Hid]; [by apply Hsame|]. destruct Hid. exists seen. rewrite Ho. split_and!; [done|lia|done].
  - intros Hw. split; [by apply Hrel'|]. intros _. by apply Hrec.
Qed.

Lemma NoDup_select_desc {A} p (m : gmap Z A) : NoDup (select_desc p m).*1.
Proof.
  unfold select_desc. rewrite merge_sort_Permutation.
  apply (NoDup_fmap_fst (filter _ (map_to_list m))).
  - intros k x y [_ Hx%elem_of_map_to_list]%list_elem_of_filter [_ Hy%elem_of_map_to_list]%list_elem_of_filter.
    by simplify_eq.
  - apply NoDup_filter, NoDup_map_to_list.
Qed.

Lemma reaperTick_spec now s : qinv (w_q (sv_world s)) → db_ok (w_db (sv_world s)) →
  wp (reaperTick now) s (λ _ s', ∃ ids,
    (∀ id, id ∈ ids → ∃ j, jobs (w_db (sv_world s)) !! id = Some j ∧ status j = Running) ∧
    (reliable (sv_world s) → ∀ id j, jobs (w_db (sv_world s)) !! id = Some j → status j = Running → id ∈ ids) ∧
    reaped now ids s s').
Proof.
  intros Hq Hd. unfold reaperTick, ListJobs.
  set (p := λ (_ : Z) j, bool_decide ("running" = EmptyString) ||
                         bool_decide (job_status_text (status j) = "running")).
  set (all := (λ '(id, j), row_of id j) <$> select_desc p (jobs (w_db (sv_world s)))).
  assert (∀ id j, p id j = true ↔ status j = Running) as Hp.
  { intros id j. unfold p. rewrite orb_true_iff, !bool_decide_eq_true.
    destruct (status j); simpl; naive_solver. }
  assert (∀ row, row ∈ all → row_ok s row ∧ r_Status row = Running) as Hall.
  { intros row ([id j] & -> & [Hj Hpj]%elem_of_select_desc)%list_elem_of_fmap.
    destruct (ok_jobs _ Hd _ _ Hj) as [_ Hr _ _ _ _]. split; [by exists j|]. by eapply Hp. }
  assert (r_ID <$> all = (select_desc p (jobs (w_db (sv_world s)))).*1) as Hids.
  { unfold all. rewrite <-list_fmap_compose. apply list_fmap_ext. by intros _ [id j] _. }
  assert (NoDup (r_ID <$> all)) as Hnd by (rewrite Hids; apply NoDup_select_desc).
  assert (∀ rows w, (∀ row, row ∈ rows → row ∈ all) → NoDup (r_ID <$> rows) → w_db w = w_db (sv_world s) →
    w_q w = w_q (sv_world s) → w_now w = w_now (sv_world s) →
    (reliable (sv_world s) → reliable w ∧ rows = all) →
    wp (reap_jobs now rows) (Server w (sv_owner s) (sv_lastSeen s)) (λ _ s', ∃ ids,
      (∀ id, id ∈ ids → ∃ j, jobs (w_db (sv_world s)) !! id = Some j ∧ status j = Running) ∧
      (reliable (sv_world s) → ∀ id j, jobs (w_db (sv_world s)) !! id = Some j → status j = Running → id ∈ ids) ∧
      reaped now ids s s')) as Hgo.
  { intros rows w Hrows Hnd' Hw Hwq Hwn Hrel. eapply wp_mono; [apply reap_jobs_spec; sfields; [by rewrite Hwq|done|]|].
    - intros row Hin. destruct (Hall row (Hrows row Hin)) as [(j & Hj & ?) _]. exists j. sfields. by rewrite Hw.
    - intros _ s' [Hi Hn Hta Hsp Hjb Hqb Hre]. sfields. exists (r_ID <$> rows). split_and!.
      + intros id (row & -> & Hin)%list_elem_of_fmap.
        destruct (Hall row (Hrows row Hin)) as [(j & Hj & Hrow & _) Hst]. exists j. split; [done|].
        by rewrite Hrow in Hst.
      + intros Hrl id j Hj Hst. destruct (Hrel Hrl) as [_ ->]. rewrite Hids. apply list_elem_of_fmap.
        exists (id, j). split; [done|]. apply elem_of_select_desc. split; [done|]. by apply Hp.
      + unfold same_at, reclaimed in *. sfields. rewrite Hw, Hwq, Hwn in *.
        split; try done. intros Hrl. destruct (Hrel Hrl) as [Hrw _]. by apply Hre. }
  apply wp_bind, wp_on_world, wp_on_db, wp_call_rows; sfields.
  - intros fs Hfs. change (text_ok "running") with true. cbv iota. fold p. fold all.
    apply Hgo; try done. intros [Hdf Hqf]. split; [|done]. split; sfields; auto.
  - intros fs Hne. apply (Hgo []); try done; [by intros ? ?%not_elem_of_nil|constructor|].
    by intros [Hdf _].
  - intros fs l n Hne Hl. change (text_ok "running") with true in Hl. cbv iota in Hl. fold p in Hl. fold all in Hl.
    injection Hl as <-. apply Hgo; try done.
    + intros row (i & Hi & _)%elem_of_take. by eapply list_elem_of_lookup_2.
    + rewrite <-(take_drop n all), fmap_app in Hnd. by apply NoDup_app in Hnd as [? _].
    + by intros [Hdf _].
Qed.

(** *** Results, when nothing fails *)
Definition completed (id : Z) (out : string) (d : db) : db :=
  set_jobs (update_where (by_id id) (λ j, set_output out (set_status Completed j))) d.

Lemma handleResult_success_spec result sender s row :
  let id := res_JobId result in
  qinv (w_q (sv_world s)) → db_ok (w_db (sv_world s)) → reliable (sv_world s) →
  sv_owner s !! id = Some sender → jobs (w_db (sv_world s)) !! id = Some row →
  settled (status row) = false → res_Success result = true → text_ok (res_Output result) = true →
  wp (handleResult overflowed registry result sender) s (λ _ s',
    sv_owner s' = delete id (sv_owner s) ∧ sv_lastSeen s' = delete id (sv_lastSeen s) ∧
    qabs (w_q (sv_world s')) = q_settle id (qabs (w_q (sv_world s))) ∧
    qinv (w_q (sv_world s')) ∧ reliable (sv_world s') ∧
    match workflow_run_id row with
    | None => w_db (sv_world s') = completed id (res_Output result) (w_db (sv_world s))
    | Some runID => ∃ w1, reliable w1 ∧ w_db w1 = completed id (res_Output result) (w_db (sv_world s)) ∧
        qabs (w_q w1) = q_settle id (qabs (w_q (sv_world s))) ∧
        sv_world s' = (Advance registry runID w1).2
    end).
Proof.
  intros id Hq Hd [Hdf Hqf] Hown Hrow Hs Hok Htext. apply wp_handleResult.
  { intros Hno. by destruct Hno. }
  { intros fs _ Hfs. destruct (Hfs (conj Hdf Hqf)) as [_ Hst]. fold id in Hst. rewrite Hrow in Hst. congruence. }
  intros fs row' Hfs _ Hrow' _. fold id in Hrow'. rewrite Hrow in Hrow'. simplify_eq. rewrite Hok. fold id.
  rewrite (Hfs Hdf).
  apply wp_bind, wp_on_world. eapply wp_queue; [apply Ack_law|exact Hq|]. sfields.
  intros a q' fs1 Hq' Ha Hf1. destruct (Hf1 Hqf) as [Haok ->]. destruct a; [|done]. simpl in Ha.
  apply wp_bind, wp_on_world, wp_CompleteJob. sfields. intros r d' fs2 _ Hr Hf2.
  destruct (Hf2 eq_refl) as [-> Hrok]. specialize (Hr (Hrok Htext)). subst d'.
  apply wp_bind, wp_clearOwnership. sfields. fold (completed id (res_Output result) (w_db (sv_world s))).
  set (w1 := World (completed id (res_Output result) (w_db (sv_world s))) [] q' [] (w_now (sv_world s))).
  destruct (workflow_run_id row') as [runID|]; [|by apply wp_ret].
  apply wp_on_world.
  assert (wp (Advance registry runID) w1 (λ _ w', only_db w1 w')) as Hadv.
  { eapply wp_mono; [apply Advance_spec; by apply db_ok_update_jobs|]. by intros [] w' [[Ho _ _ _ _ _] _]. }
  unfold wp in *. sfields. destruct Hadv as [Haq Haqf _ Haf]. unfold reliable. rewrite Haq, Haqf, (Haf eq_refl).
  split_and!; try done. by exists w1.
Qed.

Lemma handleResult_failure_spec result sender s row :
  let id := res_JobId result in
  let n := retry_count row in
  let job := Build_Job id n (max_retries row) (type row) (payload row) in
  qinv (w_q (sv_world s)) → db_ok (w_db (sv_world s)) → reliable (sv_world s) →
  sv_owner s !! id = Some sender → jobs (w_db (sv_world s)) !! id = Some row →
  settled (status row) = false → res_Success result = false →
  wp (handleResult overflowed registry result sender) s (λ _ s',
    sv_owner s' = delete id (sv_owner s) ∧ sv_lastSeen s' = delete id (sv_lastSeen s) ∧
    let d := w_db (sv_world s) in let v := qabs (w_q (sv_world s)) in
    let d' := w_db (sv_world s') in let v' := qabs (w_q (sv_world s')) in
    if bool_decide (n < max_retries row) then
      d' = moved id Retrying (n + 1) d ∧
      v' = q_retry (set_RetryCount (n + 1) job)
             (UnixMilli (w_now (sv_world s) + retryDelay overflowed (n + 1))) v
    else
      v' = q_settle id v ∧
      d' = match workflow_run_id row with
           | Some runID => set_runs (update_where (by_id runID) (set_run_state RunFailed)) (moved id Failed n d)
           | None => moved id Failed n d
           end).
Proof.
  intros id n job Hq Hd [Hdf Hqf] Hown Hrow Hs Hfail. apply wp_handleResult.
  { intros Hno. by destruct Hno. }
  { intros fs _ Hfs. destruct (Hfs (conj Hdf Hqf)) as [_ Hst]. fold id in Hst. rewrite Hrow in Hst. congruence. }
  intros fs row' Hfs _ Hrow' _. fold id in Hrow'. rewrite Hrow in Hrow'. simplify_eq. rewrite Hfail. fold id n.
  rewrite (Hfs Hdf). destruct (ok_jobs _ Hd _ _ Hrow) as [_ Hrange Hmax _ _ _]. fold n in Hrange.
  cbv zeta. case_bool_decide as Hlt.
  - apply wp_bind, wp_on_world, wp_UpdateJobState. sfields. intros r d' fs1 _ Hr Hf1.
    destruct (Hf1 eq_refl) as [-> Hrok]. specialize (Hr (Hrok ltac:(lia))). subst d'.
    apply wp_bind, wp_clearOwnership. sfields.
    apply wp_bind, wp_on_world. eapply wp_queue; [apply Retry_law|exact Hq|]. sfields.
    intros a q' fs2 Hq' Ha Hf2. destruct (Hf2 Hqf) as [Haok _]. destruct a; [|done].
    apply wp_ret. sfields. by split_and!.
  - apply wp_bind, wp_on_world, wp_UpdateJobState. sfields. intros r d' fs1 _ Hr Hf1.
    destruct (Hf1 eq_refl) as [-> Hrok]. specialize (Hr (Hrok ltac:(lia))). subst d'.
    apply wp_bind, wp_clearOwnership. sfields.
    apply wp_bind, wp_on_world. eapply wp_queue; [apply Fail_law|exact Hq|]. sfields.
    intros a q' fs2 Hq' Ha Hf2. destruct (Hf2 Hqf) as [Haok _]. destruct a; [|done].
    destruct (workflow_run_id row') as [runID|]; [|apply wp_ret; sfields; by split_and!].
    apply wp_bind, wp_on_world, wp_db_call; sfields; intros; apply wp_ret; sfields; by split_and!.
Qed.

(** *** Handing out a job *)
Lemma work_ready_spec ctx fuel workerID send_err s : qinv (w_q (sv_world s)) →
  wp (work_ready ctx fuel workerID send_err) s (λ o s',
    qinv (w_q (sv_world s')) ∧
    match o with
    | Continue inFlight sent => ∃ job,
        send_err = None ∧ inFlight = Some job ∧ sent = Some (task_of job) ∧
        consume_spec (qabs (w_q (sv_world s))) (Some (Ok job)) (qabs (w_q (sv_world s'))) ∧
        sv_owner s' = <[j_ID job := workerID]> (sv_owner s) ∧
        sv_lastSeen s' = <[j_ID job := w_now (sv_world s)]> (sv_lastSeen s) ∧
        w_db (sv_world s') = moved (j_ID job) Running (j_RetryCount job) (w_db (sv_world s))
    | Return _ => sv_owner s' ⊆ sv_owner s
    | Waiting => w_db (sv_world s') = w_db (sv_world s) ∧ sv_owner s' = sv_owner s ∧
                 sv_lastSeen s' = sv_lastSeen s
    end).
Proof.
  intros Hq. apply wp_bind, wp_on_world. eapply wp_queue; [apply Consume_law|exact Hq|]. sfields.
  intros o q' fs Hq' Hcon _. destruct o as [[job|err]|]; [|apply wp_ret; sfields; by split_and!..].
  apply wp_bind. unfold wp at 1, owner_Store. sfields. apply wp_bind. unfold wp at 1, lastSeen_Store. sfields.
  apply wp_bind, wp_on_world, wp_UpdateJobState. sfields. intros r d' fs1 _ Hr _.
  assert (delete (j_ID job) (<[j_ID job := workerID]> (sv_owner s)) ⊆ sv_owner s) as Hsub.
  { rewrite delete_insert_eq. apply delete_subseteq. }
  destruct r as [[]|err].
  - destruct send_err as [err|].
    + apply wp_bind. eapply wp_mono; [by apply requeue_spec|]. intros _ s' [Hi _ Ho _ _ _ _].
      apply wp_ret. split; [done|]. by rewrite Ho.
    + apply wp_ret. sfields. split; [done|]. exists job. split_and!; try done. auto.
  - apply wp_bind, wp_clearOwnership. by apply wp_ret.
Qed.
End handlers.

(** ** Properties *)

(** C29: a result or a heartbeat from a worker that does not own the job changes
    nothing; a result for a job that is already completed, failed or cancelled
    changes neither the database nor the queue, whatever fails, and ends the
    ownership. *)
Theorem stale_results_change_nothing Q `(HQ : QueueLaws Q) overflowed registry result sender (s : server Q)
    (Hstale : sv_owner s !! res_JobId result ≠ Some sender ∨
      ∃ j, jobs (w_db (sv_world s)) !! res_JobId result = Some j ∧ settled (status j) = true) :
  wp (handleResult overflowed registry result sender) s (λ _ s',
    w_db (sv_world s') = w_db (sv_world s) ∧ w_q (sv_world s') = w_q (sv_world s) ∧
    (sv_owner s !! res_JobId result ≠ Some sender → s' = s) ∧
    (sv_owner s !! res_JobId result = Some sender → sv_owner s' = delete (res_JobId result) (sv_owner s))) ∧
  (sv_owner s !! res_JobId result ≠ Some sender →
   recordHeartbeat (res_JobId result) sender s = (false, s)).
Proof.
  split.
  - apply wp_handleResult; sfields.
    + intros Hno. by split_and!.
    + intros fs Hown _. by split_and!.
    + intros fs row Hfs Hown Hrow Hs. destruct Hstale as [Hno|(j & Hj & Hst)]; [done|].
      rewrite Hrow in Hj. simplify_eq. congruence.
  - intros Hno. unfold recordHeartbeat, workerOwnsJob, mbind, M_bind.
    by rewrite bool_decide_false.
Qed.

(** C21: when nothing fails, a success reported by the owner makes the job completed
    with its output, removes it from the queue, ends the ownership and, for a step of
    a run, goes on to [Advance] from there. *)
Theorem success_completes_the_job Q `(HQ : QueueLaws Q) overflowed registry result sender (s : server Q) row
    (id := res_JobId result)
    (Hq : qinv (w_q (sv_world s))) (Hd : db_ok (w_db (sv_world s))) (Hrel : reliable (sv_world s))
    (Hown : sv_owner s !! id = Some sender) (Hrow : jobs (w_db (sv_world s)) !! id = Some row)
    (Hs : settled (status row) = false) (Hok : res_Success result = true)
    (Htext : text_ok (res_Output result) = true) :
  wp (handleResult overflowed registry result sender) s (λ _ s',
    sv_owner s' = delete id (sv_owner s) ∧
    qabs (w_q (sv_world s')) = q_settle id (qabs (w_q (sv_world s))) ∧
    jobs (w_db (sv_world s')) !! id = Some (set_output (res_Output result) (set_status Completed row)) ∧
    match workflow_run_id row with
    | None => w_db (sv_world s') = completed id (res_Output result) (w_db (sv_world s))
    | Some runID => ∃ w1, reliable w1 ∧ w_db w1 = completed id (res_Output result) (w_db (sv_world s)) ∧
        qabs (w_q w1) = q_settle id (qabs (w_q (sv_world s))) ∧
        sv_world s' = (Advance registry runID w1).2
    end).
Proof.
  eapply wp_mono; [by eapply handleResult_success_spec|]. intros [] s' (Ho & _ & Hv & _ & _ & Hdb).
  assert (jobs (completed id (res_Output result) (w_db (sv_world s))) !! id =
    Some (set_output (res_Output result) (set_status Completed row))) as Hdone.
  { unfold completed. simpl. by rewrite lookup_update_id, Hrow. }
  split_and!; [done|done| |done].
  destruct (workflow_run_id row) as [runID|]; [|by rewrite Hdb].
  destruct Hdb as (w1 & _ & Hw1 & _ & ->).
  assert (wp (Advance registry runID) w1 (λ _ w', jobs (w_db w1) ⊆ jobs (w_db w'))) as Hkeep.
  { eapply wp_mono; [apply Advance_spec; rewrite Hw1; by apply db_ok_update_jobs|].
    by intros [] w' [[_ Hj _ _ _ _] _]. }
  eapply lookup_weaken; [|exact Hkeep]. by rewrite Hw1.
Qed.

(** C11: when nothing fails, a failure reported by the owner schedules the job again
    with one more retry used, 2^n seconds ahead for the n-th retry up to the 33rd, and
    makes it failed, out of the queue, with its run, once its retries are used up. *)
Theorem failure_retries_then_fails Q `(HQ : QueueLaws Q) overflowed registry result sender (s : server Q) row
    (id := res_JobId result) (n := retry_count row)
    (Hq : qinv (w_q (sv_world s))) (Hd : db_ok (w_db (sv_world s))) (Hrel : reliable (sv_world s))
    (Hown : sv_owner s !! id = Some sender) (Hrow : jobs (w_db (sv_world s)) !! id = Some row)
    (Hs : settled (status row) = false) (Hfail : res_Success result = false) :
  wp (handleResult overflowed registry result sender) s (λ _ s',
    sv_owner s' = delete id (sv_owner s) ∧
    let v' := qabs (w_q (sv_world s')) in
    (n < max_retries row →
       jobs (w_db (sv_world s')) !! id = Some (set_retry (n + 1) (set_status Retrying row)) ∧
       payloads v' !! Itoa id =
         Some (MarshalJob (Build_Job id (n + 1) (max_retries row) (type row) (payload row))) ∧
       (n < 33 → delayed v' !! Itoa id = Some (UnixMilli (w_now (sv_world s) + 2 ^ (n + 1) * second)))) ∧
    (max_retries row ≤ n →
       jobs (w_db (sv_world s')) !! id = Some (set_status Failed row) ∧
       v' = q_settle id (qabs (w_q (sv_world s))) ∧
       ∀ runID r, workflow_run_id row = Some runID → runs (w_db (sv_world s)) !! runID = Some r →
         runs (w_db (sv_world s')) !! runID = Some (set_run_state RunFailed r))).
Proof.
  eapply wp_mono; [by eapply handleResult_failure_spec|]. intros [] s' (Ho & _ & Hrest).
  destruct (ok_jobs _ Hd _ _ Hrow) as [_ Hrange _ _ _ _].
  fold id n in Ho, Hrest. cbv zeta in Hrest. case_bool_decide as Hlt.
  - destruct Hrest as [Hdb Hv]. split; [done|]. cbv zeta. split; [|intros; lia]. intros _.
    rewrite Hdb, lookup_moved, Hrow.
    split_and!; [done|rewrite Hv; simpl; by rewrite lookup_insert_eq|].
    intros Hn. rewrite Hv. simpl. rewrite lookup_insert_eq. do 3 f_equal.
    apply retryDelay_exact. lia.
  - destruct Hrest as [Hv Hdb]. split; [done|]. cbv zeta. split; [done|]. intros _.
    assert (set_retry n (set_status Failed row) = set_status Failed row) as Hset by (by destruct row).
    assert (jobs (moved id Failed n (w_db (sv_world s))) !! id = Some (set_status Failed row)) as Hj
      by (rewrite lookup_moved, Hrow; simpl; by rewrite Hset).
    split_and!; [by destruct (workflow_run_id row); rewrite Hdb|done|].
    intros runID r Hr Hrun. rewrite Hr in Hdb. rewrite Hdb. simpl. by rewrite lookup_update_id, Hrun.
Qed.

(** Whatever fails, handling a result keeps the schema's constraints and the
    retry budget: no job has used more retries than it has. *)
Theorem handleResult_keeps_the_budget Q `(HQ : QueueLaws Q) overflowed registry result sender (s : server Q)
    (Hq : qinv (w_q (sv_world s))) (Hd : db_ok (w_db (sv_world s)))
    (Hb : ∀ id j, jobs (w_db (sv_world s)) !! id = Some j → retry_count j ≤ max_retries j) :
  wp (handleResult overflowed registry result sender) s (λ _ s',
    db_ok (w_db (sv_world s')) ∧
    ∀ id j, jobs (w_db (sv_world s')) !! id = Some j → retry_count j ≤ max_retries j).
Proof. eapply wp_mono; [by apply handleResult_healthy|]. by intros [] s' [[] _]. Qed.

(** C16: the reaper takes back only running jobs whose owner has been silent for 30
    seconds: whatever fails, every other job keeps its row, owner and last heartbeat;
    when nothing fails, each such job becomes pending, loses its owner and is due
    again at once. *)
Theorem reaper_reclaims_exactly_the_stale Q `(HQ : QueueLaws Q) now (s : server Q)
    (Hq : qinv (w_q (sv_world s))) (Hd : db_ok (w_db (sv_world s))) :
  wp (reaperTick now) s (λ _ s',
    (∀ id, ¬ (stale now s id ∧ ∃ j, jobs (w_db (sv_world s)) !! id = Some j ∧ status j = Running) →
       same_at id s s') ∧
    (∀ id j, jobs (w_db (sv_world s)) !! id = Some j →
       jobs (w_db (sv_world s')) !! id = Some j ∨
       jobs (w_db (sv_world s')) !! id = Some (set_status Pending j)) ∧
    (reliable (sv_world s) → ∀ id j, jobs (w_db (sv_world s)) !! id = Some j → status j = Running →
       stale now s id → reclaimed id s s')).
Proof.
  eapply wp_mono; [by apply reaperTick_spec|]. intros [] s' (ids & Hrun & Hall & [_ _ _ Hsp Hjb _ Hrel]).
  split_and!.
  - intros id Hno. apply Hsp. destruct (decide (id ∈ ids)) as [Hin|]; [right|by left].
    intros Hst. apply Hno. split; [done|]. by apply Hrun.
  - intros id j Hj. destruct (Hjb id) as [-> | ->]; rewrite Hj; auto.
  - intros Hw id j Hj Hst Hstale. apply Hrel; [done| |done]. by eapply Hall.
Qed.

(** C31: a Ready message is answered with a task only when a job was consumed, is
    marked running in the database and owned by that worker; a return with an error
    leaves no new owner behind, and waiting changes neither jobs nor owners.  The task
    carries the job's ID exactly when it fits 32 bits. *)
Theorem ready_hands_out_owned_jobs Q `(HQ : QueueLaws Q) ctx fuel workerID send_err (s : server Q)
    (Hq : qinv (w_q (sv_world s))) :
  wp (work_ready ctx fuel workerID send_err) s (λ o s',
    match o with
    | Continue inFlight sent => ∃ job,
        send_err = None ∧ inFlight = Some job ∧ sent = Some (task_of job) ∧
        consume_spec (qabs (w_q (sv_world s))) (Some (Ok job)) (qabs (w_q (sv_world s'))) ∧
        sv_owner s' !! j_ID job = Some workerID ∧
        sv_lastSeen s' !! j_ID job = Some (w_now (sv_world s)) ∧
        (∀ row, jobs (w_db (sv_world s)) !! j_ID job = Some row →
           ∃ row', jobs (w_db (sv_world s')) !! j_ID job = Some row' ∧ status row' = Running) ∧
        (task_JobId (task_of job) = j_ID job ↔ in_int32 (j_ID job) = true)
    | Return _ => sv_owner s' ⊆ sv_owner s
    | Waiting => jobs (w_db (sv_world s')) = jobs (w_db (sv_world s)) ∧ sv_owner s' = sv_owner s
    end).
Proof.
  eapply wp_mono; [by apply work_ready_spec|]. intros o s' [_ Ho].
  destruct o as [inFlight sent|err|]; [|done|by destruct Ho as (-> & -> & _)].
  destruct Ho as (job & Hse & Hin & Hsent & Hcon & Hown & Hseen & Hdb). exists job. split_and!; try done.
  - by rewrite Hown, lookup_insert_eq.
  - by rewrite Hseen, lookup_insert_eq.
  - intros row Hrow. rewrite Hdb, lookup_moved, Hrow. eauto.
  - unfold task_of, to_int32, wrap. cbn [task_JobId]. rewrite in_int32_spec.
    change (32 - 1) with 31. pose proof (Z.mod_pos_bound (j_ID job + 2 ^ 31) (2 ^ 32) ltac:(lia)).
    split; [intros <-; lia|]. intros Hr. rewrite Z.mod_small by lia. lia.
Qed.

(** A worker that disconnects gives its job back without a look at the database:
    when nothing fails, a job that was cancelled or completed meanwhile becomes
    pending, is queued again, and its current owner is forgotten. *)
Theorem disconnect_revives_settled_jobs Q `(HQ : QueueLaws Q) job err (s : server Q) row
    (Hq : qinv (w_q (sv_world s))) (Hrel : reliable (sv_world s))
    (Hcount : 0 ≤ j_RetryCount job < 2 ^ 31)
    (Hrow : jobs (w_db (sv_world s)) !! j_ID job = Some row) (Hs : settled (status row) = true) :
  wp (work_disconnect (Some job) err) s (λ o s',
    o = Return err ∧ sv_owner s' !! j_ID job = None ∧
    (∃ row', jobs (w_db (sv_world s')) !! j_ID job = Some row' ∧ status row' = Pending) ∧
    let v' := qabs (w_q (sv_world s')) in
    delayed v' !! Itoa (j_ID job) = Some (UnixMilli (w_now (sv_world s))) ∧ Itoa (j_ID job) ∈ queued v' ∧
    payloads v' !! Itoa (j_ID job) = Some (MarshalJob job)).
Proof.
  apply wp_bind. eapply wp_mono; [by apply requeue_spec|]. intros _ s' [_ _ Ho _ _ _ Hr].
  destruct (Hr Hrel) as (_ & Hv & Hdb). apply wp_ret. split_and!; [done| | |].
  - by rewrite Ho, lookup_delete_eq.
  - rewrite Hdb, lookup_moved, Hrow by done. eauto.
  - rewrite Hv. simpl. rewrite !lookup_insert_eq. split_and!; try done. set_solver.
Qed.

(** C40: the delay before retry [n] is exactly 2^n seconds up to the 33rd retry; from
    then on it is always too short, whatever the conversion of the overflowing float
    gives: up to the 62nd retry the product wraps around and a positive multiple of
    2^64 ns is missing; the 34th delay is negative and from the 55th to the 62nd it is
    zero, so those retries are due at once. *)
Theorem retryDelay_exact_then_overflows overflowed :
  (∀ n, 0 ≤ n ≤ 33 → retryDelay overflowed n = 2 ^ n * second) ∧
  (∀ n, 0 ≤ n < 33 → retryDelay overflowed n < retryDelay overflowed (n + 1)) ∧
  (∀ n, 34 ≤ n → retryDelay overflowed n < 2 ^ n * second) ∧
  (∀ n, 34 ≤ n < 63 → ∃ k, 0 < k ∧ retryDelay overflowed n = 2 ^ n * second - k * 2 ^ 64) ∧
  retryDelay overflowed 34 < 0 ∧
  (∀ n, 55 ≤ n < 63 → retryDelay overflowed n = 0).
Proof.
  split_and!.
  - intros n Hn. by apply retryDelay_exact.
  - intros n Hn. rewrite !retryDelay_exact by lia. rewrite Z.pow_add_r by lia. unfold second.
    assert (0 < 2 ^ n) by (apply Z.pow_pos_nonneg; lia). lia.
  - intros n Hn. pose proof (long_delay n Hn). unfold retryDelay.
    match goal with |- to_int64 ?z < _ => pose proof (to_int64_range z) end. lia.
  - intros n Hn. pose proof (long_delay n ltac:(lia)) as Hl. unfold retryDelay.
    rewrite (proj2 (Z.ltb_ge n 0)), (proj2 (Z.ltb_lt n 63)) by lia. eexists. split; [|apply to_int64_congruent].
    apply Z.div_str_pos. change (2 ^ 64) with (2 ^ 63 + 2 ^ 63). lia.
  - by vm_compute.
  - intros n Hn. assert (n = 55 ∨ n = 56 ∨ n = 57 ∨ n = 58 ∨ n = 59 ∨ n = 60 ∨ n = 61 ∨ n = 62) as Hc by lia.
    destruct Hc as [->|[->|[->|[->|[->|[->|[-> | ->]]]]]]]; by vm_compute.
Qed.

(** ** Witnesses *)
#[local] Instance srv_Queue : Queue Store := RedisQueue_ops jobs_queue.
#[local] Instance srv_QueueLaws : QueueLaws Store := RedisQueue_laws "jobs" 1000000000.

(** Job 1 runs on worker w; its processing entry is in the queue. *)
Definition busy_store : Store := Build_Store
  {["jobs:processing" := VList ["1"];
    "jobs:payloads" := VHash {["1" := MarshalJob (Build_Job 1 1 3 "shell" "{}")]};
    "jobs:queued" := VSet {["1"]}]}.
Definition busy_server : server Store :=
  Server (World example_db [] busy_store [] 0) {[1 := "w"]} {[1 := 0]}.
Definition no_overflow (n : Z) : Z := 0.

Lemma busy_inv : qinv (w_q (sv_world busy_server)).
Proof. split; vm_compute; reflexivity. Qed.

Lemma stale_results_change_nothing_witness :
  wp (handleResult no_overflow backup_registry (Build_TaskResult 1 true "" "") "other") busy_server
    (λ _ s', w_db (sv_world s') = example_db).
Proof.
  eapply wp_mono; [apply (stale_results_change_nothing Store srv_QueueLaws no_overflow backup_registry
    (Build_TaskResult 1 true "" "") "other" busy_server)|].
  - left. vm_compute. discriminate.
  - intros [] s' [Hd _]. exact Hd.
Defined.

Lemma success_completes_the_job_witness :
  wp (handleResult no_overflow backup_registry (Build_TaskResult 1 true "" "done") "w") busy_server
    (λ _ s', sv_owner s' !! 1 = None).
Proof.
  eapply wp_mono; [eapply (success_completes_the_job Store srv_QueueLaws no_overflow backup_registry
    (Build_TaskResult 1 true "" "done") "w" busy_server
    (JobRec Running 1 3 "shell" "{}" None None None) busy_inv example_db_ok); try reflexivity; by split|].
  intros [] s' (-> & _). reflexivity.
Defined.

Lemma failure_retries_then_fails_witness :
  wp (handleResult no_overflow backup_registry (Build_TaskResult 1 false "exit 1" "") "w") busy_server
    (λ _ s', delayed (qabs (w_q (sv_world s'))) !! "1" = Some 4000).
Proof.
  eapply wp_mono; [eapply (failure_retries_then_fails Store srv_QueueLaws no_overflow backup_registry
    (Build_TaskResult 1 false "exit 1" "") "w" busy_server
    (JobRec Running 1 3 "shell" "{}" None None None) busy_inv example_db_ok); try reflexivity; by split|].
  intros [] s' (_ & Hretry & _). apply Hretry; reflexivity.
Defined.

Lemma handleResult_keeps_the_budget_witness :
  wp (handleResult no_overflow backup_registry (Build_TaskResult 1 false "exit 1" "") "w")
    (Server (World example_db [FOk; FLate] busy_store [FLost] 0) {[1 := "w"]} {[1 := 0]})
    (λ _ s', db_ok (w_db (sv_world s'))).
Proof.
  eapply wp_mono; [apply (handleResult_keeps_the_budget Store srv_QueueLaws no_overflow backup_registry
    (Build_TaskResult 1 false "exit 1" "") "w"
    (Server (World example_db [FOk; FLate] busy_store [FLost] 0) {[1 := "w"]} {[1 := 0]}) busy_inv example_db_ok)|].
  - intros id j Hj. simpl in Hj.
    apply lookup_insert_Some in Hj as [[_ <-]|[_ [_ <-]%lookup_singleton_Some]]; simpl; lia.
  - intros [] s' [Hd _]. exact Hd.
Defined.

Lemma reaper_reclaims_exactly_the_stale_witness :
  wp (reaperTick 31000000000) busy_server (λ _ s', reclaimed 1 busy_server s').
Proof.
  eapply wp_mono; [apply (reaper_reclaims_exactly_the_stale Store srv_QueueLaws 31000000000 busy_server
    busy_inv example_db_ok)|].
  intros [] s' (_ & _ & Hrec). eapply Hrec; [by split|reflexivity|reflexivity|].
  exists 0. split_and!; [reflexivity|vm_compute; discriminate|eexists; reflexivity].
Defined.

Lemma ready_hands_out_owned_jobs_witness :
  (work_ready Background 2 "w" None (Server (World example_db [] stale_store [] 0) ∅ ∅)).1 =
    Continue (Some example_job) (Some (task_of example_job)) ∧
  wp (work_ready Background 2 "w" None) (Server (World example_db [] stale_store [] 0) ∅ ∅)
    (λ o s', ∀ sent inFlight, o = Continue inFlight sent →
       ∃ job, inFlight = Some job ∧ sv_owner s' !! j_ID job = Some "w").
Proof.
  split; [vm_compute; reflexivity|].
  eapply wp_mono; [apply (ready_hands_out_owned_jobs Store srv_QueueLaws Background 2 "w" None
    (Server (World example_db [] stale_store [] 0) ∅ ∅) stale_represents)|].
  intros o s' Ho sent inFlight ->. destruct Ho as (job & _ & -> & _ & _ & Hown & _).
  exists job. split; [reflexivity|exact Hown].
Defined.

Lemma disconnect_revives_settled_jobs_witness :
  wp (work_disconnect (Some (Build_Job 1 0 2 "shell" "{}")) ErrCanceled)
    (Server (World backup_db [] empty_store [] 0) {[1 := "w"]} ∅) (λ o s',
    ∃ row', jobs (w_db (sv_world s')) !! 1 = Some row' ∧ status row' = Pending).
Proof.
  eapply wp_mono; [eapply (disconnect_revives_settled_jobs Store srv_QueueLaws
    (Build_Job 1 0 2 "shell" "{}") ErrCanceled
    (Server (World backup_db [] empty_store [] 0) {[1 := "w"]} ∅)
    (backup_job 0 Completed (Some "dump")) empty_represents); try reflexivity; by split|].
  intros o s' (_ & _ & Hrow & _). exact Hrow.
Defined.
