(* ===== verification/System.v ===== *)
(** * The whole server process

    Models how cmd/server/main.go puts the components together: [startup] is what
    runs before anything is served, [step] is one event of the running process (a
    call of a service, a tick of a background loop, a message or the end of a
    worker's stream), and a crash is a restart at any point between two events; a crash
    in the middle of an event is the event with all its later calls lost, and a restart.
    Each event comes with its own environment: what fails during it, and the time.  A
    restart comes with the registry that it loads: the files of workflows/ may change
    between two starts.  The history (the jobs that were settled or completed, the IDs whose [Enqueue] failed
    halfway) is kept beside the state; the program does not read it. *)
From stdpp Require Import gmap strings list fin_maps fin_sets sorting.
From S2P Require Import Prelude Text Json Redis Queue RedisQueue Db Outbox Service.
From S2P Require Import Workflow.
From S2P Require Import Server.
Open Scope Z_scope.

(** ** Events *)
Record env : Type := Env { env_db : list fault; env_q : list fault; env_now : Z }.

Inductive event : Type :=
  | EvRestart (loaded : option Registry)
  | EvSubmit (maxRetries : Z) (jobType payload : string)
  | EvCancelJob (jobID : Z)
  | EvTrigger (name : string)
  | EvCancelRun (runID : Z)
  | EvSchedule (name : string)
  | EvRelay (locked : gset Z)
  | EvCleanup
  | EvPromote
  | EvReap
  | EvConnect (stream : nat)
  | EvDisconnect (stream : nat) (err : goerr)
  | EvMessage (stream : nat) (workerID : string) (p : WorkerPayload)
      (ctx : Ctx) (fuel : nat) (send_err : option goerr).

Record system (Q : Type) : Type := System {
  sy_up : bool;                               (* the process is serving *)
  sy_registry : Registry;                     (* as loaded at the last start *)
  sy_server : server Q;
  sy_streams : gmap nat (option Job);         (* the open streams and their inFlight *)
  sy_finished : gset Z;                       (* jobs that were settled or reported on *)
  sy_completed : gset Z;                      (* jobs that were completed *)
  sy_marked : gset string;                    (* IDs whose Enqueue failed halfway *)
}.
Arguments System {Q} _ _ _ _ _ _ _.
Arguments sy_up {Q} _.
Arguments sy_registry {Q} _.
Arguments sy_server {Q} _.
Arguments sy_streams {Q} _.
Arguments sy_finished {Q} _.
Arguments sy_completed {Q} _.
Arguments sy_marked {Q} _.

Definition settled_ids (d : db) : gset Z := dom (filter (λ kj, settled (status kj.2) = true) (jobs d)).
Definition completed_ids (d : db) : gset Z := dom (filter (λ kj, status kj.2 = Completed) (jobs d)).

Section system.
Context {Q : Type} `{Queue Q}.
Variable overflowed : Z → Z.

Definition in_env (e : env) (s : server Q) : server Q :=
  Server (World (w_db (sv_world s)) (env_db e) (w_q (sv_world s)) (env_q e) (env_now e))
    (sv_owner s) (sv_lastSeen s).

(** An error ends the process. *)
Definition startup : M (world Q) (result unit) :=
  try_bind (on_db ResetRunningJobs) (λ _, on_q Recover).

(** The state after an event, with the history: [reported] are jobs that left the
    queue because of a result.  An ID that is marked without a payload is one whose
    [Enqueue] failed after SADD and before the payload was set. *)
Definition after (sy : system Q) (up : bool) (streams : gmap nat (option Job)) (reported : gset Z)
    (s' : server Q) : system Q :=
  System up (sy_registry sy) s' streams
    (sy_finished sy ∪ settled_ids (w_db (sv_world s')) ∪ reported)
    (sy_completed sy ∪ completed_ids (w_db (sv_world s')))
    (sy_marked sy ∪ unbacked (qabs (w_q (sv_world s')))).

(** A result that [handleResult] accepts as the last one of its job. *)
Definition final_result (s : server Q) (workerID : string) (p : WorkerPayload) : option Z :=
  match p with
  | MsgResult result =>
      let id := res_JobId result in
      if bool_decide (sv_owner s !! id = Some workerID) &&
         match jobs (w_db (sv_world s)) !! id with
         | Some j => negb (settled (status j)) &&
                     (res_Success result || bool_decide (max_retries j ≤ retry_count j))
         | None => false
         end
      then Some id else None
  | _ => None
  end.
Definition reported (s s' : server Q) (workerID : string) (p : WorkerPayload) : gset Z :=
  match final_result s workerID p with
  | Some id => if bool_decide (Itoa id ∈ queued (qabs (w_q (sv_world s')))) then ∅ else {[id]}
  | None => ∅
  end.

Definition step_message (stream : nat) (workerID : string) (p : WorkerPayload) (ctx : Ctx) (fuel : nat)
    (send_err : option goerr) (s : server Q) (sy : system Q) : system Q :=
  match sy_streams sy !! stream with
  | None => sy
  | Some inFlight =>
      let '(o, s') := work_message overflowed (sy_registry sy) ctx fuel send_err workerID p inFlight s in
      let streams := match o with
                     | Continue inFlight _ => <[stream := inFlight]> (sy_streams sy)
                     | Return _ => delete stream (sy_streams sy)
                     | Waiting => sy_streams sy
                     end in
      after sy true streams (reported s s' workerID p) s'
  end.

Definition serve (ev : event) (s : server Q) (sy : system Q) : system Q :=
  let go {A} (m : M (server Q) A) := after sy true (sy_streams sy) ∅ (m s).2 in
  match ev with
  | EvRestart _ => sy
  | EvSubmit n t p => go (on_world (SubmitJob n t p))
  | EvCancelJob id => go (on_world (CancelJob id))
  | EvTrigger name => go (on_world (TriggerWorkflow (sy_registry sy) name))
  | EvCancelRun id => go (on_world (CancelWorkflowRun id))
  | EvSchedule name => go (on_world (scheduler_tick (sy_registry sy) name))
  | EvRelay locked => go (on_world (relay locked))
  | EvCleanup => go (on_world cleanup_tick)
  | EvPromote => go (on_world (on_q promoteDueJobs))
  | EvReap => go (reaperTick (w_now (sv_world s)))
  | EvConnect stream =>
      match sy_streams sy !! stream with
      | None => after sy true (<[stream := None]> (sy_streams sy)) ∅ s
      | Some _ => sy
      end
  | EvDisconnect stream err =>
      match sy_streams sy !! stream with
      | None => sy
      | Some inFlight => after sy true (delete stream (sy_streams sy)) ∅ (work_disconnect inFlight err s).2
      end
  | EvMessage stream workerID p ctx fuel send_err => step_message stream workerID p ctx fuel send_err s sy
  end.

Definition with_registry (registry : Registry) (sy : system Q) : system Q :=
  System (sy_up sy) registry (sy_server sy) (sy_streams sy) (sy_finished sy) (sy_completed sy) (sy_marked sy).

(** One event.  [EvRestart] is a new process with nothing in memory.  It recovers and
    loads its registry; [None] is a start that ends after that, because workflows/ cannot
    be loaded or the port is taken ([Main.boot] models the loading). *)
Definition step (e : env) (ev : event) (sy : system Q) : system Q :=
  let s := in_env e (sy_server sy) in
  match ev with
  | EvRestart loaded =>
      let '(r, w) := startup (sv_world s) in
      after (with_registry (default NewRegistry loaded) sy) (is_ok r && bool_decide (is_Some loaded)) ∅ ∅
        (Server w ∅ ∅)
  | _ => if sy_up sy then serve ev s sy else sy
  end.

(** Nothing in the tables and the queue, nothing started. *)
Definition fresh (q : Q) : system Q := System false NewRegistry (Server (World db_empty [] q [] 0) ∅ ∅) ∅ ∅ ∅ ∅.

(** The BIGSERIAL of jobs has not run out. *)
Definition ids_left (sy : system Q) : Prop := next_job (w_db (sv_world (sy_server sy))) ≤ 2 ^ 63.

(** The states of the process from a fresh start on, every registry it loads in [R]. *)
Definition loads (R : Registry → Prop) (ev : event) : Prop := ∀ registry, ev = EvRestart (Some registry) → R registry.
Inductive reachable (R : Registry → Prop) (q : Q) : system Q → Prop :=
  | reach_fresh : reachable R q (fresh q)
  | reach_step e ev sy : reachable R q sy → loads R ev → ids_left (step e ev sy) → reachable R q (step e ev sy).
End system.

(** ** The invariant

    [B] are the IDs whose [Enqueue] failed halfway, [F] the jobs that may be forgotten,
    [C] those that were completed once.  [ref] is the registry of all starts, when they
    load the same. *)
Section invariant.
Context {Q : Type} `{QueueLaws Q}.
Variable ref : option Registry.
Implicit Types (w : world Q) (B : gset string) (F C : gset Z).

Definition tracked w (id : Z) : Prop :=
  has_unprocessed (w_db w) id = true ∨ Itoa id ∈ queued (qabs (w_q w)).

Definition follows (registry : Registry) : Prop := ∀ reg, ref = Some reg →
  registry = reg ∧ ∀ name wf, Get reg name = Some wf → Name wf = name.

(** Every dependency of the step a job runs has a job of the same run that was completed. *)
Definition ordered_at C (d : db) (j : job_rec) : Prop := ∀ registry r i run wf step dep, ref = Some registry →
  workflow_run_id j = Some r → step_index j = Some (Z.of_nat i) → runs d !! r = Some run →
  Get registry (workflow_name run) = Some wf → Steps (Normalize wf) !! i = Some step → dep ∈ deps step →
  ∃ k s id j', Steps (Normalize wf) !! k = Some s ∧ ID s = dep ∧ jobs d !! id = Some j' ∧
    same_step r (Z.of_nat k) id j' = true ∧ id ∈ C.

Record sound B F C w : Prop := {
  so_inv : qinv (w_q w);
  so_db : db_ok (w_db w);
  so_safe : safe_but B (qabs (w_q w));
  so_tracked : ∀ id, is_Some (jobs (w_db w) !! id) → id ∈ F ∨ tracked w id;
  so_completed : ∀ id j, jobs (w_db w) !! id = Some j → status j = Completed → id ∈ C;
  so_ordered : ∀ id j, jobs (w_db w) !! id = Some j → ordered_at C (w_db w) j;
}.

(** Jobs keep their place in their run, runs keep their workflow. *)
Definition same_place (j j' : job_rec) : Prop :=
  workflow_run_id j' = workflow_run_id j ∧ step_index j' = step_index j.
Record kept (d d' : db) : Prop := {
  kp_jobs : ∀ id j, jobs d !! id = Some j → ∃ j', jobs d' !! id = Some j' ∧ same_place j j';
  kp_runs : names_kept d d';
}.

Lemma ordered_at_kept C C' d d' id j j' : db_ok d → kept d d' → C ⊆ C' → jobs d !! id = Some j →
  same_place j j' → ordered_at C d j → ordered_at C' d' j'.
Proof.
  intros Hd [Hkj Hkr] HC Hj [Hr Hi] Ho registry r i run wf step dep Href Hr' Hi' Hrun Hwf Hstep Hdep.
  rewrite Hr in Hr'. rewrite Hi in Hi'.
  destruct (job_run_ok _ _ _ (ok_jobs _ Hd _ _ Hj) _ Hr') as [run0 Hrun0].
  destruct (Hkr _ _ Hrun0) as (run1 & Hrun1 & Hname). rewrite Hrun in Hrun1. simplify_eq.
  rewrite Hname in Hwf.
  destruct (Ho registry r i run0 wf step dep) as (k & s & id1 & j1 & Hk & Hs & Hj1 & Hsame & Hin); try done.
  destruct (Hkj _ _ Hj1) as (j2 & Hj2 & Hr2 & Hi2). exists k, s, id1, j2. split_and!; try done; [|set_solver].
  unfold same_step in *. by rewrite Hr2, Hi2.
Qed.

(** A change of the tables: each job is an old one that is still tracked, or a new
    one that is. *)
Lemma sound_db B F C F' C' w w' : sound B F C w → F ⊆ F' → C ⊆ C' → w_q w' = w_q w →
  db_ok (w_db w') → kept (w_db w) (w_db w') →
  (∀ id j', jobs (w_db w') !! id = Some j' →
     (∃ j, jobs (w_db w) !! id = Some j ∧ same_place j j' ∧ (status j' = Completed → id ∈ C') ∧
           (has_unprocessed (w_db w) id = true → has_unprocessed (w_db w') id = true ∨ tracked w' id ∨ id ∈ F')) ∨
     (has_unprocessed (w_db w') id = true ∧ status j' ≠ Completed ∧ ordered_at C' (w_db w') j')) →
  sound B F' C' w'.
Proof.
  intros [Hi Hd Hs Ht Hc Ho] HF HC Hq Hd' Hk Hall. split; rewrite ?Hq; try done.
  - intros id [j' Hj']. destruct (Hall id j' Hj') as [(j & Hj & _ & _ & Hu)|(Hu & _ & _)].
    + destruct (Ht id) as [?|[Hun|Hin]]; [eauto|set_solver| |].
      * destruct (Hu Hun) as [?|[?|?]]; unfold tracked in *; auto.
      * right. right. by rewrite Hq.
    + right. by left.
  - intros id j' Hj' Hst. by destruct (Hall id j' Hj') as [(j & _ & _ & ? & _)|(_ & ? & _)]; auto.
  - intros id j' Hj'. destruct (Hall id j' Hj') as [(j & Hj & Hp & _)|(_ & _ & ?)]; [|done].
    eapply (ordered_at_kept C C' (w_db w)); try done. exact (Ho id j Hj).
Qed.

Lemma sound_weaken B F C F' C' w w' : sound B F C w → F ⊆ F' → C ⊆ C' → w_db w' = w_db w → w_q w' = w_q w →
  sound B F' C' w'.
Proof.
  intros Hw HF HC Hd Hq. eapply sound_db; try done; rewrite ?Hd.
  - apply Hw.
  - split; [intros id j Hj; by exists j|intros r run Hr; by exists run].
  - intros id j Hj. left. exists j. split_and!; try done; [|auto].
    intros Hst. apply HC. by eapply so_completed.
Qed.

Lemma sound_more B F G C w w' : sound B F C w → w_db w' = w_db w → w_q w' = w_q w → sound B (F ∪ G) C w'.
Proof. intros. eapply sound_weaken; try done. set_solver. Qed.

Lemma sound_marks B B' F C w : sound B F C w → B ⊆ B' → sound B' F C w.
Proof. intros [Hi Hd Hs Ht Hc Ho] HB. split; try done. by eapply safe_more. Qed.

(** UPDATE jobs: with its cases for the new status. *)
Lemma sound_update_jobs B F C F' C' w w' p f : sound B F C w → F ⊆ F' → C ⊆ C' →
  w_db w' = set_jobs (update_where p f) (w_db w) → w_q w' = w_q w → db_ok (w_db w') →
  (∀ j, same_place j (f j)) →
  (∀ id j, jobs (w_db w) !! id = Some j → p id j = true → status (f j) = Completed → id ∈ C') →
  sound B F' C' w'.
Proof.
  intros Hw HF HC Hd Hq Hok Hf Hst. eapply sound_db; try done.
  - rewrite Hd. split; [|intros r run Hr; by exists run]. intros id j Hj. simpl.
    rewrite lookup_update_where, Hj. eexists. split; [done|]. by destruct (p id j).
  - rewrite Hd. simpl. intros id j'. rewrite lookup_update_where, fmap_Some. intros (j & Hj & ->). left.
    exists j. split; [done|]. destruct (p id j) eqn:Hp.
    + split_and!; [apply Hf|by eapply Hst|auto].
    + split_and!; [done| |auto]. intros Hc. apply HC. by eapply so_completed.
Qed.

Lemma sound_update_runs B F C w w' p f : sound B F C w →
  w_db w' = set_runs (update_where p f) (w_db w) → w_q w' = w_q w →
  (∀ r, workflow_name (f r) = workflow_name r) → sound B F C w'.
Proof.
  intros Hw Hd Hq Hf. eapply sound_db; try done; rewrite ?Hd.
  - apply db_ok_update_runs, Hw.
  - split; [intros id j Hj; by exists j|]. intros r run Hr. simpl. rewrite lookup_update_where, Hr.
    eexists. split; [done|]. by destruct (p r run).
  - intros id j Hj. left. exists j. split_and!; try done; [|auto]. by eapply so_completed.
Qed.

(** Entries of the outbox are marked or deleted; what is still to be delivered is
    what decides. *)
Lemma sound_outbox B F C F' w w' g : sound B F C w → F ⊆ F' →
  w_db w' = set_outbox g (w_db w) → w_q w' = w_q w → db_ok (w_db w') →
  (∀ id, has_unprocessed (w_db w) id = true → has_unprocessed (w_db w') id = true ∨ tracked w' id ∨ id ∈ F') →
  sound B F' C w'.
Proof.
  intros Hw HF Hd Hq Hok Hu. eapply sound_db; try done.
  - rewrite Hd. split; [intros id j Hj; by exists j|intros r run Hr; by exists run].
  - intros id j Hj. left. exists j. rewrite Hd in Hj. split_and!; try done; [|auto].
    by eapply so_completed.
Qed.

(** New jobs come with their outbox entries. *)
Lemma sound_new_jobs B F C w w' : sound B F C w → w_q w' = w_q w → db_ok (w_db w') →
  jobs (w_db w) ⊆ jobs (w_db w') → outbox (w_db w) ⊆ outbox (w_db w') →
  names_kept (w_db w) (w_db w') →
  (∀ id j, jobs (w_db w') !! id = Some j → jobs (w_db w) !! id = Some j ∨
     (has_unprocessed (w_db w') id = true ∧ status j ≠ Completed ∧ ordered_at C (w_db w') j)) →
  sound B F C w'.
Proof.
  intros Hw Hq Hok Hj Ho Hr Hnew. eapply sound_db; try done.
  - split; [|done]. intros id j Hid. exists j. split; [by eapply lookup_weaken|done].
  - intros id j Hid. destruct (Hnew id j Hid) as [Hold|?]; [left|by right].
    exists j. split_and!; try done.
    + by eapply so_completed.
    + intros Hu. left. by eapply has_unprocessed_mono.
Qed.

(** A change of the queue: only jobs of [F'] lose their mark. *)
Lemma sound_queue B F C F' w w' : sound B F C w → F ⊆ F' → w_db w' = w_db w → qinv (w_q w') →
  safe_but B (qabs (w_q w')) →
  (∀ id, Itoa id ∈ queued (qabs (w_q w)) → id ∈ F' ∨ Itoa id ∈ queued (qabs (w_q w'))) →
  sound B F' C w'.
Proof.
  intros [Hi Hd Hs Ht Hc Ho] HF Hdb Hi' Hs' Hq. split; rewrite ?Hdb; try done.
  intros id Hid. unfold tracked. rewrite Hdb. destruct (Ht id Hid) as [?|[?|Hin]]; [set_solver|auto|].
  destruct (Hq id Hin); auto.
Qed.

Lemma sound_atomic B F C F' w w' f r : sound B F C w → F ⊆ F' → w_db w' = w_db w → qinv (w_q w') →
  atomic f (qabs (w_q w)) r (qabs (w_q w')) → (safe_but B (qabs (w_q w)) → safe_but B (f (qabs (w_q w)))) →
  (∀ id, Itoa id ∈ queued (qabs (w_q w)) → id ∈ F' ∨ Itoa id ∈ queued (f (qabs (w_q w)))) →
  sound B F' C w'.
Proof.
  intros Hw HF Hd Hi Ha Hs Hq. eapply sound_queue; try done.
  - eapply (atomic_preserves (safe_but B)); [done|apply Hw|]. apply Hs, Hw.
  - intros id Hin. destruct (Hq id Hin) as [|Hin']; [by left|right].
    by apply (atomic_preserves (λ v, Itoa id ∈ queued v) _ _ _ _ Ha).
Qed.

(** A job that is still in the queue need not be forgotten. *)
Lemma sound_queued B F C w id : sound B (F ∪ {[id]}) C w → Itoa id ∈ queued (qabs (w_q w)) → sound B F C w.
Proof.
  intros [Hi Hd Hs Ht Hc Ho] Hin. split; try done. intros id' Hid'.
  destruct (Ht id' Hid') as [[?|Heq%elem_of_singleton]%elem_of_union|?]; [by left| |by right].
  right. right. by subst.
Qed.

(** ** Each event keeps the invariant *)
Implicit Types (s : server Q).
Variable overflowed : Z → Z.

Lemma job_inserted_sound B F C now j id w w' : sound B F C w → w_q w' = w_q w → db_ok (w_db w') →
  job_inserted now j (w_db w) id (w_db w') → status j ≠ Completed → workflow_run_id j = None →
  sound B F C w'.
Proof.
  intros Hw Hq Hok (Hno & Hj & Hr & _ & oid & Hfree & Ho) Hst Hrun. eapply sound_new_jobs; try done.
  - rewrite Hj. by apply insert_subseteq.
  - rewrite Ho. by apply insert_subseteq.
  - intros r run. rewrite Hr. eauto.
  - intros id' j'. rewrite Hj. intros [[<- <-]|[_ ?]]%lookup_insert_Some; [right|by left].
    split_and!; [|done|].
    + apply has_unprocessed_spec. exists oid, (OutboxRec id false None now).
      by rewrite Ho, lookup_insert_eq.
    + intros ? ? ? ? ? ? ? _ Hr'. congruence.
Qed.

Lemma same_tables_sound B F C w w' : sound B F C w → w_q w' = w_q w → db_ok (w_db w') →
  same_tables (w_db w) (w_db w') → sound B F C w'.
Proof.
  intros Hw Hq Hok (Hj & Ho & Hr & _). eapply sound_new_jobs; try done; rewrite ?Hj, ?Ho; eauto.
  intros id r. rewrite Hr. eauto.
Qed.

Lemma SubmitJob_sound B F C n t p w : sound B F C w → wp (SubmitJob n t p) w (λ _ w', sound B F C w').
Proof.
  intros Hw. apply wp_on_db.
  pose proof (InsertJob_spec n t p (Conn (w_db w) (w_db_faults w) (w_now w)) (so_db _ _ _ _ Hw)) as (Hr & _).
  pose proof (InsertJob_ok n t p (Conn (w_db w) (w_db_faults w) (w_now w)) (so_db _ _ _ _ Hw)) as Hok.
  unfold wp in *. cbn [c_data c_now] in *. destruct (InsertJob n t p _) as [[id|e] c']; cbn [fst snd] in *.
  - by eapply job_inserted_sound.
  - destruct Hr as [?|[id ?]]; [by eapply same_tables_sound|by eapply job_inserted_sound].
Qed.

(** A step that can run is in order, once the run is known by its workflow. *)
Lemma Advance_sound registry B F C runID w : follows registry → sound B F C w →
  wp (Advance registry runID) w (λ _ w', sound B F C w' ∧ w_q w' = w_q w ∧
    jobs (w_db w) ⊆ jobs (w_db w')).
Proof.
  intros Hreg Hw. pose proof (so_db _ _ _ _ Hw) as Hd. eapply wp_mono; [by apply Advance_spec|].
  intros [] w' (Hadv & Hd' & _). pose proof (od_q _ _ (av_only _ _ _ _ Hadv)) as Hq.
  destruct Hadv as [_ Hj Ho _ Hnames _ Hnew]. split_and!; [|done|done].
  eapply sound_new_jobs; try done. intros id j Hid.
  destruct (Hnew id j Hid) as [?|(r & wf & idx & step & prev & Hact & Hwf & Hrun & Hstep & _ & Hu & ->)];
    [by left|right].
  split_and!; [done|done|]. intros reg r' i run wf' step' dep Href Hr' Hi' Hrun' Hwf' Hstep' Hdep.
  destruct (Hreg reg Href) as [<- _]. simpl in Hr', Hi'. simplify_eq.
  apply active_run_Some in Hact as [Hr _]. destruct (Hnames _ _ Hr) as (r1 & Hr1 & Hname).
  rewrite Hrun' in Hr1. simplify_eq. rewrite Hname, Hwf in Hwf'. simplify_eq.
  destruct Hrun as (step1 & Hstep1 & _ & Hdone). rewrite Hstep in Hstep1. simplify_eq.
  destruct (Hdone dep Hdep) as (k & sk & Hk & Hsk & (id' & j' & Hj' & Hc)).
  exists k, sk, id', j'. split_and!; try done; [by eapply lookup_weaken|..].
  - unfold completed_step in Hc. unfold same_step. by apply andb_true_iff in Hc as [? _].
  - unfold completed_step in Hc. apply andb_true_iff in Hc as [_ Hst%bool_decide_eq_true].
    by eapply so_completed.
Qed.

(** A trigger starts with the steps that have no dependencies. *)
Lemma TriggerWorkflow_sound registry B F C name w : follows registry → sound B F C w →
  wp (TriggerWorkflow registry name) w (λ _ w', sound B F C w' ∧ w_q w' = w_q w).
Proof.
  intros Hreg Hw. pose proof (so_db _ _ _ _ Hw) as Hd. eapply wp_mono; [by apply TriggerWorkflow_spec|].
  intros r w' (Hd' & Hr & _). destruct (Get registry name) as [wf|] eqn:Hwf; [|by destruct Hr as [_ ->]].
  destruct Hr as [(Honly & Hdb & _)|([Honly Hruns Hj Ho Hnew] & _)].
  { rewrite (od_q _ _ Honly). split; [|done]. by eapply sound_weaken; [| | |done|apply Honly]. }
  rewrite (od_q _ _ Honly). split; [|done]. eapply sound_new_jobs; try done; [apply Honly|..].
  - intros id run Hrun. exists run. rewrite Hruns. simpl. rewrite lookup_insert_ne; [done|].
    intros <-. by rewrite (next_run_free _ Hd) in Hrun.
  - intros id j Hid. destruct (Hnew id j Hid) as [?|(idx & step & (step1 & Hstep1 & Hdeps) & Hstep & Hu & ->)];
      [by left|right].
    split_and!; [done|done|]. intros reg r' i run wf' step' dep Href Hr' Hi' Hrun' Hwf' Hstep' Hdep.
    destruct (Hreg reg Href) as [<- Hnm]. simpl in Hr', Hi'. simplify_eq.
    rewrite Hruns in Hrun'. simpl in Hrun'. rewrite lookup_insert_eq in Hrun'. simplify_eq.
    change (Get registry (Name wf) = Some wf') in Hwf'. rewrite (Hnm name wf Hwf), Hwf in Hwf'. simplify_eq. rewrite Hdeps in Hdep.
    by apply not_elem_of_nil in Hdep.
Qed.
(** One UPDATE of the status of a job. *)
Lemma moved_sound B F C w w' id st n : sound B F C w → w_q w' = w_q w →
  w_db w' = w_db w ∨ w_db w' = moved id st n (w_db w) → db_ok (w_db w') → st ≠ Completed →
  sound B F C w'.
Proof.
  intros Hw Hq Hd Hok Hst. destruct Hd as [Hd|Hd]; [by eapply sound_weaken|].
  by eapply sound_update_jobs.
Qed.

Lemma wp_UpdateJobState_sound B F C id st n w (P : result unit → world Q → Prop) :
  sound B F C w → st ≠ Completed →
  (∀ r d' fs, d' = w_db w ∨ d' = moved id st n (w_db w) → (r = Ok tt → d' = moved id st n (w_db w)) →
     (w_db_faults w = [] → fs = [] ∧ (0 ≤ n < 2 ^ 31 → r = Ok tt)) →
     let w' := World d' fs (w_q w) (w_q_faults w) (w_now w) in sound B F C w' → P r w') →
  wp (on_db (UpdateJobState id st n)) w P.
Proof.
  intros Hw Hst HP.
  pose proof (UpdateJobState_ok id st n (Conn (w_db w) (w_db_faults w) (w_now w)) (so_db _ _ _ _ Hw)) as Hok.
  assert (wp (on_db (UpdateJobState id st n)) w (λ _ w', db_ok (w_db w'))) as Hok' by (by apply wp_on_db).
  enough (wp (on_db (UpdateJobState id st n)) w (λ r w', db_ok (w_db w') → P r w')) as Hgo by (by apply Hgo).
  clear Hok Hok'. apply wp_UpdateJobState. intros r d' fs Hd Hr Hf Hok. apply HP; try done.
  by eapply moved_sound.
Qed.

Lemma unprocessed_for_ne id o : ob_job_id o ≠ id → unprocessed_for id o = false.
Proof. intros Hne. unfold unprocessed_for. by rewrite bool_decide_false. Qed.

Lemma elem_of_settled_ids d id : id ∈ settled_ids d ↔ ∃ j, jobs d !! id = Some j ∧ settled (status j) = true.
Proof.
  unfold settled_ids. rewrite elem_of_dom. split.
  - intros [j [Hj Hs]%map_lookup_filter_Some]. eauto.
  - intros (j & Hj & Hs). exists j. by apply map_lookup_filter_Some.
Qed.

Lemma CancelJob_sound B F C id w : sound B F C w →
  wp (CancelJob id) w (λ _ w', sound B (F ∪ settled_ids (w_db w')) C w').
Proof.
  intros Hw. unfold CancelJob. apply wp_try_bind, wp_db_read.
  2:{ intros fs _. by eapply sound_more. }
  intros fs _. destruct (jobs (w_db w) !! id) as [j|] eqn:Hj; [|by eapply sound_more].
  cbn [row_of r_Status r_RetryCount]. destruct (settled (status j)).
  { apply wp_ret. by eapply sound_more. }
  apply wp_try_bind. eapply wp_UpdateJobState_sound; [by eapply sound_weaken|done|]. fields.
  intros r d' fs' _ Hr _ Hw1. destruct r as [[]|e]; [|by eapply sound_more].
  specialize (Hr eq_refl). subst d'. set (d1 := moved _ _ _ _) in *.
  assert (id ∈ settled_ids d1) as Hset.
  { apply elem_of_settled_ids. eexists. split; [unfold d1; by rewrite lookup_moved, Hj|done]. }
  apply wp_bind.
  assert (∀ fs2 d2, d2 = d1 ∨ d2 = set_outbox (update_where (λ _, unprocessed_for id) (mark_processed (w_now w))) d1 →
    sound B (F ∪ settled_ids d2) C (World d2 fs2 (w_q w) (w_q_faults w) (w_now w)) ∧ id ∈ settled_ids d2) as Hw2.
  { intros fs2 d2 [-> | ->]; [by split; [by eapply sound_more|]|]. split; [|done].
    eapply sound_outbox; [exact Hw1|set_solver|done|done|by apply db_ok_update_outbox, Hw1|]. fields.
    intros id' Hu. destruct (decide (id' = id)) as [->|Hne]; [right; right; set_solver|left].
    apply has_unprocessed_spec in Hu as (k & o & Hk & Ho & Hp). apply has_unprocessed_spec.
    exists k, o. split_and!; try done. simpl. rewrite lookup_update_where.
    simpl in Hk. rewrite Hk. simpl. by rewrite unprocessed_for_ne by congruence. }
  assert (∀ fs2 d2, d2 = d1 ∨ d2 = set_outbox (update_where (λ _, unprocessed_for id) (mark_processed (w_now w))) d1 →
    wp (_ ← on_q (Cancel (Job_of_ID id)); mret (Ok tt)) (World d2 fs2 (w_q w) (w_q_faults w) (w_now w))
      (λ _ w', sound B (F ∪ settled_ids (w_db w')) C w')) as Hgo.
  { intros fs2 d2 Hd2. destruct (Hw2 fs2 d2 Hd2) as [Hs Hin]. apply wp_bind.
    eapply wp_queue; [apply Cancel_law|apply Hs|]. fields. intros a q' fs3 Hq' Ha _. apply wp_ret. fields.
    eapply sound_atomic; [exact Hs|done|done|done|exact Ha|apply safe_cancel|]. fields.
    intros id' Hid'. simpl. destruct (decide (id' = id)) as [->|Hne]; [left; set_solver|right].
    apply elem_of_difference. split; [done|]. intros ?%elem_of_singleton%(inj Itoa). done. }
  apply wp_db_call; fields; intros fs2 _; apply Hgo; auto.
Qed.

Lemma CancelRun_sound B F C runID w : sound B F C w →
  wp (CancelWorkflowRun runID) w (λ _ w', sound B (F ∪ settled_ids (w_db w')) C w').
Proof.
  intros Hw. apply wp_on_db.
  pose proof (CancelWorkflowRunAtomic_spec runID (Conn (w_db w) (w_db_faults w) (w_now w))) as (_ & _ & Hr).
  pose proof (CancelWorkflowRunAtomic_ok runID (Conn (w_db w) (w_db_faults w) (w_now w)) (so_db _ _ _ _ Hw)) as Hok.
  unfold wp in *. destruct (CancelWorkflowRunAtomic runID _) as [r c']. cbn [c_data c_now fst snd] in *.
  assert (same_tables (w_db w) (c_data c') ∨ run_cancelled (w_now w) runID (w_db w) (c_data c')) as [Hs|Hc]
    by (destruct r; auto).
  { eapply sound_more; [|reflexivity|reflexivity]. by eapply same_tables_sound. }
  destruct Hc as [_ Hruns Hjobs Hout].
  eapply sound_db; [exact Hw|set_solver|done|done|done|..]; fields.
  - split.
    + intros id j Hj. rewrite Hjobs, lookup_update_where, Hj. eexists. split; [done|]. by destruct (cancellable _ _ _).
    + by eapply (names_kept_update _ _ (by_id runID) (set_run_state RunCancelled)).
  - intros id j'. rewrite Hjobs, lookup_update_where, fmap_Some. intros (j & Hj & ->). left. exists j.
    split; [done|]. destruct (cancellable runID id j) eqn:Hc.
    + split_and!; [done|done|]. intros _. right. right. apply elem_of_union. right.
      apply elem_of_settled_ids. exists (set_status Cancelled j).
      by rewrite Hjobs, lookup_update_where, Hj; simpl; rewrite Hc.
    + split_and!; [done|intros Hst; by eapply so_completed|]. intros Hu. left.
      apply has_unprocessed_spec in Hu as (k & o & Hk & Ho & Hp). apply has_unprocessed_spec.
      exists k, o. rewrite Hout, lookup_update_where, Hk. simpl.
      unfold in_cancelled. by rewrite Ho, Hj, Hc.
Qed.

Lemma cleanup_sound B F C w : sound B F C w → wp cleanup_tick w (λ _ w', sound B F C w').
Proof.
  intros Hw.
  assert (∀ limit fs, sound B F C (World (set_outbox (filter (λ ko, expired limit ko.2 = false)) (w_db w))
    fs (w_q w) (w_q_faults w) (w_now w))) as Hgo.
  { intros limit fs. eapply sound_outbox; [exact Hw|done|done|done|apply db_ok_filter_outbox, Hw|]. fields.
    intros id Hu. left. apply has_unprocessed_spec in Hu as (k & o & Hk & Ho & Hp). apply has_unprocessed_spec.
    exists k, o. split_and!; try done. simpl. apply map_lookup_filter_Some. split; [done|].
    simpl. unfold expired. by rewrite Hp. }
  apply wp_db_call; fields; intros fs _; [apply Hgo| |apply Hgo]. by eapply sound_weaken.
Qed.

Lemma promote_sound B F C w : sound B F C w → wp (on_q promoteDueJobs) w (λ _ w', sound B F C w').
Proof.
  intros Hw. eapply wp_queue; [apply promote_law|apply Hw|]. intros a q' fs Hq' Ha _.
  eapply sound_atomic; [exact Hw|done|done|done|exact Ha|apply safe_promote|]. fields. auto.
Qed.

Lemma scheduler_sound registry B F C name w : follows registry → sound B F C w →
  wp (scheduler_tick registry name) w (λ _ w', sound B F C w').
Proof.
  intros Hreg Hw. apply wp_bind, wp_db_read; fields.
  - intros fs _. assert (sound B F C (World (w_db w) fs (w_q w) (w_q_faults w) (w_now w))) as Hw1
      by (by eapply sound_weaken).
    case_bool_decide; [by apply wp_ret|]. apply wp_bind.
    eapply wp_mono; [by apply TriggerWorkflow_sound|]. intros r w' [Hw' _]. by apply wp_ret.
  - intros fs _. apply wp_ret. by eapply sound_weaken.
Qed.

(** *** The relay *)

Lemma relay_entries_safe B es w : qinv (w_q w) → safe_but B (qabs (w_q w)) →
  (∀ e, e ∈ es → job_typed (entry_job e) = true) →
  wp (relay_entries es) w (λ _ w', safe_but (B ∪ unbacked (qabs (w_q w'))) (qabs (w_q w'))).
Proof.
  assert (∀ v, safe_but B v → safe_but (B ∪ unbacked v) v) as Hmore
    by (intros v Hv; eapply safe_more; [exact Hv|set_solver]).
  revert w. induction es as [|e es IH]; intros w Hq Hs Ht; cbn [relay_entries].
  { apply wp_ret. auto. }
  apply wp_try_bind. eapply wp_queue; [apply Enqueue_law|done|]. intros r q' fs Hq' He _. fields.
  destruct (enqueue_safe _ _ _ _ _ (Ht e ltac:(set_solver)) He Hs) as [Hh Hok].
  destruct r as [[]|err]; [|done]. specialize (Hok eq_refl).
  apply wp_try_bind, wp_db_call; fields; intros fs' _; [|by apply Hmore..].
  apply IH; [done|done|set_solver].
Qed.

Lemma entry_typed locked w e : db_ok (w_db w) → next_job (w_db w) ≤ 2 ^ 63 →
  e ∈ unprocessed_entries locked (w_db w) → job_typed (entry_job e) = true.
Proof.
  intros Hd Hn (o & j & _ & _ & _ & Hj & ->)%elem_of_unprocessed_entries.
  destruct (ok_jobs _ Hd _ _ Hj) as [Hid _ Hmax _ _ _]. unfold job_typed, entry_job. simpl.
  unfold in_int64. rewrite !bool_decide_true by lia. done.
Qed.

Lemma relay_safe B locked w : qinv (w_q w) → db_ok (w_db w) → next_job (w_db w) ≤ 2 ^ 63 →
  safe_but B (qabs (w_q w)) →
  wp (relay locked) w (λ _ w', safe_but (B ∪ unbacked (qabs (w_q w'))) (qabs (w_q w'))).
Proof.
  intros Hq Hd Hn Hs.
  assert (safe_but (B ∪ unbacked (qabs (w_q w))) (qabs (w_q w))) as Hmore
    by (eapply safe_more; [exact Hs|set_solver]).
  unfold relay. wp_enter. apply wp_try_bind, wp_GetUnprocessedOutbox; [|done].
  intros es fs Hes _. case_bool_decide; [by apply wp_Commit; fields|].
  apply wp_bind. eapply wp_mono; [apply (relay_entries_safe B); fields; try done|].
  - intros e He. eapply entry_typed; [done|done|]. by apply Hes.
  - intros r w1 Hh. destruct r as [[]|err]; [by apply wp_Commit|]. done.
Qed.

Lemma relay_sound B F C locked w : sound B F C w → next_job (w_db w) ≤ 2 ^ 63 →
  wp (relay locked) w (λ _ w', sound (B ∪ unbacked (qabs (w_q w'))) F C w').
Proof.
  intros Hw Hn. pose proof (so_db _ _ _ _ Hw) as Hd. pose proof (so_inv _ _ _ _ Hw) as Hi.
  pose proof (relay_safe B locked w Hi Hd Hn (so_safe _ _ _ _ Hw)) as Hs.
  pose proof (relay_spec locked w Hi) as ([Hi' Hnow (ids & Hdb & Hids) [Hq _ _]] & _).
  unfold wp in *. destruct (relay locked w) as [r w']. cbn [fst snd] in *.
  set (B' := B ∪ unbacked (qabs (w_q w'))) in *.
  assert (sound B' F C w) as Hw0 by (eapply sound_marks; [exact Hw|set_solver]).
  assert (sound B' F C (World (w_db w) [] (w_q w') [] (w_now w))) as Hw1.
  { eapply sound_queue; [exact Hw0|done..|]. intros id Hin. right. by apply Hq. }
  eapply sound_outbox; [exact Hw1|done|exact Hdb|done|by rewrite Hdb; apply db_ok_update_outbox|]. fields.
  intros id Hu. apply has_unprocessed_spec in Hu as (k & o & Hk & Ho & Hp).
  destruct (decide (k ∈ ids)) as [Hin|Hout].
  - right. left. right. destruct (Hids k Hin) as (o' & Hk' & _ & [Hin' _ _]). by simplify_eq.
  - left. apply has_unprocessed_spec. exists k, o. split_and!; try done. rewrite Hdb. simpl.
    by rewrite lookup_update_where, Hk; simpl; rewrite bool_decide_false.
Qed.

(** *** Restart *)
Lemma startup_sound B F C w : sound B F C w → wp startup w (λ _ w', sound B F C w').
Proof.
  intros Hw. apply wp_try_bind, wp_on_db.
  pose proof (ResetRunningJobs_spec (Conn (w_db w) (w_db_faults w) (w_now w)) (so_db _ _ _ _ Hw)) as (_ & _ & Hr).
  pose proof (ResetRunningJobs_ok (Conn (w_db w) (w_db_faults w) (w_now w)) (so_db _ _ _ _ Hw)) as Hok.
  unfold wp in *. destruct (ResetRunningJobs _) as [r c']. cbn [c_data c_now fst snd] in *.
  assert (c_data c' = w_db w ∨ restarted (w_now w) (w_db w) (c_data c')) as Hd by (destruct r; auto).
  assert (sound B F C (World (c_data c') (c_faults c') (w_q w) (w_q_faults w) (w_now w))) as Hw1.
  { destruct Hd as [Hd|[Hj Ho _ _ Hruns]]; [by eapply sound_weaken|].
    eapply sound_db; [exact Hw|done|done|done|done|..]; fields.
    - split.
      + intros id j Hid. rewrite Hj, lookup_update_where, Hid. eexists. split; [done|]. by destruct (is_status _ _ _).
      + intros id run. rewrite Hruns. eauto.
    - intros id j'. rewrite Hj, lookup_update_where, fmap_Some. intros (j & Hid & ->). left. exists j.
      split; [done|]. split; [by destruct (is_status _ _ _)|]. split.
      + destruct (is_status Running id j); [done|]. intros Hst. by eapply so_completed.
      + intros Hu. left. by eapply has_unprocessed_mono. }
  destruct r as [[]|e]; [|exact Hw1].
  enough (wp (on_q Recover) (World (c_data c') (c_faults c') (w_q w) (w_q_faults w) (w_now w))
    (λ _ w', sound B F C w')) as Hgo by exact Hgo.
  eapply wp_queue; [apply Recover_law|apply Hw|]. fields. intros a q' fs Hq' Ha _.
  eapply sound_atomic; [exact Hw1|done|done|done|exact Ha|apply safe_recover|]. fields. auto.
Qed.

(** A queued job is held, with its payload. *)
Lemma queued_job B v id : safe_but B v → Itoa id ∈ queued v → Itoa id ∉ B →
  held v (Itoa id) ∧ ∃ job, payloads v !! Itoa id = Some (MarshalJob job) ∧ j_ID job = id.
Proof.
  intros Hs Hin Hno. destruct (safe_in _ _ Hs _ Hin Hno) as [[p Hp]%elem_of_dom Hh]. split; [done|].
  destruct (safe_text _ _ Hs _ _ Hp) as (job & _ & Hid & ->).
  exists job. split; [done|]. by apply (inj Itoa).
Qed.

(** *** A restart that nothing disturbs *)
(** Whatever fails: [startup] reports success only when both of its steps took effect. *)
Lemma startup_spec w : db_ok (w_db w) → qinv (w_q w) → wp startup w (λ r w',
  (r = Ok tt → qinv (w_q w') ∧ qabs (w_q w') = q_recover (qabs (w_q w)) ∧
     restarted (w_now w) (w_db w) (w_db w') ∧ db_ok (w_db w')) ∧
  (reliable w → r = Ok tt)).
Proof.
  intros Hd Hi. apply wp_try_bind, wp_on_db.
  pose proof (ResetRunningJobs_spec (Conn (w_db w) (w_db_faults w) (w_now w)) Hd) as (_ & Hok & Hr).
  pose proof (ResetRunningJobs_ok (Conn (w_db w) (w_db_faults w) (w_now w)) Hd) as Hd'.
  unfold wp in Hd' |- *. destruct (ResetRunningJobs _) as [r c']. cbn [c_data c_now c_faults fst snd] in *.
  destruct r as [[]|e]; [|split; [done|]; intros [Hf _]; by destruct (Hok Hf)].
  enough (wp (on_q Recover) (World (c_data c') (c_faults c') (w_q w) (w_q_faults w) (w_now w)) (λ r w',
    (r = Ok tt → qinv (w_q w') ∧ qabs (w_q w') = q_recover (qabs (w_q w)) ∧
       restarted (w_now w) (w_db w) (w_db w') ∧ db_ok (w_db w')) ∧ (reliable w → r = Ok tt))) as Hgo by exact Hgo.
  eapply wp_queue; [apply Recover_law|exact Hi|]. fields. intros a q' fs Hq' Ha Hgood. split.
  - intros ->. by split_and!.
  - intros [_ Hqf]. destruct (Hgood Hqf) as [Hg _]. by destruct a as [[]|].
Qed.
Lemma startup_reliable w : db_ok (w_db w) → qinv (w_q w) → reliable w → wp startup w (λ r w',
  r = Ok tt ∧ qinv (w_q w') ∧ qabs (w_q w') = q_recover (qabs (w_q w)) ∧
  restarted (w_now w) (w_db w) (w_db w') ∧ db_ok (w_db w')).
Proof.
  intros Hd Hi Hrel. eapply wp_mono; [by apply startup_spec|]. intros r w' [H1 H2].
  rewrite (H2 Hrel) in *. split; [done|]. by apply H1.
Qed.

Lemma enqueue_all_safe B es v : (∀ e, e ∈ es → job_typed (entry_job e) = true) → safe_but B v →
  let v' := foldl (λ v e, q_enqueue (entry_job e) v) v es in
  safe_but B v' ∧ processing v' = processing v.
Proof.
  revert v. induction es as [|e es IH]; intros v Ht Hs; [done|]. simpl.
  assert (∀ e', e' ∈ es → job_typed (entry_job e') = true) as Ht' by (intros e' He'; apply Ht; set_solver).
  assert (safe_but B (q_enqueue (entry_job e) v)) as Hs1 by (apply safe_enqueue; [apply Ht, elem_of_cons; by left|done]).
  destruct (IH _ Ht' Hs1) as [Hs' Hp]. split; [exact Hs'|]. etrans; [exact Hp|done].
Qed.

Lemma has_unprocessed_entry d id : is_Some (jobs d !! id) → has_unprocessed d id = true →
  ∃ e, e ∈ unprocessed_entries ∅ d ∧ e_JobID e = id.
Proof.
  intros [j Hj] (k & o & Hk & <- & Hp)%has_unprocessed_spec.
  exists (Build_OutboxEntry k (ob_job_id o) (type j) (payload j) (max_retries j)). split; [|done].
  apply elem_of_unprocessed_entries. exists o, j. split_and!; try done.
Qed.

(** The jobs a pass of the relay after a restart leaves where [Consume] finds them. *)
Lemma restart_relay_spec B F C w t : sound B F C w → next_job (w_db w) ≤ 2 ^ 63 → reliable w →
  wp startup w (λ r w1, r = Ok tt ∧
    wp (relay ∅) (World (w_db w1) [] (w_q w1) [] t) (λ _ w2,
      safe_but B (qabs (w_q w2)) ∧ processing (qabs (w_q w2)) = [] ∧
      jobs (w_db w2) = update_where (is_status Running) (set_status Pending) (jobs (w_db w)) ∧
      ∀ id j, jobs (w_db w) !! id = Some j → id ∉ F ∨ status j = Running →
        Itoa id ∈ queued (qabs (w_q w2)))).
Proof.
  intros [Hi Hd Hs Ht _ _] Hn Hrel.
  pose proof (startup_reliable w Hd Hi Hrel) as Hst.
  pose proof (ResetRunningJobs_next (Conn (w_db w) (w_db_faults w) (w_now w))) as Hnext.
  assert (wp startup w (λ _ w', next_job (w_db w') = next_job (w_db w))) as Hnext'.
  { apply wp_try_bind, wp_on_db. eapply wp_mono; [exact Hnext|]. intros [[]|] c' Hc; [|exact Hc].
    apply wp_on_q. unfold wp. exact Hc. }
  unfold wp in Hst, Hnext' |- *. destruct (startup w) as [r w1]. cbn [fst snd] in *.
  destruct Hst as (-> & Hi1 & Hv1 & Hrs & Hd1). split; [done|].
  set (w1' := World (w_db w1) [] (w_q w1) [] t).
  assert (safe_but B (qabs (w_q w1))) as Hs1 by (rewrite Hv1; by apply safe_recover).
  destruct (relay_spec ∅ w1' Hi1) as [_ Hr]. destruct (Hr (conj eq_refl eq_refl)) as (_ & _ & Hdb & Hv2).
  cbn [w1' w_db w_q] in *.
  destruct (enqueue_all_safe B (unprocessed_entries ∅ (w_db w1)) (qabs (w_q w1))) as [Hs2 Hp2]; [|done|].
  { intros e He. by apply (entry_typed ∅ w1 e Hd1); [lia|]. }
  split_and!; [by rewrite Hv2|by rewrite Hv2, Hp2, Hv1|by rewrite Hdb; apply Hrs|].
  intros id j Hj Hno. rewrite Hv2. apply enqueue_entries_queued.
  assert (has_unprocessed (w_db w1) id = true ∨ Itoa id ∈ queued (qabs (w_q w))) as [Hu|Hq].
  { destruct Hno as [Hno|Hrun]; [|left; by eapply (rs_delivered _ _ _ Hrs)].
    destruct (Ht id) as [?|[Hu|Hq]]; [by eexists|done| |by right].
    left. eapply has_unprocessed_mono; [apply Hrs|done]. }
  - right. destruct (has_unprocessed_entry (w_db w1) id) as (e & He & <-); [|done|eauto].
    rewrite (rs_jobs _ _ _ Hrs). apply update_where_is_Some. by eexists.
  - left. by rewrite Hv1.
Qed.

(** *** The server's handlers *)
Lemma retry_sound B F C job due w w' r : sound B F C w → job_typed job = true → w_db w' = w_db w →
  qinv (w_q w') → atomic (q_retry job due) (qabs (w_q w)) r (qabs (w_q w')) → sound B F C w'.
Proof.
  intros Hw Hj Hd Hi Ha. eapply sound_atomic; [exact Hw|done|done|done|exact Ha|by apply safe_retry|].
  intros id Hin. right. simpl. set_solver.
Qed.

Lemma requeue_sound B F C job s : sound B F C (sv_world s) → job_typed job = true →
  wp (requeue job) s (λ _ s', sound B F C (sv_world s')).
Proof.
  intros Hw Hj. apply wp_bind, wp_clearOwnership.
  apply wp_bind, wp_on_world; sfields. eapply wp_UpdateJobState_sound; [exact Hw|done|].
  intros r d' fs _ _ _ w1 Hw1. apply wp_bind, wp_on_world. sfields.
  eapply wp_queue; [apply Retry_law|apply Hw1|]. sfields. intros a q' fs' Hq' Ha _. apply wp_ret. sfields.
  by eapply retry_sound; [exact Hw1|..].
Qed.

Lemma row_typed d id j : db_ok d → next_job d ≤ 2 ^ 63 → jobs d !! id = Some j →
  job_typed (job_of_row (row_of id j)) = true.
Proof.
  intros Hd Hn Hj. destruct (ok_jobs _ Hd _ _ Hj) as [Hid Hr Hm _ _ _]. unfold job_typed. simpl.
  unfold in_int64. rewrite !bool_decide_true by lia. done.
Qed.

Lemma reap_jobs_sound B F C now rows s : sound B F C (sv_world s) →
  (∀ row, row ∈ rows → job_typed (job_of_row row) = true) →
  wp (reap_jobs now rows) s (λ _ s', sound B F C (sv_world s')).
Proof.
  revert s. induction rows as [|row rows IH]; intros s Hw Ht; cbn [reap_jobs]; [by apply wp_ret|].
  apply wp_bind.
  assert (wp (reap_job now row) s (λ _ s', sound B F C (sv_world s'))) as Hone.
  { unfold wp, reap_job. destruct (sv_lastSeen s !! r_ID row); [|done]. case_bool_decide; [done|].
    destruct (sv_owner s !! r_ID row); [|done]. apply requeue_sound; [done|]. apply Ht. set_solver. }
  eapply wp_mono; [exact Hone|]. intros [] s1 Hw1. apply IH; [done|]. intros row' Hin. apply Ht. set_solver.
Qed.

Lemma reaperTick_sound B F C now s : sound B F C (sv_world s) → next_job (w_db (sv_world s)) ≤ 2 ^ 63 →
  wp (reaperTick now) s (λ _ s', sound B F C (sv_world s')).
Proof.
  intros Hw Hn. pose proof (so_db _ _ _ _ Hw) as Hd.
  assert (∀ rows fs, (∀ row, row ∈ rows → ∃ id j, jobs (w_db (sv_world s)) !! id = Some j ∧ row = row_of id j) →
    let w := sv_world s in
    wp (reap_jobs now rows) (Server (World (w_db w) fs (w_q w) (w_q_faults w) (w_now w)) (sv_owner s) (sv_lastSeen s))
      (λ _ s', sound B F C (sv_world s'))) as Hgo.
  { intros rows fs Hrows. apply reap_jobs_sound; [by eapply sound_weaken|].
    intros row (id & j & Hj & ->)%Hrows. by eapply row_typed. }
  apply wp_bind, wp_on_world, wp_on_db, wp_call_rows; sfields.
  - intros fs _. change (text_ok "running") with true. cbv iota. apply Hgo.
    intros row ([id j] & -> & [Hj _]%elem_of_select_desc)%list_elem_of_fmap. eauto.
  - intros fs _. apply wp_ret. by eapply sound_weaken.
  - intros fs l n _ Hl. change (text_ok "running") with true in Hl. cbv iota in Hl. injection Hl as <-.
    apply Hgo. intros row (i & Hi%list_elem_of_lookup_2 & _)%elem_of_take.
    apply list_elem_of_fmap in Hi as ([id j] & -> & [Hj _]%elem_of_select_desc). eauto.
Qed.

Lemma consume_queued v r v' : consume_spec v r v' → queued v' = queued v.
Proof.
  induction 1 as [| |? ? ? ? Hp|? ? ? ? ? Hp|? ? ? ? ? ? Hp _ Hor _ IH]; try done;
    apply q_pop_Some in Hp as (l & _ & ->); try done.
  rewrite IH. by destruct Hor as [-> | ->].
Qed.

Lemma consume_typed B v job v' : consume_spec v (Some (Ok job)) v' → safe_but B v → job_typed job = true.
Proof.
  intros Hc. remember (Some (Ok job)) as r eqn:Hr. revert Hr.
  induction Hc as [| | |? ? ? ? ? Hp Hpay Hun|v x v1 v2 r v3 Hp Hno Hor _ IH]; intros Hr Hs; simplify_eq.
  - destruct (safe_text _ _ Hs _ _ Hpay) as (job0 & Ht & _ & ->).
    rewrite (UnmarshalJob_MarshalJob _ Ht) in Hun. by simplify_eq.
  - apply IH; [done|]. pose proof (safe_pop _ _ _ _ Hp Hs) as Hs1.
    destruct Hor as [-> | ->]; [done|]. apply safe_drop; [|done].
    by apply q_pop_Some in Hp as (l & _ & ->).
Qed.

(** The job a stream holds, when it holds one, is a value of the Go type. *)
Definition held_typed (o : option Job) : Prop := ∀ job, o = Some job → job_typed job = true.

Lemma work_ready_sound B F C ctx fuel workerID send_err s : sound B F C (sv_world s) →
  wp (work_ready ctx fuel workerID send_err) s (λ o s', sound B F C (sv_world s') ∧
    ∀ inFlight sent, o = Continue inFlight sent → held_typed inFlight).
Proof.
  intros Hw. apply wp_bind, wp_on_world. eapply wp_queue; [apply Consume_law|apply Hw|]. sfields.
  intros o q' fs Hq' Hcon _.
  assert (∀ w', w_db w' = w_db (sv_world s) → w_q w' = q' → sound B F C w') as Hw1.
  { intros w' Hd Hq. eapply sound_queue; [exact Hw|done|done|by rewrite Hq|..]; rewrite Hq.
    - eapply safe_consume; [done|apply Hw].
    - rewrite (consume_queued _ _ _ Hcon). auto. }
  destruct o as [[job|err]|]; [|apply wp_ret; by split; [apply Hw1|]..].
  pose proof (consume_typed _ _ _ _ Hcon (so_safe _ _ _ _ Hw)) as Hj.
  apply wp_bind. unfold wp at 1, owner_Store. sfields. apply wp_bind. unfold wp at 1, lastSeen_Store. sfields.
  apply wp_bind, wp_on_world; sfields. eapply wp_UpdateJobState_sound; [by apply Hw1|done|]. sfields.
  intros r d' fs1 _ _ _ Hw2. destruct r as [[]|err].
  - destruct send_err as [err|].
    + apply wp_bind. eapply wp_mono; [by apply requeue_sound|]. intros [] s' Hw3. by apply wp_ret.
    + apply wp_ret. split; [done|]. intros inFlight sent [= <- _] job' [= <-]. done.
  - apply wp_bind, wp_clearOwnership. by apply wp_ret.
Qed.

(** What a result may take out of the queue. *)
Definition final_set s (workerID : string) (p : WorkerPayload) : gset Z :=
  match final_result s workerID p with Some id => {[id]} | None => ∅ end.

Lemma elem_of_completed_ids d id :
  id ∈ completed_ids d ↔ ∃ j, jobs d !! id = Some j ∧ status j = Completed.
Proof.
  unfold completed_ids. rewrite elem_of_dom. split.
  - intros [j [Hj Hs]%map_lookup_filter_Some]. eauto.
  - intros (j & Hj & Hs). exists j. by apply map_lookup_filter_Some.
Qed.

Lemma completed_ids_mono d d' : jobs d ⊆ jobs d' → completed_ids d ⊆ completed_ids d'.
Proof.
  intros Hj id. rewrite !elem_of_completed_ids. intros (j & Hid & ?). exists j.
  split; [by eapply lookup_weaken|done].
Qed.

(** [Ack] and [Fail]. *)
Lemma settle_sound B F C id w w' r : sound B F C w → w_db w' = w_db w → qinv (w_q w') →
  atomic (q_settle id) (qabs (w_q w)) r (qabs (w_q w')) → sound B (F ∪ {[id]}) C w'.
Proof.
  intros Hw Hd Hi Ha. eapply sound_atomic; [exact Hw|set_solver|done|done|exact Ha|apply safe_settle|].
  intros id' Hin. simpl. destruct (decide (id' = id)) as [->|Hne]; [left; set_solver|right].
  apply elem_of_difference. split; [done|]. by intros ?%elem_of_singleton%(inj Itoa).
Qed.

Lemma handleResult_sound registry B F C result sender s : follows registry → sound B F C (sv_world s) →
  next_job (w_db (sv_world s)) ≤ 2 ^ 63 →
  wp (handleResult overflowed registry result sender) s (λ _ s',
    sound B (F ∪ final_set s sender (MsgResult result)) (C ∪ completed_ids (w_db (sv_world s'))) (sv_world s')).
Proof.
  intros Hreg Hw Hn. set (id := res_JobId result).
  assert (∀ fs, let w := sv_world s in
    sound B (F ∪ final_set s sender (MsgResult result)) (C ∪ completed_ids (w_db w))
      (World (w_db w) fs (w_q w) (w_q_faults w) (w_now w))) as Hidle.
  { intros fs. eapply sound_weaken; [exact Hw|set_solver|set_solver|done|done]. }
  apply wp_handleResult; [intros _; eapply sound_weaken; [exact Hw|set_solver|set_solver|done|done]|
    intros fs _ _; apply Hidle|].
  intros fs row _ Hown Hrow Hst. sfields. fold id in Hown, Hrow.
  assert (∀ b, res_Success result || bool_decide (max_retries row ≤ retry_count row) = b →
    final_set s sender (MsgResult result) = if b then {[id]} else ∅) as Hfinal.
  { intros b Hb. unfold final_set, final_result. fold id.
    rewrite (bool_decide_true (sv_owner s !! id = Some sender)) by done. rewrite Hrow, Hst, Hb. by destruct b. }
  assert (sound B F C (World (w_db (sv_world s)) fs (w_q (sv_world s)) (w_q_faults (sv_world s)) (w_now (sv_world s))))
    as Hw0 by (by eapply sound_weaken).
  destruct (ok_jobs _ (so_db _ _ _ _ Hw) _ _ Hrow) as [Hid Hr Hm _ _ _].
  destruct (res_Success result).
  - rewrite (Hfinal true) by done.
    apply wp_bind, wp_on_world. eapply wp_queue; [apply Ack_law|apply Hw|]. sfields.
    intros a q' fs1 Hq' Ha _.
    assert (∀ fs2, sound B (F ∪ {[id]}) C (World (w_db (sv_world s)) fs2 q' fs1 (w_now (sv_world s)))) as Hw1
      by (intros fs2; by eapply settle_sound; [exact Hw0|..]).
    apply wp_bind, wp_on_world, wp_CompleteJob. sfields. intros r d' fs2 Hd' _ _.
    apply wp_bind, wp_clearOwnership. sfields.
    assert (sound B (F ∪ {[id]}) (C ∪ completed_ids d') (World d' fs2 q' fs1 (w_now (sv_world s)))) as Hw2.
    { destruct Hd' as [-> | ->]; [eapply sound_weaken; [exact (Hw1 fs2)|done|set_solver|done|done]|].
      eapply sound_update_jobs; [exact (Hw1 fs2)|done|set_solver|done|done|
        by apply db_ok_update_jobs, Hw|done|].
      fields. unfold by_id. intros id' j' Hj' Hb _. apply bool_decide_eq_true in Hb. subst id'.
      apply elem_of_union. right. apply elem_of_completed_ids. eexists.
      split; [simpl; by rewrite lookup_update_id, Hj'|done]. }
    destruct (workflow_run_id row) as [runID|]; [|by apply wp_ret].
    apply wp_on_world. eapply wp_mono; [by apply Advance_sound|]. sfields. intros [] w' (Hw3 & Hq3 & Hj3).
    eapply sound_weaken; [exact Hw3|done| |done|done].
    apply completed_ids_mono in Hj3. set_solver.
  - cbv zeta. destruct (bool_decide_reflect (retry_count row < max_retries row)) as [Hlt|Hlt].
    + rewrite (Hfinal false) by (rewrite orb_false_l; apply bool_decide_false; lia).
      apply wp_bind, wp_on_world; sfields. eapply wp_UpdateJobState_sound; [exact Hw0|done|]. sfields.
      intros r d' fs1 _ _ _ Hw1. apply wp_bind, wp_clearOwnership. sfields.
      apply wp_bind, wp_on_world. eapply wp_queue; [apply Retry_law|apply Hw|]. sfields.
      intros a q' fs2 Hq' Ha _. apply wp_ret. sfields.
      assert (job_typed (set_RetryCount (retry_count row + 1) (job_of_row (row_of id row))) = true) as Ht.
      { unfold job_typed, in_int64. simpl. rewrite !bool_decide_true by lia. done. }
      assert (sound B F C (World d' fs1 q' fs2 (w_now (sv_world s)))) as Hw2
        by (by eapply retry_sound; [exact Hw1|exact Ht|..|exact Ha]).
      eapply sound_weaken; [exact Hw2|set_solver|set_solver|done|done].
    + rewrite (Hfinal true) by (rewrite orb_false_l; apply bool_decide_true; lia).
      apply wp_bind, wp_on_world; sfields. eapply wp_UpdateJobState_sound; [exact Hw0|done|]. sfields.
      intros r d' fs1 _ _ _ Hw1. apply wp_bind, wp_clearOwnership. sfields.
      apply wp_bind, wp_on_world. eapply wp_queue; [apply Fail_law|apply Hw|]. sfields.
      intros a q' fs2 Hq' Ha _.
      assert (∀ C' fs3, C ⊆ C' → sound B (F ∪ {[id]}) C' (World d' fs3 q' fs2 (w_now (sv_world s)))) as Hw2.
      { intros C' fs3 HC.
        assert (sound B (F ∪ {[id]}) C (World d' fs3 q' fs2 (w_now (sv_world s)))) as Hs
          by (by eapply settle_sound; [exact Hw1|..|exact Ha]).
        eapply sound_weaken; [exact Hs|done|done|done|done]. }
      destruct (workflow_run_id row) as [runID|]; [|apply wp_ret; sfields; apply Hw2; set_solver].
      assert (∀ fs3, sound B (F ∪ {[id]}) (C ∪ completed_ids d')
        (World (set_runs (update_where (by_id runID) (set_run_state RunFailed)) d') fs3 q' fs2 (w_now (sv_world s))))
        as Hw3.
      { intros fs3. eapply (sound_update_runs _ _ _ _ _ (by_id runID) (set_run_state RunFailed));
          [apply (Hw2 _ fs3); set_solver|reflexivity|reflexivity|done]. }
      apply wp_bind, wp_on_world, wp_db_call; sfields; intros fs3 _; apply wp_ret; sfields;
        [apply Hw3|apply Hw2; set_solver|apply Hw3].
Qed.

(** *** The invariant of the process *)
Record sys_ok (sy : system Q) : Prop := {
  sys_sound : sound (sy_marked sy) (sy_finished sy) (sy_completed sy) (sv_world (sy_server sy));
  sys_streams : ∀ n o, sy_streams sy !! n = Some o → held_typed o;
  sys_follows : sy_up sy = true → follows (sy_registry sy);
  sys_ids : next_job (w_db (sv_world (sy_server sy))) ≤ 2 ^ 63;
}.

Lemma sound_reported B F C s s' workerID p :
  sound B (F ∪ final_set s workerID p) C (sv_world s') → sound B (F ∪ reported s s' workerID p) C (sv_world s').
Proof.
  unfold final_set, reported. destruct (final_result s workerID p) as [id|]; [|done].
  case_bool_decide as Hq; [|done]. intros Hw. apply sound_queued in Hw; [|done].
  eapply sound_more; done.
Qed.

Lemma after_ok B sy up streams rep s' F C :
  sound B F C (sv_world s') → B ⊆ sy_marked sy ∪ unbacked (qabs (w_q (sv_world s'))) →
  F ⊆ sy_finished sy ∪ settled_ids (w_db (sv_world s')) ∪ rep →
  C ⊆ sy_completed sy ∪ completed_ids (w_db (sv_world s')) →
  (∀ n o, streams !! n = Some o → held_typed o) → (up = true → follows (sy_registry sy)) →
  next_job (w_db (sv_world s')) ≤ 2 ^ 63 →
  sys_ok (after sy up streams rep s').
Proof.
  intros Hw HB HF HC Hs Hr Hn. split; [|done..]. simpl. eapply sound_marks; [|exact HB].
  by eapply sound_weaken.
Qed.

(** Most events run on the shared state and keep everything tracked. *)
Lemma world_ok {A} sy s (m : M (world Q) A) : sys_ok sy → follows (sy_registry sy) →
  (wp m (sv_world s) (λ _ w',
    sound (sy_marked sy ∪ unbacked (qabs (w_q w'))) (sy_finished sy ∪ settled_ids (w_db w')) (sy_completed sy) w')) →
  ids_left (after sy true (sy_streams sy) ∅ (on_world m s).2) →
  sys_ok (after sy true (sy_streams sy) ∅ (on_world m s).2).
Proof.
  intros [_ Hst _ _] Hf Hm Hn. unfold ids_left, wp, on_world in *. destruct (m (sv_world s)) as [a w']. simpl in *.
  eapply after_ok; [exact Hm|done|set_solver|set_solver|done|done|done].
Qed.

Lemma wp_marks {A} (m : M (world Q) A) B F C w :
  wp m w (λ _ w', sound B (F ∪ settled_ids (w_db w')) C w') →
  wp m w (λ _ w', sound (B ∪ unbacked (qabs (w_q w'))) (F ∪ settled_ids (w_db w')) C w').
Proof. unfold wp. intros Hw. eapply sound_marks; [exact Hw|set_solver]. Qed.
Lemma wp_more {A} (m : M (world Q) A) B F C w : wp m w (λ _ w', sound B F C w') →
  wp m w (λ _ w', sound (B ∪ unbacked (qabs (w_q w'))) (F ∪ settled_ids (w_db w')) C w').
Proof. intros Hw. apply wp_marks. unfold wp in *. exact (sound_more _ _ _ _ _ _ Hw eq_refl eq_refl). Qed.

Lemma in_env_sound e sy : sys_ok sy →
  sound (sy_marked sy) (sy_finished sy) (sy_completed sy) (sv_world (in_env e (sy_server sy))).
Proof. intros [Hw _ _ _]. by eapply sound_weaken. Qed.

Lemma message_ok e sy stream workerID p ctx fuel send_err :
  sys_ok sy → follows (sy_registry sy) →
  ids_left (step_message overflowed stream workerID p ctx fuel send_err (in_env e (sy_server sy)) sy) →
  sys_ok (step_message overflowed stream workerID p ctx fuel send_err (in_env e (sy_server sy)) sy).
Proof.
  intros Hok Hf. pose proof (in_env_sound e sy Hok) as Hw. destruct Hok as [Hs0 Hst _ Hn0].
  set (s := in_env e (sy_server sy)) in *. unfold step_message.
  destruct (sy_streams sy !! stream) as [inFlight|] eqn:Hin; [|done].
  pose proof (Hst _ _ Hin) as Hty.
  assert (wp (work_message overflowed (sy_registry sy) ctx fuel send_err workerID p inFlight) s (λ o s',
    sound (sy_marked sy) (sy_finished sy ∪ final_set s workerID p) (sy_completed sy ∪ completed_ids (w_db (sv_world s'))) (sv_world s') ∧
    ∀ o' sent, o = Continue o' sent → held_typed o')) as Hm.
  { destruct p as [|jobID|result|]; simpl.
    - eapply wp_mono; [by apply work_ready_sound|]. intros o s' [Hs' Ho].
      split; [eapply sound_weaken; [exact Hs'|set_solver|set_solver|done|done]|done].
    - apply wp_bind. unfold wp, recordHeartbeat, workerOwnsJob, mbind, M_bind.
      case_bool_decide; (split; [eapply sound_weaken; [exact Hw|set_solver|set_solver|done|done]|]);
        intros o' sent [= <- _]; done.
    - apply wp_bind. eapply wp_mono; [by apply handleResult_sound|]. intros [] s' Hs'. apply wp_ret.
      split; [exact Hs'|]. by intros o' sent [= <- _].
    - split; [eapply sound_weaken; [exact Hw|set_solver|set_solver|done|done]|].
      intros o' sent [= <- _]. done. }
  unfold wp in Hm. destruct (work_message _ _ _ _ _ _ _ _ s) as [o s']. destruct Hm as [Hs' Ho].
  intros Hn. apply sound_reported in Hs'.
  eapply after_ok; [exact Hs'|set_solver|set_solver|set_solver| |done|exact Hn].
  destruct o as [o' sent|err|]; intros n o1 Hn1; cbn [fst] in *.
  - apply lookup_insert_Some in Hn1 as [[_ <-]|[_ ?]]; eauto.
  - apply lookup_delete_Some in Hn1 as [_ ?]. eauto.
  - eauto.
Qed.

Lemma serve_ok e ev sy : sys_ok sy → sy_up sy = true → ids_left (serve overflowed ev (in_env e (sy_server sy)) sy) →
  sys_ok (serve overflowed ev (in_env e (sy_server sy)) sy).
Proof.
  intros Hok Hup. pose proof (in_env_sound e sy Hok) as Hw. pose proof (sys_ids _ Hok) as Hn0.
  pose proof (sys_follows _ Hok Hup) as Hf.
  set (s := in_env e (sy_server sy)) in *.
  destruct ev as [loaded|n t p|id|name|runID|name|locked| | | |stream|stream err|stream workerID p ctx fuel send_err];
    cbn [serve]; try (intros Hc; apply world_ok; [done|done| |done]).
  - done.
  - by apply wp_more, SubmitJob_sound.
  - by apply wp_marks, CancelJob_sound.
  - apply wp_more. eapply wp_mono; [by apply TriggerWorkflow_sound|]. by intros r w' [Hw' _].
  - by apply wp_marks, CancelRun_sound.
  - by apply wp_more, scheduler_sound.
  - eapply wp_mono; [by apply (relay_sound _ _ _ locked _ Hw)|]. intros r w' Hw'. exact (sound_more _ _ _ _ _ _ Hw' eq_refl eq_refl).
  - by apply wp_more, cleanup_sound.
  - by apply wp_more, promote_sound.
  - intros Hn. pose proof (reaperTick_sound _ _ _ (w_now (sv_world s)) s Hw Hn0) as Hr. unfold wp in Hr.
    eapply after_ok; [exact Hr|set_solver|set_solver|set_solver|apply Hok|done|exact Hn].
  - destruct (sy_streams sy !! stream) eqn:Hst; [done|]. intros Hn.
    eapply after_ok; [exact Hw|set_solver|set_solver|set_solver| |done|exact Hn].
    intros n o [[_ <-]|[_ Ho]]%lookup_insert_Some; [done|]. by eapply (sys_streams _ Hok).
  - destruct (sy_streams sy !! stream) as [o|] eqn:Hst; [|done].
    pose proof (sys_streams _ Hok _ _ Hst) as Hty. intros Hn.
    assert (wp (work_disconnect o err) s (λ _ s', sound (sy_marked sy) (sy_finished sy) (sy_completed sy) (sv_world s'))) as Hd.
    { destruct o as [job|]; [|exact Hw]. apply wp_bind.
      eapply wp_mono; [apply requeue_sound; [exact Hw|by apply Hty]|]. intros [] s' Hs'. exact Hs'. }
    eapply after_ok; [exact Hd|set_solver|set_solver|set_solver| |done|exact Hn].
    intros n o' [_ Ho']%lookup_delete_Some. by eapply (sys_streams _ Hok).
  - by apply message_ok.
Qed.

Lemma step_ok e ev sy : sys_ok sy → loads follows ev → ids_left (step overflowed e ev sy) →
  sys_ok (step overflowed e ev sy).
Proof.
  intros Hok Hl. unfold step.
  assert (ids_left (if sy_up sy then serve overflowed ev (in_env e (sy_server sy)) sy else sy) →
    sys_ok (if sy_up sy then serve overflowed ev (in_env e (sy_server sy)) sy else sy)) as Hserve
    by (destruct (sy_up sy) eqn:Hup; [by apply serve_ok|done]).
  destruct ev as [loaded| | | | | | | | | | | |]; try exact Hserve.
  pose proof (startup_sound _ _ _ _ (in_env_sound e sy Hok)) as Hs. unfold wp in Hs.
  destruct (startup _) as [r w]. intros Hn. eapply after_ok; [exact Hs|cbn; set_solver..| | |exact Hn].
  - by intros n o ?%lookup_empty_Some.
  - cbn [with_registry sy_registry]. intros [_ Hsome%bool_decide_eq_true]%andb_true_iff.
    destruct Hsome as [reg ->]. by apply Hl.
Qed.

Lemma fresh_ok (q : Q) : qinv q → qabs q = q_empty → sys_ok (fresh q).
Proof.
  intros Hi He. split; [|intros n o; simpl; by intros ?%lookup_empty_Some|done|done].
  split; simpl; [done|apply db_ok_empty|rewrite He; apply queue_exact_empty|..].
  - by intros id [j Hj%lookup_empty_Some].
  - by intros id j ?%lookup_empty_Some.
  - by intros id j ?%lookup_empty_Some.
Qed.

Lemma reachable_ok (R : Registry → Prop) (q : Q) sy : (∀ registry, R registry → follows registry) →
  qinv q → qabs q = q_empty → reachable overflowed R q sy → sys_ok sy.
Proof.
  intros HR Hi He. induction 1 as [|e ev sy _ IH Hl Hc]; [by apply fresh_ok|].
  apply step_ok; [done| |done]. intros registry Hev. by apply HR, Hl.
Qed.

End invariant.

(** The two events, by what they run. *)
Lemma step_restart Q `(HQ : Queue Q) overflowed e loaded (sy : system Q) :
  let w := sv_world (in_env e (sy_server sy)) in
  step overflowed e (EvRestart loaded) sy =
    after (with_registry (default NewRegistry loaded) sy) (is_ok (startup w).1 && bool_decide (is_Some loaded)) ∅ ∅
      (Server (startup w).2 ∅ ∅).
Proof. unfold step. by destruct (startup _). Qed.
Lemma step_relay Q `(HQ : Queue Q) overflowed e locked (sy : system Q) : sy_up sy = true →
  let s := in_env e (sy_server sy) in
  step overflowed e (EvRelay locked) sy =
    after sy true (sy_streams sy) ∅
      (Server (relay locked (sv_world s)).2 (sv_owner s) (sv_lastSeen s)).
Proof. unfold step. intros ->. cbn [serve]. unfold on_world. by destruct (relay _ _). Qed.

(** ** Properties *)

(** C1: no job is forgotten: however the events of the process interleave, whatever
    calls of Postgres and Redis fail in them, however often it crashes and restarts and
    whatever registries ([R]) it loads, a job has an unprocessed outbox entry, or its ID is in one
    of the three places of the queue together with its payload.  The exceptions are the
    jobs in [sy_finished] (a job that was settled once: completed, failed or cancelled;
    or one on which its owner reported a last result and which the queue then let go,
    even when the database call that records the result failed) and those in
    [sy_marked] (an [Enqueue] of the job failed halfway).  A job of [sy_marked] that is
    not in [sy_finished] still has its entry or its mark. *)
Theorem no_job_is_forgotten Q `(HQ : QueueLaws Q) overflowed R (q : Q) sy
    (Hq : qinv q) (Hempty : qabs q = q_empty) (Hreach : reachable overflowed R q sy) :
  let d := w_db (sv_world (sy_server sy)) in
  let v := qabs (w_q (sv_world (sy_server sy))) in
  ∀ id, is_Some (jobs d !! id) → id ∉ sy_finished sy →
  (has_unprocessed d id = true ∨ Itoa id ∈ queued v) ∧
  (Itoa id ∉ sy_marked sy →
   has_unprocessed d id = true ∨
   (held v (Itoa id) ∧ ∃ job, payloads v !! Itoa id = Some (MarshalJob job) ∧ j_ID job = id)).
Proof.
  intros d v id Hid Hno. destruct (reachable_ok None overflowed R q sy ltac:(done) Hq Hempty Hreach) as [Hs _ _ _].
  destruct (so_tracked _ _ _ _ _ Hs id Hid) as [?|Ht]; [done|]. split; [exact Ht|]. intros Hm.
  destruct Ht as [?|Hin]; [by left|right]. eapply queued_job; [apply Hs|exact Hin|exact Hm].
Qed.

(** C5: steps run in order: in every state the process reaches, with any failures and
    crashes, when all its starts load the same registry (with every workflow under its
    own name, as [Register] puts it), the step a job of a run executes has all its dependencies completed at some time in the same run, and no
    other job of the run executes it. *)
Theorem steps_run_in_order Q `(HQ : QueueLaws Q) overflowed registry (q : Q) sy
    (Hreg : ∀ name wf, Get registry name = Some wf → Name wf = name)
    (Hq : qinv q) (Hempty : qabs q = q_empty) (Hreach : reachable overflowed (λ reg, reg = registry) q sy) :
  let d := w_db (sv_world (sy_server sy)) in
  ∀ id j r run wf i step, jobs d !! id = Some j → same_step r (Z.of_nat i) id j = true →
  runs d !! r = Some run → Get registry (workflow_name run) = Some wf →
  Steps (Normalize wf) !! i = Some step →
  (∀ dep, dep ∈ deps step → ∃ k s id' j', Steps (Normalize wf) !! k = Some s ∧ ID s = dep ∧
     jobs d !! id' = Some j' ∧ same_step r (Z.of_nat k) id' j' = true ∧ id' ∈ sy_completed sy) ∧
  (∀ id' j', jobs d !! id' = Some j' → same_step r (Z.of_nat i) id' j' = true → id' = id).
Proof.
  intros d id j r run wf i step Hj [Hr Hi]%andb_true_iff Hrun Hwf Hstep.
  apply bool_decide_eq_true in Hr, Hi.
  assert (∀ reg, reg = registry → follows (Some registry) reg) as HR by (by intros reg -> ? [= <-]).
  destruct (reachable_ok _ overflowed _ q sy HR Hq Hempty Hreach) as [Hs _ _ _]. split.
  - intros dep Hdep. by eapply (so_ordered _ _ _ _ _ Hs id j Hj).
  - intros id' j' Hj' [Hr' Hi']%andb_true_iff. apply bool_decide_eq_true in Hr', Hi'.
    by eapply (ok_steps _ (so_db _ _ _ _ _ Hs)).
Qed.

(** C6: a restart recovers: from every state the process reaches, with any failures,
    crashes and registries before, a restart that finds a registry and a pass of the relay in which nothing fails leave the
    process serving, no job running, and in the ready list or among the delayed ones,
    with its payload, every job that was running (also one whose last result was
    reported but not written) and every job that is not in [sy_finished] (settled once,
    or reported on and let go by the queue); but not the jobs in [sy_marked], of which
    an [Enqueue] failed halfway. *)
Theorem restart_redelivers Q `(HQ : QueueLaws Q) overflowed R (q : Q) sy registry t1 t2
    (Hq : qinv q) (Hempty : qabs q = q_empty) (Hreach : reachable overflowed R q sy) :
  let sy1 := step overflowed (Env [] [] t1) (EvRestart (Some registry)) sy in
  let sy2 := step overflowed (Env [] [] t2) (EvRelay ∅) sy1 in
  let d := w_db (sv_world (sy_server sy)) in
  let d' := w_db (sv_world (sy_server sy2)) in
  let v := qabs (w_q (sv_world (sy_server sy2))) in
  sy_up sy2 = true ∧
  (∀ id j', jobs d' !! id = Some j' → status j' ≠ Running) ∧
  ∀ id j, jobs d !! id = Some j → id ∉ sy_finished sy ∨ status j = Running → Itoa id ∉ sy_marked sy →
    is_Some (jobs d' !! id) ∧ (Itoa id ∈ ready v ∨ is_Some (delayed v !! Itoa id)) ∧
    ∃ job, payloads v !! Itoa id = Some (MarshalJob job) ∧ j_ID job = id.
Proof.
  pose proof (reachable_ok None overflowed R q sy ltac:(done) Hq Hempty Hreach) as Hok.
  pose proof (in_env_sound None (Env [] [] t1) sy Hok) as Hs. pose proof (sys_ids _ _ Hok) as Hn.
  destruct (restart_relay_spec None _ _ _ (sv_world (in_env (Env [] [] t1) (sy_server sy))) t2 Hs Hn
    (conj eq_refl eq_refl)) as [Hr (Hs2 & Hp2 & Hj2 & Hall)].
  intros sy1 sy2 d d' v. subst v d' sy2. rewrite step_relay by (subst sy1; rewrite step_restart, Hr; reflexivity).
  subst sy1. rewrite step_restart. split_and!; [done| |].
  - intros id j' Hj'. assert (update_where (is_status Running) (set_status Pending) (jobs d) !! id = Some j') as Hu
      by (rewrite <-Hj'; exact (eq_sym (f_equal (lookup id) Hj2))).
    rewrite lookup_update_where, fmap_Some in Hu. destruct Hu as (j & _ & ->).
    unfold is_status. destruct (bool_decide_reflect (status j = Running)); done.
  - intros id j Hj Hno Hm. destruct (queued_job _ _ _ Hs2 (Hall id j Hj Hno) Hm) as [Hheld Hpay].
    split_and!; [| |exact Hpay].
    { assert (is_Some (update_where (is_status Running) (set_status Pending) (jobs d) !! id)) as Hu
        by (apply update_where_is_Some; by eexists).
      destruct Hu as [j' Hj']. exists j'. etrans; [exact (f_equal (lookup id) Hj2)|exact Hj']. }
    destruct Hheld as [?|[Hin|?]]; [by left| |by right].
    rewrite Hp2 in Hin. by apply not_elem_of_nil in Hin.
Qed.

(** ** Witnesses *)
#[local] Instance sys_Queue : Queue Store := RedisQueue_ops jobs_queue.
#[local] Instance sys_QueueLaws : QueueLaws Store := RedisQueue_laws "jobs" 1000000000.

(** A run of the process by a list of events, and [ids_left] as a computation. *)
Definition run_events (evs : list (env * event)) (sy : system Store) : system Store :=
  foldl (λ sy ev, step no_overflow ev.1 ev.2 sy) sy evs.
Fixpoint all_left (evs : list (env * event)) (sy : system Store) : bool :=
  match evs with
  | [] => true
  | ev :: evs => let sy' := step no_overflow ev.1 ev.2 sy in
      (next_job (w_db (sv_world (sy_server sy'))) <=? 2 ^ 63) && all_left evs sy'
  end.

Definition same_registry (registry : Registry) : Prop := registry = backup_registry.
Definition loads_same (ev : event) : Prop :=
  match ev with EvRestart (Some registry) => registry = backup_registry | _ => True end.

Lemma run_reachable evs q sy : reachable no_overflow same_registry q sy → Forall (λ ev, loads_same ev.2) evs →
  all_left evs sy = true → reachable no_overflow same_registry q (run_events evs sy).
Proof.
  intros Hr Hl. revert sy Hr. induction Hl as [|ev evs Hev _ IH]; intros sy Hr; [done|]. simpl.
  intros [Hc%Z.leb_le Hall]%andb_true_iff. apply IH; [|done]. apply reach_step; [done| |done].
  intros registry Heq. by rewrite Heq in Hev.
Qed.

Lemma backup_registry_names : ∀ name wf, Get backup_registry name = Some wf → Name wf = name.
Proof.
  intros name wf Hg. unfold Get, backup_registry, Register, NewRegistry in Hg.
  apply lookup_insert_Some in Hg as [[<- <-]|[_ ?%lookup_empty_Some]]; done.
Qed.

(** A run of the parallel backup in which the relay and a reply of the database fail;
    a worker does the two root steps.  Then a job is submitted whose [Enqueue] fails
    halfway (SADD is done, EXEC is lost); the next pass marks its entry. *)
Definition quiet : env := Env [] [] 0.
Definition backup_events : list (env * event) :=
  [(quiet, EvRestart (Some backup_registry)); (quiet, EvTrigger "parallel_backup"); (Env [] [FLost] 1, EvRelay ∅); (Env [] [] 2, EvRelay ∅);
   (quiet, EvConnect 0);
   (quiet, EvMessage 0 "w" MsgReady Background 3 None);
   (Env [FOk; FLate] [] 3, EvMessage 0 "w" (MsgResult (Build_TaskResult 2 true "" "a")) Background 3 None);
   (quiet, EvMessage 0 "w" MsgReady Background 3 None);
   (quiet, EvMessage 0 "w" (MsgResult (Build_TaskResult 1 true "" "b")) Background 3 None);
   (quiet, EvSubmit 3 "shell" "{}"); (Env [] [FOk; FOk; FOk; FLost] 4, EvRelay ∅); (Env [] [] 5, EvRelay ∅)].
Definition backup_state : system Store := run_events backup_events (fresh empty_store).

(** The worker also does the last step, but its result is not written. *)
Definition lost_events : list (env * event) := backup_events ++
  [(quiet, EvMessage 0 "w" MsgReady Background 3 None);
   (Env [FOk; FLost] [] 6, EvMessage 0 "w" (MsgResult (Build_TaskResult 3 true "" "c")) Background 3 None)].
Definition lost_state : system Store := run_events lost_events (fresh empty_store).

Lemma lost_reachable : reachable no_overflow same_registry empty_store lost_state.
Proof. apply run_reachable; [apply reach_fresh|repeat constructor|vm_compute; reflexivity]. Qed.
Lemma backup_reachable : reachable no_overflow same_registry empty_store backup_state.
Proof. apply run_reachable; [apply reach_fresh|repeat constructor|vm_compute; reflexivity]. Qed.
Lemma empty_view : qabs empty_store = q_empty.
Proof. vm_compute. reflexivity. Qed.

Lemma no_job_is_forgotten_witness :
  let d := w_db (sv_world (sy_server backup_state)) in
  let v := qabs (w_q (sv_world (sy_server backup_state))) in
  (has_unprocessed d 3 = true ∨ (held v "3" ∧ ∃ job, payloads v !! "3" = Some (MarshalJob job) ∧ j_ID job = 3)) ∧
  ("4" ∈ sy_marked backup_state ∧ (has_unprocessed d 4 = true ∨ "4" ∈ queued v)).
Proof.
  pose proof (no_job_is_forgotten Store sys_QueueLaws no_overflow same_registry empty_store backup_state
    empty_represents empty_view backup_reachable) as Hall.
  split; [|split].
  - apply (Hall 3); apply (bool_decide_unpack _); vm_compute; exact I.
  - apply (bool_decide_unpack _). vm_compute. exact I.
  - apply (Hall 4); apply (bool_decide_unpack _); vm_compute; exact I.
Defined.

Lemma steps_run_in_order_witness :
  ∃ id' j', jobs (w_db (sv_world (sy_server backup_state))) !! id' = Some j' ∧ id' ∈ sy_completed backup_state.
Proof.
  destruct (steps_run_in_order Store sys_QueueLaws no_overflow backup_registry empty_store backup_state
    backup_registry_names empty_represents empty_view backup_reachable 3
    (new_step 1 2 0 (step_payload "compress" "")) 1 (RunRec "parallel_backup" RunRunning 2 4)
    (Normalize parallel_backup) 2
    {| ID := "compress"; Command := "compress"; DependsOn := Some ["backup-db"; "backup-redis"]; Retries := 0 |})
    as [Hdeps _]; [vm_compute; reflexivity..|].
  destruct (Hdeps "backup-db") as (k & s & id' & j' & _ & _ & Hj & _ & Hin).
  - apply elem_of_cons. left. reflexivity.
  - exists id', j'. split; [exact Hj|exact Hin].
Defined.

Lemma restart_redelivers_witness :
  let sy1 := step no_overflow (Env [] [] 8) (EvRestart (Some NewRegistry)) lost_state in
  let sy2 := step no_overflow (Env [] [] 9) (EvRelay ∅) sy1 in
  let v := qabs (w_q (sv_world (sy_server sy2))) in
  3 ∈ sy_finished lost_state ∧ sy_up sy2 = true ∧ (Itoa 3 ∈ ready v ∨ is_Some (delayed v !! Itoa 3)).
Proof.
  destruct (restart_redelivers Store sys_QueueLaws no_overflow same_registry empty_store lost_state NewRegistry 8 9
    empty_represents empty_view lost_reachable) as [Hup [_ Hall]].
  split; [|split; [exact Hup|]].
  - apply (bool_decide_unpack _). vm_compute. exact I.
  - apply (Hall 3 (set_status Running (new_step 1 2 0 (step_payload "compress" "")))).
    + vm_compute. reflexivity.
    + right. reflexivity.
    + apply (bool_decide_unpack _). vm_compute. exact I.
Defined.
