(* ===== verification/Strings.v ===== *)
(** * More of the Go standard library: strings, fmt, strconv, flag

    What the HTTP layer, the worker and the command line tool use: prefixes and
    trimming, the verb %q, integers with a base prefix, the float64 a JSON number
    decodes to, and [flag.FlagSet.Parse]. *)
From Stdlib Require Import Ascii.
From stdpp Require Import gmap strings list pretty.
From S2P Require Import Prelude Text Json.
Open Scope N_scope.

(** ** strings *)

(** [strings.CutPrefix]: the rest after the prefix, when it is one. *)
Fixpoint CutPrefix (s pre : string) {struct pre} : option string :=
  match pre, s with
  | EmptyString, _ => Some s
  | String a pre, String c s => if Ascii.eqb a c then CutPrefix s pre else None
  | String _ _, EmptyString => None
  end.
Definition HasPrefix (s pre : string) : bool := bool_decide (is_Some (CutPrefix s pre)).

Fixpoint drop_runes (p : rune → bool) (l : list rune) : list rune :=
  match l with r :: l' => if p r then drop_runes p l' else l | [] => [] end.
(** [strings.TrimFunc]; a rune is recognized alike from both ends. *)
Definition trim_runes (p : rune → bool) (s : string) : string :=
  flatten (reverse (drop_runes p (reverse (drop_runes p (runes s))))).

(** [unicode.IsSpace] *)
Definition is_space (r : rune) : bool :=
  let s2 a b := str2 (ascii_of_N a) (ascii_of_N b) in
  let s3 a b c := str3 (ascii_of_N a) (ascii_of_N b) (ascii_of_N c) in
  match r with
  | A c => ((9 <=? byte c) && (byte c <=? 13)) || (byte c =? 32)
  | U b => bool_decide (b ∈ [s2 194 133; s2 194 160; s3 225 154 128;
             s3 226 128 128; s3 226 128 129; s3 226 128 130; s3 226 128 131; s3 226 128 132; s3 226 128 133;
             s3 226 128 134; s3 226 128 135; s3 226 128 136; s3 226 128 137; s3 226 128 138;
             s3 226 128 168; s3 226 128 169; s3 226 128 175; s3 226 129 159; s3 227 128 128])
  | Bad _ => false
  end.
Definition TrimSpace (s : string) : string := trim_runes is_space s.
(** [strings.Trim(s, "'")] *)
Definition is_quote (r : rune) : bool := bool_decide (r = A "'"%char).
Definition TrimQuotes (s : string) : string := trim_runes is_quote s.

(** [s[:n]], by bytes; [n] is at most the length where the program uses it. *)
Fixpoint take_bytes (n : nat) (s : string) : string :=
  match n, s with S n, String c s => String c (take_bytes n s) | _, _ => EmptyString end.

(** [fmt.Sprintf("%-20s", s)] pads to a number of runes. *)
Fixpoint spaces (n : nat) : string :=
  match n with O => EmptyString | S n => String " "%char (spaces n) end.
Definition pad_right (width : nat) (s : string) : string := s +:+ spaces (width - length (runes s)).

(** ** The verb %q ([strconv.Quote])

    [isPrint] is the table of printable runes beyond ASCII. *)
Definition codepoint (b : string) : N :=
  let d (c : ascii) := byte c mod 64 in
  match b with
  | String c1 (String c2 EmptyString) => (byte c1 mod 32) * 64 + d c2
  | String c1 (String c2 (String c3 EmptyString)) => ((byte c1 mod 16) * 64 + d c2) * 64 + d c3
  | String c1 (String c2 (String c3 (String c4 EmptyString))) =>
      (((byte c1 mod 8) * 64 + d c2) * 64 + d c3) * 64 + d c4
  | _ => 0
  end.
Fixpoint hex_width (w : nat) (n : N) : string :=
  match w with
  | O => EmptyString
  | S w => hex_width w (n / 16) +:+ String (hex_digit (n mod 16)) EmptyString
  end.
Definition backslash (c : string) : string := String (ascii_of_N 92) c.
Definition escape_rune (isPrint : string → bool) (r : rune) : string :=
  match r with
  | Bad c => backslash ("x" +:+ hex_width 2 (byte c))
  | A c =>
      let n := byte c in
      if (n =? 34) || (n =? 92) then backslash (String c EmptyString)
      else if (32 <=? n) && (n <=? 126) then String c EmptyString
      else if n =? 7 then backslash "a" else if n =? 8 then backslash "b"
      else if n =? 12 then backslash "f" else if n =? 10 then backslash "n"
      else if n =? 13 then backslash "r" else if n =? 9 then backslash "t"
      else if n =? 11 then backslash "v" else backslash ("x" +:+ hex_width 2 n)
  | U b =>
      if isPrint b then b
      else if codepoint b <? 65536 then backslash ("u" +:+ hex_width 4 (codepoint b))
      else backslash ("U" +:+ hex_width 8 (codepoint b))
  end.
Definition dquote : string := String (ascii_of_N 34) EmptyString.
Definition Quote (isPrint : string → bool) (s : string) : string :=
  dquote +:+ foldr (λ r acc, escape_rune isPrint r +:+ acc) EmptyString (runes s) +:+ dquote.

(** ** [strconv.ParseInt(s, 0, 64)]: the base is in the prefix *)
Definition lower (c : ascii) : N := N.lor (byte c) 32.
Definition base_digit (c : ascii) : option N :=
  if is_digit c then Some (digit_val c)
  else if (97 <=? lower c) && (lower c <=? 122) then Some (lower c - 87) else None.
Fixpoint parse_base (base : N) (s : string) (acc : N) : option N :=
  match s with
  | EmptyString => Some acc
  | String c s =>
      if byte c =? 95 then parse_base base s acc
      else d ← base_digit c; if d <? base then parse_base base s (acc * base + d) else None
  end.
Definition split_base (s : string) : N * string * bool :=
  match s with
  | String z (String b (String c t)) =>
      if negb (byte z =? 48) then (10, s, false)
      else if lower b =? 98 then (2, String c t, true)
      else if lower b =? 111 then (8, String c t, true)
      else if lower b =? 120 then (16, String c t, true)
      else (8, String b (String c t), false)
  | String z t => if byte z =? 48 then (8, t, false) else (10, s, false)
  | EmptyString => (10, s, false)
  end.
(** [underscoreOK]: [digit] and [under] say what was seen last. *)
Fixpoint underscores (hex digit under : bool) (s : string) : bool :=
  match s with
  | EmptyString => negb under
  | String c s =>
      if is_digit c || (hex && (97 <=? lower c) && (lower c <=? 102)) then underscores hex true false s
      else if byte c =? 95 then digit && underscores hex false true s
      else negb under && underscores hex false false s
  end.
Definition has_underscore (s : string) : bool := existsb (λ r, bool_decide (r = A "_"%char)) (runes s).
Definition ParseUint0 (s : string) : option N :=
  match s with
  | EmptyString => None
  | _ =>
      let '(base, t, prefixed) := split_base s in
      n ← parse_base base t 0;
      let ok := if prefixed then underscores (base =? 16) true false t else underscores false false false s in
      if has_underscore s && negb ok then None else Some n
  end.
Definition ParseInt0 (s : string) : option Z :=
  let signed (neg : bool) (t : string) :=
    n ← ParseUint0 t;
    let z := if neg then (- Z.of_N n)%Z else Z.of_N n in
    if in_int64 z then Some z else None in
  match s with
  | String "-" t => signed true t
  | String "+" t => signed false t
  | _ => signed false s
  end.

(** ** float64

    The value of a JSON number is a float64, [mantissa * 2^exponent]; [strconv.ParseFloat]
    rounds the decimal value to the nearest one, ties to the even mantissa, and fails
    from 2^1024 on. *)
Record float64 : Type := Float { f_mantissa : Z; f_exponent : Z }.

Fixpoint span_dec (s : string) : string * string :=
  match s with
  | String c t => if is_digit c then let '(d, r) := span_dec t in (String c d, r) else (EmptyString, s)
  | EmptyString => (EmptyString, s)
  end.
(** The literal of an unsigned number as [digits * 10^k]. *)
Definition decimal (s : string) : option (N * Z) :=
  let '(i, s) := span_dec s in
  let '(f, s) := match s with
                 | String c t => if byte c =? 46 then span_dec t else (EmptyString, s)
                 | EmptyString => (EmptyString, s)
                 end in
  n ← dval (i +:+ f) 0;
  (* an exponent beyond 64 bits decides the value all the same *)
  let e := match s with
           | EmptyString => 0%Z
           | String _ (String "-" t as u) => default (- 2 ^ 63)%Z (ParseInt u)
           | String _ t => default (2 ^ 63)%Z (ParseInt t)
           end in
  Some (n, (e - Z.of_nat (String.length f))%Z).

Definition half_even (a b : Z) : Z :=
  let q := (a / b)%Z in let r := (a mod b)%Z in
  if (2 * r <? b)%Z then q else if (b <? 2 * r)%Z then (q + 1)%Z else (q + q mod 2)%Z.
(** The float64 nearest to [n / d], both positive. *)
Definition round_float (n d : Z) : option float64 :=
  let l := (Z.log2 n - Z.log2 d)%Z in
  let reaches := if (0 <=? l)%Z then (d * 2 ^ l <=? n)%Z else (d <=? n * 2 ^ (- l))%Z in
  let e := Z.max (if reaches then l - 52 else l - 53)%Z (-1074) in
  let m := if (0 <=? e)%Z then half_even n (d * 2 ^ e) else half_even (n * 2 ^ (- e)) d in
  if (0 <=? e)%Z && (2 ^ 1024 <=? m * 2 ^ e)%Z then None else Some (Float m e).
Definition ParseFloat (s : string) : option float64 :=
  let '(neg, t) := match s with String "-" t => (true, t) | _ => (false, s) end in
  '(n, k) ← decimal t;
  f ← (if n =? 0 then Some (Float 0 0)
       else if (0 <=? k)%Z then round_float (Z.of_N n * 10 ^ k) 1
       else round_float (Z.of_N n) (10 ^ (- k)));
  Some (if neg then Float (- f_mantissa f) (f_exponent f) else f).

(** [int(f)] drops the fraction; [overflowed] is what it gives beyond 64 bits. *)
Definition int_of_float (overflowed : float64 → Z) (f : float64) : Z :=
  let z := (if 0 <=? f_exponent f then f_mantissa f * 2 ^ f_exponent f
            else Z.quot (f_mantissa f) (2 ^ (- f_exponent f)))%Z in
  if in_int64 z then z else overflowed f.

(** ** flag.FlagSet.Parse, with ExitOnError

    The flags of a set are strings or integers.  The result is the values that were set,
    in order, and the other arguments, or the code the program exits with. *)
Inductive flag_kind : Type := FString | FInt.

Fixpoint cut_equals (s : string) : string * option string :=
  match s with
  | EmptyString => (EmptyString, None)
  | String c t =>
      if byte c =? 61 then (EmptyString, Some t)
      else let '(name, value) := cut_equals t in (String c name, value)
  end.
(** The name and value of an argument that is a flag, [None] where parsing stops. *)
Inductive flag_arg : Type := FlagStop | FlagTerminator | FlagSyntax | Flag (name : string) (value : option string).
Definition flag_of (a : string) : flag_arg :=
  match a with
  | String d (String c t) =>
      if negb (byte d =? 45) then FlagStop
      else
        let body := if byte c =? 45 then t else String c t in
        match body with
        | EmptyString => FlagTerminator
        | String b rest =>
            if (byte b =? 45) || (byte b =? 61) then FlagSyntax
            else let '(name, value) := cut_equals body in Flag name value
        end
  | _ => FlagStop
  end.

Fixpoint parse_flags (kinds : list (string * flag_kind)) (args : list string) :
    Z + (list (string * string) * list string) :=
  let set (name v : string) (rest : Z + (list (string * string) * list string)) :=
    match snd <$> list_find (λ k, k.1 = name) kinds with
    | None => if bool_decide (name = "help") || bool_decide (name = "h") then inl 0%Z else inl 2%Z
    | Some (_, FInt) => if bool_decide (ParseInt0 v = None) then inl 2%Z
                        else match rest with inl e => inl e | inr (l, r) => inr ((name, v) :: l, r) end
    | Some (_, FString) => match rest with inl e => inl e | inr (l, r) => inr ((name, v) :: l, r) end
    end in
  match args with
  | [] => inr ([], [])
  | a :: rest =>
      match flag_of a with
      | FlagStop => inr ([], args)
      | FlagTerminator => inr ([], rest)
      | FlagSyntax => inl 2%Z
      | Flag name (Some v) => set name v (parse_flags kinds rest)
      | Flag name None =>
          match rest with
          | v :: rest => set name v (parse_flags kinds rest)
          | [] => match list_find (λ k, k.1 = name) kinds with
                  | Some _ => inl 2%Z
                  | None => if bool_decide (name = "help") || bool_decide (name = "h") then inl 0%Z else inl 2%Z
                  end
          end
      end
  end.
(** The value of a string flag after parsing, and of an integer flag. *)
Definition flag_string (set : list (string * string)) (name dflt : string) : string :=
  default dflt (snd <$> last (filter (λ kv, kv.1 = name) set)).
Definition flag_int (set : list (string * string)) (name : string) (dflt : Z) : Z :=
  default dflt (kv ← last (filter (λ kv, kv.1 = name) set); ParseInt0 kv.2).

(** The program ends on its flags with code 0 when it was asked for help, else with 2. *)
Definition asks_help (args : list string) : Prop :=
  ∃ a name v, a ∈ args ∧ flag_of a = Flag name v ∧ (name = "help" ∨ name = "h").

(** ** Lemmas: trimming and cutting *)

(** No rune of [p] at either end. *)
Definition trimmed (p : rune → bool) (l : list rune) : Prop :=
  (∀ r, head l = Some r → p r = false) ∧ (∀ r, last l = Some r → p r = false).

Lemma drop_runes_spec p l : ∃ a, l = a ++ drop_runes p l ∧ Forall (λ r, p r = true) a ∧
  ∀ r, head (drop_runes p l) = Some r → p r = false.
Proof.
  induction l as [|r l (a & Hl & Ha & Hh)]; cbn [drop_runes]; [by exists []|]. destruct (p r) eqn:Hr.
  - exists (r :: a). split_and!; [by rewrite Hl at 1|by constructor|done].
  - exists []. split_and!; [done..|]. by intros ? [= <-].
Qed.

Lemma trim_runes_spec p s : ∃ a l b, runes s = a ++ l ++ b ∧ trim_runes p s = flatten l ∧
  Forall (λ r, p r = true) a ∧ Forall (λ r, p r = true) b ∧ trimmed p l.
Proof.
  unfold trim_runes. destruct (drop_runes_spec p (runes s)) as (a & Ha & Hpa & Hh).
  set (m := drop_runes p (runes s)) in *. destruct (drop_runes_spec p (reverse m)) as (b & Hb & Hpb & Ht).
  set (l := drop_runes p (reverse m)) in *. exists a, (reverse l), (reverse b).
  assert (m = reverse l ++ reverse b) as Hm by (by rewrite <-reverse_app, <-Hb, reverse_involutive).
  split_and!; [by rewrite <-Hm|done|done|by apply Forall_reverse|]. split.
  - intros r Hr. apply Hh. rewrite Hm. by destruct (reverse l).
  - intros r Hr. apply Ht. by rewrite last_reverse in Hr.
Qed.

Lemma flatten_valid l : Forall good l → ValidString (flatten l) = true.
Proof.
  intros Hl. unfold ValidString. rewrite runes_flatten by done. apply forallb_forall.
  intros r Hr%list_elem_of_In. rewrite Forall_forall in Hl. by destruct (Hl r Hr).
Qed.
Lemma good_of_valid s : ValidString s = true → Forall good (runes s).
Proof.
  unfold ValidString. intros Hv. rewrite forallb_forall in Hv. apply Forall_forall. intros r Hr.
  pose proof (proj1 (Forall_forall _ _) (runes_classified s) r Hr) as [|[c ->]]; [done|].
  by specialize (Hv _ (proj1 (list_elem_of_In _ _) Hr)).
Qed.

(** Trimming valid text gives valid text. *)
Lemma trim_valid p s : ValidString s = true → ValidString (trim_runes p s) = true.
Proof.
  intros Hs%good_of_valid. destruct (trim_runes_spec p s) as (a & l & b & Hl & -> & _).
  apply flatten_valid. rewrite Hl in Hs. by apply Forall_app in Hs as [_ [? _]%Forall_app].
Qed.

Lemma take_bytes_spec n s : String.length (take_bytes n s) = Nat.min n (String.length s) ∧
  ∃ rest, s = take_bytes n s +:+ rest.
Proof.
  revert s. induction n as [|n IH]; intros s; [by split; [|exists s]|].
  destruct s as [|c s]; [by split; [|exists EmptyString]|]. cbn [take_bytes String.length].
  destruct (IH s) as [-> [rest Hs]]. split; [done|]. exists rest. by rewrite Hs at 1.
Qed.

Example float_exact : ParseFloat "9007199254740993" = Some (Float 4503599627370496 1).
Proof. vm_compute. reflexivity. Qed.
Example float_tenth : ParseFloat "-0.1" = Some (Float (-7205759403792794) (-56)).
Proof. vm_compute. reflexivity. Qed.
Example float_tiny : ParseFloat "4.9e-324" = Some (Float 1 (-1074)).
Proof. vm_compute. reflexivity. Qed.
Example float_huge : ParseFloat "1.8e308" = None ∧ ParseFloat "1.7976931348623157e308" = Some (Float (2 ^ 53 - 1) 971).
Proof. vm_compute. done. Qed.
Example flags_example : parse_flags [("retries", FInt); ("type", FString)] ["--type=a=b"; "-retries"; "0x10"; "x"; "-y"] =
  inr ([("type", "a=b"); ("retries", "0x10")], ["x"; "-y"]).
Proof. vm_compute. reflexivity. Qed.

Lemma parse_flags_exit kinds args code : parse_flags kinds args = inl code →
  code = 2%Z ∨ (code = 0%Z ∧ asks_help args).
Proof.
  assert (∀ n args, (length args ≤ n)%nat → parse_flags kinds args = inl code →
    code = 2%Z ∨ (code = 0%Z ∧ asks_help args)) as Hgo; [|by eapply Hgo].
  clear args. induction n as [|n IH]; intros [|a args] Hn Hp; simpl in Hn, Hp; [done|lia|done|].
  assert (∀ rest, rest ⊆ args → (length rest ≤ n)%nat → parse_flags kinds rest = inl code →
    code = 2%Z ∨ (code = 0%Z ∧ asks_help (a :: args))) as Hrest.
  { intros rest Hsub Hlen Hr. destruct (IH _ Hlen Hr) as [?|[? (b & nm & v & Hb & Hf)]]; [by left|right].
    split; [done|]. exists b, nm, v. set_solver. }
  destruct (flag_of a) as [| | |nm v] eqn:Ha; [done|done|simplify_eq; by left|].
  assert (bool_decide (nm = "help") || bool_decide (nm = "h") = true → asks_help (a :: args)) as Hhelp.
  { intros Hh. exists a, nm, v. split; [set_solver|]. split; [done|].
    apply orb_true_iff in Hh as [?%bool_decide_eq_true|?%bool_decide_eq_true]; auto. }
  destruct v as [v|]; [specialize (Hrest args ltac:(done) ltac:(lia))|destruct args as [|w rest]; simpl in Hn;
    [|specialize (Hrest rest ltac:(set_solver) ltac:(lia))]]; repeat case_match; simplify_eq/=; auto.
Qed.

(** ** Lemmas: integers up to 2^53 survive a float64 *)
Lemma span_dec_dval s acc n : dval s acc = Some n → span_dec s = (s, EmptyString).
Proof.
  revert acc. induction s as [|c s IH]; intros acc; [done|]. cbn [dval span_dec].
  destruct (is_digit c); [|done]. intros Hs. by rewrite (IH _ Hs).
Qed.
Lemma decimal_pretty (n : N) : decimal (pretty n) = Some (n, 0%Z).
Proof.
  pose proof (digits_pretty n) as Hd. unfold digits in Hd. destruct (pretty n) as [|c t] eqn:Hp; [done|].
  unfold decimal. rewrite (span_dec_dval _ _ _ Hd). by rewrite app_nil_r_str, Hd.
Qed.

Lemma half_even_exact a b : (0 < b)%Z → half_even (a * b) b = a.
Proof.
  intros Hb. unfold half_even. rewrite Z.div_mul, Z.mod_mul by lia.
  by rewrite (proj2 (Z.ltb_lt (2 * 0) b)) by lia.
Qed.
(** An integer of at most 53 bits, or 2^53, is a float64. *)
Lemma round_float_int n : (0 < n ≤ 2 ^ 53)%Z → ∃ m e, round_float n 1 = Some (Float m e) ∧
  ((0 ≤ e ∧ m * 2 ^ e = n) ∨ (e < 0 ∧ m = n * 2 ^ (- e)))%Z.
Proof.
  intros Hn. destruct (decide (n = 2 ^ 53)%Z) as [->|Hne].
  { exists (2 ^ 52)%Z, 1%Z. split; [by vm_compute|]. left. split; [lia|by vm_compute]. }
  pose proof (Z.log2_spec n ltac:(lia)) as [Hl1 Hl2]. pose proof (Z.log2_nonneg n) as Hl0.
  assert (Z.log2 n ≤ 52)%Z as Hl by (apply Z.lt_succ_r, Z.log2_lt_pow2; lia).
  unfold round_float. change (Z.log2 1) with 0%Z. rewrite Z.sub_0_r.
  rewrite (proj2 (Z.leb_le 0 (Z.log2 n))) by done.
  rewrite Z.mul_1_l, (proj2 (Z.leb_le _ _) Hl1), Z.max_l by lia.
  destruct (Z.leb_spec 0 (Z.log2 n - 52)) as [He|He].
  - assert (Z.log2 n - 52 = 0)%Z as -> by lia. change (1 * 2 ^ 0)%Z with 1%Z.
    pose proof (half_even_exact n 1 ltac:(lia)) as Hm. rewrite Z.mul_1_r in Hm. rewrite Hm.
    rewrite andb_true_l, (proj2 (Z.leb_gt (2 ^ 1024) _)).
    + eexists _, _. split; [done|]. left. lia.
    + change (2 ^ 0)%Z with 1%Z. assert (2 ^ 53 < 2 ^ 1024)%Z by (by vm_compute). lia.
  - rewrite andb_false_l. eexists _, _. split; [done|]. right. split; [done|].
    pose proof (half_even_exact (n * 2 ^ (- (Z.log2 n - 52))) 1 ltac:(lia)) as Hm. by rewrite Z.mul_1_r in Hm.
Qed.

Lemma int_of_float_exact ov m e z : in_int64 z = true →
  ((0 ≤ e ∧ m * 2 ^ e = z) ∨ (e < 0 ∧ m = z * 2 ^ (- e)))%Z → int_of_float ov (Float m e) = z.
Proof.
  intros Hz Hme. unfold int_of_float. cbn [f_exponent f_mantissa]. destruct Hme as [[He Hm]|[He ->]].
  - by rewrite (proj2 (Z.leb_le _ _) He), Hm, Hz.
  - rewrite (proj2 (Z.leb_gt _ _) He), Z.quot_mul by (apply Z.pow_nonzero; lia). by rewrite Hz.
Qed.

Lemma float_roundtrip ov z : (- 2 ^ 53 ≤ z ≤ 2 ^ 53)%Z →
  (f ← ParseFloat (Itoa z); Some (int_of_float ov f)) = Some z.
Proof.
  intros Hz. assert (in_int64 z = true) as H64 by (apply bool_decide_eq_true; lia).
  unfold ParseFloat, Itoa. destruct z as [|p|p].
  - done.
  - change (pretty (Zpos p)) with (pretty (Npos p)).
    assert ((match pretty (Npos p) with String "-" t => (true, t) | _ => (false, pretty (Npos p)) end)
      = (false, pretty (Npos p))) as ->.
    { pose proof (digits_pretty (Npos p)) as Hd. destruct (pretty (Npos p)) as [|c t]; [done|].
      apply digits_first in Hd. destruct c as [[] [] [] [] [] [] [] []]; done. }
    rewrite decimal_pretty. cbn [mbind option_bind N.eqb Z.leb Z.compare Z.of_N].
    change (10 ^ 0)%Z with 1%Z. rewrite Z.mul_1_r.
    destruct (round_float_int (Zpos p)) as (m & e & -> & Hme); [lia|]. cbn [mbind option_bind]. f_equal.
    by apply int_of_float_exact.
  - change (pretty (Zneg p)) with (String "-" (pretty (Npos p))). cbn iota beta.
    rewrite decimal_pretty. cbn [mbind option_bind N.eqb Z.leb Z.compare Z.of_N].
    change (10 ^ 0)%Z with 1%Z. rewrite Z.mul_1_r.
    destruct (round_float_int (Zpos p)) as (m & e & -> & Hme); [lia|]. cbn [mbind option_bind f_mantissa f_exponent]. f_equal.
    apply int_of_float_exact; [done|]. destruct Hme as [[? ?]|[? ?]]; [left|right]; split; try done; lia.
Qed.
