(* ===== verification/Auth.v ===== *)
(** * API keys and configuration

    SHA-256 and hexadecimal text as the Go standard library computes them,
    [authMiddleware] (internal/api/middleware.go) up to the call of the next handler,
    the key generator (cmd/keygen/main.go) and the configuration every program reads
    first (internal/config/config.go). *)
From Stdlib Require Import Ascii.
From stdpp Require Import gmap strings list fin_maps.
From S2P Require Import Prelude Text Json Db.
Open Scope N_scope.

(** ** crypto/sha256

    Words are numbers below 2^32. *)
Definition w32 (n : N) : N := n mod 2 ^ 32.
Definition rotr (k n : N) : N := N.lor (N.shiftr n k) (w32 (N.shiftl n (32 - k))).

(** The constants are the first 32 bits of the fractional parts of the cube roots of the
    first 64 primes, and of the square roots of the first 8 for the initial state. *)
Definition primes (n : nat) : list N :=
  filter (λ p, forallb (λ d, negb (p mod d =? 0)) (N.of_nat <$> seq 2 (N.to_nat p - 2)))
    (N.of_nat <$> seq 2 n).
(** The largest [r] below [2 ^ bits + x] with [r ^ 3 <= n], bit by bit. *)
Fixpoint cube_root (bits : nat) (x n : N) : N :=
  match bits with
  | O => x
  | S bits => let y := x + 2 ^ N.of_nat bits in cube_root bits (if y ^ 3 <=? n then y else x) n
  end.
Definition sha_K : list N :=
  Eval vm_compute in (λ p, w32 (cube_root 36 0 (p * 2 ^ 96))) <$> take 64 (primes 310).

Record digest : Type := Digest { dA : N; dB : N; dC : N; dD : N; dE : N; dF : N; dG : N; dH : N }.
Definition sha_init : digest :=
  Eval vm_compute in
  match (λ p, w32 (N.sqrt (p * 2 ^ 64))) <$> take 8 (primes 310) with
  | [a; b; c; d; e; f; g; h] => Digest a b c d e f g h
  | _ => Digest 0 0 0 0 0 0 0 0
  end.

Definition sha_round (k w : N) (s : digest) : digest :=
  let S1 := N.lxor (N.lxor (rotr 6 (dE s)) (rotr 11 (dE s))) (rotr 25 (dE s)) in
  let ch := N.lxor (N.land (dE s) (dF s)) (N.land (N.lxor (dE s) (2 ^ 32 - 1)) (dG s)) in
  let t1 := dH s + S1 + ch + k + w in
  let S0 := N.lxor (N.lxor (rotr 2 (dA s)) (rotr 13 (dA s))) (rotr 22 (dA s)) in
  let maj := N.lxor (N.lxor (N.land (dA s) (dB s)) (N.land (dA s) (dC s))) (N.land (dB s) (dC s)) in
  Digest (w32 (t1 + S0 + maj)) (dA s) (dB s) (dC s) (w32 (dD s + t1)) (dE s) (dF s) (dG s).

(** The next word of the schedule, from the last sixteen. *)
Definition next_word (ws : list N) : N :=
  let w i := nth i ws 0 in
  let s0 := N.lxor (N.lxor (rotr 7 (w 1%nat)) (rotr 18 (w 1%nat))) (N.shiftr (w 1%nat) 3) in
  let s1 := N.lxor (N.lxor (rotr 17 (w 14%nat)) (rotr 19 (w 14%nat))) (N.shiftr (w 14%nat) 10) in
  w32 (w 0%nat + s0 + w 9%nat + s1).
Fixpoint sha_rounds (ks ws : list N) (s : digest) : digest :=
  match ks with
  | [] => s
  | k :: ks => sha_rounds ks (tail ws ++ [next_word ws]) (sha_round k (hd 0 ws) s)
  end.
Definition sha_block (ws : list N) (s : digest) : digest :=
  let t := sha_rounds sha_K ws s in
  Digest (w32 (dA s + dA t)) (w32 (dB s + dB t)) (w32 (dC s + dC t)) (w32 (dD s + dD t))
         (w32 (dE s + dE t)) (w32 (dF s + dF t)) (w32 (dG s + dG t)) (w32 (dH s + dH t)).

(** Big-endian words; the message is a whole number of them after padding. *)
Fixpoint words_of (bs : list N) : list N :=
  match bs with
  | a :: b :: c :: d :: bs => ((a * 256 + b) * 256 + c) * 256 + d :: words_of bs
  | _ => []
  end.
Definition sha_pad (bs : list N) : list N :=
  let len := N.of_nat (length bs) in
  bs ++ 128 :: replicate (N.to_nat ((119 - len mod 64) mod 64)) 0 ++
  ((λ k, N.shiftr (8 * len) (8 * k) mod 256) <$> [7; 6; 5; 4; 3; 2; 1; 0]).
Fixpoint sha_blocks (n : nat) (ws : list N) (s : digest) : digest :=
  match n with
  | O => s
  | S n => sha_blocks n (drop 16 ws) (sha_block (take 16 ws) s)
  end.
Definition sha_sum (bs : list N) : digest :=
  let ws := words_of (sha_pad bs) in sha_blocks (length ws / 16) ws sha_init.

(** ** encoding/hex and the verb %x *)
Definition hex_char (n : N) : ascii := ascii_of_N (if n <? 10 then 48 + n else 87 + n).
Fixpoint hex_bytes (bs : list N) : string :=
  match bs with
  | [] => EmptyString
  | b :: bs => String (hex_char (b / 16)) (String (hex_char (b mod 16)) (hex_bytes bs))
  end.
Definition word_bytes (w : N) : list N := (λ k, N.shiftr w (8 * k) mod 256) <$> [3; 2; 1; 0].
Definition digest_bytes (s : digest) : list N :=
  [dA s; dB s; dC s; dD s; dE s; dF s; dG s; dH s] ≫= word_bytes.

Fixpoint bytes_of (s : string) : list N :=
  match s with EmptyString => [] | String c s => byte c :: bytes_of s end.
(** [fmt.Sprintf("%x", sha256.Sum256([]byte(key)))] *)
Definition key_hash_of (key : string) : string := hex_bytes (digest_bytes (sha_sum (bytes_of key))).

(** The test vectors of FIPS 180-2 for no block, one block and two blocks. *)
Example sha_empty : key_hash_of "" = "e3b0c44298fc1c149afbf4c8996fb92427ae41e4649b934ca495991b7852b855".
Proof. vm_compute. reflexivity. Qed.
Example sha_abc : key_hash_of "abc" = "ba7816bf8f01cfea414140de5dae2223b00361a396177a9cb410ff61f20015ad".
Proof. vm_compute. reflexivity. Qed.
Example sha_long : key_hash_of "abcdbcdecdefdefgefghfghighijhijkijkljklmklmnlmnomnopnopq" =
  "248d6a61d20638b8e5c026930c3e6039a33ce45964ff2167f6ecedd419db06c1".
Proof. vm_compute. reflexivity. Qed.

(** ** The configuration

    [env] is the environment after [godotenv.Load], whose outcome is [load].
    [None] is [log.Fatal], the end of the program with exit code 1. *)
Inductive dotenv : Type := EnvLoaded | EnvNoFile | EnvBroken.

Record Config : Type := {
  DBUrl : string; WorkerCount : Z; RedisAddr : string; RedisPassword : string; RedisDB : Z;
  RedisQueueName : string; GRPCAddr : string; HTTPAddr : string;
}.

Definition getEnv (env : string → string) (key fallback : string) : string :=
  if bool_decide (env key = EmptyString) then fallback else env key.

Definition LoadConfig (load : dotenv) (env : string → string) : option Config :=
  match load with
  | EnvBroken => None
  | _ =>
      workerCount ← Atoi (env "WORKER_COUNT");
      redisDB ← (if bool_decide (env "REDIS_DB" = EmptyString) then Some 0%Z else Atoi (env "REDIS_DB"));
      Some {| DBUrl := env "DB_URL"; WorkerCount := workerCount;
              RedisAddr := getEnv env "REDIS_ADDR" "localhost:6379";
              RedisPassword := env "REDIS_PASSWORD"; RedisDB := redisDB;
              RedisQueueName := getEnv env "REDIS_QUEUE_NAME" "jobs";
              GRPCAddr := getEnv env "GRPC_ADDR" ":50051"; HTTPAddr := getEnv env "HTTP_ADDR" ":8080" |}
  end.

(** ** The key generator

    [raw] are the 32 random bytes; the answer is what is printed, or [None] for an
    exit with code 1. *)
Definition new_key (raw : string) : string := "orq_" +:+ hex_bytes (bytes_of raw).

Definition key_banner : string := "API key (save this — it will not be shown again):" +:+ newline.
Definition keygen (args : list string) (cfg : option Config) (pool : result unit)
    (raw : result string) : M (conn db) (option string) :=
  let name := match args with name :: _ => name | [] => "default" end in
  match cfg, pool, raw with
  | Some _, Ok _, Ok raw =>
      let key := new_key raw in
      r ← InsertAPIKey name (key_hash_of key);
      match r with
      | Ok _ => mret (Some (key_banner +:+ key +:+ newline))
      | Err _ => mret None
      end
  | _, _, _ => mret None
  end.

(** ** Lemmas *)

(** Printable ASCII is text Postgres can store. *)
Fixpoint all_ascii (s : string) : bool :=
  match s with EmptyString => true | String c s => (0 <? byte c) && (byte c <? 128) && all_ascii s end.

Lemma all_ascii_text_ok s : all_ascii s = true → text_ok s = true.
Proof.
  intros Hs. unfold text_ok.
  enough (ValidString s = true ∧ has_NUL s = false) as [-> ->] by done.
  induction s as [|c s IH]; [done|]. cbn [all_ascii] in Hs.
  apply andb_true_iff in Hs as [[Hz Hc]%andb_true_iff Hs]. destruct (IH Hs) as [IHv IHn]. split.
  - unfold ValidString in *. cbn [runes]. unfold ascii_byte. rewrite Hc. done.
  - cbn [has_NUL]. rewrite IHn, bool_decide_false; [done|]. intros ->. done.
Qed.

Lemma hex_char_ascii n : n < 16 → all_ascii (String (hex_char n) EmptyString) = true.
Proof.
  intros Hn. assert (n ∈ [0;1;2;3;4;5;6;7;8;9;10;11;12;13;14;15]) as Hin.
  { rewrite !elem_of_cons. lia. }
  revert Hin. rewrite !elem_of_cons, elem_of_nil. intros Hin.
  repeat destruct Hin as [->|Hin]; try reflexivity. done.
Qed.

Lemma hex_bytes_ascii bs : Forall (λ b, b < 256) bs → all_ascii (hex_bytes bs) = true.
Proof.
  induction 1 as [|b bs Hb _ IH]; [done|]. cbn [hex_bytes all_ascii].
  pose proof (hex_char_ascii (b / 16) ltac:(apply N.Div0.div_lt_upper_bound; lia)) as H1.
  pose proof (hex_char_ascii (b mod 16) ltac:(apply N.mod_lt; lia)) as H2.
  cbn [all_ascii] in H1, H2. rewrite andb_true_r in H1, H2. by rewrite H1, H2, IH.
Qed.

Lemma digest_bytes_small s : Forall (λ b, b < 256) (digest_bytes s).
Proof.
  unfold digest_bytes. rewrite Forall_bind. apply Forall_forall. intros w _.
  apply Forall_forall. intros b (k & -> & _)%list_elem_of_fmap. apply N.mod_lt. lia.
Qed.

Lemma key_hash_text_ok key : text_ok (key_hash_of key) = true.
Proof. apply all_ascii_text_ok, hex_bytes_ascii, digest_bytes_small. Qed.

Lemma byte_small c : byte c < 256.
Proof. unfold byte. apply N_ascii_bounded. Qed.

Lemma bytes_of_small s : Forall (λ b, b < 256) (bytes_of s).
Proof. induction s as [|c s IH]; simpl; constructor; [apply byte_small|done]. Qed.

Lemma all_ascii_app s t : all_ascii (s +:+ t) = all_ascii s && all_ascii t.
Proof. induction s as [|c s IH]; [done|]. simpl. by rewrite IH, !andb_assoc. Qed.

Lemma new_key_ascii raw : all_ascii (new_key raw) = true.
Proof. unfold new_key. rewrite all_ascii_app, hex_bytes_ascii; [done|]. apply bytes_of_small. Qed.

(** The keys a request may carry. *)
Definition has_key (d : db) (key : string) : Prop :=
  ∃ i k, api_keys d !! i = Some k ∧ key_hash k = key_hash_of key.

Lemma wp_ValidateAPIKey key c (Q : result bool → conn db → Prop) :
  (∀ fs, (c_faults c = [] → fs = []) → ∀ b, (b = true ↔ has_key (c_data c) key) →
     Q (Ok b) (Conn (c_data c) fs (c_now c))) →
  (∀ e fs, c_faults c ≠ [] → Q (Err e) (Conn (c_data c) fs (c_now c))) →
  wp (ValidateAPIKey (key_hash_of key)) c Q.
Proof.
  intros HQ HE. unfold ValidateAPIKey. rewrite key_hash_text_ok.
  apply (wp_read (λ _ d, Ok (bool_decide (0 < count_where (λ _ k, bool_decide (key_hash k = key_hash_of key))
    (api_keys d))%Z))).
  - intros fs Hfs. apply HQ; [done|]. rewrite bool_decide_eq_true, count_where_pos. unfold has_key.
    setoid_rewrite bool_decide_eq_true. done.
  - intros fs Hne. by apply HE.
Qed.

(** A key is printed only when its hash has been stored. *)
Lemma keygen_stores args cfg pool raw c :
  wp (keygen args cfg pool raw) c (λ o c', ∀ out, o = Some out → ∃ bytes, raw = Ok bytes ∧
    out = key_banner +:+ new_key bytes +:+ newline ∧ has_key (c_data c') (new_key bytes) ∧
    (api_keys (c_data c) !! next_key (c_data c) = None → api_keys (c_data c) ⊆ api_keys (c_data c')) ∧
    jobs (c_data c') = jobs (c_data c) ∧ outbox (c_data c') = outbox (c_data c) ∧ runs (c_data c') = runs (c_data c)).
Proof.
  unfold keygen. destruct cfg as [cfg|], pool as [[]|], raw as [bytes|]; try by apply wp_ret.
  apply wp_bind. set (name := match args with name :: _ => name | [] => _ end). clearbody name.
  apply wp_call; [|by intros fs _; apply wp_ret..]. intros fs Hfs.
  rewrite key_hash_text_ok, andb_true_r. destruct (text_ok name); [|by apply wp_ret].
  case_bool_decide; [by apply wp_ret|]. apply wp_ret. intros out [= <-]. exists bytes.
  cbn [c_data fst snd jobs outbox runs api_keys]. split_and!; try done.
  - eexists _, _. cbn [api_keys]. by rewrite lookup_insert_eq.
  - intros Hnew. by apply insert_subseteq.
Qed.
