(* ===== verification/Api.v ===== *)
(** * The REST API

    Models internal/api: the routes of [NewRouter], [authMiddleware] (middleware.go)
    and every handler (handler.go), on the state the server's goroutines share.

    A request is what net/http hands over: the method, the decoded segments of a
    clean path (ServeMux redirects a path that is not clean before it looks at the
    handlers; a trailing slash is a segment of its own), the pairs of the query, the
    header Authorization (empty when it is missing) and the body. *)
From Stdlib Require Import Ascii.
From stdpp Require Import gmap strings list fin_maps pretty.
From S2P Require Import Prelude Text Json Redis Queue RedisQueue Db Outbox Service Auth Strings.
From S2P Require Import Workflow.
Open Scope Z_scope.

Record Request : Type := {
  rq_method : string;
  rq_path : list string;
  rq_query : list (string * string);
  rq_auth : string;
  rq_body : string;
}.
Record Response : Type := { rs_status : Z; rs_type : string; rs_body : string }.

(** [r.URL.Query().Get]: the first pair with the key. *)
Definition Query_Get (q : list (string * string)) (key : string) : string :=
  default EmptyString (snd <$> head (filter (λ kv, kv.1 = key) q)).

(** ** Routes *)
Inductive endpoint : Type :=
  | submitJob | listJobs | getJob | cancelJob
  | listWorkflows | triggerWorkflow | listWorkflowRuns | getWorkflowStatus | cancelWorkflowRun.
#[export] Instance endpoint_eq_dec : EqDecision endpoint.
Proof. solve_decision. Defined.

(** A segment of a pattern: a literal or a wildcard [{name}]. *)
Inductive segment : Type := Lit (s : string) | Wild (name : string).

Definition NewRouter : list (string * list segment * endpoint) := [
  ("POST", [Lit "api"; Lit "v1"; Lit "jobs"], submitJob);
  ("GET", [Lit "api"; Lit "v1"; Lit "jobs"], listJobs);
  ("GET", [Lit "api"; Lit "v1"; Lit "jobs"; Wild "id"], getJob);
  ("POST", [Lit "api"; Lit "v1"; Lit "jobs"; Wild "id"; Lit "cancel"], cancelJob);
  ("GET", [Lit "api"; Lit "v1"; Lit "workflows"], listWorkflows);
  ("POST", [Lit "api"; Lit "v1"; Lit "workflows"; Wild "name"; Lit "trigger"], triggerWorkflow);
  ("GET", [Lit "api"; Lit "v1"; Lit "workflows"; Lit "runs"], listWorkflowRuns);
  ("GET", [Lit "api"; Lit "v1"; Lit "workflows"; Lit "runs"; Wild "id"], getWorkflowStatus);
  ("POST", [Lit "api"; Lit "v1"; Lit "workflows"; Lit "runs"; Wild "id"; Lit "cancel"], cancelWorkflowRun)].

(** The wildcards of a match; one matches any segment but a trailing slash. *)
Fixpoint match_path (pat : list segment) (path : list string) : option (list (string * string)) :=
  match pat, path with
  | [], [] => Some []
  | Lit s :: pat, x :: path => if bool_decide (s = x) then match_path pat path else None
  | Wild n :: pat, x :: path => if bool_decide (x = "/") then None else cons (n, x) <$> match_path pat path
  | _, _ => None
  end.

(** A pattern with the method GET serves HEAD too. *)
Definition serves (m method : string) : bool :=
  bool_decide (m = method) || (bool_decide (m = "GET") && bool_decide (method = "HEAD")).

Inductive routed : Type :=
  | Routed (e : endpoint) (values : list (string * string))
  | MethodNotAllowed
  | NotFound.

(** No two patterns match the same request, so the first is the most specific. *)
Fixpoint find_route (rs : list (string * list segment * endpoint)) (method : string) (path : list string) : routed :=
  match rs with
  | [] => NotFound
  | (m, pat, e) :: rs =>
      match match_path pat path with
      | Some values =>
          if serves m method then Routed e values
          else match find_route rs method path with Routed e values => Routed e values | _ => MethodNotAllowed end
      | None => find_route rs method path
      end
  end.

(** ** Answers *)
Definition writeJSON (status : Z) (v : json) : Response :=
  {| rs_status := status; rs_type := "application/json"; rs_body := Encode v |}.
Definition writeError (status : Z) (msg : string) : Response := writeJSON status (JObj [("error", JStr msg)]).
(** [http.Error] *)
Definition plain_error (status : Z) (msg : string) : Response :=
  {| rs_status := status; rs_type := "text/plain; charset=utf-8"; rs_body := msg +:+ newline |}.

Definition num (z : Z) : json := JNum (Itoa z).
(** The JSON of [db.JobRow], [db.WorkflowRunRow] and [summary], by their tags. *)
Definition job_json (row : JobRow) : json :=
  JObj [("id", num (r_ID row)); ("status", JStr (job_status_text (r_Status row)));
        ("retry_count", num (r_RetryCount row)); ("max_retries", num (r_MaxRetries row));
        ("type", JStr (r_Type row)); ("payload", JStr (r_Payload row)); ("output", JStr (r_Output row))].
Definition run_json (row : WorkflowRunRow) : json :=
  JObj [("id", num (w_ID row)); ("workflow_name", JStr (w_WorkflowName row));
        ("status", JStr (run_status_text (w_Status row)));
        ("current_step", num (w_CurrentStep row)); ("total_steps", num (w_TotalSteps row))].
Definition summary (wf : Workflow) : json :=
  JObj (("name", JStr (Name wf)) ::
        (if bool_decide (Schedule wf = EmptyString) then [] else [("schedule", JStr (Schedule wf))]) ++
        [("step_count", num (Z.of_nat (length (Steps wf))))]).

(** The body of a submission. *)
Record job_request : Type := { jr_Type : string; jr_Payload : string; jr_MaxRetries : Z }.
Definition job_request_fields : list (field job_request) :=
  [string_field "type" (λ s r, {| jr_Type := s; jr_Payload := jr_Payload r; jr_MaxRetries := jr_MaxRetries r |});
   string_field "payload" (λ s r, {| jr_Type := jr_Type r; jr_Payload := s; jr_MaxRetries := jr_MaxRetries r |});
   int_field "max_retries" (λ z r, {| jr_Type := jr_Type r; jr_Payload := jr_Payload r; jr_MaxRetries := z |})].
Definition job_request_zero : job_request :=
  {| jr_Type := EmptyString; jr_Payload := EmptyString; jr_MaxRetries := 0 |}.
Definition decode_job_request (body : string) : result job_request :=
  DecodeInto job_request_fields job_request_zero body.

Section api.
Context {Q : Type} `{Queue Q}.
Variable registry : Registry.
(** [Error()] of the errors of the drivers, and the runes beyond ASCII that %q keeps. *)
Variable driver_text : goerr → string.
Variable isPrint : string → bool.

Definition error_text (e : goerr) : string :=
  match e with
  | ErrNotCancellable id st => "job " +:+ Itoa id +:+ " cannot be cancelled: status is " +:+ st
  | ErrWorkflowNotFound name => "workflow " +:+ Quote isPrint name +:+ " not found"
  | e => driver_text e
  end.

Definition PathValue (values : list (string * string)) (key : string) : string :=
  default EmptyString (snd <$> head (filter (λ kv, kv.1 = key) values)).
Definition pathInt (values : list (string * string)) (key : string) : option Z := Atoi (PathValue values key).

(** ** Handlers *)
Definition submitJob_handler (r : Request) : M (world Q) Response :=
  match decode_job_request (rq_body r) with
  | Err _ => mret (writeError 400 "invalid request body")
  | Ok req =>
      o ← SubmitJob (jr_MaxRetries req) (jr_Type req) (jr_Payload req);
      mret match o with
           | Err e => writeError 500 (error_text e)
           | Ok jobID => writeJSON 201 (JObj [("job_id", num jobID)])
           end
  end.

Definition getJob_handler (values : list (string * string)) : M (world Q) Response :=
  match pathInt values "id" with
  | None => mret (writeError 400 "invalid job id")
  | Some id =>
      o ← svc_GetJob id;
      mret match o with
           | Err ErrNoRows => writeError 404 "job not found"
           | Err e => writeError 500 (error_text e)
           | Ok job => writeJSON 200 (job_json job)
           end
  end.

Definition listJobs_handler (r : Request) : M (world Q) Response :=
  o ← svc_ListJobs (Query_Get (rq_query r) "status");
  mret match o with
       | Err e => writeError 500 (error_text e)
       | Ok jobs => if bool_decide (jobs = []) then writeJSON 200 (JArr [])
                    else writeJSON 200 (JArr (job_json <$> jobs))
       end.

Definition cancelJob_handler (values : list (string * string)) : M (world Q) Response :=
  match pathInt values "id" with
  | None => mret (writeError 400 "invalid job id")
  | Some id =>
      o ← CancelJob id;
      mret match o with
           | Err e => writeError 400 (error_text e)
           | Ok _ => writeJSON 200 (JObj [("job_id", num id); ("status", JStr "cancelled")])
           end
  end.

Definition listWorkflows_handler : M (world Q) Response :=
  mret (writeJSON 200 (JArr (summary <$> ListWorkflows registry))).

Definition listWorkflowRuns_handler : M (world Q) Response :=
  o ← svc_ListWorkflowRuns;
  mret match o with
       | Err e => writeError 500 (error_text e)
       | Ok runs => if bool_decide (runs = []) then writeJSON 200 (JArr [])
                    else writeJSON 200 (JArr (run_json <$> runs))
       end.

Definition cancelWorkflowRun_handler (values : list (string * string)) : M (world Q) Response :=
  match pathInt values "id" with
  | None => mret (writeError 400 "invalid run id")
  | Some id =>
      o ← CancelWorkflowRun id;
      mret match o with
           | Err ErrNoRows => writeError 404 "workflow run not found or not running"
           | Err e => writeError 500 (error_text e)
           | Ok _ => writeJSON 200 (JObj [("run_id", num id); ("status", JStr "cancelled")])
           end
  end.

Definition triggerWorkflow_handler (values : list (string * string)) : M (world Q) Response :=
  o ← TriggerWorkflow registry (PathValue values "name");
  mret match o with
       | Err e => writeError 400 (error_text e)
       | Ok runID => writeJSON 201 (JObj [("run_id", num runID)])
       end.

Definition getWorkflowStatus_handler (values : list (string * string)) : M (world Q) Response :=
  match pathInt values "id" with
  | None => mret (writeError 400 "invalid run id")
  | Some id =>
      o ← GetWorkflowStatus id;
      mret match o with
           | Err ErrNoRows => writeError 404 "workflow run not found"
           | Err e => writeError 500 (error_text e)
           | Ok run => writeJSON 200 (run_json run)
           end
  end.

Definition handle (e : endpoint) (values : list (string * string)) (r : Request) : M (world Q) Response :=
  match e with
  | submitJob => submitJob_handler r
  | listJobs => listJobs_handler r
  | getJob => getJob_handler values
  | cancelJob => cancelJob_handler values
  | listWorkflows => listWorkflows_handler
  | triggerWorkflow => triggerWorkflow_handler values
  | listWorkflowRuns => listWorkflowRuns_handler
  | getWorkflowStatus => getWorkflowStatus_handler values
  | cancelWorkflowRun => cancelWorkflowRun_handler values
  end.

(** [mux.ServeHTTP] *)
Definition mux (r : Request) : M (world Q) Response :=
  match find_route NewRouter (rq_method r) (rq_path r) with
  | Routed e values => handle e values r
  | MethodNotAllowed => mret (plain_error 405 "Method Not Allowed")
  | NotFound => mret (plain_error 404 "404 page not found")
  end.

Definition bearer (r : Request) : option string :=
  key ← CutPrefix (rq_auth r) "Bearer "; if bool_decide (key = EmptyString) then None else Some key.
Definition authMiddleware (next : Request → M (world Q) Response) (r : Request) : M (world Q) Response :=
  match bearer r with
  | None => mret (writeError 401 "missing API key")
  | Some key =>
      valid ← on_db (ValidateAPIKey (key_hash_of key));
      match valid with
      | Ok true => next r
      | _ => mret (writeError 401 "invalid API key")
      end
  end.

(** The handler of the server: [NewRouter]'s mux behind the middleware. *)
Definition ServeHTTP : Request → M (world Q) Response := authMiddleware mux.
End api.

(** ** The types of the answers

    What a client may rely on: the members of each object, in order; a member that is
    not required may be left out. *)
#[warnings="-register-all"]
Inductive jtype : Type :=
  | TStr
  | TInt
  | TArr (t : jtype)
  | TObj (fs : list (string * bool * jtype)).

Definition is_int (s : string) : bool :=
  bool_decide (is_Some (digits (match s with String "-" t => t | _ => s end))).

Fixpoint has_type (t : jtype) (v : json) {struct t} : bool :=
  match t, v with
  | TStr, JStr _ => true
  | TInt, JNum s => is_int s
  | TArr t, JArr l => forallb (has_type t) l
  | TObj fs, JObj ms =>
      (fix go (fs : list (string * bool * jtype)) (ms : list (string * json)) {struct fs} : bool :=
        match fs, ms with
        | [], _ => bool_decide (ms.*1 = [])
        | (k, required, t) :: fs, (k', v) :: ms' =>
            if bool_decide (k = k') then has_type t v && go fs ms'
            else negb required && go fs ms
        | (_, required, _) :: fs, [] => negb required && go fs ms
        end) fs ms
  | _, _ => false
  end.

Definition TError : jtype := TObj [("error", true, TStr)].
Definition TJob : jtype :=
  TObj [("id", true, TInt); ("status", true, TStr); ("retry_count", true, TInt); ("max_retries", true, TInt);
        ("type", true, TStr); ("payload", true, TStr); ("output", true, TStr)].
Definition TRun : jtype :=
  TObj [("id", true, TInt); ("workflow_name", true, TStr); ("status", true, TStr);
        ("current_step", true, TInt); ("total_steps", true, TInt)].
Definition TSummary : jtype := TObj [("name", true, TStr); ("schedule", false, TStr); ("step_count", true, TInt)].

(** The type of an endpoint's answer with a status; [None] if it never has it. *)
Definition answer_type (e : endpoint) (status : Z) : option jtype :=
  let ok (n : Z) (t : jtype) (errors : list Z) :=
    if bool_decide (status = n) then Some t
    else if bool_decide (status ∈ errors) then Some TError else None in
  match e with
  | submitJob => ok 201 (TObj [("job_id", true, TInt)]) [400; 401; 500]
  | listJobs => ok 200 (TArr TJob) [401; 500]
  | getJob => ok 200 TJob [400; 401; 404; 500]
  | cancelJob => ok 200 (TObj [("job_id", true, TInt); ("status", true, TStr)]) [400; 401]
  | listWorkflows => ok 200 (TArr TSummary) [401]
  | triggerWorkflow => ok 201 (TObj [("run_id", true, TInt)]) [400; 401]
  | listWorkflowRuns => ok 200 (TArr TRun) [401; 500]
  | getWorkflowStatus => ok 200 TRun [400; 401; 404; 500]
  | cancelWorkflowRun => ok 200 (TObj [("run_id", true, TInt); ("status", true, TStr)]) [400; 401; 404; 500]
  end.

(** An answer whose body a client decodes to a value of type [t]. *)
Definition typed_body (t : jtype) (rs : Response) : Prop :=
  rs_type rs = "application/json" ∧ ∃ v, Decode (rs_body rs) = Some v ∧ has_type t v = true.
Definition typed_answer (e : endpoint) (rs : Response) : Prop :=
  ∃ t, answer_type e (rs_status rs) = Some t ∧ typed_body t rs.

(** ** Lemmas: values *)
Lemma is_int_Itoa z : is_int (Itoa z) = true.
Proof.
  apply bool_decide_eq_true. unfold Itoa. destruct z as [|p|p]; [by eexists| |].
  - change (pretty (Zpos p)) with (pretty (Npos p)). pose proof (digits_pretty (Npos p)) as Hd.
    destruct (pretty (Npos p)) as [|c t] eqn:Hp; [done|]. pose proof (digits_first _ _ _ Hd) as Hc.
    destruct c as [[] [] [] [] [] [] [] []]; try done; by eexists.
  - change (pretty (Zneg p)) with (String "-" (pretty (Npos p))). cbn iota. rewrite digits_pretty. by eexists.
Qed.

(** A submission is read as it was written. *)
Lemma decode_submission n p t : in_int64 n = true →
  decode_job_request (Marshal (JObj [("max_retries", num n); ("payload", JStr p); ("type", JStr t)])) =
  Ok {| jr_Type := sanitize t; jr_Payload := sanitize p; jr_MaxRetries := n |}.
Proof.
  intros Hn. unfold decode_job_request, DecodeInto.
  rewrite Decode_Marshal by (by repeat constructor || done).
  cbn [sanitize_json fmap list_fmap mbind option_bind decode_struct num set_fields].
  rewrite (sanitize_valid "max_retries"), (sanitize_valid "payload"), (sanitize_valid "type") by reflexivity.
  assert (∀ i k f, job_request_fields !! i = Some (k, f) → find_field job_request_fields k = Some f) as Hf.
  { intros i k f. apply find_field_exact. apply (bool_decide_eq_true_1 _). by vm_compute. }
  rewrite (Hf 2%nat _ _ eq_refl). cbn -[find_field ParseInt Itoa sanitize].
  rewrite (ParseInt_Itoa _ Hn). cbn -[find_field ParseInt Itoa sanitize].
  rewrite (Hf 1%nat _ _ eq_refl). cbn -[find_field ParseInt Itoa sanitize].
  rewrite (Hf 0%nat _ _ eq_refl). reflexivity.
Qed.

Lemma plain_job row : plain (job_json row).
Proof. repeat constructor. Qed.
Lemma plain_run row : plain (run_json row).
Proof. repeat constructor. Qed.
Lemma plain_summary wf : plain (summary wf).
Proof. unfold summary. case_bool_decide; repeat constructor. Qed.

(** Numbers are opaque for the computation of a type. *)
Ltac typed_numbers :=
  unfold job_json, run_json, num;
  repeat match goal with |- context [Itoa ?z] => generalize (is_int_Itoa z); generalize (Itoa z); intros ? ? end;
  lazy -[is_int]; repeat match goal with H : is_int _ = true |- _ => rewrite H; clear H end; reflexivity.

Lemma nesting_job row : (nesting (job_json row) ≤ 1)%N.
Proof. unfold job_json. cbn [nesting num fmap list_fmap foldr]. lia. Qed.
Lemma nesting_run row : (nesting (run_json row) ≤ 1)%N.
Proof. unfold run_json. cbn [nesting num fmap list_fmap foldr]. lia. Qed.
Lemma nesting_summary wf : (nesting (summary wf) ≤ 1)%N.
Proof. unfold summary. case_bool_decide; cbn [app nesting num fmap list_fmap foldr]; lia. Qed.
Lemma typed_job row : has_type TJob (sanitize_json (job_json row)) = true.
Proof. typed_numbers. Qed.
Lemma typed_run row : has_type TRun (sanitize_json (run_json row)) = true.
Proof. typed_numbers. Qed.
Lemma typed_summary wf : has_type TSummary (sanitize_json (summary wf)) = true.
Proof. unfold summary. case_bool_decide; typed_numbers. Qed.

Lemma typed_writeJSON t status v : plain v → (nesting v ≤ 10000)%N → has_type t (sanitize_json v) = true →
  typed_body t (writeJSON status v).
Proof. intros Hp Hn Ht. split; [done|]. eexists. split; [by apply Decode_Encode|done]. Qed.
Lemma typed_error status msg : typed_body TError (writeError status msg).
Proof. apply typed_writeJSON; [repeat constructor|cbn; lia|done]. Qed.

Lemma nesting_list {A} (f : A → json) l : (∀ x, nesting (f x) ≤ 1)%N → (nesting (JArr (f <$> l)) ≤ 2)%N.
Proof.
  intros Hf. cbn [nesting]. enough (foldr N.max 0 (nesting <$> (f <$> l)) ≤ 1)%N by lia.
  induction l as [|x l IH]; [by vm_compute|]. rewrite !fmap_cons. by apply N.max_lub.
Qed.

Lemma typed_list {A} t (f : A → json) status l : (∀ x, plain (f x)) → (∀ x, nesting (f x) ≤ 1)%N →
  (∀ x, has_type t (sanitize_json (f x)) = true) → typed_body (TArr t) (writeJSON status (JArr (f <$> l))).
Proof.
  intros Hp Hn Ht. apply typed_writeJSON.
  - constructor. apply Forall_fmap, Forall_true. done.
  - pose proof (nesting_list f l Hn). lia.
  - cbn [sanitize_json has_type]. apply forallb_forall. intros v Hv.
    apply list_elem_of_In in Hv. rewrite <-list_fmap_compose in Hv. apply list_elem_of_fmap in Hv as (x & -> & _). apply Ht.
Qed.

(** ** Lemmas: the key of a request *)
Lemma CutPrefix_spec s pre t : CutPrefix s pre = Some t ↔ s = pre +:+ t.
Proof.
  revert s. induction pre as [|a pre IH]; intros s; cbn [CutPrefix].
  - split; [by intros [= ->]|by intros ->].
  - change (String a pre +:+ t) with (String a (pre +:+ t)). destruct s as [|c s]; [done|].
    destruct (Ascii.eqb_spec a c) as [->|Hne]; [rewrite IH; naive_solver|naive_solver].
Qed.

(** The request carries a key that is stored. *)
Definition authorized (d : db) (r : Request) : Prop :=
  ∃ key, rq_auth r = "Bearer " +:+ key ∧ key ≠ EmptyString ∧ has_key d key.

Lemma bearer_spec r key : bearer r = Some key ↔ rq_auth r = "Bearer " +:+ key ∧ key ≠ EmptyString.
Proof.
  unfold bearer. destruct (CutPrefix (rq_auth r) "Bearer ") as [k|] eqn:Hk; cbn [mbind option_bind].
  - apply CutPrefix_spec in Hk. rewrite Hk. case_bool_decide as He.
    + split; [done|]. intros [Heq Hne]. apply (inj (String.app _)) in Heq. congruence.
    + split; [by intros [= ->]|]. intros [Heq _]. f_equal. by apply (inj (String.app _)) in Heq.
  - split; [done|]. intros [Heq%CutPrefix_spec _]. congruence.
Qed.

Section lemmas.
Context {Q : Type} `{Queue Q}.
Variable registry : Registry.
Variable driver_text : goerr → string.
Variable isPrint : string → bool.
Implicit Types (w : world Q) (r : Request).

(** The middleware: a refusal changes nothing; without failures an authorized request
    is served as if the middleware was not there. *)
Lemma wp_authMiddleware next r w (P : Response → world Q → Prop) :
  (∀ msg fs, (w_db_faults w = [] → fs = [] ∧ ¬ authorized (w_db w) r) →
     P (writeError 401 msg) (World (w_db w) fs (w_q w) (w_q_faults w) (w_now w))) →
  (∀ fs, (w_db_faults w = [] → fs = []) → authorized (w_db w) r →
     wp (next r) (World (w_db w) fs (w_q w) (w_q_faults w) (w_now w)) P) →
  wp (authMiddleware next r) w P.
Proof.
  intros Hno Hyes. unfold authMiddleware. destruct (bearer r) as [key|] eqn:Hk.
  - pose proof (proj1 (bearer_spec _ _) Hk) as [Hr Hne]. apply wp_bind, wp_on_db.
    apply wp_ValidateAPIKey; cbn [c_data c_faults c_now].
    + intros fs Hfs [] Hb.
      * apply Hyes; [done|]. exists key. split_and!; [done..|]. by apply Hb.
      * apply Hno. intros Hf. split; [by apply Hfs|]. intros (k & Hr' & _ & Hhas). rewrite Hr in Hr'.
        apply (inj (String.app _)) in Hr' as <-. destruct Hb as [_ Hb]. by specialize (Hb Hhas).
    + intros e fs Hf. apply Hno. done.
  - apply wp_ret. destruct w as [d fs q qfs now]. apply (Hno _ fs). intros Hf. split; [done|]. intros (key & Hr & Hne & _).
    pose proof (proj2 (bearer_spec r key) (conj Hr Hne)). congruence.
Qed.

(** An answer of a handler; 401 is for the middleware. *)
Definition handled (e : endpoint) (rs : Response) : Prop := typed_answer e rs ∧ rs_status rs ≠ 401.
Lemma typed_answer_error e status msg : answer_type e status = Some TError → typed_answer e (writeError status msg).
Proof. intros He. exists TError. split; [done|apply typed_error]. Qed.
Lemma handled_error e status msg : answer_type e status = Some TError → status ≠ 401 →
  handled e (writeError status msg).
Proof. intros He Hs. split; [by apply typed_answer_error|done]. Qed.
Lemma handled_ids e k s status z : answer_type e status = Some (TObj ((k, true, TInt) :: s)) →
  status ≠ 401 → sanitize k = k → s = [] ∨ s = [("status", true, TStr)] →
  handled e (writeJSON status (JObj ((k, num z) :: (if s is [] then [] else [("status", JStr "cancelled")])))).
Proof.
  intros He H401 Hk Hs. split; [|done]. eexists. split; [exact He|].
  destruct Hs as [-> | ->]; (apply typed_writeJSON; [repeat constructor|by vm_compute|]);
    cbn [sanitize_json fmap list_fmap num]; rewrite Hk; cbn [has_type];
    (rewrite bool_decide_true by done); rewrite is_int_Itoa; reflexivity.
Qed.

Lemma handled_list {A} e t (f : A → json) l : answer_type e 200 = Some (TArr t) → (∀ x, plain (f x)) →
  (∀ x, nesting (f x) ≤ 1)%N → (∀ x, has_type t (sanitize_json (f x)) = true) →
  handled e (if bool_decide (l = []) then writeJSON 200 (JArr []) else writeJSON 200 (JArr (f <$> l))).
Proof.
  intros He Hp Hn Ht. split; [|by case_bool_decide]. exists (TArr t). case_bool_decide as Hl; (split; [done|]).
  - by apply (typed_list t f 200 []).
  - by apply typed_list.
Qed.

(** Every handler's answers have the endpoint's types, whatever its service says. *)
Lemma handle_handled e values r w :
  wp (handle registry driver_text isPrint e values r) w (λ rs _, handled e rs).
Proof.
  destruct e; cbn [handle].
  - unfold submitJob_handler. destruct (decode_job_request _) as [req|]; [|by apply wp_ret, handled_error].
    apply wp_answer. eapply wp_mono; [apply wp_any|]. intros [id|] w' _; [|by apply handled_error].
    by apply (handled_ids submitJob "job_id" []); [..|left].
  - apply wp_answer. eapply wp_mono; [apply wp_any|]. intros [l|] w' _; [|by apply handled_error].
    apply (handled_list _ TJob); [done|apply plain_job|apply nesting_job|apply typed_job].
  - unfold getJob_handler. destruct (pathInt _ _) as [id|]; [|by apply wp_ret, handled_error].
    apply wp_answer. eapply wp_mono; [apply wp_any|].
    intros [row|err] w' _; [|by destruct err; apply handled_error].
    split; [|done]. eexists. split; [done|]. apply typed_writeJSON; [apply plain_job|by etrans; [apply nesting_job|]|apply typed_job].
  - unfold cancelJob_handler. destruct (pathInt _ _) as [id|]; [|by apply wp_ret, handled_error].
    apply wp_answer. eapply wp_mono; [apply wp_any|]. intros [?|] w' _; [|by apply handled_error].
    by apply (handled_ids cancelJob "job_id" [("status", true, TStr)]); [..|right].
  - apply wp_ret. split; [|done]. eexists. split; [done|]. apply typed_list; intros wf; [apply plain_summary|apply nesting_summary|apply typed_summary].
  - apply wp_answer. eapply wp_mono; [apply wp_any|]. intros [id|] w' _; [|by apply handled_error].
    by apply (handled_ids triggerWorkflow "run_id" []); [..|left].
  - apply wp_answer. eapply wp_mono; [apply wp_any|]. intros [l|] w' _; [|by apply handled_error].
    apply (handled_list _ TRun); [done|apply plain_run|apply nesting_run|apply typed_run].
  - unfold getWorkflowStatus_handler. destruct (pathInt _ _) as [id|]; [|by apply wp_ret, handled_error].
    apply wp_answer. eapply wp_mono; [apply wp_any|].
    intros [row|err] w' _; [|by destruct err; apply handled_error].
    split; [|done]. eexists. split; [done|]. apply typed_writeJSON; [apply plain_run|by etrans; [apply nesting_run|]|apply typed_run].
  - unfold cancelWorkflowRun_handler. destruct (pathInt _ _) as [id|]; [|by apply wp_ret, handled_error].
    apply wp_answer. eapply wp_mono; [apply wp_any|].
    intros [row|err] w' _; [|by destruct err; apply handled_error].
    by apply (handled_ids cancelWorkflowRun "run_id" [("status", true, TStr)]); [..|right].
Qed.
End lemmas.

(** ** Lemmas: routes *)

(** Two patterns that some path matches. *)
Fixpoint compatible (p1 p2 : list segment) : bool :=
  match p1, p2 with
  | [], [] => true
  | Lit s :: p1, Lit t :: p2 => bool_decide (s = t) && compatible p1 p2
  | _ :: p1, _ :: p2 => compatible p1 p2
  | _, _ => false
  end.
Lemma match_compatible p1 p2 path :
  is_Some (match_path p1 path) → is_Some (match_path p2 path) → compatible p1 p2 = true.
Proof.
  revert p2 path. induction p1 as [|[s|n] p1 IH]; intros [|[t|m] p2] [|x path]; cbn [match_path compatible];
    repeat case_bool_decide; rewrite ?fmap_is_Some; try (by intros [? ?]); try (by intros ? [? ?]); try done;
    try (by eauto); simplify_eq.
Qed.

(** Patterns of one method that a path can match are the same one. *)
Definition exclusive : bool :=
  forallb (λ '(i, (m1, p1, _)), forallb (λ '(j, (m2, p2, _)),
    bool_decide (i = j) || negb (bool_decide (m1 = m2)) || negb (compatible p1 p2)) (imap pair NewRouter))
  (imap pair NewRouter).
Lemma routes_methods i m p e : NewRouter !! i = Some (m, p, e) → m = "GET" ∨ m = "POST".
Proof.
  intros Hi%list_elem_of_lookup_2. unfold NewRouter in Hi. rewrite !elem_of_cons, elem_of_nil in Hi. naive_solver.
Qed.

(** The router never has to choose between two patterns. *)
Lemma routes_exclusive i j m1 p1 e1 m2 p2 e2 method path :
  NewRouter !! i = Some (m1, p1, e1) → NewRouter !! j = Some (m2, p2, e2) →
  serves m1 method = true → serves m2 method = true →
  is_Some (match_path p1 path) → is_Some (match_path p2 path) → i = j.
Proof.
  intros Hi Hj Hs1 Hs2 Hp1 Hp2.
  assert (m1 = m2) as <-.
  { apply routes_methods in Hi as [->| ->], Hj as [->| ->]; try done; exfalso; revert Hs1 Hs2;
      unfold serves; rewrite !orb_true_iff, !andb_true_iff, !bool_decide_eq_true; naive_solver. }
  assert (exclusive = true) as Hex by (vm_compute; reflexivity).
  unfold exclusive in Hex. rewrite forallb_forall in Hex. specialize (Hex (i, (m1, p1, e1))).
  rewrite <-list_elem_of_In in Hex. setoid_rewrite forallb_forall in Hex.
  assert ((i, (m1, p1, e1)) ∈ imap pair NewRouter) as H1 by (apply elem_of_lookup_imap; eauto).
  assert ((j, (m1, p2, e2)) ∈ imap pair NewRouter) as H2 by (apply elem_of_lookup_imap; eauto).
  apply list_elem_of_In in H2. specialize (Hex H1 _ H2). cbn beta iota in Hex.
  rewrite (bool_decide_true (m1 = m1)), (match_compatible _ _ _ Hp1 Hp2) in Hex by done.
  rewrite !orb_false_r, bool_decide_eq_true in Hex. exact Hex.
Qed.

Lemma find_route_spec rs method path e values : find_route rs method path = Routed e values →
  ∃ m pat, (m, pat, e) ∈ rs ∧ serves m method = true ∧ match_path pat path = Some values.
Proof.
  induction rs as [|[[m pat] e'] rs IH]; [done|]. cbn [find_route].
  assert (find_route rs method path = Routed e values → ∃ m' pat', (m', pat', e) ∈ (m, pat, e') :: rs ∧
    serves m' method = true ∧ match_path pat' path = Some values) as IH'.
  { intros (m' & pat' & ? & ? & ?)%IH. exists m', pat'. split_and!; [by right|done..]. }
  destruct (match_path pat path) as [vs|] eqn:Hp; [|done]. destruct (serves m method) eqn:Hm.
  - intros [= -> ->]. exists m, pat. split_and!; [by left|done..].
  - destruct (find_route rs method path) as [e2 vs2| |] eqn:Hr; [|done..]. by intros [= -> ->]; auto.
Qed.

Lemma route_getJob s : s ≠ "/" → find_route NewRouter "GET" ["api"; "v1"; "jobs"; s] = Routed getJob [("id", s)].
Proof. intros Hs. cbn [find_route match_path NewRouter]. by repeat (case_bool_decide; simplify_eq). Qed.

(** ** Lemmas: what the tables say *)

(** The rows of a filter, as the queries of the API select them. *)
Definition status_matches (st : string) (_ : Z) (j : job_rec) : bool :=
  bool_decide (st = EmptyString) || bool_decide (job_status_text (status j) = st).
Definition listed (st : string) (d : db) : list JobRow :=
  (λ '(id, j), row_of id j) <$> select_desc (status_matches st) (jobs d).

(** Nothing is changed; faults are used up. *)
Definition unchanged {Q} (w w' : world Q) : Prop :=
  w_db w' = w_db w ∧ w_q w' = w_q w ∧ w_now w' = w_now w ∧ (w_db_faults w = [] → w_db_faults w' = []).

(** What a GET answers in state [d]; [faulty] allows a list to be cut short. *)
Definition reports (registry : Registry) (e : endpoint) (values : list (string * string)) (r : Request)
    (d : db) (faulty : Prop) (rs : Response) : Prop :=
  match e with
  | getJob => ∀ id, pathInt values "id" = Some id →
      (rs_status rs = 200 → ∃ j, jobs d !! id = Some j ∧ rs = writeJSON 200 (job_json (row_of id j))) ∧
      (rs_status rs = 404 → jobs d !! id = None) ∧
      (rs_status rs = 500 → faulty)
  | getWorkflowStatus => ∀ id, pathInt values "id" = Some id →
      (rs_status rs = 200 → ∃ run, runs d !! id = Some run ∧ rs = writeJSON 200 (run_json (run_row id run))) ∧
      (rs_status rs = 404 → runs d !! id = None) ∧
      (rs_status rs = 500 → faulty)
  | listJobs => let st := Query_Get (rq_query r) "status" in
      (rs_status rs = 200 → ∃ rows, rs = writeJSON 200 (JArr (job_json <$> rows)) ∧
         (rows = listed st d ∨ (faulty ∧ ∃ n, rows = take n (listed st d)))) ∧
      (rs_status rs = 500 → faulty ∨ text_ok st = false)
  | listWorkflowRuns =>
      (rs_status rs = 200 →
         rs = writeJSON 200 (JArr ((λ '(id, run), run_json (run_row id run)) <$> select_desc (λ _ _, true) (runs d)))) ∧
      (rs_status rs = 500 → faulty)
  | listWorkflows => rs = writeJSON 200 (JArr (summary <$> Workflow.List registry))
  | _ => False
  end.

Lemma reports_mono registry e values r d (F F' : Prop) rs : (F → F') →
  reports registry e values r d F rs → reports registry e values r d F' rs.
Proof.
  intros HF. destruct e; cbn [reports]; try done.
  - intros [H1 H2]. split; [|intuition]. intros Hs. destruct (H1 Hs) as (rows & Hr & [?|[? ?]]); exists rows; auto.
  - intros Hid id Hi. destruct (Hid id Hi) as (? & ? & ?). auto.
  - intros [? ?]. auto.
  - intros Hid id Hi. destruct (Hid id Hi) as (? & ? & ?). auto.
Qed.

Lemma list_answer {A} (f : A → json) (l : list A) :
  (if bool_decide (l = []) then writeJSON 200 (JArr []) else writeJSON 200 (JArr (f <$> l))) =
  writeJSON 200 (JArr (f <$> l)).
Proof. case_bool_decide as Hl; [by subst|done]. Qed.

Section reads.
Context {Q : Type} `{Queue Q}.
Variable registry : Registry.
Variable driver_text : goerr → string.
Variable isPrint : string → bool.
Implicit Types (w : world Q) (r : Request).

Lemma handle_reads e values r w :
  e = getJob ∨ e = listJobs ∨ e = listWorkflows ∨ e = listWorkflowRuns ∨ e = getWorkflowStatus →
  wp (handle registry driver_text isPrint e values r) w (λ rs w',
    unchanged w w' ∧ reports registry e values r (w_db w) (w_db_faults w ≠ []) rs).
Proof.
  intros [->|[->|[->|[->| ->]]]]; cbn [handle reports].
  - unfold getJob_handler. destruct (pathInt _ _) as [id|]; [|by apply wp_ret].
    apply wp_answer, wp_db_read.
    + intros fs Hfs. split; [done|]. intros ? [= <-].
      destruct (jobs (w_db w) !! id) as [j|]; [|done]. split_and!; [|done..]. intros _. by exists j.
    + intros fs Hne. split; [by split_and!|]. intros ? _. done.
  - apply wp_answer, wp_on_db, wp_call_rows.
    + intros fs Hfs. cbn [c_data c_faults c_now]. destruct (text_ok _); (split; [done|]).
      * rewrite list_answer. split; [|done]. intros _. eexists. split; [done|]. by left.
      * split; [done|]. intros _. by right.
    + intros fs Hne. split; [by split_and!|]. split; [done|]. intros _. by left.
    + intros fs l n Hne Hl. cbn [c_data c_faults c_now] in *. split; [by split_and!|].
      destruct (text_ok _); [|done]. injection Hl as <-. rewrite list_answer. split; [|done].
      intros _. eexists. split; [done|]. right. split; [done|]. by exists n.
  - by apply wp_ret.
  - apply wp_answer, wp_db_read.
    + intros fs Hfs. split; [done|]. rewrite list_answer. split; [|done]. intros _.
      rewrite <-list_fmap_compose. do 2 f_equal. apply list_fmap_ext. by intros ? [? ?].
    + intros fs Hne. split; [by split_and!|done].
  - unfold getWorkflowStatus_handler. destruct (pathInt _ _) as [id|]; [|by apply wp_ret].
    apply wp_answer, wp_db_read.
    + intros fs Hfs. split; [done|]. intros ? [= <-].
      destruct (runs (w_db w) !! id) as [run|]; [|done]. split_and!; [|done..]. intros _. by exists run.
    + intros fs Hne. split; [by split_and!|]. intros ? _. done.
Qed.

(** A submission, past the middleware. *)
Lemma submitJob_spec r w : db_ok (w_db w) →
  wp (submitJob_handler driver_text isPrint r) w (λ rs w', (db_ok (w_db w') ∧ only_db w w') ∧ w_q w' = w_q w ∧
    match decode_job_request (rq_body r) with
    | Err _ => rs = writeError 400 "invalid request body" ∧ w_db w' = w_db w
    | Ok req => let j := new_job (jr_MaxRetries req) (jr_Type req) (jr_Payload req) in
        (∃ id, rs = writeJSON 201 (JObj [("job_id", num id)]) ∧ job_inserted (w_now w) j (w_db w) id (w_db w')) ∨
        (rs_status rs = 500 ∧ (w_db_faults w = [] → 0 ≤ jr_MaxRetries req ∧ params_ok j = true → False) ∧
         (same_tables (w_db w) (w_db w') ∨ ∃ id, job_inserted (w_now w) j (w_db w) id (w_db w')))
    end ∧
    (w_db_faults w = [] → rs_status rs = 201 → ∃ req, decode_job_request (rq_body r) = Ok req ∧
       0 ≤ jr_MaxRetries req ∧ params_ok (new_job (jr_MaxRetries req) (jr_Type req) (jr_Payload req)) = true)).
Proof.
  intros Hd. unfold submitJob_handler. destruct (decode_job_request _) as [req|] eqn:Hreq; [|].
  2:{ apply wp_ret. split; [|done]. by split. }
  apply wp_answer, wp_on_db. eapply wp_mono; [by apply wp_and; [apply InsertJob_spec|apply InsertJob_ok]|].
  intros [id|e] c' [(Hins & Hnow & Hrel) Hdb]; cbn [c_data c_faults c_now] in *;
    (split; [split; [done|]; split; try done; intros Hf; by apply Hrel|]; split; [done|]).
  - split; [left; by exists id|]. intros Hf _. exists req. split; [done|]. by apply Hrel.
  - split; [|done]. right. split; [done|]. split; [|done]. intros Hf Hok.
    by apply (proj2 (proj2 (Hrel Hf))) in Hok.
Qed.
End reads.

(** With a stored key and no failure the middleware is transparent. *)
Lemma ServeHTTP_authorized Q `(HQ : Queue Q) registry driver_text isPrint r (w : world Q) :
  w_db_faults w = [] → authorized (w_db w) r →
  ServeHTTP registry driver_text isPrint r w = mux registry driver_text isPrint r w.
Proof.
  intros Hf Hauth. rewrite (surjective_pairing (ServeHTTP registry driver_text isPrint r w)).
  change (wp (ServeHTTP registry driver_text isPrint r) w (λ rs w', (rs, w') = mux registry driver_text isPrint r w)).
  apply wp_authMiddleware; [by intros msg fs [_ []]|].
  intros fs Hfs _. rewrite Hfs by done. destruct w as [d dfs q qfs now]. cbn in *. subst dfs.
  unfold wp. by destruct (mux _ _ _ _ _).
Qed.

Lemma wp_ServeHTTP_authorized Q `(HQ : Queue Q) registry driver_text isPrint r (w : world Q) P :
  w_db_faults w = [] → authorized (w_db w) r → wp (mux registry driver_text isPrint r) w P →
  wp (ServeHTTP registry driver_text isPrint r) w P.
Proof. intros. unfold wp. by rewrite ServeHTTP_authorized. Qed.

(** ** Properties *)

(** C12: a request without a stored key gets 401 and an error object, whatever the path,
    and 401 always means that nothing was changed; a request with a stored key is, when
    no call fails, served exactly as if the middleware was not there. *)
Theorem unauthorized_requests_change_nothing Q `(HQ : Queue Q) registry driver_text isPrint
    (r : Request) (w : world Q) :
  wp (ServeHTTP registry driver_text isPrint r) w (λ rs w',
    (rs_status rs = 401 → w_db w' = w_db w ∧ w_q w' = w_q w ∧ typed_body TError rs) ∧
    (¬ authorized (w_db w) r → rs_status rs = 401)) ∧
  (w_db_faults w = [] → authorized (w_db w) r →
     ServeHTTP registry driver_text isPrint r w = mux registry driver_text isPrint r w).
Proof.
  split.
  - apply wp_authMiddleware.
    + intros msg fs _. split; [|done]. intros _. split_and!; [done..|apply typed_error].
    + intros fs _ Hauth. unfold mux. destruct (find_route _ _ _) as [e values| |].
      * eapply wp_mono; [apply handle_handled|]. intros rs w' [_ Hrs]. by split.
      * by apply wp_ret.
      * by apply wp_ret.
  - by apply ServeHTTP_authorized.
Qed.

(** C24: every answer of a handler has one of the endpoint's status codes and is JSON
    that a client decodes to a value of the type that belongs to the code: the resource
    on success, an object with an error text otherwise.  Only what the router itself
    refuses is answered in plain text, and only to requests with a key. *)
Theorem api_answers_are_typed Q `(HQ : Queue Q) registry driver_text isPrint (r : Request) (w : world Q) :
  wp (ServeHTTP registry driver_text isPrint r) w (λ rs _,
    match find_route NewRouter (rq_method r) (rq_path r) with
    | Routed e _ => typed_answer e rs
    | MethodNotAllowed =>
        (rs_status rs = 401 ∧ typed_body TError rs) ∨ rs = plain_error 405 "Method Not Allowed"
    | NotFound =>
        (rs_status rs = 401 ∧ typed_body TError rs) ∨ rs = plain_error 404 "404 page not found"
    end).
Proof.
  apply wp_authMiddleware.
  - intros msg fs _. destruct (find_route _ _ _) as [e values| |].
    + apply typed_answer_error. by destruct e.
    + left. split; [done|apply typed_error].
    + left. split; [done|apply typed_error].
  - intros fs _ _. unfold mux. destruct (find_route _ _ _) as [e values| |].
    + eapply wp_mono; [apply handle_handled|]. by intros rs w' [? _].
    + apply wp_ret. by right.
    + apply wp_ret. by right.
Qed.

(** C25: POST /jobs answers 201 with the new ID exactly when it has created the job of the
    body, pending, with its outbox entry; 400 for a body that is not a submission, with
    nothing changed; 500 otherwise.  When no call fails and the key is stored, 201 comes
    for exactly the submissions that the database can hold. *)
Theorem POST_jobs_creates_the_job Q `(HQ : Queue Q) registry driver_text isPrint (r : Request) (w : world Q)
    (Hd : db_ok (w_db w)) (Hroute : find_route NewRouter (rq_method r) (rq_path r) = Routed submitJob []) :
  wp (ServeHTTP registry driver_text isPrint r) w (λ rs w', w_q w' = w_q w ∧
    (rs_status rs = 201 → ∃ req id, decode_job_request (rq_body r) = Ok req ∧
       rs = writeJSON 201 (JObj [("job_id", num id)]) ∧
       job_inserted (w_now w) (new_job (jr_MaxRetries req) (jr_Type req) (jr_Payload req)) (w_db w) id (w_db w')) ∧
    (rs_status rs = 400 ∨ rs_status rs = 401 → w_db w' = w_db w) ∧
    (w_db_faults w = [] → authorized (w_db w) r → rs_status rs =
       match decode_job_request (rq_body r) with
       | Err _ => 400
       | Ok req => if bool_decide (0 ≤ jr_MaxRetries req) &&
                      params_ok (new_job (jr_MaxRetries req) (jr_Type req) (jr_Payload req)) then 201 else 500
       end)).
Proof.
  apply wp_authMiddleware.
  - intros msg fs Hf. split_and!; [done..|]. intros Hw Ha. by destruct (Hf Hw) as [_ []].
  - intros fs Hfs _. unfold mux. rewrite Hroute.
    eapply wp_mono; [by apply submitJob_spec|]. cbn [w_db w_q w_now w_db_faults].
    intros rs w' (_ & Hq & Hrs & H201). split; [done|].
    destruct (decode_job_request (rq_body r)) as [req|e] eqn:Hreq.
    + destruct Hrs as [(id & -> & Hins)|(H500 & Hno & Htab)].
      * split_and!; [by eauto 6|by intros [?|?]|]. intros Hf _.
        destruct (H201 (Hfs Hf) eq_refl) as (? & [= <-] & Hn & Hp). by rewrite bool_decide_true, Hp by done.
      * rewrite H500. split_and!; [done|by intros [?|?]|]. intros Hf _. specialize (Hno (Hfs Hf)).
        case_bool_decide as Hn; [|done]. destruct (params_ok _); [by destruct Hno|done].
    + destruct Hrs as [-> Hdb]. split_and!; [done|by intros _|done].
Qed.

(** C26: a GET changes nothing and reports what the tables hold: a job or run with 200
    exactly as stored, 404 only when there is none, 500 only when the database failed; a
    list holds the selected rows, newest first.  A list of jobs may be cut short by a
    failure that is not reported. *)
Theorem GET_reports_the_tables Q `(HQ : Queue Q) registry driver_text isPrint (r : Request) (w : world Q)
    e values (Hroute : find_route NewRouter (rq_method r) (rq_path r) = Routed e values)
    (Hget : serves "GET" (rq_method r) = true) :
  wp (ServeHTTP registry driver_text isPrint r) w (λ rs w', unchanged w w' ∧
    (rs_status rs = 401 ∨ reports registry e values r (w_db w) (w_db_faults w ≠ []) rs)).
Proof.
  apply wp_authMiddleware.
  - intros msg fs Hf. split; [|by left]. split_and!; [done..|]. intros Hw. by apply Hf.
  - intros fs Hfs _. unfold mux. rewrite Hroute.
    eapply wp_mono; [apply handle_reads|].
    { pose proof (find_route_spec _ _ _ _ _ Hroute) as (m & pat & Hin & Hm & _).
      apply list_elem_of_lookup in Hin as [i Hi]. pose proof (routes_methods _ _ _ _ Hi) as Hms.
      assert (m = "GET") as ->.
      { destruct Hms as [->| ->]; [done|]. revert Hm Hget. unfold serves.
        rewrite !orb_true_iff, !andb_true_iff, !bool_decide_eq_true.
        by intros [<-|[? _]] [?|[_ ?]]. }
      apply list_elem_of_lookup_2 in Hi. unfold NewRouter in Hi. rewrite !elem_of_cons, elem_of_nil in Hi.
      repeat (destruct Hi as [Hi|Hi]; [try discriminate Hi; injection Hi as _ <-; tauto|]). done. }
    cbn [w_db w_db_faults]. intros rs w' [(? & ? & ? & Hfs') Hrep]. split; [split_and!; auto|]. right.
    eapply reports_mono; [|done]. intros Hne Hw. by apply Hne, Hfs.
Qed.

(** C33: the key that the key generator prints opens the API: it is printed only when it
    is stored, and from then on a request that carries it is served as if the middleware
    was not there, like the requests with the keys that were there before. *)
Theorem keygen_key_opens_the_API Q `(HQ : Queue Q) registry driver_text isPrint
    args cfg pool raw (c : conn db) out (Hrun : (keygen args cfg pool raw c).1 = Some out)
    (Hnext : api_keys (c_data c) !! next_key (c_data c) = None) :
  let d' := c_data (keygen args cfg pool raw c).2 in
  ∃ bytes, raw = Ok bytes ∧ out = key_banner +:+ new_key bytes +:+ newline ∧
  ∀ (r : Request) (w : world Q), w_db w = d' → w_db_faults w = [] →
    rq_auth r = "Bearer " +:+ new_key bytes ∨ authorized (c_data c) r →
    ServeHTTP registry driver_text isPrint r w = mux registry driver_text isPrint r w.
Proof.
  intros d'. pose proof (keygen_stores args cfg pool raw c) as Hk. unfold wp in Hk.
  destruct (Hk out Hrun) as (bytes & Hraw & Hout & Hhas & Hkeys & _). exists bytes. split_and!; [done..|].
  intros r w Hw Hf Hr. apply ServeHTTP_authorized; [done|]. rewrite Hw. destruct Hr as [Hr|(key & ? & ? & i & k & Hi & ?)].
  - exists (new_key bytes). by split_and!.
  - exists key. split_and!; [done..|]. exists i, k. split; [|done].
    eapply lookup_weaken; [done|]. by apply Hkeys.
Qed.

(** ** Witnesses *)
#[local] Instance api_Queue : Queue Store := RedisQueue_ops jobs_queue.

Definition api_db : db := Db (jobs example_db) (outbox example_db) (runs example_db)
  {[1 := KeyRec "ci" (key_hash_of "orq_00")]} 3 3 2 2.
Definition api_world : world Store := World api_db [] empty_store [] 10.
Definition post_job (body : string) : Request :=
  {| rq_method := "POST"; rq_path := ["api"; "v1"; "jobs"]; rq_query := [];
     rq_auth := "Bearer orq_00"; rq_body := body |}.
Definition submission : string := Marshal (JObj [("type", JStr "shell"); ("payload", JStr "{}"); ("max_retries", num 2)]).
Definition no_text (_ : goerr) : string := "error".

Lemma api_db_ok : db_ok api_db.
Proof. destruct example_db_ok as [H1 H2 H3 H4 H5 H6]. split; [|exact H2|exact H3|exact H4| |exact H6].
  - eapply map_Forall_impl; [exact H1|]. by intros id j [? ? ? ? ? ?].
  - intros i i' k k' Hi Hi' _. unfold api_db in Hi, Hi'. cbn [api_keys] in Hi, Hi'.
    apply lookup_singleton_Some in Hi as [<- _], Hi' as [<- _]. done.
Qed.

Lemma POST_jobs_creates_the_job_witness :
  (ServeHTTP backup_registry no_text (λ _, true) (post_job submission) api_world).1 =
    writeJSON 201 (JObj [("job_id", num 3)]) ∧
  wp (ServeHTTP backup_registry no_text (λ _, true) (post_job submission)) api_world (λ rs w', w_q w' = empty_store).
Proof.
  split; [vm_compute; reflexivity|].
  eapply wp_mono; [apply (POST_jobs_creates_the_job Store _ backup_registry no_text (λ _, true)
    (post_job submission) api_world api_db_ok eq_refl)|]. by intros rs w' [? _].
Defined.

Definition get_job : Request :=
  {| rq_method := "GET"; rq_path := ["api"; "v1"; "jobs"; "1"]; rq_query := [];
     rq_auth := "Bearer orq_00"; rq_body := EmptyString |}.
Lemma GET_reports_the_tables_witness :
  wp (ServeHTTP backup_registry no_text (λ _, true) get_job) api_world (λ rs w', unchanged api_world w' ∧
    rs = writeJSON 200 (job_json (row_of 1 (JobRec Running 1 3 "shell" "{}" None None None)))).
Proof.
  eapply wp_mono; [apply (wp_and _ _ _ (λ rs _, rs = (ServeHTTP backup_registry no_text (λ _, true) get_job api_world).1)
    (GET_reports_the_tables Store _ backup_registry no_text (λ _, true) get_job api_world getJob [("id", "1")] eq_refl eq_refl));
    reflexivity|].
  intros rs w' [[Hu _] ->]. split; [done|]. vm_compute. reflexivity.
Defined.

Lemma keygen_key_opens_the_API_witness :
  ∃ bytes, Ok "0123456789abcdef0123456789abcdef" = Ok bytes ∧
    ∀ r (w : world Store), w_db w = c_data (keygen ["ci2"] (LoadConfig EnvLoaded (λ _, "4")) (Ok tt)
        (Ok "0123456789abcdef0123456789abcdef") (Conn api_db [] 10)).2 → w_db_faults w = [] →
      rq_auth r = "Bearer orq_3031323334353637383961626364656630313233343536373839616263646566" →
      ServeHTTP backup_registry no_text (λ _, true) r w = mux backup_registry no_text (λ _, true) r w.
Proof.
  assert (is_Some (keygen ["ci2"] (LoadConfig EnvLoaded (λ _, "4")) (Ok tt)
    (Ok "0123456789abcdef0123456789abcdef") (Conn api_db [] 10)).1) as [out Hout]
    by (vm_compute; eexists; reflexivity).
  destruct (keygen_key_opens_the_API Store _ backup_registry no_text (λ _, true) _ _ _ _ _ out Hout eq_refl)
    as (bytes & Hb & _ & Hserve).
  exists bytes. split; [done|]. intros r w Hw Hf Hr. apply Hserve; [exact Hw|exact Hf|]. left. rewrite Hr. injection Hb as <-.
  reflexivity.
Defined.
