(* ===== verification/Worker.v ===== *)
(** * The worker

    Models cmd/worker/main.go: [executeJob], the loop of [runWorker] with its heartbeat
    goroutine as steps of one state, and a worker's stream connected to the loop of the
    server's [Work] (file Server).

    The shell is a parameter: what a command does with its environment is an outcome.
    So are the texts of the errors of encoding/json, and which messages the protocol
    buffers library puts on the wire. *)
From Stdlib Require Import Ascii.
From stdpp Require Import gmap strings list fin_maps pretty.
From S2P Require Import Prelude Text Json Redis Queue RedisQueue Db Outbox Service Auth Strings.
From S2P Require Import Workflow.
From S2P Require Import Server.
Open Scope Z_scope.

(** ** executeJob *)

(** What running a command gives: its two streams, and the text of [cmd.Run]'s error. *)
Record shell_outcome : Type := { sh_stdout : string; sh_stderr : string; sh_err : option string }.

Record job_payload : Type := { p_Command : string; p_PreviousOutput : string }.
Definition payload_fields : list (field job_payload) :=
  [string_field "command" (λ s p, {| p_Command := s; p_PreviousOutput := p_PreviousOutput p |});
   string_field "previous_output" (λ s p, {| p_Command := p_Command p; p_PreviousOutput := s |})].
Definition payload_zero : job_payload := {| p_Command := EmptyString; p_PreviousOutput := EmptyString |}.

Definition maxPreviousOutputBytes : N := 64 * 1024.
Definition truncate_output (s : string) : string :=
  if (maxPreviousOutputBytes <? N.of_nat (String.length s))%N
  then take_bytes (N.to_nat maxPreviousOutputBytes) s else s.

(** What [executeJob] makes of it: success, error text, output. *)
Definition shell_result (o : shell_outcome) : bool * string * string :=
  let stdoutStr := TrimSpace (sh_stdout o) in
  let stderrStr := TrimSpace (sh_stderr o) in
  match sh_err o with
  | Some runErr => (false, "command failed: " +:+ runErr +:+ newline +:+ stderrStr, EmptyString)
  | None => (true, EmptyString, stdoutStr)
  end.

(** [run command previousOutput] runs sh -c command with the environment of the worker and
    PREVIOUS_OUTPUT; [json_text payload] is the error of [json.Unmarshal]. *)
Definition executeJob (json_text : string → string) (run : string → string → shell_outcome)
    (payload : string) : bool * string * string :=
  match Unmarshal payload_fields payload_zero payload with
  | Err _ => (false, "invalid payload: " +:+ json_text payload, EmptyString)
  | Ok p =>
      if bool_decide (p_Command p = EmptyString)
      then (false, "missing required field: command", EmptyString)
      else shell_result (run (p_Command p) (truncate_output (p_PreviousOutput p)))
  end.

(** ** runWorker

    The loop sends Ready, waits for a task, and executes it while the heartbeat
    goroutine sends a message on every tick, until a send fails.  [Returned] is the end
    of the goroutine, whatever ended it. *)
Inductive worker_state : Type :=
  | Looping
  | Receiving
  | Executing (task : TaskAssignment) (beating : bool)
  | Returned.

Inductive worker_event : Type :=
  | WLoop                                              (* the next iteration *)
  | WRecv (msg : result (option TaskAssignment))       (* [stream.Recv] returns *)
  | WTick                                              (* the ticker of the heartbeats *)
  | WExit (o : shell_outcome).                         (* the job in hand is over *)

Section worker.
Variable json_text : string → string.

Definition task_result (task : TaskAssignment) (o : shell_outcome) : TaskResult :=
  let '(success, errMsg, output) := executeJob json_text (λ _ _, o) (task_Payload task) in
  {| res_JobId := task_JobId task; res_Success := success; res_Error := errMsg; res_Output := output |}.

(** One step, and the message it tries to send; [sends m] is whether [stream.Send m]
    returns nil.  An event that does not fit the state leaves it. *)
Definition worker_step (sends : WorkerPayload → bool) (ev : worker_event) (st : worker_state) :
    worker_state * option WorkerPayload :=
  match st, ev with
  | Looping, WLoop => (if sends MsgReady then Receiving else Returned, Some MsgReady)
  | Receiving, WRecv (Err _) => (Returned, None)
  | Receiving, WRecv (Ok None) => (Looping, None)
  | Receiving, WRecv (Ok (Some task)) => (Executing task true, None)
  | Executing task true, WTick =>
      let m := MsgHeartbeat (task_JobId task) in (Executing task (sends m), Some m)
  | Executing task _, WExit o =>
      let m := MsgResult (task_result task o) in (if sends m then Looping else Returned, Some m)
  | _, _ => (st, None)
  end.

(** The goroutines that [main] starts. *)
Definition worker_ids (cfg : Config) : list Z := seqZ 1 (WorkerCount cfg).

(** ** A worker and the server

    One stream: the loop of [Work] on the server's side, that of [runWorker] on the
    worker's.  [encodes] says which messages protocol buffers can marshal; a message it
    refuses ends the stream, like a break of the connection.  The end of a stream
    reaches the server at once, the worker when it next uses it. *)
Context {Q : Type} `{Queue Q}.
Variable overflowed : Z → Z.
Variable registry : Registry.
Variable encodes : WorkerPayload → bool.
Variable workerID : string.

Record session : Type := Session {
  se_server : server Q;
  se_open : bool;
  se_inFlight : option Job;
  se_worker : worker_state;
}.

Inductive session_event : Type :=
  | SEReady (ctx : Ctx) (fuel : nat)
  | SETick
  | SEExit (o : shell_outcome)
  | SEBreak (err : goerr).

Definition session_sends (se : session) (m : WorkerPayload) : bool := se_open se && encodes m.

(** The stream is over for the server. *)
Definition session_break (err : goerr) (st : worker_state) (se : session) : session :=
  if se_open se then Session (work_disconnect (se_inFlight se) err (se_server se)).2 false None st
  else Session (se_server se) false (se_inFlight se) st.

(** The server's loop gets a message; its answer reaches the worker. *)
Definition session_deliver (ctx : Ctx) (fuel : nat) (m : WorkerPayload) (st : worker_state) (se : session) : session :=
  let '(o, s') := work_message overflowed registry ctx fuel None workerID m (se_inFlight se) (se_server se) in
  match o with
  | Continue inFlight None => Session s' true inFlight st
  | Continue inFlight (Some task) => Session s' true inFlight (worker_step (session_sends se) (WRecv (Ok (Some task))) st).1
  | Return err => Session s' false None (worker_step (session_sends se) (WRecv (Err err)) st).1
  | Waiting => Session s' true (se_inFlight se) (se_worker se)   (* [Consume] goes on waiting *)
  end.

Definition session_send (ctx : Ctx) (fuel : nat) (ev : worker_event) (se : session) : session :=
  match worker_step (session_sends se) ev (se_worker se) with
  | (st, None) => Session (se_server se) (se_open se) (se_inFlight se) st
  | (st, Some m) => if session_sends se m then session_deliver ctx fuel m st se else session_break ErrIO st se
  end.

Definition session_step (ev : session_event) (se : session) : session :=
  match ev with
  | SEReady ctx fuel => session_send ctx fuel WLoop se
  | SETick => session_send Background 0 WTick se
  | SEExit o => session_send Background 0 (WExit o) se
  | SEBreak err => session_break err (se_worker se) se
  end.

Definition session_start (s : server Q) : session := Session s true None Looping.
Definition session_run (evs : list session_event) (se : session) : session := foldl (λ se ev, session_step ev se) se evs.
End worker.

(** ** Lemmas: executeJob *)
Lemma truncate_output_spec s :
  (N.of_nat (String.length (truncate_output s)) ≤ maxPreviousOutputBytes)%N ∧
  (∃ rest, s = truncate_output s +:+ rest) ∧
  ((N.of_nat (String.length s) ≤ maxPreviousOutputBytes)%N → truncate_output s = s).
Proof.
  unfold truncate_output. generalize maxPreviousOutputBytes as limit. intros limit.
  destruct (N.ltb_spec limit (N.of_nat (String.length s))) as [Hlt|Hge].
  - pose proof (take_bytes_spec (N.to_nat limit) s) as [Hl Hr]. split_and!; [lia|done|lia].
  - split_and!; [lia| |done]. exists EmptyString. by rewrite app_nil_r_str.
Qed.

(** The cut is between bytes, so valid text can lose half of a character. *)
Lemma truncation_splits_characters : ∃ s, ValidString s = true ∧ ValidString (truncate_output s) = false.
Proof.
  exists (spaces (N.to_nat (maxPreviousOutputBytes - 1)) +:+ str2 (ascii_of_N 195) (ascii_of_N 169)).
  split; vm_compute; reflexivity.
Qed.

Lemma Unmarshal_step_payload command prev :
  Unmarshal payload_fields payload_zero (step_payload command prev) =
  Ok {| p_Command := sanitize command; p_PreviousOutput := sanitize prev |}.
Proof.
  unfold Unmarshal, step_payload. case_bool_decide as Hp; [subst prev|];
    (rewrite Parse_Marshal by (by repeat constructor));
    cbn [sanitize_json fmap list_fmap mbind option_bind decode_struct app set_fields];
    rewrite (sanitize_valid "command") by reflexivity;
    rewrite ?(sanitize_valid "previous_output") by reflexivity; reflexivity.
Qed.

(** A payload that the program made reaches the shell. *)
Lemma executeJob_step_payload json_text run command prev :
  executeJob json_text run (step_payload command prev) =
  if bool_decide (sanitize command = EmptyString) then (false, "missing required field: command", EmptyString)
  else shell_result (run (sanitize command) (truncate_output (sanitize prev))).
Proof. unfold executeJob. by rewrite Unmarshal_step_payload. Qed.

(** ** Lemmas: sessions *)
Section session.
Context {Q : Type} `{Queue Q}.
Variable json_text : string → string.
Variable overflowed : Z → Z.
Variable registry : Registry.
Variable encodes : WorkerPayload → bool.
Variable workerID : string.
Implicit Types (s : server Q) (se : session (Q := Q)).

(** The task a Ready is answered with is the job the stream holds from then on. *)
Lemma work_ready_shape ctx fuel send_err s :
  wp (work_ready ctx fuel workerID send_err) s (λ o _,
    ∀ inFlight sent, o = Continue inFlight sent → ∃ job, inFlight = Some job ∧ sent = Some (task_of job)).
Proof.
  unfold work_ready. apply wp_bind. eapply wp_mono; [apply wp_any|]. intros [[job|err]|] s1 _; try by apply wp_ret.
  apply wp_bind. eapply wp_mono; [apply wp_any|]. intros [] s2 _.
  apply wp_bind. eapply wp_mono; [apply wp_any|]. intros [] s3 _.
  apply wp_bind. eapply wp_mono; [apply wp_any|]. intros [[]|err] s4 _.
  - destruct send_err as [err|].
    + apply wp_bind. eapply wp_mono; [apply wp_any|]. intros [] s5 _. by apply wp_ret.
    + apply wp_ret. intros inFlight sent [= <- <-]. eauto.
  - apply wp_bind. eapply wp_mono; [apply wp_any|]. intros [] s5 _. by apply wp_ret.
Qed.

(** While the stream is open the worker executes the job that the server holds for it,
    and the server holds none otherwise; a worker whose stream is closed is stuck with
    what it executes, and returns with its next message. *)
Definition in_step se : Prop :=
  se_open se = true →
  match se_worker se with
  | Executing task _ => ∃ job, se_inFlight se = Some job ∧ task = task_of job
  | Looping => se_inFlight se = None
  | Receiving | Returned => False
  end.

Lemma session_break_closed err st se : se_open (session_break err st se) = false.
Proof. unfold session_break. by destruct (se_open se) eqn:Ho. Qed.

Lemma in_step_preserved ev se : in_step se →
  in_step (session_step json_text overflowed registry encodes workerID ev se).
Proof.
  intros Hse. unfold session_step, session_send.
  destruct ev as [ctx fuel| |o|err].
  - destruct (se_worker se) as [| |task []|] eqn:Hw; cbn [worker_step]; try (intros Ho; apply Hse in Ho; rewrite Hw in Ho; exact Ho).
    destruct (session_sends encodes se MsgReady) eqn:Hsend; [|intros Ho; by rewrite session_break_closed in Ho].
    unfold session_deliver. cbn [work_message].
    pose proof (work_ready_shape ctx fuel None (se_server se)) as Hshape. unfold wp in Hshape.
    destruct (work_ready ctx fuel workerID None (se_server se)) as [[inFlight sent|err|] s'];
      cbn [fst snd] in Hshape; intros Ho; cbn [se_open se_worker se_inFlight] in *; try done.
    + destruct (Hshape _ _ eq_refl) as (job & -> & ->). cbn. by eauto.
    + apply andb_prop in Hsend as [Hopen _]. apply Hse in Hopen. by rewrite Hw in Hopen |- *.
  - destruct (se_worker se) as [| |task []|] eqn:Hw; cbn [worker_step]; try (intros Ho; apply Hse in Ho; rewrite Hw in Ho; exact Ho).
    destruct (session_sends _ _ _) eqn:Hsend; [|intros Ho; by rewrite session_break_closed in Ho].
    apply andb_prop in Hsend as [Hopen _]. apply Hse in Hopen. rewrite Hw in Hopen.
    unfold session_deliver. cbn [work_message].
    destruct ((_ ← recordHeartbeat _ _; _) _) as [o s'] eqn:Hm.
    assert (o = Continue (se_inFlight se) None) as ->.
    { unfold mbind, M_bind in Hm. destruct (recordHeartbeat _ _ _). by injection Hm as <- <-. }
    by intros _.
  - destruct (se_worker se) as [| |task []|] eqn:Hw; cbn [worker_step]; try (intros Ho; apply Hse in Ho; rewrite Hw in Ho; exact Ho).
    all: destruct (session_sends _ _ _) eqn:Hsend; [|intros Ho; by rewrite session_break_closed in Ho].
    all: unfold session_deliver; cbn [work_message].
    all: destruct ((_ ← handleResult _ _ _ _; _) _) as [o' s'] eqn:Hm.
    all: assert (o' = Continue None None) as ->
      by (unfold mbind, M_bind in Hm; destruct (handleResult _ _ _ _ _); by injection Hm as <- <-).
    all: by intros _.
  - intros Ho. by rewrite session_break_closed in Ho.
Qed.
End session.

(** ** Properties *)

(** C28: [executeJob] on every payload and every shell: it reports success exactly when
    the payload decodes to a command and the command ends well; the output is then the
    standard output without white space at its ends, and only then; a failure has an
    error text and no output.  The shell gets the decoded command and at most 64 KB of
    the previous output, all of it when it fits. *)
Theorem executeJob_correct json_text run payload :
  let '(success, errMsg, output) := executeJob json_text run payload in
  (success = true → errMsg = EmptyString ∧ ∃ p a l b,
     Unmarshal payload_fields payload_zero payload = Ok p ∧ p_Command p ≠ EmptyString ∧
     let o := run (p_Command p) (truncate_output (p_PreviousOutput p)) in
     sh_err o = None ∧ runes (sh_stdout o) = a ++ l ++ b ∧ output = flatten l ∧ trimmed is_space l ∧
     Forall (λ r, is_space r = true) (a ++ b)) ∧
  (success = false → output = EmptyString ∧ errMsg ≠ EmptyString ∧ ∀ p,
     Unmarshal payload_fields payload_zero payload = Ok p → p_Command p ≠ EmptyString →
     is_Some (sh_err (run (p_Command p) (truncate_output (p_PreviousOutput p))))) ∧
  ∀ p, Unmarshal payload_fields payload_zero payload = Ok p →
    (N.of_nat (String.length (truncate_output (p_PreviousOutput p))) ≤ maxPreviousOutputBytes)%N ∧
    (∃ rest, p_PreviousOutput p = truncate_output (p_PreviousOutput p) +:+ rest) ∧
    ((N.of_nat (String.length (p_PreviousOutput p)) ≤ maxPreviousOutputBytes)%N →
       truncate_output (p_PreviousOutput p) = p_PreviousOutput p).
Proof.
  unfold executeJob. destruct (Unmarshal _ _ _) as [p|e]; [|by split_and!].
  assert (∀ p', Ok p = Ok p' → p' = p) as Hp by congruence.
  case_bool_decide as Hc.
  { split_and!; [done| |intros p' ->%Hp; apply truncate_output_spec].
    intros _. split_and!; [done..|]. by intros p' ->%Hp. }
  unfold shell_result. destruct (sh_err (run _ _)) as [err|] eqn:He.
  - split_and!; [done| |intros p' ->%Hp; apply truncate_output_spec]. intros _. split_and!; [done..|].
    intros p' ->%Hp _. rewrite He. by eexists.
  - split_and!; [|done|intros p' ->%Hp; apply truncate_output_spec]. intros _. split; [done|].
    destruct (trim_runes_spec is_space (sh_stdout (run (p_Command p) (truncate_output (p_PreviousOutput p)))))
      as (a & l & b & Hr & Ht & Ha & Hb & Hl).
    exists p, a, l, b. split_and!; [done..|by apply Forall_app].
Qed.

(** C13: in every run of a worker's stream, whatever fails on either side, while the
    stream is open the worker executes exactly the job that the server holds for it, and
    the server holds none while the worker is between jobs. *)
Theorem worker_executes_the_job_it_holds Q `(HQ : Queue Q) json_text overflowed registry encodes workerID
    (s : server Q) evs :
  let se := session_run json_text overflowed registry encodes workerID evs (session_start s) in
  se_open se = true →
  match se_worker se with
  | Executing task _ => ∃ job, se_inFlight se = Some job ∧ task = task_of job
  | Looping => se_inFlight se = None
  | Receiving | Returned => False
  end.
Proof.
  intros se. enough (in_step se) by done. subst se. unfold session_run.
  assert (in_step (session_start s)) as Hs by done. revert Hs. generalize (session_start s).
  induction evs as [|ev evs IH]; intros se Hse; [done|]. cbn [foldl]. by apply IH, in_step_preserved.
Qed.

(** C39: protocol buffers refuse text that is not UTF-8, and [runWorker] returns when a
    send fails: a job whose output or error text is not UTF-8 is never reported.  The
    worker is gone, and the job is pending again with the same number of retries used,
    due at once with the same payload, to end the next worker that takes it. *)
Theorem unsendable_result_repeats_the_job Q `(HQ : QueueLaws Q) json_text overflowed registry encodes workerID
    (se : session (Q := Q)) job b o row
    (Hutf8 : ∀ r, encodes (MsgResult r) = true → ValidString (res_Error r) && ValidString (res_Output r) = true)
    (Hbad : let r := task_result json_text (task_of job) o in ValidString (res_Error r) && ValidString (res_Output r) = false)
    (Hopen : se_open se = true) (Hheld : se_inFlight se = Some job) (Hw : se_worker se = Executing (task_of job) b)
    (Hq : qinv (w_q (sv_world (se_server se)))) (Hrel : reliable (sv_world (se_server se)))
    (Hcount : 0 ≤ j_RetryCount job < 2 ^ 31)
    (Hrow : jobs (w_db (sv_world (se_server se))) !! j_ID job = Some row) :
  let se' := session_step json_text overflowed registry encodes workerID (SEExit o) se in
  let v' := qabs (w_q (sv_world (se_server se'))) in
  se_worker se' = Returned ∧ se_open se' = false ∧
  jobs (w_db (sv_world (se_server se'))) !! j_ID job = Some (set_retry (j_RetryCount job) (set_status Pending row)) ∧
  payloads v' !! Itoa (j_ID job) = Some (MarshalJob job) ∧
  ∀ now, UnixMilli (w_now (sv_world (se_server se))) ≤ UnixMilli now → Itoa (j_ID job) ∈ ready (q_promote now v').
Proof.
  assert (session_sends encodes se (MsgResult (task_result json_text (task_of job) o)) = false) as Hno.
  { unfold session_sends. destruct (encodes _) eqn:He; [|by rewrite andb_false_r]. apply Hutf8 in He.
    cbv zeta in Hbad. congruence. }
  unfold session_step, session_send. rewrite Hw. destruct b; cbn [worker_step]; rewrite Hno;
    unfold session_break; rewrite Hopen, Hheld; cbn [work_disconnect se_server se_open se_worker];
    pose proof (requeue_spec job (se_server se) Hq) as [_ _ _ _ _ _ Hr];
    destruct (Hr Hrel) as (_ & Hv & Hdb);
    unfold mbind, M_bind; destruct (requeue job (se_server se)) as [[] s']; cbn [fst snd mret M_ret se_server] in *;
    (split_and!; [done..| | |]).
  1, 4: by rewrite Hdb, lookup_moved, Hrow by done.
  1, 3: rewrite Hv; cbn [q_retry payloads]; by rewrite lookup_insert_eq.
  all: intros now Hnow; cbn [q_promote q_promote_all ready]; apply elem_of_app; left; apply elem_of_reverse, elem_of_members_upto;
    rewrite Hv; cbn [q_retry delayed]; rewrite lookup_insert_eq; eauto.
Qed.

(** C27: output chaining: the command that a newly submitted step runs is the step's own,
    and its PREVIOUS_OUTPUT is, when nothing fails, the stored output of the completed job of
    its dependency, up to 64 KB, if it has exactly one, and empty otherwise. *)
Theorem steps_receive_their_dependency_output Q `(HQ : Queue Q) json_text registry runID (w : world Q)
    (Hd : db_ok (w_db w)) :
  wp (Advance registry runID) w (λ _ w', ∀ id j, jobs (w_db w) !! id = None → jobs (w_db w') !! id = Some j →
    ∃ r wf idx step prev, active_run (w_db w) runID = Some r ∧ Get registry (workflow_name r) = Some wf ∧
      Steps (Normalize wf) !! idx = Some step ∧ step_index j = Some (Z.of_nat idx) ∧
      (∀ run, sanitize (Command step) ≠ EmptyString → executeJob json_text run (payload j) =
         shell_result (run (sanitize (Command step)) (truncate_output (sanitize prev)))) ∧
      (w_db_faults w = [] →
         (∀ i id' j', single_dep (Normalize wf) idx = Some i → jobs (w_db w) !! id' = Some j' →
            completed_step runID (Z.of_nat i) id' j' = true → prev = default EmptyString (output j')) ∧
         (single_dep (Normalize wf) idx = None → prev = EmptyString))).
Proof.
  eapply wp_mono; [by apply Advance_spec|]. intros [] w' (Hadv & _ & _) id j Hno Hj.
  destruct (av_new _ _ _ _ Hadv id j Hj) as [|(r & wf & idx & step & prev & Hact & Hget & _ & Hstep & Hin & _ & ->)]; [congruence|].
  exists r, wf, idx, step, prev. split_and!; [done..| |].
  - intros run Hc. cbn [payload new_step]. rewrite executeJob_step_payload. by rewrite bool_decide_false.
  - intros Hf. destruct Hin as [(i & id1 & j1 & Hdep & Hj1 & Hc1 & ->)|[-> [Hne|Hnone]]]; [|done|].
    + split; [|congruence]. intros i' id' j' Hdep' Hj' Hc'. assert (i' = i) as -> by congruence.
      enough (id' = id1) as -> by congruence.
      unfold completed_step in Hc1, Hc'. rewrite !andb_true_iff, !bool_decide_eq_true in Hc1, Hc'.
      destruct Hc1 as [[? ?] _], Hc' as [[? ?] _]. by eapply (ok_steps _ Hd id' id1 j' j1 runID (Z.of_nat i)).
    + split; [|done]. intros i id' j' Hdep Hj' Hc'. exfalso. eapply Hnone. exists i, id', j'. by split_and!.
Qed.

(** ** Witnesses *)
#[local] Instance wrk_Queue : Queue Store := RedisQueue_ops jobs_queue.
#[local] Instance wrk_QueueLaws : QueueLaws Store := RedisQueue_laws "jobs" 1000000000.

(** What protocol buffers marshal, for results. *)
Definition utf8_only (m : WorkerPayload) : bool :=
  match m with MsgResult r => ValidString (res_Error r) && ValidString (res_Output r) | _ => true end.
(** A command that prints one byte that is no UTF-8. *)
Definition binary_outcome : shell_outcome :=
  {| sh_stdout := String (ascii_of_N 255) EmptyString; sh_stderr := EmptyString; sh_err := None |}.
Definition busy_job : Job := Build_Job 1 1 3 "shell" (step_payload "cat image.png" EmptyString).
Definition busy_session : session (Q := Store) :=
  Session busy_server true (Some busy_job) (Executing (task_of busy_job) true).
Definition no_json_text (_ : string) : string := "invalid character".

(** A server with a job to hand out. *)
Definition ready_session : session (Q := Store) :=
  session_run no_json_text no_overflow backup_registry utf8_only "w" [SEReady Background 2; SETick]
    (session_start (Server (World example_db [] stale_store [] 0) ∅ ∅)).

Lemma worker_executes_the_job_it_holds_witness :
  se_worker ready_session = Executing (task_of example_job) true ∧
  ∃ job, se_inFlight ready_session = Some job ∧ task_of example_job = task_of job.
Proof.
  assert (se_worker ready_session = Executing (task_of example_job) true) as Hw by (vm_compute; reflexivity).
  split; [exact Hw|].
  pose proof (worker_executes_the_job_it_holds Store _ no_json_text no_overflow backup_registry utf8_only "w"
    (Server (World example_db [] stale_store [] 0) ∅ ∅) [SEReady Background 2; SETick]) as Hheld.
  cbv zeta in Hheld. fold ready_session in Hheld. rewrite Hw in Hheld. apply Hheld. vm_compute. reflexivity.
Defined.

Lemma unsendable_result_repeats_the_job_witness :
  let se' := session_step no_json_text no_overflow backup_registry utf8_only "w" (SEExit binary_outcome) busy_session in
  se_worker se' = Returned ∧
  jobs (w_db (sv_world (se_server se'))) !! 1 = Some (JobRec Pending 1 3 "shell" "{}" None None None).
Proof.
  destruct (unsendable_result_repeats_the_job Store _ no_json_text no_overflow backup_registry utf8_only "w"
    busy_session busy_job true binary_outcome (JobRec Running 1 3 "shell" "{}" None None None)) as (Hw & _ & Hrow & _).
  - intros r Hr. exact Hr.
  - vm_compute. reflexivity.
  - reflexivity.
  - reflexivity.
  - reflexivity.
  - exact busy_inv.
  - split; reflexivity.
  - cbn. lia.
  - vm_compute. reflexivity.
  - split; [exact Hw|exact Hrow].
Defined.

Lemma steps_receive_their_dependency_output_witness :
  wp (Advance backup_registry 1) backup_world (λ _ w', ∃ j, jobs (w_db w') !! 3 = Some j ∧
    step_index j = Some 2 ∧ ∀ run, executeJob no_json_text run (payload j) = shell_result (run "compress" EmptyString)).
Proof.
  eapply wp_mono; [apply (wp_and _ _ _ (λ _ w', w' = (Advance backup_registry 1 backup_world).2)
    (steps_receive_their_dependency_output Store _ no_json_text backup_registry 1 backup_world backup_db_ok) eq_refl)|].
  intros [] w' [Hnew Hw].
  assert (jobs (w_db w') !! 3 = Some (new_step 1 2 0 (step_payload "compress" EmptyString))) as Hj
    by (rewrite Hw; vm_compute; reflexivity).
  destruct (Hnew 3 _ eq_refl Hj) as (r & wf & idx & step & prev & Hact & Hget & Hstep & Hidx & Hrun & Hprev).
  injection Hact as <-. vm_compute in Hget. injection Hget as <-. injection Hidx as Hidx.
  assert (idx = 2%nat) as -> by lia. vm_compute in Hstep. injection Hstep as <-.
  eexists. split; [exact Hj|]. split; [reflexivity|]. intros run. destruct (Hprev eq_refl) as [_ Hprev'].
  rewrite (Hrun run) by (vm_compute; discriminate). rewrite Hprev' by (vm_compute; reflexivity).
  assert (truncate_output (sanitize EmptyString) = EmptyString) as -> by (vm_compute; reflexivity).
  rewrite sanitize_valid by (vm_compute; reflexivity). reflexivity.
Defined.
