(* ===== verification/Turn.v ===== *)
(** * One turn of a worker

    Lemmas for the theorems on whole ways (files Run and Main): a worker of file
    [Worker] that says it is ready to a server over the queue of file [RedisQueue], is
    handed the oldest job, and reports its success. *)
From stdpp Require Import gmap strings list fin_maps.
From S2P Require Import Prelude Text Json Redis Queue RedisQueue Db Outbox Service.
From S2P Require Import Workflow.
From S2P Require Import Server Strings Worker.
Open Scope Z_scope.

Lemma to_int32_small z : in_int32 z = true → to_int32 z = z.
Proof.
  intros Hz%in_int32_spec. unfold to_int32, wrap. change (32 - 1) with 31. rewrite Z.mod_small by lia. lia.
Qed.

(** A job that the queue holds and the protocol carries as it is. *)
Record carried (job : Job) : Prop := {
  cr_typed : job_typed job = true;
  cr_id : in_int32 (j_ID job) = true;
  cr_type : ValidString (j_Type job) = true;
  cr_payload : ValidString (j_Payload job) = true;
  cr_retries : 0 ≤ j_RetryCount job < 2 ^ 31;
}.

(** The queue when its oldest entry is handed out. *)
Definition handed_out (l : list string) (x : string) (v : qview) : qview :=
  QView l (x :: processing v) (delayed v) (payloads v) (queued v).

Section turn.
Context {R : Type} `{HR : RedisLaws R}.
Variables (name : string) (timeout : Z).
#[local] Instance turn_Queue : Queue R := RedisQueue_ops (NewRedisQueue name timeout).
#[local] Instance turn_QueueLaws : QueueLaws R := RedisQueue_laws name timeout.
Variable overflowed : Z → Z.
Variable registry : Registry.

(** A worker that is ready gets the oldest job. *)
Lemma ready_gets_the_job job l fuel workerID (s : server R) : (0 < fuel)%nat → carried job →
  qinv (w_q (sv_world s)) → reliable (sv_world s) →
  ready (qabs (w_q (sv_world s))) = l ++ [Itoa (j_ID job)] →
  payloads (qabs (w_q (sv_world s))) !! Itoa (j_ID job) = Some (MarshalJob job) →
  wp (work_ready Background fuel workerID None) s (λ o s',
    o = Continue (Some job) (Some (task_of job)) ∧ qinv (w_q (sv_world s')) ∧ reliable (sv_world s') ∧
    sv_owner s' = <[j_ID job := workerID]> (sv_owner s) ∧
    qabs (w_q (sv_world s')) = handed_out l (Itoa (j_ID job)) (qabs (w_q (sv_world s))) ∧
    w_db (sv_world s') = moved (j_ID job) Running (j_RetryCount job) (w_db (sv_world s))).
Proof.
  intros Hfuel [Ht _ Hvt Hvp Hn] Hq [Hf Hqf] Hl Hp.
  unfold work_ready. apply wp_bind, wp_on_world, wp_on_q. set (c := Conn _ _ _).
  pose proof (consume_live R HR name timeout c l (Itoa (j_ID job)) [] (MarshalJob job) job fuel) as Hlive.
  change (rq_view (NewRedisQueue name timeout) (keys (c_data c))) with (qabs (w_q (sv_world s))) in Hlive.
  pose proof (Consume_law Background fuel c Hq) as Hlaw.
  eapply wp_mono; [apply wp_and; [apply Hlaw|apply Hlive]|]; try done.
  - by intros x ?%elem_of_nil.
  - rewrite UnmarshalJob_MarshalJob by done. by rewrite sanitize_job_valid.
  - intros o c' [(Hq' & Hnow & _ & Hgood) [-> Hrep]]. apply represents_inv in Hrep as [_ Hv2]. destruct (Hgood Hqf) as [_ Hqf'].
    apply wp_bind. unfold wp, owner_Store. cbn [fst snd sv_world sv_owner sv_lastSeen].
    apply wp_bind. unfold wp, lastSeen_Store. cbn [fst snd sv_world sv_owner sv_lastSeen].
    apply wp_bind, wp_on_world, wp_UpdateJobState. cbn [sv_world w_db w_db_faults w_q w_q_faults w_now].
    intros r d' fs _ Hd' Hok. destruct (Hok Hf) as [-> Hr]. specialize (Hr Hn) as ->. rewrite (Hd' eq_refl).
    apply wp_ret. cbn [sv_world sv_owner w_q w_db w_db_faults w_q_faults]. by split_and!.
Qed.

Variable json_text : string → string.
Variable encodes : WorkerPayload → bool.
Variable workerID : string.

(** A stream that is open, between two jobs. *)
Record between (se : session (Q := R)) : Prop := {
  bt_open : se_open se = true;
  bt_none : se_inFlight se = None;
  bt_loop : se_worker se = Looping;
}.

Lemma session_ready fuel se job s' : between se → encodes MsgReady = true →
  work_ready Background fuel workerID None (se_server se) = (Continue (Some job) (Some (task_of job)), s') →
  session_step json_text overflowed registry encodes workerID (SEReady Background fuel) se =
  Session s' true (Some job) (Executing (task_of job) true).
Proof.
  intros [Ho _ Hl] He Hw. unfold session_step, session_send, session_sends. rewrite Hl. cbn [worker_step].
  rewrite Ho, He. cbn [andb]. unfold session_deliver. cbn [work_message]. by rewrite Hw.
Qed.
Lemma session_exit s task b job o : encodes (MsgResult (task_result json_text task o)) = true →
  session_step json_text overflowed registry encodes workerID (SEExit o) (Session s true (Some job) (Executing task b)) =
  Session (handleResult overflowed registry (task_result json_text task o) workerID s).2 true None Looping.
Proof.
  intros He. unfold session_step, session_send, session_sends. cbn [se_worker se_open].
  destruct b; cbn [worker_step]; rewrite He; cbn [andb]; unfold session_deliver; cbn [work_message se_server];
    unfold mbind, M_bind; by destruct (handleResult _ _ _ _ _).
Qed.

(** What protocol buffers are relied on for: messages of valid text are sent. *)
Definition sends_text : Prop :=
  encodes MsgReady = true ∧
  ∀ res, ValidString (res_Error res) && ValidString (res_Output res) = true → encodes (MsgResult res) = true.

(** The turn: Ready, then the result of the job, which succeeds. *)
Lemma worker_turn job l fuel o (se : session (Q := R)) row out :
  let w0 := sv_world (se_server se) in
  (0 < fuel)%nat → carried job → between se → sends_text →
  qinv (w_q w0) → reliable w0 → db_ok (w_db w0) →
  ready (qabs (w_q w0)) = l ++ [Itoa (j_ID job)] →
  payloads (qabs (w_q w0)) !! Itoa (j_ID job) = Some (MarshalJob job) →
  jobs (w_db w0) !! j_ID job = Some row →
  executeJob json_text (λ _ _, o) (j_Payload job) = (true, EmptyString, out) → text_ok out = true →
  let se1 := session_step json_text overflowed registry encodes workerID (SEReady Background fuel) se in
  let se2 := session_step json_text overflowed registry encodes workerID (SEExit o) se1 in
  let d1 := completed (j_ID job) out (moved (j_ID job) Running (j_RetryCount job) (w_db w0)) in
  se_worker se1 = Executing (task_of job) true ∧ between se2 ∧
  qinv (w_q (sv_world (se_server se2))) ∧ reliable (sv_world (se_server se2)) ∧
  qabs (w_q (sv_world (se_server se2))) = q_settle (j_ID job) (handed_out l (Itoa (j_ID job)) (qabs (w_q w0))) ∧
  match workflow_run_id row with
  | None => w_db (sv_world (se_server se2)) = d1
  | Some runID => ∃ w1, reliable w1 ∧ w_db w1 = d1 ∧
      qabs (w_q w1) = q_settle (j_ID job) (handed_out l (Itoa (j_ID job)) (qabs (w_q w0))) ∧
      sv_world (se_server se2) = (Advance registry runID w1).2
  end.
Proof.
  intros w0 Hfuel Hjob Hse [Hready Hresult] Hq Hrel Hok Hl Hp Hrow Hexec Hout.
  pose proof (ready_gets_the_job job l fuel workerID (se_server se) Hfuel Hjob Hq Hrel Hl Hp) as Hr. unfold wp in Hr.
  destruct (work_ready Background fuel workerID None (se_server se)) as [wo s1] eqn:Hwork. cbn [fst snd] in Hr.
  destruct Hr as (-> & Hq1 & Hrel1 & Hown & Hv1 & Hdb).
  rewrite (session_ready fuel se job s1) by done. cbv zeta. destruct Hjob as [Ht H32 Hvt Hvp Hn].
  assert (task_result json_text (task_of job) o = {| res_JobId := j_ID job; res_Success := true;
    res_Error := EmptyString; res_Output := out |}) as Hres.
  { unfold task_result. cbn [task_of task_Payload task_JobId]. rewrite Hexec. f_equal. by apply to_int32_small. }
  rewrite session_exit; rewrite Hres; [|apply Hresult; cbn [res_Error res_Output]; by apply andb_prop in Hout as [-> _]].
  cbn [se_worker se_server].
  pose proof (handleResult_success_spec overflowed registry {| res_JobId := j_ID job; res_Success := true;
    res_Error := EmptyString; res_Output := out |} workerID s1 (set_retry (j_RetryCount job) (set_status Running row))) as Hh.
  cbn [res_JobId res_Success res_Output] in Hh. unfold wp in Hh.
  destruct Hh as (_ & _ & Hv2 & Hq2 & Hrel2 & Hd2); try done.
  - rewrite Hdb. by apply db_ok_moved.
  - rewrite Hown. apply lookup_insert_eq.
  - rewrite Hdb, lookup_moved. unfold w0 in Hrow. by rewrite Hrow.
  - cbn [workflow_run_id set_retry set_status] in Hd2. rewrite Hdb, Hv1 in Hd2. by rewrite Hv2, Hv1.
Qed.
End turn.
