(* ===== verification/Run.v ===== *)
(** * A run from its trigger to its end

    What a workflow computes, as a function of its steps ([output_of]), and the theorem
    that the program computes it: a triggered run is completed after as many turns of a
    worker as it has steps, each step once, in an order that respects the dependencies,
    and with the output of its dependency in PREVIOUS_OUTPUT.  The lemmas follow the run
    through the tables ([ledger]) and the queue ([flow]). *)
From stdpp Require Import gmap strings list fin_maps fin_sets sorting.
From S2P Require Import Prelude Text Json Redis Queue RedisQueue Db Outbox Service.
From S2P Require Import Server Strings Worker Turn.
From S2P Require Import Workflow.
Open Scope Z_scope.

(** ** What a workflow computes *)
Section outputs.
Variable run : string → string → shell_outcome.
Variable wf : Workflow.

(** The output of a command with a previous output, as a worker reports it. *)
Definition output_with (command prev : string) : string :=
  TrimSpace (sh_stdout (run (sanitize command) (truncate_output (sanitize prev)))).

(** The output of a step; the fuel bounds the length of a chain of dependencies. *)
Fixpoint output_of (fuel : nat) (idx : nat) : string :=
  match fuel with
  | O => EmptyString
  | S fuel =>
      match Steps wf !! idx with
      | None => EmptyString
      | Some step => output_with (Command step)
          (match single_dep wf idx with Some i => output_of fuel i | None => EmptyString end)
      end
  end.
Definition outputs : nat → string := output_of (length (Steps wf)).
Definition input_of (idx : nat) : string :=
  match single_dep wf idx with Some i => outputs i | None => EmptyString end.

Lemma single_dep_depends idx i : single_dep wf idx = Some i → depends (Steps wf) idx i.
Proof.
  unfold single_dep, dep_index. destruct (Steps wf !! idx) as [step|] eqn:Hs; [|done].
  destruct (deps step) as [|d [|]] eqn:Hd; try done. intros ([k t] & Hf & ->)%fmap_Some. cbn [fst].
  apply list_find_Some in Hf as (Ht & Hid & _). exists step, t. split_and!; [done..|]. rewrite Hd. set_solver.
Qed.

(** Enough fuel is enough: the position of the step in an order of the steps. *)
Lemma output_of_enough order : ordered (depends (Steps wf)) order → ∀ n l1 idx l2,
  order = l1 ++ idx :: l2 → (length l1 ≤ n)%nat → ∀ f f', (length l1 < f)%nat → (length l1 < f')%nat →
  output_of f idx = output_of f' idx.
Proof.
  intros Hord n. induction n as [n IH] using lt_wf_ind. intros l1 idx l2 Ho Hn [|f] [|f'] Hf Hf'; try lia.
  cbn [output_of]. destruct (Steps wf !! idx) as [step|]; [|done].
  destruct (single_dep wf idx) as [i|] eqn:Hi; [|done]. f_equal.
  apply single_dep_depends in Hi. pose proof (Hord _ _ _ Ho _ Hi) as Hin.
  apply list_elem_of_split in Hin as (m1 & m2 & ->). rewrite length_app in *. cbn [length] in *.
  apply (IH (length m1) ltac:(lia) m1 i (m2 ++ idx :: l2)); [|lia..]. by rewrite Ho, <-app_assoc.
Qed.

(** [outputs] solves the equations of the workflow. *)
Lemma outputs_eq idx step : well_formed (Steps wf) → Steps wf !! idx = Some step →
  outputs idx = output_with (Command step) (input_of idx).
Proof.
  intros [_ _ (order & Hperm & Hord)] Hs. unfold input_of, outputs.
  assert (idx ∈ order) as (l1 & l2 & Ho)%list_elem_of_split.
  { rewrite Hperm, elem_of_seq. apply lookup_lt_Some in Hs. lia. }
  assert (length order = length (Steps wf)) as Hlen by (rewrite Hperm; apply length_seq).
  assert (length l1 < length (Steps wf))%nat as Hl by (rewrite <-Hlen, Ho, length_app; cbn [length]; lia).
  rewrite (output_of_enough order Hord (length l1) l1 idx l2 Ho (le_n _) _ (S (length (Steps wf)))) by lia.
  cbn [output_of]. by rewrite Hs.
Qed.
End outputs.

(** ** Lemmas: inserting a step when nothing fails *)
Definition step_inserted (now : Z) (j : job_rec) (d : db) : db :=
  Db (<[next_job d := j]> (jobs d)) (<[next_outbox d := OutboxRec (next_job d) false None now]> (outbox d))
     (runs d) (api_keys d) (next_job d + 1) (next_outbox d + 1) (next_run d) (next_key d).

Lemma InsertWorkflowStep_inserts runID step n p c (j := new_step runID step n p) :
  c_faults c = [] → params_ok j = true → in_int32 step = true → 0 ≤ n →
  ¬ has_step runID step (c_data c) → is_Some (runs (c_data c) !! runID) →
  InsertWorkflowStep runID step n p c =
    (Ok (next_job (c_data c)), Conn (step_inserted (c_now c) j (c_data c)) [] (c_now c)).
Proof.
  intros Hf Hp Hs Hn Hno Hrun. destruct c as [d fs now]. cbn [c_data c_faults c_now] in *. subst fs.
  unfold InsertWorkflowStep, in_tx, try_bind, mbind, M_bind, Begin, call. cbn [c_data c_faults c_now head tail].
  change (JobRec Pending 0 n "shell" p None (Some runID) (Some step)) with j. unfold insert_step. rewrite Hp, Hs. cbn [negb andb max_retries j new_step].
  assert (¬ 0 < count_where (same_step runID step) (jobs d)) as Hc.
  { intros (i & j' & Hj & Hsame)%count_where_pos. by destruct Hno; exists i, j'. }
  rewrite bool_decide_false by lia. rewrite bool_decide_false by done. rewrite bool_decide_true by done.
  unfold insert_job. rewrite Hp. cbn [negb max_retries j new_step]. rewrite bool_decide_false by lia.
  unfold exec_insert_outbox, try_bind, mbind, M_bind, call. cbn [c_data c_faults c_now head tail].
  rewrite bool_decide_true by (cbn; rewrite lookup_insert_eq; eauto). reflexivity.
Qed.

Lemma NoDup_increasing l : StronglySorted lt l → NoDup l.
Proof.
  induction 1 as [|i l _ IH Hi]; constructor; [|done]. intros Hin. rewrite Forall_forall in Hi. specialize (Hi i Hin). lia.
Qed.

(** ** The tables and the queue during a run

    Job IDs are given out from [base] on: the [i]-th step of [sub] that was submitted has
    the job [base + i]; [done] are the steps that are completed. *)
Section run.
Variable run : string → string → shell_outcome.
Variable wf : Workflow.
Variables (runID base : Z).

Definition step_job (idx : nat) (step : Step) : job_rec :=
  new_step runID (Z.of_nat idx) (Retries step) (step_payload (Command step) (input_of run wf idx)).
Definition state_of (done : gset nat) (idx : nat) (step : Step) : job_rec :=
  if bool_decide (idx ∈ done) then set_output (outputs run wf idx) (set_status Completed (step_job idx step))
  else step_job idx step.
Definition queue_job (i : nat) (idx : nat) (step : Step) : Job :=
  Build_Job (base + Z.of_nat i) 0 (Retries step) "shell" (payload (step_job idx step)).

Record ledger (sub : list nat) (done : gset nat) (d : db) : Prop := {
  lg_ok : db_ok d;
  lg_nodup : NoDup sub;
  lg_done : ∀ idx, idx ∈ done → idx ∈ sub;
  lg_next : next_job d = base + Z.of_nat (length sub);
  lg_jobs : ∀ i idx, sub !! i = Some idx → ∃ step, Steps wf !! idx = Some step ∧
    jobs d !! (base + Z.of_nat i) = Some (state_of done idx step);
  lg_mine : ∀ id j, jobs d !! id = Some j → workflow_run_id j = Some runID →
    ∃ i idx, sub !! i = Some idx ∧ id = base + Z.of_nat i;
}.

(** The [i]-th job waits for a worker. *)
Definition waits (sub : list nat) (done : gset nat) (i idx : nat) : Prop := sub !! i = Some idx ∧ idx ∉ done.

(** The queue holds jobs that wait, each once and with its payload, and nothing else. *)
Record queue_ok (sub : list nat) (done : gset nat) (v : qview) : Prop := {
  qo_free : processing v = [];
  qo_nodup : NoDup (ready v);
  qo_ready : ∀ x, x ∈ ready v → ∃ i idx step, waits sub done i idx ∧ Steps wf !! idx = Some step ∧
    x = Itoa (base + Z.of_nat i) ∧ payloads v !! x = Some (MarshalJob (queue_job i idx step));
  qo_queued : ∀ x, x ∈ queued v ↔ x ∈ ready v;
}.
(** A job waits in the ready list or has an entry to be delivered, and nothing else is
    to be delivered. *)
Record flow (sub : list nat) (done : gset nat) (d : db) (v : qview) : Prop := {
  fl_queue : queue_ok sub done v;
  fl_outbox : ∀ k o, outbox d !! k = Some o → processed o = false →
    ∃ i idx, waits sub done i idx ∧ ob_job_id o = base + Z.of_nat i;
  fl_all : ∀ i idx, waits sub done i idx →
    Itoa (base + Z.of_nat i) ∈ ready v ∨ has_unprocessed d (base + Z.of_nat i) = true;
}.

Lemma state_of_step done idx step :
  workflow_run_id (state_of done idx step) = Some runID ∧ step_index (state_of done idx step) = Some (Z.of_nat idx) ∧
  (status (state_of done idx step) = Completed ↔ idx ∈ done).
Proof. unfold state_of. case_bool_decide; by split_and!. Qed.

(** A job of the run, seen from the tables. *)
Lemma ledger_job sub done d id j idx : ledger sub done d → jobs d !! id = Some j →
  workflow_run_id j = Some runID → step_index j = Some (Z.of_nat idx) →
  ∃ i step, sub !! i = Some idx ∧ id = base + Z.of_nat i ∧ Steps wf !! idx = Some step ∧ j = state_of done idx step.
Proof.
  intros Hl Hj Hr Hs. destruct (lg_mine _ _ _ Hl _ _ Hj Hr) as (i & idx' & Hi & ->).
  destruct (lg_jobs _ _ _ Hl _ _ Hi) as (step & Hstep & Hj'). rewrite Hj in Hj'. injection Hj' as ->.
  destruct (state_of_step done idx' step) as (_ & Hs' & _). rewrite Hs in Hs'. injection Hs' as Hs'.
  assert (idx' = idx) as -> by lia. by exists i, step.
Qed.

Lemma ledger_has_step sub done d idx : ledger sub done d → has_step runID (Z.of_nat idx) d ↔ idx ∈ sub.
Proof.
  intros Hl. unfold has_step, same_step. split.
  - intros (id & j & Hj & [Hr Hs]%andb_true_iff). apply bool_decide_eq_true in Hr, Hs.
    destruct (ledger_job _ _ _ _ _ _ Hl Hj Hr Hs) as (i & step & Hi & _). by eapply list_elem_of_lookup_2.
  - intros (i & Hi)%list_elem_of_lookup. destruct (lg_jobs _ _ _ Hl _ _ Hi) as (step & _ & Hj).
    destruct (state_of_step done idx step) as (Hr & Hs & _).
    eexists _, _. split; [exact Hj|]. by rewrite Hr, Hs, !bool_decide_true.
Qed.

Lemma ledger_completed sub done d id j i : ledger sub done d → jobs d !! id = Some j →
  completed_step runID (Z.of_nat i) id j = true → i ∈ done ∧ output j = Some (outputs run wf i).
Proof.
  intros Hl Hj [[Hr Hs]%andb_true_iff Hc]%andb_true_iff. apply bool_decide_eq_true in Hr, Hs, Hc.
  destruct (ledger_job _ _ _ _ _ _ Hl Hj Hr Hs) as (k & step & _ & _ & _ & ->).
  apply (state_of_step done i step) in Hc as Hi. split; [done|]. unfold state_of. by rewrite bool_decide_true.
Qed.

Lemma ledger_done sub done d i : ledger sub done d → i ∈ done →
  ∃ id j, jobs d !! id = Some j ∧ completed_step runID (Z.of_nat i) id j = true.
Proof.
  intros Hl Hi. apply (lg_done _ _ _ Hl) in Hi as Hin. apply list_elem_of_lookup in Hin as (k & Hk).
  destruct (lg_jobs _ _ _ Hl _ _ Hk) as (step & _ & Hj). destruct (state_of_step done i step) as (Hr & Hs & Hc).
  eexists _, _. split; [exact Hj|]. unfold completed_step. rewrite Hr, Hs, (proj2 Hc Hi). by rewrite !bool_decide_true.
Qed.

Lemma ledger_step_done sub done d i : ledger sub done d → step_done d runID i ↔ i ∈ done.
Proof.
  intros Hl. split; [|by apply (ledger_done sub)]. intros (id & j & Hj & Hc).
  by apply (ledger_completed _ _ _ _ _ _ Hl Hj Hc).
Qed.

(** The input that Advance finds is that of [outputs]. *)
Lemma ledger_input sub done d idx prev : ledger sub done d →
  (∀ i, single_dep wf idx = Some i → i ∈ done) →
  prev_of d runID wf idx prev ∨ (prev = EmptyString ∧ ∀ p, ¬ prev_of d runID wf idx p) → prev = input_of run wf idx.
Proof.
  intros Hl Hdeps. unfold input_of. intros [(i & id & j & -> & Hj & Hc & ->)|[-> Hno]].
  - by destruct (ledger_completed _ _ _ _ _ _ Hl Hj Hc) as [_ ->].
  - destruct (single_dep wf idx) as [i|] eqn:Hi; [|done]. exfalso.
    destruct (ledger_done _ _ _ _ Hl (Hdeps i eq_refl)) as (id & j & Hj & Hc). eapply Hno. by exists i, id, j.
Qed.

(** *** A step is inserted *)
Lemma waits_app sub done idx i k : waits (sub ++ [idx]) done i k ↔
  waits sub done i k ∨ (i = length sub ∧ k = idx ∧ idx ∉ done).
Proof.
  unfold waits. destruct (decide (i < length sub)%nat) as [Hi|Hi].
  - rewrite lookup_app_l by done. split; [auto|]. intros [?|(-> & _)]; [done|lia].
  - rewrite lookup_app_r by lia. rewrite (lookup_ge_None_2 sub i) by lia.
    destruct (i - length sub)%nat as [|n] eqn:Hn; cbn.
    + split; [intros [[= <-] ?]; right; split_and!; [lia|done..]|]. intros [[??]|(_ & -> & ?)]; [done|by split].
    + split; [by intros [??]|]. intros [[??]|(-> & _)]; [done|lia].
Qed.

Lemma ledger_insert sub done d idx step now : ledger sub done d → Steps wf !! idx = Some step → idx ∉ sub →
  db_ok (step_inserted now (step_job idx step) d) → ledger (sub ++ [idx]) done (step_inserted now (step_job idx step) d).
Proof.
  intros [Hok Hnd Hdone Hnext Hjobs Hmine] Hstep Hnew Hok'.
  assert (jobs d !! next_job d = None) as Hfree by by apply lookup_next_job.
  split; cbn [step_inserted jobs next_job]; [done| | | | |].
  - apply NoDup_app. split_and!; [done|set_solver|apply NoDup_singleton].
  - intros i Hi. apply elem_of_app. left. auto.
  - rewrite length_app, Hnext. cbn [length]. lia.
  - intros i k Hi. rewrite Hnext. destruct (decide (i = length sub)) as [->|Hne].
    + rewrite lookup_app_r, Nat.sub_diag in Hi by lia. injection Hi as <-. exists step. split; [done|].
      rewrite lookup_insert_eq. unfold state_of. rewrite bool_decide_false by auto. done.
    + assert (sub !! i = Some k) as Hi'.
      { apply lookup_lt_Some in Hi as Hlt. rewrite length_app in Hlt. cbn [length] in Hlt.
        by rewrite lookup_app_l in Hi by lia. }
      destruct (Hjobs _ _ Hi') as (step' & Hs' & Hj'). exists step'. split; [done|].
      rewrite lookup_insert_ne by lia. done.
  - intros id j. rewrite lookup_insert_Some. intros [[<- <-] | [_ Hj]] Hr.
    + exists (length sub), idx. rewrite lookup_app_r, Nat.sub_diag by lia. done.
    + destruct (Hmine _ _ Hj Hr) as (i & k & Hi & ->). exists i, k. split; [|done]. by apply lookup_app_l_Some.
Qed.

Lemma flow_insert sub done d v idx step now : ledger sub done d → flow sub done d v →
  Steps wf !! idx = Some step → idx ∉ sub → flow (sub ++ [idx]) done (step_inserted now (step_job idx step) d) v.
Proof.
  intros [Hok _ Hdone Hnext _ _] [[Hfree Hnd Hready Hqueued] Hout Hall] Hstep Hnew.
  assert (idx ∉ done) as Hnot by (intros ?; by apply Hnew, Hdone).
  assert (outbox d !! next_outbox d = None) as Hfresh by by apply lookup_next_outbox.
  assert (∀ id, has_unprocessed d id = true → has_unprocessed (step_inserted now (step_job idx step) d) id = true) as Hmono.
  { intros id. apply has_unprocessed_mono. cbn [step_inserted outbox]. by apply insert_subseteq. }
  split; [split; [done|done| |done]| |].
  - intros x (i & k & st & Hw & Hrest)%Hready. exists i, k, st. split; [|done]. apply waits_app. by left.
  - intros k o. cbn [step_inserted outbox]. rewrite lookup_insert_Some. intros [[<- <-] | [_ Hk]] Hp.
    + exists (length sub), idx. split; [apply waits_app; by right|]. cbn [ob_job_id]. lia.
    + destruct (Hout _ _ Hk Hp) as (i & k' & Hw & Ho). exists i, k'. split; [apply waits_app; by left|done].
  - intros i k [Hw|(-> & -> & _)]%waits_app.
    + destruct (Hall _ _ Hw) as [?|?]; [by left|right; auto].
    + right. apply has_unprocessed_spec. eexists (next_outbox d), _. cbn [step_inserted outbox].
      rewrite lookup_insert_eq. split; [done|]. cbn. split; [lia|done].
Qed.

(** The columns of a job can hold the steps. *)
Record storable_steps : Prop := {
  sw_small : Z.of_nat (length (Steps wf)) < 2 ^ 31;
  sw_retries : ∀ step, step ∈ Steps wf → 0 ≤ Retries step < 2 ^ 31;
}.
Hypothesis Hwf : storable_steps.

Section calls.
Context {Q : Type} `{Queue Q}.
Implicit Types (w : world Q).

(** What the calls of a run leave alone, and where the run is. *)
Record during (sub : list nat) (done : gset nat) w0 w : Prop := {
  du_faults : w_db_faults w = [];
  du_q : w_q w = w_q w0;
  du_qfaults : w_q_faults w = w_q_faults w0;
  du_runs : runs (w_db w) = runs (w_db w0);
  du_ledger : ledger sub done (w_db w);
  du_flow : flow sub done (w_db w) (qabs (w_q w0));
}.

Lemma during_start sub done w : w_db_faults w = [] → ledger sub done (w_db w) →
  flow sub done (w_db w) (qabs (w_q w)) → during sub done w w.
Proof. by split. Qed.

Lemma submitStep_during sub done w0 w idx step prev : during sub done w0 w → Steps wf !! idx = Some step →
  idx ∉ sub → is_Some (runs (w_db w0) !! runID) → prev = input_of run wf idx →
  wp (submitStep runID idx wf prev) w (λ r w', r = Ok tt ∧ during (sub ++ [idx]) done w0 w').
Proof.
  intros [Hf Hq Hqf Hruns Hl Hfl] Hs Hnew Hrun ->. unfold submitStep. rewrite Hs.
  pose proof (lookup_lt_Some _ _ _ Hs) as Hlt. pose proof (sw_small Hwf) as Hsmall.
  pose proof (sw_retries Hwf step (list_elem_of_lookup_2 _ _ _ Hs)) as Hret.
  pose proof (InsertWorkflowStep_ok runID (Z.of_nat idx) (Retries step)
    (step_payload (Command step) (input_of run wf idx)) (Conn (w_db w) (w_db_faults w) (w_now w)) (lg_ok _ _ _ Hl)) as Hok.
  assert (params_ok (step_job idx step) = true) as Hp.
  { unfold params_ok, step_job. cbn [new_step max_retries type payload].
    rewrite step_payload_ok, (proj2 (in_int32_spec (Retries step))) by lia. done. }
  assert (¬ has_step runID (Z.of_nat idx) (w_db w)) as Hno by (by rewrite (ledger_has_step sub done)).
  assert (is_Some (runs (w_db w) !! runID)) as Hrun' by (by rewrite Hruns).
  assert (in_int32 (Z.of_nat idx) = true) as Hidx by (apply in_int32_spec; lia).
  pose proof (InsertWorkflowStep_inserts runID (Z.of_nat idx) (Retries step) (payload (step_job idx step))
    (Conn (w_db w) (w_db_faults w) (w_now w)) Hf Hp Hidx (proj1 Hret) Hno Hrun') as Heq.
  cbn [c_data c_now payload step_job new_step] in Heq.
  apply wp_try_bind, wp_on_db. unfold wp in Hok |- *. rewrite Heq in Hok |- *. cbn [c_data c_faults c_now fst snd] in *.
  fold (step_job idx step) in Hok |- *. split; [done|].
  split; cbn [w_db w_db_faults w_q w_q_faults w_now]; try done.
  - by apply ledger_insert.
  - by apply flow_insert.
Qed.

(** Steps that can be submitted: they have no job and their dependencies are completed. *)
Definition submittable (sub : list nat) (done : gset nat) (idx : nat) : Prop :=
  (idx ∉ sub) ∧ is_Some (Steps wf !! idx) ∧ ∀ i, single_dep wf idx = Some i → i ∈ done.

Lemma submit_unblocked_during idxs sub done w0 w : during sub done w0 w → NoDup idxs →
  (∀ idx, idx ∈ idxs → submittable sub done idx) → is_Some (runs (w_db w0) !! runID) →
  wp (submit_unblocked runID wf idxs) w (λ _ w', during (sub ++ idxs) done w0 w').
Proof.
  revert sub w. induction idxs as [|idx idxs IH]; intros sub w Hw Hnd Hidxs Hrun; cbn [submit_unblocked].
  { apply wp_ret. by rewrite app_nil_r. }
  apply NoDup_cons in Hnd as [Hnot Hnd]. destruct (Hidxs idx ltac:(set_solver)) as (Hnew & [step Hs] & Hdeps).
  pose proof Hw as [Hf Hq Hqf Hruns Hl Hfl].
  apply wp_bind, wp_previousOutputFor. intros prev fs Hfs Hprev. rewrite (Hfs Hf).
  apply wp_bind. eapply wp_mono; [eapply submitStep_during; [|exact Hs|exact Hnew|exact Hrun|]|].
  - by split.
  - apply (ledger_input sub done (w_db w)); [done..|]. destruct Hprev as [?|[-> [?|?]]]; [by left|done|by right].
  - intros r w' [_ Hw']. change (idx :: idxs) with ([idx] ++ idxs). rewrite app_assoc. apply IH; [done..| |done].
    intros k Hk. destruct (Hidxs k ltac:(set_solver)) as (Hk1 & Hk2 & Hk3). split_and!; [|done..]. set_solver.
Qed.

Lemma submit_roots_during idxs sub done w0 w : during sub done w0 w → NoDup idxs →
  (∀ idx, idx ∈ idxs → (idx ∉ sub) ∧ is_root wf idx) → is_Some (runs (w_db w0) !! runID) →
  wp (submit_roots runID wf idxs) w (λ r w', r = Ok tt ∧ during (sub ++ idxs) done w0 w').
Proof.
  revert sub w. induction idxs as [|idx idxs IH]; intros sub w Hw Hnd Hidxs Hrun; cbn [submit_roots].
  { apply wp_ret. by rewrite app_nil_r. }
  apply NoDup_cons in Hnd as [Hnot Hnd]. destruct (Hidxs idx ltac:(set_solver)) as (Hnew & step & Hs & Hdeps).
  apply wp_try_bind. eapply wp_mono; [eapply submitStep_during; [exact Hw|exact Hs|exact Hnew|exact Hrun|]|].
  - unfold input_of, single_dep. by rewrite Hs, Hdeps.
  - intros r w' [-> Hw']. change (idx :: idxs) with ([idx] ++ idxs). rewrite app_assoc. apply IH; [done..| |done].
    intros k Hk. destruct (Hidxs k ltac:(set_solver)) as (Hk1 & Hk2). split; [|done]. set_solver.
Qed.

(** *** A step is counted *)

(** Every step whose dependencies are completed has a job. *)
Definition closed (sub : list nat) (done : gset nat) : Prop :=
  ∀ idx step, Steps wf !! idx = Some step →
    (∀ dep, dep ∈ deps step → ∃ i s, Steps wf !! i = Some s ∧ ID s = dep ∧ i ∈ done) → idx ∈ sub.

Variable registry : Registry.
Hypothesis Hget : Get registry (Name wf) = Some wf.
Hypothesis Hnormal : Normalize wf = wf.
Hypothesis Hunique : NoDup (ID <$> Steps wf).
Let N : Z := Z.of_nat (length (Steps wf)).

Lemma ledger_set_runs p f sub done d : ledger sub done d → ledger sub done (set_runs (update_where p f) d).
Proof. intros [Hok ? ? ? ? ?]. split; try done. by apply db_ok_update_runs. Qed.
Lemma flow_set_runs g sub done d v : flow sub done d v → flow sub done (set_runs g d) v.
Proof. by intros []. Qed.

(** The steps that Advance submits. *)
Lemma unblocked_submittable sub done d (idxs := UnblockedSteps wf
    (ids_of wf (positions (step_indices (λ j, bool_decide (status j = Completed)) runID d)))
    (positions (step_indices (λ _, true) runID d))) : ledger sub done d →
  NoDup idxs ∧ (∀ idx, idx ∈ idxs → submittable sub done idx) ∧ closed (sub ++ idxs) done.
Proof.
  intros Hl. split_and!.
  - apply NoDup_increasing, UnblockedSteps_sorted.
  - intros idx (step & Hs & Hno & Hdeps)%unblocked_runnable. split_and!; [|by rewrite Hs|].
    + by rewrite <-(ledger_has_step _ _ _ _ Hl).
    + intros i (s & t & Hs' & Ht & Hid)%single_dep_depends. rewrite Hs in Hs'. injection Hs' as <-.
      destruct (Hdeps _ Hid) as (i' & t' & Ht' & Heq & Hdone%(ledger_step_done _ _ _ _ Hl)).
      by rewrite <-(ID_inj _ _ _ _ _ Hunique Ht' Ht Heq).
  - intros idx step Hs Hdeps. apply elem_of_app. destruct (decide (idx ∈ sub)) as [|Hno]; [by left|right].
    apply unblocked_runnable. exists step. split_and!; [done|by rewrite (ledger_has_step _ _ _ _ Hl)|].
    intros dep (i & s & Hi & Hid & Hdone)%Hdeps. exists i, s. split_and!; [done..|]. by apply (ledger_step_done _ _ _ _ Hl).
Qed.

(** The run after [n] steps were counted. *)
Definition run_after (n : Z) : run_rec :=
  RunRec (Name wf) (if bool_decide (n < N) then RunRunning else RunCompleted) n N.

Lemma Advance_during sub done n w : w_db_faults w = [] → ledger sub done (w_db w) →
  flow sub done (w_db w) (qabs (w_q w)) → runs (w_db w) !! runID = Some (run_after n) → 0 ≤ n < N →
  wp (Advance registry runID) w (λ _ w', ∃ sub', ledger sub' done (w_db w') ∧
    flow sub' done (w_db w') (qabs (w_q w)) ∧ runs (w_db w') !! runID = Some (run_after (n + 1)) ∧
    (n + 1 < N → closed sub' done)).
Proof.
  intros Hf Hl Hfl Hr Hn. pose proof (sw_small Hwf) as Hsmall. fold N in Hsmall.
  assert (run_state (run_after n) = RunRunning) as Hst by (unfold run_after; by rewrite bool_decide_true by lia).
  unfold Advance, AdvanceWorkflowRun. apply wp_bind, wp_db_call; [|by intros fs []..].
  intros fs Hfs. rewrite (Hfs Hf), Hr, Hst. rewrite bool_decide_true by done. change (current_step (run_after n)) with n.
  rewrite (proj2 (in_int32_spec (n + 1))) by lia. cbn [fst snd].
  change (total_steps (run_after n)) with N. change (workflow_name (run_after n)) with (Name wf).
  set (d1 := set_runs (update_where (by_id runID) (set_current_step (n + 1))) (w_db w)).
  assert (runs d1 !! runID = Some (RunRec (Name wf) RunRunning (n + 1) N)) as Hr1.
  { unfold d1. cbn [set_runs runs]. rewrite lookup_update_id, Hr. cbn. unfold set_current_step. by rewrite Hst. }
  assert (ledger sub done d1) as Hl1 by by apply ledger_set_runs.
  assert (flow sub done d1 (qabs (w_q w))) as Hfl1 by by apply flow_set_runs.
  unfold run_after at 1. case_bool_decide as Hend.
  - apply wp_bind. unfold CompleteWorkflowRun. apply wp_db_call; [|by intros fs' Hne; destruct Hne..]. intros fs' _. cbn [fst snd w_db].
    apply wp_ret. exists sub. cbn [w_db]. split_and!; [by apply ledger_set_runs|by apply flow_set_runs| |lia].
    cbn [set_runs runs]. rewrite lookup_update_id, Hr1. rewrite bool_decide_false by lia. done.
  - rewrite Hget, Hnormal. clearbody d1. cbn [w_db].
    apply wp_bind, (wp_db_read (λ _ d, Ok (step_indices (λ j, bool_decide (status j = Completed)) runID d))); [|by intros fs' Hne; destruct Hne].
    intros fs1 Hfs1. apply wp_bind, (wp_db_read (λ _ d, Ok (step_indices (λ _, true) runID d))); fields; [|by intros fs' Hne; destruct Hne; auto].
    intros fs2 Hfs2. destruct (unblocked_submittable sub done d1 Hl1) as (Hnd & Hsub & Hclosed).
    eapply wp_mono; [apply (submit_unblocked_during _ sub done (World d1 [] (w_q w) (w_q_faults w) (w_now w)))|]; try done.
    + by split; fields; auto.
    + intros [] w' [_ _ _ Hruns Hl' Hfl']. eexists. split_and!; [exact Hl'|exact Hfl'| |done].
      rewrite Hruns. fields. rewrite Hr1. by rewrite bool_decide_true by lia.
Qed.
End calls.

(** *** A pass of the relay *)
Lemma waits_id sub done i i' idx idx' : Itoa (base + Z.of_nat i) = Itoa (base + Z.of_nat i') →
  waits sub done i idx → waits sub done i' idx' → i = i' ∧ idx = idx'.
Proof. intros Heq%(inj Itoa) [Hi _] [Hi' _]. assert (i = i') as <- by lia. by simplify_eq. Qed.

Lemma queue_ok_enqueue sub done v i idx step (v' := q_enqueue (queue_job i idx step) v) : queue_ok sub done v →
  waits sub done i idx → Steps wf !! idx = Some step →
  queue_ok sub done v' ∧ Itoa (base + Z.of_nat i) ∈ ready v' ∧ ∀ x, x ∈ ready v → x ∈ ready v'.
Proof.
  intros [Hfree Hnd Hready Hqueued] Hw Hs. subst v'. unfold q_enqueue, q_enter, q_mark. cbn [queue_job j_ID].
  set (x := Itoa (base + Z.of_nat i)).
  assert (∀ y, y ∈ ready v → ∃ i' k st, waits sub done i' k ∧ Steps wf !! k = Some st ∧ y = Itoa (base + Z.of_nat i') ∧
    <[x := MarshalJob (queue_job i idx step)]> (payloads v) !! y = Some (MarshalJob (queue_job i' k st))) as Hready'.
  { intros y Hy. destruct (Hready y Hy) as (i' & k & st & Hw' & Hs' & -> & Hp). exists i', k, st. split_and!; [done..|].
    destruct (decide (x = Itoa (base + Z.of_nat i'))) as [Heq|Hne]; [|by rewrite lookup_insert_ne].
    destruct (waits_id _ _ _ _ _ _ Heq Hw Hw') as [<- <-]. rewrite Hs in Hs'. injection Hs' as <-.
    unfold x. by rewrite lookup_insert_eq. }
  case_bool_decide as Hx; cbn [ready processing payloads queued] in *.
  - split_and!; [split; cbn [ready processing payloads queued]; [done| | |]|set_solver..].
    + constructor; [by rewrite <-Hqueued|done].
    + intros y [->|Hy]%elem_of_cons; [|by apply Hready']. exists i, idx, step. by rewrite lookup_insert_eq.
    + intros y. rewrite elem_of_cons, elem_of_union, elem_of_singleton, Hqueued. done.
  - assert (x ∈ queued v) as Hin by (by destruct (decide (x ∈ queued v))). split_and!; [split; cbn [ready processing payloads queued]; [done..| ]|by apply Hqueued|done].
    intros y. rewrite elem_of_union, elem_of_singleton, <-Hqueued. set_solver.
Qed.

(** The entries to deliver are those of waiting jobs. *)
Definition entry_waits (sub : list nat) (done : gset nat) (e : OutboxEntry) : Prop :=
  ∃ i idx step, waits sub done i idx ∧ Steps wf !! idx = Some step ∧ entry_job e = queue_job i idx step.

Lemma queue_ok_entries sub done es v (v' := enqueue_entries es v) : queue_ok sub done v →
  (∀ e, e ∈ es → entry_waits sub done e) →
  queue_ok sub done v' ∧ (∀ x, x ∈ ready v → x ∈ ready v') ∧ ∀ e, e ∈ es → Itoa (e_JobID e) ∈ ready v'.
Proof.
  subst v'. revert v. induction es as [|e es IH]; intros v Hv Hes.
  { split_and!; [done..|]. by intros e ?%not_elem_of_nil. }
  destruct (Hes e ltac:(set_solver)) as (i & idx & step & Hw & Hs & He).
  destruct (queue_ok_enqueue sub done v i idx step Hv Hw Hs) as (Hv1 & Hin & Hmono). rewrite <-He in *.
  destruct (IH _ Hv1 ltac:(set_solver)) as (Hv2 & Hmono2 & Hall).
  split_and!; [exact Hv2|intros x Hx; apply Hmono2, Hmono, Hx|].
  intros e' [->|Hin']%elem_of_cons; [|by apply Hall]. apply Hmono2.
  assert (e_JobID e = base + Z.of_nat i) as -> by (by apply (f_equal j_ID) in He). done.
Qed.

Lemma unprocessed_waits sub done d v e : ledger sub done d → flow sub done d v →
  e ∈ unprocessed_entries ∅ d → entry_waits sub done e.
Proof.
  intros Hl Hfl (o & j & Ho & Hp & _ & Hj & ->)%elem_of_unprocessed_entries.
  destruct (fl_outbox _ _ _ _ Hfl _ _ Ho Hp) as (i & idx & Hw & Hid).
  destruct (lg_jobs _ _ _ Hl _ _ (proj1 Hw)) as (step & Hs & Hj'). rewrite Hid, Hj' in Hj. injection Hj as <-.
  exists i, idx, step. split_and!; [done..|]. unfold state_of. rewrite bool_decide_false by apply Hw.
  unfold entry_job, queue_job. cbn [e_JobID e_Type e_Payload e_MaxRetries]. by rewrite Hid.
Qed.

Lemma ledger_marked now ids sub done d : ledger sub done d → ledger sub done (marked now ids d).
Proof. intros [Hok ? ? ? ? ?]. split; try done. by apply db_ok_update_outbox. Qed.

(** After the relay every waiting job is in the ready list. *)
Lemma relay_during {Q} `{QueueLaws Q} sub done (w : world Q) : qinv (w_q w) → reliable w →
  ledger sub done (w_db w) → flow sub done (w_db w) (qabs (w_q w)) →
  wp (relay ∅) w (λ _ w', qinv (w_q w') ∧ reliable w' ∧ runs (w_db w') = runs (w_db w) ∧
    ledger sub done (w_db w') ∧ flow sub done (w_db w') (qabs (w_q w')) ∧
    (∀ i idx, waits sub done i idx → Itoa (base + Z.of_nat i) ∈ ready (qabs (w_q w'))) ∧
    ∀ k o, outbox (w_db w') !! k = Some o → processed o = true).
Proof.
  intros Hq Hrel Hl Hfl. eapply wp_mono; [by apply relay_spec|]. intros r w' [Hdel Hr].
  destruct (Hr Hrel) as (_ & Hrel' & Hd & Hv). set (es := unprocessed_entries ∅ (w_db w)) in *.
  destruct (queue_ok_entries sub done es (qabs (w_q w))) as (Hqo & Hmono & Hall); [apply Hfl| |].
  { intros e He. by eapply unprocessed_waits. }
  fold (enqueue_entries es (qabs (w_q w))) in Hv. rewrite <-Hv in *.
  assert (ledger sub done (w_db w')) as Hl' by (rewrite Hd; by apply ledger_marked).
  assert (∀ k o, outbox (w_db w') !! k = Some o → processed o = true) as Hdone.
  { intros k o Ho. destruct (processed o) eqn:Hp; [done|exfalso].
    destruct (ok_outbox _ (lg_ok _ _ _ Hl') _ _ Ho) as [_ [j Hj]].
    assert (unprocessed_entries ∅ (w_db w') = []) as Hnil by (rewrite Hd; apply unprocessed_marked).
    apply (not_elem_of_nil (Build_OutboxEntry k (ob_job_id o) (type j) (payload j) (max_retries j))).
    rewrite <-Hnil. apply elem_of_unprocessed_entries. exists o, j. by split_and!. }
  assert (∀ i idx, waits sub done i idx → Itoa (base + Z.of_nat i) ∈ ready (qabs (w_q w'))) as Hin.
  { intros i idx Hw. destruct (fl_all _ _ _ _ Hfl _ _ Hw) as [Hx|(k & o & Ho & Hid & Hp)%has_unprocessed_spec]; [by apply Hmono|].
    destruct (ok_outbox _ (lg_ok _ _ _ Hl) _ _ Ho) as [_ [j Hj]]. rewrite <-Hid.
    apply (Hall (Build_OutboxEntry k (ob_job_id o) (type j) (payload j) (max_retries j))).
    apply elem_of_unprocessed_entries. exists o, j. by split_and!. }
  split_and!; try done; [apply (dl_inv _ _ Hdel)|by rewrite Hd|].
  split; [done| |intros i idx Hw; left; by eapply Hin].
  intros k o Ho Hp. by rewrite (Hdone _ _ Ho) in Hp.
Qed.

(** *** A job is completed *)
Lemma ledger_completes sub done d i idx : ledger sub done d → waits sub done i idx →
  let id := base + Z.of_nat i in
  ledger sub ({[idx]} ∪ done) (completed id (outputs run wf idx) (moved id Running 0 d)).
Proof.
  intros [Hok Hnd Hdone Hnext Hjobs Hmine] [Hi Hno] id. subst id. split; [|done| |done| |].
  - apply db_ok_update_jobs; [done|]. by apply db_ok_moved.
  - intros k [->%elem_of_singleton|Hk]%elem_of_union; [by eapply list_elem_of_lookup_2|auto].
  - intros k idx' Hk. destruct (Hjobs _ _ Hk) as (step & Hs & Hj). exists step. split; [done|].
    unfold completed. cbn [set_jobs jobs]. rewrite lookup_update_where.
    destruct (decide (k = i)) as [->|Hne].
    + rewrite Hi in Hk. injection Hk as <-. rewrite lookup_moved, Hj. cbn. unfold by_id. rewrite bool_decide_true by done.
      unfold state_of. rewrite bool_decide_false, bool_decide_true by set_solver. done.
    + rewrite lookup_moved_ne, Hj by lia. cbn. unfold by_id. rewrite bool_decide_false by lia. f_equal.
      unfold state_of.
      assert (idx' ≠ idx) as Hneq by (intros ->; apply Hne; by eapply NoDup_lookup).
      destruct (decide (idx' ∈ done)); [rewrite !bool_decide_true by set_solver|rewrite !bool_decide_false by set_solver]; done.
  - intros id' j. unfold completed. cbn [set_jobs jobs]. rewrite lookup_update_where, fmap_Some.
    intros (j1 & Hj1 & ->) Hr. unfold moved in Hj1. cbn [set_jobs jobs] in Hj1.
    rewrite lookup_update_where, fmap_Some in Hj1. destruct Hj1 as (j0 & Hj0 & ->).
    apply (Hmine id' j0 Hj0). revert Hr. unfold by_id. case_bool_decide; done.
Qed.

Lemma flow_completes sub done d v i idx l out : NoDup sub → flow sub done d v → waits sub done i idx →
  (∀ i idx, waits sub done i idx → Itoa (base + Z.of_nat i) ∈ ready v) →
  (∀ k o, outbox d !! k = Some o → processed o = true) → ready v = l ++ [Itoa (base + Z.of_nat i)] →
  flow sub ({[idx]} ∪ done) (completed (base + Z.of_nat i) out (moved (base + Z.of_nat i) Running 0 d))
    (q_settle (base + Z.of_nat i) (handed_out l (Itoa (base + Z.of_nat i)) v)).
Proof.
  intros Hsub [[Hfree Hnd Hready Hqueued] _ _] Hw Hin Hout Hl. set (x := Itoa (base + Z.of_nat i)) in *.
  rewrite Hl in Hnd. apply NoDup_app in Hnd as (Hnd & Hx & _).
  assert (∀ y, y ∈ l → y ≠ x) as Hne by (intros y Hy ->; by apply (Hx x Hy), list_elem_of_singleton).
  unfold q_settle, handed_out. fold x. split; [split|..]; cbn [ready processing delayed payloads queued].
  - rewrite Hfree. cbn [remove1]. by rewrite bool_decide_true.
  - done.
  - intros y Hy. destruct (Hready y) as (i' & k & step & [Hi' Hk] & Hs & -> & Hp); [rewrite Hl; set_solver|].
    exists i', k, step. split_and!; [split; [done|]|done|done|].
    + rewrite not_elem_of_union, not_elem_of_singleton. split; [|done]. intros ->.
      destruct Hw as [Hi _]. apply (Hne _ Hy). unfold x. by rewrite (NoDup_lookup _ _ _ _ Hsub Hi Hi').
    + rewrite lookup_delete_ne; [done|]. by apply not_eq_sym, Hne.
  - intros y. rewrite elem_of_difference, elem_of_singleton, Hqueued, Hl, elem_of_app, list_elem_of_singleton. naive_solver.
  - intros k o Ho Hp. exfalso. cbn in Ho. by rewrite (Hout _ _ Ho) in Hp.
  - intros i' k [Hi' Hk]. left. rewrite not_elem_of_union, not_elem_of_singleton in Hk. destruct Hk as [Hne' Hk].
    pose proof (Hin i' k (conj Hi' Hk)) as Hy. rewrite Hl, elem_of_app, list_elem_of_singleton in Hy.
    destruct Hy as [Hy|Hy]; [done|]. exfalso. by destruct (waits_id _ _ _ _ _ _ Hy (conj Hi' Hk) Hw).
Qed.

(** Some job waits while a step is not completed. *)
Lemma some_waits sub done d : well_formed (Steps wf) → ledger sub done d → closed sub done →
  (size done < length (Steps wf))%nat → ∃ i idx, waits sub done i idx.
Proof.
  intros Hwell Hl Hclosed Hsize.
  assert (∃ k, (k < length (Steps wf))%nat ∧ k ∉ done) as (k & Hk & Hno).
  { destruct (filter (λ k, k ∉ done) (seq 0 (length (Steps wf)))) as [|k l] eqn:Hf.
    - exfalso. assert ((list_to_set (seq 0 (length (Steps wf))) : gset nat) ⊆ done) as Hle%subseteq_size.
      { intros k Hk%elem_of_list_to_set. destruct (decide (k ∈ done)) as [|Hno]; [done|exfalso].
        apply (not_elem_of_nil k). rewrite <-Hf. by apply list_elem_of_filter. }
      rewrite size_list_to_set, length_seq in Hle by apply NoDup_seq. lia.
    - assert (k ∈ k :: l) as Hin by left. rewrite <-Hf in Hin.
      apply list_elem_of_filter in Hin as [Hno Hk%elem_of_seq]. exists k. split; [lia|done]. }
  destruct (unblocked_progress wf done k Hwell Hk Hno) as (idx & step & Hidx & Hs & Hdeps).
  assert (idx ∈ sub) as [i Hi]%list_elem_of_lookup; [|by exists i, idx].
  apply (Hclosed idx step Hs). intros dep (i & s & Hi & Hs' & Hid)%Hdeps%elem_of_ids_of. by exists i, s.
Qed.
End run.

(** ** Rounds

    The relay delivers, then the worker takes one turn, at any two times.  [run] says
    what the shell does with a command and its PREVIOUS_OUTPUT. *)
Definition at_time {Q} (t : Z) (w : world Q) : world Q := World (w_db w) (w_db_faults w) (w_q w) (w_q_faults w) t.

(** What the shell does with the job of a task. *)
Definition shell_of (run : string → string → shell_outcome) (payload : string) : shell_outcome :=
  match Unmarshal payload_fields payload_zero payload with
  | Ok p => run (p_Command p) (truncate_output (p_PreviousOutput p))
  | Err _ => run EmptyString EmptyString
  end.

Section rounds.
Context {Q : Type} `{Queue Q}.
Variable run : string → string → shell_outcome.
Variable json_text : string → string.
Variable overflowed : Z → Z.
Variable registry : Registry.
Variable encodes : WorkerPayload → bool.
Variable workerID : string.

Definition on_world_of (f : world Q → world Q) (se : session) : session :=
  Session (Server (f (sv_world (se_server se))) (sv_owner (se_server se)) (sv_lastSeen (se_server se)))
          (se_open se) (se_inFlight se) (se_worker se).

Definition round (se : session) (ts : Z * Z) : session :=
  let se0 := on_world_of (λ w, at_time ts.2 (relay ∅ (at_time ts.1 w)).2) se in
  let se1 := session_step json_text overflowed registry encodes workerID (SEReady Background 1) se0 in
  match se_worker se1 with
  | Executing task _ =>
      session_step json_text overflowed registry encodes workerID (SEExit (shell_of run (task_Payload task))) se1
  | _ => se1
  end.
Definition rounds (ts : list (Z * Z)) (se : session) : session := foldl round se ts.
End rounds.

(** A workflow the program can run to its end: it has steps, the columns hold it, and
    every step has a command. *)
Record runs_well (wf : Workflow) : Prop := {
  rw_steps : Steps wf ≠ [];
  rw_storable : storable_steps wf;
  rw_name : text_ok (Name wf) = true;
  rw_commands : ∀ step, step ∈ Steps wf → sanitize (Command step) ≠ EmptyString;
}.
(** Every command ends well with an output the database can store. *)
Definition succeeds (run : string → string → shell_outcome) : Prop :=
  ∀ command prev, sh_err (run command prev) = None ∧ text_ok (TrimSpace (sh_stdout (run command prev))) = true.

Section progress.
Context {R : Type} `{HR : RedisLaws R}.
Variables (name : string) (timeout : Z).
#[local] Instance run_Queue : Queue R := RedisQueue_ops (NewRedisQueue name timeout).
#[local] Instance run_QueueLaws : QueueLaws R := RedisQueue_laws name timeout.
Variable run : string → string → shell_outcome.
Variable json_text : string → string.
Variable overflowed : Z → Z.
Variable registry : Registry.
Variable encodes : WorkerPayload → bool.
Variable workerID : string.
Variable wf : Workflow.
Variables (runID base : Z).
Hypothesis Hget : Get registry (Name wf) = Some wf.
Hypothesis Hok : registry_ok registry.
Hypothesis Hwf : runs_well wf.
Hypothesis Hrun : succeeds run.
Hypothesis Hsends : sends_text encodes.
Hypothesis Hids : 0 < base ∧ base + Z.of_nat (length (Steps wf)) ≤ 2 ^ 31.

(** The run after [k] rounds. *)
Record progress (k : nat) (se : session (Q := R)) : Prop := {
  pg_between : between se;
  pg_inv : qinv (w_q (sv_world (se_server se)));
  pg_reliable : reliable (sv_world (se_server se));
  pg_run : runs (w_db (sv_world (se_server se))) !! runID = Some (run_after wf (Z.of_nat k));
  pg_steps : ∃ sub done, size done = k ∧ ledger run wf runID base sub done (w_db (sv_world (se_server se))) ∧
    flow run wf runID base sub done (w_db (sv_world (se_server se))) (qabs (w_q (sv_world (se_server se)))) ∧
    ((k < length (Steps wf))%nat → closed wf sub done);
}.

Lemma executes step idx : Steps wf !! idx = Some step →
  executeJob json_text (λ _ _, shell_of run (payload (step_job run wf runID idx step)))
    (payload (step_job run wf runID idx step)) = (true, EmptyString, outputs run wf idx).
Proof.
  intros Hs. destruct (Hok _ _ Hget) as (_ & _ & Hwell). rewrite (outputs_eq run wf idx step Hwell Hs).
  cbn [step_job payload new_step]. rewrite executeJob_step_payload. rewrite bool_decide_false
    by (by eapply (rw_commands _ Hwf), list_elem_of_lookup_2).
  unfold shell_of. rewrite Unmarshal_step_payload. cbn [p_Command p_PreviousOutput]. unfold shell_result.
  destruct (Hrun (sanitize (Command step)) (truncate_output (sanitize (input_of run wf idx)))) as [-> _]. reflexivity.
Qed.

Lemma carried_job i idx step : (i < length (Steps wf))%nat → Steps wf !! idx = Some step →
  carried (queue_job run wf runID base i idx step).
Proof.
  intros Hi Hs. pose proof (sw_retries wf (rw_storable _ Hwf) step (list_elem_of_lookup_2 _ _ _ Hs)) as Hret.
  pose proof (step_payload_ok (Command step) (input_of run wf idx)) as [Hp _]%andb_prop.
  split; cbn [queue_job j_ID j_RetryCount j_MaxRetries j_Type j_Payload]; [|apply in_int32_spec; lia|done|exact Hp|lia].
  unfold job_typed, queue_job. cbn [j_ID j_RetryCount j_MaxRetries]. unfold in_int64.
  rewrite !bool_decide_true by lia. done.
Qed.

Lemma ledger_submitted sub done d : ledger run wf runID base sub done d → (length sub ≤ length (Steps wf))%nat.
Proof.
  intros Hl. rewrite <-(length_seq (length (Steps wf)) 0). apply submseteq_length, NoDup_submseteq; [apply Hl|].
  intros idx (i & Hi)%list_elem_of_lookup. destruct (lg_jobs _ _ _ _ _ _ _ Hl _ _ Hi) as (step & Hs%lookup_lt_Some & _).
  apply elem_of_seq. lia.
Qed.

Lemma round_progress k se ts : progress k se → (k < length (Steps wf))%nat →
  progress (S k) (round run json_text overflowed registry encodes workerID se ts).
Proof.
  intros [Hbt Hq Hrel Hr (sub & done & Hsize & Hl & Hfl & Hclosed)] Hk. specialize (Hclosed Hk).
  destruct (Hok _ _ Hget) as (_ & Hnormal & Hwell).
  pose proof (relay_during run wf runID base (rw_storable _ Hwf) sub done (at_time ts.1 (sv_world (se_server se))) Hq Hrel Hl Hfl) as Hrelay.
  unfold wp in Hrelay. unfold round, on_world_of. set (w1 := (relay ∅ _).2) in *.
  destruct Hrelay as (Hq1 & Hrel1 & Hruns1 & Hl1 & Hfl1 & Hready & Hout).
  destruct (some_waits run wf runID base sub done (w_db w1) Hwell Hl1 Hclosed ltac:(lia)) as (i0 & idx0 & Hw0).
  destruct (ready (qabs (w_q w1))) as [|x l _] eqn:Hrd using rev_ind.
  { exfalso. apply (not_elem_of_nil (Itoa (base + Z.of_nat i0))). by eapply Hready. }
  rewrite <-Hrd in Hready.
  destruct (qo_ready _ _ _ _ _ _ _ (fl_queue _ _ _ _ _ _ _ _ Hfl1) x) as (i & idx & step & Hw & Hs & -> & Hp); [rewrite Hrd; set_solver|].
  destruct (lg_jobs _ _ _ _ _ _ _ Hl1 _ _ (proj1 Hw)) as (step' & Hs' & Hrow). rewrite Hs in Hs'. injection Hs' as <-.
  unfold state_of in Hrow. rewrite bool_decide_false in Hrow by apply Hw.
  assert (i < length (Steps wf))%nat as Hi.
  { pose proof (ledger_submitted _ _ _ Hl1). apply proj1, lookup_lt_Some in Hw. lia. }
  set (se0 := Session _ _ _ _).
  pose proof (worker_turn name timeout overflowed registry json_text encodes workerID (queue_job run wf runID base i idx step)
    l 1 (shell_of run (payload (step_job run wf runID idx step))) se0 (step_job run wf runID idx step) (outputs run wf idx)) as Hturn.
  cbv zeta in Hturn. change (turn_Queue name timeout) with run_Queue in Hturn.
  destruct Hturn as (Hex & Hbt2 & Hq2 & Hrel2 & Hv2 & Hd2); try done.
  { lia. }
  { by apply carried_job. }
  { by destruct Hbt. }
  { apply Hl1. }
  { by apply executes. }
  { rewrite (outputs_eq run wf idx step Hwell Hs). apply Hrun. }
  rewrite Hex. cbn [task_of task_Payload queue_job j_Payload].
  change (j_ID (queue_job run wf runID base i idx step)) with (base + Z.of_nat i) in *.
  change (j_RetryCount (queue_job run wf runID base i idx step)) with 0 in *.
  cbn [step_job new_step workflow_run_id] in Hd2. destruct Hd2 as (w2 & [Hf2 Hqf2] & Hdb2 & Hv2' & Hworld).
  pose proof (ledger_completes run wf runID base (rw_storable _ Hwf) sub done (w_db w1) i idx Hl1 Hw) as Hl2. cbv zeta in Hl2.
  pose proof (flow_completes run wf runID base (rw_storable _ Hwf) sub done (w_db w1) _ i idx l (outputs run wf idx) (lg_nodup _ _ _ _ _ _ _ Hl1)
    Hfl1 Hw Hready Hout Hrd) as Hfl2.
  unfold se0 in Hdb2, Hv2'. cbn [se_server sv_world] in Hdb2, Hv2'. cbn [at_time w_db w_q] in Hdb2, Hv2'.
  rewrite <-Hdb2 in Hl2, Hfl2. rewrite <-Hv2' in Hfl2.
  pose proof (Advance_during run wf runID base (rw_storable _ Hwf) registry Hget Hnormal (wf_unique _ Hwell)
    sub ({[idx]} ∪ done) (Z.of_nat k) w2 Hf2 Hl2 Hfl2) as Hadv.
  destruct Hadv as (sub' & Hl3 & Hfl3 & Hr3 & Hclosed3); [by rewrite Hdb2; cbn; rewrite Hruns1|lia|].
  rewrite <-Hworld in *. revert Hbt2 Hq2 Hrel2 Hv2 Hl3 Hfl3 Hr3. generalize (session_step json_text overflowed registry encodes workerID
       (SEExit (shell_of run (payload (step_job run wf runID idx step))))
       (session_step json_text overflowed registry encodes workerID (SEReady Background 1) se0)).
  intros se2 Hbt2 Hq2 Hrel2 Hv2 Hl3 Hfl3 Hr3. split; try done.
  - rewrite Hr3. do 2 f_equal. lia.
  - exists sub', ({[idx]} ∪ done). split_and!; [|done| |intros ?; apply Hclosed3; lia].
    + rewrite size_union, size_singleton by (destruct Hw; set_solver). lia.
    + rewrite Hv2. cbn [se0 se_server sv_world at_time w_q]. by rewrite <-Hv2'.
Qed.

Lemma rounds_progress ts k se : progress k se → (k + length ts ≤ length (Steps wf))%nat →
  progress (k + length ts) (rounds run json_text overflowed registry encodes workerID ts se).
Proof.
  unfold rounds. revert k se. induction ts as [|t ts IH]; intros k se Hse Hk; cbn [foldl length] in *.
  { by rewrite Nat.add_0_r. }
  rewrite Nat.add_succ_r, <-Nat.add_succ_l. apply IH; [|lia]. apply round_progress; [done|lia].
Qed.

(** A trigger gives the steps without dependencies their jobs. *)
Lemma trigger_progress (w : world R) : runID = next_run (w_db w) → base = next_job (w_db w) →
  db_ok (w_db w) → reliable w → qinv (w_q w) → qabs (w_q w) = q_empty →
  (∀ k o, outbox (w_db w) !! k = Some o → processed o = true) →
  wp (TriggerWorkflow registry (Name wf)) w (λ r w1, r = Ok runID ∧ progress 0 (session_start (Server w1 ∅ ∅))).
Proof.
  intros HrunID Hbase Hd [Hf Hqf] Hq Hempty Hout. destruct (Hok _ _ Hget) as (_ & Hnormal & Hwell).
  pose proof (sw_small wf (rw_storable _ Hwf)) as Hsmall.
  unfold TriggerWorkflow. rewrite Hget, Hnormal. apply wp_try_bind, CreateWorkflowRun_spec.
  2:{ intros fs Hno. destruct (Hno Hf) as [Hbad _]. rewrite (rw_name _ Hwf), (proj2 (in_int32_spec _)) in Hbad by lia. done. }
  2:{ intros fs d' Hne. by destruct Hne. }
  intros fs Hfs _. rewrite (Hfs Hf), <-HrunID. set (w0 := World _ _ _ _ _).
  assert (runs (w_db w0) !! runID = Some (run_after wf 0)) as Hr0.
  { cbn [w0 w_db run_created runs]. rewrite HrunID, lookup_insert_eq. unfold run_after. do 2 f_equal.
    rewrite bool_decide_true; [done|]. pose proof (rw_steps _ Hwf). destruct (Steps wf); [done|cbn; lia]. }
  assert (qabs (w_q w0) = q_empty) as Hv0 by exact Hempty.
  assert (during run wf runID base [] ∅ w0 w0) as Hstart.
  { apply during_start; [done|split|split; [split|..]].
    - by apply run_created_ok.
    - constructor.
    - set_solver.
    - cbn. lia.
    - by intros i idx ?%lookup_nil_Some || done.
    - intros id j Hj Hr. exfalso. rewrite HrunID in Hr. by eapply no_jobs_of_new_run.
    - by rewrite Hv0.
    - rewrite Hv0. constructor.
    - rewrite Hv0. by intros x ?%not_elem_of_nil.
    - rewrite Hv0. cbn. set_solver.
    - intros k o Ho Hp. cbn in Ho. rewrite (Hout _ _ Ho) in Hp. done.
    - by intros i idx [? _]. }
  apply wp_try_bind. eapply wp_mono; [eapply (submit_roots_during run wf runID base (rw_storable _ Hwf) (UnblockedSteps wf ∅ ∅) [] ∅ w0 w0)|].
  - exact Hstart.
  - apply NoDup_increasing, UnblockedSteps_sorted.
  - intros idx Hidx%root_unblocked. split; [apply not_elem_of_nil|done].
  - rewrite Hr0. by eexists.
  - intros r w1 [-> [Hf1 Hq1 Hqf1 Hruns1 Hl1 Hfl1]]. apply wp_ret. split; [done|].
    split; cbn [session_start se_server sv_world]; [by split|by rewrite Hq1|split; [done|by rewrite Hqf1]|by rewrite Hruns1|].
    eexists _, ∅. split_and!; [apply size_empty|exact Hl1|by rewrite Hq1|]. intros _ idx step Hs Hdeps.
    apply root_unblocked. exists step. split; [done|]. destruct (deps step) as [|dep ds]; [done|].
    destruct (Hdeps dep ltac:(left)) as (i & s & _ & _ & Hi). by apply not_elem_of_empty in Hi.
Qed.

(** At the end every step has its job, completed with its output. *)
Lemma progress_end se : progress (length (Steps wf)) se → let d := w_db (sv_world (se_server se)) in
  db_ok d ∧
  runs d !! runID = Some (RunRec (Name wf) RunCompleted (Z.of_nat (length (Steps wf))) (Z.of_nat (length (Steps wf)))) ∧
  (∀ idx step, Steps wf !! idx = Some step → ∃ id, jobs d !! id =
     Some (set_output (outputs run wf idx) (set_status Completed (step_job run wf runID idx step)))) ∧
  ∀ id j, jobs d !! id = Some j → workflow_run_id j = Some runID →
    ∃ idx, (idx < length (Steps wf))%nat ∧ step_index j = Some (Z.of_nat idx).
Proof.
  intros [_ _ _ Hr (sub & done & Hsize & Hl & _)] d. split_and!; [apply Hl|..].
  - unfold d. rewrite Hr. unfold run_after. by rewrite bool_decide_false by lia.
  - intros idx step Hs.
    assert (idx ∈ done) as Hdone.
    { assert (done ⊆ list_to_set (seq 0 (length (Steps wf)))) as Hle.
      { intros k Hk%(lg_done _ _ _ _ _ _ _ Hl). apply list_elem_of_lookup in Hk as (i & Hi).
        destruct (lg_jobs _ _ _ _ _ _ _ Hl _ _ Hi) as (st & Hst%lookup_lt_Some & _).
        apply elem_of_list_to_set, elem_of_seq. lia. }
      apply set_subseteq_size_eq in Hle.
      - rewrite Hle. apply elem_of_list_to_set, elem_of_seq. apply lookup_lt_Some in Hs. lia.
      - rewrite size_list_to_set, length_seq by apply NoDup_seq. lia. }
    apply (lg_done _ _ _ _ _ _ _ Hl) in Hdone as Hin. apply list_elem_of_lookup in Hin as (i & Hi).
    destruct (lg_jobs _ _ _ _ _ _ _ Hl _ _ Hi) as (st & Hst & Hj). rewrite Hs in Hst. injection Hst as <-.
    eexists. fold d in Hj. rewrite Hj. unfold state_of. by rewrite bool_decide_true.
  - intros id j Hj Hrj. destruct (lg_mine _ _ _ _ _ _ _ Hl id j Hj Hrj) as (i & idx & Hi & ->).
    destruct (lg_jobs _ _ _ _ _ _ _ Hl _ _ Hi) as (st & Hst & Hj'). fold d in Hj'. rewrite Hj in Hj'. injection Hj' as ->.
    exists idx. split; [by eapply lookup_lt_Some|]. by apply state_of_step.
Qed.
End progress.

(** ** Properties *)

(** C2: a triggered workflow runs to its end: with a queue that is empty, an outbox that
    has been delivered, no failures, and commands that end well, after one round (a pass
    of the relay and a turn of a worker, at any times) for each of its steps the run is
    completed, and each step has exactly one job, completed with the output that
    [outputs] defines from the commands: that of its command with the output of its only
    dependency, or with none.  The run has no other jobs. *)
Theorem triggered_workflow_completes R `(HR : RedisLaws R) name timeout overflowed registry json_text encodes workerID
    run wf (w : world R) ts (Q := RedisQueue_ops (NewRedisQueue name timeout) : Queue R)
    (Hget : Get registry (Name wf) = Some wf) (Hreg : registry_ok registry) (Hwf : runs_well wf)
    (Hrun : succeeds run) (Hsends : sends_text encodes)
    (Hd : db_ok (w_db w)) (Hrel : reliable w) (Hq : qinv (w_q w)) (Hempty : qabs (w_q w) = q_empty)
    (Hout : ∀ k o, outbox (w_db w) !! k = Some o → processed o = true)
    (Hids : next_job (w_db w) + Z.of_nat (length (Steps wf)) ≤ 2 ^ 31) (Hts : length ts = length (Steps wf)) :
  wp (TriggerWorkflow registry (Name wf)) w (λ r w1, ∃ runID, r = Ok runID ∧
    let n := Z.of_nat (length (Steps wf)) in
    let d := w_db (sv_world (se_server
      (rounds run json_text overflowed registry encodes workerID ts (session_start (Server w1 ∅ ∅))))) in
    runs d !! runID = Some (RunRec (Name wf) RunCompleted n n) ∧
    (∀ idx step, Steps wf !! idx = Some step →
       outputs run wf idx = output_with run (Command step) (input_of run wf idx) ∧
       ∃ id j, jobs d !! id = Some j ∧ workflow_run_id j = Some runID ∧ step_index j = Some (Z.of_nat idx) ∧
         status j = Completed ∧ output j = Some (outputs run wf idx) ∧
         ∀ id' j', jobs d !! id' = Some j' → workflow_run_id j' = Some runID →
           step_index j' = Some (Z.of_nat idx) → id' = id) ∧
    ∀ id j, jobs d !! id = Some j → workflow_run_id j = Some runID →
      ∃ idx, (idx < length (Steps wf))%nat ∧ step_index j = Some (Z.of_nat idx)).
Proof.
  pose proof (ok_next _ Hd) as (Hpos & _). destruct (Hreg _ _ Hget) as (_ & _ & Hwell).
  eapply wp_mono; [by apply (trigger_progress name timeout run json_text overflowed registry encodes wf (next_run (w_db w)) (next_job (w_db w)))|].
  intros r w1 [-> Hstart]. eexists. split; [done|].
  pose proof (rounds_progress name timeout run json_text overflowed registry encodes workerID wf (next_run (w_db w))
    (next_job (w_db w)) Hget Hreg Hwf Hrun Hsends (conj Hpos Hids) ts 0 _ Hstart) as Hend.
  rewrite Hts in Hend. specialize (Hend (le_n _)). cbn [Nat.add] in Hend.
  apply progress_end in Hend as (Hok & Hr & Hjobs & Hmine). split_and!; [done| |done].
  intros idx step Hs. split; [by apply outputs_eq|]. destruct (Hjobs idx step Hs) as [id Hj].
  exists id. eexists. split_and!; [exact Hj|done..|]. intros id' j' Hj' Hr' Hs'. by eapply (ok_steps _ Hok).
Qed.

(** ** Witnesses *)
#[local] Instance runs_Queue : Queue Store := RedisQueue_ops jobs_queue.
#[local] Instance runs_QueueLaws : QueueLaws Store := RedisQueue_laws "jobs" 1000000000.

Lemma backup_registry_ok : registry_ok backup_registry.
Proof.
  destruct (LoadFromDir_spec (λ _, Some parallel_backup) NewRegistry
    (DirEntries [{| entry_name := "backup.yaml"; entry_isDir := false; entry_data := Some EmptyString |}]))
    as (a & r & Hl & Hr); [by apply map_Forall_empty|].
  assert (r = backup_registry) as <-; [|done].
  enough ((LoadFromDir (λ _, Some parallel_backup) NewRegistry
    (DirEntries [{| entry_name := "backup.yaml"; entry_isDir := false; entry_data := Some EmptyString |}])).2 = backup_registry)
    as Heq by (by rewrite Hl in Heq).
  vm_compute. reflexivity.
Qed.

(** A shell that prints its previous output and its command. *)
Definition tracing (command prev : string) : shell_outcome :=
  {| sh_stdout := prev +:+ command +:+ newline; sh_stderr := EmptyString; sh_err := None |}.
Example backup_outputs : outputs tracing (Normalize parallel_backup) <$> [0; 1; 2; 3]%nat =
  ["backup-db"; "backup-redis"; "compress"; "compressupload"].
Proof. vm_compute. reflexivity. Qed.

(** One whose commands all end well. *)
Definition steady (_ _ : string) : shell_outcome :=
  {| sh_stdout := "done" +:+ newline; sh_stderr := EmptyString; sh_err := None |}.
Definition fresh_world : world Store := World db_empty [] empty_store [] 0.

Lemma backup_runs_well : runs_well (Normalize parallel_backup).
Proof.
  split.
  - done.
  - split; [vm_compute; reflexivity|]. apply Forall_forall, (bool_decide_eq_true_1 _). vm_compute. reflexivity.
  - vm_compute. reflexivity.
  - apply Forall_forall, (bool_decide_eq_true_1 _). vm_compute. reflexivity.
Qed.

Lemma triggered_workflow_completes_witness :
  wp (TriggerWorkflow backup_registry "parallel_backup") fresh_world (λ r w1, ∃ runID, r = Ok runID ∧
    runs (w_db (sv_world (se_server (rounds steady no_json_text no_overflow backup_registry utf8_only "w"
      [(1, 2); (3, 3); (4, 9); (10, 11)] (session_start (Server w1 ∅ ∅)))))) !! runID =
    Some (RunRec "parallel_backup" RunCompleted 4 4)).
Proof.
  eapply wp_mono; [apply (triggered_workflow_completes Store Store_RedisLaws "jobs" 1000000000 no_overflow backup_registry
    no_json_text utf8_only "w" steady (Normalize parallel_backup) fresh_world [(1, 2); (3, 3); (4, 9); (10, 11)])|].
  - vm_compute. reflexivity.
  - exact backup_registry_ok.
  - exact backup_runs_well.
  - intros command prev. split; vm_compute; reflexivity.
  - split; [reflexivity|]. intros res Hres. exact Hres.
  - exact db_ok_empty.
  - split; reflexivity.
  - by split.
  - reflexivity.
  - intros k o Hk. by apply (lookup_empty_Some (M := gmap Z) k o) in Hk.
  - vm_compute. discriminate.
  - reflexivity.
  - intros r w1 (runID & Hr & Hrun & _). exists runID. split; [exact Hr|exact Hrun].
Defined.
