(* ===== verification/Cli.v ===== *)
(** * The command line tool

    Models cmd/cli/main.go: the requests of every command of orq, what it makes of the
    answers, what it prints and how it exits.  HTTP is a parameter, a function on some
    state; the last part puts the REST API (file Api) behind it. *)
From Stdlib Require Import Ascii.
From stdpp Require Import gmap strings list fin_maps pretty.
From S2P Require Import Prelude Text Json Redis Queue RedisQueue Db Outbox Service Strings Auth Api.
From S2P Require Import Workflow.
From S2P Require Import Server.
From S2P Require Import Worker.
Open Scope Z_scope.

(** A request; the header Authorization is empty when it is not set. *)
Record HttpRequest : Type := { h_method : string; h_url : string; h_auth : string; h_body : option string }.

(** What a run of the program leaves: its output and its exit code. *)
Record exit_state : Type := { x_stdout : string; x_stderr : string; x_code : Z }.
Definition line (s : string) : string := s +:+ newline.
Definition out (s : string) : exit_state := {| x_stdout := s; x_stderr := EmptyString; x_code := 0 |}.
Definition fail_out (s : string) : exit_state := {| x_stdout := s; x_stderr := EmptyString; x_code := 1 |}.
Definition fail_err (s : string) : exit_state := {| x_stdout := EmptyString; x_stderr := s; x_code := 1 |}.

Definition baseURL (env : string → string) : string :=
  let addr := if bool_decide (env "HTTP_ADDR" = EmptyString) then "localhost:8080" else env "HTTP_ADDR" in
  let addr := if HasPrefix addr ":" then "localhost" +:+ addr else addr in
  "http://" +:+ addr.
Definition apiKey (env : string → string) : string := env "ORQESTRA_API_KEY".

Definition usage : string :=
  line "usage:" +:+
  line "  orq submit [--type=<type>] [--command=<shell>] [--payload=<json>] [--retries=<n>]" +:+
  line "  orq status <job-id>" +:+
  line "  orq list [--status=<status>]" +:+
  line "  orq cancel <job-id>" +:+
  line "  orq workflow list" +:+
  line "  orq workflow trigger <name>" +:+
  line "  orq workflow runs" +:+
  line "  orq workflow status <run-id>" +:+
  line "  orq workflow cancel <run-id>".

(** ** Answers

    A value decoded into [any] keeps its JSON shape; numbers become float64, so one that
    is out of range is a decoding error wherever it is. *)
Fixpoint numbers_ok (v : json) : bool :=
  match v with
  | JNum s => bool_decide (is_Some (ParseFloat s))
  | JArr l => forallb numbers_ok l
  | JObj l => forallb (λ '(_, v), numbers_ok v) l
  | _ => true
  end.
Definition decode_object (body : string) : option (list (string * json)) :=
  v ← Decode body;
  if negb (numbers_ok v) then None else
  match v with JObj ms => Some ms | JNull => Some [] | _ => None end.
Definition decode_array (body : string) : option (list json) :=
  v ← Decode body;
  if negb (numbers_ok v) then None else
  match v with JArr l => Some l | JNull => Some [] | _ => None end.

(** [m[key]] of a decoded object: the last member of the name. *)
Definition member (m : list (string * json)) (key : string) : option json :=
  snd <$> last (filter (λ kv, kv.1 = key) m).
(** [m, _ := raw.(map[string]any)] *)
Definition as_object (v : json) : list (string * json) := match v with JObj ms => ms | _ => [] end.

Section cli.
Context {S : Type}.
Variable http : HttpRequest → M S (result (Z * string)).
(** [Error()] of the errors of net/http and of encoding/json, and Go's conversions. *)
Variable http_text : goerr → string.
Variable decode_text : string → string.
Variable overflowed : float64 → Z.
Variable isPrint : string → bool.
Variable env : string → string.

Definition intField (m : list (string * json)) (key : string) : Z :=
  match member m key with
  | Some (JNum s) => default 0 (int_of_float overflowed <$> ParseFloat s)
  | _ => 0
  end.
Definition strField (m : list (string * json)) (key : string) : string :=
  match member m key with Some (JStr s) => s | _ => EmptyString end.

Definition auth_header : string :=
  if bool_decide (apiKey env = EmptyString) then EmptyString else "Bearer " +:+ apiKey env.

(** What the two functions make of an answer; [inl] is an error, by its text. *)
Definition read_object (r : result (Z * string)) : string + list (string * json) :=
  match r with
  | Err e => inl (http_text e)
  | Ok (status, text) =>
      match decode_object text with
      | None => inl (decode_text text)
      | Some m =>
          if 400 <=? status then
            match member m "error" with
            | Some (JStr msg) => inl msg
            | _ => inl ("HTTP " +:+ Itoa status)
            end
          else inr m
      end
  end.
Definition read_array (r : result (Z * string)) : string + list json :=
  match r with
  | Err e => inl (http_text e)
  | Ok (status, text) =>
      match decode_array text with
      | None => inl (decode_text text)
      | Some l => if 400 <=? status then inl ("HTTP " +:+ Itoa status) else inr l
      end
  end.
Definition doJSON (method url : string) (body : option json) : M S (string + list (string * json)) :=
  r ← http {| h_method := method; h_url := url; h_auth := auth_header; h_body := Marshal <$> body |};
  mret (read_object r).
Definition doJSONArray (method url : string) : M S (string + list json) :=
  r ← http {| h_method := method; h_url := url; h_auth := auth_header; h_body := None |};
  mret (read_array r).

(** ** Printing *)
Definition job_line (m : list (string * json)) : string :=
  line ("job " +:+ Itoa (intField m "id") +:+ " (" +:+ strField m "type" +:+ "): status=" +:+ strField m "status" +:+
        " retries=" +:+ Itoa (intField m "retry_count") +:+ "/" +:+ Itoa (intField m "max_retries")).
Definition run_line (m : list (string * json)) : string :=
  line ("run " +:+ Itoa (intField m "id") +:+ " (" +:+ strField m "workflow_name" +:+ "): status=" +:+ strField m "status" +:+
        " step=" +:+ Itoa (intField m "current_step") +:+ "/" +:+ Itoa (intField m "total_steps")).
Definition workflow_line (m : list (string * json)) : string :=
  line (pad_right 20 (strField m "name") +:+ " (" +:+ Itoa (intField m "step_count") +:+ " steps)" +:+
        (if bool_decide (strField m "schedule" = EmptyString) then EmptyString
         else ", schedule: " +:+ strField m "schedule")).
Definition lines (f : list (string * json) → string) (l : list json) : string :=
  foldr (λ v acc, f (as_object v) +:+ acc) EmptyString l.

(** ** Commands *)
Definition base : string := baseURL env.
Definition submit_flags : list (string * flag_kind) :=
  [("retries", FInt); ("type", FString); ("command", FString); ("payload", FString)].

Definition cmd_submit (args : list string) : M S exit_state :=
  match parse_flags submit_flags args with
  | inl code => mret {| x_stdout := EmptyString; x_stderr := EmptyString; x_code := code |}   (* usage on stderr *)
  | inr (set, _) =>
      let retries := flag_int set "retries" 3 in
      let jobType := flag_string set "type" "generic" in
      let command := flag_string set "command" EmptyString in
      let payload := flag_string set "payload" "{}" in
      let '(jobType, payload) :=
        if bool_decide (command = EmptyString) then (jobType, payload)
        else (if bool_decide (jobType = "generic") then "shell" else jobType,
              Marshal (JObj [("command", JStr (TrimQuotes command))])) in
      r ← doJSON "POST" (base +:+ "/api/v1/jobs")
            (Some (JObj [("max_retries", num retries); ("payload", JStr payload); ("type", JStr jobType)]));
      mret match r with
           | inl err => fail_out (line ("error: " +:+ err))
           | inr m => out (line ("job submitted, id: " +:+ Itoa (intField m "job_id") +:+ " (type=" +:+ jobType +:+ ")"))
           end
  end.

Definition cmd_status (args : list string) : M S exit_state :=
  match args with
  | [] => mret (fail_out (line "error: missing job id" +:+ usage))
  | a :: _ =>
      match Atoi a with
      | None => mret (fail_out (line "error: job id must be a number"))
      | Some id =>
          r ← doJSON "GET" (base +:+ "/api/v1/jobs/" +:+ Itoa id) None;
          mret match r with
               | inl err => fail_out (line ("error: " +:+ err))
               | inr m => out (job_line m +:+
                   (if bool_decide (strField m "output" = EmptyString) then EmptyString
                    else line "output:" +:+ line (strField m "output")))
               end
      end
  end.

Definition cmd_list (args : list string) : M S exit_state :=
  match parse_flags [("status", FString)] args with
  | inl code => mret {| x_stdout := EmptyString; x_stderr := EmptyString; x_code := code |}
  | inr (set, _) =>
      let st := flag_string set "status" EmptyString in
      let url := base +:+ "/api/v1/jobs" +:+ (if bool_decide (st = EmptyString) then EmptyString else "?status=" +:+ st) in
      r ← doJSONArray "GET" url;
      mret match r with inl err => fail_err (line ("error: " +:+ err)) | inr l => out (lines job_line l) end
  end.

Definition cmd_cancel (args : list string) : M S exit_state :=
  match args with
  | [] => mret (fail_out (line "error: missing job id" +:+ usage))
  | a :: _ =>
      match Atoi a with
      | None => mret (fail_out (line "error: job id must be a number"))
      | Some id =>
          r ← doJSON "POST" (base +:+ "/api/v1/jobs/" +:+ Itoa id +:+ "/cancel") None;
          mret match r with
               | inl err => fail_err (line ("error: " +:+ err))
               | inr _ => out (line ("job " +:+ Itoa id +:+ " cancelled"))
               end
      end
  end.

Definition workflow_list : M S exit_state :=
  r ← doJSONArray "GET" (base +:+ "/api/v1/workflows");
  mret match r with inl err => fail_out (line ("error: " +:+ err)) | inr l => out (lines workflow_line l) end.

Definition workflow_trigger (args : list string) : M S exit_state :=
  match args with
  | [] => mret (fail_out (line "error: missing workflow name"))
  | name :: _ =>
      r ← doJSON "POST" (base +:+ "/api/v1/workflows/" +:+ name +:+ "/trigger") None;
      mret match r with
           | inl err => fail_out (line ("error: " +:+ err))
           | inr m => out (line ("workflow triggered, run id: " +:+ Itoa (intField m "run_id")))
           end
  end.

Definition workflow_runs : M S exit_state :=
  r ← doJSONArray "GET" (base +:+ "/api/v1/workflows/runs");
  mret match r with inl err => fail_err (line ("error: " +:+ err)) | inr l => out (lines run_line l) end.

Definition workflow_status (args : list string) : M S exit_state :=
  match args with
  | [] => mret (fail_out (line "error: missing run id"))
  | a :: _ =>
      match Atoi a with
      | None => mret (fail_out (line "error: run id must be a number"))
      | Some id =>
          r ← doJSON "GET" (base +:+ "/api/v1/workflows/runs/" +:+ Itoa id) None;
          mret match r with
               | inl err => fail_out (line ("error: " +:+ err))
               | inr m => out (run_line m)
               end
      end
  end.

Definition workflow_cancel (args : list string) : M S exit_state :=
  match args with
  | [] => mret (fail_out (line "error: missing run id"))
  | a :: _ =>
      match Atoi a with
      | None => mret (fail_out (line "error: run id must be a number"))
      | Some id =>
          r ← doJSON "POST" (base +:+ "/api/v1/workflows/runs/" +:+ Itoa id +:+ "/cancel") None;
          mret match r with
               | inl err => fail_err (line ("error: " +:+ err))
               | inr _ => out (line ("workflow run " +:+ Itoa id +:+ " cancelled"))
               end
      end
  end.

Definition cmd_workflow (args : list string) : M S exit_state :=
  match args with
  | [] => mret (fail_out (line "error: missing workflow subcommand (list, trigger, status)" +:+ usage))
  | sub :: args =>
      if bool_decide (sub = "list") then workflow_list
      else if bool_decide (sub = "trigger") then workflow_trigger args
      else if bool_decide (sub = "runs") then workflow_runs
      else if bool_decide (sub = "status") then workflow_status args
      else if bool_decide (sub = "cancel") then workflow_cancel args
      else mret (fail_out (line ("error: unknown workflow subcommand " +:+ Quote isPrint sub) +:+ usage))
  end.

(** [args] are the arguments after the name of the program. *)
Definition main (args : list string) : M S exit_state :=
  match args with
  | [] => mret (fail_out usage)
  | cmd :: args =>
      if bool_decide (cmd = "submit") then cmd_submit args
      else if bool_decide (cmd = "status") then cmd_status args
      else if bool_decide (cmd = "list") then cmd_list args
      else if bool_decide (cmd = "cancel") then cmd_cancel args
      else if bool_decide (cmd = "workflow") then cmd_workflow args
      else mret (fail_out (line ("error: unknown command " +:+ Quote isPrint cmd) +:+ usage))
  end.
End cli.

(** ** Lemmas: one request *)
Section requests.
Context {S : Type}.
Variable http : HttpRequest → M S (result (Z * string)).
Variable http_text : goerr → string.
Variable decode_text : string → string.
Variable overflowed : float64 → Z.
Variable isPrint : string → bool.
Variable env : string → string.

(** What the commands of the usage text ask of the API: the method and the path below
    the base URL. *)
Inductive endpoint : list string → string → string → Prop :=
  | ep_submit args set rest : parse_flags submit_flags args = inr (set, rest) →
      endpoint ("submit" :: args) "POST" "/api/v1/jobs"
  | ep_status a args id : Atoi a = Some id → endpoint ("status" :: a :: args) "GET" ("/api/v1/jobs/" +:+ Itoa id)
  | ep_list_all args set rest : parse_flags [("status", FString)] args = inr (set, rest) →
      flag_string set "status" EmptyString = EmptyString →
      endpoint ("list" :: args) "GET" ("/api/v1/jobs" +:+ EmptyString)
  | ep_list args set rest st : parse_flags [("status", FString)] args = inr (set, rest) →
      flag_string set "status" EmptyString = st → st ≠ EmptyString →
      endpoint ("list" :: args) "GET" ("/api/v1/jobs" +:+ "?status=" +:+ st)
  | ep_cancel a args id : Atoi a = Some id →
      endpoint ("cancel" :: a :: args) "POST" ("/api/v1/jobs/" +:+ Itoa id +:+ "/cancel")
  | ep_workflows args : endpoint ("workflow" :: "list" :: args) "GET" "/api/v1/workflows"
  | ep_trigger name args :
      endpoint ("workflow" :: "trigger" :: name :: args) "POST" ("/api/v1/workflows/" +:+ name +:+ "/trigger")
  | ep_runs args : endpoint ("workflow" :: "runs" :: args) "GET" "/api/v1/workflows/runs"
  | ep_run a args id : Atoi a = Some id →
      endpoint ("workflow" :: "status" :: a :: args) "GET" ("/api/v1/workflows/runs/" +:+ Itoa id)
  | ep_cancel_run a args id : Atoi a = Some id →
      endpoint ("workflow" :: "cancel" :: a :: args) "POST" ("/api/v1/workflows/runs/" +:+ Itoa id +:+ "/cancel").
Definition no_endpoint (args : list string) : Prop := ∀ method path, ¬ endpoint args method path.

(** The answer of a request is one a command can use. *)
Definition accepted (r : result (Z * string)) : Prop :=
  ∃ code text, r = Ok (code, text) ∧ code < 400 ∧ (is_Some (decode_object text) ∨ is_Some (decode_array text)).
(** A command that makes one request, its own, with the key, and exits 0 only if it was
    accepted. *)
Definition one_request (args : list string) (s : S) (x : exit_state) (s' : S) : Prop :=
  ∃ rq path, endpoint args (h_method rq) path ∧ h_url rq = base env +:+ path ∧
    h_auth rq = auth_header env ∧ s' = (http rq s).2 ∧
    (x_code x = 0 ∧ accepted (http rq s).1 ∨ x_code x = 1 ∧ x_stdout x +:+ x_stderr x ≠ EmptyString).
(** A command line that is refused: no request. *)
Definition refused (args : list string) (s : S) (x : exit_state) (s' : S) : Prop :=
  s' = s ∧ no_endpoint args ∧ x_code x = 1 ∧ x_stdout x ≠ EmptyString.

Lemma line_ne pre s : pre ≠ EmptyString → line (pre +:+ s) ≠ EmptyString.
Proof. by destruct pre. Qed.

Lemma wp_doJSON method url body s (P : string + list (string * json) → S → Prop) :
  (∀ rq s' r, h_method rq = method → h_url rq = url → h_auth rq = auth_header env → s' = (http rq s).2 →
     (∀ m, r = inr m → accepted (http rq s).1) → P r s') →
  wp (doJSON http http_text decode_text env method url body) s P.
Proof.
  intros HP. unfold doJSON, read_object. set (rq := Build_HttpRequest _ _ _ _).
  unfold wp, mbind, M_bind. destruct (http rq s) as [r s'] eqn:Hr. cbn [fst snd mret M_ret].
  apply (HP rq); [done..|by rewrite Hr|]. rewrite Hr. cbn [fst].
  destruct r as [[code text]|e]; [|done]. destruct (decode_object text) as [m|] eqn:Hm; [|done].
  destruct (Z.leb_spec 400 code) as [?|Hc]; [by destruct (member m "error") as [[]|]|].
  intros m' _. exists code, text. split_and!; [done..|]. left. by rewrite Hm.
Qed.
Lemma wp_doJSONArray method url s (P : string + list json → S → Prop) :
  (∀ rq s' r, h_method rq = method → h_url rq = url → h_auth rq = auth_header env → s' = (http rq s).2 →
     (∀ l, r = inr l → accepted (http rq s).1) → P r s') →
  wp (doJSONArray http http_text decode_text env method url) s P.
Proof.
  intros HP. unfold doJSONArray, read_array. set (rq := Build_HttpRequest _ _ _ _).
  unfold wp, mbind, M_bind. destruct (http rq s) as [r s'] eqn:Hr. cbn [fst snd mret M_ret].
  apply (HP rq); [done..|by rewrite Hr|]. rewrite Hr. cbn [fst].
  destruct r as [[code text]|e]; [|done]. destruct (decode_array text) as [l|] eqn:Hl; [|done].
  destruct (Z.leb_spec 400 code) as [?|Hc]; [done|].
  intros l' _. exists code, text. split_and!; [done..|]. right. by rewrite Hl.
Qed.

(** Every command is one request followed by printing. *)
Lemma one_doJSON args method path body s (f : string + list (string * json) → exit_state) :
  (∀ err, x_code (f (inl err)) = 1 ∧ x_stdout (f (inl err)) +:+ x_stderr (f (inl err)) ≠ EmptyString) →
  (∀ m, x_code (f (inr m)) = 0) →
  endpoint args method path →
  wp (r ← doJSON http http_text decode_text env method (base env +:+ path) body; mret (f r)) s
    (λ x s', one_request args s x s').
Proof.
  intros Herr Hok Hep. apply wp_answer, wp_doJSON. intros rq s' r <- Hurl Hauth Hs Hacc.
  exists rq, path. split_and!; [done..|]. destruct r as [err|m].
  - right. apply Herr.
  - left. split; [apply Hok|by eapply Hacc].
Qed.
Lemma one_doJSONArray args method path s (f : string + list json → exit_state) :
  (∀ err, x_code (f (inl err)) = 1 ∧ x_stdout (f (inl err)) +:+ x_stderr (f (inl err)) ≠ EmptyString) →
  (∀ l, x_code (f (inr l)) = 0) →
  endpoint args method path →
  wp (r ← doJSONArray http http_text decode_text env method (base env +:+ path); mret (f r)) s
    (λ x s', one_request args s x s').
Proof.
  intros Herr Hok Hep. apply wp_answer, wp_doJSONArray. intros rq s' r <- Hurl Hauth Hs Hacc.
  exists rq, path. split_and!; [done..|]. destruct r as [err|l].
  - right. apply Herr.
  - left. split; [apply Hok|by eapply Hacc].
Qed.
End requests.

(** A command line asks for the help of a flag set, or breaks its syntax. *)
Definition flags_exit (args : list string) (code : Z) : Prop :=
  ∃ cmd rest, args = cmd :: rest ∧ (cmd = "submit" ∨ cmd = "list") ∧ (code = 2 ∨ (code = 0 ∧ asks_help rest)).

Section commands.
Context {S : Type}.
Variable http : HttpRequest → M S (result (Z * string)).
Variable http_text : goerr → string.
Variable decode_text : string → string.
Variable overflowed : float64 → Z.
Variable isPrint : string → bool.
Variable env : string → string.

Variable all : list string.

Definition one_or_refused (s : S) (x : exit_state) (s' : S) : Prop :=
  one_request http env all s x s' ∨ refused all s x s'.

Lemma wp_refused (s : S) msg : msg ≠ EmptyString → no_endpoint all → wp (mret (fail_out msg)) s (one_or_refused s).
Proof. intros Hm Hno. apply wp_ret. right. by split_and!. Qed.
Lemma wp_one (m : M S exit_state) s : wp m s (one_request http env all s) → wp m s (one_or_refused s).
Proof. intros Hm. eapply wp_mono; [done|]. intros x s' ?. by left. Qed.

(** A command with one numeric argument. *)
Lemma wp_with_id args missing bad (f : Z → M S exit_state) s :
  missing ≠ EmptyString → bad ≠ EmptyString →
  ((∀ a rest, args = a :: rest → Atoi a = None) → no_endpoint all) →
  (∀ a rest id, args = a :: rest → Atoi a = Some id → wp (f id) s (one_or_refused s)) →
  wp (match args with
      | [] => mret (fail_out missing)
      | a :: _ => match Atoi a with None => mret (fail_out bad) | Some id => f id end
      end) s (one_or_refused s).
Proof.
  intros Hm Hb Hno Hf. destruct args as [|a args]; [apply wp_refused; [done|by apply Hno]|].
  destruct (Atoi a) eqn:Ha; [by eapply Hf|apply wp_refused; [done|]]. apply Hno. by intros ? ? [= <- <-].
Qed.
End commands.

Ltac one_call :=
  first [apply wp_one, one_doJSON | apply wp_one, one_doJSONArray];
  [intros err; by split|intros; reflexivity|by econstructor].
(** No rule of [endpoint] fits the command line. *)
Ltac no_rule := intros method path Hep; inversion Hep; subst; first [congruence | naive_solver].

Section one.
Context {S : Type}.
Variable http : HttpRequest → M S (result (Z * string)).
Variable http_text : goerr → string.
Variable decode_text : string → string.
Variable overflowed : float64 → Z.
Variable isPrint : string → bool.
Variable env : string → string.

Lemma workflow_one args s : wp (cmd_workflow http http_text decode_text overflowed isPrint env args) s
  (one_or_refused http env ("workflow" :: args) s).
Proof.
  unfold cmd_workflow. destruct args as [|sub args]; [apply wp_refused; [done|no_rule]|].
  repeat case_bool_decide; subst; [one_call| |one_call| | |apply wp_refused; [done|no_rule]].
  - unfold workflow_trigger. destruct args as [|name args]; [apply wp_refused; [done|no_rule]|one_call].
  - apply wp_with_id; [done..|intros Hno; no_rule|]. intros a rest id -> Ha. one_call.
  - apply wp_with_id; [done..|intros Hno; no_rule|]. intros a rest id -> Ha. one_call.
Qed.

Lemma main_one args s :
  wp (main http http_text decode_text overflowed isPrint env args) s (λ x s',
    one_or_refused http env args s x s' ∨ (s' = s ∧ no_endpoint args ∧ flags_exit args (x_code x))).
Proof.
  assert (∀ m : M S exit_state, wp m s (one_or_refused http env args s) → wp m s (λ x s',
    one_or_refused http env args s x s' ∨ (s' = s ∧ no_endpoint args ∧ flags_exit args (x_code x)))) as Hleft.
  { intros m Hm. eapply wp_mono; [done|]. intros x s' ?. by left. }
  unfold main. destruct args as [|cmd args]; [apply Hleft, wp_refused; [done|no_rule]|].
  repeat case_bool_decide; subst.
  - unfold cmd_submit. destruct (parse_flags _ _) as [code|[set rest]] eqn:Hp.
    { apply wp_ret. right. split_and!; [done|no_rule|]. exists "submit", args. eauto using parse_flags_exit. }
    apply Hleft. destruct (bool_decide _); one_call.
  - apply Hleft, wp_with_id; [done..|intros Hno; no_rule|]. intros a rest id -> Ha. one_call.
  - unfold cmd_list. destruct (parse_flags _ _) as [code|[set rest]] eqn:Hp.
    { apply wp_ret. right. split_and!; [done|no_rule|]. exists "list", args. eauto using parse_flags_exit. }
    apply Hleft. case_bool_decide; one_call.
  - apply Hleft, wp_with_id; [done..|intros Hno; no_rule|]. intros a rest id -> Ha. one_call.
  - apply Hleft, workflow_one.
  - apply Hleft, wp_refused; [done|no_rule].
Qed.
End one.

(** ** The API behind the tool

    What the tool relies on of net/http: a request whose path is made of plain segments
    below the base URL reaches the server with these segments, and with the header and
    body it was given; the answer comes back with its code and body. *)
Definition plain_char (c : Ascii.ascii) : bool :=
  let n := byte c in
  ((48 <=? n) && (n <=? 57) || (65 <=? n) && (n <=? 90) || (97 <=? n) && (n <=? 122) || (n =? 45) || (n =? 95))%N.
Fixpoint plain_chars (s : string) : bool :=
  match s with EmptyString => true | String c s => plain_char c && plain_chars s end.
Definition plain_segment (s : string) : bool := negb (bool_decide (s = EmptyString)) && plain_chars s.
Fixpoint path_text (segs : list string) : string :=
  match segs with [] => EmptyString | s :: segs => "/" +:+ s +:+ path_text segs end.

Section served.
Context {Q : Type} `{Queue Q}.
Variable registry : Registry.
Variable driver_text : goerr → string.
Variable isPrint : string → bool.
(** Which values of the header arrive as they were sent. *)
Variable header_ok : string → bool.

Definition request_of (m : string) (segs : list string) (auth : string) (body : option string) : Request :=
  {| rq_method := m; rq_path := segs; rq_query := []; rq_auth := auth; rq_body := default EmptyString body |}.
Definition reaches (base : string) (http : HttpRequest → M (world Q) (result (Z * string))) : Prop :=
  ∀ m segs auth body w, forallb plain_segment segs = true → header_ok auth = true →
    http (Build_HttpRequest m (base +:+ path_text segs) auth body) w =
    let '(rs, w') := ServeHTTP registry driver_text isPrint (request_of m segs auth body) w in
    (Ok (rs_status rs, rs_body rs), w').

(** A concrete transport with this property. *)
Fixpoint split_path (s : string) : list string :=
  match s with
  | EmptyString => []
  | String c t =>
      if (byte c =? 47)%N then EmptyString :: split_path t
      else match split_path t with [] => [String c EmptyString] | seg :: segs => String c seg :: segs end
  end.
Definition local_http (base : string) (rq : HttpRequest) : M (world Q) (result (Z * string)) := λ w,
  match CutPrefix (h_url rq) base with
  | Some path =>
      let segs := tail (split_path path) in
      if forallb plain_segment segs && header_ok (h_auth rq) then
        let '(rs, w') := ServeHTTP registry driver_text isPrint (request_of (h_method rq) segs (h_auth rq) (h_body rq)) w in
        (Ok (rs_status rs, rs_body rs), w')
      else (Err ErrIO, w)
  | None => (Err ErrIO, w)
  end.

Lemma plain_not_slash c : plain_char c = true → (byte c =? 47)%N = false.
Proof. unfold plain_char. intros Hc. destruct (N.eqb_spec (byte c) 47) as [Heq|]; [|done]. by rewrite Heq in Hc. Qed.
Lemma split_segment s p l : s ≠ EmptyString → plain_chars s = true →
  split_path p = l → (p = EmptyString ∧ l = [] ∨ ∃ l', l = EmptyString :: l') →
  split_path (s +:+ p) = s :: tail l.
Proof.
  intros Hne Hs Hp Hl. induction s as [|c s IH]; [done|]. cbn [plain_chars] in Hs. apply andb_prop in Hs as [Hc Hs].
  change (String c s +:+ p) with (String c (s +:+ p)). cbn [split_path]. rewrite (plain_not_slash _ Hc).
  destruct s as [|c' s'].
  - change (EmptyString +:+ p) with p. rewrite Hp. by destruct Hl as [[_ ->]|[l' ->]].
  - by rewrite IH.
Qed.
Lemma split_path_text segs : forallb plain_segment segs = true → tail (split_path (path_text segs)) = segs ∧
  (segs = [] ∧ split_path (path_text segs) = [] ∨ ∃ l', split_path (path_text segs) = EmptyString :: l').
Proof.
  induction segs as [|s segs IH]; intros Hs; [by split; [|left]|].
  cbn [forallb] in Hs. apply andb_prop in Hs as [[Hne Hc]%andb_prop Hs]. destruct (IH Hs) as [Ht Hl].
  cbn [path_text]. change ("/" +:+ s +:+ path_text segs) with (String "/" (s +:+ path_text segs)).
  cbn [split_path]. change (byte "/" =? 47)%N with true. cbn iota. split; [|right; eauto]. cbn [tail].
  rewrite (split_segment s (path_text segs) (split_path (path_text segs))); [by rewrite Ht| |done..|].
  - by destruct (bool_decide_reflect (s = EmptyString)).
  - destruct Hl as [[-> ->]|?]; [by left|by right].
Qed.

Lemma local_http_reaches base : reaches base (local_http base).
Proof.
  intros m segs auth body w Hs Ha. unfold local_http. cbn [h_url h_auth h_method h_body].
  assert (CutPrefix (base +:+ path_text segs) base = Some (path_text segs)) as -> by (by apply CutPrefix_spec).
  destruct (split_path_text segs Hs) as [-> _]. by rewrite Hs, Ha.
Qed.

Lemma plain_Itoa z : plain_segment (Itoa z) = true.
Proof.
  assert (∀ n : N, plain_chars (pretty n) = true) as HN.
  { intros n. pose proof (digits_pretty n) as Hd. unfold digits in Hd. destruct (pretty n) as [|c t]; [done|].
    revert Hd. generalize (String c t), 0%N. clear. intros s. induction s as [|c s IH]; intros acc; cbn [dval plain_chars]; [done|].
    destruct (is_digit c) eqn:Hc; [|done]. intros Hd. rewrite (IH _ Hd), andb_true_r.
    unfold plain_char, is_digit in *. by rewrite Hc. }
  destruct (Itoa_head z) as (c & t & Hz & _). unfold plain_segment. rewrite bool_decide_false by (by rewrite Hz).
  unfold Itoa. destruct z as [|p|p]; [done|apply (HN (Npos p))|].
  change (pretty (Zneg p)) with (String "-" (pretty (Npos p))). cbn [plain_chars]. by rewrite HN.
Qed.

(** A request of the tool is a request to the API. *)
Lemma wp_http_served base http m url segs auth body w (P : result (Z * string) → world Q → Prop) :
  reaches base http → url = base +:+ path_text segs → forallb plain_segment segs = true → header_ok auth = true →
  wp (ServeHTTP registry driver_text isPrint (request_of m segs auth body)) w
     (λ rs w', P (Ok (rs_status rs, rs_body rs)) w') →
  wp (http (Build_HttpRequest m url auth body)) w P.
Proof.
  intros Hreach -> Hs Ha Hserve. unfold wp in *. rewrite (Hreach m segs auth body w Hs Ha).
  by destruct (ServeHTTP _ _ _ _ _).
Qed.
End served.

(** ** Lemmas: reading answers *)
Lemma ParseFloat_Itoa ov z : - 2 ^ 53 ≤ z ≤ 2 ^ 53 →
  ∃ f, ParseFloat (Itoa z) = Some f ∧ int_of_float ov f = z.
Proof.
  intros Hz. pose proof (float_roundtrip ov z Hz) as Hf. destruct (ParseFloat (Itoa z)) as [f|]; [|done].
  exists f. split; [done|]. by injection Hf.
Qed.

(** An object of texts and small integers is decoded as it was written. *)
Definition small (v : json) : Prop :=
  (∃ s, v = JStr s) ∨ ∃ z, v = JNum (Itoa z) ∧ - 2 ^ 53 ≤ z ≤ 2 ^ 53.
Lemma small_numbers v : small v → numbers_ok (sanitize_json v) = true.
Proof.
  intros [[s ->]|(z & -> & Hz)]; [done|]. cbn [sanitize_json numbers_ok]. apply bool_decide_eq_true.
  destruct (ParseFloat_Itoa (λ _, 0) z Hz) as (f & -> & _). by eexists.
Qed.
Lemma decode_small ms : Forall (λ kv, small kv.2) ms →
  decode_object (Encode (JObj ms)) = Some ((λ '(k, v), (sanitize k, sanitize_json v)) <$> ms).
Proof.
  intros Hms. unfold decode_object. rewrite Decode_Encode.
  - cbn [mbind option_bind sanitize_json]. enough (numbers_ok (JObj ((λ '(k, v), (sanitize k, sanitize_json v)) <$> ms)) = true) as -> by done.
    cbn [numbers_ok]. apply forallb_forall. intros [k v] Hin%list_elem_of_In.
    apply list_elem_of_fmap in Hin as ([k' v'] & [= -> ->] & Hin). rewrite Forall_forall in Hms. by apply small_numbers, (Hms (k', v')).
  - constructor. eapply Forall_impl; [done|]. intros [k v] [[s ->]|(z & -> & _)]; constructor.
  - cbn [nesting]. enough (foldr N.max 0 ((λ '(_, v), nesting v) <$> ms) = 0)%N as -> by done.
    induction Hms as [|[k v] ms [[s Hv]|(z & Hv & _)] _ IH]; [done|..]; cbn [snd] in Hv; subst v;
      rewrite fmap_cons; cbn [foldr nesting]; by rewrite IH.
Qed.

Section shown.
Variable overflowed : float64 → Z.

Lemma intField_small m key z : member m key = Some (JNum (Itoa z)) → - 2 ^ 53 ≤ z ≤ 2 ^ 53 →
  intField overflowed m key = z.
Proof.
  intros Hm Hz. unfold intField. rewrite Hm. by destruct (ParseFloat_Itoa overflowed z Hz) as (f & -> & Hf).
Qed.

(** What [orq status] prints of a row of the table. *)
Definition shown_job (row : JobRow) : string :=
  line ("job " +:+ Itoa (r_ID row) +:+ " (" +:+ r_Type row +:+ "): status=" +:+ job_status_text (r_Status row) +:+
        " retries=" +:+ Itoa (r_RetryCount row) +:+ "/" +:+ Itoa (r_MaxRetries row)).
Definition small_row (row : JobRow) : Prop :=
  - 2 ^ 53 ≤ r_ID row ≤ 2 ^ 53 ∧ - 2 ^ 53 ≤ r_RetryCount row ≤ 2 ^ 53 ∧ - 2 ^ 53 ≤ r_MaxRetries row ≤ 2 ^ 53 ∧
  ValidString (r_Type row) = true.
Definition job_members (row : JobRow) : list (string * json) :=
  [("id", num (r_ID row)); ("status", JStr (job_status_text (r_Status row)));
   ("retry_count", num (r_RetryCount row)); ("max_retries", num (r_MaxRetries row));
   ("type", JStr (sanitize (r_Type row))); ("payload", JStr (sanitize (r_Payload row)));
   ("output", JStr (sanitize (r_Output row)))].
Lemma sanitize_status st : sanitize (job_status_text st) = job_status_text st.
Proof. by destruct st. Qed.
Lemma decode_job row : small_row row → decode_object (Encode (job_json row)) = Some (job_members row).
Proof.
  intros (Hid & Hr & Hm & _). unfold job_json. rewrite decode_small.
  - cbn [fmap list_fmap]. rewrite (sanitize_valid "id"), (sanitize_valid "status"), (sanitize_valid "retry_count"),
      (sanitize_valid "max_retries"), (sanitize_valid "type"), (sanitize_valid "payload"), (sanitize_valid "output") by reflexivity.
    cbn [sanitize_json num]. by rewrite sanitize_status.
  - rewrite !Forall_cons. cbn [snd]. split_and!; solve [constructor|left; by eexists|right; by eexists].
Qed.
Lemma job_line_shown row : small_row row → job_line overflowed (job_members row) = shown_job row.
Proof.
  intros (Hid & Hr & Hm & Ht). unfold job_line.
  rewrite (intField_small _ "id" (r_ID row)), (intField_small _ "retry_count" (r_RetryCount row)),
    (intField_small _ "max_retries" (r_MaxRetries row)) by done.
  unfold strField. change (member (job_members row) "type") with (Some (JStr (sanitize (r_Type row)))).
  change (member (job_members row) "status") with (Some (JStr (job_status_text (r_Status row)))).
  by rewrite sanitize_valid.
Qed.
End shown.

(** ** Properties *)

(** C34: a run of orq makes at most one request, the one of its command, with the key of
    its environment.  When the command line is one of the usage text the request has the
    method and the path of [endpoint], and the code is 0 only if the server answered with
    a status below 400 and JSON, and 1 with a message if not.  Every other command line
    makes no request: it is refused with code 1 and a message, or, after orq submit and
    orq list, by the flag package, with 0 if it asks for help and 2 if not. *)
Theorem orq_makes_one_request {S} (http : HttpRequest → M S (result (Z * string))) http_text decode_text
    overflowed isPrint env args s :
  let '(x, s') := main http http_text decode_text overflowed isPrint env args s in
  (∃ rq path, endpoint args (h_method rq) path ∧ h_url rq = baseURL env +:+ path ∧
     h_auth rq = auth_header env ∧ s' = (http rq s).2 ∧
     (x_code x = 0 ∧ accepted (http rq s).1 ∨ x_code x = 1 ∧ x_stdout x +:+ x_stderr x ≠ EmptyString)) ∨
  (s' = s ∧ (∀ method path, ¬ endpoint args method path) ∧
     (x_code x = 1 ∧ x_stdout x ≠ EmptyString ∨ flags_exit args (x_code x))).
Proof.
  pose proof (main_one http http_text decode_text overflowed isPrint env args s) as Hm. unfold wp in Hm.
  destruct (main _ _ _ _ _ _ _ _) as [x s']. cbn [fst snd] in Hm.
  destruct Hm as [[H1|(-> & Hno & H1)]|(-> & Hno & H1)]; [by left|right; by auto..].
Qed.

(** C23: from the command line to the shell: with a stored key and nothing failing,
    orq submit --command=c creates a pending job of type shell with three retries and
    its outbox entry, prints its ID (exactly, up to 2^53), and a worker that gets the
    job's payload runs c without the quotes around it, with an empty PREVIOUS_OUTPUT. *)
Theorem orq_submit_reaches_the_shell Q `(HQ : Queue Q) registry driver_text isPrint header_ok http_text decode_text
    overflowed env http c (w : world Q)
    (Hreach : reaches registry driver_text isPrint header_ok (baseURL env) http)
    (Hheader : header_ok ("Bearer " +:+ apiKey env) = true) (Hkey : apiKey env ≠ EmptyString)
    (Hhas : has_key (w_db w) (apiKey env)) (Hd : db_ok (w_db w)) (Hf : w_db_faults w = []) (Hc : c ≠ EmptyString) :
  wp (main http http_text decode_text overflowed isPrint env ["submit"; "--command=" +:+ c]) w (λ x w',
    w_q w' = w_q w ∧ ∃ id payload,
      job_inserted (w_now w) (new_job 3 "shell" payload) (w_db w) id (w_db w') ∧
      (- 2 ^ 53 ≤ id ≤ 2 ^ 53 → x = out (line ("job submitted, id: " +:+ Itoa id +:+ " (type=shell)"))) ∧
      ∀ json_text run, sanitize (TrimQuotes c) ≠ EmptyString → executeJob json_text run payload =
        shell_result (run (sanitize (TrimQuotes c)) EmptyString)).
Proof.
  set (p := step_payload (TrimQuotes c) EmptyString).
  assert (main http http_text decode_text overflowed isPrint env ["submit"; "--command=" +:+ c] =
    (r ← doJSON http http_text decode_text env "POST" (base env +:+ "/api/v1/jobs")
            (Some (JObj [("max_retries", num 3); ("payload", JStr p); ("type", JStr "shell")]));
      mret match r with
           | inl err => fail_out (line ("error: " +:+ err))
           | inr m => out (line ("job submitted, id: " +:+ Itoa (intField overflowed m "job_id") +:+ " (type=shell)"))
           end)) as ->.
  { cbn [main]. rewrite bool_decide_true by done. unfold cmd_submit.
    assert (parse_flags submit_flags ["--command=" +:+ c] = inr ([("command", c)], [])) as -> by reflexivity.
    unfold flag_string, flag_int. cbn -[doJSON line step_payload p]. rewrite bool_decide_false by done. reflexivity. }
  assert (auth_header env = "Bearer " +:+ apiKey env) as Hauth by (unfold auth_header; by rewrite bool_decide_false).
  apply wp_answer, wp_answer. rewrite Hauth.
  eapply (wp_http_served _ _ _ _ _ http _ _ ["api"; "v1"; "jobs"]); [done..|].
  set (r := request_of _ _ _ _). apply wp_ServeHTTP_authorized; [done|by exists (apiKey env)|].
  assert (mux registry driver_text isPrint r = submitJob_handler driver_text isPrint r) as -> by reflexivity.
  pose proof (step_payload_ok (TrimQuotes c) EmptyString) as Htext. fold p in Htext.
  assert (ValidString p = true) as Hvalid by (by apply andb_prop in Htext as [? _]).
  eapply wp_mono; [by apply submitJob_spec|]. intros rs w' (_ & Hq & Hrs & _). split; [done|].
  change (rq_body r) with (Marshal (JObj [("max_retries", num 3); ("payload", JStr p); ("type", JStr "shell")])) in Hrs.
  rewrite decode_submission in Hrs by done. cbn [jr_Type jr_Payload jr_MaxRetries] in Hrs.
  rewrite (sanitize_valid p), (sanitize_valid "shell") in Hrs by done.
  destruct Hrs as [(id & -> & Hins)|(_ & Hno & _)].
  - exists id, p. split_and!; [done| |].
    + intros Hid. cbn [writeJSON rs_status rs_body read_object].
      rewrite decode_small by (apply Forall_singleton; right; by exists id). cbn [fmap list_fmap].
      rewrite (sanitize_valid "job_id") by done. cbn [Z.leb Z.compare Pos.compare Pos.compare_cont].
      by rewrite (intField_small _ _ _ id).
    + intros json_text run Hne. subst p. rewrite executeJob_step_payload, bool_decide_false by done. reflexivity.
  - exfalso. apply Hno; [done|split; [lia|]]. unfold params_ok. cbn [new_job max_retries type payload]. by rewrite Htext.
Qed.

(** Orq status prints the job as the database has it: with a stored key and nothing
    failing, it shows ID, type, status and retries of the row, and its output when there
    is one, provided the numbers are at most 2^53; for an unknown ID it prints the
    server's message and exits with 1. *)
Theorem orq_status_shows_the_job Q `(HQ : Queue Q) registry driver_text isPrint header_ok http_text decode_text
    overflowed env http id (w : world Q)
    (Hreach : reaches registry driver_text isPrint header_ok (baseURL env) http)
    (Hheader : header_ok ("Bearer " +:+ apiKey env) = true) (Hkey : apiKey env ≠ EmptyString)
    (Hhas : has_key (w_db w) (apiKey env)) (Hf : w_db_faults w = []) (Hid : in_int64 id = true) :
  wp (main http http_text decode_text overflowed isPrint env ["status"; Itoa id]) w (λ x w',
    unchanged w w' ∧
    match jobs (w_db w) !! id with
    | None => x = fail_out (line "error: job not found")
    | Some j => let row := row_of id j in small_row row →
        x = out (shown_job row +:+
          (if bool_decide (sanitize (r_Output row) = EmptyString) then EmptyString
           else line "output:" +:+ line (sanitize (r_Output row))))
    end).
Proof.
  unfold main. rewrite bool_decide_false, bool_decide_true by done. unfold cmd_status. unfold Atoi.
  rewrite (ParseInt_Itoa _ Hid).
  assert (auth_header env = "Bearer " +:+ apiKey env) as Hauth by (unfold auth_header; by rewrite bool_decide_false).
  apply wp_answer, wp_answer. rewrite Hauth.
  eapply (wp_http_served _ _ _ _ _ http _ _ ["api"; "v1"; "jobs"; Itoa id]);
    [done|cbn [path_text]; by rewrite app_nil_r_str|cbn [forallb]; by rewrite plain_Itoa|done|].
  set (r := request_of _ _ _ _).
  assert (mux registry driver_text isPrint r = getJob_handler driver_text isPrint [("id", Itoa id)]) as Hmux.
  { unfold mux. assert (find_route NewRouter (rq_method r) (rq_path r) = Routed getJob [("id", Itoa id)]) as ->; [|done].
    subst r. apply route_getJob. intros Heq. by pose proof (plain_Itoa id) as Hp; rewrite Heq in Hp. }
  apply wp_ServeHTTP_authorized; [done|by exists (apiKey env)|]. rewrite Hmux. unfold getJob_handler.
  assert (pathInt [("id", Itoa id)] "id" = Some id) as -> by apply (ParseInt_Itoa _ Hid).
  apply wp_answer, wp_db_read; [|done]. intros fs Hfs. split; [done|].
  destruct (jobs (w_db w) !! id) as [j|].
  - intros Hrow. cbn [writeJSON rs_status rs_body read_object Z.leb Z.compare Pos.compare Pos.compare_cont].
    rewrite decode_job, job_line_shown by done. reflexivity.
  - cbn [writeError writeJSON rs_status rs_body read_object].
    rewrite decode_small by (apply Forall_singleton; left; by eexists). reflexivity.
Qed.

(** Without a key in the environment, orq status prints what the server says, a
    missing API key; orq list, for the same answer, prints an error of the JSON decoder,
    since it decodes an array before it looks at the status. *)
Theorem orq_list_hides_the_servers_error Q `(HQ : Queue Q) registry driver_text isPrint header_ok http_text decode_text
    overflowed env http id (w : world Q)
    (Hreach : reaches registry driver_text isPrint header_ok (baseURL env) http)
    (Hheader : header_ok EmptyString = true) (Hkey : apiKey env = EmptyString) (Hid : in_int64 id = true) :
  wp (main http http_text decode_text overflowed isPrint env ["status"; Itoa id]) w (λ x w', w' = w ∧
    x = fail_out (line "error: missing API key")) ∧
  wp (main http http_text decode_text overflowed isPrint env ["list"]) w (λ x w', w' = w ∧
    x = fail_err (line ("error: " +:+ decode_text (Encode (JObj [("error", JStr "missing API key")]))))).
Proof.
  assert (auth_header env = EmptyString) as Hauth by (unfold auth_header; by rewrite bool_decide_true).
  assert (decode_object (Encode (JObj [("error", JStr "missing API key")])) = Some [("error", JStr "missing API key")]) as Hobj.
  { rewrite decode_small by (apply Forall_singleton; left; by eexists). reflexivity. }
  split.
  - unfold main. rewrite bool_decide_false, bool_decide_true by done. unfold cmd_status, Atoi.
    rewrite (ParseInt_Itoa _ Hid). apply wp_answer, wp_answer. rewrite Hauth.
    eapply (wp_http_served _ _ _ _ _ http _ _ ["api"; "v1"; "jobs"; Itoa id]);
      [done|cbn [path_text]; by rewrite app_nil_r_str|cbn [forallb]; by rewrite plain_Itoa|done|].
    apply wp_ret. split; [done|]. cbn [writeError writeJSON rs_status rs_body read_object].
    rewrite Hobj. reflexivity.
  - unfold main. rewrite !bool_decide_false, bool_decide_true by done. unfold cmd_list.
    cbn [parse_flags flag_string filter list_filter last default option_fmap].
    apply wp_answer, wp_answer. rewrite Hauth.
    eapply (wp_http_served _ _ _ _ _ http _ _ ["api"; "v1"; "jobs"]); [done..|].
    apply wp_ret. split; [done|]. cbn [writeError writeJSON rs_status rs_body read_array].
    assert (decode_array (Encode (JObj [("error", JStr "missing API key")])) = None) as ->; [|done].
    unfold decode_array. rewrite Decode_Encode by (by repeat constructor || done). reflexivity.
Qed.

(** ** Witnesses *)
#[local] Instance cli_Queue : Queue Store := RedisQueue_ops jobs_queue.

(** An environment with a key that [api_db] holds, and one without. *)
Definition env_of (key name : string) : string := if bool_decide (name = "ORQESTRA_API_KEY") then key else EmptyString.
Definition any_header (_ : string) : bool := true.
Definition api_http : HttpRequest → M (world Store) (result (Z * string)) :=
  local_http backup_registry no_text (λ _, true) any_header "http://localhost:8080".
Definition no_overflow_text (_ : string) : string := "cannot unmarshal object".

Lemma api_http_reaches key :
  reaches backup_registry no_text (λ _, true) any_header (baseURL (env_of key)) api_http.
Proof. apply local_http_reaches. Qed.

Lemma api_has_key : has_key (w_db api_world) (apiKey (env_of "orq_00")).
Proof. exists 1, (KeyRec "ci" (key_hash_of "orq_00")). split; reflexivity. Qed.

Lemma orq_submit_reaches_the_shell_witness :
  wp (main api_http no_text no_overflow_text (λ _, 0) (λ _, true) (env_of "orq_00") ["submit"; "--command='echo hi'"])
    api_world (λ x w', w_q w' = empty_store ∧ x = out (line "job submitted, id: 3 (type=shell)")).
Proof.
  eapply wp_mono; [apply (wp_and _ _ _ (λ x _, x =
      (main api_http no_text no_overflow_text (λ _, 0) (λ _, true) (env_of "orq_00") ["submit"; "--command='echo hi'"] api_world).1)
    (orq_submit_reaches_the_shell Store _ backup_registry no_text (λ _, true) any_header no_text no_overflow_text (λ _, 0)
      (env_of "orq_00") api_http "'echo hi'" api_world (api_http_reaches _) eq_refl ltac:(discriminate) api_has_key
      api_db_ok eq_refl ltac:(discriminate)) eq_refl)|].
  intros x w' [[Hq _] Hx]. split; [exact Hq|]. rewrite Hx. vm_compute. reflexivity.
Defined.

Lemma orq_status_shows_the_job_witness :
  wp (main api_http no_text no_overflow_text (λ _, 0) (λ _, true) (env_of "orq_00") ["status"; "1"]) api_world
    (λ x w', unchanged api_world w' ∧ x = out (line "job 1 (shell): status=running retries=1/3")).
Proof.
  eapply wp_mono; [apply (orq_status_shows_the_job Store _ backup_registry no_text (λ _, true) any_header no_text
    no_overflow_text (λ _, 0) (env_of "orq_00") api_http 1 api_world (api_http_reaches _) eq_refl ltac:(discriminate)
    api_has_key eq_refl eq_refl)|].
  intros x w' [Hu Hx]. split; [exact Hu|]. rewrite Hx; [reflexivity|]. by split_and!.
Defined.

Lemma orq_list_hides_the_servers_error_witness :
  wp (main api_http no_text no_overflow_text (λ _, 0) (λ _, true) (env_of EmptyString) ["list"]) api_world
    (λ x w', w' = api_world ∧ x = fail_err (line "error: cannot unmarshal object")).
Proof.
  apply (orq_list_hides_the_servers_error Store _ backup_registry no_text (λ _, true) any_header no_text
    no_overflow_text (λ _, 0) (env_of EmptyString) api_http 1 api_world (api_http_reaches _) eq_refl eq_refl eq_refl).
Defined.

(** A job with an ID beyond 2^53 is shown under another one: the decoder makes it a float64. *)
Example large_id_is_rounded :
  job_line (λ _, 0) (default [] (decode_object (Encode (job_json (row_of 9007199254740993 (new_job 0 "shell" "{}")))))) =
  line "job 9007199254740992 (shell): status=pending retries=0/0".
Proof. vm_compute. reflexivity. Qed.
