(* ===== verification/Main.v ===== *)
(** * The programs put together

    The part of cmd/server/main.go that comes before anything is served, the
    registration loop of internal/scheduler/scheduler.go, and theorems about the whole
    way of a job: from a request to the API, through the outbox and the queue in Redis
    to a worker, and back to the answer of a request. *)
From stdpp Require Import gmap strings list fin_maps fin_sets sorting.
From S2P Require Import Prelude Text Json Redis Queue RedisQueue Db Outbox Service.
From S2P Require Import Workflow.
From S2P Require Import Server System Strings Auth Api Worker Turn Run.
Open Scope Z_scope.

(** ** The start of the server *)
Section boot.
Context {Q : Type} `{Queue Q}.
Variable yaml_Unmarshal : string → option Workflow.

(** [pool], [ping] and [listen] are what opening the pool, the ping of Redis and the
    listener for gRPC report.  [None] is an exit with code 1; else the process serves
    with the registry. *)
Definition boot (cfg : option Config) (pool ping : result unit) (workflows : DirListing) (listen : result unit) :
    M (world Q) (option Registry) :=
  match cfg, pool, ping with
  | Some _, Ok _, Ok _ =>
      r ← startup;
      mret match r, LoadFromDir yaml_Unmarshal NewRegistry workflows, listen with
           | Ok _, (Some (Ok _), registry), Ok _ => Some registry
           | _, _, _ => None
           end
  | _, _, _ => mret None
  end.
End boot.

(** ** The scheduler

    [valid] says which expressions robfig/cron accepts; the others are logged. *)
Definition registered (valid : string → bool) (registry : Registry) : list Workflow :=
  filter (λ wf, valid (Schedule wf) = true) (scheduled registry).

(** ** Lemmas *)
Lemma registered_spec valid registry wf : registry_ok registry →
  wf ∈ registered valid registry ↔
  Get registry (Name wf) = Some wf ∧ Schedule wf ≠ EmptyString ∧ valid (Schedule wf) = true.
Proof.
  intros Hok. unfold registered, scheduled. rewrite !list_elem_of_filter. unfold Workflow.List.
  rewrite list_elem_of_fmap. split.
  - intros (Hv & Hs & [name wf'] & -> & Hin). apply elem_of_map_to_list in Hin.
    destruct (Hok _ _ Hin) as [Hn _]. cbn [snd] in *. split_and!; [|done..]. unfold Get. by rewrite Hn.
  - intros (Hg & Hs & Hv). split_and!; [done..|]. exists (Name wf, wf). split; [done|]. by apply elem_of_map_to_list.
Qed.

Lemma registered_once valid registry : registry_ok registry → NoDup (Name <$> registered valid registry).
Proof.
  intros Hok. unfold registered, scheduled, Workflow.List.
  enough (NoDup (Name <$> (map_to_list registry).*2)) as Hnd.
  { eapply sublist_NoDup; [exact Hnd|]. apply fmap_sublist. etrans; apply sublist_filter. }
  assert (Name <$> (map_to_list registry).*2 = (map_to_list registry).*1) as ->; [|apply NoDup_fst_map_to_list].
  rewrite <-!list_fmap_compose. apply list_fmap_ext. intros i [name wf] Hi%list_elem_of_lookup_2%elem_of_map_to_list.
  by destruct (Hok _ _ Hi).
Qed.

(** A workflow whose run is still going. *)
Definition is_active (d : db) (name : string) : Prop :=
  ∃ id r, runs d !! id = Some r ∧ workflow_name r = name ∧ run_state r = RunRunning.

Section scheduler.
Context {Q : Type} `{Queue Q}.
Variable registry : Registry.
Implicit Types (w : world Q).

Lemma scheduler_tick_spec name w (P : unit → world Q → Prop) :
  (∀ fs, (w_db_faults w = [] → fs = [] ∧ is_active (w_db w) name) →
     P tt (World (w_db w) fs (w_q w) (w_q_faults w) (w_now w))) →
  (∀ fs, (w_db_faults w = [] → fs = []) → ¬ is_active (w_db w) name →
     wp (TriggerWorkflow registry name) (World (w_db w) fs (w_q w) (w_q_faults w) (w_now w)) (λ _ w', P tt w')) →
  wp (scheduler_tick registry name) w P.
Proof.
  intros Hskip Hgo. unfold scheduler_tick. apply wp_bind, (wp_db_read (λ _ d, Ok (bool_decide (0 <
    count_where (λ _ r, bool_decide (workflow_name r = name) && bool_decide (run_state r = RunRunning)) (runs d))))).
  - intros fs Hfs.
    assert (0 < count_where (λ _ r, bool_decide (workflow_name r = name) && bool_decide (run_state r = RunRunning))
      (runs (w_db w)) ↔ is_active (w_db w) name) as Hact.
    { rewrite count_where_pos. unfold is_active. setoid_rewrite andb_true_iff. by setoid_rewrite bool_decide_eq_true. }
    case_bool_decide as Hc; rewrite Hact in Hc.
    + apply wp_ret, Hskip. auto.
    + apply wp_bind. eapply wp_mono; [by apply Hgo|]. intros r w' HP. by apply wp_ret.
  - intros fs Hne. apply wp_ret, Hskip. done.
Qed.
End scheduler.

(** ** Properties: start and schedule *)

(** C14: the server serves only after a complete recovery: whatever fails, when [boot]
    does not exit no job is running in the database, the processing list is empty and
    each of its entries waits in the ready list, and the registry holds valid workflows
    under their own names, which is what the theorems on the running process assume.  A
    configuration, connection or directory that cannot be used is an exit. *)
Theorem boot_serves_after_recovery Q `(HQ : QueueLaws Q) yaml cfg pool ping workflows listen (w : world Q)
    (Hd : db_ok (w_db w)) (Hq : qinv (w_q w)) :
  wp (boot yaml cfg pool ping workflows listen) w (λ o w', ∀ registry, o = Some registry →
    is_Some cfg ∧ pool = Ok tt ∧ ping = Ok tt ∧ listen = Ok tt ∧ workflows ≠ DirError ∧
    registry_ok registry ∧ (∀ name wf, Get registry name = Some wf → Name wf = name) ∧
    (∀ id j, jobs (w_db w') !! id = Some j → status j ≠ Running) ∧
    (∀ id j, jobs (w_db w) !! id = Some j → status j = Running → has_unprocessed (w_db w') id = true) ∧
    processing (qabs (w_q w')) = [] ∧
    ∀ x, x ∈ processing (qabs (w_q w)) → x ∈ ready (qabs (w_q w'))).
Proof.
  unfold boot. destruct cfg as [cfg|], pool as [[]|], ping as [[]|]; try by apply wp_ret.
  apply wp_answer. eapply wp_mono; [by apply startup_spec|]. intros [[]|e] w' [Hst _] registry; [|done].
  destruct (LoadFromDir_spec yaml NewRegistry workflows) as (a & reg & Hload & Hreg); [by apply map_Forall_empty|].
  rewrite Hload. destruct a as [[]|]; [|done]. destruct listen as [[]|]; [|done]. intros [= <-].
  destruct (Hst eq_refl) as (_ & Hv & [Hj _ Hdel _ _] & _). split_and!; try done.
  - intros ->. done.
  - intros name wf Hget. by destruct (Hreg _ _ Hget).
  - intros id j. rewrite Hj, lookup_update_where, fmap_Some. intros (j0 & _ & ->). unfold is_status.
    case_bool_decide; done.
  - by rewrite Hv.
  - intros x Hx. rewrite Hv. cbn [q_recover ready]. set_solver.
Qed.

(** C32: every valid scheduled workflow of the registry has exactly one callback, and no
    other has one; a tick of it starts nothing while a run of the workflow is active,
    whatever fails, and otherwise, when nothing fails, is a trigger. *)
Theorem scheduler_never_overlaps Q `(HQ : Queue Q) valid registry (w : world Q) (Hok : registry_ok registry) :
  NoDup (Name <$> registered valid registry) ∧
  (∀ wf, wf ∈ registered valid registry ↔
     Get registry (Name wf) = Some wf ∧ Schedule wf ≠ EmptyString ∧ valid (Schedule wf) = true) ∧
  ∀ name, wp (scheduler_tick registry name) w (λ _ w',
    (is_active (w_db w) name → w_db w' = w_db w ∧ w_q w' = w_q w) ∧
    (¬ is_active (w_db w) name → w_db_faults w = [] → w' = (TriggerWorkflow registry name w).2)).
Proof.
  split_and!; [by apply registered_once|intros wf; by apply registered_spec|]. intros name.
  apply scheduler_tick_spec.
  - intros fs Hf. split; [done|]. intros Hno Hw. by destruct (Hf Hw) as [_ ?].
  - intros fs Hfs Hno. unfold wp. split; [done|]. intros _ Hw. rewrite (Hfs Hw). by destruct w; cbn in *; subst.
Qed.

(** ** Lemmas: the way of a job *)

(** The only entry to deliver is the new one. *)
Lemma unprocessed_inserted now j d id d' : (∀ k e, outbox d !! k = Some e → processed e = true) →
  job_inserted now j d id d' →
  ∃ oid, unprocessed_entries ∅ d' = [Build_OutboxEntry oid id (type j) (payload j) (max_retries j)].
Proof.
  intros Hdone (Hid & Hjobs & _ & _ & oid & Hoid & Hout). exists oid. unfold unprocessed_entries. rewrite Hout.
  match goal with |- context [merge_sort created_le ?l] =>
    assert (merge_sort created_le l = [(oid, OutboxRec id false None now)]) as -> end.
  { apply Permutation_singleton_r. rewrite merge_sort_Permutation, map_to_list_insert by done.
    rewrite filter_cons_True by (split; [done|set_solver]).
    match goal with |- _ :: ?l ≡ₚ _ => assert (l = []) as ->; [|done] end.
    apply elem_of_nil_inv. intros [k e] [[He _] Hk%elem_of_map_to_list]%list_elem_of_filter.
    cbn [snd] in He. by rewrite (Hdone _ _ Hk) in He. }
  cbn [omap list_omap]. cbn [ob_job_id]. by rewrite Hjobs, lookup_insert_eq.
Qed.

Lemma enqueue_empty job : q_enqueue job q_empty =
  QView [Itoa (j_ID job)] [] ∅ {[Itoa (j_ID job) := MarshalJob job]} {[Itoa (j_ID job)]}.
Proof.
  unfold q_enqueue, q_enter, q_mark, q_empty. cbn [queued ready processing delayed payloads].
  rewrite bool_decide_true by set_solver. by rewrite (right_id_L ∅ (∪)).
Qed.

(** The job that [InsertJob] creates, as the relay enqueues it. *)
Definition queued_job_of (id : Z) (req : job_request) : Job :=
  Build_Job id 0 (jr_MaxRetries req) (jr_Type req) (jr_Payload req).
Definition row_of_request (req : job_request) : job_rec :=
  new_job (jr_MaxRetries req) (jr_Type req) (jr_Payload req).

Lemma queued_job_ok id req : in_int32 id = true → params_ok (row_of_request req) = true →
  job_typed (queued_job_of id req) = true ∧ text_ok (jr_Type req) = true ∧ text_ok (jr_Payload req) = true.
Proof.
  unfold params_ok, row_of_request. cbn [new_job max_retries type payload].
  intros Hid%in_int32_spec [[Hn%in_int32_spec Ht]%andb_prop Hp]%andb_prop. split_and!; [|done..].
  unfold job_typed, queued_job_of. cbn [j_ID j_RetryCount j_MaxRetries].
  unfold in_int64. rewrite !bool_decide_true by lia. done.
Qed.

(** ** Properties: the whole way of a job *)

(** C3: from the request to the answer: on a server whose queue is empty and whose outbox
    has been delivered, in four steps at any times, none of which fails: an authorized
    POST /jobs answers 201 with an ID; one pass of the relay puts the job in Redis; a
    worker that is ready is handed exactly this job, with the payload of the request;
    and when its command succeeds, the result leaves the job completed with the trimmed
    output, out of the queue, and GET /jobs with the ID shows it so. *)
Theorem submitted_job_completes R `(HR : RedisLaws R) name timeout overflowed registry driver_text isPrint json_text
    encodes workerID (r : Request) req (w : world R) o fuel out t1 t2 t3
    (Q := RedisQueue_ops (NewRedisQueue name timeout) : Queue R)
    (Hd : db_ok (w_db w)) (Hrel : reliable w) (Hq : qinv (w_q w)) (Hempty : qabs (w_q w) = q_empty)
    (Hdone : ∀ k e, outbox (w_db w) !! k = Some e → processed e = true)
    (Hauth : authorized (w_db w) r) (Hroute : find_route NewRouter (rq_method r) (rq_path r) = Routed submitJob [])
    (Hreq : decode_job_request (rq_body r) = Ok req) (Hn : 0 ≤ jr_MaxRetries req)
    (Hparams : params_ok (row_of_request req) = true) (Hfuel : (0 < fuel)%nat)
    (Hsends : sends_text encodes)
    (Hexec : executeJob json_text (λ _ _, o) (jr_Payload req) = (true, EmptyString, out)) (Hout : text_ok out = true) :
  wp (ServeHTTP registry driver_text isPrint r) w (λ rs w1, ∃ id,
    rs = writeJSON 201 (JObj [("job_id", num id)]) ∧ (in_int32 id = true →
    wp (relay ∅) (World (w_db w1) [] (w_q w1) [] t1) (λ _ w2,
      let s := Server (World (w_db w2) [] (w_q w2) [] t2) ∅ ∅ in
      let se1 := session_step json_text overflowed registry encodes workerID (SEReady Background fuel) (session_start s) in
      let se2 := session_step json_text overflowed registry encodes workerID (SEExit o) se1 in
      let w3 := sv_world (se_server se2) in
      se_worker se1 = Executing (task_of (queued_job_of id req)) true ∧ se_worker se2 = Looping ∧
      ¬ held (qabs (w_q w3)) (Itoa id) ∧
      wp (ServeHTTP registry driver_text isPrint
           {| rq_method := "GET"; rq_path := ["api"; "v1"; "jobs"; Itoa id]; rq_query := [];
              rq_auth := rq_auth r; rq_body := EmptyString |})
         (World (w_db w3) [] (w_q w3) [] t3) (λ rs' _,
        rs' = writeJSON 200 (job_json (row_of id (set_output out (set_status Completed (row_of_request req))))))))).
Proof.
  destruct Hrel as [Hf Hqf].
  apply wp_ServeHTTP_authorized; [done..|]. unfold mux. rewrite Hroute. cbn [handle].
  eapply wp_mono; [by apply submitJob_spec|]. intros rs w1 ([Hok1 _] & Hq1 & Hrs & _). rewrite Hreq in Hrs.
  destruct Hrs as [(id & -> & Hins)|(_ & Hno & _)]; [|by destruct Hno].
  exists id. split; [done|]. intros Hid.
  fold (row_of_request req) in Hins.
  destruct (unprocessed_inserted _ _ _ _ _ Hdone Hins) as [oid Hes].
  destruct Hins as (_ & Hjobs & _ & Hkeys & _).
  destruct (queued_job_ok id req Hid Hparams) as (Htyped & Htype & Hpayload).
  eapply wp_mono; [apply relay_spec; cbn [w_q]; by rewrite Hq1|]. cbn [w_db w_q w_now].
  intros rr w2 [Hdel Hr2]. destruct (Hr2 (conj eq_refl eq_refl)) as (_ & _ & Hd2 & Hv2). clear Hr2.
  cbn [w_db w_q w_now] in Hd2, Hv2. rewrite Hes in Hd2, Hv2. rewrite Hq1, Hempty in Hv2. cbn [foldl] in Hv2.
  change (entry_job _) with (queued_job_of id req) in Hv2.
  assert (jobs (w_db w2) !! id = Some (row_of_request req)) as Hrow by (rewrite Hd2; cbn [marked set_outbox jobs]; by rewrite Hjobs, lookup_insert_eq).
  rewrite enqueue_empty in Hv2.
  pose proof (worker_turn name timeout overflowed registry json_text encodes workerID (queued_job_of id req) [] fuel o
    (session_start (Server (World (w_db w2) [] (w_q w2) [] t2) ∅ ∅)) (row_of_request req) out) as Hturn.
  cbv zeta in Hturn |- *. cbn [session_start se_server sv_world w_q w_db] in Hturn.
  destruct Hturn as (Hw1 & [_ _ Hw2] & _ & _ & Hv3 & Hd3); try done.
  - split; [done|done|by apply andb_prop in Htype as [? _]|by apply andb_prop in Hpayload as [? _]|by vm_compute].
  - apply (dl_inv _ _ Hdel).
  - rewrite Hd2. by apply db_ok_update_outbox.
  - exact (f_equal ready Hv2).
  - refine (eq_trans (f_equal (λ v, payloads v !! _) Hv2) _). apply lookup_singleton_eq.
  - apply (λ H, eq_trans H (f_equal (λ v, q_settle _ (handed_out [] _ v)) Hv2)) in Hv3. split_and!; [done|done| |].
    + refine (eq_ind_r (λ v, ¬ held v (Itoa id)) _ Hv3). unfold held, q_settle, handed_out.
      cbn [ready processing delayed queued_job_of j_ID remove1]. rewrite bool_decide_true by done.
      rewrite lookup_delete_eq, !elem_of_nil. by intros [?|[?|[? ?]]].
    + match goal with |- wp ?m (World _ ?a ?b ?c ?e) ?P =>
        refine (eq_ind_r (λ d, wp m (World d a b c e) P) _ Hd3) end.
      assert (Itoa id ≠ "/") as Hslash by (destruct (Itoa_head id) as (c & t & -> & [Hc| ->]); [by intros [= -> _]|done]).
      apply wp_ServeHTTP_authorized; [done|..].
      { destruct Hauth as (key & Hr & Hne & i & k & Hi & Hk). exists key. split_and!; [done..|]. exists i, k.
        split; [|done]. cbn [w_db completed moved set_jobs api_keys]. rewrite Hd2. cbn [marked set_outbox api_keys]. by rewrite Hkeys. }
      unfold mux. cbn [rq_method rq_path]. rewrite route_getJob by done. cbn [handle]. unfold getJob_handler.
      assert (pathInt [("id", Itoa id)] "id" = Some id) as -> by (apply ParseInt_Itoa; apply in_int32_spec in Hid; by apply bool_decide_eq_true; lia).
      apply wp_answer, wp_db_read; [|done]. intros fs _. cbn [w_db].
      unfold completed. cbn [set_jobs jobs queued_job_of j_ID j_RetryCount].
      rewrite lookup_update_id, lookup_moved, Hrow. reflexivity.
Qed.

(** ** Witnesses *)
#[local] Instance main_Queue : Queue Store := RedisQueue_ops jobs_queue.
#[local] Instance main_QueueLaws : QueueLaws Store := RedisQueue_laws "jobs" 1000000000.

Lemma busy_world_inv : qinv (w_q (sv_world busy_server)).
Proof. exact busy_inv. Qed.

Lemma boot_serves_after_recovery_witness :
  wp (boot (λ _, Some parallel_backup) (LoadConfig EnvNoFile (λ _, "3")) (Ok tt) (Ok tt)
       (DirEntries [{| entry_name := "backup.yaml"; entry_isDir := false; entry_data := Some EmptyString |}]) (Ok tt))
    (sv_world busy_server) (λ o w', ∀ registry, o = Some registry →
      processing (qabs (w_q w')) = [] ∧ has_unprocessed (w_db w') 1 = true).
Proof.
  eapply wp_mono; [apply (boot_serves_after_recovery Store _ (λ _, Some parallel_backup) (LoadConfig EnvNoFile (λ _, "3"))
    (Ok tt) (Ok tt) (DirEntries [{| entry_name := "backup.yaml"; entry_isDir := false; entry_data := Some EmptyString |}])
    (Ok tt) (sv_world busy_server) example_db_ok busy_world_inv)|].
  intros o w' Hboot registry Ho. destruct (Hboot registry Ho) as (_ & _ & _ & _ & _ & _ & _ & _ & Hrun & Hproc & _).
  split; [exact Hproc|]. by eapply (Hrun 1).
Defined.

(** The process does come up there. *)
Example boot_example :
  is_Some (boot (λ _, Some parallel_backup) (LoadConfig EnvNoFile (λ _, "3")) (Ok tt) (Ok tt)
       (DirEntries [{| entry_name := "backup.yaml"; entry_isDir := false; entry_data := Some EmptyString |}]) (Ok tt)
       (sv_world busy_server)).1.
Proof. vm_compute. eexists. reflexivity. Qed.

Lemma scheduler_never_overlaps_witness :
  wp (scheduler_tick backup_registry "parallel_backup") backup_world (λ _ w', w_db w' = backup_db).
Proof.
  eapply wp_mono; [apply (scheduler_never_overlaps Store _ (λ _, true) backup_registry backup_world backup_registry_ok)|].
  intros [] w' [Hact _]. apply Hact. exists 1, (RunRec "parallel_backup" RunRunning 1 4). by split_and!.
Defined.

Definition idle_db : db := Db ∅ ∅ ∅ {[1 := KeyRec "ci" (key_hash_of "orq_00")]} 1 1 1 2.
Definition idle_world : world Store := World idle_db [] empty_store [] 0.
Definition echo_payload : string := step_payload "echo hi" EmptyString.
Definition echo_request : Request :=
  post_job (Marshal (JObj [("max_retries", num 2); ("payload", JStr echo_payload); ("type", JStr "shell")])).
Definition echo_outcome : shell_outcome :=
  {| sh_stdout := "hi" +:+ newline; sh_stderr := EmptyString; sh_err := None |}.

Lemma idle_db_ok : db_ok idle_db.
Proof.
  split.
  - apply map_Forall_empty.
  - intros i i' j j' r s Hj. by apply (lookup_empty_Some (M := gmap Z) i j) in Hj.
  - apply map_Forall_empty.
  - apply map_Forall_empty.
  - intros i i' k k' Hi Hi' _. unfold idle_db in Hi, Hi'. cbn [api_keys] in Hi, Hi'.
    apply lookup_singleton_Some in Hi as [<- _], Hi' as [<- _]. done.
  - cbn. lia.
Qed.

Lemma submitted_job_completes_witness :
  wp (ServeHTTP backup_registry no_text (λ _, true) echo_request) idle_world (λ rs w1, ∃ id,
    rs = writeJSON 201 (JObj [("job_id", num id)]) ∧ (in_int32 id = true →
    wp (relay ∅) (World (w_db w1) [] (w_q w1) [] 1) (λ _ w2,
      let se1 := session_step no_json_text no_overflow backup_registry utf8_only "w" (SEReady Background 1)
        (session_start (Server (World (w_db w2) [] (w_q w2) [] 2) ∅ ∅)) in
      se_worker (session_step no_json_text no_overflow backup_registry utf8_only "w" (SEExit echo_outcome) se1) = Looping))).
Proof.
  eapply wp_mono; [apply (submitted_job_completes Store Store_RedisLaws "jobs" 1000000000 no_overflow backup_registry no_text (λ _, true)
    no_json_text utf8_only "w" echo_request {| jr_Type := "shell"; jr_Payload := echo_payload; jr_MaxRetries := 2 |}
    idle_world echo_outcome 1 "hi" 1 2 3)|].
  - exact idle_db_ok.
  - split; reflexivity.
  - by split.
  - reflexivity.
  - intros k e Hk. by apply (lookup_empty_Some (M := gmap Z) k e) in Hk.
  - exists "orq_00". split_and!; [reflexivity|discriminate|]. exists 1, (KeyRec "ci" (key_hash_of "orq_00")). split; reflexivity.
  - reflexivity.
  - vm_compute. reflexivity.
  - cbn. lia.
  - vm_compute. reflexivity.
  - auto.
  - split; [reflexivity|]. intros res Hres. exact Hres.
  - vm_compute. reflexivity.
  - vm_compute. reflexivity.
  - intros rs w1 (id & Hrs & Hrest). exists id. split; [exact Hrs|]. intros Hid.
    eapply wp_mono; [exact (Hrest Hid)|]. intros r2 w2 (_ & Hloop & _). exact Hloop.
Defined.
